(* ===== verification/_CoqProject ===== *)
-Q . S2P
Prelude.v
Ints.v
Hex.v
Errors.v
Prims.v
Memory.v
Toy.v
Aad.v
Kdf.v
Metadata.v
Auth.v
Recovery.v
Segments.v
Blob.v
Integrity.v
Path.v
Process.v
Threads.v
Io.v
IoSpec.v
BlobFile.v
EncryptFile.v
Publish.v
DecryptFile.v
Jobs.v
Concurrent.v
WellFormed.v
Vault.v
Zeroize.v
ZeroizeVault.v
Ffi.v
ZeroizeFfi.v
Types.v
Suite.v
Tests.v
FileSuite.v
FileTests.v
Json.v
Fixtures.v
