(* ===== verification/Prelude.v ===== *)
(** * A verification development for filum-crypto

    filum-crypto is a small encryption library: a vault derives three keys from a 32-byte master
    secret and uses them to encrypt blobs (in memory and from file to file), to encrypt metadata
    fields, and to sign challenges. This library models the whole of its Rust code, the crate
    [src/crates/filum-crypto] and the binding crate [src/crates/filum-crypto-uniffi], with the unit
    tests of the crate and the fixtures it makes for its Swift tests, and proves what makes it
    correct. The generated scaffolding and the Swift bindings are not modelled.

    ** Files and the code they model

    - [Prelude]: bytes, [result] ([std::result::Result]), the state monad [st], lemmas on lists.
      [Ints]: machine integers, big-endian bytes, [{:016x}]. [Hex]: hexadecimal text, words.
    - [Errors]: [error.rs].
    - [Prims]: the third-party crates (rand_core, aes-gcm and its STREAM objects, hkdf,
      ed25519-dalek, bip39) as classes of operations, and, as separate classes, the documented
      behaviour the source relies on. [Toy]: one lawful instance, on which witnesses run.
    - [Aad]: [aad.rs], the associated data that binds ciphertexts to identifiers.
    - [Kdf]: [kdf.rs]. [Metadata]: [metadata.rs]. [Auth]: [auth.rs]. [Recovery]: [recovery.rs].
    - [Segments]: cutting a string into chunks and sealing a sequence of segments, the reference
      for the loops of [blob.rs].
    - [Blob]: [blob.rs], the key wrap, the 72-byte header, [encrypt_chunked], [decrypt_chunked].
      [Integrity]: no string decodes but those its key has sealed, short of a forgery.
    - [Path]: the part of [std::path] that [blob.rs] uses. [Process]: programs as resumptions that
      stop at every system call, the monad [io], and total weakest preconditions [wp] under
      interference. [Threads]: processes side by side and their interleavings. [Io]: the part of
      [std::fs] and [std::io] the source uses (files, rename, [BufReader], [BufWriter] with its
      [Drop]). [IoSpec]: specifications of these operations.
    - [BlobFile]: [blob.rs], [read_full], [encrypt_file_chunked], [TempCleanup],
      [sibling_temp_path], [decrypt_file_chunked]; proofs about reading.
    - [EncryptFile]: [encrypt_file_chunked] against an interface of what a file written in place
      is, and for one process alone.
    - [Publish]: [decrypt_file_chunked] against an interface of what a published file is, under any
      interference that respects it. [DecryptFile]: its instance for one process alone.
    - [Jobs], [Concurrent]: any number of encryptions and decryptions side by side; the
      interference between them, and their instances of both interfaces. [WellFormed]: what both
      file codecs preserve.
    - [Vault]: [vault.rs]. [Ffi]: the [lib.rs] of the binding crate. [Types]: the lengths of all
      fixed-size arrays.
    - [Memory], [Zeroize], [ZeroizeFfi]: the functions that own key material once more, with the
      buffers that hold it and what wipes them; the names have the suffix [_mem]. [ZeroizeVault]:
      the life of a vault, from [open] through any sequence of its eight methods to its drop.
    - [Suite], [Tests]: the [#[cfg(test)]] functions that work in memory, as programs that may
      panic. [FileSuite], [FileTests]: those of [blob.rs] that use files, with the temporary files
      and directories of [tempfile] and a logic for such tests.
    - [Json]: the libraries that write and read JSON, a class with laws and a concrete instance.
      [Fixtures]: [tests/generate_fixtures.rs] and [CrossLanguageFixtureTests.swift].

    ** How state and effects are represented

    A function of the source that draws randomness is a function of the state of the entropy
    source ([st rng]). A function that uses files is a computation over [Io.world]: the entropy
    source, a file system (a directory from paths to inodes, an inode having contents and a flag
    that says whether they are on stable storage), a schedule of answers to the system calls to
    come (in full, partial, interrupted, failing), and the history of every file-system state.
    Every system call is one step of a program ([Process.Call]); between two steps the file system
    may be changed by others. [Process.run] runs a program alone. [scoped] runs the [Drop] of a
    value where Rust does, on return and on early error. A Rust array is the list of its bytes;
    its length is a hypothesis where the code does not check it and a lemma where the model makes
    it ([Types]).

    ** Buffers

    The definitions on values say nothing of what stays in memory. [Memory.mem] computations run
    over a store of all buffers ever made; a buffer keeps its contents until somebody writes to it.
    [zeroizing] is the scope of a [Zeroizing] value, [moved_out] the scope of one that is moved
    into the result, [zeroize] the explicit call; a value that is [Copy] is read out and its buffer
    stays. A move hands the buffer over, as the header of [vault.rs] describes it. The plain
    definitions stay the reference: [refines_clean] and [files_clean] say that the two agree.

    ** Interference

    [Process.Interference] is a rely/guarantee pair: what other processes may do to the file system
    between two steps, and what each step of this one does. The specifications of [IoSpec],
    [BlobFile], [EncryptFile] and [Publish] are proved once, under any such pair in which the input
    and the file being written are left alone; the instance [alone] gives the theorems on one
    process, [Concurrent.job_interference] those on parallel jobs, which [Threads] composes.
    Each process has an entropy source and a schedule of answers of its own.

    ** What is shown

    - In memory: decryption inverts encryption ([blob_round_trip]); the exact bytes of a frame
      ([encrypted_frame_layout]); a blob that decodes is a sealing, byte for byte, of what it
      decodes to ([decrypt_chunked_sound]); all errors and guards; a string that is none of the
      frames made under its key and blob id is refused, and a frame is refused under another id,
      unless AES-GCM has been forged ([blob_integrity], [transplanted_blob_rejected]).
    - On files: both file codecs always return and refine the in-memory ones under every schedule
      of short transfers and faults ([encrypt_file_refines], [decrypt_file_refines]); decryption
      is atomic ([decrypt_file_atomic], a three-stage abstract specification [stage]): success
      publishes a new file with the whole plaintext, and failure leaves every path as it was, except
      that a temporary file stays behind when its removal is itself refused; it is crash safe; a
      blob that does not open leaves no trace; encrypting in place loses the file
      ([encrypt_file_in_place_truncates]); the two decoders differ on a last segment of full size
      ([full_last_segment_divergence]).
    - In parallel: encryptions and decryptions do not disturb each other under any interleaving
      ([concurrent_jobs_safe]), nor does a crash that loses unsynced contents and any number of the
      latest changes of the directory ([concurrent_jobs_crash_safe]), and all of them come to an
      end ([concurrent_jobs_finish]). The random temporary names are what this rests on
      ([colliding_temps_publish_mixture]), and an encryption, which writes its output in place,
      must be the only job at it ([encryptions_to_one_path_mix]).
    - Associated data: the encodings are prefix-free and disjoint. Metadata, signatures, recovery
      phrases: round trips, every branch of the errors, transplant and replay.
    - Vault and bindings: a vault restored from its phrase is interchangeable with the original,
      in memory, on files, and across the binding layer, which loses no error and no byte; the
      contract of the file operations for a foreign caller, with what every error says of the files
      ([ffi_file_contract]).
    - Secrets in memory: the functions with buffers compute what those on values compute; a vault
      leaves no key behind, whatever is done with it, on files too ([vault_lifetime_wiped]), nor do
      the file codecs, on any exit and under any interference ([file_codecs_wiped]); in the binding
      layer every buffer is accounted for, down to the phrase and the one copy of the master secret
      that stay ([ffi_secrets_accounted]).
    - The unit tests pass with every lawful implementation of the third-party crates, those that
      present a forgery unless it succeeds ([positive_tests_pass], [negative_tests_pass]); those on
      files also leave the file system as they found it ([file_tests_pass]). The fixtures that the
      generator writes pass the Swift tests that read them, and those of the retired format are
      refused ([regenerated_fixtures_pass]).

    ** Hypotheses on cryptography

    No theorem assumes that a forgery is impossible: that is not a property of a function. The
    theorems about tampering, transplants and replays end in a disjunction, either the code refuses
    or a named forgery event has happened to the very strings at hand ([aad_collision],
    [forged_header], [forged_wrap], [forged_segment], [forged_replay]). Every event fixes the key,
    the ciphertext, the nonce and the associated data (or the message) that the code itself passes
    to the primitive, so that it is a forgery by whoever made those strings, and not the existence
    of a collision somewhere. [forged_wrap] speaks of all the frames that were made under the key, so
    that none of them is a forgery of another, and [forged_segment] of all the segments that were
    made under the data key of a frame. The laws of [Prims] are lengths, correctness, tidiness of AES-GCM (a ciphertext is accepted only if it
    is the encryption of what it decrypts to) and the documented limits.

    ** Bounds and fuel

    The loops of [Io] and [BlobFile] are fixpoints with fuel. [write_all] and [flush_buf] get one
    unit more than the answers left in the schedule (an iteration either uses one or writes
    everything), [read_exact] the bytes asked for plus those answers, [read_full] the bytes asked
    for, the chunk loop one more than the length of its input file. Running out of fuel is
    [Process.Stuck], which no [wp] admits, so the fuel is proved to be enough. [CHUNK_SIZE] is the
    real 2{^20}.

    ** What is not modelled

    The inner state of third-party objects after they are dropped, copies of secrets that a compiler
    makes when it moves values and those a growing vector or string leaves behind, wiping on a
    panic, directories and symbolic links (a path is its list of components, so that two spellings of
    one file that differ in more than a [.] or a [/] are two paths), the generated scaffolding and
    Swift bindings, the Swift tests that use no fixture, and the cryptographic primitives themselves:
    the known-answer tests of HKDF and AES-GCM are modelled, and what they establish is stated
    ([known_answer_tests_exact]), but no law says that a provider passes them. *)

From stdpp Require Export prelude gmap.
From Stdlib Require Export Strings.Byte.
From Stdlib Require Export Strings.String.
From stdpp Require Export list strings.

#[global] Open Scope nat_scope.

(** ** Bytes and byte strings *)

Abbreviation bytes := (list byte).

(** A Rust [&str]/[String] is its sequence of UTF-8 bytes ([str::as_bytes]). *)
Abbreviation str := (list byte).

#[export] Instance byte_eq_dec : EqDecision byte := Byte.byte_eq_dec.

#[export] Instance byte_countable : Countable byte :=
  inj_countable Byte.to_N Byte.of_N Byte.of_to_N.

(** The bytes of an ASCII literal, for the string constants of the source. *)
Definition lit (s : string) : bytes := String.list_byte_of_string s.
#[global] Arguments lit : simpl never.

(** [&l[lo..hi]]: every use in the source is guarded so that [lo <= hi <= len]. *)
Definition slice {A} (l : list A) (lo hi : nat) : list A := take (hi - lo) (drop lo l).

(** ** Fallible computations: [std::result::Result] *)

Inductive result (E A : Type) : Type :=
| Ok (a : A)
| Err (e : E).
Arguments Ok {E A} a.
Arguments Err {E A} e.

#[export] Instance result_ret {E} : MRet (result E) := λ A a, Ok a.
#[export] Instance result_bind {E} : MBind (result E) := λ A B f m,
  match m with Ok a => f a | Err e => Err e end.

(** [Result::map_err]. *)
Definition map_err {E E' A} (f : E → E') (r : result E A) : result E' A :=
  match r with Ok a => Ok a | Err e => Err (f e) end.

(** A library call that fails opaquely, followed by [.map_err(|_| e)] or [.ok_or(e)]. *)
Definition ok_or {E A} (o : option A) (e : E) : result E A :=
  match o with Some a => Ok a | None => Err e end.

Definition is_ok {E A} (r : result E A) : bool :=
  match r with Ok _ => true | Err _ => false end.

(** [r] has no other error than [e]. *)
Definition fails_only {E A} (e : E) (r : result E A) : Prop :=
  match r with Ok _ => True | Err e' => e' = e end.

Lemma fails_only_bind {E A B} (e : E) (m : result E A) (f : A → result E B) :
  fails_only e m → (∀ a, fails_only e (f a)) → fails_only e (m ≫= f).
Proof. destruct m; simpl; auto. Qed.

Lemma fails_only_ok_or {E A} (e : E) (o : option A) : fails_only e (ok_or o e).
Proof. by destruct o. Qed.

Lemma fails_only_if {E A} (e : E) (c : bool) (r1 r2 : result E A) :
  fails_only e r1 → fails_only e r2 → fails_only e (if c then r1 else r2).
Proof. by destruct c. Qed.

(** ** Stateful fallible computations: a state is threaded and a result always returned. *)

Definition st (S E A : Type) : Type := S → result E A * S.

#[export] Instance st_ret {S E} : MRet (st S E) := λ A a s, (Ok a, s).
#[export] Instance st_bind {S E} : MBind (st S E) := λ A B f m s,
  match m s with
  | (Ok a, s') => f a s'
  | (Err e, s') => (Err e, s')
  end.

Definition st_lift {S E A} (r : result E A) : st S E A := λ s, (r, s).

(** *** Tactics for monadic programs *)

(** Reduce the monad operations only. *)
Ltac rsimpl :=
  cbv beta iota zeta delta [mbind mret result_bind result_ret st_bind st_ret
                            ok_or map_err st_lift].
Ltac rsimpl_in H :=
  cbv beta iota zeta delta [mbind mret result_bind result_ret st_bind st_ret
                            ok_or map_err st_lift] in H.

(** Case analysis on the next fallible call in a hypothesis or in the goal. *)
Ltac case_result H :=
  match type of H with
  | context [ok_or ?o _] => let E := fresh "E" in destruct o eqn:E; simpl in H
  | context [match ?x with Ok _ => _ | Err _ => _ end] =>
      let E := fresh "E" in destruct x eqn:E; simpl in H
  end.

(** The error analysis of a sequence of fallible calls. *)
Create HintDb filum.
Create Rewrite HintDb filum.
#[export] Hint Resolve fails_only_bind fails_only_ok_or fails_only_if : filum.
#[export] Hint Extern 1 (fails_only _ (Ok _)) => exact I : filum.
#[export] Hint Extern 1 (fails_only _ (Err _)) => reflexivity : filum.

(** ** Generic lemmas on lists *)

Lemma slice_length {A} (l : list A) lo hi :
  lo ≤ hi → hi ≤ length l → length (slice l lo hi) = hi - lo.
Proof. intros. unfold slice. rewrite length_take, length_drop. lia. Qed.

Lemma slice_app_l {A} (l k : list A) n : length l = n → slice (l ++ k) 0 n = l.
Proof.
  intros <-. unfold slice. rewrite drop_0, Nat.sub_0_r. apply take_app_length.
Qed.

(** A slice of the first part of a concatenation. *)
Lemma slice_app_le {A} (l k : list A) lo hi :
  hi ≤ length l → slice (l ++ k) lo hi = slice l lo hi.
Proof.
  intros. unfold slice. destruct (decide (lo ≤ hi)).
  - rewrite drop_app_le by lia. rewrite take_app_le; [done|]. rewrite length_drop. lia.
  - replace (hi - lo) with 0 by lia. by rewrite !take_0.
Qed.

Lemma slice_app_r {A} (l k : list A) lo hi n :
  length l = n → n ≤ lo → slice (l ++ k) lo hi = slice k (lo - n) (hi - n).
Proof.
  intros <- ?. unfold slice. rewrite drop_app_ge by lia. f_equal; lia.
Qed.

(** Splitting two equal concatenations whose first parts have the same length. *)
Lemma app_eq_len {A} (l1 l2 k1 k2 : list A) :
  length l1 = length l2 → l1 ++ k1 = l2 ++ k2 → l1 = l2 ∧ k1 = k2.
Proof. intros Hlen H. by apply app_inj_1. Qed.

Lemma take_drop_slice {A} (l : list A) n m :
  n ≤ m → take m l = take n l ++ slice l n m.
Proof.
  intros. unfold slice. rewrite <- (take_drop n l) at 1.
  rewrite take_app, take_take, length_take.
  replace (m `min` n) with n by lia.
  destruct (decide (n ≤ length l)).
  - by replace (m - n `min` length l) with (m - n) by lia.
  - rewrite drop_ge by lia. by rewrite !take_nil.
Qed.

Lemma slice_slice {A} (l : list A) lo hi i j :
  i ≤ j → lo + j ≤ hi → slice (slice l lo hi) i j = slice l (lo + i) (lo + j).
Proof.
  intros. unfold slice. replace (hi - lo) with (i + (hi - lo - i)) by lia.
  rewrite <-take_drop_commute, take_take, drop_drop. f_equal. lia.
Qed.

Lemma slice_0 {A} (l : list A) n : slice l 0 n = take n l.
Proof. unfold slice. by rewrite drop_0, Nat.sub_0_r. Qed.

Lemma slice_to_end {A} (l : list A) lo hi : length l ≤ hi → slice l lo hi = drop lo l.
Proof. intros. unfold slice. rewrite take_ge; [done|]. rewrite length_drop. lia. Qed.

(** Prefixes of a concatenation of blocks of one length. *)
Lemma concat_length_const {A} (n : nat) (l : list (list A)) :
  Forall (λ x, length x = n) l → length (concat l) = length l * n.
Proof.
  induction 1 as [|x l Hx _ IH]; [done|]. cbn [concat length].
  rewrite length_app, IH, Hx, Nat.mul_succ_l. apply Nat.add_comm.
Qed.
