(* ===== verification/Ints.v ===== *)
(** * Machine integers and their byte encodings

    The integer conversions the source uses: [as u8]/[as u32] (truncation), [u32::try_from],
    [to_be_bytes]/[from_be_bytes] and the formatting of a [u64] as 16 hexadecimal digits.
    A machine integer is a [Z] in range; every function that could leave the range reduces
    modulo the width. *)

From S2P Require Import Prelude.
From Stdlib Require Import ZArith Lia.
Local Open Scope Z_scope.

(** ** Bytes as integers *)

Definition byte_to_Z (x : byte) : Z := Z.of_N (Byte.to_N x).

(** [as u8]: the low eight bits. *)
Definition byte_of_Z (z : Z) : byte :=
  match Byte.of_N (Z.to_N (z mod 256)) with Some x => x | None => x00 end.

(** [as u32]. *)
Definition as_u32 (z : Z) : Z := z mod 2 ^ 32.

(** [u32::try_from(n)] for a [usize] [n]. *)
Definition u32_try_from (n : nat) : option Z :=
  if Z.of_nat n <? 2 ^ 32 then Some (Z.of_nat n) else None.

Lemma byte_to_Z_range x : 0 <= byte_to_Z x < 256.
Proof.
  unfold byte_to_Z. pose proof (Byte.to_N_bounded x). lia.
Qed.

Lemma byte_to_of_Z z : byte_to_Z (byte_of_Z z) = z mod 256.
Proof.
  unfold byte_to_Z, byte_of_Z.
  pose proof (Z.mod_pos_bound z 256 ltac:(lia)) as Hr.
  destruct (Byte.of_N (Z.to_N (z mod 256))) as [x|] eqn:Hx.
  - apply Byte.to_of_N in Hx. rewrite Hx. lia.
  - apply Byte.of_N_None_iff in Hx. lia.
Qed.

Lemma byte_to_Z_inj x y : byte_to_Z x = byte_to_Z y → x = y.
Proof.
  unfold byte_to_Z. intros H%N2Z.inj.
  pose proof (Byte.of_to_N x). pose proof (Byte.of_to_N y). congruence.
Qed.

Lemma byte_of_to_Z x : byte_of_Z (byte_to_Z x) = x.
Proof.
  apply byte_to_Z_inj. rewrite byte_to_of_Z.
  apply Z.mod_small, byte_to_Z_range.
Qed.

(** ** Big-endian encodings *)

(** The [n] low bytes of [z], most significant first: [to_be_bytes] at width [8 * n]. *)
Fixpoint be_bytes (n : nat) (z : Z) : bytes :=
  match n with
  | O => []
  | S n' => be_bytes n' (z / 256) ++ [byte_of_Z z]
  end.

(** [from_be_bytes]. *)
Definition from_be_bytes (l : bytes) : Z :=
  foldl (λ acc x, acc * 256 + byte_to_Z x) 0 l.

Definition u32_to_be_bytes (z : Z) : bytes := be_bytes 4 z.
Definition u32_from_be_bytes (l : bytes) : Z := from_be_bytes l.
Definition u64_from_be_bytes (l : bytes) : Z := from_be_bytes l.

Lemma be_bytes_length n z : length (be_bytes n z) = n.
Proof.
  revert z. induction n as [|n IH]; intros z; simpl; [done|].
  rewrite length_app, IH. simpl. lia.
Qed.

Lemma from_be_bytes_snoc l x :
  from_be_bytes (l ++ [x]) = from_be_bytes l * 256 + byte_to_Z x.
Proof. unfold from_be_bytes. by rewrite foldl_app. Qed.

Lemma from_be_bytes_range l : 0 <= from_be_bytes l < 256 ^ Z.of_nat (length l).
Proof.
  induction l as [|x l IH] using rev_ind; [done|].
  rewrite from_be_bytes_snoc, length_app. simpl length.
  replace (Z.of_nat (length l + 1)) with (Z.of_nat (length l) + 1) by lia.
  rewrite Z.pow_add_r by lia. pose proof (byte_to_Z_range x). lia.
Qed.

(** [from_be_bytes(to_be_bytes(z)) = z], up to the width. *)
Lemma from_be_be_bytes n z : from_be_bytes (be_bytes n z) = z mod 256 ^ Z.of_nat n.
Proof.
  revert z. induction n as [|n IH]; intros z; simpl be_bytes.
  - by rewrite Z.mod_1_r.
  - rewrite from_be_bytes_snoc, IH, byte_to_of_Z.
    replace (Z.of_nat (S n)) with (1 + Z.of_nat n) by lia.
    rewrite Z.pow_add_r, Z.pow_1_r, Z.rem_mul_r by lia. lia.
Qed.

(** [to_be_bytes(from_be_bytes(l)) = l]. *)
Lemma be_from_be_bytes l : be_bytes (length l) (from_be_bytes l) = l.
Proof.
  induction l as [|x l IH] using rev_ind; [done|].
  rewrite length_app, Nat.add_comm. simpl be_bytes.
  rewrite from_be_bytes_snoc. pose proof (byte_to_Z_range x).
  f_equal.
  - rewrite Z.div_add_l, Z.div_small by lia. by rewrite Z.add_0_r.
  - f_equal. apply byte_to_Z_inj. rewrite byte_to_of_Z.
    rewrite Z.add_comm, Z_mod_plus_full. by apply Z.mod_small.
Qed.

Lemma be_bytes_inj n z1 z2 :
  0 <= z1 < 256 ^ Z.of_nat n → 0 <= z2 < 256 ^ Z.of_nat n →
  be_bytes n z1 = be_bytes n z2 → z1 = z2.
Proof.
  intros H1 H2 H%(f_equal from_be_bytes). rewrite !from_be_be_bytes in H.
  by rewrite !Z.mod_small in H.
Qed.

Lemma from_be_bytes_inj l1 l2 :
  length l1 = length l2 → from_be_bytes l1 = from_be_bytes l2 → l1 = l2.
Proof.
  intros Hlen H. rewrite <-(be_from_be_bytes l1), <-(be_from_be_bytes l2). congruence.
Qed.

(** ** Hexadecimal formatting *)

Definition hex_digit (z : Z) : byte :=
  if z <? 10 then byte_of_Z (48 + z) else byte_of_Z (87 + z).

(** [n] lower-case hexadecimal digits, zero-padded on the left. *)
Fixpoint hex_fmt (n : nat) (z : Z) : bytes :=
  match n with
  | O => []
  | S n' => hex_fmt n' (z / 16) ++ [hex_digit (z mod 16)]
  end.

(** [format!("{:016x}", z)] for a [u64]. *)
Definition fmt_016x (z : Z) : bytes := hex_fmt 16 z.

Lemma hex_fmt_length n z : length (hex_fmt n z) = n.
Proof.
  revert z. induction n as [|n IH]; intros z; simpl; [done|].
  rewrite length_app, IH. simpl. lia.
Qed.

Lemma byte_of_Z_inj z1 z2 :
  0 <= z1 < 256 → 0 <= z2 < 256 → byte_of_Z z1 = byte_of_Z z2 → z1 = z2.
Proof.
  intros H1 H2 H%(f_equal byte_to_Z). rewrite !byte_to_of_Z in H.
  by rewrite !Z.mod_small in H.
Qed.

Lemma hex_digit_inj z1 z2 :
  0 <= z1 < 16 → 0 <= z2 < 16 → hex_digit z1 = hex_digit z2 → z1 = z2.
Proof.
  intros H1 H2. unfold hex_digit.
  destruct (Z.ltb_spec z1 10), (Z.ltb_spec z2 10);
    intros Heq%byte_of_Z_inj; lia.
Qed.

Lemma hex_fmt_inj n z1 z2 :
  0 <= z1 < 16 ^ Z.of_nat n → 0 <= z2 < 16 ^ Z.of_nat n →
  hex_fmt n z1 = hex_fmt n z2 → z1 = z2.
Proof.
  revert z1 z2. induction n as [|n IH]; intros z1 z2 H1 H2 Heq.
  - simpl in *. lia.
  - replace (Z.of_nat (S n)) with (Z.of_nat n + 1) in H1, H2 by lia.
    rewrite Z.pow_add_r in H1, H2 by lia. change (16 ^ 1) with 16 in H1, H2.
    simpl in Heq. apply app_inj_2 in Heq as [Hhi Hlo]; [|done].
    apply IH in Hhi; [|by split; [apply Z.div_pos|apply Z.div_lt_upper_bound]; lia..].
    injection Hlo as Hlo%hex_digit_inj; [|by apply Z.mod_pos_bound..].
    rewrite (Z.div_mod z1 16), (Z.div_mod z2 16) by lia. congruence.
Qed.

(** A [u64] is printed with exactly 16 digits, so the printing loses nothing. *)
Lemma fmt_016x_inj l1 l2 :
  length l1 = 8%nat → length l2 = 8%nat →
  fmt_016x (u64_from_be_bytes l1) = fmt_016x (u64_from_be_bytes l2) → l1 = l2.
Proof.
  intros Hl1 Hl2 H%hex_fmt_inj.
  - apply from_be_bytes_inj; [congruence|done].
  - pose proof (from_be_bytes_range l1) as R. by rewrite Hl1 in R.
  - pose proof (from_be_bytes_range l2) as R. by rewrite Hl2 in R.
Qed.

(** No digit is a path separator. *)
Lemma hex_digit_not_slash z : 0 <= z < 16 → hex_digit z ≠ x2f.
Proof.
  intros Hz Heq. apply (f_equal byte_to_Z) in Heq. unfold hex_digit in Heq.
  destruct (Z.ltb_spec z 10); rewrite byte_to_of_Z, Z.mod_small in Heq by lia;
    change (byte_to_Z x2f) with 47 in Heq; lia.
Qed.

Lemma hex_fmt_no_slash n z : x2f ∉ hex_fmt n z.
Proof.
  revert z. induction n as [|n IH]; intros z; simpl; [set_solver|].
  rewrite elem_of_app, list_elem_of_singleton. intros [H|H]; [by eapply IH|].
  symmetry in H. apply hex_digit_not_slash in H; [done|by apply Z.mod_pos_bound].
Qed.

#[export] Hint Rewrite be_bytes_length hex_fmt_length : filum.

#[global] Arguments be_bytes : simpl never.
#[global] Arguments hex_fmt : simpl never.
#[global] Arguments u32_to_be_bytes : simpl never.
#[global] Arguments u32_from_be_bytes : simpl never.
