(* ===== verification/Hex.v ===== *)
(** * Text: hexadecimal digits and words

    The parts of [std] with which the tests read hexadecimal text and count words, as functions on
    the bytes of the text. *)

From S2P Require Import Prelude Ints.
From Stdlib Require Import ZArith Lia.

(** ** Hexadecimal *)

(** [char::to_digit(16)]. *)
Definition hex_value (b : byte) : option Z :=
  let z := byte_to_Z b in
  if ((48 <=? z) && (z <=? 57))%Z then Some (z - 48)%Z else
  if ((65 <=? z) && (z <=? 70))%Z then Some (z - 55)%Z else
  if ((97 <=? z) && (z <=? 102))%Z then Some (z - 87)%Z else None.

(** The digits of a [u8], checked for overflow. *)
Fixpoint radix_16 (acc : Z) (s : str) : option Z :=
  match s with
  | [] => Some acc
  | b :: s' =>
      d ← hex_value b;
      let acc' := (acc * 16 + d)%Z in
      if (acc' <=? 255)%Z then radix_16 acc' s' else None
  end.

(** [u8::from_str_radix(s, 16)]: a leading plus is accepted. *)
Definition u8_from_str_radix_16 (s : str) : option byte :=
  match s with
  | [] => None
  | b :: s' =>
      byte_of_Z <$> (if bool_decide (b = x2b ∧ s' ≠ []) then radix_16 0 s' else radix_16 0 s)
  end.

(** [UInt8(s, radix: 16)] of Swift: a leading sign is accepted, and the value must fit. *)
Definition UInt8_radix_16 (s : str) : option byte :=
  match s with
  | [] => None
  | b :: s' =>
      if bool_decide (b = x2d ∧ s' ≠ [])
      then z ← radix_16 0 s'; if (z =? 0)%Z then Some (byte_of_Z 0) else None
      else u8_from_str_radix_16 s
  end.

(** The bytes of a text of digit pairs, each read by [read]. *)
Fixpoint read_pairs (read : str → option byte) (s : str) : option bytes :=
  match s with
  | [] => Some []
  | a :: s' =>
      match s' with
      | [] => None
      | b :: s'' => x ← read [a; b]; l ← read_pairs read s''; Some (x :: l)
      end
  end.

Definition hex_pairs : str → option bytes := read_pairs u8_from_str_radix_16.

(** Two lower-case digits for every byte. *)
Definition hex_of_bytes (l : bytes) : str := concat ((λ b, hex_fmt 2 (byte_to_Z b)) <$> l).

Lemma read_pairs_of_bytes read l :
  (∀ b, read (hex_fmt 2 (byte_to_Z b)) = Some b) → read_pairs read (hex_of_bytes l) = Some l.
Proof.
  intros Hread. induction l as [|b l IH]; [done|]. unfold hex_of_bytes. rewrite fmap_cons. cbn [concat].
  fold (hex_of_bytes l). pose proof (Hread b) as Hb. pose proof (hex_fmt_length 2 (byte_to_Z b)) as Hl.
  destruct (hex_fmt 2 (byte_to_Z b)) as [|a [|c [|? ?]]]; try done.
  cbn [app read_pairs]. rewrite Hb. simpl. by rewrite IH.
Qed.

Lemma hex_pairs_of_bytes l : hex_pairs (hex_of_bytes l) = Some l.
Proof. apply read_pairs_of_bytes. intros b. by destruct b; vm_compute. Qed.

Lemma swift_pairs_of_bytes l : read_pairs UInt8_radix_16 (hex_of_bytes l) = Some l.
Proof. apply read_pairs_of_bytes. intros b. by destruct b; vm_compute. Qed.

(** ** Words *)

(** [char::is_whitespace] on ASCII. *)
Definition is_whitespace (b : byte) : bool := bool_decide (b ∈ [x09; x0a; x0b; x0c; x0d; x20]).

(** [str::split_whitespace] on ASCII text, after the letters [word] of a first word. *)
Fixpoint split_whitespace (word : str) (s : str) : list str :=
  match s with
  | [] => if bool_decide (word = []) then [] else [word]
  | b :: s' =>
      if is_whitespace b
      then (if bool_decide (word = []) then [] else [word]) ++ split_whitespace [] s'
      else split_whitespace (word ++ [b]) s'
  end.

(** Lower-case letters, at least one. *)
Definition is_letter (b : byte) : bool := ((97 <=? byte_to_Z b) && (byte_to_Z b <=? 122))%Z.
Definition is_word (w : str) : Prop := w ≠ [] ∧ Forall (λ b, is_letter b = true) w.

(** The words with single spaces between them. *)
Fixpoint unwords (ws : list str) : str :=
  match ws with
  | [] => []
  | w :: ws' => match ws' with [] => w | _ :: _ => w ++ x20 :: unwords ws' end
  end.

Lemma letter_not_whitespace b : is_letter b = true → is_whitespace b = false.
Proof. by destruct b. Qed.

Lemma split_whitespace_word word w s :
  Forall (λ b, is_letter b = true) w →
  split_whitespace word (w ++ s) = split_whitespace (word ++ w) s.
Proof.
  intros Hw. revert word. induction Hw as [|b w Hb Hw IH]; intros word; [by rewrite app_nil_r|].
  cbn [app split_whitespace]. rewrite (letter_not_whitespace _ Hb), IH, <-app_assoc. done.
Qed.

Lemma split_unwords ws : Forall is_word ws → split_whitespace [] (unwords ws) = ws.
Proof.
  induction 1 as [|w ws [Hne Hw] Hws IH]; [done|]. cbn [unwords]. destruct ws as [|w' ws].
  - rewrite <-(app_nil_r w) at 1. rewrite split_whitespace_word by done. simpl.
    by rewrite bool_decide_false.
  - rewrite split_whitespace_word by done. cbn [app split_whitespace].
    change (is_whitespace x20) with true. cbv iota. rewrite bool_decide_false by done.
    cbn [app]. by rewrite IH.
Qed.
