(* ===== verification/Errors.v ===== *)
(** * The error type of the crate ([error.rs])

    Every public operation fails with one of seven payload-free variants. *)

From S2P Require Import Prelude.
Local Open Scope string_scope.

Inductive FilumCryptoError : Type :=
| Aead
| InvalidPhrase
| InvalidContext
| InvalidKeyLength
| InvalidSignature
| Randomness
| Io.

#[export] Instance FilumCryptoError_eq_dec : EqDecision FilumCryptoError.
Proof. solve_decision. Defined.

(** [error::Result]. *)
Abbreviation Result := (result FilumCryptoError).

(** The [Display] text of each variant, from its [#[error("...")]] attribute. *)
Definition display (e : FilumCryptoError) : string :=
  match e with
  | Aead => "AEAD operation failed"
  | InvalidPhrase => "invalid recovery phrase"
  | InvalidContext => "invalid context identifier"
  | InvalidKeyLength => "invalid key length"
  | InvalidSignature => "invalid signature"
  | Randomness => "randomness source unavailable"
  | Io => "I/O error"
  end.

#[export] Instance display_inj : Inj (=) (=) display.
Proof. by intros [] []. Qed.
