(* ===== verification/Prims.v ===== *)
(** * Interfaces of the third-party crates

    The cryptographic primitives are not part of the repository. Each crate the source calls is
    a class of operations; a second class states the documented behaviour the source relies on.
    The definitions of the development take only the operations, and each theorem names the
    laws it needs. *)

From S2P Require Import Prelude Ints Hex Errors.
From Stdlib Require Import ZArith.

(** ** [rand_core::OsRng] *)

(** The system entropy source as a state that each request advances. *)
Class OsRng := {
  rng : Type;
  (** [OsRng.try_fill_bytes(&mut buf)] with [buf.len() = n]. *)
  try_fill_bytes : nat → rng → option bytes * rng;
}.

Class OsRngLaws `{OsRng} : Prop := {
  try_fill_bytes_length n g buf g' :
    try_fill_bytes n g = (Some buf, g') → length buf = n;
}.

(** The source's idiom [OsRng.try_fill_bytes(&mut buf).map_err(|_| Randomness)?]. *)
Definition os_fill `{OsRng} (n : nat) : st rng FilumCryptoError bytes := λ g,
  let '(buf, g') := try_fill_bytes n g in (ok_or buf Randomness, g').

Lemma os_fill_inv `{OsRngLaws} n g r g' :
  os_fill n g = (r, g') →
  (∃ buf, r = Ok buf ∧ length buf = n ∧ try_fill_bytes n g = (Some buf, g')) ∨
  (r = Err Randomness ∧ try_fill_bytes n g = (None, g')).
Proof.
  unfold os_fill. destruct (try_fill_bytes n g) as [[buf|] g1] eqn:E; intros [= <- <-].
  - left. exists buf. split_and!; [done| |done]. by eapply try_fill_bytes_length.
  - by right.
Qed.

(** ** [aes_gcm]: the AEAD and the STREAM construction over it *)

Record Payload := { msg : bytes; aad : bytes }.

Class AesGcm := {
  Aes256Gcm : Type;
  (** [Aes256Gcm::new(key)]. *)
  aes_new : bytes → Aes256Gcm;
  (** [cipher.encrypt(&nonce, Payload)] and [cipher.decrypt(&nonce, Payload)]. *)
  encrypt : Aes256Gcm → bytes → Payload → option bytes;
  decrypt : Aes256Gcm → bytes → Payload → option bytes;
  EncryptorBE32 : Type;
  DecryptorBE32 : Type;
  (** [EncryptorBE32::from_aead(cipher, &nonce_prefix)] and its dual. *)
  enc_from_aead : Aes256Gcm → bytes → EncryptorBE32;
  dec_from_aead : Aes256Gcm → bytes → DecryptorBE32;
  (** The [&mut self] methods return the updated object with the output. *)
  encrypt_next : EncryptorBE32 → Payload → option (bytes * EncryptorBE32);
  encrypt_last : EncryptorBE32 → Payload → option bytes;
  decrypt_next : DecryptorBE32 → Payload → option (bytes * DecryptorBE32);
  decrypt_last : DecryptorBE32 → Payload → option bytes;
}.

(** The authentication tag of AES-GCM. *)
Definition TAG_LEN : nat := 16.

(** The longest message and associated data the crate accepts (2{^36} bytes). *)
Definition gcm_len_ok (p : Payload) : Prop :=
  (Z.of_nat (length (msg p)) <= 2 ^ 36 ∧ Z.of_nat (length (aad p)) <= 2 ^ 36)%Z.

Section sync.
Context `{AesGcm}.

(** An encryptor and a decryptor built from the same cipher and nonce prefix that have
    processed the same [n] segments, each under the same associated data. *)
Inductive in_sync (c : Aes256Gcm) (np : bytes) : nat → EncryptorBE32 → DecryptorBE32 → Prop :=
| sync_init : in_sync c np 0 (enc_from_aead c np) (dec_from_aead c np)
| sync_next n e d m a ct e' d' :
    in_sync c np n e d →
    encrypt_next e {| msg := m; aad := a |} = Some (ct, e') →
    decrypt_next d {| msg := ct; aad := a |} = Some (m, d') →
    in_sync c np (S n) e' d'.

End sync.

(** This nonce and ciphertext are accepted under both of these associated data: whoever presents the
    second, the first being an honest encryption, has forged a message of AES-GCM. The transplant
    theorems end in this event, for the associated data of the two identifiers at hand. *)
Definition aad_collision `{AesGcm} (c : Aes256Gcm) (iv ct a a' : bytes) : Prop :=
  a ≠ a' ∧ is_Some (decrypt c iv {| msg := ct; aad := a |})
         ∧ is_Some (decrypt c iv {| msg := ct; aad := a' |}).

(** What the source relies on. Decryption inverts encryption, and AES-GCM is tidy: a
    ciphertext that is accepted is the encryption of what it decrypts to (the tag is a function
    of key, nonce, associated data and ciphertext). *)
Class AesGcmLaws `{AesGcm} : Prop := {
  gcm_length c iv p ct : encrypt c iv p = Some ct → length ct = length (msg p) + TAG_LEN;
  gcm_correct c iv m a ct :
    encrypt c iv {| msg := m; aad := a |} = Some ct →
    decrypt c iv {| msg := ct; aad := a |} = Some m;
  gcm_tidy c iv m a ct :
    decrypt c iv {| msg := ct; aad := a |} = Some m →
    encrypt c iv {| msg := m; aad := a |} = Some ct;
  gcm_total c iv p : gcm_len_ok p → is_Some (encrypt c iv p);

  stream_next_length e p ct e' :
    encrypt_next e p = Some (ct, e') → length ct = length (msg p) + TAG_LEN;
  stream_last_length e p ct :
    encrypt_last e p = Some ct → length ct = length (msg p) + TAG_LEN;
  stream_next_correct c np n e d m a ct e' :
    in_sync c np n e d →
    encrypt_next e {| msg := m; aad := a |} = Some (ct, e') →
    ∃ d', decrypt_next d {| msg := ct; aad := a |} = Some (m, d');
  stream_next_tidy c np n e d m a ct d' :
    in_sync c np n e d →
    decrypt_next d {| msg := ct; aad := a |} = Some (m, d') →
    ∃ e', encrypt_next e {| msg := m; aad := a |} = Some (ct, e');
  stream_last_correct c np n e d m a ct :
    in_sync c np n e d →
    encrypt_last e {| msg := m; aad := a |} = Some ct →
    decrypt_last d {| msg := ct; aad := a |} = Some m;
  stream_last_tidy c np n e d m a ct :
    in_sync c np n e d →
    decrypt_last d {| msg := ct; aad := a |} = Some m →
    encrypt_last e {| msg := m; aad := a |} = Some ct;
  (** The 32-bit block counter: its last value is reserved for the last segment. *)
  stream_next_total c np n e d p :
    in_sync c np n e d → (Z.of_nat n < 2 ^ 32 - 1)%Z → gcm_len_ok p →
    is_Some (encrypt_next e p);
  stream_last_total c np n e d p :
    in_sync c np n e d → (Z.of_nat n < 2 ^ 32)%Z → gcm_len_ok p →
    is_Some (encrypt_last e p);
}.

(** ** [hkdf] over SHA-256 *)

Class Hkdf := {
  HkdfSha256 : Type;
  (** [Hkdf::<Sha256>::new(salt, ikm)] and [expand(info, okm)] with [okm.len() = n]. *)
  hkdf_new : option bytes → bytes → HkdfSha256;
  hkdf_expand : HkdfSha256 → bytes → nat → option bytes;
}.

Class HkdfLaws `{Hkdf} : Prop := {
  hkdf_expand_length h info n okm : hkdf_expand h info n = Some okm → length okm = n;
  (** At most 255 blocks of 32 bytes. *)
  hkdf_expand_total h info n : is_Some (hkdf_expand h info n) ↔ n ≤ 255 * 32;
}.

(** ** [ed25519_dalek] *)

Class Ed25519 := {
  SigningKey : Type;
  VerifyingKey : Type;
  Signature : Type;
  SigningKey_from_bytes : bytes → SigningKey;
  sign : SigningKey → bytes → Signature;
  verifying_key : SigningKey → VerifyingKey;
  VerifyingKey_to_bytes : VerifyingKey → bytes;
  VerifyingKey_from_bytes : bytes → option VerifyingKey;
  Signature_to_bytes : Signature → bytes;
  Signature_from_bytes : bytes → Signature;
  verify_strict : VerifyingKey → bytes → Signature → bool;
}.

Class Ed25519Laws `{Ed25519} : Prop := {
  signature_length k m : length (Signature_to_bytes (sign k m)) = 64;
  public_key_length k : length (VerifyingKey_to_bytes (verifying_key k)) = 32;
  signature_round_trip k m : Signature_from_bytes (Signature_to_bytes (sign k m)) = sign k m;
  public_key_round_trip k :
    VerifyingKey_from_bytes (VerifyingKey_to_bytes (verifying_key k)) = Some (verifying_key k);
  verify_sign k m : verify_strict (verifying_key k) m (sign k m) = true;
}.

(** ** [bip39], English word list *)

Class Bip39 := {
  Mnemonic : Type;
  (** [Mnemonic::from_entropy_in(Language::English, entropy)]. *)
  Mnemonic_from_entropy : bytes → option Mnemonic;
  (** [Mnemonic::parse_in(Language::English, phrase)]. *)
  Mnemonic_parse : str → option Mnemonic;
  Mnemonic_to_string : Mnemonic → str;
  Mnemonic_to_entropy : Mnemonic → bytes;
}.

Class Bip39Laws `{Bip39} : Prop := {
  (** Entropy of 128, 160, 192, 224 or 256 bits. *)
  from_entropy_total e :
    is_Some (Mnemonic_from_entropy e) ↔ length e ∈ [16; 20; 24; 28; 32];
  from_to_entropy e m : Mnemonic_from_entropy e = Some m → Mnemonic_to_entropy m = e;
  parse_to_string e m :
    Mnemonic_from_entropy e = Some m → Mnemonic_parse (Mnemonic_to_string m) = Some m;
  (** Three words for four bytes of entropy, 24 for 256 bits; the list has lower-case words. *)
  phrase_words e m :
    Mnemonic_from_entropy e = Some m →
    ∃ ws, Mnemonic_to_string m = unwords ws ∧ Forall is_word ws ∧ 4 * length ws = 3 * length e;
}.
