(* ===== verification/Memory.v ===== *)
(** * Memory that outlives its owners

    The storage of the variables that hold secrets. A buffer keeps its contents when its owner goes
    out of scope, unless the owner wipes it: that is what [zeroize] is for. A move hands the buffer
    over, as the header of [vault.rs] says of [Zeroizing]; a value that is [Copy] is copied and its
    buffer stays as it is. *)

From S2P Require Import Prelude Errors Prims.
From Stdlib Require Import Lia.

(** ** Buffers *)

(** All the buffers there have ever been, the latest last; a location is a position. *)
Abbreviation store := (list bytes).
Abbreviation loc := nat (only parsing).

(** All bytes zero. *)
Definition zeroed (b : bytes) : bytes := replicate (length b) x00.
Definition wiped (b : bytes) : Prop := b = zeroed b.

Section mem.
Context `{OsRng}.

Definition mem (E A : Type) : Type := st (rng * store) E A.

Definition alloc {E} (b : bytes) : mem E loc := λ '(g, s), (Ok (length s), (g, s ++ [b])).
Definition load {E} (l : loc) : mem E bytes := λ '(g, s), (Ok (default [] (s !! l)), (g, s)).
Definition assign {E} (l : loc) (b : bytes) : mem E unit := λ '(g, s), (Ok tt, (g, <[l := b]> s)).

(** [Zeroize::zeroize]. *)
Definition zeroize {E} (l : loc) : mem E unit := λ '(g, s), (Ok tt, (g, alter zeroed l s)).

(** A computation that touches no buffer. *)
Definition on_rng {E A} (m : st rng E A) : mem E A := λ '(g, s),
  let '(r, g') := m g in (r, (g', s)).

Definition mem_map_err {E E' A} (f : E → E') (m : mem E A) : mem E' A := λ s,
  let '(r, s') := m s in (map_err f r, s').

(** The scope of a [Zeroizing]: its [Drop] wipes the buffer however the scope is left. *)
Definition zeroizing {E A} (l : loc) (body : mem E A) : mem E A := λ s,
  let '(r, (g, s')) := body s in (r, (g, alter zeroed l s')).

(** The scope of a [Zeroizing] that is moved into the result: dropped by an early return only. *)
Definition moved_out {E A} (l : loc) (body : mem E A) : mem E A := λ s,
  let '(r, (g, s')) := body s in
  (r, (g, match r with Ok _ => s' | Err _ => alter zeroed l s' end)).

(** ** A logic for such computations *)

(** The computation ends with [Q] of its result, the entropy source, and the buffers it made. *)
Definition leaves {E A} (m : mem E A) (g : rng) (s : store)
    (Q : result E A → rng → store → Prop) : Prop :=
  ∃ r g' s', m (g, s) = (r, (g', s')) ∧ Q r g' s'.

Lemma leaves_ret {E A} (a : A) g s (Q : result E A → _ → _ → Prop) :
  Q (Ok a) g s → leaves (mret a) g s Q.
Proof. intros HQ. by exists (Ok a), g, s. Qed.

Lemma leaves_lift {E A} (r : result E A) g s (Q : result E A → _ → _ → Prop) :
  Q r g s → leaves (st_lift r) g s Q.
Proof. intros HQ. by exists r, g, s. Qed.

Lemma leaves_bind {E A B} (m : mem E A) (k : A → mem E B) g s Q :
  leaves m g s (λ r g' s', match r with
                           | Ok a => leaves (k a) g' s' Q
                           | Err e => Q (Err e) g' s'
                           end) →
  leaves (m ≫= k) g s Q.
Proof.
  intros (r & g' & s' & Hm & HQ). unfold leaves, mbind, st_bind. rewrite Hm.
  destruct r as [a|e]; [exact HQ|]. by exists (Err e), g', s'.
Qed.

Lemma leaves_mono {E A} (m : mem E A) g s (Q Q' : _ → _ → _ → Prop) :
  leaves m g s Q → (∀ r g' s', Q r g' s' → Q' r g' s') → leaves m g s Q'.
Proof. intros (r & g' & s' & Hm & HQ) Himp. exists r, g', s'. auto. Qed.

Lemma leaves_map_err {E E' A} (f : E → E') (m : mem E A) g s (Q : result E' A → _ → _ → Prop) :
  leaves m g s (λ r, Q (map_err f r)) → leaves (mem_map_err f m) g s Q.
Proof.
  intros (r & g' & s' & Hm & HQ). exists (map_err f r), g', s'. unfold mem_map_err. by rewrite Hm.
Qed.

Lemma leaves_rng {E A} (m : st rng E A) g s (Q : result E A → _ → _ → Prop) :
  Q (m g).1 (m g).2 s → leaves (on_rng m) g s Q.
Proof. intros HQ. unfold leaves, on_rng. destruct (m g) as [r g']. by exists r, g', s. Qed.

(** Every buffer is made by [alloc], and is the last one then. *)
Lemma leaves_alloc {E} b g s (Q : result E loc → _ → _ → Prop) :
  Q (Ok (length s)) g (s ++ [b]) → leaves (alloc b) g s Q.
Proof. intros HQ. by exists (Ok (length s)), g, (s ++ [b]). Qed.

Lemma lookup_at (s t : store) b : (s ++ b :: t) !! length s = Some b.
Proof. rewrite lookup_app_r, Nat.sub_diag by done. done. Qed.

Lemma alter_at f (s t : store) b : alter f (length s) (s ++ b :: t) = s ++ f b :: t.
Proof. induction s as [|x s IH]; [done|]. exact (f_equal (cons x) IH). Qed.

Lemma insert_at (s t : store) b b' : <[length s := b']> (s ++ b :: t) = s ++ b' :: t.
Proof. induction s as [|x s IH]; [done|]. exact (f_equal (cons x) IH). Qed.

Lemma leaves_load {E} b t g s (Q : result E bytes → _ → _ → Prop) :
  Q (Ok b) g (s ++ b :: t) → leaves (load (length s)) g (s ++ b :: t) Q.
Proof. intros HQ. unfold leaves, load. rewrite lookup_at. eauto. Qed.

Lemma leaves_assign {E} b b' t g s (Q : result E unit → _ → _ → Prop) :
  Q (Ok tt) g (s ++ b' :: t) → leaves (assign (length s) b') g (s ++ b :: t) Q.
Proof. intros HQ. unfold leaves, assign. rewrite insert_at. eauto. Qed.

Lemma leaves_zeroize {E} b t g s (Q : result E unit → _ → _ → Prop) :
  Q (Ok tt) g (s ++ zeroed b :: t) → leaves (zeroize (length s)) g (s ++ b :: t) Q.
Proof. intros HQ. unfold leaves, zeroize. rewrite alter_at. eauto. Qed.

(** A scope changes its own buffer and makes new ones behind it. *)
Lemma leaves_zeroizing {E A} (body : mem E A) b0 t0 g s (Q : result E A → _ → _ → Prop) :
  leaves body g (s ++ b0 :: t0) (λ r g' s', ∃ b t, s' = s ++ b :: t ∧ Q r g' (s ++ zeroed b :: t)) →
  leaves (zeroizing (length s) body) g (s ++ b0 :: t0) Q.
Proof.
  intros (r & g' & s' & Hm & b & t & -> & HQ). exists r, g', (s ++ zeroed b :: t).
  unfold zeroizing. by rewrite Hm, alter_at.
Qed.

Lemma leaves_moved_out {E A} (body : mem E A) b0 t0 g s (Q : result E A → _ → _ → Prop) :
  leaves body g (s ++ b0 :: t0) (λ r g' s', ∃ b t, s' = s ++ b :: t ∧
    Q r g' (s ++ (if is_ok r then b else zeroed b) :: t)) →
  leaves (moved_out (length s) body) g (s ++ b0 :: t0) Q.
Proof.
  intros (r & g' & s' & Hm & b & t & -> & HQ). eexists r, g', _. split; [|exact HQ].
  unfold moved_out. rewrite Hm. destruct r; simpl; [done|by rewrite alter_at].
Qed.

Lemma zeroed_length b : length (zeroed b) = length b.
Proof. apply length_replicate. Qed.

Lemma zeroed_wiped b : wiped (zeroed b).
Proof. unfold wiped. unfold zeroed at 2. by rewrite zeroed_length. Qed.

Lemma zeros_wiped n : wiped (replicate n x00).
Proof. unfold wiped, zeroed. by rewrite length_replicate. Qed.

End mem.

#[export] Hint Resolve zeroed_wiped zeros_wiped : filum.
