(* ===== verification/Toy.v ===== *)
(** * A concrete instance of the third-party interfaces

    A deliberately insecure but lawful implementation of every class of [Prims]: the "cipher"
    appends a checksum of key, nonce, associated data and message, and the STREAM objects derive
    their nonces as [prefix || u32_be(counter) || last]. It shows that the laws are satisfiable
    together, and it is what the witnesses of the development run on. *)

From S2P Require Import Prelude Ints Hex Prims.
From Stdlib Require Import ZArith Lia.

(** ** A checksum of a list of strings, each preceded by its length *)

Definition toy_modulus : Z := 2 ^ 61 - 1.

Definition toy_absorb (h : Z) (x : byte) : Z := (h * 257 + byte_to_Z x + 1) mod toy_modulus.

Definition toy_hash (parts : list bytes) : Z :=
  foldl (λ h p, foldl toy_absorb ((h * 263 + Z.of_nat (length p) + 7) mod toy_modulus)%Z p) 1%Z parts.

(** ** Entropy: a counter, or a broken source *)

#[export] Instance toy_rng : OsRng := {|
  rng := option nat;
  try_fill_bytes n g :=
    match g with
    | Some k => (Some (replicate n (byte_of_Z (Z.of_nat k))), Some (S k))
    | None => (None, None)
    end
|}.

#[export] Instance toy_rng_laws : OsRngLaws.
Proof.
  constructor. intros n [k|] buf g' ?; simplify_eq/=. by rewrite length_replicate.
Qed.

(** A source that has answered [k] requests, and a source that is unavailable. *)
Definition toy_gen (k : nat) : @rng toy_rng := Some k.
Definition toy_broken : @rng toy_rng := None.

(** ** AES-GCM and STREAM *)

Definition toy_len_ok (p : Payload) : bool :=
  (Z.of_nat (length (msg p)) <=? 2 ^ 36)%Z && (Z.of_nat (length (aad p)) <=? 2 ^ 36)%Z.

Definition toy_tag (k iv : bytes) (p : Payload) : bytes :=
  be_bytes TAG_LEN (toy_hash [k; iv; aad p; msg p]).

Definition toy_encrypt (k iv : bytes) (p : Payload) : option bytes :=
  if toy_len_ok p then Some (msg p ++ toy_tag k iv p) else None.

Definition toy_decrypt (k iv : bytes) (p : Payload) : option bytes :=
  let n := length (msg p) - TAG_LEN in
  let pt := {| msg := take n (msg p); aad := aad p |} in
  if (TAG_LEN <=? length (msg p)) && toy_len_ok pt
     && bool_decide (drop n (msg p) = toy_tag k iv pt)
  then Some (msg pt) else None.

Definition toy_nonce (np : bytes) (ctr : Z) (last : bool) : bytes :=
  np ++ u32_to_be_bytes ctr ++ [if last then x01 else x00].

(** Key, nonce prefix and position. *)
Definition toy_stream : Type := bytes * bytes * Z.

Definition toy_next (f : bytes → bytes → Payload → option bytes) (s : toy_stream) (p : Payload)
    : option (bytes * toy_stream) :=
  let '(k, np, ctr) := s in
  if (ctr =? 2 ^ 32 - 1)%Z then None else
  out ← f k (toy_nonce np ctr false) p; Some (out, (k, np, ctr + 1)%Z).

Definition toy_last (f : bytes → bytes → Payload → option bytes) (s : toy_stream) (p : Payload)
    : option bytes :=
  let '(k, np, ctr) := s in f k (toy_nonce np ctr true) p.

#[export] Instance toy_aes : AesGcm := {|
  Aes256Gcm := bytes;
  aes_new := id;
  encrypt := toy_encrypt;
  decrypt := toy_decrypt;
  EncryptorBE32 := toy_stream;
  DecryptorBE32 := toy_stream;
  enc_from_aead k np := (k, np, 0%Z);
  dec_from_aead k np := (k, np, 0%Z);
  encrypt_next := toy_next toy_encrypt;
  encrypt_last := toy_last toy_encrypt;
  decrypt_next := toy_next toy_decrypt;
  decrypt_last := toy_last toy_decrypt
|}.

Lemma toy_tag_length k iv p : length (toy_tag k iv p) = TAG_LEN.
Proof. apply be_bytes_length. Qed.

Lemma toy_encrypt_length k iv p ct :
  toy_encrypt k iv p = Some ct → length ct = length (msg p) + TAG_LEN.
Proof.
  unfold toy_encrypt. case_match; [|done]. intros [= <-].
  by rewrite length_app, toy_tag_length.
Qed.

Lemma toy_correct k iv m a ct :
  toy_encrypt k iv {| msg := m; aad := a |} = Some ct →
  toy_decrypt k iv {| msg := ct; aad := a |} = Some m.
Proof.
  unfold toy_encrypt, toy_decrypt. case_match eqn:Hok; [|done]. intros [= <-]. cbn [msg aad].
  rewrite length_app, toy_tag_length, Nat.add_sub, take_app_length, drop_app_length, Hok.
  rewrite bool_decide_true by done. by rewrite (proj2 (Nat.leb_le _ _)) by lia.
Qed.

Lemma toy_tidy k iv m a ct :
  toy_decrypt k iv {| msg := ct; aad := a |} = Some m →
  toy_encrypt k iv {| msg := m; aad := a |} = Some ct.
Proof.
  unfold toy_encrypt, toy_decrypt. simpl. case_match eqn:Hok; [|done]. intros [= <-].
  apply andb_prop in Hok as [[_ ->]%andb_prop Htag%bool_decide_eq_true].
  by rewrite <-Htag, take_drop.
Qed.

Lemma toy_total k iv p : gcm_len_ok p → is_Some (toy_encrypt k iv p).
Proof.
  intros [H1%Z.leb_le H2%Z.leb_le]. unfold toy_encrypt, toy_len_ok. by rewrite H1, H2.
Qed.

Lemma toy_next_length s p ct s' :
  toy_next toy_encrypt s p = Some (ct, s') → length ct = length (msg p) + TAG_LEN.
Proof.
  destruct s as [[k np] ctr]. unfold toy_next. case_match; [done|].
  destruct (toy_encrypt k _ p) eqn:E; simpl; [|done]. intros [= <- <-].
  by eapply toy_encrypt_length.
Qed.

(** An encryptor and a decryptor in step are the same key, prefix and position. *)
Lemma toy_in_sync c np n e d :
  in_sync c np n e d → e = (c, np, Z.of_nat n) ∧ d = (c, np, Z.of_nat n).
Proof.
  induction 1 as [|n e d m a ct e' d' _ [-> ->] He Hd]; [done|].
  simpl in He, Hd. repeat case_match; simplify_option_eq. split; repeat f_equal; lia.
Qed.

Lemma toy_next_some f s p out s' :
  toy_next f s p = Some (out, s') ↔
  let '(k, np, ctr) := s in
  ctr ≠ (2 ^ 32 - 1)%Z ∧ f k (toy_nonce np ctr false) p = Some out ∧ s' = (k, np, ctr + 1)%Z.
Proof.
  destruct s as [[k np] ctr]. unfold toy_next.
  destruct (Z.eqb_spec ctr (2 ^ 32 - 1)) as [Hc|Hc]; [by split; [done|intros [? ?]]|].
  destruct (f k (toy_nonce np ctr false) p) as [ct|]; simpl; split.
  - by intros [= <- <-].
  - by intros (_ & [= ->] & ->).
  - done.
  - by intros (_ & ? & _).
Qed.

#[export] Instance toy_aes_laws : AesGcmLaws.
Proof.
  constructor; simpl.
  - apply toy_encrypt_length.
  - apply toy_correct.
  - apply toy_tidy.
  - apply toy_total.
  - apply toy_next_length.
  - intros [[k np] ctr] p ct. apply toy_encrypt_length.
  - intros c np n e d m a ct e' Hs He. apply toy_in_sync in Hs as [-> ->].
    apply toy_next_some in He as (? & ?%toy_correct & ?). eexists. by apply toy_next_some.
  - intros c np n e d m a ct e' Hs He. apply toy_in_sync in Hs as [-> ->].
    apply toy_next_some in He as (? & ?%toy_tidy & ?). eexists. by apply toy_next_some.
  - intros c np n e d m a ct Hs. apply toy_in_sync in Hs as [-> ->]. apply toy_correct.
  - intros c np n e d m a ct Hs. apply toy_in_sync in Hs as [-> ->]. apply toy_tidy.
  - intros c np n e d p Hs Hn Hp. apply toy_in_sync in Hs as [-> _].
    destruct (toy_total c (toy_nonce np (Z.of_nat n) false) p Hp) as [ct Hct].
    exists (ct, (c, np, Z.of_nat n + 1)%Z). apply toy_next_some. repeat split; [lia|done].
  - intros c np n e d p Hs Hn Hp. apply toy_in_sync in Hs as [-> _]. by apply toy_total.
Qed.

(** ** HKDF, Ed25519 and BIP39 *)

#[export] Instance toy_hkdf : Hkdf := {|
  HkdfSha256 := bytes;
  hkdf_new _ ikm := ikm;
  hkdf_expand h info n :=
    if n <=? 255 * 32 then Some (be_bytes n (toy_hash [h; info])) else None
|}.

#[export] Instance toy_hkdf_laws : HkdfLaws.
Proof.
  constructor; unfold hkdf_expand, toy_hkdf.
  - intros h info n okm. case_match; [|done]. intros [= <-]. apply be_bytes_length.
  - intros h info n. destruct (Nat.leb_spec n (255 * 32)) as [Hn|Hn].
    + by split; [|eexists].
    + split; [by intros []|lia].
Qed.

(** A public key is the checksum of the seed, a signature that of public key and message. *)
#[export] Instance toy_ed25519 : Ed25519 := {|
  SigningKey := bytes;
  VerifyingKey := bytes;
  Signature := bytes;
  SigningKey_from_bytes seed := seed;
  sign k m := be_bytes 64 (toy_hash [be_bytes 32 (toy_hash [k]); m]);
  verifying_key k := be_bytes 32 (toy_hash [k]);
  VerifyingKey_to_bytes k := k;
  VerifyingKey_from_bytes l := if length l =? 32 then Some l else None;
  Signature_to_bytes s := s;
  Signature_from_bytes l := l;
  verify_strict k m s := bool_decide (s = be_bytes 64 (toy_hash [k; m]))
|}.

#[export] Instance toy_ed25519_laws : Ed25519Laws.
Proof.
  constructor.
  - intros. apply be_bytes_length.
  - intros. apply be_bytes_length.
  - done.
  - done.
  - intros k m. by apply bool_decide_eq_true.
Qed.

(** Every byte is two letters, and four bytes are three words, of three, three and two letters. *)
Definition toy_letters (b : byte) : byte * byte :=
  (byte_of_Z (97 + byte_to_Z b / 16), byte_of_Z (97 + byte_to_Z b mod 16)).

Definition toy_unletters (x y : byte) : option byte :=
  let h := (byte_to_Z x - 97)%Z in
  let l := (byte_to_Z y - 97)%Z in
  if ((0 <=? h) && (h <? 16) && (0 <=? l) && (l <? 16))%Z then Some (byte_of_Z (h * 16 + l)) else None.

Lemma toy_unletters_letters b : toy_unletters (toy_letters b).1 (toy_letters b).2 = Some b.
Proof. by destruct b. Qed.

Lemma toy_letters_ok b : is_letter (toy_letters b).1 = true ∧ is_letter (toy_letters b).2 = true.
Proof. by destruct b. Qed.

#[global] Opaque toy_letters toy_unletters.

Fixpoint toy_words (e : bytes) : list str :=
  match e with
  | a :: b :: c :: d :: e' =>
      let '((a1, a2), (b1, b2), (c1, c2), (d1, d2)) :=
        (toy_letters a, toy_letters b, toy_letters c, toy_letters d) in
      [a1; a2; b1] :: [b2; c1; c2] :: [d1; d2] :: toy_words e'
  | _ => []
  end.

(** From three words on. *)
Fixpoint toy_entropy (ws : list str) : option bytes :=
  match ws with
  | [] => Some []
  | [a1; a2; b1] :: [b2; c1; c2] :: [d1; d2] :: ws' =>
      a ← toy_unletters a1 a2; b ← toy_unletters b1 b2;
      c ← toy_unletters c1 c2; d ← toy_unletters d1 d2;
      e ← toy_entropy ws'; Some (a :: b :: c :: d :: e)
  | _ => None
  end.

Lemma by_fours (P : bytes → Prop) :
  P [] → (∀ a b c d e, P e → P (a :: b :: c :: d :: e)) → ∀ n e, length e = 4 * n → P e.
Proof.
  intros H0 H4 n. induction n as [|n IH]; intros e He; [by apply nil_length_inv in He as ->|].
  destruct e as [|a [|b [|c [|d e]]]]; simpl in He; try lia. apply H4, IH. lia.
Qed.

Lemma toy_words_ok n e :
  length e = 4 * n →
  Forall is_word (toy_words e) ∧ toy_entropy (toy_words e) = Some e ∧
  4 * length (toy_words e) = 3 * length e.
Proof.
  revert n e. apply by_fours; [by repeat constructor|]. intros a b c d e (Hw & Hp & Hl).
  cbn [toy_words].
  pose proof (toy_letters_ok a) as [Ha1 Ha2]. pose proof (toy_letters_ok b) as [Hb1 Hb2].
  pose proof (toy_letters_ok c) as [Hc1 Hc2]. pose proof (toy_letters_ok d) as [Hd1 Hd2].
  pose proof (toy_unletters_letters a) as Ua. pose proof (toy_unletters_letters b) as Ub.
  pose proof (toy_unletters_letters c) as Uc. pose proof (toy_unletters_letters d) as Ud.
  destruct (toy_letters a), (toy_letters b), (toy_letters c), (toy_letters d). simpl in *.
  split_and!.
  - repeat first [exact Hw|constructor; [by repeat constructor|]].
  - by rewrite Ua, Ub, Uc, Ud, Hp.
  - lia.
Qed.

#[global] Transparent toy_letters toy_unletters.

Definition toy_sizes : list nat := [16; 20; 24; 28; 32].

#[export] Instance toy_bip39 : Bip39 := {|
  Mnemonic := bytes;
  Mnemonic_from_entropy e := if bool_decide (length e ∈ toy_sizes) then Some e else None;
  Mnemonic_parse s :=
    e ← toy_entropy (split_whitespace [] s);
    if bool_decide (length e ∈ toy_sizes) then Some e else None;
  Mnemonic_to_string m := unwords (toy_words m);
  Mnemonic_to_entropy m := m
|}.

#[export] Instance toy_bip39_laws : Bip39Laws.
Proof.
  assert (∀ e : bytes, length e ∈ toy_sizes → ∃ n, length e = 4 * n) as H4.
  { intros e He%list_elem_of_In. simpl in He. exists (length e / 4).
    destruct He as [<-|[<-|[<-|[<-|[<-|[]]]]]]; reflexivity. }
  constructor; unfold Mnemonic_from_entropy, Mnemonic_parse, Mnemonic_to_string, toy_bip39.
  - intros e. case_bool_decide as He; split; [by intros|by eexists|by intros []|done].
  - intros e m. case_bool_decide; [by intros [= <-]|done].
  - intros e m. case_bool_decide as He; [intros [= <-]|done]. destruct (H4 _ He) as [n Hn].
    destruct (toy_words_ok n e Hn) as (Hw & Hp & _). rewrite split_unwords, Hp by done. simpl.
    by rewrite bool_decide_true.
  - intros e m. case_bool_decide as He; [intros [= <-]|done]. destruct (H4 _ He) as [n Hn].
    destruct (toy_words_ok n e Hn) as (Hw & _ & Hl). by exists (toy_words e).
Qed.
