(* ===== verification/Aad.v ===== *)
(** * Canonical associated data ([aad.rs])

    The three builders of associated data, and what makes the encoding canonical: identifiers
    are bound injectively, the encodings are prefix-free, and a string of one purpose is never a
    string of another. *)

From S2P Require Import Prelude Ints Errors.
From Stdlib Require Import ZArith Lia.

(** ** Definitions *)

Definition BLOB_DOMAIN : bytes := lit "filum-crypto/v2/blob".
Definition FIELD_DOMAIN : bytes := lit "filum-crypto/v2/field".

(** [u32::try_from(id.len()).map_err(|_| InvalidContext)?]. *)
Definition id_len (id : bytes) : Result Z := ok_or (u32_try_from (length id)) InvalidContext.

Definition blob_segment_aad (blob_id : str) : Result bytes :=
  let id := blob_id in
  if bool_decide (id = []) then Err InvalidContext else
  len ← id_len id;
  Ok (BLOB_DOMAIN ++ u32_to_be_bytes len ++ id).

Definition field_aad (record_id field_name : str) : Result bytes :=
  let record := record_id in
  let field := field_name in
  if bool_decide (record = []) || bool_decide (field = []) then Err InvalidContext else
  record_len ← id_len record;
  field_len ← id_len field;
  Ok (FIELD_DOMAIN ++ u32_to_be_bytes record_len ++ record
        ++ u32_to_be_bytes field_len ++ field).

Definition blob_wrap_aad (blob_id : str) (version : byte) (nonce_prefix chunk_size_be : bytes)
    : Result bytes :=
  aad ← blob_segment_aad blob_id;
  Ok (aad ++ [version] ++ nonce_prefix ++ chunk_size_be).

(** ** Which identifiers are accepted *)

(** An identifier usable in associated data: not empty, and its length fits a [u32]. *)
Definition valid_id (id : str) : Prop := id ≠ [] ∧ (Z.of_nat (length id) < 2 ^ 32)%Z.

#[export] Instance valid_id_dec id : Decision (valid_id id).
Proof. unfold valid_id. apply _. Defined.

(** A length-prefixed identifier, the unit the encodings are made of. *)
Definition prefixed (id : bytes) : bytes := u32_to_be_bytes (Z.of_nat (length id)) ++ id.

Lemma id_len_ok id : (Z.of_nat (length id) < 2 ^ 32)%Z → id_len id = Ok (Z.of_nat (length id)).
Proof.
  intros H%Z.ltb_lt. unfold id_len, u32_try_from. by rewrite H.
Qed.

Lemma id_len_err id : (2 ^ 32 <= Z.of_nat (length id))%Z → id_len id = Err InvalidContext.
Proof.
  intros H%Z.ltb_ge. unfold id_len, u32_try_from. by rewrite H.
Qed.

(** The two outcomes of each builder, as equations. *)
Lemma blob_segment_aad_eq id :
  blob_segment_aad id =
    if decide (valid_id id) then Ok (BLOB_DOMAIN ++ prefixed id) else Err InvalidContext.
Proof.
  unfold blob_segment_aad. case_bool_decide as Hid.
  - rewrite decide_False; [done|]. by intros [? _].
  - destruct (Z.lt_ge_cases (Z.of_nat (length id)) (2 ^ 32)) as [Hl|Hl].
    + rewrite id_len_ok by done. by rewrite decide_True.
    + rewrite id_len_err by done. rewrite decide_False; [done|]. intros [_ ?]. lia.
Qed.

Lemma field_aad_eq r f :
  field_aad r f =
    if decide (valid_id r ∧ valid_id f) then Ok (FIELD_DOMAIN ++ prefixed r ++ prefixed f)
    else Err InvalidContext.
Proof.
  unfold field_aad.
  destruct (decide (r = [])) as [->|Hr].
  { rewrite decide_False; [done|]. by intros [[? _] _]. }
  destruct (decide (f = [])) as [->|Hf].
  { rewrite (bool_decide_false (r = [])) by done.
    rewrite decide_False; [done|]. by intros [_ [? _]]. }
  rewrite !bool_decide_false by done. rsimpl.
  destruct (Z.lt_ge_cases (Z.of_nat (length r)) (2 ^ 32)) as [Hlr|Hlr].
  - rewrite (id_len_ok r) by done. rsimpl.
    destruct (Z.lt_ge_cases (Z.of_nat (length f)) (2 ^ 32)) as [Hlf|Hlf].
    + rewrite (id_len_ok f) by done. rewrite decide_True by done.
      rsimpl. unfold prefixed. by rewrite <-!app_assoc.
    + rewrite (id_len_err f) by done. rewrite decide_False; [done|]. intros [_ [_ ?]]. lia.
  - rewrite (id_len_err r) by done. rewrite decide_False; [done|]. intros [[_ ?] _]. lia.
Qed.

Lemma blob_wrap_aad_eq id v np cs :
  blob_wrap_aad id v np cs =
    if decide (valid_id id) then Ok (BLOB_DOMAIN ++ prefixed id ++ [v] ++ np ++ cs)
    else Err InvalidContext.
Proof.
  unfold blob_wrap_aad. rewrite blob_segment_aad_eq.
  case_decide; rsimpl; [|done]. by rewrite <-!app_assoc.
Qed.

Lemma blob_segment_aad_ok id a :
  blob_segment_aad id = Ok a → valid_id id ∧ a = BLOB_DOMAIN ++ prefixed id.
Proof. rewrite blob_segment_aad_eq. case_decide; [|done]. by intros [= <-]. Qed.

Lemma field_aad_ok r f a :
  field_aad r f = Ok a →
  (valid_id r ∧ valid_id f) ∧ a = FIELD_DOMAIN ++ prefixed r ++ prefixed f.
Proof. rewrite field_aad_eq. case_decide; [|done]. by intros [= <-]. Qed.

Lemma blob_wrap_aad_ok id v np cs a :
  blob_wrap_aad id v np cs = Ok a →
  valid_id id ∧ a = BLOB_DOMAIN ++ prefixed id ++ [v] ++ np ++ cs.
Proof. rewrite blob_wrap_aad_eq. case_decide; [|done]. by intros [= <-]. Qed.

(** ** Unambiguity of length-prefixed strings *)

(** Two prefixed identifiers at the head of the same string are equal, and so are the rests:
    the decoder knows where an identifier ends. *)
Lemma prefixed_app_inj id1 id2 k1 k2 :
  (Z.of_nat (length id1) < 2 ^ 32)%Z → (Z.of_nat (length id2) < 2 ^ 32)%Z →
  prefixed id1 ++ k1 = prefixed id2 ++ k2 → id1 = id2 ∧ k1 = k2.
Proof.
  intros H1 H2. unfold prefixed, u32_to_be_bytes. rewrite <-!app_assoc. intros Heq.
  apply app_eq_len in Heq as [Hlen Hrest]; [|by autorewrite with filum].
  apply be_bytes_inj in Hlen; [|lia..].
  apply app_eq_len in Hrest; [done|lia].
Qed.

Lemma prefixed_inj id1 id2 :
  (Z.of_nat (length id1) < 2 ^ 32)%Z → (Z.of_nat (length id2) < 2 ^ 32)%Z →
  prefixed id1 = prefixed id2 → id1 = id2.
Proof.
  intros H1 H2 Heq. apply (prefixed_app_inj id1 id2 [] []); [done..|].
  by rewrite !app_nil_r.
Qed.

Lemma prefixed_length id : length (prefixed id) = 4 + length id.
Proof. unfold prefixed, u32_to_be_bytes. rewrite length_app. by autorewrite with filum. Qed.

#[export] Hint Rewrite prefixed_length : filum.

(** The domain strings differ at a common position, so nothing extends both. *)
Lemma domains_apart k1 k2 : BLOB_DOMAIN ++ k1 ≠ FIELD_DOMAIN ++ k2.
Proof. discriminate. Qed.

(** ** Properties *)

(** Every builder accepts exactly the identifiers that are non-empty and whose length fits a
    [u32], and its only error is [InvalidContext]. *)
Theorem aad_accepts_exactly_valid_ids id rec field v np cs :
  (blob_segment_aad id = Err InvalidContext ↔ ¬ valid_id id) ∧
  (blob_wrap_aad id v np cs = Err InvalidContext ↔ ¬ valid_id id) ∧
  (field_aad rec field = Err InvalidContext ↔ ¬ (valid_id rec ∧ valid_id field)) ∧
  (valid_id id → ∃ a w, blob_segment_aad id = Ok a ∧ blob_wrap_aad id v np cs = Ok w) ∧
  (valid_id rec → valid_id field → ∃ a, field_aad rec field = Ok a).
Proof.
  rewrite blob_segment_aad_eq, blob_wrap_aad_eq, field_aad_eq.
  split_and!; repeat case_decide; naive_solver.
Qed.

(** Two segment strings of which one extends the other bind the same blob id: the encoding is
    prefix-free, hence injective. *)
Theorem blob_segment_aad_prefix_free id1 id2 a1 a2 :
  blob_segment_aad id1 = Ok a1 → blob_segment_aad id2 = Ok a2 →
  a1 `prefix_of` a2 → id1 = id2.
Proof.
  intros [[_ H1] ->]%blob_segment_aad_ok [[_ H2] ->]%blob_segment_aad_ok [k Hk].
  rewrite <-app_assoc in Hk. apply app_inv_head in Hk.
  rewrite <-(app_nil_r (prefixed id2)) in Hk. by apply prefixed_app_inj in Hk as [? _].
Qed.

Lemma blob_segment_aad_prefix_free_witness :
  ∃ a, blob_segment_aad (lit "abc") = Ok a ∧ lit "abc" = lit "abc".
Proof.
  eexists. split; [reflexivity|].
  eapply blob_segment_aad_prefix_free; [reflexivity..|done].
Defined.

(** C29. Two field strings of which one extends the other bind the same record and the same field:
    no shifting of bytes between the two identifiers goes unnoticed. *)
Theorem field_aad_prefix_free r1 f1 r2 f2 a1 a2 :
  field_aad r1 f1 = Ok a1 → field_aad r2 f2 = Ok a2 →
  a1 `prefix_of` a2 → r1 = r2 ∧ f1 = f2.
Proof.
  intros [[[_ Hr1] [_ Hf1]] ->]%field_aad_ok [[[_ Hr2] [_ Hf2]] ->]%field_aad_ok [k Hk].
  rewrite <-!app_assoc in Hk. apply app_inv_head in Hk.
  apply prefixed_app_inj in Hk as [-> Hk]; [|done..].
  rewrite <-(app_nil_r (prefixed f2)) in Hk. by apply prefixed_app_inj in Hk as [-> _].
Qed.

Lemma field_aad_prefix_free_witness :
  ∃ a, field_aad (lit "rec-1") (lit "name") = Ok a ∧
       lit "rec-1" = lit "rec-1" ∧ lit "name" = lit "name".
Proof.
  eexists. split; [reflexivity|].
  eapply field_aad_prefix_free; [reflexivity..|done].
Defined.

(** Equal wrap AADs bind equal ids and headers. *)
Lemma blob_wrap_aad_inj id1 v1 np1 cs1 id2 v2 np2 cs2 a :
  length np1 = length np2 →
  blob_wrap_aad id1 v1 np1 cs1 = Ok a → blob_wrap_aad id2 v2 np2 cs2 = Ok a →
  id1 = id2 ∧ v1 = v2 ∧ np1 = np2 ∧ cs1 = cs2.
Proof.
  intros Hnp [[_ H1] ->]%blob_wrap_aad_ok [[_ H2] Heq]%blob_wrap_aad_ok.
  apply app_inv_head, prefixed_app_inj in Heq as [-> Heq]; [|done..].
  injection Heq as -> Heq. by apply app_eq_len in Heq as [-> ->].
Qed.

(** The wrap string determines the blob id and every non-key header field. *)
Theorem blob_wrap_aad_injective id1 v1 np1 cs1 id2 v2 np2 cs2 a :
  length np1 = length np2 →
  blob_wrap_aad id1 v1 np1 cs1 = Ok a → blob_wrap_aad id2 v2 np2 cs2 = Ok a →
  id1 = id2 ∧ v1 = v2 ∧ np1 = np2 ∧ cs1 = cs2.
Proof. apply blob_wrap_aad_inj. Qed.

Lemma blob_wrap_aad_injective_witness :
  let np := replicate 7 x01 in let cs := u32_to_be_bytes (2 ^ 20) in
  ∃ a, blob_wrap_aad (lit "abc") x02 np cs = Ok a ∧
       lit "abc" = lit "abc" ∧ x02 = x02 ∧ np = np ∧ cs = cs.
Proof.
  eexists. split; [reflexivity|].
  eapply blob_wrap_aad_injective; [reflexivity|reflexivity..].
Defined.

(** A string built for one purpose is never a string built for another: segment, wrap and field
    strings are pairwise different. *)
Theorem aad_purposes_disjoint id1 id2 v np cs r f a w x :
  blob_segment_aad id1 = Ok a → blob_wrap_aad id2 v np cs = Ok w → field_aad r f = Ok x →
  a ≠ w ∧ a ≠ x ∧ w ≠ x.
Proof.
  intros [[_ H1] ->]%blob_segment_aad_ok [[_ H2] ->]%blob_wrap_aad_ok [_ ->]%field_aad_ok.
  split_and!; [|apply domains_apart..].
  intros Heq%app_inv_head. rewrite <-(app_nil_r (prefixed id1)) in Heq.
  by apply prefixed_app_inj in Heq as [_ ?].
Qed.

Lemma aad_purposes_disjoint_witness :
  ∃ a w x,
    blob_segment_aad (lit "a") = Ok a ∧
    blob_wrap_aad (lit "a") x02 (replicate 7 x00) (replicate 4 x00) = Ok w ∧
    field_aad (lit "a") (lit "b") = Ok x ∧ a ≠ w ∧ a ≠ x ∧ w ≠ x.
Proof.
  eexists _, _, _. split; [reflexivity|]. split; [reflexivity|]. split; [reflexivity|].
  by apply (aad_purposes_disjoint (lit "a") (lit "a") x02 (replicate 7 x00) (replicate 4 x00)
              (lit "a") (lit "b")).
Defined.

(** *** The golden bytes of the test-suite *)

Example blob_segment_aad_golden :
  blob_segment_aad (lit "abc") = Ok (lit "filum-crypto/v2/blob" ++ [x00; x00; x00; x03] ++ lit "abc").
Proof. reflexivity. Qed.

Example blob_wrap_aad_golden :
  blob_wrap_aad (lit "abc") x02 [x01; x02; x03; x04; x05; x06; x07] [x00; x10; x00; x00]
  = Ok (lit "filum-crypto/v2/blob" ++ [x00; x00; x00; x03] ++ lit "abc" ++ [x02]
          ++ [x01; x02; x03; x04; x05; x06; x07] ++ [x00; x10; x00; x00]).
Proof. reflexivity. Qed.

Example field_aad_golden :
  field_aad (lit "rec-1") (lit "name")
  = Ok (lit "filum-crypto/v2/field" ++ [x00; x00; x00; x05] ++ lit "rec-1"
          ++ [x00; x00; x00; x04] ++ lit "name").
Proof. reflexivity. Qed.
