(* ===== verification/Kdf.v ===== *)
(** * Subkey derivation ([kdf.rs])

    HKDF-SHA256 without salt; the context string separates the three subkeys. *)

From S2P Require Import Prelude Errors Prims Toy.
From Stdlib Require Import Lia.

Definition WRAP_CTX : bytes := lit "filer-crypto/v1/wrap".
Definition METADATA_CTX : bytes := lit "filer-crypto/v1/metadata".
Definition SIGN_CTX : bytes := lit "filer-crypto/v1/sign".

(** [derive_subkey(secret, info, out)] with [out.len() = out_len]: the new contents of [out]. *)
Definition derive_subkey `{Hkdf} (secret info : bytes) (out_len : nat) : Result bytes :=
  let hkdf := hkdf_new None secret in
  ok_or (hkdf_expand hkdf info out_len) InvalidKeyLength.

Section derive.
Context `{HkdfLaws}.

Lemma derive_subkey_ok secret info n :
  n ≤ 255 * 32 → ∃ key, derive_subkey secret info n = Ok key ∧ length key = n.
Proof.
  intros Hn. unfold derive_subkey.
  destruct (proj2 (hkdf_expand_total (hkdf_new None secret) info n)) as [key Hkey]; [lia|].
  rewrite Hkey. exists key. split; [done|]. by eapply hkdf_expand_length.
Qed.

(** A derivation fails, with [InvalidKeyLength], exactly when more than 255 * 32 = 8160 bytes are
    asked for, and a success fills the whole output. *)
Theorem derive_subkey_bounds secret info n :
  (derive_subkey secret info n = Err InvalidKeyLength ↔ 255 * 32 < n) ∧
  (n ≤ 255 * 32 → ∃ key, derive_subkey secret info n = Ok key ∧ length key = n).
Proof.
  split; [|apply derive_subkey_ok]. split; intros Hn.
  - apply Nat.lt_nge. intros Hle. destruct (derive_subkey_ok secret info n Hle) as (k & Hk & _).
    by rewrite Hk in Hn.
  - unfold derive_subkey.
    destruct (hkdf_expand _ info n) as [key|] eqn:E; [|done].
    pose proof (proj1 (hkdf_expand_total (hkdf_new None secret) info n)) as Hle.
    rewrite E in Hle. specialize (Hle ltac:(eauto)). lia.
Qed.

End derive.

Lemma derive_subkey_bounds_witness :
  (derive_subkey (replicate 32 x07) WRAP_CTX (S (255 * 32)) = Err InvalidKeyLength ↔ 255 * 32 < S (255 * 32)) ∧
  (S (255 * 32) ≤ 255 * 32 →
   ∃ key, derive_subkey (replicate 32 x07) WRAP_CTX (S (255 * 32)) = Ok key ∧ length key = S (255 * 32)).
Proof. apply (derive_subkey_bounds (replicate 32 x07) WRAP_CTX (S (255 * 32))). Defined.

(** No context string is a prefix of another, so the three derivations have different inputs. *)
Lemma contexts_apart :
  ¬ WRAP_CTX `prefix_of` METADATA_CTX ∧ ¬ WRAP_CTX `prefix_of` SIGN_CTX ∧
  ¬ METADATA_CTX `prefix_of` WRAP_CTX ∧ ¬ METADATA_CTX `prefix_of` SIGN_CTX ∧
  ¬ SIGN_CTX `prefix_of` WRAP_CTX ∧ ¬ SIGN_CTX `prefix_of` METADATA_CTX.
Proof. split_and!; by intros [k ?]. Qed.
