(* ===== verification/Metadata.v ===== *)
(** * Field-level metadata encryption ([metadata.rs]) *)

From S2P Require Import Prelude Errors Prims Toy Aad.
From Stdlib Require Import ZArith Lia.

Record EncryptedField := { ciphertext : bytes; iv : bytes }.

Section metadata.
Context `{OsRng, AesGcm}.

Definition encrypt_field (plaintext key : bytes) (record_id field_name : str)
    : st rng FilumCryptoError EncryptedField :=
  a ← st_lift (field_aad record_id field_name);
  let cipher := aes_new key in
  iv ← os_fill 12;
  ciphertext ← st_lift (ok_or (encrypt cipher iv {| msg := plaintext; aad := a |}) Aead);
  mret {| ciphertext := ciphertext; iv := iv |}.

Definition decrypt_field (field : EncryptedField) (key : bytes) (record_id field_name : str)
    : Result bytes :=
  a ← field_aad record_id field_name;
  let cipher := aes_new key in
  ok_or (decrypt cipher (iv field) {| msg := ciphertext field; aad := a |}) Aead.

(** The pieces of a successful encryption. *)
Lemma encrypt_field_inv pt key r f g fld g' :
  encrypt_field pt key r f g = (Ok fld, g') →
  ∃ a, field_aad r f = Ok a ∧ try_fill_bytes 12 g = (Some (iv fld), g') ∧
       encrypt (aes_new key) (iv fld) {| msg := pt; aad := a |} = Some (ciphertext fld).
Proof.
  unfold encrypt_field, os_fill. rsimpl.
  destruct (field_aad r f) as [a|] eqn:Ha; [|done]. rsimpl.
  destruct (try_fill_bytes 12 g) as [[v|] g1] eqn:Hg; rsimpl; [|done].
  destruct (encrypt _ _ _) as [ct|] eqn:Hct; rsimpl; [|done].
  intros [= <- <-]. by exists a.
Qed.

End metadata.

Section metadata_properties.
Context `{OsRngLaws, AesGcmLaws}.

(** The decoder on an encrypted field. *)
Lemma decrypt_encrypted_field pt key r f g fld g' :
  encrypt_field pt key r f g = (Ok fld, g') → decrypt_field fld key r f = Ok pt.
Proof.
  intros (a & Ha & _ & Hct)%encrypt_field_inv. unfold decrypt_field. rewrite Ha. rsimpl.
  by rewrite (gcm_correct _ _ _ _ _ Hct).
Qed.

(** C27. What is encrypted for a record and a field decrypts, under the same key and identifiers, to
    the plaintext. *)
Theorem field_round_trip pt key r f g fld g' :
  encrypt_field pt key r f g = (Ok fld, g') → decrypt_field fld key r f = Ok pt.
Proof. apply decrypt_encrypted_field. Qed.

(** Every branch of [encrypt_field], in the order of the code: identifiers are checked before
    the entropy source is touched, a missing source is [Randomness], and otherwise (within the
    length limits of AES-GCM) the field is produced, with a 12-byte nonce and a 16-byte tag. *)
Theorem encrypt_field_outcomes pt key r f g :
  (Z.of_nat (length pt) <= 2 ^ 36)%Z →
  match encrypt_field pt key r f g with
  | (Ok fld, g') => (valid_id r ∧ valid_id f) ∧ try_fill_bytes 12 g = (Some (iv fld), g') ∧
                    length (iv fld) = 12 ∧ length (ciphertext fld) = length pt + 16
  | (Err InvalidContext, g') => ¬ (valid_id r ∧ valid_id f) ∧ g' = g
  | (Err Randomness, g') => (valid_id r ∧ valid_id f) ∧ try_fill_bytes 12 g = (None, g')
  | (Err _, _) => False
  end.
Proof.
  intros Hpt. unfold encrypt_field. rsimpl.
  destruct (field_aad r f) as [a|e] eqn:Ha; rsimpl; last first.
  { rewrite field_aad_eq in Ha. case_decide; [done|]. by injection Ha as <-. }
  apply field_aad_ok in Ha as [[Hr Hf] Ha].
  destruct (os_fill 12 g) as [r1 g1] eqn:Hg.
  apply os_fill_inv in Hg as [(v & -> & Hv & Hg)|[-> Hg]]; rsimpl; [|done].
  destruct (gcm_total (aes_new key) v {| msg := pt; aad := a |}) as [ct Hct].
  { split; [done|]. subst a. destruct Hr, Hf. cbn [aad].
    rewrite !length_app, !prefixed_length. change (length FIELD_DOMAIN) with 21. lia. }
  rewrite Hct. rsimpl. apply gcm_length in Hct. cbn [iv ciphertext]. by split_and!.
Qed.

(** C28. A field that decrypts is the encryption, for exactly these identifiers, of what it decrypts
    to; and decryption is length-preserving up to the tag. *)
Theorem decrypt_field_sound fld key r f pt :
  decrypt_field fld key r f = Ok pt →
  ∃ a, field_aad r f = Ok a ∧
       encrypt (aes_new key) (iv fld) {| msg := pt; aad := a |} = Some (ciphertext fld) ∧
       length (ciphertext fld) = length pt + 16.
Proof.
  unfold decrypt_field. destruct (field_aad r f) as [a|] eqn:Ha; rsimpl; [|done].
  destruct (decrypt _ _ _) as [m|] eqn:Hd; rsimpl; [|done]. intros [= ->].
  apply gcm_tidy in Hd. exists a. split_and!; [done..|]. by apply gcm_length in Hd.
Qed.

(** An encrypted field under other identifiers. *)
Lemma transplanted_field pt key r f g fld g' r' f' :
  encrypt_field pt key r f g = (Ok fld, g') →
  valid_id r' → valid_id f' → (r', f') ≠ (r, f) →
  decrypt_field fld key r' f' = Err Aead ∨
  ∃ a a', field_aad r f = Ok a ∧ field_aad r' f' = Ok a' ∧
          aad_collision (aes_new key) (iv fld) (ciphertext fld) a a'.
Proof.
  intros (a & Ha & _ & Hct)%encrypt_field_inv Hr' Hf' Hne.
  assert (∃ a', field_aad r' f' = Ok a') as [a' Ha'].
  { rewrite field_aad_eq, decide_True by done. eauto. }
  unfold decrypt_field. rewrite Ha'. rsimpl.
  destruct (decrypt _ _ _) as [m|] eqn:Hd; rsimpl; [right|by left].
  exists a, a'. split_and!; [done..|]. split_and!.
  - intros ->. apply Hne. apply field_aad_ok in Ha as [[[] []] ->], Ha' as [[[] []] Heq].
    apply app_inv_head, prefixed_app_inj in Heq as [-> Heq%prefixed_inj]; [|done..].
    by subst.
  - apply gcm_correct in Hct. eauto.
  - eauto.
Qed.

(** C26. Transplant defence: presented under any other valid pair of identifiers, an encrypted field
    is rejected with [Aead], unless the ciphertext is a forgery of AES-GCM. *)
Theorem transplanted_field_rejected pt key r f g fld g' r' f' :
  encrypt_field pt key r f g = (Ok fld, g') →
  valid_id r' → valid_id f' → (r', f') ≠ (r, f) →
  decrypt_field fld key r' f' = Err Aead ∨
  ∃ a a', field_aad r f = Ok a ∧ field_aad r' f' = Ok a' ∧
          aad_collision (aes_new key) (iv fld) (ciphertext fld) a a'.
Proof. apply transplanted_field. Qed.

End metadata_properties.

(** ** Witnesses: a field encrypted with the concrete instance *)

Definition sample_key : bytes := replicate 32 x07.
Definition sample_field : EncryptedField :=
  match encrypt_field (lit "passport") sample_key (lit "rec-1") (lit "name") (toy_gen 5) with
  | (Ok fld, _) => fld
  | _ => {| ciphertext := []; iv := [] |}
  end.

Lemma field_round_trip_witness :
  encrypt_field (lit "passport") sample_key (lit "rec-1") (lit "name") (toy_gen 5)
    = (Ok sample_field, toy_gen 6) ∧
  decrypt_field sample_field sample_key (lit "rec-1") (lit "name") = Ok (lit "passport").
Proof.
  split; [vm_compute; reflexivity|].
  apply (field_round_trip _ _ _ _ (toy_gen 5) _ (toy_gen 6)). vm_compute. reflexivity.
Defined.

Lemma encrypt_field_outcomes_witness :
  match encrypt_field (lit "passport") sample_key (lit "rec-1") (lit "name") toy_broken with
  | (Ok fld, g') =>
      (valid_id (lit "rec-1") ∧ valid_id (lit "name")) ∧
      try_fill_bytes 12 toy_broken = (Some (iv fld), g') ∧
      length (iv fld) = 12 ∧ length (ciphertext fld) = length (lit "passport") + 16
  | (Err InvalidContext, g') => ¬ (valid_id (lit "rec-1") ∧ valid_id (lit "name")) ∧ g' = toy_broken
  | (Err Randomness, g') =>
      (valid_id (lit "rec-1") ∧ valid_id (lit "name")) ∧ try_fill_bytes 12 toy_broken = (None, g')
  | (Err _, _) => False
  end.
Proof. apply encrypt_field_outcomes. simpl. lia. Defined.

(** The branch it takes. *)
Example encrypt_field_no_entropy :
  encrypt_field (lit "passport") sample_key (lit "rec-1") (lit "name") toy_broken
    = (Err Randomness, toy_broken).
Proof. vm_compute. reflexivity. Qed.

Lemma decrypt_field_sound_witness :
  ∃ a, field_aad (lit "rec-1") (lit "name") = Ok a ∧
       encrypt (aes_new sample_key) (iv sample_field) {| msg := lit "passport"; aad := a |}
         = Some (ciphertext sample_field) ∧
       length (ciphertext sample_field) = length (lit "passport") + 16.
Proof. apply decrypt_field_sound. vm_compute. reflexivity. Defined.

Lemma transplanted_field_rejected_witness :
  decrypt_field sample_field sample_key (lit "rec-2") (lit "name") = Err Aead ∨
  ∃ a a', field_aad (lit "rec-1") (lit "name") = Ok a ∧
          field_aad (lit "rec-2") (lit "name") = Ok a' ∧
          aad_collision (aes_new sample_key) (iv sample_field) (ciphertext sample_field) a a'.
Proof.
  apply (transplanted_field_rejected (lit "passport") _ _ _ (toy_gen 5) _ (toy_gen 6)).
  - vm_compute. reflexivity.
  - split; [done|reflexivity].
  - split; [done|reflexivity].
  - done.
Defined.

(** The test [wrong_record_id_fails]: here the left disjunct holds. *)
Example wrong_record_id_sample :
  decrypt_field sample_field sample_key (lit "rec-2") (lit "name") = Err Aead.
Proof. vm_compute. reflexivity. Qed.
