(* ===== verification/Auth.v ===== *)
(** * Device challenge-response signing ([auth.rs])

    Ed25519 over a framed message: the length of the domain tag, the tag, the message. *)

From S2P Require Import Prelude Ints Errors Prims Toy.
From Stdlib Require Import ZArith Lia.

Definition ATTEST_DOMAIN : bytes := lit "filum-crypto/v1/attest".

Record DeviceSignature := { sig_bytes : bytes }.

(** The manual [Debug] implementation: the text of the formatter's [debug_struct] with one field
    that is not the signature; [alternate] is the [{:#?}] form. *)
Definition DeviceSignature_fmt (alternate : bool) (s : DeviceSignature) : bytes :=
  let value := [x22] ++ lit "<redacted>" ++ [x22] in
  if alternate
  then lit "DeviceSignature {" ++ [x0a] ++ lit "    bytes: " ++ value ++ lit "," ++ [x0a] ++ lit "}"
  else lit "DeviceSignature { bytes: " ++ value ++ lit " }".

(** [buf.push(ATTEST_DOMAIN.len() as u8)], then the tag, then the message. *)
Definition domain_separated (message : bytes) : bytes :=
  [byte_of_Z (Z.of_nat (length ATTEST_DOMAIN))] ++ ATTEST_DOMAIN ++ message.

Section auth.
Context `{Ed25519}.

Definition signing_key_from_seed (seed : bytes) : SigningKey := SigningKey_from_bytes seed.

Definition sign_challenge (key : SigningKey) (message : bytes) : DeviceSignature :=
  let sig := sign key (domain_separated message) in
  {| sig_bytes := Signature_to_bytes sig |}.

Definition public_key_bytes (key : SigningKey) : bytes :=
  VerifyingKey_to_bytes (verifying_key key).

Definition verify_signature (public_key message signature : bytes) : Result unit :=
  vk ← ok_or (VerifyingKey_from_bytes public_key) InvalidSignature;
  let sig := Signature_from_bytes signature in
  if verify_strict vk (domain_separated message) sig then Ok tt else Err InvalidSignature.

End auth.

(** ** The framing *)

#[export] Instance domain_separated_inj : Inj (=) (=) domain_separated.
Proof. intros m m'. unfold domain_separated. rewrite !app_assoc. apply app_inv_head. Qed.

(** C31. The frame of a message is the frame of no other (domain, message) pair: whatever tag of at
    most 255 bytes a future flow uses, its frames never collide with attestation frames, and
    the length byte is the true length (the cast to [u8] loses nothing). *)
Theorem attest_frame_unambiguous (domain message message' : bytes) :
  length domain ≤ 255 →
  [byte_of_Z (Z.of_nat (length domain))] ++ domain ++ message = domain_separated message' ↔
  domain = ATTEST_DOMAIN ∧ message = message'.
Proof.
  intros Hlen. unfold domain_separated. split; [|by intros [-> ->]].
  intros [Hb Heq]%app_eq_len; [|done]. injection Hb as Hb.
  apply byte_of_Z_inj in Hb; [|lia|by vm_compute].
  apply app_eq_len in Heq; [done|by apply Nat2Z.inj].
Qed.

Lemma attest_frame_unambiguous_witness :
  [x17] ++ lit "filum-crypto/v1/attestX" ++ lit "m" = domain_separated (lit "Xm") ↔
  lit "filum-crypto/v1/attestX" = ATTEST_DOMAIN ∧ lit "m" = lit "Xm".
Proof. apply (attest_frame_unambiguous (lit "filum-crypto/v1/attestX")). vm_compute. lia. Defined.

(** The signed bytes are never the bare [ATTEST_DOMAIN || message], which the documentation of
    [verify_signature] gives as the verifier's input: a verifier that applies that prefix
    checks another string, whatever the two messages are. *)
Theorem attest_frame_not_bare_prefix (message message' : bytes) :
  domain_separated message ≠ ATTEST_DOMAIN ++ message'.
Proof. discriminate. Qed.

Section auth_properties.
Context `{Ed25519Laws}.

Lemma verify_signed (key : SigningKey) (message : bytes) :
  verify_signature (public_key_bytes key) message (sig_bytes (sign_challenge key message)) = Ok tt.
Proof.
  unfold verify_signature, sign_challenge, public_key_bytes.
  rewrite public_key_round_trip. rsimpl. cbn [sig_bytes].
  by rewrite signature_round_trip, verify_sign.
Qed.

Lemma sign_challenge_length key message : length (sig_bytes (sign_challenge key message)) = 64.
Proof. apply signature_length. Qed.

Lemma public_key_bytes_length key : length (public_key_bytes key) = 32.
Proof. apply public_key_length. Qed.

(** A challenge signed with a key verifies under its public key; signature and public key have
    the lengths of their arrays. *)
Theorem sign_verify_round_trip (key : SigningKey) (message : bytes) :
  verify_signature (public_key_bytes key) message (sig_bytes (sign_challenge key message)) = Ok tt ∧
  length (sig_bytes (sign_challenge key message)) = 64 ∧
  length (public_key_bytes key) = 32.
Proof. split_and!; [apply verify_signed|apply sign_challenge_length|apply public_key_bytes_length]. Qed.

(** The Ed25519 signature of the frame of [message] is accepted for the frame of [message'],
    which is another string. *)
Definition forged_replay (key : SigningKey) (message message' : bytes) : Prop :=
  domain_separated message' ≠ domain_separated message ∧
  verify_strict (verifying_key key) (domain_separated message') (sign key (domain_separated message))
    = true.

(** C30. What the signature of a challenge says when it is presented with any message to the
    verifier: it is accepted for the message that was signed, and for another one it is refused
    with [InvalidSignature], unless that very replay is a forgery of Ed25519: the signature made
    for the frame of the one is valid for the frame of the other, a different string. *)
Theorem replayed_signature_rejected (key : SigningKey) (message message' : bytes) :
  let result := verify_signature (public_key_bytes key) message' (sig_bytes (sign_challenge key message)) in
  (message' = message → result = Ok tt) ∧
  (message' ≠ message → result = Err InvalidSignature ∨ forged_replay key message message').
Proof.
  intros result. split; [intros ->; apply verify_signed|]. intros Hne.
  unfold result, verify_signature, sign_challenge, public_key_bytes, forged_replay.
  rewrite public_key_round_trip. rsimpl. cbn [sig_bytes]. rewrite signature_round_trip.
  destruct (verify_strict _ _ _) eqn:Hv; [right|by left].
  split; [|done]. by intros ?%(inj domain_separated).
Qed.

End auth_properties.

Lemma sign_verify_round_trip_witness :
  let k := signing_key_from_seed (replicate 32 x09) in
  verify_signature (public_key_bytes k) (lit "nonce") (sig_bytes (sign_challenge k (lit "nonce")))
    = Ok tt ∧
  length (sig_bytes (sign_challenge k (lit "nonce"))) = 64 ∧ length (public_key_bytes k) = 32.
Proof. apply (sign_verify_round_trip (signing_key_from_seed (replicate 32 x09))). Defined.

Lemma replayed_signature_rejected_witness :
  let k := signing_key_from_seed (replicate 32 x09) in
  let result m := verify_signature (public_key_bytes k) m (sig_bytes (sign_challenge k (lit "nonce"))) in
  result (lit "nonce") = Ok tt ∧
  (result (lit "different") = Err InvalidSignature ∨ forged_replay k (lit "nonce") (lit "different")).
Proof.
  split.
  - by apply (replayed_signature_rejected (signing_key_from_seed (replicate 32 x09)) (lit "nonce")).
  - by apply (replayed_signature_rejected (signing_key_from_seed (replicate 32 x09)) (lit "nonce")).
Defined.

(** The test [tampered_nonce_fails_verification]. *)
Example tampered_nonce_sample :
  let k := signing_key_from_seed (replicate 32 x09) in
  verify_signature (public_key_bytes k) (lit "different")
    (sig_bytes (sign_challenge k (lit "nonce"))) = Err InvalidSignature.
Proof. vm_compute. reflexivity. Qed.
