(* ===== verification/Recovery.v ===== *)
(** * Recovery phrases ([recovery.rs])

    The 32-byte master secret and its 24-word BIP39 phrase. *)

From S2P Require Import Prelude Errors Prims Toy.
From Stdlib Require Import Lia.

(** [OsRng.try_fill_bytes] on a 32-byte array. *)
Definition generate_master_secret `{OsRng} : st rng FilumCryptoError bytes := os_fill 32.

Section recovery.
Context `{Bip39}.

Definition secret_to_phrase (secret : bytes) : Result str :=
  mnemonic ← ok_or (Mnemonic_from_entropy secret) InvalidKeyLength;
  Ok (Mnemonic_to_string mnemonic).

Definition phrase_to_secret (phrase : str) : Result bytes :=
  mnemonic ← ok_or (Mnemonic_parse phrase) InvalidPhrase;
  let entropy := Mnemonic_to_entropy mnemonic in
  if negb (length entropy =? 32) then Err InvalidPhrase else Ok entropy.

(** Every phrase is either refused with [InvalidPhrase] or yields exactly 32 bytes; a phrase of
    another BIP39 length (12 words, say) is refused although it parses. *)
Theorem phrase_to_secret_outcomes phrase :
  match phrase_to_secret phrase with
  | Ok secret => length secret = 32 ∧
                 ∃ m, Mnemonic_parse phrase = Some m ∧ Mnemonic_to_entropy m = secret
  | Err e => e = InvalidPhrase ∧
             ∀ m, Mnemonic_parse phrase = Some m → length (Mnemonic_to_entropy m) ≠ 32
  end.
Proof.
  unfold phrase_to_secret. destruct (Mnemonic_parse phrase) as [m|]; rsimpl; [|done].
  destruct (Nat.eqb_spec (length (Mnemonic_to_entropy m)) 32); simpl; [by eauto|].
  split; [done|]. by intros m' [= <-].
Qed.

End recovery.

Section recovery_properties.
Context `{Bip39Laws}.

Lemma secret_has_phrase secret :
  length secret = 32 →
  ∃ phrase, secret_to_phrase secret = Ok phrase ∧ phrase_to_secret phrase = Ok secret.
Proof.
  intros Hlen. unfold secret_to_phrase, phrase_to_secret.
  destruct (proj2 (from_entropy_total secret)) as [m Hm].
  { rewrite Hlen. rewrite !elem_of_cons. tauto. }
  rewrite Hm. rsimpl. eexists. split; [done|].
  rewrite (parse_to_string _ _ Hm), (from_to_entropy _ _ Hm). by rewrite Hlen.
Qed.

(** Every 32-byte secret has a phrase, and the phrase gives the secret back. *)
Theorem secret_phrase_round_trip secret :
  length secret = 32 →
  ∃ phrase, secret_to_phrase secret = Ok phrase ∧ phrase_to_secret phrase = Ok secret.
Proof. apply secret_has_phrase. Qed.

End recovery_properties.

Lemma secret_phrase_round_trip_witness :
  length (replicate 32 x2a) = 32 ∧
  ∃ phrase, secret_to_phrase (replicate 32 x2a) = Ok phrase ∧
            phrase_to_secret phrase = Ok (replicate 32 x2a).
Proof. split; [done|]. by apply secret_phrase_round_trip. Defined.

(** The test [twelve_word_phrase_rejected]: the phrase parses, and is refused for its length. *)
Example twelve_word_phrase_sample :
  let twelve := Mnemonic_to_string (replicate 16 x00) in
  is_Some (Mnemonic_parse twelve) ∧ phrase_to_secret twelve = Err InvalidPhrase.
Proof. split; [by eexists|reflexivity]. Qed.
