(* ===== verification/Segments.v ===== *)
(** * Cutting a string into segments, and sealing a sequence of segments

    The chunking shared by the in-memory and the file codec of [blob.rs]: [blocks] is the
    cutting "full chunks, then a strictly shorter remainder" that both encoders and the file
    decoder perform, [chunks] is [slice::chunks], which the in-memory decoder uses. [seal] and
    [unseal] run a STREAM encryptor and decryptor over a cut message: the reference the loops
    of the codecs are compared with. *)

From S2P Require Import Prelude Errors Prims.
From Stdlib Require Import ZArith Lia.

(** ** Cutting *)

Fixpoint blocks_fuel (fuel n : nat) (l : bytes) : list bytes * bytes :=
  match fuel with
  | O => ([], l)
  | S fuel' =>
      if length l <? n then ([], l) else
      let '(bs, r) := blocks_fuel fuel' n (drop n l) in (take n l :: bs, r)
  end.

(** Full blocks of [n] bytes and the remainder, shorter than [n] and possibly empty. *)
Definition blocks (n : nat) (l : bytes) : list bytes * bytes := blocks_fuel (length l) n l.

Fixpoint chunks_fuel (fuel n : nat) (l : bytes) : list bytes :=
  match fuel, l with
  | S fuel', _ :: _ => take n l :: chunks_fuel fuel' n (drop n l)
  | _, _ => []
  end.

(** [l.chunks(n)]: blocks of [n] bytes, the last one shorter if need be, never empty. *)
Definition chunks (n : nat) (l : bytes) : list bytes := chunks_fuel (length l) n l.

(** What a cutting into blocks is. *)
Definition cut (n : nat) (bs : list bytes) (r : bytes) : Prop :=
  Forall (λ x, length x = n) bs ∧ length r < n.

Lemma blocks_fuel_cut fuel n l bs r :
  0 < n → length l ≤ fuel → blocks_fuel fuel n l = (bs, r) → cut n bs r ∧ concat bs ++ r = l.
Proof.
  intros Hn. revert l bs r. induction fuel as [|fuel IH]; intros l bs r Hl; simpl.
  - intros [= <- <-]. destruct l; [|simpl in *; lia]. by repeat constructor.
  - destruct (Nat.ltb_spec (length l) n) as [Hlt|Hge].
    { intros [= <- <-]. by repeat constructor. }
    destruct (blocks_fuel fuel n (drop n l)) as [bs' r'] eqn:E. intros [= <- <-].
    apply IH in E as [[Hbs Hr] Hcat]; [|rewrite length_drop; lia].
    split; [split; [|done]|].
    + constructor; [|done]. rewrite length_take. lia.
    + simpl. by rewrite <-app_assoc, Hcat, take_drop.
Qed.

Lemma blocks_cut n l bs r : 0 < n → blocks n l = (bs, r) → cut n bs r ∧ concat bs ++ r = l.
Proof. intros Hn. by apply blocks_fuel_cut. Qed.

(** A cutting is determined by the string. *)
Lemma cut_unique n bs r bs' r' :
  0 < n → cut n bs r → cut n bs' r' → concat bs ++ r = concat bs' ++ r' → bs = bs' ∧ r = r'.
Proof.
  intros Hn [Hbs Hr] [Hbs' Hr']. revert bs' Hbs'.
  induction Hbs as [|x bs Hx Hbs IH]; intros bs' Hbs' Heq.
  - destruct Hbs' as [|x' bs' Hx']; [done|].
    apply (f_equal length) in Heq. simpl in Heq. rewrite !length_app in Heq. lia.
  - destruct Hbs' as [|x' bs' Hx' Hbs'].
    + apply (f_equal length) in Heq. simpl in Heq. rewrite !length_app in Heq. lia.
    + simpl in Heq. rewrite <-!app_assoc in Heq.
      apply app_eq_len in Heq as [-> Heq]; [|congruence].
      by apply IH in Heq as [-> ->].
Qed.

Lemma blocks_of_cut n bs r : 0 < n → cut n bs r → blocks n (concat bs ++ r) = (bs, r).
Proof.
  intros Hn Hcut. destruct (blocks n (concat bs ++ r)) as [bs' r'] eqn:E.
  apply blocks_cut in E as [Hcut' Heq]; [|done].
  by apply (cut_unique n) in Heq as [-> ->].
Qed.

Lemma blocks_short n l : length l < n → blocks n l = ([], l).
Proof.
  intros Hl. rewrite <-(app_nil_l l) at 1. apply (blocks_of_cut n []); [lia|].
  by repeat constructor.
Qed.

Lemma blocks_step n l :
  0 < n → n ≤ length l →
  blocks n l = let '(bs, r) := blocks n (drop n l) in (take n l :: bs, r).
Proof.
  intros Hn Hl. destruct (blocks n (drop n l)) as [bs r] eqn:E.
  apply blocks_cut in E as [[Hbs Hr] Hcat]; [|done].
  rewrite <-(take_drop n l) at 1. rewrite <-Hcat, app_assoc.
  apply (blocks_of_cut n (take n l :: bs)); [done|]. split; [|done].
  constructor; [|done]. rewrite length_take. lia.
Qed.

Lemma blocks_count n l : 0 < n → length (blocks n l).1 = length l / n.
Proof.
  intros Hn. destruct (blocks n l) as [bs r] eqn:E.
  apply blocks_cut in E as [[Hbs Hr] <-]; [|done]. simpl.
  rewrite length_app. apply (Nat.div_unique _ _ _ (length r)); [done|].
  f_equal. clear Hr. induction Hbs as [|x bs Hx _ IH]; simpl; [lia|].
  rewrite length_app, IH. lia.
Qed.

Lemma chunks_fuel_blocks fuel n l bs r :
  0 < n → length l ≤ fuel → cut n bs r → concat bs ++ r = l →
  chunks_fuel fuel n l = bs ++ (if decide (r = []) then [] else [r]).
Proof.
  intros Hn. revert l bs r. induction fuel as [|fuel IH]; intros l bs r Hl [Hbs Hr] Heq.
  - destruct l; [|simpl in *; lia].
    apply app_eq_nil in Heq as [Hc ->]. rewrite decide_True by done.
    destruct Hbs as [|x bs Hx]; [done|]. simpl in Hc. apply app_eq_nil in Hc as [-> _].
    simpl in Hx. lia.
  - destruct Hbs as [|x bs Hx Hbs]; simpl in Heq.
    + subst l. destruct r as [|y r]; [done|]. rewrite decide_False by done.
      cbn [chunks_fuel app]. rewrite take_ge, drop_ge by lia.
      by destruct fuel.
    + rewrite <-app_assoc in Heq. destruct l as [|y l].
      { apply app_eq_nil in Heq as [-> _]. simpl in Hx. lia. }
      cbn [chunks_fuel app]. f_equal.
      * rewrite <-Heq, <-Hx. apply take_app_length.
      * apply IH; [rewrite length_drop; simpl in *; lia|done|].
        by rewrite <-Heq, <-Hx, drop_app_length.
Qed.

(** [chunks] is the cutting into blocks, without the remainder when that is empty. *)
Lemma chunks_blocks n l :
  0 < n →
  chunks n l = (blocks n l).1 ++ (if decide ((blocks n l).2 = []) then [] else [(blocks n l).2]).
Proof.
  intros Hn. destruct (blocks n l) as [bs r] eqn:E.
  apply blocks_cut in E as [Hcut Heq]; [|done]. by apply chunks_fuel_blocks.
Qed.

(** The chunks of a concatenation of segments of [n] bytes, of which only the last may be short. *)
Lemma chunks_of_segments n cts ctr :
  0 < n → Forall (λ x, length x = n) cts → 0 < length ctr ≤ n →
  chunks n (concat cts ++ ctr) = cts ++ [ctr].
Proof.
  intros Hn Hcts Hctr. rewrite chunks_blocks by done.
  destruct (decide (length ctr = n)) as [Heq|Hne].
  - rewrite <-(app_nil_r (concat cts ++ ctr)).
    replace (concat cts ++ ctr) with (concat (cts ++ [ctr]))
      by (rewrite concat_app; simpl; by rewrite app_nil_r).
    rewrite blocks_of_cut; [by rewrite decide_True, app_nil_r|done|].
    split; [|simpl; lia]. apply Forall_app. split; [done|by constructor].
  - rewrite blocks_of_cut; [|done|split; [done|lia]].
    cbn [fst snd]. rewrite decide_False; [done|]. intros ->. simpl in *. lia.
Qed.

(** Blocks of [n] bytes correspond to sealed blocks of [n + TAG_LEN] bytes. *)
Lemma sealed_block_lengths n bs cts :
  Forall2 (λ b ct : bytes, length ct = length b + TAG_LEN) bs cts →
  Forall (λ x, length x = n) bs ↔ Forall (λ x, length x = n + TAG_LEN) cts.
Proof.
  induction 1 as [|x y bs cts Hxy _ IH]; [by split; constructor|].
  by rewrite !Forall_cons, IH, Hxy, Nat.add_cancel_r.
Qed.

(** ** Sealing *)

Section seal.
Context `{AesGcm}.

(** Encrypt the segments [bs] with [encrypt_next] and [r] with [encrypt_last]. *)
Fixpoint seal (e : EncryptorBE32) (a : bytes) (bs : list bytes) (r : bytes)
    : option (list bytes * bytes) :=
  match bs with
  | [] => ct ← encrypt_last e {| msg := r; aad := a |}; Some ([], ct)
  | x :: bs' =>
      '(ct, e') ← encrypt_next e {| msg := x; aad := a |};
      '(cts, ctr) ← seal e' a bs' r; Some (ct :: cts, ctr)
  end.

Fixpoint unseal (d : DecryptorBE32) (a : bytes) (cts : list bytes) (ctr : bytes)
    : option (list bytes * bytes) :=
  match cts with
  | [] => m ← decrypt_last d {| msg := ctr; aad := a |}; Some ([], m)
  | x :: cts' =>
      '(m, d') ← decrypt_next d {| msg := x; aad := a |};
      '(bs, r) ← unseal d' a cts' ctr; Some (m :: bs, r)
  end.

(** Both are the same pass over the segments, with the two methods of the object. *)
Fixpoint stream_run {St} (next : St → Payload → option (bytes * St))
    (last : St → Payload → option bytes) (s : St) (a : bytes) (bs : list bytes) (r : bytes)
    : option (list bytes * bytes) :=
  match bs with
  | [] => m ← last s {| msg := r; aad := a |}; Some ([], m)
  | x :: bs' =>
      '(m, s') ← next s {| msg := x; aad := a |};
      '(ms, mr) ← stream_run next last s' a bs' r; Some (m :: ms, mr)
  end.

Definition flat (p : list bytes * bytes) : bytes := concat p.1 ++ p.2.

Lemma seal_run e a bs r : seal e a bs r = stream_run encrypt_next encrypt_last e a bs r.
Proof.
  revert e. induction bs as [|x bs IH]; intros e; simpl; [done|].
  destruct (encrypt_next _ _) as [[ct e']|]; simpl; [by rewrite IH|done].
Qed.

Lemma unseal_run d a cts ctr :
  unseal d a cts ctr = stream_run decrypt_next decrypt_last d a cts ctr.
Proof.
  revert d. induction cts as [|x cts IH]; intros d; simpl; [done|].
  destruct (decrypt_next _ _) as [[m d']|]; simpl; [by rewrite IH|done].
Qed.

End seal.

Section seal_laws.
Context `{AesGcmLaws}.

Lemma seal_unseal c np n e d a bs r cts ctr :
  in_sync c np n e d → seal e a bs r = Some (cts, ctr) → unseal d a cts ctr = Some (bs, r).
Proof.
  revert n e d cts. induction bs as [|x bs IH]; intros n e d cts Hs Hseal; simpl in Hseal.
  - destruct (encrypt_last _ _) as [ct|] eqn:E; simplify_eq/=.
    by rewrite (stream_last_correct _ _ _ _ _ _ _ _ Hs E).
  - destruct (encrypt_next _ _) as [[ct e']|] eqn:E; simplify_eq/=.
    destruct (seal e' a bs r) as [[cts' ctr']|] eqn:E'; simplify_eq/=.
    destruct (stream_next_correct _ _ _ _ _ _ _ _ _ Hs E) as [d' Hd]. rewrite Hd. simpl.
    by rewrite (IH (S n) e' d' cts' (sync_next _ _ _ _ _ _ _ _ _ _ Hs E Hd) E').
Qed.

Lemma unseal_seal c np n e d a bs r cts ctr :
  in_sync c np n e d → unseal d a cts ctr = Some (bs, r) → seal e a bs r = Some (cts, ctr).
Proof.
  revert n e d bs. induction cts as [|x cts IH]; intros n e d bs Hs Hun; simpl in Hun.
  - destruct (decrypt_last _ _) as [m|] eqn:E; simplify_eq/=.
    by rewrite (stream_last_tidy _ _ _ _ _ _ _ _ Hs E).
  - destruct (decrypt_next _ _) as [[m d']|] eqn:E; simplify_eq/=.
    destruct (unseal d' a cts ctr) as [[bs' r']|] eqn:E'; simplify_eq/=.
    destruct (stream_next_tidy _ _ _ _ _ _ _ _ _ Hs E) as [e' He]. rewrite He. simpl.
    by rewrite (IH (S n) e' d' bs' (sync_next _ _ _ _ _ _ _ _ _ _ Hs He E) E').
Qed.

(** Every segment grows by the tag. *)
Lemma seal_lengths e a bs r cts ctr :
  seal e a bs r = Some (cts, ctr) →
  Forall2 (λ b ct, length ct = length b + TAG_LEN) bs cts ∧ length ctr = length r + TAG_LEN.
Proof.
  revert e cts. induction bs as [|x bs IH]; intros e cts Hseal; simpl in Hseal.
  - destruct (encrypt_last _ _) as [ct|] eqn:E; simplify_eq/=.
    apply stream_last_length in E. by split.
  - destruct (encrypt_next _ _) as [[ct e']|] eqn:E; simplify_eq/=.
    destruct (seal e' a bs r) as [[cts' ctr']|] eqn:E'; simplify_eq/=.
    apply IH in E' as [??]. apply stream_next_length in E. split; [by constructor|done].
Qed.

Lemma seal_cut e a n bs r cts ctr :
  seal e a bs r = Some (cts, ctr) → cut n bs r ↔ cut (n + TAG_LEN) cts ctr.
Proof.
  intros [Hf Hr]%seal_lengths. unfold cut. rewrite Hr.
  by rewrite (sealed_block_lengths n _ _ Hf), <-Nat.add_lt_mono_r.
Qed.

Lemma seal_length e a bs r p :
  seal e a bs r = Some p →
  length (flat p) = length (concat bs ++ r) + TAG_LEN * S (length bs).
Proof.
  destruct p as [cts ctr]. intros [Hf Hr]%seal_lengths. unfold flat. simpl.
  rewrite !length_app, Hr.
  assert (length (concat cts) = length (concat bs) + TAG_LEN * length bs) as ->; [|unfold TAG_LEN; lia].
  clear Hr. unfold TAG_LEN in *. induction Hf as [|x y bs cts Hxy _ IH]; simpl; [lia|].
  rewrite !length_app, IH, Hxy. lia.
Qed.

(** Within the limits of the AEAD and of the block counter sealing cannot fail. *)
Lemma seal_total c np n e d a bs r :
  in_sync c np n e d → (Z.of_nat (n + length bs) < 2 ^ 32)%Z →
  Forall (λ x, gcm_len_ok {| msg := x; aad := a |}) (r :: bs) → is_Some (seal e a bs r).
Proof.
  intros Hs Hn [Hr Hbs]%Forall_cons. revert n e d Hs Hn.
  induction Hbs as [|x bs Hx Hbs IH]; intros n e d Hs Hn; cbn [seal length] in *.
  - destruct (stream_last_total _ _ _ _ _ {| msg := r; aad := a |} Hs) as [ct Hct]; [lia|done|].
    rewrite Hct. eauto.
  - destruct (stream_next_total _ _ _ _ _ {| msg := x; aad := a |} Hs) as [[ct e'] Hct];
      [lia|done|].
    destruct (stream_next_correct _ _ _ _ _ _ _ _ _ Hs Hct) as [d' Hd]. rewrite Hct. simpl.
    destruct (IH (S n) e' d') as [[cts ctr] Hse]; [by econstructor|lia|].
    rewrite Hse. eauto.
Qed.

(** A last segment without room for a tag is never accepted. *)
Lemma short_last_rejected c np n e d a ctr :
  in_sync c np n e d → length ctr < TAG_LEN →
  decrypt_last d {| msg := ctr; aad := a |} = None.
Proof.
  intros Hs Hlen. destruct (decrypt_last _ _) as [m|] eqn:E; [|done].
  apply (stream_last_tidy _ _ _ _ _ _ _ _ Hs), stream_last_length in E. lia.
Qed.

Lemma short_remainder_rejected c np n e d a cts ctr :
  in_sync c np n e d → length ctr < TAG_LEN → unseal d a cts ctr = None.
Proof.
  intros Hs Hlen. destruct (unseal d a cts ctr) as [[bs r]|] eqn:E; [|done].
  apply (unseal_seal _ _ _ _ _ _ _ _ _ _ Hs), seal_lengths in E as [_ ?]. lia.
Qed.

End seal_laws.
