(* ===== verification/Blob.v ===== *)
(** * The chunked blob codec, in memory ([blob.rs])

    Key wrapping, the 72-byte header, and [encrypt_chunked] / [decrypt_chunked]. *)

From S2P Require Import Prelude Ints Errors Prims Toy Aad Segments.
From Stdlib Require Import ZArith Lia.

(** ** Definitions *)

Definition VERSION : byte := x02.
Definition WRAPPED_KEY_LEN : nat := 60.
Definition NONCE_PREFIX_LEN : nat := 7.
Definition HEADER_LEN : nat := 1 + WRAPPED_KEY_LEN + NONCE_PREFIX_LEN + 4.
(** The chunk size as an integer, and as the length it is. *)
Definition chunk_size_int : Z := 1024 * 1024.
Definition CHUNK_SIZE : nat := Z.to_nat chunk_size_int.

(** [(CHUNK_SIZE as u32).to_be_bytes()]. *)
Definition chunk_size_be : bytes := u32_to_be_bytes (as_u32 chunk_size_int).

(** [out] extended by the header. *)
Definition write_header (out wrapped_key nonce_prefix : bytes) : bytes :=
  out ++ [VERSION] ++ wrapped_key ++ nonce_prefix ++ chunk_size_be.

#[global] Arguments write_header : simpl never.

Section blob.
Context `{OsRng, AesGcm}.

Definition wrap_data_key (data_key wrapping_key a : bytes) : st rng FilumCryptoError bytes :=
  wrap_iv ← os_fill 12;
  let wrapper := aes_new wrapping_key in
  wrapped_key_ct ← st_lift (ok_or (encrypt wrapper wrap_iv {| msg := data_key; aad := a |}) Aead);
  if negb (length wrapped_key_ct =? WRAPPED_KEY_LEN - 12) then st_lift (Err Aead) else
  mret (wrap_iv ++ wrapped_key_ct).

Definition unwrap_data_key (wrapped wrapping_key a : bytes) : Result bytes :=
  if negb (length wrapped =? WRAPPED_KEY_LEN) then Err Aead else
  let wrap_iv := take 12 wrapped in
  let wrapped_ct := drop 12 wrapped in
  let wrapper := aes_new wrapping_key in
  data_key ← ok_or (decrypt wrapper wrap_iv {| msg := wrapped_ct; aad := a |}) Aead;
  if negb (length data_key =? 32) then Err Aead else Ok data_key.

(** The common opening of the two encoders: the random data key and nonce prefix, and the data
    key wrapped for this blob id. *)
Definition new_blob_keys (wrapping_key : bytes) (blob_id : str)
    : st rng FilumCryptoError (bytes * bytes * bytes) :=
  data_key ← os_fill 32;
  nonce_prefix ← os_fill NONCE_PREFIX_LEN;
  wrap_aad ← st_lift (blob_wrap_aad blob_id VERSION nonce_prefix chunk_size_be);
  wrapped ← wrap_data_key data_key wrapping_key wrap_aad;
  mret (data_key, nonce_prefix, wrapped).

(** [for i in 0..full_chunks]: the iterations [i .. i + todo]. *)
Fixpoint encrypt_full_chunks (plaintext seg_aad : bytes) (todo i : nat)
    (enc : EncryptorBE32) (out : bytes) : Result (EncryptorBE32 * bytes) :=
  match todo with
  | O => Ok (enc, out)
  | S todo' =>
      let start := i * CHUNK_SIZE in
      '(ct, enc') ← ok_or (encrypt_next enc
        {| msg := slice plaintext start (start + CHUNK_SIZE); aad := seg_aad |}) Aead;
      encrypt_full_chunks plaintext seg_aad todo' (S i) enc' (out ++ ct)
  end.

Definition encrypt_chunked (plaintext wrapping_key : bytes) (blob_id : str)
    : st rng FilumCryptoError bytes :=
  seg_aad ← st_lift (blob_segment_aad blob_id);
  '(data_key, nonce_prefix, wrapped) ← new_blob_keys wrapping_key blob_id;
  let out := write_header [] wrapped nonce_prefix in
  let cipher := aes_new data_key in
  let enc := enc_from_aead cipher nonce_prefix in
  let full_chunks := length plaintext / CHUNK_SIZE in
  '(enc, out) ← st_lift (encrypt_full_chunks plaintext seg_aad full_chunks 0 enc out);
  last ← st_lift (ok_or (encrypt_last enc
    {| msg := drop (full_chunks * CHUNK_SIZE) plaintext; aad := seg_aad |}) Aead);
  mret (out ++ last).

(** The common opening of the two decoders, on bytes that start with a whole header: the
    version and chunk-size guards, then the key unwrap. Returns the data key, the nonce prefix
    and [ct_chunk]. *)
Definition open_header (header wrapping_key : bytes) (blob_id : str)
    : Result (bytes * bytes * nat) :=
  if bool_decide (header !! 0 ≠ Some VERSION) then Err Aead else
  let nonce_prefix := slice header (1 + WRAPPED_KEY_LEN) (1 + WRAPPED_KEY_LEN + NONCE_PREFIX_LEN) in
  let cs_off := 1 + WRAPPED_KEY_LEN + NONCE_PREFIX_LEN in
  let chunk_size := u32_from_be_bytes (slice header cs_off (cs_off + 4)) in
  if negb (chunk_size =? chunk_size_int)%Z then Err Aead else
  wrap_aad ← blob_wrap_aad blob_id VERSION nonce_prefix chunk_size_be;
  data_key ← unwrap_data_key (slice header 1 (1 + WRAPPED_KEY_LEN)) wrapping_key wrap_aad;
  Ok (data_key, nonce_prefix, Z.to_nat chunk_size + 16).

(** The loop over [body.chunks(ct_chunk).peekable()]: a chunk with a successor is a middle
    segment, the one without is the last. *)
Fixpoint decrypt_chunks (dec : DecryptorBE32) (seg_aad : bytes) (it : list bytes) (out : bytes)
    : Result bytes :=
  match it with
  | [] => Ok out
  | chunk :: it' =>
      match it' with
      | _ :: _ =>
          '(m, dec') ← ok_or (decrypt_next dec {| msg := chunk; aad := seg_aad |}) Aead;
          decrypt_chunks dec' seg_aad it' (out ++ m)
      | [] =>
          m ← ok_or (decrypt_last dec {| msg := chunk; aad := seg_aad |}) Aead;
          Ok (out ++ m)
      end
  end.

Definition decrypt_chunked (framed wrapping_key : bytes) (blob_id : str) : Result bytes :=
  seg_aad ← blob_segment_aad blob_id;
  if length framed <? HEADER_LEN then Err Aead else
  '(data_key, nonce_prefix, ct_chunk) ← open_header framed wrapping_key blob_id;
  let cipher := aes_new data_key in
  let dec := dec_from_aead cipher nonce_prefix in
  let body := drop HEADER_LEN framed in
  let it := chunks ct_chunk body in
  if bool_decide (it = []) then Err Aead else
  decrypt_chunks dec seg_aad it [].

End blob.

(** ** The constants *)

Lemma chunk_size_int_eq : chunk_size_int = Z.of_nat CHUNK_SIZE.
Proof. unfold CHUNK_SIZE. by rewrite Z2Nat.id by done. Qed.

Lemma CHUNK_SIZE_Z : Z.of_nat CHUNK_SIZE = (2 ^ 20)%Z.
Proof. by rewrite <-chunk_size_int_eq. Qed.

#[global] Opaque CHUNK_SIZE.
#[global] Arguments CHUNK_SIZE : simpl never.

Lemma CHUNK_SIZE_pos : 0 < CHUNK_SIZE.
Proof. pose proof CHUNK_SIZE_Z. lia. Qed.

Lemma chunk_size_be_length : length chunk_size_be = 4.
Proof. apply be_bytes_length. Qed.

(** Writing the chunk size and reading it back. *)
Lemma chunk_size_be_read : u32_from_be_bytes chunk_size_be = Z.of_nat CHUNK_SIZE.
Proof.
  unfold chunk_size_be, u32_from_be_bytes, u32_to_be_bytes.
  rewrite from_be_be_bytes, <-chunk_size_int_eq. reflexivity.
Qed.

Lemma chunk_size_be_bytes : chunk_size_be = [x00; x10; x00; x00].
Proof. reflexivity. Qed.

#[export] Hint Rewrite chunk_size_be_length : filum.

(** ** The header *)

Lemma write_header_length w np :
  length w = WRAPPED_KEY_LEN → length np = NONCE_PREFIX_LEN →
  length (write_header [] w np) = HEADER_LEN.
Proof.
  intros Hw Hnp. unfold write_header. rewrite !length_app, Hw, Hnp, chunk_size_be_length. done.
Qed.

(** Arithmetic over the header layout. *)
Ltac layout_lia :=
  unfold HEADER_LEN, WRAPPED_KEY_LEN, NONCE_PREFIX_LEN, VERSION in *; cbn [length]; lia.

(** The three fields of a header at their offsets. *)
Lemma write_header_slices w np body :
  length w = WRAPPED_KEY_LEN → length np = NONCE_PREFIX_LEN →
  slice (write_header [] w np ++ body) 1 (1 + WRAPPED_KEY_LEN) = w ∧
  slice (write_header [] w np ++ body) (1 + WRAPPED_KEY_LEN)
        (1 + WRAPPED_KEY_LEN + NONCE_PREFIX_LEN) = np ∧
  slice (write_header [] w np ++ body) (1 + WRAPPED_KEY_LEN + NONCE_PREFIX_LEN)
        (1 + WRAPPED_KEY_LEN + NONCE_PREFIX_LEN + 4) = chunk_size_be ∧
  drop HEADER_LEN (write_header [] w np ++ body) = body.
Proof.
  intros Hw Hnp. split_and!.
  - unfold write_header. rewrite <-!app_assoc.
    rewrite (slice_app_r [] _ _ _ 0), (slice_app_r [VERSION] _ _ _ 1) by layout_lia.
    by apply slice_app_l.
  - unfold write_header. rewrite <-!app_assoc.
    rewrite (slice_app_r [] _ _ _ 0), (slice_app_r [VERSION] _ _ _ 1),
      (slice_app_r w _ _ _ WRAPPED_KEY_LEN) by layout_lia.
    by apply slice_app_l.
  - unfold write_header. rewrite <-!app_assoc.
    rewrite (slice_app_r [] _ _ _ 0), (slice_app_r [VERSION] _ _ _ 1),
      (slice_app_r w _ _ _ WRAPPED_KEY_LEN), (slice_app_r np _ _ _ NONCE_PREFIX_LEN)
      by layout_lia.
    apply slice_app_l, chunk_size_be_length.
  - rewrite <-(write_header_length w np) by done. apply drop_app_length.
Qed.

(** ** What the code computes, as equations *)

Section blob_equations.
Context `{OsRng, AesGcm}.

(** The reference encoding of a body: cut into chunks and seal. *)
Definition frame_body (data_key np a pt : bytes) : option bytes :=
  p ← seal (enc_from_aead (aes_new data_key) np) a (blocks CHUNK_SIZE pt).1 (blocks CHUNK_SIZE pt).2;
  Some (flat p).

Lemma encrypt_full_chunks_seal pt a todo i enc out :
  todo = (length pt - i * CHUNK_SIZE) / CHUNK_SIZE →
  match encrypt_full_chunks pt a todo i enc out with
  | Ok (enc', out') =>
      option_map (λ ct, out' ++ ct)
        (encrypt_last enc' {| msg := drop ((i + todo) * CHUNK_SIZE) pt; aad := a |})
  | Err _ => None
  end =
  (p ← seal enc a (blocks CHUNK_SIZE (drop (i * CHUNK_SIZE) pt)).1
                  (blocks CHUNK_SIZE (drop (i * CHUNK_SIZE) pt)).2;
   Some (out ++ flat p)).
Proof.
  pose proof CHUNK_SIZE_pos as Hcs.
  revert i enc out. induction todo as [|todo IH]; intros i enc out Htodo.
  - symmetry in Htodo. apply Nat.div_small_iff in Htodo; [|lia].
    rewrite blocks_short by (rewrite length_drop; lia).
    cbn [encrypt_full_chunks seal fst snd]. rewrite Nat.add_0_r.
    by destruct (encrypt_last _ _).
  - assert (CHUNK_SIZE ≤ length pt - i * CHUNK_SIZE) as Hlen.
    { destruct (Nat.lt_ge_cases (length pt - i * CHUNK_SIZE) CHUNK_SIZE); [|done].
      rewrite Nat.div_small in Htodo by done. lia. }
    rewrite blocks_step by (rewrite ?length_drop; lia). rewrite drop_drop.
    replace (i * CHUNK_SIZE + CHUNK_SIZE) with (S i * CHUNK_SIZE) by lia.
    specialize (IH (S i)). destruct (blocks CHUNK_SIZE (drop (S i * CHUNK_SIZE) pt)) as [bs r].
    cbn [encrypt_full_chunks seal fst snd] in *. unfold slice.
    replace (i * CHUNK_SIZE + CHUNK_SIZE - i * CHUNK_SIZE) with CHUNK_SIZE by lia.
    destruct (encrypt_next _ _) as [[ct enc']|]; rsimpl; [|done]. simpl.
    replace ((i + S todo) * CHUNK_SIZE) with ((S i + todo) * CHUNK_SIZE) by lia.
    rewrite IH; last first.
    { replace (length pt - i * CHUNK_SIZE) with
        (length pt - S i * CHUNK_SIZE + 1 * CHUNK_SIZE) in Htodo by lia.
      rewrite Nat.div_add in Htodo by lia. lia. }
    destruct (seal enc' a bs r) as [[cts ctr]|]; simpl; [|done].
    unfold flat. simpl. by rewrite <-!app_assoc.
Qed.

(** [encrypt_chunked]: validate the id, make the keys, write header and body. *)
Lemma encrypt_chunked_eq pt wk id g :
  encrypt_chunked pt wk id g =
    match blob_segment_aad id with
    | Err e => (Err e, g)
    | Ok a =>
        match new_blob_keys wk id g with
        | (Err e, g') => (Err e, g')
        | (Ok (dk, np, w), g') =>
            (ok_or (option_map (app (write_header [] w np)) (frame_body dk np a pt)) Aead, g')
        end
    end.
Proof.
  unfold encrypt_chunked, frame_body. rsimpl.
  destruct (blob_segment_aad id) as [a|]; [|done].
  destruct (new_blob_keys wk id g) as [[[[dk np] w]|] g']; [|done].
  pose proof (encrypt_full_chunks_seal pt a (length pt / CHUNK_SIZE) 0
    (enc_from_aead (aes_new dk) np) (write_header [] w np)) as Heq.
  rewrite Nat.mul_0_l, Nat.sub_0_r, Nat.add_0_l, drop_0 in Heq. specialize (Heq eq_refl).
  destruct (encrypt_full_chunks _ _ _ _ _ _) as [[enc' out']|e] eqn:E; rsimpl.
  - destruct (encrypt_last _ _), (seal _ _ _ _); simpl in Heq |- *; [|done..].
    by injection Heq as ->.
  - assert (e = Aead) as ->; [|by destruct (seal _ _ _ _)].
    clear Heq. revert E. generalize (length pt / CHUNK_SIZE) as todo, 0 as i,
      (enc_from_aead (aes_new dk) np) as enc, (write_header [] w np) as out.
    induction todo as [|todo IH]; intros i enc out; [done|]. cbn [encrypt_full_chunks].
    destruct (encrypt_next _ _) as [[ct enc']|]; rsimpl; [apply IH|congruence].
Qed.

Lemma decrypt_chunks_unseal dec a cts ctr out :
  decrypt_chunks dec a (cts ++ [ctr]) out =
    ok_or (option_map (λ p, out ++ flat p) (unseal dec a cts ctr)) Aead.
Proof.
  revert dec out. induction cts as [|x cts IH]; intros dec out.
  - simpl. by destruct (decrypt_last _ _).
  - cbn [app decrypt_chunks unseal].
    destruct (cts ++ [ctr]) eqn:Hne; [by destruct cts|].
    destruct (decrypt_next _ _) as [[m dec']|]; rsimpl; [|done]. rewrite IH. simpl.
    destruct (unseal dec' a cts ctr) as [[bs r]|]; simpl; [|done].
    unfold flat. simpl. by rewrite <-!app_assoc.
Qed.

(** The header guards and the unwrap, on a well-formed header. *)
Lemma open_header_write w np rest wk id :
  length w = WRAPPED_KEY_LEN → length np = NONCE_PREFIX_LEN →
  open_header (write_header [] w np ++ rest) wk id =
    (wrap_aad ← blob_wrap_aad id VERSION np chunk_size_be;
     data_key ← unwrap_data_key w wk wrap_aad;
     Ok (data_key, np, CHUNK_SIZE + TAG_LEN)).
Proof.
  intros Hw Hnp. destruct (write_header_slices w np rest Hw Hnp) as (Hs1 & Hs2 & Hs3 & _).
  unfold open_header. rewrite Hs1, Hs2, Hs3, chunk_size_be_read, chunk_size_int_eq, Z.eqb_refl, Nat2Z.id.
  by rewrite bool_decide_false by (intros Hne; by apply Hne).
Qed.

(** Anything else of sufficient length is refused before any cryptography. *)
Lemma open_header_shape h wk id :
  HEADER_LEN ≤ length h →
  (∃ w np, h = write_header [] w np ++ drop HEADER_LEN h ∧
           length w = WRAPPED_KEY_LEN ∧ length np = NONCE_PREFIX_LEN) ∨
  open_header h wk id = Err Aead.
Proof.
  intros Hlen. unfold open_header. case_bool_decide as Hv; [by right|].
  cbv zeta.
  destruct (Z.eqb_spec (u32_from_be_bytes (slice h (1 + WRAPPED_KEY_LEN + NONCE_PREFIX_LEN)
    (1 + WRAPPED_KEY_LEN + NONCE_PREFIX_LEN + 4))) chunk_size_int) as [Hcs|]; [|by right].
  left. exists (slice h 1 (1 + WRAPPED_KEY_LEN)),
    (slice h (1 + WRAPPED_KEY_LEN) (1 + WRAPPED_KEY_LEN + NONCE_PREFIX_LEN)).
  split_and!; [|apply slice_length; layout_lia..].
  rewrite chunk_size_int_eq, <-chunk_size_be_read in Hcs. apply from_be_bytes_inj in Hcs; last first.
  { rewrite slice_length, chunk_size_be_length by layout_lia. layout_lia. }
  rewrite <-(take_drop HEADER_LEN h) at 1. f_equal.
  unfold write_header. rewrite app_nil_l, <-Hcs.
  rewrite (take_drop_slice h (1 + WRAPPED_KEY_LEN + NONCE_PREFIX_LEN)) by layout_lia.
  rewrite (take_drop_slice h (1 + WRAPPED_KEY_LEN)) by layout_lia.
  rewrite (take_drop_slice h 1) by layout_lia.
  rewrite <-!app_assoc. f_equal. destruct h as [|x h]; [done|]. by injection Hv as ->.
Qed.

End blob_equations.

(** ** Inversion of the key operations *)

Section key_wrap.
Context `{OsRngLaws, AesGcm}.

Lemma wrap_data_key_inv dk wk a g w g' :
  wrap_data_key dk wk a g = (Ok w, g') →
  length w = WRAPPED_KEY_LEN ∧
  encrypt (aes_new wk) (take 12 w) {| msg := dk; aad := a |} = Some (drop 12 w).
Proof.
  unfold wrap_data_key. rsimpl. destruct (os_fill 12 g) as [r1 g1] eqn:Hg.
  apply os_fill_inv in Hg as [(iv & -> & Hiv & _)|[-> _]]; [|done].
  destruct (encrypt _ _ _) as [ct|] eqn:Hct; [|done].
  destruct (Nat.eqb_spec (length ct) (WRAPPED_KEY_LEN - 12)) as [Hl|]; [|done]. simpl.
  intros [= <- <-]. rewrite length_app, take_app_length', drop_app_length' by done.
  split; [layout_lia|done].
Qed.

Lemma new_blob_keys_inv wk id g dk np w g' :
  new_blob_keys wk id g = (Ok (dk, np, w), g') →
  length dk = 32 ∧ length np = NONCE_PREFIX_LEN ∧ length w = WRAPPED_KEY_LEN ∧
  ∃ wa, blob_wrap_aad id VERSION np chunk_size_be = Ok wa ∧
        encrypt (aes_new wk) (take 12 w) {| msg := dk; aad := wa |} = Some (drop 12 w).
Proof.
  unfold new_blob_keys. rsimpl. destruct (os_fill 32 g) as [r1 g1] eqn:Hg1.
  apply os_fill_inv in Hg1 as [(dk' & -> & Hdk & _)|[-> _]]; [|done].
  destruct (os_fill NONCE_PREFIX_LEN g1) as [r2 g2] eqn:Hg2.
  apply os_fill_inv in Hg2 as [(np' & -> & Hnp & _)|[-> _]]; [|done].
  destruct (blob_wrap_aad _ _ _ _) as [wa|] eqn:Hwa; [|done].
  destruct (wrap_data_key _ _ _ g2) as [[w'|] g3] eqn:Hw; [|done].
  intros [= <- <- <- <-]. apply wrap_data_key_inv in Hw as [Hw ?]. eauto 6.
Qed.

End key_wrap.

Lemma unwrap_data_key_inv `{AesGcm} w wk a dk :
  unwrap_data_key w wk a = Ok dk →
  length w = WRAPPED_KEY_LEN ∧ length dk = 32 ∧
  decrypt (aes_new wk) (take 12 w) {| msg := drop 12 w; aad := a |} = Some dk.
Proof.
  unfold unwrap_data_key. destruct (Nat.eqb_spec (length w) WRAPPED_KEY_LEN); [|done].
  simpl negb. cbv iota. destruct (decrypt _ _ _) as [m|] eqn:E; rsimpl; [|done].
  destruct (Nat.eqb_spec (length m) 32); [|done]. by intros [= <-].
Qed.

(** ** Decoding a well-formed frame *)

Section decode.
Context `{OsRngLaws, AesGcmLaws}.

(** A wrapped key opens, under the same associated data, to the key that was wrapped. *)
Lemma unwrap_wrapped w wk a dk :
  length w = WRAPPED_KEY_LEN → length dk = 32 →
  encrypt (aes_new wk) (take 12 w) {| msg := dk; aad := a |} = Some (drop 12 w) →
  unwrap_data_key w wk a = Ok dk.
Proof.
  intros Hw Hdk Henc%gcm_correct. unfold unwrap_data_key.
  rewrite Hw, Nat.eqb_refl. simpl negb. cbv iota. rewrite Henc. rsimpl.
  by rewrite Hdk.
Qed.

(** Decoding header and body of the right shape, [ctr] being the last ciphertext segment: it is
    not empty, and only it may be short. *)
Lemma decrypt_frame w np cts ctr wk id :
  length w = WRAPPED_KEY_LEN → length np = NONCE_PREFIX_LEN →
  Forall (λ x, length x = CHUNK_SIZE + TAG_LEN) cts →
  0 < length ctr ≤ CHUNK_SIZE + TAG_LEN →
  decrypt_chunked (write_header [] w np ++ flat (cts, ctr)) wk id =
    (a ← blob_segment_aad id;
     wrap_aad ← blob_wrap_aad id VERSION np chunk_size_be;
     dk ← unwrap_data_key w wk wrap_aad;
     ok_or (option_map flat (unseal (dec_from_aead (aes_new dk) np) a cts ctr)) Aead).
Proof.
  intros Hw Hnp Hcts Hctr. unfold decrypt_chunked.
  destruct (blob_segment_aad id) as [a|]; rsimpl; [|done].
  rewrite length_app, write_header_length by done.
  rewrite (proj2 (Nat.ltb_ge _ _)) by lia. rewrite open_header_write by done. rsimpl.
  destruct (blob_wrap_aad _ _ _ _) as [wa|]; [|done].
  destruct (unwrap_data_key _ _ _) as [dk|]; [|done].
  destruct (write_header_slices w np (flat (cts, ctr)) Hw Hnp) as (_ & _ & _ & ->).
  assert (chunks (CHUNK_SIZE + TAG_LEN) (flat (cts, ctr)) = cts ++ [ctr]) as ->
    by (pose proof CHUNK_SIZE_pos; apply chunks_of_segments; [lia|done|done]).
  rewrite bool_decide_false by (by destruct cts).
  rewrite decrypt_chunks_unseal. by destruct (unseal _ _ _ _).
Qed.

(** Conversely, whatever decodes has that shape. *)
Lemma decrypt_chunked_shape framed wk id pt :
  decrypt_chunked framed wk id = Ok pt →
  ∃ w np cts ctr, framed = write_header [] w np ++ flat (cts, ctr) ∧
    length w = WRAPPED_KEY_LEN ∧ length np = NONCE_PREFIX_LEN ∧
    Forall (λ x, length x = CHUNK_SIZE + TAG_LEN) cts ∧
    0 < length ctr ≤ CHUNK_SIZE + TAG_LEN.
Proof.
  pose proof CHUNK_SIZE_pos as Hcs. unfold decrypt_chunked.
  destruct (blob_segment_aad id) as [a|]; rsimpl; [|done].
  destruct (Nat.ltb_spec (length framed) HEADER_LEN) as [|Hlen]; [done|].
  destruct (open_header_shape framed wk id Hlen) as [(w & np & Hf & Hw & Hnp)|Hbad];
    [|by rewrite Hbad].
  rewrite Hf at 1. rewrite open_header_write by done. rsimpl.
  destruct (blob_wrap_aad _ _ _ _) as [wa|]; [|done].
  destruct (unwrap_data_key _ _ _) as [dk|]; [|done].
  set (body := drop HEADER_LEN framed) in *.
  case_bool_decide as Hit; [done|]. intros _. revert Hit.
  rewrite chunks_blocks by lia.
  destruct (blocks (CHUNK_SIZE + TAG_LEN) body) as [bs r] eqn:E.
  apply blocks_cut in E as [[Hbs Hr] Hcat]; [|lia]. cbn [fst snd].
  case_decide as Hre; [|].
  - rewrite app_nil_r. intros Hne. subst r. rewrite app_nil_r in Hcat.
    destruct (exists_last Hne) as (cts & ctr & ->).
    apply Forall_app in Hbs as [Hcts [Hctr _]%Forall_cons].
    exists w, np, cts, ctr. split_and!; [|done|done|done|lia|lia].
    rewrite Hf. f_equal. rewrite <-Hcat, concat_app. unfold flat. simpl.
    by rewrite app_nil_r.
  - intros _. exists w, np, bs, r. split_and!; [by rewrite Hf, <-Hcat|done|done|done| |lia].
    destruct r; [done|simpl; lia].
Qed.

End decode.

(** ** Properties of the in-memory codec *)

Section blob_properties.
Context `{OsRngLaws, AesGcmLaws}.

(** The parts of an encrypted frame. *)
Lemma encrypt_chunked_inv pt wk id g framed g' :
  encrypt_chunked pt wk id g = (Ok framed, g') →
  ∃ a dk np w p,
    blob_segment_aad id = Ok a ∧ new_blob_keys wk id g = (Ok (dk, np, w), g') ∧
    seal (enc_from_aead (aes_new dk) np) a (blocks CHUNK_SIZE pt).1 (blocks CHUNK_SIZE pt).2
      = Some p ∧
    framed = write_header [] w np ++ flat p.
Proof.
  rewrite encrypt_chunked_eq. destruct (blob_segment_aad id) as [a|]; [|done].
  destruct (new_blob_keys wk id g) as [[[[dk np] w]|] g1]; [|done].
  unfold frame_body. destruct (seal _ _ _ _) as [p|] eqn:Hp; [|done].
  simpl. intros [= <- <-]. by exists a, dk, np, w, p.
Qed.

(** The shape of the segments of an encrypted body. *)
Lemma seal_blocks_shape e a pt cts ctr :
  seal e a (blocks CHUNK_SIZE pt).1 (blocks CHUNK_SIZE pt).2 = Some (cts, ctr) →
  Forall (λ x, length x = CHUNK_SIZE + TAG_LEN) cts ∧
  TAG_LEN ≤ length ctr < CHUNK_SIZE + TAG_LEN ∧ length cts = length pt / CHUNK_SIZE.
Proof.
  pose proof CHUNK_SIZE_pos as Hcs.
  destruct (blocks CHUNK_SIZE pt) as [bs r] eqn:E. cbn [fst snd]. intros Hseal.
  pose proof (blocks_count CHUNK_SIZE pt Hcs) as Hcount. rewrite E in Hcount. simpl in Hcount.
  apply blocks_cut in E as [Hcut _]; [|done].
  rewrite (seal_cut _ _ _ _ _ _ _ Hseal) in Hcut. destruct Hcut as [Hcts Hctr].
  apply seal_lengths in Hseal as [Hall Hr]. apply Forall2_length in Hall.
  split_and!; [done|lia|done|congruence].
Qed.

(** The decoder on the parts of an encrypted frame. *)
Lemma decrypt_encrypted pt wk id g framed g' :
  encrypt_chunked pt wk id g = (Ok framed, g') → decrypt_chunked framed wk id = Ok pt.
Proof.
  intros (a & dk & np & w & [cts ctr] & Ha & Hkeys & Hseal & ->)%encrypt_chunked_inv.
  apply new_blob_keys_inv in Hkeys as (Hdk & Hnp & Hw & wa & Hwa & Henc).
  destruct (seal_blocks_shape _ _ _ _ _ Hseal) as (Hcts & Hctr & _).
  rewrite decrypt_frame by (done || unfold TAG_LEN in *; lia).
  rewrite Ha, Hwa. rsimpl. rewrite (unwrap_wrapped _ _ _ dk) by done.
  rewrite (seal_unseal _ _ _ _ _ _ _ _ _ _ (sync_init _ _) Hseal). simpl.
  destruct (blocks CHUNK_SIZE pt) as [bs r] eqn:E.
  apply blocks_cut in E as [_ <-]; [done|apply CHUNK_SIZE_pos].
Qed.

(** C2. Decrypting what was encrypted, under the same key and blob id, gives back the plaintext,
    for every plaintext length: empty, shorter than a chunk, an exact multiple, or longer. *)
Theorem blob_round_trip pt wk id g framed g' :
  encrypt_chunked pt wk id g = (Ok framed, g') → decrypt_chunked framed wk id = Ok pt.
Proof. apply decrypt_encrypted. Qed.

(** C17. The frame, byte for byte: version 2, 60 bytes of wrapped key, 7 of nonce prefix, the chunk
    size 0x00100000, then [len / CHUNK_SIZE] segments of exactly [CHUNK_SIZE + 16] bytes and a
    last segment of 16 up to, but excluding, [CHUNK_SIZE + 16] bytes. *)
Theorem encrypted_frame_layout pt wk id g framed g' :
  encrypt_chunked pt wk id g = (Ok framed, g') →
  ∃ w np cts ctr,
    framed = [x02] ++ w ++ np ++ [x00; x10; x00; x00] ++ concat cts ++ ctr ∧
    length w = 60 ∧ length np = 7 ∧
    length cts = length pt / CHUNK_SIZE ∧
    Forall (λ x, length x = CHUNK_SIZE + 16) cts ∧ 16 ≤ length ctr < CHUNK_SIZE + 16 ∧
    length framed = 72 + length pt + 16 * S (length pt / CHUNK_SIZE).
Proof.
  intros (a & dk & np & w & [cts ctr] & Ha & Hkeys & Hseal & ->)%encrypt_chunked_inv.
  apply new_blob_keys_inv in Hkeys as (_ & Hnp & Hw & _).
  destruct (seal_blocks_shape _ _ _ _ _ Hseal) as (Hcts & Hctr & Hcount).
  exists w, np, cts, ctr. split_and!; [|done|done|done|done|by apply Hctr|by apply Hctr|].
  - unfold write_header. rewrite chunk_size_be_bytes. by rewrite <-!app_assoc.
  - rewrite length_app, write_header_length by done. rewrite (seal_length _ _ _ _ _ Hseal).
    rewrite blocks_count by apply CHUNK_SIZE_pos.
    destruct (blocks CHUNK_SIZE pt) as [bs r] eqn:E.
    apply blocks_cut in E as [_ <-]; [|apply CHUNK_SIZE_pos].
    unfold TAG_LEN. cbn [fst snd]. change HEADER_LEN with 72. lia.
Qed.

(** The parts of a frame that decodes. *)
Lemma decrypt_chunked_inv framed wk id pt :
  decrypt_chunked framed wk id = Ok pt →
  ∃ a wa dk np w bs r p,
    blob_segment_aad id = Ok a ∧ blob_wrap_aad id VERSION np chunk_size_be = Ok wa ∧
    length w = WRAPPED_KEY_LEN ∧ length np = NONCE_PREFIX_LEN ∧ length dk = 32 ∧
    encrypt (aes_new wk) (take 12 w) {| msg := dk; aad := wa |} = Some (drop 12 w) ∧
    seal (enc_from_aead (aes_new dk) np) a bs r = Some p ∧
    framed = write_header [] w np ++ flat p ∧ pt = concat bs ++ r ∧
    Forall (λ x, length x = CHUNK_SIZE) bs ∧ length r ≤ CHUNK_SIZE.
Proof.
  intros Hdec. destruct (decrypt_chunked_shape _ _ _ _ Hdec)
    as (w & np & cts & ctr & -> & Hw & Hnp & Hcts & Hctr).
  rewrite decrypt_frame in Hdec by done.
  destruct (blob_segment_aad id) as [a|] eqn:Ha; [|done].
  destruct (blob_wrap_aad _ _ _ _) as [wa|] eqn:Hwa; [|done]. rsimpl_in Hdec.
  destruct (unwrap_data_key _ _ _) as [dk|] eqn:Hdk; [|done].
  destruct (unseal _ _ _ _) as [[bs r]|] eqn:Hun; simpl in Hdec; [|done].
  injection Hdec as <-.
  apply unwrap_data_key_inv in Hdk as (_ & Hdk & Henc).
  apply (unseal_seal _ _ _ _ _ _ _ _ _ _ (sync_init _ _)) in Hun.
  pose proof (seal_lengths _ _ _ _ _ _ Hun) as [Hall Hr].
  exists a, wa, dk, np, w, bs, r, (cts, ctr).
  split_and!; [done|done|done|done|done|by apply gcm_tidy|done|done|done| |lia].
  by apply (sealed_block_lengths _ _ _ Hall).
Qed.

(** C9. Soundness of the decoder: a blob that decodes is, byte for byte, header, wrapped key and
    sealed segments of what it decodes to, under exactly this wrapping key and blob id. The
    segmentation is the encoder's, except that the last segment may be a full chunk. *)
Theorem decrypt_chunked_sound framed wk id pt :
  decrypt_chunked framed wk id = Ok pt →
  ∃ a wa dk np w bs r p,
    blob_segment_aad id = Ok a ∧ blob_wrap_aad id VERSION np chunk_size_be = Ok wa ∧
    length w = WRAPPED_KEY_LEN ∧ length np = NONCE_PREFIX_LEN ∧ length dk = 32 ∧
    encrypt (aes_new wk) (take 12 w) {| msg := dk; aad := wa |} = Some (drop 12 w) ∧
    seal (enc_from_aead (aes_new dk) np) a bs r = Some p ∧
    framed = write_header [] w np ++ flat p ∧ pt = concat bs ++ r ∧
    Forall (λ x, length x = CHUNK_SIZE) bs ∧ length r ≤ CHUNK_SIZE.
Proof. apply decrypt_chunked_inv. Qed.

(** C40. The output never exceeds the input: every segment costs its tag and the header 72 bytes, so
    no blob, however crafted, makes the decoder produce more bytes than it was given. *)
Theorem decrypted_length_bound framed wk id pt :
  decrypt_chunked framed wk id = Ok pt →
  ∃ k, 0 < k ∧ length framed = 72 + length pt + 16 * k ∧
       (k - 1) * CHUNK_SIZE ≤ length pt ≤ k * CHUNK_SIZE.
Proof.
  intros (a & wa & dk & np & w & bs & r & p & _ & _ & Hw & Hnp & _ & _ & Hseal & -> & ->
    & Hbs & Hr)%decrypt_chunked_inv.
  exists (S (length bs)). rewrite length_app, write_header_length by done.
  rewrite (seal_length _ _ _ _ _ Hseal). unfold TAG_LEN. change HEADER_LEN with 72.
  rewrite length_app, (concat_length_const _ _ Hbs). lia.
Qed.

End blob_properties.

(** ** Guards that hold whatever the cryptography does *)

Section blob_guards.
Context `{AesGcm}.

Lemma unwrap_data_key_fails_only w wk a : fails_only Aead (unwrap_data_key w wk a).
Proof. unfold unwrap_data_key. auto 7 with filum. Qed.

Lemma open_header_fails_only h wk id : valid_id id → fails_only Aead (open_header h wk id).
Proof.
  intros Hid. unfold open_header. rewrite blob_wrap_aad_eq, decide_True by done.
  auto 7 using unwrap_data_key_fails_only with filum.
Qed.

Lemma decrypt_chunks_fails_only dec a it out : fails_only Aead (decrypt_chunks dec a it out).
Proof.
  revert dec out. induction it as [|x it IH]; intros dec out; [done|].
  cbn [decrypt_chunks]. destruct it; [auto with filum|].
  apply fails_only_bind; [auto with filum|]. intros [m dec']. apply IH.
Qed.

Lemma decrypt_chunked_fails_only framed wk id :
  valid_id id → fails_only Aead (decrypt_chunked framed wk id).
Proof.
  intros Hid. unfold decrypt_chunked. rewrite blob_segment_aad_eq, decide_True by done.
  rsimpl. apply fails_only_if; [done|].
  pose proof (open_header_fails_only framed wk id Hid) as Hopen.
  destruct (open_header framed wk id) as [[[dk np] n]|e]; [|done].
  auto using decrypt_chunks_fails_only with filum.
Qed.

Lemma decrypt_chunked_invalid_id framed wk id :
  ¬ valid_id id → decrypt_chunked framed wk id = Err InvalidContext.
Proof. intros Hid. unfold decrypt_chunked. by rewrite blob_segment_aad_eq, decide_False. Qed.

(** What is not a header of this version with a body behind it. *)
Lemma decrypt_chunked_refuses framed wk id :
  valid_id id →
  length framed ≤ HEADER_LEN ∨ framed !! 0 ≠ Some VERSION ∨ slice framed 68 72 ≠ chunk_size_be →
  decrypt_chunked framed wk id = Err Aead.
Proof.
  intros Hid Hbad. destruct (decrypt_chunked framed wk id) as [pt|e] eqn:Hd; last first.
  { f_equal. pose proof (decrypt_chunked_fails_only framed wk id Hid) as Hf. by rewrite Hd in Hf. }
  exfalso. destruct (decrypt_chunked_shape _ _ _ _ Hd)
    as (w & np & cts & ctr & -> & Hw & Hnp & _ & Hctr).
  destruct (write_header_slices w np (flat (cts, ctr)) Hw Hnp) as (_ & _ & Hcs & _).
  destruct Hbad as [Hlen|[Hv|Hne]].
  - rewrite length_app, write_header_length in Hlen by done. unfold flat in Hlen.
    rewrite length_app in Hlen. cbn [fst snd] in Hlen. lia.
  - by apply Hv.
  - by apply Hne.
Qed.

(** C18. The errors of the decoder: [InvalidContext] exactly for an unusable blob id (checked before
    anything else), and otherwise only [Aead]; a blob shorter than its header, of another
    version, declaring another chunk size, or with no body is refused. *)
Theorem decrypt_chunked_guards framed wk id :
  (decrypt_chunked framed wk id = Err InvalidContext ↔ ¬ valid_id id) ∧
  (∀ e, decrypt_chunked framed wk id = Err e → e = InvalidContext ∨ e = Aead) ∧
  (valid_id id →
   length framed ≤ HEADER_LEN ∨ framed !! 0 ≠ Some VERSION ∨
   slice framed 68 72 ≠ [x00; x10; x00; x00] →
   decrypt_chunked framed wk id = Err Aead).
Proof.
  assert (∀ e, valid_id id → decrypt_chunked framed wk id = Err e → e = Aead) as Herr.
  { intros e Hid Hd. pose proof (decrypt_chunked_fails_only framed wk id Hid) as Hf.
    by rewrite Hd in Hf. }
  split_and!.
  - split; [|apply decrypt_chunked_invalid_id]. intros Hd Hid. by specialize (Herr _ Hid Hd).
  - intros e Hd. destruct (decide (valid_id id)) as [Hid|Hid]; [right; by apply Herr|].
    left. rewrite decrypt_chunked_invalid_id in Hd by done. by injection Hd.
  - rewrite <-chunk_size_be_bytes. apply decrypt_chunked_refuses.
Qed.

End blob_guards.

(** Nonce and ciphertext of the wrapped key, at their offsets in the frame. *)
Lemma wrapped_key_parts (framed w : bytes) :
  slice framed 1 (1 + WRAPPED_KEY_LEN) = w → length w = WRAPPED_KEY_LEN →
  slice framed 1 13 = take 12 w ∧ slice framed 13 (1 + WRAPPED_KEY_LEN) = drop 12 w.
Proof.
  intros Hs Hw. rewrite <-(slice_0 w 12), <-(slice_to_end w 12 WRAPPED_KEY_LEN) by lia.
  rewrite <-Hs, !slice_slice by layout_lia. done.
Qed.

(** ** Outcomes of the encoder *)

Section blob_outcomes.
Context `{OsRngLaws, AesGcmLaws}.

(** Sealing cannot fail below 4 PiB of plaintext. *)
Lemma frame_body_total dk np a pt :
  (Z.of_nat (length pt) < 2 ^ 52)%Z → (Z.of_nat (length a) <= 2 ^ 36)%Z →
  is_Some (frame_body dk np a pt).
Proof.
  intros Hpt Ha. pose proof CHUNK_SIZE_pos as Hpos. pose proof CHUNK_SIZE_Z as Hcs.
  pose proof (blocks_count CHUNK_SIZE pt Hpos) as Hcount. unfold frame_body.
  destruct (blocks CHUNK_SIZE pt) as [bs r] eqn:E. cbn [fst snd] in *.
  apply blocks_cut in E as [[Hbs Hr] _]; [|done].
  assert (∀ x, length x ≤ CHUNK_SIZE → gcm_len_ok {| msg := x; aad := a |}) as Hok.
  { intros x Hx. split; cbn [msg aad]; [lia|done]. }
  destruct (seal_total _ _ _ _ _ a bs r (sync_init (aes_new dk) np)) as [p ->]; [| |by eexists].
  - rewrite Nat.add_0_l, Hcount, Nat2Z.inj_div, Hcs.
    apply Z.div_lt_upper_bound; [lia|]. by rewrite <-Z.pow_add_r by lia.
  - apply Forall_cons. split; [apply Hok; lia|].
    eapply Forall_impl; [done|]. intros x Hx. apply Hok. simpl in Hx. lia.
Qed.

(** One of the three requests for entropy that the encoder makes is refused. *)
Definition no_entropy (g : rng) : Prop :=
  match try_fill_bytes 32 g with
  | (None, _) => True
  | (Some _, g1) =>
      match try_fill_bytes 7 g1 with
      | (None, _) => True
      | (Some _, g2) => (try_fill_bytes 12 g2).1 = None
      end
  end.

(** The outcome of making the keys of a blob. *)
Lemma new_blob_keys_outcomes wk id g :
  valid_id id →
  match new_blob_keys wk id g with
  | (Ok (dk, np, w), g') => ∃ g1 g2,
      try_fill_bytes 32 g = (Some dk, g1) ∧ try_fill_bytes 7 g1 = (Some np, g2) ∧
      try_fill_bytes 12 g2 = (Some (take 12 w), g')
  | (Err e, g') => e = Randomness ∧ no_entropy g ∧ ∃ n g0, try_fill_bytes n g0 = (None, g')
  end.
Proof.
  intros Hid. unfold no_entropy, new_blob_keys, wrap_data_key. rsimpl.
  destruct (os_fill 32 g) as [r1 g1] eqn:Hg1.
  apply os_fill_inv in Hg1 as [(dk & -> & Hdk & H32)|[-> H32]]; rewrite H32; [|by eauto].
  destruct (os_fill NONCE_PREFIX_LEN g1) as [r2 g2] eqn:Hg2.
  apply os_fill_inv in Hg2 as [(np & -> & Hnp & H7)|[-> H7]];
    change NONCE_PREFIX_LEN with 7 in H7; rewrite H7; [|by eauto].
  rewrite blob_wrap_aad_eq, decide_True by done.
  destruct (os_fill 12 g2) as [r3 g3] eqn:Hg3.
  apply os_fill_inv in Hg3 as [(v & -> & Hv & H12)|[-> H12]]; rewrite H12; [|by eauto].
  match goal with |- context [encrypt ?c ?n ?p] => destruct (gcm_total c n p) as [ct Hct] end.
  { destruct Hid as [_ Hid]. split; cbn [msg aad]; [rewrite Hdk; lia|].
    rewrite !length_app, prefixed_length, Hnp, chunk_size_be_length.
    change (length BLOB_DOMAIN) with 20. unfold NONCE_PREFIX_LEN. cbn [length]. lia. }
  rewrite Hct. apply gcm_length in Hct. cbn [msg] in Hct. rewrite Hct, Hdk.
  change (negb (32 + TAG_LEN =? WRAPPED_KEY_LEN - 12)) with false. rsimpl.
  rewrite take_app_length' by done. by exists g1, g2.
Qed.

(** What each error of the encoder means, at any length. *)
Lemma encrypt_chunked_error pt wk id g e g' :
  encrypt_chunked pt wk id g = (Err e, g') →
  match e with
  | InvalidContext => ¬ valid_id id
  | Randomness => no_entropy g
  | Aead => (2 ^ 52 <= Z.of_nat (length pt))%Z
  | _ => False
  end.
Proof.
  rewrite encrypt_chunked_eq, blob_segment_aad_eq. case_decide as Hid; [|by intros [= <- <-]].
  pose proof (new_blob_keys_outcomes wk id g Hid) as Hout.
  destruct (new_blob_keys wk id g) as [[[[dk np] w]|e'] g1];
    [|destruct Hout as (-> & ? & _); by intros [= <- <-]].
  destruct (decide (2 ^ 52 <= Z.of_nat (length pt))%Z) as [Hl|Hl].
  - destruct (frame_body _ _ _ _); [done|]. by intros [= <- <-].
  - destruct (frame_body_total dk np (BLOB_DOMAIN ++ prefixed id) pt) as [body ->]; [lia| |done].
    destruct Hid as [_ Hid]. rewrite length_app, prefixed_length.
    change (length BLOB_DOMAIN) with 20. lia.
Qed.

(** C19. Below 4 PiB (the 32-bit block counter) encryption has exactly three outcomes, in the order
    of the code: an unusable blob id is [InvalidContext] and leaves the entropy source
    untouched; a failing entropy source is [Randomness]; otherwise a frame is produced, from
    three successive requests for 32, 7 and 12 random bytes, of which the second is the nonce
    prefix of the frame and the third the nonce of its wrapped key. *)
Theorem encrypt_chunked_outcomes pt wk id g :
  (Z.of_nat (length pt) < 2 ^ 52)%Z →
  match encrypt_chunked pt wk id g with
  | (Ok framed, g') => valid_id id ∧ ∃ dk g1 g2,
      try_fill_bytes 32 g = (Some dk, g1) ∧
      try_fill_bytes 7 g1 = (Some (slice framed 61 68), g2) ∧
      try_fill_bytes 12 g2 = (Some (slice framed 1 13), g')
  | (Err InvalidContext, g') => ¬ valid_id id ∧ g' = g
  | (Err Randomness, g') => valid_id id ∧ ∃ n g0, try_fill_bytes n g0 = (None, g')
  | (Err _, _) => False
  end.
Proof.
  intros Hpt. rewrite encrypt_chunked_eq, blob_segment_aad_eq.
  case_decide as Hid; [|done].
  pose proof (new_blob_keys_outcomes wk id g Hid) as Hout.
  destruct (new_blob_keys wk id g) as [[[[dk np] w]|e] g'] eqn:Hkeys;
    [|by destruct Hout as (-> & _ & ?)].
  destruct Hout as (g1 & g2 & Hdk & Hnp & Hiv).
  destruct (frame_body_total dk np (BLOB_DOMAIN ++ prefixed id) pt) as [body ->]; [done| |].
  { destruct Hid as [_ Hid]. rewrite length_app, prefixed_length.
    change (length BLOB_DOMAIN) with 20. lia. }
  cbn [option_map ok_or]. split; [done|]. exists dk, g1, g2.
  apply new_blob_keys_inv in Hkeys as (_ & Hlnp & Hlw & _).
  destruct (write_header_slices w np body Hlw Hlnp) as (Hs1 & Hs2 & _).
  destruct (wrapped_key_parts _ _ Hs1 Hlw) as [Hs3 _].
  change (slice (write_header [] w np ++ body) 61 68 = np) in Hs2. by rewrite Hs2, Hs3.
Qed.

End blob_outcomes.

(** ** Transplants and header tampering *)

Section blob_binding.
Context `{OsRngLaws, AesGcmLaws}.

(** The key wrapped in [framed], which was made for [id], is found in [framed'] too, and AES-GCM
    accepts it both under the associated data it was sealed with, and under those that [id'] and
    the header of [framed'] give, which are others. *)
Definition forged_header (wk : bytes) (id : str) (framed : bytes) (id' : str) (framed' : bytes) : Prop :=
  slice framed' 1 61 = slice framed 1 61 ∧
  ∃ wa wa', blob_wrap_aad id VERSION (slice framed 61 68) chunk_size_be = Ok wa ∧
            blob_wrap_aad id' VERSION (slice framed' 61 68) chunk_size_be = Ok wa' ∧
            aad_collision (aes_new wk) (slice framed 1 13) (slice framed 13 61) wa wa'.

(** An honest frame and any frame that carries the same 60-byte wrapped key: if the second one
    decodes, under the same wrapping key and any blob id, then either its header and blob id are
    those of the honest frame, or the wrapped key is forged under the header of the second. *)
Lemma same_wrap_same_header pt wk id g framed g' framed' id' pt' :
  encrypt_chunked pt wk id g = (Ok framed, g') →
  decrypt_chunked framed' wk id' = Ok pt' →
  slice framed' 1 61 = slice framed 1 61 →
  (id' = id ∧ take HEADER_LEN framed' = take HEADER_LEN framed) ∨
  forged_header wk id framed id' framed'.
Proof.
  intros (a & dk & np & w & p & Ha & Hkeys & _ & ->)%encrypt_chunked_inv.
  intros Hdec. apply decrypt_chunked_inv in Hdec
    as (a' & wa' & dk' & np' & w' & bs' & r' & p' & _ & Hwa' & Hw' & Hnp' & _ & Henc' & _ &
        -> & _).
  apply new_blob_keys_inv in Hkeys as (_ & Hnp & Hw & wa & Hwa & Henc).
  destruct (write_header_slices w np (flat p) Hw Hnp) as (Hs & Hs2 & _).
  destruct (write_header_slices w' np' (flat p') Hw' Hnp') as (Hs' & Hs2' & _).
  change (slice (write_header [] w np ++ flat p) 1 61 = w) in Hs.
  change (slice (write_header [] w np ++ flat p) 61 68 = np) in Hs2.
  change (slice (write_header [] w' np' ++ flat p') 1 61 = w') in Hs'.
  change (slice (write_header [] w' np' ++ flat p') 61 68 = np') in Hs2'.
  destruct (wrapped_key_parts _ _ Hs Hw) as [Hs3 Hs4].
  change (slice (write_header [] w np ++ flat p) 13 61 = drop 12 w) in Hs4.
  unfold forged_header. rewrite Hs, Hs', Hs2, Hs2', Hs3, Hs4. intros ->.
  destruct (decide (wa = wa')) as [->|Hne].
  - left. destruct (blob_wrap_aad_inj id' VERSION np' chunk_size_be id VERSION np
      chunk_size_be wa') as (-> & _ & -> & _); [congruence|done|done|].
    split; [done|]. rewrite !take_app_length' by (by rewrite write_header_length). done.
  - right. split; [done|]. exists wa, wa'.
    split_and!; [done..|split_and!; [done|eexists; by apply gcm_correct..]].
Qed.

(** C11. Transplant defence: a frame presented under another valid blob id is rejected with [Aead],
    unless AES-GCM accepts its wrapped key, sealed with the associated data of the first id, under
    those of the second as well. *)
Theorem transplanted_blob_rejected pt wk id g framed g' id' :
  encrypt_chunked pt wk id g = (Ok framed, g') → valid_id id' → id' ≠ id →
  decrypt_chunked framed wk id' = Err Aead ∨ forged_header wk id framed id' framed.
Proof.
  intros Henc Hid Hne. destruct (decrypt_chunked framed wk id') as [pt'|e] eqn:Hdec.
  - right. by destruct (same_wrap_same_header _ _ _ _ _ _ _ _ _ Henc Hdec eq_refl)
      as [[? _]|?].
  - left. f_equal. pose proof (decrypt_chunked_fails_only framed wk id' Hid) as Hf.
    by rewrite Hdec in Hf.
Qed.

(** Header tampering: a string that carries the wrapped key of an honest frame but differs from
    it anywhere in the 72-byte header does not decode under its blob id, unless the wrapped key
    is forged under the changed header. *)
Theorem tampered_header_rejected pt wk id g framed g' framed' :
  encrypt_chunked pt wk id g = (Ok framed, g') →
  slice framed' 1 61 = slice framed 1 61 →
  take HEADER_LEN framed' ≠ take HEADER_LEN framed →
  decrypt_chunked framed' wk id = Err Aead ∨ forged_header wk id framed id framed'.
Proof.
  intros Henc Hw Hne. destruct (decrypt_chunked framed' wk id) as [pt'|e] eqn:Hdec.
  - right. by destruct (same_wrap_same_header _ _ _ _ _ _ _ _ _ Henc Hdec Hw) as [[_ ?]|?].
  - left. f_equal. apply encrypt_chunked_inv in Henc as (a & _ & _ & _ & _ & Ha & _).
    apply blob_segment_aad_ok in Ha as [Hid _].
    pose proof (decrypt_chunked_fails_only framed' wk id Hid) as Hf. by rewrite Hdec in Hf.
Qed.

End blob_binding.

(** ** Witnesses *)

Definition sample_wk : bytes := replicate 32 x2a.
Definition sample_frame : bytes :=
  match encrypt_chunked (lit "some data") sample_wk (lit "blob-a") (toy_gen 1) with
  | (Ok framed, _) => framed
  | _ => []
  end.

Lemma sample_frame_encrypted :
  encrypt_chunked (lit "some data") sample_wk (lit "blob-a") (toy_gen 1)
    = (Ok sample_frame, toy_gen 4).
Proof. vm_compute. reflexivity. Qed.

Lemma blob_round_trip_witness :
  encrypt_chunked (lit "some data") sample_wk (lit "blob-a") (toy_gen 1)
    = (Ok sample_frame, toy_gen 4) ∧
  decrypt_chunked sample_frame sample_wk (lit "blob-a") = Ok (lit "some data").
Proof.
  split; [apply sample_frame_encrypted|]. eapply blob_round_trip, sample_frame_encrypted.
Defined.

Lemma encrypted_frame_layout_witness :
  ∃ w np cts ctr,
    sample_frame = [x02] ++ w ++ np ++ [x00; x10; x00; x00] ++ concat cts ++ ctr ∧
    length w = 60 ∧ length np = 7 ∧
    length cts = length (lit "some data") / CHUNK_SIZE ∧
    Forall (λ x, length x = CHUNK_SIZE + 16) cts ∧ 16 ≤ length ctr < CHUNK_SIZE + 16 ∧
    length sample_frame
      = 72 + length (lit "some data") + 16 * S (length (lit "some data") / CHUNK_SIZE).
Proof. eapply encrypted_frame_layout, sample_frame_encrypted. Defined.

Lemma sample_frame_decrypts :
  decrypt_chunked sample_frame sample_wk (lit "blob-a") = Ok (lit "some data").
Proof. vm_compute. reflexivity. Qed.

Lemma decrypt_chunked_sound_witness :
  ∃ a wa dk np w bs r p,
    blob_segment_aad (lit "blob-a") = Ok a ∧
    blob_wrap_aad (lit "blob-a") VERSION np chunk_size_be = Ok wa ∧
    length w = WRAPPED_KEY_LEN ∧ length np = NONCE_PREFIX_LEN ∧ length dk = 32 ∧
    encrypt (aes_new sample_wk) (take 12 w) {| msg := dk; aad := wa |} = Some (drop 12 w) ∧
    seal (enc_from_aead (aes_new dk) np) a bs r = Some p ∧
    sample_frame = write_header [] w np ++ flat p ∧ lit "some data" = concat bs ++ r ∧
    Forall (λ x, length x = CHUNK_SIZE) bs ∧ length r ≤ CHUNK_SIZE.
Proof. apply decrypt_chunked_sound, sample_frame_decrypts. Defined.

Lemma decrypted_length_bound_witness :
  ∃ k, 0 < k ∧ length sample_frame = 72 + length (lit "some data") + 16 * k ∧
       (k - 1) * CHUNK_SIZE ≤ length (lit "some data") ≤ k * CHUNK_SIZE.
Proof. eapply decrypted_length_bound, sample_frame_decrypts. Defined.

Lemma encrypt_chunked_outcomes_witness :
  match encrypt_chunked (lit "some data") sample_wk (lit "blob-a") (toy_gen 1) with
  | (Ok framed, g') => valid_id (lit "blob-a") ∧ ∃ dk g1 g2,
      try_fill_bytes 32 (toy_gen 1) = (Some dk, g1) ∧
      try_fill_bytes 7 g1 = (Some (slice framed 61 68), g2) ∧
      try_fill_bytes 12 g2 = (Some (slice framed 1 13), g')
  | (Err InvalidContext, g') => ¬ valid_id (lit "blob-a") ∧ g' = toy_gen 1
  | (Err Randomness, g') => valid_id (lit "blob-a") ∧ ∃ n g0, try_fill_bytes n g0 = (None, g')
  | (Err _, _) => False
  end.
Proof. apply encrypt_chunked_outcomes. simpl. lia. Defined.

(** Without entropy. *)
Example encrypt_chunked_no_entropy :
  encrypt_chunked (lit "some data") sample_wk (lit "blob-a") toy_broken = (Err Randomness, toy_broken).
Proof. vm_compute. reflexivity. Qed.

Lemma transplanted_blob_rejected_witness :
  decrypt_chunked sample_frame sample_wk (lit "blob-b") = Err Aead ∨
  forged_header sample_wk (lit "blob-a") sample_frame (lit "blob-b") sample_frame.
Proof.
  eapply (transplanted_blob_rejected _ _ (lit "blob-a"));
    [apply sample_frame_encrypted|by split|done].
Defined.

(** A plaintext of one full chunk, and its encryption. *)
Lemma one_chunk : ∃ r : bytes, length r = CHUNK_SIZE.
Proof. exists (replicate CHUNK_SIZE x00). apply length_replicate. Qed.

Lemma sample_keys :
  ∃ dk np wr a, new_blob_keys sample_wk (lit "blob-a") (toy_gen 1) = (Ok (dk, np, wr), toy_gen 4) ∧
                blob_segment_aad (lit "blob-a") = Ok a.
Proof. eexists _, _, _, _. split; vm_compute; reflexivity. Qed.

(** The test [transplanted_blob_id_fails_in_memory]: the left disjunct. *)
Example transplanted_blob_id_fails :
  decrypt_chunked sample_frame sample_wk (lit "blob-b") = Err Aead.
Proof. vm_compute. reflexivity. Qed.

Definition tampered_frame : bytes := <[61 := xff]> sample_frame.

Lemma tampered_header_rejected_witness :
  decrypt_chunked tampered_frame sample_wk (lit "blob-a") = Err Aead ∨
  forged_header sample_wk (lit "blob-a") sample_frame (lit "blob-a") tampered_frame.
Proof.
  eapply tampered_header_rejected; [apply sample_frame_encrypted|vm_compute; reflexivity|].
  vm_compute. discriminate.
Defined.

(** The test [tampered_nonce_prefix_byte_fails]: the left disjunct. *)
Example tampered_nonce_prefix_sample :
  decrypt_chunked tampered_frame sample_wk (lit "blob-a") = Err Aead.
Proof. vm_compute. reflexivity. Qed.
