(* ===== verification/Integrity.v ===== *)
(** * Integrity of whole blobs

    Beside all the frames that have been made under a wrapping key, for whatever blob ids, no other
    string decodes, unless AES-GCM has been forged, at a place that can be named: in the wrapped
    key, in its associated data, or in one segment of the body. Flipped bytes, changed headers,
    frames presented under another id, segments reordered, repeated, dropped, cut short or taken
    from another frame are all special cases. The STREAM construction gives every segment its own
    nonce (position and last-segment flag are part of it), so a segment accepted where it was not
    made is a forgery. *)

From S2P Require Import Prelude Ints Errors Prims Toy Aad Segments Blob.
From Stdlib Require Import ZArith Lia.

(** ** Forgery events *)

Section events.
Context `{AesGcm}.

(** The decryptor after the segments [cts]. *)
Fixpoint dec_after (d : DecryptorBE32) (a : bytes) (cts : list bytes) : option DecryptorBE32 :=
  match cts with
  | [] => Some d
  | ct :: cts' => '(_, d') ← decrypt_next d {| msg := ct; aad := a |}; dec_after d' a cts'
  end.

(** [ct] is accepted as a middle segment or, with [last], as the last one. *)
Definition accepts (d : DecryptorBE32) (a : bytes) (last : bool) (ct : bytes) : Prop :=
  if last then is_Some (decrypt_last d {| msg := ct; aad := a |})
  else is_Some (decrypt_next d {| msg := ct; aad := a |}).

(** [ct] is the segment that the sealing [(cts, ctr)] has in place [i]. *)
Definition made_at (cts : list bytes) (ctr : bytes) (i : nat) (last : bool) (ct : bytes) : Prop :=
  if last then i = length cts ∧ ct = ctr else cts !! i = Some ct.

(** The body [body], given by its segments, agrees with the sealing [(cts, ctr)] up to a segment
    that was not made in its place and is accepted there. *)
Definition forged_segment (c : Aes256Gcm) (np a : bytes) (cts : list bytes) (ctr : bytes)
    (body : list bytes) : Prop :=
  ∃ m ct d, m ≤ length cts ∧ take m body = take m cts ∧ body !! m = Some ct ∧
    let last := bool_decide (S m = length body) in
    ¬ made_at cts ctr m last ct ∧
    dec_after (dec_from_aead c np) a (take m cts) = Some d ∧ accepts d a last ct.

End events.

(** ** The body *)

Section body.
Context `{AesGcmLaws}.

Lemma dec_after_snoc d a cts ct d1 m d2 :
  dec_after d a cts = Some d1 → decrypt_next d1 {| msg := ct; aad := a |} = Some (m, d2) →
  dec_after d a (cts ++ [ct]) = Some d2.
Proof.
  revert d. induction cts as [|x cts IH]; intros d; simpl.
  - intros [= ->] ->. done.
  - destruct (decrypt_next d _) as [[m' d']|]; simpl; [apply IH|done].
Qed.

(** A segment that is accepted in place [k] behind the honest ones, and was not made there. *)
Lemma forged_at c np a cts ctr k x l d :
  k ≤ length cts → dec_after (dec_from_aead c np) a (take k cts) = Some d →
  ¬ made_at cts ctr k (bool_decide (l = [])) x → accepts d a (bool_decide (l = [])) x →
  forged_segment c np a cts ctr (take k cts ++ x :: l).
Proof.
  intros Hk Hd Hmade Hacc. assert (length (take k cts) = k) as Hl by (rewrite length_take; lia).
  exists k, x, d. rewrite take_app_length' by done.
  rewrite lookup_app_r, Hl, Nat.sub_diag by lia.
  assert (bool_decide (S k = length (take k cts ++ x :: l)) = bool_decide (l = [])) as ->; [|done].
  apply bool_decide_ext. rewrite length_app, Hl. destruct l; simpl; [split; [done|lia]|].
  split; [lia|done].
Qed.

(** From place [k] on, the honest segments before it being in front. *)
Lemma unseal_tampered c np a cts ctr k d e bs r cts' ctr' p :
  in_sync c np k e d → dec_after (dec_from_aead c np) a (take k cts) = Some d → k ≤ length cts →
  seal e a bs r = Some (drop k cts, ctr) → unseal d a cts' ctr' = Some p →
  (cts' = drop k cts ∧ ctr' = ctr) ∨
  forged_segment c np a cts ctr (take k cts ++ cts' ++ [ctr']).
Proof.
  revert k d e bs p. induction cts' as [|x cts' IH]; intros k d e bs p Hs Hd Hk Hseal Hun;
    simpl in Hun.
  - destruct (decrypt_last d _) as [m|] eqn:Hm; [|done].
    destruct (decide (k = length cts ∧ ctr' = ctr)) as [[-> ->]|Hne].
    + left. by rewrite drop_all.
    + right. eapply (forged_at _ _ _ _ _ _ _ []); [done..|]. simpl. by rewrite Hm.
  - destruct (decrypt_next d _) as [[m d']|] eqn:Hm; [|done]. simpl in Hun.
    destruct (unseal d' a cts' ctr') as [p'|] eqn:Hun'; [|done].
    destruct (decide (cts !! k = Some x)) as [Hmade|Hne].
    2: { right. simpl. eapply forged_at; [done|done|by destruct cts'|].
         rewrite bool_decide_false by (by destruct cts'). simpl. by rewrite Hm. }
    rewrite (drop_S _ _ _ Hmade) in Hseal |- *.
    destruct bs as [|y bs]; simpl in Hseal; [by destruct (encrypt_last _ _)|].
    destruct (encrypt_next e _) as [[ct e']|] eqn:He; [|done]. simpl in Hseal.
    destruct (seal e' a bs r) as [[cts2 ctr2]|] eqn:Hseal'; [|done].
    injection Hseal as -> -> ->.
    destruct (stream_next_correct _ _ _ _ _ _ _ _ _ Hs He) as [d2 Hd2].
    rewrite Hm in Hd2. injection Hd2 as -> ->.
    destruct (IH (S k) d2 e' bs p') as [[-> ->]|Hf]; [by econstructor| | |done|done|by left|].
    + rewrite (take_S_r _ _ _ Hmade). by eapply dec_after_snoc.
    + by apply lookup_lt_Some in Hmade.
    + right. rewrite (take_S_r _ _ _ Hmade), <-app_assoc in Hf. exact Hf.
Qed.

End body.

Section integrity.
Context `{OsRngLaws, AesGcmLaws}.

(** A frame that was made: of what, for which id, from which randomness. *)
Record sealing := { s_id : str; s_pt : bytes; s_rng : rng; s_frame : bytes }.

Definition honest (wk : bytes) (s : sealing) : Prop :=
  ∃ g', encrypt_chunked (s_pt s) wk (s_id s) (s_rng s) = (Ok (s_frame s), g').

(** The wrapped key of [framed'] is in none of the frames that were made, and it is accepted with
    the associated data of [id] and the nonce prefix of [framed']. *)
Definition forged_wrap (wk : bytes) (made : list sealing) (id : str) (framed' : bytes) : Prop :=
  (∀ s, s ∈ made → slice framed' 1 61 ≠ slice (s_frame s) 1 61) ∧
  ∃ wa, blob_wrap_aad id VERSION (slice framed' 61 68) chunk_size_be = Ok wa ∧
        is_Some (decrypt (aes_new wk) (slice framed' 1 13) {| msg := slice framed' 13 61; aad := wa |}).

(** Behind the header of the honest [framed], the body of [framed'] has a forged segment. *)
Definition forged_body (wk : bytes) (id : str) (g : rng) (framed framed' : bytes) : Prop :=
  take HEADER_LEN framed' = take HEADER_LEN framed ∧
  ∃ dk np w g1 a cts ctr,
    new_blob_keys wk id g = (Ok (dk, np, w), g1) ∧ blob_segment_aad id = Ok a ∧
    framed = write_header [] w np ++ flat (cts, ctr) ∧ cut (CHUNK_SIZE + TAG_LEN) cts ctr ∧
    forged_segment (aes_new dk) np a cts ctr (chunks (CHUNK_SIZE + TAG_LEN) (drop HEADER_LEN framed')).

(** One of the places has been forged: [framed'], presented as a blob with this [id], is not one of
    the frames that were made. *)
Definition forgery (wk : bytes) (made : list sealing) (id : str) (framed' : bytes) : Prop :=
  forged_wrap wk made id framed' ∨
  ∃ s, s ∈ made ∧ (forged_header wk (s_id s) (s_frame s) id framed' ∨
                   s_id s = id ∧ forged_body wk id (s_rng s) (s_frame s) framed').

(** With the header of the honest frame. *)
Lemma tampered_body pt wk id g framed g' framed' pt' :
  encrypt_chunked pt wk id g = (Ok framed, g') → decrypt_chunked framed' wk id = Ok pt' →
  take HEADER_LEN framed' = take HEADER_LEN framed →
  framed' = framed ∨ forged_body wk id g framed framed'.
Proof.
  intros Henc Hdec Hhdr.
  apply encrypt_chunked_inv in Henc as (a & dk & np & w & [cts ctr] & Ha & Hkeys & Hseal & ->).
  pose proof (new_blob_keys_inv _ _ _ _ _ _ _ Hkeys) as (Hdk & Hnp & Hw & wa & Hwa & Hwenc).
  destruct (seal_blocks_shape _ _ _ _ _ Hseal) as (Hcts & Hctr & _).
  pose proof (decrypt_chunked_shape _ _ _ _ Hdec)
    as (w' & np' & cts' & ctr' & -> & Hw' & Hnp' & Hcts' & Hctr').
  rewrite !take_app_length' in Hhdr by (by rewrite write_header_length).
  rewrite Hhdr in Hdec |- *.
  rewrite (decrypt_frame w np cts' ctr' wk id Hw Hnp Hcts' Hctr'), Ha, Hwa in Hdec. rsimpl_in Hdec.
  rewrite (unwrap_wrapped _ _ _ dk Hw Hdk Hwenc) in Hdec. rsimpl_in Hdec.
  destruct (unseal _ a cts' ctr') as [p|] eqn:Hun; [|discriminate Hdec].
  destruct (unseal_tampered _ np a cts ctr 0 _ _ _ _ cts' ctr' _ (sync_init _ _) eq_refl
    (Nat.le_0_l _) Hseal Hun) as [[-> ->]|Hf]; [by left|right].
  split; [by rewrite !take_app_length' by (by rewrite write_header_length)|].
  exists dk, np, w, g', a, cts, ctr. split; [exact Hkeys|]. split; [exact Ha|].
  split; [reflexivity|]. split; [exact (conj Hcts (proj2 Hctr))|].
  rewrite drop_app_length' by (by rewrite write_header_length). unfold flat at 1. cbn [fst snd].
  rewrite chunks_of_segments; [exact Hf| |exact Hcts'|exact Hctr'].
  exact (Nat.add_pos_l _ _ CHUNK_SIZE_pos).
Qed.

(** Another wrapped key than those that were made. *)
Lemma tampered_wrap wk made id framed' pt' :
  decrypt_chunked framed' wk id = Ok pt' →
  (∀ s, s ∈ made → slice framed' 1 61 ≠ slice (s_frame s) 1 61) → forged_wrap wk made id framed'.
Proof.
  intros Hdec Hne. split; [done|]. apply decrypt_chunked_inv in Hdec
    as (a & wa & dk & np & w & bs & r & p & _ & Hwa & Hw & Hnp & _ & Hwenc & _ & -> & _).
  destruct (write_header_slices w np (flat p) Hw Hnp) as (Hs1 & Hs2 & _).
  destruct (wrapped_key_parts _ _ Hs1 Hw) as [Hs3 Hs4].
  change (1 + WRAPPED_KEY_LEN) with 61 in *. change (61 + NONCE_PREFIX_LEN) with 68 in Hs2.
  exists wa. rewrite Hs2, Hs3, Hs4. split; [done|]. eexists. by apply gcm_correct.
Qed.

(** Any string that is not a frame made for this id. *)
Lemma tampered_blob wk made id framed' :
  Forall (honest wk) made → valid_id id → (∀ s, s ∈ made → s_id s = id → s_frame s ≠ framed') →
  decrypt_chunked framed' wk id = Err Aead ∨ forgery wk made id framed'.
Proof.
  intros Hmade Hid Hne. destruct (decrypt_chunked framed' wk id) as [pt'|e] eqn:Hdec; [right|left].
  - destruct (decide (Exists (λ s, slice framed' 1 61 = slice (s_frame s) 1 61) made)) as [He|Hw].
    2: { left. eapply tampered_wrap; [done|]. intros s Hs Heq. apply Hw, Exists_exists. by exists s. }
    apply Exists_exists in He as (s & Hs & Heq). right. exists s. split; [done|].
    rewrite Forall_forall in Hmade. destruct (Hmade s Hs) as [g' Henc].
    destruct (same_wrap_same_header _ _ _ _ _ _ _ _ _ Henc Hdec Heq) as [[-> Hh]|?]; [right|by left].
    split; [done|]. destruct (tampered_body _ _ _ _ _ _ _ _ Henc Hdec Hh) as [->|?]; [|done].
    by destruct (Hne s Hs).
  - f_equal. pose proof (decrypt_chunked_fails_only framed' wk id Hid) as Hf. by rewrite Hdec in Hf.
Qed.

(** C10. Integrity of ciphertexts. Let [made] be the frames that have been made under a wrapping
    key, each for its own blob id. Under any id the only strings that decode are the frames made
    for that id: any other one, with bits flipped anywhere, extended, truncated, put together from
    pieces, or made for another id, is refused with [Aead], unless one of three forgeries of
    AES-GCM is in this very string: its wrapped key is in no frame that was made and is accepted
    with the associated data of this id and header; or its wrapped key is that of a frame that was
    made, for other associated data, which its id and header give, and is accepted under these as
    well; or it has the header of a frame made for this id, and the first segment of the body that
    is not the one made for its place is accepted there. *)
Theorem blob_integrity wk made id framed' :
  Forall (honest wk) made → valid_id id → (∀ s, s ∈ made → s_id s = id → s_frame s ≠ framed') →
  decrypt_chunked framed' wk id = Err Aead ∨
  forged_wrap wk made id framed' ∨
  ∃ s, s ∈ made ∧ (forged_header wk (s_id s) (s_frame s) id framed' ∨
                   s_id s = id ∧ forged_body wk id (s_rng s) (s_frame s) framed').
Proof. apply tampered_blob. Qed.

End integrity.

(** ** Witness and examples *)

(** One bit of the last byte. *)
Definition flipped_frame : bytes :=
  alter (λ b, byte_of_Z (Z.lxor (byte_to_Z b) 1)) (length sample_frame - 1) sample_frame.

(** Two frames made under one key, for two ids. *)
Definition other_frame : bytes :=
  match encrypt_chunked (lit "other data") sample_wk (lit "blob-b") (toy_gen 4) with
  | (Ok framed, _) => framed
  | _ => []
  end.

Definition two_sealings : list sealing :=
  [{| s_id := lit "blob-a"; s_pt := lit "some data"; s_rng := toy_gen 1; s_frame := sample_frame |};
   {| s_id := lit "blob-b"; s_pt := lit "other data"; s_rng := toy_gen 4; s_frame := other_frame |}].

Lemma two_sealings_honest : Forall (honest sample_wk) two_sealings.
Proof. repeat constructor; eexists; vm_compute; reflexivity. Qed.

Lemma blob_integrity_witness :
  decrypt_chunked flipped_frame sample_wk (lit "blob-a") = Err Aead ∨
  forged_wrap sample_wk two_sealings (lit "blob-a") flipped_frame ∨
  ∃ s, s ∈ two_sealings ∧
    (forged_header sample_wk (s_id s) (s_frame s) (lit "blob-a") flipped_frame ∨
     s_id s = lit "blob-a" ∧
     forged_body sample_wk (lit "blob-a") (s_rng s) (s_frame s) flipped_frame).
Proof.
  apply blob_integrity; [apply two_sealings_honest|by split|].
  intros s Hs _. apply list_elem_of_In in Hs as [<-|[<-|[]]];
    apply (bool_decide_unpack (_ ≠ flipped_frame)); vm_compute; exact I.
Defined.

(** The first disjunct. *)
Example flipped_frame_refused : decrypt_chunked flipped_frame sample_wk (lit "blob-a") = Err Aead.
Proof. vm_compute. reflexivity. Qed.

(** The frame of the other id is refused, and accepted where it belongs. *)
Example other_frame_refused :
  decrypt_chunked other_frame sample_wk (lit "blob-a") = Err Aead ∧
  decrypt_chunked other_frame sample_wk (lit "blob-b") = Ok (lit "other data").
Proof. vm_compute. split; reflexivity. Qed.
