(* ===== verification/Path.v ===== *)
(** * Paths: the part of [std::path] (Unix) that [blob.rs] uses

    A [Path] is the sequence of the components that lead from the working directory (or the root)
    to the file. [path_of_str] is [Path::components] on the bytes of the path, without a leading
    [.], which the components keep but which names the same file: [./a], [a], [a/] and [.//a] are one
    path. Two spellings that differ in more than this are two paths: [d/../a] is not reduced to [a],
    because what it names depends on what [d] is, and a relative path is not resolved against the
    working directory. So a statement on two paths takes it that two that differ in this model do not
    name one file by such a detour; hard links it does cover ([IoSpec.distinct_files]). *)

From S2P Require Import Prelude Errors.
From Stdlib Require Import Lia.

(** ** Definitions *)

(** [std::path::Component] without the Windows prefixes and [CurDir]. *)
Inductive Component : Type :=
| RootDir
| ParentDir
| Normal (name : str).

#[export] Instance Component_eq_dec : EqDecision Component.
Proof. solve_decision. Defined.

#[export] Instance Component_countable : Countable Component :=
  inj_countable'
    (λ c, match c with
          | RootDir => inl false | ParentDir => inl true | Normal n => inr n
          end)
    (λ x, match x with
          | inl false => RootDir | inl true => ParentDir | inr n => Normal n
          end)
    ltac:(by intros []).

Abbreviation Path := (list Component).

(** The pieces between separators. *)
Fixpoint split_slash (s : str) : list str :=
  match s with
  | [] => [[]]
  | x :: s' =>
      if bool_decide (x = x2f) then [] :: split_slash s' else
      match split_slash s' with
      | [] => [[x]]
      | p :: ps => (x :: p) :: ps
      end
  end.

(** Empty pieces and [.] are skipped. *)
Definition parse_piece (p : str) : option Component :=
  if bool_decide (p = []) then None else
  if bool_decide (p = [x2e]) then None else
  if bool_decide (p = [x2e; x2e]) then Some ParentDir else Some (Normal p).

(** [Path::components]: a leading separator is the root. *)
Definition path_of_str (s : str) : Path :=
  let ps := split_slash s in
  let cs := omap parse_piece ps in
  match ps with
  | [] :: _ :: _ => RootDir :: cs
  | _ => cs
  end.

(** [Path::file_name]: the last component if it is a normal one. *)
Definition file_name (p : Path) : option str :=
  match last p with Some (Normal n) => Some n | _ => None end.

(** [Path::parent] when there is a file name. *)
Definition parent (p : Path) : Path := removelast p.

(** [PathBuf::push]: an absolute path replaces, a relative one is appended. *)
Definition push (p : Path) (s : str) : Path :=
  match path_of_str s with
  | RootDir :: cs => RootDir :: cs
  | cs => p ++ cs
  end.

(** [Path::with_file_name]. *)
Definition with_file_name (p : Path) (s : str) : Path :=
  push (match file_name p with Some _ => parent p | None => p end) s.

(** ** Normal components *)

(** A string that names a directory entry. *)
Definition valid_name (n : str) : Prop := (x2f ∉ n) ∧ n ≠ [] ∧ n ≠ [x2e] ∧ n ≠ [x2e; x2e].

Definition component_ok (c : Component) : Prop :=
  match c with Normal n => valid_name n | _ => True end.

Lemma split_slash_pieces s : Forall (λ p : str, x2f ∉ p) (split_slash s).
Proof.
  induction s as [|x s IH]; simpl; [repeat constructor; apply not_elem_of_nil|].
  case_bool_decide as Hx; [constructor; [apply not_elem_of_nil|done]|].
  destruct IH as [|p ps Hp IH]; repeat constructor; try done.
  - intros ?%list_elem_of_singleton; congruence.
  - rewrite not_elem_of_cons. by split.
Qed.

Lemma split_slash_no_slash s : x2f ∉ s → split_slash s = [s].
Proof.
  induction s as [|x s IH]; [done|]. intros [Hx Hs]%not_elem_of_cons. simpl.
  by rewrite bool_decide_false, (IH Hs).
Qed.

(** Every path of the program has only normal components that name a directory entry. *)
Lemma path_of_str_ok s : Forall component_ok (path_of_str s).
Proof.
  assert (Forall component_ok (omap parse_piece (split_slash s))) as Hcs.
  { apply Forall_forall. intros c (p & Hp & Hc)%list_elem_of_omap.
    pose proof (split_slash_pieces s) as Hps. rewrite Forall_forall in Hps.
    unfold parse_piece in Hc. repeat case_bool_decide; simplify_eq; [done|].
    split_and!; [by apply Hps|done..]. }
  unfold path_of_str. repeat case_match; first [exact Hcs | constructor; [done|exact Hcs]].
Qed.

Lemma path_of_name n : valid_name n → path_of_str n = [Normal n].
Proof.
  intros (Hs & Hn & Hd & Hdd). unfold path_of_str. rewrite split_slash_no_slash by done.
  simpl. unfold parse_piece. rewrite !bool_decide_false by done.
  destruct n as [|x [|y n]]; [done| |by destruct x]. by destruct x.
Qed.

Lemma push_name p n : valid_name n → push p n = p ++ [Normal n].
Proof. intros Hn. unfold push. by rewrite path_of_name. Qed.

Lemma file_name_Some p n :
  file_name p = Some n ↔ p = parent p ++ [Normal n].
Proof.
  unfold file_name, parent. split.
  - intros Hl. destruct (last p) as [[]|] eqn:E; simplify_eq.
    apply last_Some in E as [p' ->]. by rewrite removelast_last.
  - intros ->. by rewrite last_snoc.
Qed.

Lemma file_name_ok p n : Forall component_ok p → file_name p = Some n → valid_name n.
Proof.
  intros Hp Hn%file_name_Some. rewrite Hn in Hp. by apply Forall_app in Hp as [_ [? _]%Forall_cons].
Qed.

(** Replacing the file name stays in the directory. *)
Lemma with_file_name_eq p n n' :
  file_name p = Some n → valid_name n' → with_file_name p n' = parent p ++ [Normal n'].
Proof.
  intros Hn Hn'. unfold with_file_name, push. by rewrite Hn, path_of_name.
Qed.

(** A literal name. *)
Ltac literal_name := apply (bool_decide_unpack (valid_name _)); vm_compute; exact I.

Example path_of_str_examples :
  path_of_str (lit "/var//tmp/./x.bin") = [RootDir; Normal (lit "var"); Normal (lit "tmp"); Normal (lit "x.bin")]
  ∧ path_of_str (lit "./a/") = path_of_str (lit "a")
  ∧ file_name (path_of_str (lit "a/..")) = None
  ∧ with_file_name (path_of_str (lit "/d/out")) (lit "t") = path_of_str (lit "/d/t").
Proof. by vm_compute. Qed.
