(* ===== verification/Process.v ===== *)
(** * Processes that share a file system

    A computation that uses files is a tree of system calls. Between two calls of a process the
    file system may be changed by others; the tree records where that can happen, and the
    weakest precondition [wp] says that a computation is correct in spite of it, under an
    [Interference] that bounds what the others do (its rely) and what the computation itself may
    do (its guarantee). [alone] is the interference of nobody: there [wp] is total correctness
    of the sequential run. *)

From S2P Require Import Prelude Path.

(** ** The file system *)

(** [i_synced]: the contents are on stable storage. *)
Record inode := { i_data : bytes; i_synced : bool }.

Record filesys := { fs_dir : gmap Path nat; fs_ino : gmap nat inode }.

(** The contents of the file at [p], [None] when there is none. *)
Definition contents (fs : filesys) (p : Path) : option bytes :=
  i ← fs_dir fs !! p; x ← fs_ino fs !! i; Some (i_data x).

Definition ino_data (fs : filesys) (i : nat) : bytes :=
  match fs_ino fs !! i with Some x => i_data x | None => [] end.

Definition set_ino (i : nat) (x : inode) (fs : filesys) : filesys :=
  {| fs_dir := fs_dir fs; fs_ino := <[i := x]> (fs_ino fs) |}.

Definition set_dir (d : gmap Path nat) (fs : filesys) : filesys :=
  {| fs_dir := d; fs_ino := fs_ino fs |}.

(** ** Programs *)

(** A process is done, has run out of the fuel of a loop, or is about to make a system call: it
    leaves the file system as [left], and goes on from the one it finds when the call is served. *)
Inductive prog (A : Type) : Type :=
| Done (a : A)
| Stuck
| Call (left : filesys) (k : filesys → prog A).
Arguments Done {A} a.
Arguments Stuck {A}.
Arguments Call {A} left k.

Fixpoint prog_bind {A B} (p : prog A) (f : A → prog B) : prog B :=
  match p with
  | Done a => f a
  | Stuck => Stuck
  | Call fs k => Call fs (λ fs', prog_bind (k fs') f)
  end.

(** The run of a process that has the file system to itself. *)
Fixpoint run {A} (p : prog A) : option A :=
  match p with
  | Done a => Some a
  | Stuck => None
  | Call fs k => run (k fs)
  end.

Lemma run_bind {A B} (p : prog A) (f : A → prog B) :
  run (prog_bind p f) = match run p with Some a => run (f a) | None => None end.
Proof. by induction p as [a| |fs k IH]; simpl. Qed.

(** *** Stateful fallible computations with system calls *)

Definition io (S E A : Type) : Type := S → prog (result E A * S).

#[export] Instance io_ret {S E} : MRet (io S E) := λ A a s, Done (Ok a, s).
#[export] Instance io_bind {S E} : MBind (io S E) := λ A B f m s,
  prog_bind (m s) (λ '(r, s'),
    match r with
    | Ok a => f a s'
    | Err e => Done (Err e, s')
    end).

Definition io_lift {S E A} (r : result E A) : io S E A := λ s, Done (r, s).

Definition io_map_err {S E E' A} (f : E → E') (m : io S E A) : io S E' A := λ s,
  prog_bind (m s) (λ '(r, s'), Done (map_err f r, s')).

(** The result of a fallible call as a value, for the loops of [std] that look at the error. *)
Definition io_try {S E E' A} (m : io S E A) : io S E' (result E A) := λ s,
  prog_bind (m s) (λ '(r, s'), Done (Ok r, s')).

Definition out_of_fuel {S E A} : io S E A := λ _, Stuck.

(** Run a computation on the first component of a pair of states. *)
Definition io_fst {S T E A} (m : io S E A) : io (S * T) E A := λ '(s, t),
  prog_bind (m s) (λ '(r, s'), Done (r, (s', t))).

(** The second component, a value that a computation owns beside the world. *)
Definition get_own {S T E} : io (S * T) E T := λ s, Done (Ok s.2, s).
Definition put_own {S T E} (t : T) : io (S * T) E unit := λ s, Done (Ok tt, (s.1, t)).

(** A scope that owns a value with a [Drop] implementation: the value lives beside the state
    while [body] runs and is dropped when the scope is left, by return or by an early error;
    errors in the drop are ignored. *)
Definition scoped {S T E E' A} (t : T) (drop_t : T → io S E' unit) (body : io (S * T) E A)
    : io S E A := λ s,
  prog_bind (body (s, t)) (λ '(r, (s', t')),
    prog_bind (drop_t t' s') (λ '(_, s''), Done (r, s''))).

(** ** Interference *)

(** Only the contents of inode [i] differ. *)
Definition only (i : nat) (fs fs' : filesys) : Prop :=
  fs_dir fs' = fs_dir fs ∧ (∀ j, j ≠ i → fs_ino fs' !! j = fs_ino fs !! j) ∧
  (is_Some (fs_ino fs !! i) → is_Some (fs_ino fs' !! i)).

#[export] Instance only_preorder i : PreOrder (only i).
Proof.
  split; [intros fs; by split_and!|]. intros fs1 fs2 fs3 (Hd1 & Hi1 & Hs1) (Hd2 & Hi2 & Hs2).
  split_and!; [congruence| |auto]. intros j Hj. by rewrite Hi2, Hi1.
Qed.

(** [rely]: what happens between two system calls. [guar]: what a system call of this process
    does. [owned i]: nobody else changes inode [i], and this process may. *)
Class Interference := {
  rely : filesys → filesys → Prop;
  guar : filesys → filesys → Prop;
  owned : nat → filesys → Prop;
  rely_preorder :: PreOrder rely;
  guar_preorder :: PreOrder guar;
  owned_rely i fs fs' : owned i fs → rely fs fs' → owned i fs' ∧ fs_ino fs' !! i = fs_ino fs !! i;
  owned_only i fs fs' : owned i fs → only i fs fs' → guar fs fs' ∧ owned i fs';
}.

(** Nobody else. *)
Lemma alone_guar : PreOrder (λ _ _ : filesys, True).
Proof. split; by red. Qed.

Lemma alone_rely (i : nat) (fs fs' : filesys) :
  True → fs = fs' → True ∧ fs_ino fs' !! i = fs_ino fs !! i.
Proof. by intros _ <-. Qed.

Lemma alone_only (i : nat) (fs fs' : filesys) : True → only i fs fs' → True ∧ True.
Proof. done. Qed.

#[export] Instance alone : Interference | 100 := {
  rely := eq;
  guar _ _ := True;
  owned _ _ := True;
  rely_preorder := _;
  guar_preorder := alone_guar;
  owned_rely := alone_rely;
  owned_only := alone_only;
}.

(** The states of computations contain a file system. *)
Class HasFs (S : Type) := fs_of : S → filesys.
#[export] Instance pair_has_fs {S T} `{!HasFs S} : HasFs (S * T) := λ s, fs_of s.1.

Section wp.
Context `{Interference}.

(** [guarded found p Q]: from a system call that found [found], every call of [p] keeps the
    guarantee, [p] does not run out of fuel, and ends with [Q] of what its last call found. *)
Fixpoint guarded {A} (found : filesys) (p : prog A) (Q : filesys → A → Prop) : Prop :=
  match p with
  | Done a => Q found a
  | Stuck => False
  | Call fs k => guar found fs ∧ ∀ fs', rely fs fs' → guarded fs' (k fs') Q
  end.

Lemma guarded_mono {A} found (p : prog A) (Q Q' : filesys → A → Prop) :
  guarded found p Q → (∀ fs a, Q fs a → Q' fs a) → guarded found p Q'.
Proof.
  intros Hp HQ. revert found Hp. induction p as [a| |fs k IH]; simpl; [auto|done|].
  intros found [? Hk]. split; [done|]. auto.
Qed.

Lemma guarded_bind {A B} found (p : prog A) (f : A → prog B) (Q : filesys → B → Prop) :
  guarded found p (λ fs a, guarded fs (f a) Q) → guarded found (prog_bind p f) Q.
Proof.
  revert found. induction p as [a| |fs k IH]; simpl; [done..|].
  intros found [? Hk]. split; [done|]. auto.
Qed.

(** [wp m s Q]: whatever the others do between its system calls, [m] returns from [s], with [Q],
    and keeps its guarantee. *)
Definition wp {S E A} `{!HasFs S} (m : io S E A) (s : S) (Q : result E A → S → Prop) : Prop :=
  ∀ found, guar found (fs_of s) →
    guarded found (m s) (λ found' rs, guar found' (fs_of rs.2) ∧ Q rs.1 rs.2).

(** A computation that has already returned. *)
Lemma wp_done {S E A} `{!HasFs S} (m : io S E A) s r s' (Q : result E A → S → Prop) :
  m s = Done (r, s') → fs_of s' = fs_of s → Q r s' → wp m s Q.
Proof. intros Hm Hfs HQ found Hf. rewrite Hm. simpl. by rewrite Hfs. Qed.

Section rules.
Context {S E : Type} `{!HasFs S}.

Lemma wp_mono {A} (m : io S E A) s (Q Q' : result E A → S → Prop) :
  wp m s Q → (∀ r s', Q r s' → Q' r s') → wp m s Q'.
Proof.
  intros Hm HQ found Hf. eapply guarded_mono; [by apply Hm|]. intros fs [r s'] [? ?]. auto.
Qed.

Lemma wp_ret {A} (a : A) s (Q : result E A → S → Prop) :
  Q (Ok a) s → wp (mret a) s Q.
Proof. intros. by eapply wp_done. Qed.

Lemma wp_lift {A} (r : result E A) s (Q : result E A → S → Prop) :
  Q r s → wp (io_lift r) s Q.
Proof. intros. by eapply wp_done. Qed.

Lemma wp_bind {A B} (m : io S E A) (k : A → io S E B) s (Q : result E B → S → Prop) :
  wp m s (λ r s', match r with Ok a => wp (k a) s' Q | Err e => Q (Err e) s' end) →
  wp (m ≫= k) s Q.
Proof.
  intros Hm found Hf. apply guarded_bind. eapply guarded_mono; [by apply Hm|].
  intros fs [[a|e] s'] [Hg HQ]; simpl in *; [by apply HQ|done].
Qed.

Lemma wp_map_err {E' A} (f : E' → E) (m : io S E' A) s (Q : result E A → S → Prop) :
  wp m s (λ r s', Q (map_err f r) s') → wp (io_map_err f m) s Q.
Proof.
  intros Hm found Hf. apply guarded_bind. eapply guarded_mono; [by apply Hm|].
  by intros fs [r s'].
Qed.

Lemma wp_try {E' A} (m : io S E' A) s (Q : result E (result E' A) → S → Prop) :
  wp m s (λ r s', Q (Ok r) s') → wp (io_try m) s Q.
Proof.
  intros Hm found Hf. apply guarded_bind. eapply guarded_mono; [by apply Hm|].
  by intros fs [r s'].
Qed.

Lemma wp_fst {T A} (m : io S E A) s (t : T) (Q : result E A → S * T → Prop) :
  wp m s (λ r s', Q r (s', t)) → wp (io_fst m) (s, t) Q.
Proof.
  intros Hm found Hf. apply guarded_bind. eapply guarded_mono; [by apply Hm|].
  by intros fs [r s'].
Qed.

Lemma wp_get_own {T} s (Q : result E T → S * T → Prop) : Q (Ok s.2) s → wp get_own s Q.
Proof. intros. by eapply wp_done. Qed.

Lemma wp_put_own {T} (t : T) s (Q : result E unit → S * T → Prop) :
  Q (Ok tt) (s.1, t) → wp (put_own t) s Q.
Proof. intros. by eapply wp_done. Qed.

Lemma wp_scoped {T E' A} (t : T) (drop_t : T → io S E' unit) (body : io (S * T) E A) s
    (Q : result E A → S → Prop) :
  wp body (s, t) (λ r st', wp (drop_t st'.2) st'.1 (λ _ s'', Q r s'')) →
  wp (scoped t drop_t body) s Q.
Proof.
  intros Hm found Hf. apply guarded_bind. eapply guarded_mono; [by apply Hm|].
  intros fs [r [s' t']] [Hg Hd]. simpl in *. apply guarded_bind.
  eapply guarded_mono; [by apply Hd|]. by intros fs' [r' s''].
Qed.

End rules.

(** *** Inodes that others leave alone, and the changes of a process at one of its own *)

Definition frozen (j : nat) : Prop :=
  ∀ fs fs', rely fs fs' → fs_ino fs' !! j = fs_ino fs !! j.

Definition changes (i : nat) : filesys → filesys → Prop :=
  rtc (λ fs fs', rely fs fs' ∨ only i fs fs').

#[export] Instance changes_preorder i : PreOrder (changes i).
Proof. apply rtc_po. Qed.

Lemma changes_rely i fs fs' : rely fs fs' → changes i fs fs'.
Proof. intros. apply rtc_once. by left. Qed.

Lemma changes_only i fs fs' : only i fs fs' → changes i fs fs'.
Proof. intros. apply rtc_once. by right. Qed.

Lemma changes_owned i fs fs' : changes i fs fs' → owned i fs → owned i fs'.
Proof.
  induction 1 as [|fs1 fs2 fs3 [Hr|Ho] _ IH]; [done|..]; intros Hi; apply IH.
  - by eapply owned_rely.
  - by eapply owned_only.
Qed.

Lemma changes_frozen i j fs fs' :
  changes i fs fs' → frozen j → j ≠ i → fs_ino fs' !! j = fs_ino fs !! j.
Proof.
  intros Hc Hj Hne. induction Hc as [|fs1 fs2 fs3 [Hr|(_ & Ho & _)] _ IH]; [done|..];
    rewrite IH; auto.
Qed.

End wp.

(** ** The sequential case *)

Lemma alone_frozen j : frozen j.
Proof. by intros fs fs' <-. Qed.

Lemma changes_alone i fs fs' : changes i fs fs' → only i fs fs'.
Proof. induction 1 as [|fs1 fs2 fs3 [<-|Ho] _ IH]; [done|done|]. by etrans. Qed.

#[export] Hint Resolve alone_frozen : filum.

Section alone.
Context {S E : Type} `{!HasFs S}.

(** With nobody else around, [wp] says what the run returns. *)
Lemma wp_run {A} (m : io S E A) s (Q : result E A → S → Prop) :
  wp m s Q → ∃ r s', run (m s) = Some (r, s') ∧ Q r s'.
Proof.
  intros Hm. specialize (Hm (fs_of s) I). revert Hm. generalize (fs_of s) as found.
  induction (m s) as [[r s']| |fs k IH]; simpl; intros found Hp; [|done|].
  - exists r, s'. by destruct Hp.
  - destruct Hp as [_ Hk]. by eapply IH, Hk.
Qed.

Lemma run_wp {A} (m : io S E A) s r s' (Q : result E A → S → Prop) :
  run (m s) = Some (r, s') → Q r s' → wp m s Q.
Proof.
  intros Hr HQ found _. revert found Hr.
  induction (m s) as [a| |fs k IH]; simpl; intros found Hr; [by simplify_eq|done|].
  split; [done|]. intros fs' <-. by apply IH.
Qed.

Lemma wp_run_eq {A} (m : io S E A) s (Q : result E A → S → Prop) r s' :
  wp m s Q → run (m s) = Some (r, s') → Q r s'.
Proof. intros (? & ? & ? & ?)%wp_run ?. by simplify_eq. Qed.

End alone.

(** ** Tactics for monadic programs *)

(** Reduce the monad operations only. *)
Ltac rsimpl :=
  cbv beta iota zeta delta [mbind mret result_bind result_ret st_bind st_ret io_bind io_ret
                            ok_or map_err st_lift io_lift].
