(* ===== verification/Threads.v ===== *)
(** * Processes that run at the same time

    Configurations of processes over one file system, interleaved at their system calls, and the
    theorem that lets each process be verified on its own: if every process keeps its guarantee
    under its rely, and the guarantee of each implies the rely of the others, then an invariant
    and the postconditions hold in every interleaving. Every interleaving is finite. *)

From S2P Require Import Prelude Process.

(** ** Configurations and steps *)

Section threads.
Context {A : Type} (final : A → filesys).

Record config := { c_fs : filesys; c_threads : list (prog A) }.

(** How a process that found [fs] leaves the file system when it comes to its next call. *)
Definition left_by (fs : filesys) (p : prog A) : filesys :=
  match p with
  | Done a => final a
  | Stuck => fs
  | Call fs' _ => fs'
  end.

(** The call of process [j] is served, and the process goes on to its next one. *)
Definition serve (j : nat) (c : config) : option config :=
  match c_threads c !! j with
  | Some (Call _ k) =>
      let p := k (c_fs c) in
      Some {| c_fs := left_by (c_fs c) p; c_threads := <[j := p]> (c_threads c) |}
  | _ => None
  end.

Inductive step (c c' : config) : Prop :=
| Serve j : serve j c = Some c' → step c c'.

Definition reachable : config → config → Prop := rtc step.

(** The interleaving that a list of process numbers asks for. *)
Fixpoint serve_all (js : list nat) (c : config) : config :=
  match js with
  | [] => c
  | j :: js => serve_all js (default c (serve j c))
  end.

Lemma serve_all_reachable js c : reachable c (serve_all js c).
Proof.
  revert c. induction js as [|j js IH]; intros c; [apply rtc_refl|]. simpl.
  destruct (serve j c) as [c'|] eqn:E; simpl; [|apply IH].
  eapply rtc_l; [by eapply Serve|apply IH].
Qed.

Lemma serve_inv j c c' :
  serve j c = Some c' → ∃ l k, c_threads c !! j = Some (Call l k) ∧
    c' = {| c_fs := left_by (c_fs c) (k (c_fs c)); c_threads := <[j := k (c_fs c)]> (c_threads c) |}.
Proof.
  unfold serve. destruct (c_threads c !! j) as [[a| |l k]|] eqn:Hj; intros [= <-]. by exists l, k.
Qed.

Lemma reachable_length c c' : reachable c c' → length (c_threads c') = length (c_threads c).
Proof.
  induction 1 as [|c1 c2 c3 [j (l & k & _ & ->)%serve_inv] _ IH]; [done|].
  rewrite IH. simpl. apply length_insert.
Qed.

(** ** Every interleaving is finite *)

Definition advances (ts ts' : list (prog A)) : Prop :=
  ∃ j l k fs, ts !! j = Some (Call l k) ∧ ts' = <[j := k fs]> ts.

Lemma advances_cons p ts ts' :
  advances (p :: ts) ts' →
  (∃ l k fs, p = Call l k ∧ ts' = k fs :: ts) ∨ ∃ ts2, advances ts ts2 ∧ ts' = p :: ts2.
Proof.
  intros (j & l & k & fs & Hj & ->). destruct j as [|j]; simpl in *.
  - injection Hj as ->. left. by exists l, k, fs.
  - right. eexists. split; [|done]. by exists j, l, k, fs.
Qed.

Lemma advances_acc ts : Acc (flip advances) ts.
Proof.
  induction ts as [|p ts IH].
  { constructor. intros ts' (j & l & k & fs & Hj & _). done. }
  revert ts IH. induction p as [a| |l k IHp]; intros ts IH; induction IH as [ts Hacc IH];
    constructor; intros ts' Hadv; destruct (advances_cons _ _ _ Hadv) as [Hp|(ts2 & Hts & ->)].
  - destruct Hp as (l & k & fs & [=] & _).
  - exact (IH ts2 Hts).
  - destruct Hp as (l & k & fs & [=] & _).
  - exact (IH ts2 Hts).
  - destruct Hp as (l' & k' & fs & [= <- <-] & ->). apply IHp. by constructor.
  - exact (IH ts2 Hts).
Qed.

Lemma step_advances c c' : step c c' → advances (c_threads c) (c_threads c').
Proof.
  intros [j (l & k & Hj & ->)%serve_inv]. simpl. by exists j, l, k, (c_fs c).
Qed.

Lemma step_acc c : Acc (flip step) c.
Proof.
  remember (c_threads c) as ts eqn:Hts. revert c Hts.
  induction (advances_acc ts) as [ts _ IH]. intros c ->. constructor. intros c' Hc.
  by eapply IH; [apply step_advances|].
Qed.

(** ** Parallel composition *)

Section parallel.
Context (Ij : nat → Interference) (Inv : filesys → Prop) (Q : nat → filesys → A → Prop)
  (Hinv : ∀ j fs fs', Inv fs → @guar (Ij j) fs fs' → Inv fs')
  (Hcompat : ∀ j k fs fs', j ≠ k → Inv fs → @guar (Ij k) fs fs' → @rely (Ij j) fs fs')
  (HQ : ∀ j fs fs' a, Q j fs a → @rely (Ij j) fs fs' → Q j fs' a).

(** Process [j] between two of its calls, the file system being [fs]. *)
Definition rests (j : nat) (fs : filesys) (p : prog A) : Prop :=
  match p with
  | Done a => Q j fs a
  | Stuck => False
  | Call _ k => ∀ fs', @rely (Ij j) fs fs' →
      @guarded (Ij j) _ fs' (k fs') (λ found a, @guar (Ij j) found (final a) ∧ Q j (final a) a)
  end.

Definition safe (c : config) : Prop :=
  Inv (c_fs c) ∧ ∀ j p, c_threads c !! j = Some p → rests j (c_fs c) p.

Lemma rests_rely j fs fs' p : rests j fs p → @rely (Ij j) fs fs' → rests j fs' p.
Proof.
  destruct p as [a| |l k]; simpl; [eauto|done|]. intros Hk Hr fs2 Hr2. apply Hk. by etrans.
Qed.

Lemma guarded_rests j fs p :
  @guarded (Ij j) _ fs p (λ found a, @guar (Ij j) found (final a) ∧ Q j (final a) a) →
  @guar (Ij j) fs (left_by fs p) ∧ rests j (left_by fs p) p.
Proof. by destruct p. Qed.

Lemma step_safe c c' : safe c → step c c' → safe c'.
Proof.
  intros [Hfs Hts] [j (l & k & Hj & ->)%serve_inv].
  destruct (guarded_rests j (c_fs c) (k (c_fs c))) as [Hg Hr].
  { apply (Hts _ _ Hj). reflexivity. }
  split; simpl; [by eapply Hinv|]. intros j' p Hp.
  destruct (decide (j' = j)) as [->|Hne].
  - rewrite list_lookup_insert_eq in Hp by (by eapply lookup_lt_Some). by simplify_eq.
  - rewrite list_lookup_insert_ne in Hp by done. eapply rests_rely; [by apply Hts|].
    by eapply Hcompat.
Qed.

Lemma reachable_safe c c' : safe c → reachable c c' → safe c'.
Proof. intros Hc. induction 1 as [|c1 c2 c3 Hs _ IH]; [done|]. by eapply IH, step_safe. Qed.

(** What the guarantees preserve holds between any two states of an interleaving. *)
Lemma reachable_guar (R : filesys → filesys → Prop) `{!PreOrder R} c c' :
  (∀ j fs fs', Inv fs → @guar (Ij j) fs fs' → R fs fs') →
  safe c → reachable c c' → R (c_fs c) (c_fs c').
Proof.
  intros HR Hc Hreach. induction Hreach as [c|c1 c2 c3 Hs _ IH]; [done|].
  etrans; [|by apply IH; eapply step_safe].
  destruct Hs as [j (l & k & Hj & ->)%serve_inv]. destruct Hc as [Hfs Hts].
  destruct (guarded_rests j (c_fs c1) (k (c_fs c1))) as [Hg _]; [|by eapply HR].
  apply (Hts _ _ Hj). reflexivity.
Qed.

(** Nothing but a system call can be waited for. *)
Lemma safe_progress c :
  safe c → (∀ c', ¬ step c c') →
  ∀ j p, c_threads c !! j = Some p → ∃ a, p = Done a ∧ Q j (c_fs c) a.
Proof.
  intros [_ Hts] Hstop j p Hj. pose proof (Hts _ _ Hj) as Hp. destruct p as [a| |l k]; [eauto|done|].
  destruct (Hstop {| c_fs := left_by (c_fs c) (k (c_fs c)); c_threads := <[j := k (c_fs c)]> (c_threads c) |}).
  exists j. unfold serve. by rewrite Hj.
Qed.

End parallel.

End threads.
