(* ===== verification/Io.v ===== *)
(** * Files and buffered readers and writers

    The part of [std::fs] and [std::io] that the file codec of [blob.rs] uses, over a file
    system with faults: short reads and writes, interrupted and failing calls are taken from a
    schedule, and the history of the file-system states a crash may surface is recorded. Every
    system call is one [Call] of [Process]: it acts on the file system as it finds it. *)

From S2P Require Import Prelude Ints Errors Prims Path Process.
From Stdlib Require Import ZArith Lia.

(** ** The world *)

(** [std::io::ErrorKind]; the source tells no kinds apart, [std] itself retries [Interrupted]. *)
Inductive ErrorKind : Type :=
| NotFound
| Interrupted
| WriteZero
| UnexpectedEof
| Other.

(** How the system answers one call: in full, transferring at most [S k] bytes, interrupted by a
    signal, or with an error. *)
Inductive outcome : Type :=
| Full
| Part (k : nat)
| Intr
| Fail.

(** The state of the process and the system as it sees it. [w_fs] is the file system as the last
    call found it and left it, [w_sched] the answers to come ([Full] when it is exhausted),
    [w_hist] every state in which the process has left the file system, newest first. *)
Record world `{OsRng} := {
  w_rng : rng;
  w_fs : filesys;
  w_sched : list outcome;
  w_hist : list filesys;
}.

#[export] Instance world_has_fs `{OsRng} : HasFs world := w_fs.

(** An open [std::fs::File]. *)
Record File := { f_ino : nat; f_pos : nat }.

(** The size of the buffers of [BufReader::new] and [BufWriter::new]. *)
Definition BUF_SIZE : nat := Z.to_nat 8192.

Section io.
Context `{OsRng}.

Definition set_rng (g : rng) (w : world) : world :=
  {| w_rng := g; w_fs := w_fs w; w_sched := w_sched w; w_hist := w_hist w |}.

(** A computation that uses the entropy source only. *)
Definition io_rng {A} (m : st rng FilumCryptoError A) : io world FilumCryptoError A := λ w,
  let '(r, g) := m (w_rng w) in Done (r, set_rng g w).

(** ** System calls *)

(** Wait for the answer to the next call, and for the file system as the call finds it. *)
Definition answer {E} : io world E outcome := λ w,
  let '(o, os) := match w_sched w with [] => (Full, []) | o :: os => (o, os) end in
  Call (w_fs w) (λ fs,
    Done (Ok o, {| w_rng := w_rng w; w_fs := fs; w_sched := os; w_hist := w_hist w |})).

Definition get_fs {E} : io world E filesys := λ w, Done (Ok (w_fs w), w).

Definition put_fs {E} (fs : filesys) : io world E unit := λ w,
  Done (Ok tt, {| w_rng := w_rng w; w_fs := fs; w_sched := w_sched w; w_hist := fs :: w_hist w |}).

(** Calls that transfer no data succeed or fail as a whole. *)
Definition control : io world ErrorKind unit :=
  o ← answer; match o with Fail => io_lift (Err Other) | _ => mret tt end.

(** How many of [n] bytes a transfer moves. *)
Definition transfer (n : nat) : io world ErrorKind nat :=
  o ← answer;
  match o with
  | Full => mret n
  | Part k => mret (n `min` S k)
  | Intr => io_lift (Err Interrupted)
  | Fail => io_lift (Err Other)
  end.

(** [File::open]. *)
Definition file_open (p : Path) : io world ErrorKind File :=
  _ ← control;
  fs ← get_fs;
  match fs_dir fs !! p with
  | Some i => mret {| f_ino := i; f_pos := 0 |}
  | None => io_lift (Err NotFound)
  end.

(** [File::create]: an existing file is truncated, a missing one is made. *)
Definition file_create (p : Path) : io world ErrorKind File :=
  _ ← control;
  fs ← get_fs;
  let empty := {| i_data := []; i_synced := false |} in
  match fs_dir fs !! p with
  | Some i =>
      _ ← put_fs (set_ino i empty fs);
      mret {| f_ino := i; f_pos := 0 |}
  | None =>
      let i := fresh (dom (fs_ino fs)) in
      _ ← put_fs (set_dir (<[p := i]> (fs_dir fs)) (set_ino i empty fs));
      mret {| f_ino := i; f_pos := 0 |}
  end.

(** [<File as Read>::read] into a buffer of [n] bytes. *)
Definition file_read (f : File) (n : nat) : io world ErrorKind (bytes * File) :=
  m ← transfer n;
  fs ← get_fs;
  let d := take m (drop (f_pos f) (ino_data fs (f_ino f))) in
  mret (d, {| f_ino := f_ino f; f_pos := f_pos f + length d |}).

(** What an inode with contents [old] holds after [d] is written at offset [pos]. *)
Definition overwrite (old : bytes) (pos : nat) (d : bytes) : bytes :=
  take pos old ++ replicate (pos - length old) x00 ++ d ++ drop (pos + length d) old.

(** [<File as Write>::write]: the file offset is part of the open file. *)
Definition file_write (buf : bytes) : io (world * File) ErrorKind nat :=
  n ← io_fst (transfer (length buf));
  f ← get_own;
  fs ← io_fst get_fs;
  let new := overwrite (ino_data fs (f_ino f)) (f_pos f) (take n buf) in
  _ ← io_fst (put_fs (set_ino (f_ino f) {| i_data := new; i_synced := false |} fs));
  _ ← put_own {| f_ino := f_ino f; f_pos := f_pos f + n |};
  mret n.

(** [File::sync_all]. *)
Definition sync_all (f : File) : io world ErrorKind unit :=
  _ ← control;
  fs ← get_fs;
  put_fs (set_ino (f_ino f) {| i_data := ino_data fs (f_ino f); i_synced := true |} fs).

(** [fs::rename], atomic; POSIX leaves two links to one file alone. *)
Definition rename (a b : Path) : io world ErrorKind unit :=
  _ ← control;
  fs ← get_fs;
  match fs_dir fs !! a with
  | None => io_lift (Err NotFound)
  | Some i =>
      if bool_decide (fs_dir fs !! b = Some i) then mret tt else
      put_fs (set_dir (<[b := i]> (delete a (fs_dir fs))) fs)
  end.

(** [fs::remove_file]. *)
Definition remove_file (p : Path) : io world ErrorKind unit :=
  _ ← control;
  fs ← get_fs;
  match fs_dir fs !! p with
  | None => io_lift (Err NotFound)
  | Some _ => put_fs (set_dir (delete p (fs_dir fs)) fs)
  end.

(** ** [BufReader] *)

(** The bytes read from the file and not yet consumed. *)
Record BufReader := { br_file : File; br_buf : bytes }.

Definition BufReader_new (f : File) : BufReader := {| br_file := f; br_buf := [] |}.

(** [<BufReader as Read>::read] into [n] bytes: a read at least as large as the buffer bypasses
    an empty one. *)
Definition br_read (r : BufReader) (n : nat) : io world ErrorKind (bytes * BufReader) :=
  match br_buf r with
  | [] =>
      if BUF_SIZE <=? n then
        '(d, f) ← file_read (br_file r) n; mret (d, {| br_file := f; br_buf := [] |})
      else
        '(d, f) ← file_read (br_file r) BUF_SIZE;
        mret (take n d, {| br_file := f; br_buf := drop n d |})
  | b => mret (take n b, {| br_file := br_file r; br_buf := drop n b |})
  end.

(** [io::default_read_exact], with [got] already read. *)
Fixpoint read_exact_loop (fuel : nat) (r : BufReader) (got : bytes) (n : nat)
    : io world ErrorKind (bytes * BufReader) :=
  if n <=? length got then mret (got, r) else
  match fuel with
  | O => out_of_fuel
  | S fuel' =>
      a ← io_try (br_read r (n - length got));
      match a with
      | Ok ([], _) => io_lift (Err UnexpectedEof)
      | Ok (d, r') => read_exact_loop fuel' r' (got ++ d) n
      | Err Interrupted => read_exact_loop fuel' r got n
      | Err e => io_lift (Err e)
      end
  end.

(** [<BufReader as Read>::read_exact]. *)
Definition read_exact (r : BufReader) (n : nat) : io world ErrorKind (bytes * BufReader) := λ w,
  read_exact_loop (n + length (w_sched w)) r [] n w.

(** ** [BufWriter] *)

(** [io::Write::write_all], the loop [std] runs over a [File]. *)
Fixpoint write_all_loop (fuel : nat) (buf : bytes) : io (world * File) ErrorKind unit :=
  match buf with
  | [] => mret tt
  | _ =>
      match fuel with
      | O => out_of_fuel
      | S fuel' =>
          a ← io_try (file_write buf);
          match a with
          | Ok O => io_lift (Err WriteZero)
          | Ok n => write_all_loop fuel' (drop n buf)
          | Err Interrupted => write_all_loop fuel' buf
          | Err e => io_lift (Err e)
          end
      end
  end.

Definition file_write_all (buf : bytes) : io (world * File) ErrorKind unit := λ s,
  write_all_loop (S (length (w_sched s.1))) buf s.

(** The bytes accepted and not yet written to the file. *)
Record BufWriter := { bw_file : File; bw_buf : bytes }.

Definition BufWriter_new (f : File) : BufWriter := {| bw_file := f; bw_buf := [] |}.

(** Run a call on the inner file. *)
Definition on_file {E A} (m : io (world * File) E A) : io (world * BufWriter) E A := λ '(w, bw),
  prog_bind (m (w, bw_file bw)) (λ '(r, (w', f)),
    Done (r, (w', {| bw_file := f; bw_buf := bw_buf bw |}))).

Definition put_buf {E} (b : bytes) : io (world * BufWriter) E unit :=
  bw ← get_own;
  put_own {| bw_file := bw_file bw; bw_buf := b |}.

(** [BufWriter::flush_buf]: what was written leaves the buffer even when a later write fails. *)
Fixpoint flush_buf_loop (fuel : nat) : io (world * BufWriter) ErrorKind unit :=
  bw ← get_own;
  match bw_buf bw with
  | [] => mret tt
  | buf =>
      match fuel with
      | O => out_of_fuel
      | S fuel' =>
          a ← io_try (on_file (file_write buf));
          match a with
          | Ok O => io_lift (Err WriteZero)
          | Ok n => _ ← put_buf (drop n buf); flush_buf_loop fuel'
          | Err Interrupted => flush_buf_loop fuel'
          | Err e => io_lift (Err e)
          end
      end
  end.

Definition flush_buf : io (world * BufWriter) ErrorKind unit := λ s,
  flush_buf_loop (S (length (w_sched s.1))) s.

(** [<BufWriter as Write>::write_all]: small writes are buffered, a full buffer is flushed
    first, large writes go to the file directly. *)
Definition bw_write_all (d : bytes) : io (world * BufWriter) ErrorKind unit :=
  bw ← get_own;
  if length d <? BUF_SIZE - length (bw_buf bw) then put_buf (bw_buf bw ++ d) else
  _ ← (if BUF_SIZE - length (bw_buf bw) <? length d then flush_buf else mret tt);
  bw ← get_own;
  if BUF_SIZE <=? length d then on_file (file_write_all d) else put_buf (bw_buf bw ++ d).

(** [<BufWriter as Write>::flush]; flushing a [File] does nothing. *)
Definition bw_flush : io (world * BufWriter) ErrorKind unit := flush_buf.

(** [<BufWriter as Drop>::drop]: a last attempt to write the buffer, its result ignored. *)
Definition bw_drop (bw : BufWriter) : io world ErrorKind unit := λ w,
  prog_bind (flush_buf (w, bw)) (λ '(r, (w', _)), Done (r, w')).

End io.
