(* ===== verification/IoSpec.v ===== *)
(** * Specifications of the file operations

    Every operation of [Io] is specified by a [wp] under any [Interference]: it returns whatever
    the schedule says and whatever other processes do between its system calls, and the system
    evolves within a relation the specification names. Fault-free schedules
    ([calm]) may be short but have no failing and no interrupted call; a specification that
    promises [faulted] in its error case says that a call made by the operation itself has failed
    or was interrupted, so that the operation succeeds under a calm schedule. *)

From S2P Require Import Prelude Ints Errors Prims Path Process Io.
From Stdlib Require Import ZArith Lia.

Lemma BUF_SIZE_eq : BUF_SIZE = Z.to_nat (2 ^ 13).
Proof. done. Qed.

#[global] Opaque BUF_SIZE.

Lemma BUF_SIZE_pos : 0 < BUF_SIZE.
Proof. rewrite BUF_SIZE_eq. lia. Qed.

(** ** How the system evolves *)

Section spec.
Context `{OsRng}.

Definition calm (w : world) : Prop := Forall (λ o, o ≠ Fail ∧ o ≠ Intr) (w_sched w).

(** From [w] to [w'] every file-system state, the last one included, satisfies [P]. *)
Record evolves (P : filesys → Prop) (w w' : world) : Prop := {
  ev_rng : w_rng w' = w_rng w;
  ev_fs : P (w_fs w');
  ev_sched : w_sched w' `suffix_of` w_sched w;
  ev_hist : ∃ new, w_hist w' = new ++ w_hist w ∧ Forall P new;
}.

Lemma evolves_refl (P : filesys → Prop) w : P (w_fs w) → evolves P w w.
Proof. intros. split; [done..|]. by exists []. Qed.

Lemma evolves_trans (P Q : filesys → Prop) w1 w2 w3 :
  evolves P w1 w2 → evolves Q w2 w3 → (∀ fs, Q fs → P fs) → evolves P w1 w3.
Proof.
  intros [Hg1 _ Hs1 (n1 & Hn1 & HP1)] [Hg2 HQ Hs2 (n2 & Hn2 & HP2)] HPQ. split.
  - congruence.
  - auto.
  - by etrans.
  - exists (n2 ++ n1). rewrite Hn2, Hn1, app_assoc. split; [done|].
    apply Forall_app. split; [|done]. by eapply Forall_impl.
Qed.

Lemma evolves_mono (P Q : filesys → Prop) w w' :
  evolves Q w w' → (∀ fs, Q fs → P fs) → evolves P w w'.
Proof.
  intros [Hg HQ Hs (n & Hn & HP)] HPQ. split; [done|auto|done|].
  exists n. split; [done|]. by eapply Forall_impl.
Qed.

Lemma evolves_calm P w w' : evolves P w w' → calm w → calm w'.
Proof. intros [_ _ [k Hk] _]. unfold calm. rewrite Hk, Forall_app. by intros []. Qed.

(** A call between [w] and [w'] has failed or was interrupted. *)
Definition faulted (w w' : world) : Prop :=
  ∃ used, w_sched w = used ++ w_sched w' ∧ ¬ Forall (λ o, o ≠ Fail ∧ o ≠ Intr) used.

(** The one call between [w] and [w'] has failed. *)
Definition refused (w w' : world) : Prop := w_sched w = Fail :: w_sched w'.

Lemma refused_faulted w w' : refused w w' → faulted w w'.
Proof. intros Hr. exists [Fail]. split; [done|]. by intros [[? _] _]%Forall_cons. Qed.

Lemma faulted_calm w w' : faulted w w' → ¬ calm w.
Proof. intros (used & Hs & Hu). unfold calm. rewrite Hs. by intros [? _]%Forall_app. Qed.

Lemma refused_calm w w' : refused w w' → ¬ calm w.
Proof. intros Hr. by eapply faulted_calm, refused_faulted. Qed.

Lemma faulted_from P w w1 w2 : evolves P w w1 → faulted w1 w2 → faulted w w2.
Proof.
  intros [_ _ [k Hk] _] (used & Hs & Hu). exists (k ++ used). rewrite Hk, Hs, app_assoc.
  split; [done|]. by intros [_ ?]%Forall_app.
Qed.

Lemma faulted_to P w w1 w2 : faulted w w1 → evolves P w1 w2 → faulted w w2.
Proof.
  intros (used & Hs & Hu) [_ _ [k Hk] _]. exists (used ++ k). rewrite Hs, Hk, app_assoc.
  split; [done|]. by intros [? _]%Forall_app.
Qed.

Lemma evolves_fuel P w w' : evolves P w w' → length (w_sched w') ≤ length (w_sched w).
Proof. intros [_ _ [k ->] _]. rewrite length_app. lia. Qed.

(** Composition within a preorder. *)
Lemma evolves_step (R : filesys → filesys → Prop) `{!PreOrder R} w1 w2 w3 :
  evolves (R (w_fs w1)) w1 w2 → evolves (R (w_fs w2)) w2 w3 → evolves (R (w_fs w1)) w1 w3.
Proof.
  intros H12 H23. eapply evolves_trans; [done..|]. intros fs. etrans; [apply H12|done].
Qed.

Lemma evolves_eq w w' : evolves (eq (w_fs w)) w w' → w_fs w' = w_fs w.
Proof. by intros [_ ? _ _]. Qed.

Lemma evolves_set_rng g P w w' :
  evolves P (set_rng g w) w' → evolves P w (set_rng (w_rng w) w').
Proof. by intros [? ? ? ?]. Qed.

Lemma evolves_forget_rng P w w' : evolves P w w' → evolves P w (set_rng (w_rng w) w').
Proof. by intros [? ? ? ?]. Qed.

(** Every directory entry is backed by an inode. *)
Definition fs_ok (fs : filesys) : Prop :=
  ∀ p i, fs_dir fs !! p = Some i → is_Some (fs_ino fs !! i).

(** The file at [p], if any, is on stable storage. *)
Definition on_disk (fs : filesys) (p : Path) : Prop :=
  ∀ i x, fs_dir fs !! p = Some i → fs_ino fs !! i = Some x → i_synced x = true.

(** [p] and [q] are not two links to one file. *)
Definition distinct_files (fs : filesys) (p q : Path) : Prop :=
  ∀ i, fs_dir fs !! p = Some i → fs_dir fs !! q ≠ Some i.

Lemma contents_eq fs p i :
  fs_ok fs → fs_dir fs !! p = Some i → contents fs p = Some (ino_data fs i).
Proof.
  intros Hok Hp. destruct (Hok _ _ Hp) as [x Hx]. unfold contents, ino_data.
  rewrite Hp. simpl. by rewrite Hx.
Qed.

(** ** System calls *)

Context `{!Interference}.

(** From [w] to [w'] the process has only waited for the answer to a call. *)
Definition waits (w w' : world) : Prop :=
  evolves (eq (w_fs w')) w w' ∧ rely (w_fs w) (w_fs w').

Lemma waits_evolves w w' : waits w w' → evolves (rely (w_fs w)) w w'.
Proof. intros [Hev Hr]. eapply evolves_mono; [done|]. by intros fs <-. Qed.

Lemma waits_calm w w' : waits w w' → calm w → calm w'.
Proof. intros [Hev _]. by eapply evolves_calm. Qed.

Lemma wp_io_rng {A} (m : st rng FilumCryptoError A) w (Q : Result A → world → Prop) :
  (∀ r g, m (w_rng w) = (r, g) → Q r (set_rng g w)) → wp (io_rng m) w Q.
Proof.
  intros HQ. destruct (m (w_rng w)) as [r g] eqn:E.
  apply (wp_done _ _ r (set_rng g w)); [|done|by apply HQ]. unfold io_rng. by rewrite E.
Qed.

Lemma wp_answer {E} w (Q : result E outcome → world → Prop) :
  (∀ o w', waits w w' → (o = Fail ∨ o = Intr → w_sched w = o :: w_sched w') →
           (o = Full ∨ length (w_sched w') < length (w_sched w)) → Q (Ok o) w') →
  wp answer w Q.
Proof.
  intros HQ found Hf. unfold answer.
  destruct (w_sched w) as [|o os] eqn:Hsch; (split; [done|]; intros fs' Hfs; split; [simpl; reflexivity|]);
    apply HQ; simpl.
  - split; [|done]. split; simpl; [done..| |by exists []]. by rewrite Hsch.
  - by intros [?|?].
  - by left.
  - split; [|done]. split; simpl; [done..| |by exists []]. rewrite Hsch. by apply suffix_cons_r.
  - done.
  - right. lia.
Qed.

Lemma wp_control w (Q : result ErrorKind unit → world → Prop) :
  (∀ r w', waits w w' →
           match r with Ok _ => True | Err _ => refused w w' end → Q r w') →
  wp control w Q.
Proof.
  intros HQ. unfold control. apply wp_bind, wp_answer. intros o w' Hev Hc _.
  destruct o; first [apply wp_ret|apply wp_lift]; apply HQ; try done. apply Hc. by left.
Qed.

Lemma wp_get_fs {E} w (Q : result E filesys → world → Prop) : Q (Ok (w_fs w)) w → wp get_fs w Q.
Proof. intros. by eapply wp_done. Qed.

(** Changing the file system within the guarantee. *)
Lemma wp_put_fs {E} fs (P : filesys → Prop) w (Q : result E unit → world → Prop) :
  P fs → guar (w_fs w) fs →
  (∀ w', evolves P w w' → w_fs w' = fs → Q (Ok tt) w') → wp (put_fs fs) w Q.
Proof.
  intros HP Hg HQ found Hf. split; [simpl; by etrans|]. apply HQ; [|done]. split; simpl; [done..|].
  exists [fs]. by rewrite Forall_singleton.
Qed.

(** A transfer of [n > 0] bytes moves at least one. *)
Lemma wp_transfer n w (Q : result ErrorKind nat → world → Prop) :
  (∀ r w', waits w w' →
           (r = Ok n ∨ length (w_sched w') < length (w_sched w)) →
           match r with Ok m => m ≤ n ∧ (0 < n → 0 < m) | Err _ => faulted w w' end → Q r w') →
  wp (transfer n) w Q.
Proof.
  intros HQ. unfold transfer. apply wp_bind, wp_answer. intros o w' Hev Hc Hs.
  destruct o; first [apply wp_ret|apply wp_lift]; apply HQ; try done;
    first [by left|by (destruct Hs; [done|by right])|lia|idtac].
  - exists [Intr]. split; [apply Hc; by right|]. by intros [[_ ?] _]%Forall_cons.
  - apply refused_faulted, Hc. by left.
Qed.

End spec.

(** ** Opening and creating *)

(** [f] is open on a file that contains exactly [c] and is positioned at its end. *)
Definition file_at `{OsRng} (w : world) (f : File) (c : bytes) : Prop :=
  ∃ x, fs_ino (w_fs w) !! f_ino f = Some x ∧ i_data x = c ∧ f_pos f = length c.

(** Creating [p] with inode [i]: an existing file is truncated, or an unused inode is linked. *)
Definition creates (p : Path) (i : nat) (fs fs' : filesys) : Prop :=
  fs_dir fs' = <[p := i]> (fs_dir fs) ∧
  (∀ j, j ≠ i → fs_ino fs' !! j = fs_ino fs !! j) ∧
  (fs_dir fs !! p = Some i ∨ fs_dir fs !! p = None ∧ fs_ino fs !! i = None) ∧
  is_Some (fs_ino fs' !! i).

Section file_spec.
Context `{OsRng, !Interference}.

Lemma file_open_spec p w :
  wp (file_open p) w (λ r w', evolves (rely (w_fs w)) w w' ∧
    match r with
    | Ok f => fs_dir (w_fs w') !! p = Some (f_ino f) ∧ f_pos f = 0
    | Err _ => calm w → fs_dir (w_fs w') !! p = None
    end).
Proof.
  unfold file_open. apply wp_bind, wp_control. intros [|] w' Hev%waits_evolves Hr.
  2: { split; [done|]. intros Hc. by destruct (refused_calm _ _ Hr). }
  apply wp_bind, wp_get_fs.
  destruct (fs_dir (w_fs w') !! p) as [i|] eqn:Hp; [apply wp_ret|apply wp_lift]; done.
Qed.

(** [found] is the file system as the call finds it. *)
Lemma file_create_spec p w :
  (∀ i fs fs', rely (w_fs w) fs → creates p i fs fs' → guar fs fs') →
  wp (file_create p) w (λ r w', ∃ found, rely (w_fs w) found ∧
    match r with
    | Ok f => evolves (λ fs, fs = found ∨ creates p (f_ino f) found fs) w w' ∧
              creates p (f_ino f) found (w_fs w') ∧ file_at w' f []
    | Err _ => evolves (eq found) w w' ∧ faulted w w'
    end).
Proof.
  intros Hguar. unfold file_create. apply wp_bind, wp_control.
  intros [|] w' [Hev Hrely] Hr; [|by exists (w_fs w'); split_and!; [..|apply refused_faulted]].
  apply wp_bind, wp_get_fs.
  assert (∀ i fs', creates p i (w_fs w') fs' →
    fs_ino fs' !! i = Some {| i_data := []; i_synced := false |} →
    wp (_ ← put_fs fs'; mret {| f_ino := i; f_pos := 0 |}) w' (λ (r : result ErrorKind File) w2,
      ∃ found, rely (w_fs w) found ∧
      match r with
      | Ok f => evolves (λ fs, fs = found ∨ creates p (f_ino f) found fs) w w2 ∧
                creates p (f_ino f) found (w_fs w2) ∧ file_at w2 f []
      | Err _ => evolves (eq found) w w2 ∧ faulted w w2
      end)) as Hput.
  { intros i fs' Hc Hi.
    apply wp_bind, (wp_put_fs _ (λ fs, fs = w_fs w' ∨ creates p i (w_fs w') fs)); [by right|by eapply Hguar|].
    intros w2 Hev2 Hfs2. apply wp_ret. exists (w_fs w'). rewrite <-Hfs2 in Hc. split_and!; [done| |done|].
    - eapply evolves_trans; [|done|done]. eapply evolves_mono; [done|]. by left.
    - eexists. by rewrite Hfs2. }
  destruct (fs_dir (w_fs w') !! p) as [i|] eqn:Hp; apply Hput; simpl; try apply lookup_insert_eq.
  - split_and!; simpl; [by rewrite insert_id|intros; by apply lookup_insert_ne|by left|].
    by rewrite lookup_insert_eq; eexists.
  - split_and!; simpl; [done|intros; by apply lookup_insert_ne| |by rewrite lookup_insert_eq; eexists].
    right. split; [done|]. apply not_elem_of_dom, is_fresh.
Qed.

(** Another file is not disturbed by creating a file and then writing to it. *)
Lemma creates_distinct fs fs' p i q :
  fs_ok fs → creates p i fs fs' → q ≠ p → distinct_files fs p q →
  fs_dir fs' !! q = fs_dir fs !! q ∧
  ∀ j, fs_dir fs !! q = Some j → j ≠ i ∧ fs_ino fs' !! j = fs_ino fs !! j.
Proof.
  intros Hok (Hd & Hi & Hor & _) Hq Hdist. split; [by rewrite Hd, lookup_insert_ne by done|].
  intros j Hj. assert (j ≠ i) as Hne; [|by rewrite Hi].
  intros ->. destruct Hor as [Hp|[_ Hnone]]; [by eapply Hdist|].
  destruct (Hok _ _ Hj). congruence.
Qed.

Lemma distinct_files_sym fs p q : distinct_files fs p q → distinct_files fs q p.
Proof. intros Hd i Hq Hp. by eapply Hd. Qed.

Lemma distinct_files_ne fs p q i : distinct_files fs p q → fs_dir fs !! p = Some i → p ≠ q.
Proof. intros Hd Hp ->. by eapply Hd. Qed.

Lemma creates_write_contents fs fs1 fs2 p i q :
  fs_ok fs → creates p i fs fs1 → only i fs1 fs2 → q ≠ p → distinct_files fs p q →
  contents fs2 q = contents fs q.
Proof.
  intros Hok Hc (Hd & Ho & _) Hq Hdist. destruct (creates_distinct _ _ _ _ _ Hok Hc Hq Hdist) as [Hdq Hj].
  unfold contents. rewrite Hd, Hdq. destruct (fs_dir fs !! q) as [j|]; [|done]. simpl.
  destruct (Hj j) as [Hne Hij]; [done|]. by rewrite Ho, Hij.
Qed.

Lemma creates_write_target fs fs1 fs2 p i x :
  creates p i fs fs1 → only i fs1 fs2 → fs_ino fs2 !! i = Some x → contents fs2 p = Some (i_data x).
Proof.
  intros (Hd & _) (Hd2 & _) Hx. unfold contents. rewrite Hd2, Hd, lookup_insert_eq. simpl. by rewrite Hx.
Qed.

(** ** Reading *)

Definition br_ino (r : BufReader) : nat := f_ino (br_file r).

(** What a reader has not delivered yet. *)
Definition rest (fs : filesys) (r : BufReader) : bytes :=
  br_buf r ++ drop (f_pos (br_file r)) (ino_data fs (f_ino (br_file r))).

(** Others leave a frozen file as the reader knows it. *)
Lemma rest_frozen r fs fs' : frozen (br_ino r) → rely fs fs' → rest fs' r = rest fs r.
Proof.
  intros Hfr Hr%Hfr. unfold br_ino in Hr. unfold rest, ino_data. by rewrite Hr.
Qed.

Lemma file_read_spec f n w :
  0 < n → frozen (f_ino f) →
  wp (file_read f n) w (λ r w', evolves (rely (w_fs w)) w w' ∧
    let old := drop (f_pos f) (ino_data (w_fs w) (f_ino f)) in
    match r with
    | Ok (d, f') => old = d ++ drop (f_pos f') (ino_data (w_fs w) (f_ino f)) ∧
                    f_ino f' = f_ino f ∧ length d ≤ n ∧ (d = [] → old = [])
    | Err _ => faulted w w' ∧ length (w_sched w') < length (w_sched w)
    end).
Proof.
  intros Hn Hfr. unfold file_read. apply wp_bind, wp_transfer.
  intros [m|e] w' Hev%waits_evolves Hs Hr.
  - apply wp_bind, wp_get_fs, wp_ret.
    assert (ino_data (w_fs w') (f_ino f) = ino_data (w_fs w) (f_ino f)) as ->.
    { unfold ino_data. by rewrite (Hfr _ _ (ev_fs _ _ _ Hev)). }
    destruct Hr as [Hm Hpos]. specialize (Hpos Hn).
    split_and!; simpl; [done| |done|rewrite length_take; lia|].
    + set (old := ino_data _ _). rewrite <-(take_drop m (drop (f_pos f) old)) at 1. f_equal.
      rewrite drop_drop, length_take, length_drop.
      destruct (decide (m ≤ length old - f_pos f)); [f_equal; lia|].
      rewrite !drop_ge by lia. done.
    + set (old := drop _ _). destruct old; [done|]. by destruct m; [lia|].
  - split_and!; [done|done|]. by destruct Hs.
Qed.

Lemma br_read_spec r n w :
  0 < n → frozen (br_ino r) →
  wp (br_read r n) w (λ a w', evolves (rely (w_fs w)) w w' ∧
    match a with
    | Ok (d, r') => rest (w_fs w) r = d ++ rest (w_fs w) r' ∧ length d ≤ n ∧
                    (d = [] → rest (w_fs w) r = []) ∧ br_ino r' = br_ino r
    | Err _ => faulted w w' ∧ length (w_sched w') < length (w_sched w)
    end).
Proof.
  intros Hn Hfr. pose proof BUF_SIZE_pos. unfold br_read, rest.
  destruct (br_buf r) as [|x b].
  - destruct (Nat.leb_spec BUF_SIZE n); apply wp_bind;
      (eapply wp_mono; [by apply file_read_spec|]); intros [[d f]|e] w' [Hev Hr]; simpl in Hr;
      [|done| |done]; destruct Hr as (Hold & Hi & Hd & Hnil); apply wp_ret; unfold br_ino; simpl; rewrite Hi.
    + by rewrite Hold at 1.
    + rewrite Hold at 1. rewrite app_assoc, take_drop, length_take. split_and!; [done|done|lia| |done].
      destruct d as [|y d]; [by intros _; apply Hnil|]. by destruct n; [lia|].
  - apply wp_ret. cbn [br_buf br_file]. rewrite app_assoc, take_drop, length_take.
    split_and!; [by apply evolves_refl|done|lia| |done]. by destruct n; [lia|].
Qed.

(** Reading [n] bytes or to the end of the file: the loop of [read_exact]. *)
Lemma read_exact_loop_spec fuel r got n w :
  n - length got + length (w_sched w) ≤ fuel → frozen (br_ino r) →
  wp (read_exact_loop fuel r got n) w (λ a w', evolves (rely (w_fs w)) w w' ∧
    match a with
    | Ok (d, r') => ∃ k, d = got ++ k ∧ rest (w_fs w) r = k ++ rest (w_fs w) r' ∧ n ≤ length d ∧
                         (length got ≤ n → length d = n) ∧ br_ino r' = br_ino r
    | Err _ => calm w → length (rest (w_fs w) r) < n - length got
    end).
Proof.
  revert r got w. induction fuel as [|fuel IH]; intros r got w Hfuel Hfr; simpl;
    destruct (Nat.leb_spec n (length got)); try lia;
    try by apply wp_ret; split; [by apply evolves_refl|];
      exists []; rewrite app_nil_r; split_and!; [done|done|lia|lia|done].
  apply wp_bind, wp_try. eapply wp_mono; [apply br_read_spec; [lia|done]|].
  intros [[d r']|e] w1 [Hev Hr]; pose proof (ev_fs _ _ _ Hev) as Hfs.
  - destruct Hr as (Hrest & Hd & Hnil & Hi). destruct d as [|x d].
    { apply wp_lift. split; [done|]. intros _. rewrite Hnil by done. simpl. lia. }
    pose proof (evolves_fuel _ _ _ Hev) as Hs.
    eapply wp_mono; [apply IH; [rewrite length_app; simpl in *; lia|by rewrite Hi]|].
    rewrite (rest_frozen r' (w_fs w)) by (rewrite ?Hi; done).
    intros a w2 [Hev2 Ha]. split; [by eapply evolves_step; [apply _|..]|].
    destruct a as [[d2 r2]|e].
    + destruct Ha as (k & -> & Hk & Hlen & Heq & Hi2). exists ((x :: d) ++ k).
      rewrite (rest_frozen r2 (w_fs w)) in Hk by (rewrite ?Hi2, ?Hi; done).
      rewrite Hrest, Hk, <-!app_assoc.
      split_and!; [done|done|by rewrite <-app_assoc in Hlen| |congruence].
      intros _. rewrite app_assoc. apply Heq. rewrite length_app. lia.
    + intros Hc. rewrite Hrest. specialize (Ha (evolves_calm _ _ _ Hev Hc)).
      rewrite length_app in Ha |- *. lia.
  - destruct Hr as [Hc%faulted_calm Hs]. destruct e; try (by apply wp_lift).
    eapply wp_mono; [apply IH; [lia|done]|]. rewrite (rest_frozen r (w_fs w)) by done.
    intros a w2 [Hev2 Ha]. split; [by eapply evolves_step; [apply _|..]|].
    destruct a as [[d2 r2]|e']; [|by intros ?].
    destruct Ha as (k & ? & Hk & ? & ? & Hi2). exists k.
    rewrite (rest_frozen r2 (w_fs w)) in Hk by (rewrite ?Hi2; done). by split_and!.
Qed.

(** [read_exact] delivers [n] bytes or fails; under a calm schedule it fails only at the end of
    the file. *)
Lemma read_exact_spec r n w :
  frozen (br_ino r) →
  wp (read_exact r n) w (λ a w', evolves (rely (w_fs w)) w w' ∧
    match a with
    | Ok (d, r') => rest (w_fs w) r = d ++ rest (w_fs w) r' ∧ length d = n ∧ br_ino r' = br_ino r
    | Err _ => calm w → length (rest (w_fs w) r) < n
    end).
Proof.
  intros Hfr. eapply (wp_mono (read_exact_loop (n + length (w_sched w)) r [] n));
    [apply read_exact_loop_spec; [simpl; lia|done]|].
  intros a w' [Hev Ha]. split; [done|]. destruct a as [[d r']|e]; [|by rewrite Nat.sub_0_r in Ha].
  destruct Ha as (k & -> & Hk & _ & Heq & Hi). split; [done|]. split; [|done].
  apply Heq. simpl. lia.
Qed.

(** A reader is not disturbed by changes to another file. *)
Lemma rest_changes i fs fs' r :
  changes i fs fs' → frozen (br_ino r) → br_ino r ≠ i → rest fs' r = rest fs r.
Proof.
  intros Hc Hfr Hne. pose proof (changes_frozen _ _ _ _ Hc Hfr Hne) as Hi. unfold br_ino in Hi.
  unfold rest, ino_data. by rewrite Hi.
Qed.

End file_spec.

(** ** Writing *)

Section write_spec.
Context `{OsRng, !Interference}.

(** A writer on inode [i] to which exactly [c] has been written, buffered bytes included. *)
Definition bw_at (w : world) (bw : BufWriter) (c : bytes) : Prop :=
  ∃ c0, file_at w (bw_file bw) c0 ∧ c = c0 ++ bw_buf bw.

(** Others leave an owned file as its writer knows it. *)
Lemma file_at_rely w w' f c :
  rely (w_fs w) (w_fs w') → owned (f_ino f) (w_fs w) → file_at w f c →
  owned (f_ino f) (w_fs w') ∧ file_at w' f c.
Proof.
  intros Hr Ho (x & Hx & ?). destruct (owned_rely _ _ _ Ho Hr) as [? Hi]. split; [done|].
  exists x. by rewrite Hi.
Qed.

Lemma bw_at_rely w w' bw c :
  rely (w_fs w) (w_fs w') → owned (f_ino (bw_file bw)) (w_fs w) → bw_at w bw c → bw_at w' bw c.
Proof. intros Hr Ho (c0 & Hf & Hc). exists c0. split; [|done]. by eapply file_at_rely. Qed.

(** Composition of changes at one inode. *)
Lemma evolves_changes i w w1 w2 :
  evolves (changes i (w_fs w)) w w1 → evolves (changes i (w_fs w1)) w1 w2 →
  evolves (changes i (w_fs w)) w w2.
Proof. apply evolves_step, _. Qed.

Lemma waits_changes i w w' : waits w w' → evolves (changes i (w_fs w)) w w'.
Proof. intros Hev%waits_evolves. eapply evolves_mono; [done|]. intros fs. apply changes_rely. Qed.

Lemma evolves_owned i w w' :
  evolves (changes i (w_fs w)) w w' → owned i (w_fs w) → owned i (w_fs w').
Proof. intros Hev. by apply changes_owned, Hev. Qed.

Lemma only_set_ino i x fs : only i fs (set_ino i x fs).
Proof.
  split_and!; [done|intros; by apply lookup_insert_ne|]. intros _. simpl. rewrite lookup_insert_eq. by eexists.
Qed.

Lemma overwrite_end c d : overwrite c (length c) d = c ++ d.
Proof.
  unfold overwrite. rewrite take_ge, Nat.sub_diag, drop_ge by lia. simpl. by rewrite app_nil_r.
Qed.

Lemma file_write_spec buf w f c :
  buf ≠ [] → file_at w f c → owned (f_ino f) (w_fs w) →
  wp (file_write buf) (w, f) (λ r '(w', f'),
    evolves (changes (f_ino f) (w_fs w)) w w' ∧ f_ino f' = f_ino f ∧
    (r = Ok (length buf) ∨ length (w_sched w') < length (w_sched w)) ∧
    match r with
    | Ok n => 0 < n ≤ length buf ∧ file_at w' f' (c ++ take n buf)
    | Err _ => f' = f ∧ file_at w' f c ∧ faulted w w'
    end).
Proof.
  intros Hbuf Hf Ho. assert (0 < length buf) as Hpos by (destruct buf; [done|simpl; lia]).
  unfold file_write. apply wp_bind, wp_fst, wp_transfer. intros [n|e] w1 Hw Hs Hr;
    destruct (file_at_rely _ _ _ _ (proj2 Hw) Ho Hf) as [Ho1 Hf1]; pose proof (waits_changes (f_ino f) _ _ Hw) as Hev.
  2: { split_and!; [done|done| |done|done|done]. by destruct Hs; [|right]. }
  destruct Hr as [Hn Hn0]. specialize (Hn0 Hpos). destruct Hf1 as (x & Hx & Hdata & Hat).
  apply wp_bind, wp_get_own, wp_bind, wp_fst, wp_get_fs. cbv zeta. cbn [snd].
  assert (ino_data (w_fs w1) (f_ino f) = c) as -> by (unfold ino_data; by rewrite Hx).
  rewrite Hat, overwrite_end. set (fs' := set_ino _ _ _).
  assert (only (f_ino f) (w_fs w1) fs') as Honly by apply only_set_ino.
  apply wp_bind, wp_fst, (wp_put_fs _ (changes (f_ino f) (w_fs w1)));
    [by apply changes_only|by eapply owned_only|].
  intros w2 Hev2 Hfs2. apply wp_bind, wp_put_own, wp_ret. cbn [fst].
  split_and!; [by eapply evolves_changes|done| |lia|lia|].
  - destruct Hs as [[= ->]|Hs]; [by left|right]. by pose proof (evolves_fuel _ _ _ Hev2); lia.
  - eexists. rewrite Hfs2. simpl. rewrite lookup_insert_eq, length_app, length_take. split_and!; [done..|lia].
Qed.

Lemma write_all_loop_spec fuel buf w f c :
  file_at w f c → owned (f_ino f) (w_fs w) → length (w_sched w) < fuel →
  wp (write_all_loop fuel buf) (w, f) (λ r '(w', f'),
    evolves (changes (f_ino f) (w_fs w)) w w' ∧ f_ino f' = f_ino f ∧
    match r with
    | Ok _ => file_at w' f' (c ++ buf)
    | Err _ => (∃ c', file_at w' f' c' ∧ c' `prefix_of` c ++ buf) ∧ faulted w w'
    end).
Proof.
  revert buf w f c. induction fuel as [|fuel IH]; intros buf w f c Hf Ho Hfuel; [lia|].
  destruct buf as [|x buf].
  { apply wp_ret. rewrite app_nil_r. split; [by apply evolves_refl|done]. }
  cbn [write_all_loop]. apply wp_bind, wp_try.
  eapply wp_mono; [by apply file_write_spec|]. intros r [w1 f1] (Hev & Hi & Hs & Hr).
  assert (owned (f_ino f1) (w_fs w1)) as Ho1 by (rewrite Hi; by eapply evolves_owned).
  assert (∀ d c1, file_at w1 f1 c1 → (d = [] ∨ length (w_sched w1) < length (w_sched w)) →
    c1 ++ d = c ++ x :: buf →
    wp (write_all_loop fuel d) (w1, f1) (λ r '(w', f'),
      evolves (changes (f_ino f) (w_fs w)) w w' ∧ f_ino f' = f_ino f ∧
      match r with
      | Ok _ => file_at w' f' (c ++ x :: buf)
      | Err _ => (∃ c', file_at w' f' c' ∧ c' `prefix_of` c ++ x :: buf) ∧ faulted w w'
      end)) as Hrec.
  { intros d c1 Hf1 Hd Heq. destruct Hd as [->|Hd].
    - rewrite app_nil_r in Heq. subst c1.
      destruct fuel; apply wp_ret; done.
    - eapply wp_mono; [apply IH; [done|done|lia]|]. intros r2 [w2 f2] (Hev2 & Hi2 & Hr2).
      rewrite Hi in Hev2, Hi2. split_and!; [by eapply evolves_changes|done|].
      rewrite <-Heq. destruct r2; [done|]. destruct Hr2 as [Hp Hc]. split; [exact Hp|]. by eapply faulted_from. }
  destruct r as [n|e].
  - destruct Hr as [Hn Hf1]. destruct n as [|n]; [lia|]. eapply Hrec; [done| |].
    + destruct Hs as [[= ->]|]; [|by right]. left. by apply drop_ge.
    + by rewrite <-app_assoc, take_drop.
  - destruct Hr as (-> & Hf1 & Hc). destruct e;
      try (by apply wp_lift; split_and!; [done..|exists c; split; [done|by apply prefix_app_r]|done]).
    eapply Hrec; [done| |done]. by destruct Hs; [|right].
Qed.

Lemma file_write_all_spec buf w f c :
  file_at w f c → owned (f_ino f) (w_fs w) →
  wp (file_write_all buf) (w, f) (λ r '(w', f'),
    evolves (changes (f_ino f) (w_fs w)) w w' ∧ f_ino f' = f_ino f ∧
    match r with
    | Ok _ => file_at w' f' (c ++ buf)
    | Err _ => (∃ c', file_at w' f' c' ∧ c' `prefix_of` c ++ buf) ∧ faulted w w'
    end).
Proof. intros. apply write_all_loop_spec; [done|done|]. simpl. lia. Qed.

Lemma wp_on_file {E A} (m : io (world * File) E A) w bw Q :
  wp m (w, bw_file bw) (λ r '(w', f), Q r (w', {| bw_file := f; bw_buf := bw_buf bw |})) →
  wp (on_file m) (w, bw) Q.
Proof.
  intros Hm found Hf. apply guarded_bind. eapply guarded_mono; [by apply Hm|].
  by intros fs [r [w' f]].
Qed.

Lemma wp_put_buf {E} b w bw (Q : result E unit → world * BufWriter → Prop) :
  Q (Ok tt) (w, {| bw_file := bw_file bw; bw_buf := b |}) → wp (put_buf b) (w, bw) Q.
Proof. intros. by apply wp_bind, wp_get_own, wp_put_own. Qed.

(** What every operation of a writer on inode [i] does: the system evolves at [i] only, and [c] has
    been written, or a prefix of it after an error. *)
Definition bw_post (w : world) (bw : BufWriter) (c : bytes) (r : result ErrorKind unit)
    (s' : world * BufWriter) : Prop :=
  evolves (changes (f_ino (bw_file bw)) (w_fs w)) w s'.1 ∧
  f_ino (bw_file s'.2) = f_ino (bw_file bw) ∧
  match r with
  | Ok _ => bw_at s'.1 s'.2 c
  | Err _ => (∃ c', bw_at s'.1 s'.2 c' ∧ c' `prefix_of` c) ∧ faulted w s'.1
  end.

Lemma bw_post_step w bw c w1 bw1 c1 r s' :
  bw_post w bw c1 (Ok tt) (w1, bw1) → bw_post w1 bw1 c r s' → bw_post w bw c r s'.
Proof.
  intros (Hev1 & Hi1 & _) (Hev2 & Hi2 & Hr). simpl in *. rewrite Hi1 in Hev2.
  split_and!; [by eapply evolves_changes|congruence|]. destruct r; [done|].
  destruct Hr as [? Hc]. split; [done|]. by eapply faulted_from.
Qed.

Lemma bw_post_err w bw c c1 e s' :
  c1 `prefix_of` c → bw_post w bw c1 (Err e) s' → bw_post w bw c (Err e) s'.
Proof.
  intros Hc (Hev & Hi & (c' & Hbw & Hc') & Hf). split_and!; [done|done| |done].
  exists c'. split; [done|by etrans].
Qed.

Lemma flush_buf_loop_spec fuel w bw c :
  bw_at w bw c → owned (f_ino (bw_file bw)) (w_fs w) → length (w_sched w) < fuel →
  wp (flush_buf_loop fuel) (w, bw) (λ r s',
    bw_post w bw c r s' ∧ (is_ok r = true → bw_buf s'.2 = [])).
Proof.
  revert w bw. induction fuel as [|fuel IH]; intros w bw Hbw Ho Hfuel; [lia|].
  pose proof Hbw as (c0 & Hf & Hc0). cbn [flush_buf_loop]. apply wp_bind, wp_get_own. cbn [snd].
  destruct (bw_buf bw) as [|x buf] eqn:Hbuf.
  { apply wp_ret. split; [|done]. by split_and!; [apply evolves_refl|..]. }
  apply wp_bind, wp_try, wp_on_file. eapply wp_mono; [by apply file_write_spec|].
  intros r [w1 f1] (Hev & Hi & Hs & Hr).
  assert (owned (f_ino f1) (w_fs w1)) as Ho1 by (rewrite Hi; by eapply evolves_owned). set (bw1 := {| bw_file := f1 |}).
  assert (∀ b c1, file_at w1 f1 c1 → (b = [] ∨ length (w_sched w1) < length (w_sched w)) →
    c = c1 ++ b →
    wp (flush_buf_loop fuel) (w1, {| bw_file := f1; bw_buf := b |}) (λ r s',
      bw_post w bw c r s' ∧ (is_ok r = true → bw_buf s'.2 = []))) as Hrec.
  { intros b c1 Hf1 Hb ->. destruct Hb as [->|Hb].
    - destruct fuel; apply wp_bind, wp_get_own, wp_ret; (split; [|done]);
        (split_and!; [done|done|by exists c1]).
    - eapply wp_mono; [apply IH; [by exists c1|done|lia]|]. intros r2 s2 [Hp Hn]. split; [|done].
      eapply bw_post_step; [|done]. split_and!; [done|done|by exists c1]. }
  destruct r as [n|e].
  - destruct Hr as [Hn Hf1]. destruct n as [|n]; [lia|].
    apply wp_bind, wp_put_buf. eapply Hrec; [done| |].
    + destruct Hs as [[= ->]|]; [|by right]. left. by apply drop_ge.
    + by rewrite Hc0, <-app_assoc, take_drop.
  - destruct Hr as (-> & Hf1 & Hcalm). subst bw1. rewrite Hbuf. destruct e;
      try (apply wp_lift; split; [split; [|split; [|split]]|]; try done;
           by exists (c0 ++ x :: buf); split; [exists c0|rewrite Hc0]).
    eapply Hrec; [done| |done]. by destruct Hs; [|right].
Qed.

Lemma bw_flush_spec w bw c :
  bw_at w bw c → owned (f_ino (bw_file bw)) (w_fs w) →
  wp bw_flush (w, bw) (λ r s', bw_post w bw c r s' ∧ (is_ok r = true → bw_buf s'.2 = [])).
Proof. intros. apply flush_buf_loop_spec; [done|done|]. simpl. lia. Qed.

Lemma bw_write_all_spec d w bw c :
  bw_at w bw c → owned (f_ino (bw_file bw)) (w_fs w) →
  wp (bw_write_all d) (w, bw) (bw_post w bw (c ++ d)).
Proof.
  intros Hbw Ho. unfold bw_write_all. apply wp_bind, wp_get_own. cbn [snd].
  assert (∀ w1 bw1, bw_at w1 bw1 c →
    wp (put_buf (bw_buf bw1 ++ d)) (w1, bw1) (bw_post w1 bw1 (c ++ d))) as Hput.
  { intros w1 bw1 (c0 & Hf & ->). apply wp_put_buf. split_and!; [by apply evolves_refl|done|].
    exists c0. simpl. by rewrite <-app_assoc. }
  case_match; [by apply Hput|].
  apply wp_bind. eapply (wp_mono _ _ (λ r s', bw_post w bw c r s' ∧
    (is_ok r = true → BUF_SIZE ≤ length d → bw_buf s'.2 = []))).
  { destruct (Nat.ltb_spec (BUF_SIZE - length (bw_buf bw)) (length d)).
    - eapply wp_mono; [by apply bw_flush_spec|]. intros r s' [? Hn]. split; auto.
    - apply wp_ret. split; [by split_and!; [apply evolves_refl|..]|]. simpl. intros _ ?.
      pose proof BUF_SIZE_pos. apply nil_length_inv. lia. }
  intros [[]|e] [w1 bw1] [Hp Hn]; [|by eapply bw_post_err; [apply prefix_app_r|]].
  pose proof Hp as (Hev1 & Hi1 & Hbw1).
  assert (owned (f_ino (bw_file bw1)) (w_fs w1)) as Ho1 by (simpl in Hi1; rewrite Hi1; by eapply evolves_owned). simpl in Hn.
  apply wp_bind, wp_get_own. cbn [snd].
  eapply wp_mono; [|intros r s'; by apply (bw_post_step _ _ (c ++ d) _ _ _ _ _ Hp)].
  destruct (Nat.leb_spec BUF_SIZE (length d)); [|by apply Hput].
  destruct Hbw1 as (c0 & Hf & Hc). simpl in Hf, Hc. rewrite Hn, app_nil_r in Hc by done. subst c0.
  apply wp_on_file. eapply wp_mono; [by apply file_write_all_spec|].
  intros r [w2 f2] (Hev & Hi & Hr). split_and!; [done|done|]. simpl. rewrite Hn by done.
  destruct r.
  - eexists. by rewrite app_nil_r.
  - destruct Hr as [(c' & ? & ?) ?]. split; [|done]. exists c'.
    split; [by exists c'; rewrite app_nil_r|done].
Qed.

(** A small write into an empty buffer makes no system call. *)
Lemma bw_write_all_small d w f :
  length d < BUF_SIZE →
  bw_write_all d (w, BufWriter_new f) = Done (Ok tt, (w, {| bw_file := f; bw_buf := d |})).
Proof.
  intros Hd. unfold bw_write_all, get_own. rsimpl. simpl.
  by rewrite Nat.sub_0_r, (proj2 (Nat.ltb_lt _ _)).
Qed.

(** Dropping a writer touches its file only, and nothing at all when its buffer is empty; the file
    has then a prefix of what was written, the rest of the buffer being lost. *)
Lemma bw_drop_spec w bw c :
  bw_at w bw c → owned (f_ino (bw_file bw)) (w_fs w) →
  wp (bw_drop bw) w (λ _ w', evolves (changes (f_ino (bw_file bw)) (w_fs w)) w w' ∧
    (bw_buf bw = [] → w' = w) ∧
    ∃ x, fs_ino (w_fs w') !! f_ino (bw_file bw) = Some x ∧ i_data x `prefix_of` c).
Proof.
  intros Hbw Ho.
  assert (∀ w' bw' c', bw_at w' bw' c' → c' `prefix_of` c → f_ino (bw_file bw') = f_ino (bw_file bw) →
    ∃ x, fs_ino (w_fs w') !! f_ino (bw_file bw) = Some x ∧ i_data x `prefix_of` c) as Hpre.
  { intros w' bw' c' (c0 & (x & Hx & <- & _) & ->) Hc' <-. exists x. split; [done|].
    etrans; [by apply prefix_app_r|done]. }
  destruct (bw_buf bw) as [|x b] eqn:Hb.
  - apply (wp_done _ _ (Ok tt) w); [|done|by split_and!; [apply evolves_refl| |eapply Hpre]].
    unfold bw_drop, flush_buf. cbn [fst flush_buf_loop]. unfold get_own. rsimpl. cbn. by rewrite Hb.
  - intros found Hf. apply guarded_bind. eapply guarded_mono; [by eapply bw_flush_spec|].
    intros fs [r [w' bw']] [? [(Hev & Hi & Hr) _]]. split; [done|]. split_and!; [done|done|].
    destruct r; [by eapply (Hpre w' bw' c)|]. destruct Hr as [(c' & ? & ?) _]. by eapply (Hpre w' bw' c').
Qed.

End write_spec.

(** ** Publishing a file: synchronise, rename, remove *)

Section publish_spec.
Context `{OsRng, !Interference}.

Lemma sync_all_spec f c w :
  file_at w f c → owned (f_ino f) (w_fs w) →
  wp (sync_all f) w (λ r w', evolves (changes (f_ino f) (w_fs w)) w w' ∧
    match r with
    | Ok _ => fs_ino (w_fs w') !! f_ino f = Some {| i_data := c; i_synced := true |}
    | Err _ => file_at w' f c ∧ faulted w w'
    end).
Proof.
  intros Hf Ho. unfold sync_all. apply wp_bind, wp_control. intros r w1 Hw Hr.
  destruct (file_at_rely _ _ _ _ (proj2 Hw) Ho Hf) as [Ho1 Hf1].
  pose proof (waits_changes (f_ino f) _ _ Hw) as Hev.
  destruct r as [u|e]; [|by split_and!; [..|apply refused_faulted]].
  apply wp_bind, wp_get_fs. set (fs' := set_ino _ _ _).
  assert (only (f_ino f) (w_fs w1) fs') as Honly by apply only_set_ino.
  eapply (wp_put_fs _ (changes (f_ino f) (w_fs w1)));
    [by apply changes_only|by eapply owned_only|].
  intros w2 Hev2 Hfs2. split; [by eapply evolves_changes|].
  destruct Hf1 as (x & Hx & Hd & _). rewrite Hfs2. simpl. rewrite lookup_insert_eq. unfold ino_data.
  by rewrite Hx, Hd.
Qed.

(** A call that changes the directory of the file system it finds, or fails. *)
Definition directory_step (w : world) (change : gmap Path nat → gmap Path nat)
    (r : result ErrorKind unit) (w' : world) : Prop :=
  ∃ found, rely (w_fs w) found ∧
    let fs' := set_dir (change (fs_dir found)) found in
    evolves (λ fs, fs = found ∨ fs = fs') w w' ∧
    match r with
    | Ok _ => w_fs w' = fs'
    | Err _ => w_fs w' = found ∧ refused w w'
    end.

Lemma directory_step_done w w1 change :
  waits w w1 → let fs' := set_dir (change (fs_dir (w_fs w1))) (w_fs w1) in
  guar (w_fs w1) fs' → wp (put_fs fs') w1 (directory_step w change).
Proof.
  intros [Hev Hr] fs' Hg. apply (wp_put_fs _ (λ fs, fs = w_fs w1 ∨ fs = fs')); [by right|done|].
  intros w2 Hev2 Hfs2. exists (w_fs w1). split; [done|]. split; [|done].
  eapply evolves_trans; [eapply evolves_mono; [done|]|done|done]. intros fs ->. by left.
Qed.

Lemma directory_step_failed w w1 change e :
  waits w w1 → refused w w1 → directory_step w change (Err e) w1.
Proof.
  intros [Hev Hr] Hc. exists (w_fs w1). split; [done|]. split; [|done].
  eapply evolves_mono; [done|]. intros fs ->. by left.
Qed.

Lemma rename_spec a b i w :
  (∀ fs, rely (w_fs w) fs → fs_dir fs !! a = Some i ∧ fs_dir fs !! b ≠ Some i ∧
     guar fs (set_dir (<[b := i]> (delete a (fs_dir fs))) fs)) →
  wp (rename a b) w (directory_step w (λ d, <[b := i]> (delete a d))).
Proof.
  intros Hfind. unfold rename. apply wp_bind, wp_control. intros r w1 Hw Hr.
  destruct r as [u|e]; [|by apply directory_step_failed].
  destruct (Hfind _ (proj2 Hw)) as (Ha & Hb & Hg).
  apply wp_bind, wp_get_fs. rewrite Ha, bool_decide_false by done.
  by apply (directory_step_done w w1 (λ d, <[b := i]> (delete a d))).
Qed.

Lemma remove_file_spec p i w :
  (∀ fs, rely (w_fs w) fs → fs_dir fs !! p = Some i ∧
     guar fs (set_dir (delete p (fs_dir fs)) fs)) →
  wp (remove_file p) w (directory_step w (delete p)).
Proof.
  intros Hfind. unfold remove_file. apply wp_bind, wp_control. intros r w1 Hw Hr.
  destruct r as [u|e]; [|by apply directory_step_failed].
  destruct (Hfind _ (proj2 Hw)) as (Hp & Hg).
  apply wp_bind, wp_get_fs. rewrite Hp. by apply (directory_step_done w w1 (delete p)).
Qed.

(** Removing a file that is not there changes nothing. *)
Lemma remove_missing p w :
  (∀ fs, rely (w_fs w) fs → fs_dir fs !! p = None) →
  wp (remove_file p) w (λ _ w', evolves (rely (w_fs w)) w w').
Proof.
  intros Hp. unfold remove_file. apply wp_bind, wp_control.
  intros [|] w1 Hw _; pose proof (waits_evolves _ _ Hw) as Hev; [|done].
  apply wp_bind, wp_get_fs. rewrite (Hp _ (proj2 Hw)). by apply wp_lift.
Qed.

End publish_spec.

(** ** Sample worlds, for the witnesses *)

(** A disk with one synchronised file. *)
Definition world_with `{OsRng} (g : rng) (p : Path) (data : bytes) (sched : list outcome) : world := {|
  w_rng := g;
  w_fs := {| fs_dir := {[ p := 0 ]}; fs_ino := {[ 0 := {| i_data := data; i_synced := true |} ]} |};
  w_sched := sched;
  w_hist := [];
|}.

Lemma world_with_ok `{OsRng} g p data sched : fs_ok (w_fs (world_with g p data sched)).
Proof. intros q i Hq. cbn in Hq |- *. apply lookup_singleton_Some in Hq as [<- <-]. by eexists. Qed.

Lemma world_with_on_disk `{OsRng} g p data sched q : on_disk (w_fs (world_with g p data sched)) q.
Proof. intros i x _ Hx. cbn in Hx. by apply lookup_singleton_Some in Hx as [_ <-]. Qed.

Lemma world_with_distinct `{OsRng} g p data sched q :
  q ≠ p → distinct_files (w_fs (world_with g p data sched)) p q.
Proof. intros Hq i _ Hi. cbn in Hi. by apply lookup_singleton_Some in Hi as [<- _]. Qed.

(** Short reads and writes, no failure. *)
Definition choppy : list outcome := [Full; Part 6; Part 70; Full; Part 0; Part 2; Part 30].
