(* ===== verification/BlobFile.v ===== *)
(** * The chunked blob codec, from file to file ([blob.rs])

    [encrypt_file_chunked] and [decrypt_file_chunked] over the file system of [Io]. The [Drop]
    of the writer and of [TempCleanup] are run by [scoped] where Rust runs them. *)

From S2P Require Import Prelude Ints Errors Prims Toy Aad Segments Blob Path Process Io IoSpec.
From Stdlib Require Import ZArith Lia.

(** ** Definitions *)

Section file_codec.
Context `{OsRng}.

(** [.map_err(|_| FilumCryptoError::Io)]. *)
Definition io_err {S A} (m : io S ErrorKind A) : io S FilumCryptoError A := io_map_err (λ _, Io) m.

(** The loop of [read_full]: [filled] holds the bytes read so far into a buffer of [n]. *)
Fixpoint read_full_loop (fuel : nat) (r : BufReader) (filled : bytes) (n : nat)
    : io world FilumCryptoError (bytes * BufReader) :=
  if n <=? length filled then mret (filled, r) else
  match fuel with
  | O => out_of_fuel
  | S fuel' =>
      '(d, r') ← io_err (br_read r (n - length filled));
      match d with
      | [] => mret (filled, r')
      | _ => read_full_loop fuel' r' (filled ++ d) n
      end
  end.

(** The filled part of the buffer, [&buf[..read_full(r, &mut buf)?]]. *)
Definition read_full (r : BufReader) (n : nat) : io world FilumCryptoError (bytes * BufReader) :=
  read_full_loop n r [] n.

(** The loop of both file codecs, over [n]-byte reads: hold one full chunk back until the next
    read shows whether it was the last. [next] and [last] are the methods of the STREAM object. *)
Fixpoint stream_loop {St} (next : St → Payload → option (bytes * St))
    (last : St → Payload → option bytes) (n : nat) (seg_aad : bytes)
    (fuel : nat) (fin : BufReader) (s : St) (pending : option bytes)
    : io (world * BufWriter) FilumCryptoError unit :=
  match fuel with
  | O => out_of_fuel
  | S fuel' =>
      '(chunk, fin) ← io_fst (read_full fin n);
      s ← match pending with
          | Some prev =>
              '(out, s') ← io_lift (ok_or (next s {| msg := prev; aad := seg_aad |}) Aead);
              _ ← io_err (bw_write_all out);
              mret s'
          | None => mret s
          end;
      if length chunk <? n then
        out ← io_lift (ok_or (last s {| msg := chunk; aad := seg_aad |}) Aead);
        io_err (bw_write_all out)
      else stream_loop next last n seg_aad fuel' fin s (Some chunk)
  end.

(** A bound on the iterations over the file open in [f]: one more than its length. *)
Definition loop_fuel {E} (f : File) : io world E nat := λ w,
  Done (Ok (S (length (ino_data (w_fs w) (f_ino f)))), w).

(** [fout.get_ref().sync_all()]. *)
Definition bw_sync : io (world * BufWriter) ErrorKind unit :=
  bw ← get_own;
  io_fst (sync_all (bw_file bw)).

Definition encrypt_file_chunked `{AesGcm} (input output : Path) (wrapping_key : bytes)
    (blob_id : str) : io world FilumCryptoError unit :=
  seg_aad ← io_lift (blob_segment_aad blob_id);
  '(data_key, nonce_prefix, wrapped) ← io_rng (new_blob_keys wrapping_key blob_id);
  fin ← io_err (file_open input);
  fout ← io_err (file_create output);
  scoped (BufWriter_new fout) bw_drop (
    _ ← io_err (bw_write_all (write_header [] wrapped nonce_prefix));
    let cipher := aes_new data_key in
    let enc := enc_from_aead cipher nonce_prefix in
    fuel ← io_fst (loop_fuel fin);
    _ ← stream_loop encrypt_next encrypt_last CHUNK_SIZE seg_aad fuel (BufReader_new fin) enc None;
    io_err bw_flush).

(** [TempCleanup]: a guard that removes the temporary file unless disarmed. *)
Record TempCleanup := { tc_path : Path; tc_armed : bool }.

Definition TempCleanup_drop (c : TempCleanup) : io world ErrorKind unit :=
  if tc_armed c then remove_file (tc_path c) else mret tt.

(** [cleanup.armed = false]. *)
Definition disarm {E} : io (world * TempCleanup) E unit :=
  c ← get_own;
  put_own {| tc_path := tc_path c; tc_armed := false |}.

(** [format!(".{:016x}.part", ..)]. *)
Definition temp_suffix (suffix : bytes) : str :=
  lit "." ++ fmt_016x (u64_from_be_bytes suffix) ++ lit ".part".

Definition sibling_temp_path (output : Path) : st rng FilumCryptoError Path :=
  suffix ← os_fill 8;
  name ← st_lift (ok_or (file_name output) Io);
  mret (with_file_name output (name ++ temp_suffix suffix)).

Definition decrypt_file_chunked `{AesGcm} (input output : Path) (wrapping_key : bytes)
    (blob_id : str) : io world FilumCryptoError unit :=
  seg_aad ← io_lift (blob_segment_aad blob_id);
  f ← io_err (file_open input);
  '(header, fin) ← io_err (read_exact (BufReader_new f) HEADER_LEN);
  '(data_key, nonce_prefix, ct_chunk) ← io_lift (open_header header wrapping_key blob_id);
  let cipher := aes_new data_key in
  let dec := dec_from_aead cipher nonce_prefix in
  tmp ← io_rng (sibling_temp_path output);
  scoped {| tc_path := tmp; tc_armed := true |} TempCleanup_drop (
    fout ← io_fst (io_err (file_create tmp));
    _ ← io_fst (scoped (BufWriter_new fout) bw_drop (
      fuel ← io_fst (loop_fuel f);
      _ ← stream_loop decrypt_next decrypt_last ct_chunk seg_aad fuel fin dec None;
      _ ← io_err bw_flush;
      io_err bw_sync));
    _ ← io_fst (io_err (rename tmp output));
    disarm).

End file_codec.

(** ** The loops *)

Section loops.
Context `{OsRng, !Interference}.

Lemma wp_io_err {S A} `{!HasFs S} (m : io S ErrorKind A) s (Q : Result A → S → Prop) :
  wp m s (λ r s', match r with Ok a => Q (Ok a) s' | Err _ => Q (Err Io) s' end) →
  wp (io_err m) s Q.
Proof. intros Hm. apply wp_map_err. eapply wp_mono; [done|]. by intros [a|e] s'. Qed.

Lemma read_full_loop_spec fuel r filled n w :
  n - length filled ≤ fuel → frozen (br_ino r) →
  wp (read_full_loop fuel r filled n) w (λ a w', evolves (rely (w_fs w)) w w' ∧
    match a with
    | Ok (d, r') => d = filled ++ take (n - length filled) (rest (w_fs w) r) ∧
                    rest (w_fs w) r' = drop (n - length filled) (rest (w_fs w) r) ∧
                    br_ino r' = br_ino r
    | Err e => e = Io ∧ faulted w w'
    end).
Proof.
  revert r filled w. induction fuel as [|fuel IH]; intros r filled w Hfuel Hfr; cbn [read_full_loop];
    destruct (Nat.leb_spec n (length filled)) as [Hle|Hlt]; try lia;
    try by apply wp_ret; split; [by apply evolves_refl|];
      replace (n - length filled) with 0 by lia; rewrite take_0, app_nil_r, drop_0.
  apply wp_bind, wp_io_err. eapply wp_mono; [apply br_read_spec; [lia|done]|].
  intros [[d r']|e] w1 [Hev Hr]; [|by destruct Hr].
  destruct Hr as (Hrest & Hd & Hnil & Hi). pose proof (ev_fs _ _ _ Hev) as Hfs.
  destruct d as [|x d].
  { apply wp_ret. split; [done|]. specialize (Hnil eq_refl). simpl in Hrest.
    rewrite <-Hrest, Hnil. by rewrite take_nil, drop_nil, app_nil_r. }
  eapply wp_mono; [apply IH; [rewrite length_app; simpl in *; lia|by rewrite Hi]|].
  rewrite (rest_frozen r' (w_fs w)) by (rewrite ?Hi; done).
  intros a w2 [Hev2 Ha]. split; [by eapply evolves_step; [apply _|..]|].
  destruct a as [[d2 r2]|e].
  - destruct Ha as (-> & Hr2 & Hi2). rewrite (rest_frozen r2 (w_fs w)) in Hr2 by (rewrite ?Hi2, ?Hi; done).
    rewrite Hr2, Hrest, length_app, <-app_assoc.
    rewrite take_app, drop_app, (take_ge (x :: d)), (drop_ge (x :: d)) by lia.
    split_and!; [do 3 f_equal; lia|simpl; f_equal; lia|congruence].
  - destruct Ha as [-> Hc]. split; [done|]. by eapply faulted_from.
Qed.

(** The specification of [read_full]. *)
Lemma read_full_spec r n w :
  frozen (br_ino r) →
  wp (read_full r n) w (λ a w', evolves (rely (w_fs w)) w w' ∧
    match a with
    | Ok (d, r') => d = take n (rest (w_fs w) r) ∧
                    rest (w_fs w) r' = drop n (rest (w_fs w) r) ∧ br_ino r' = br_ino r
    | Err e => e = Io ∧ faulted w w'
    end).
Proof.
  intros Hfr. eapply wp_mono; [apply read_full_loop_spec; [simpl; lia|done]|].
  intros a w' [Hev Ha]. rewrite Nat.sub_0_r in Ha. done.
Qed.

(** C37. [read_full] always returns, whatever other processes do to other files. However short the
    reads of the system are, it delivers the next [n] bytes of the file, or all that is left; the
    only error is [Io], when a read fails. *)
Theorem read_full_delivers r n w :
  frozen (br_ino r) →
  wp (read_full r n) w (λ a w', evolves (rely (w_fs w)) w w' ∧
    match a with
    | Ok (d, r') => d = take n (rest (w_fs w) r) ∧
                    rest (w_fs w) r' = drop n (rest (w_fs w) r) ∧ br_ino r' = br_ino r
    | Err e => e = Io ∧ ¬ calm w
    end).
Proof.
  intros Hfr. eapply wp_mono; [by apply read_full_spec|]. intros [[d r']|e] w' [? Ha]; [done|].
  destruct Ha as [? ?%faulted_calm]. done.
Qed.

(** How a writing step of the codec ends, [ok] describing the state after success: on [Io] one of
    its system calls has failed, on any other error the reference [ref] has the same. If the
    reference has a result, a prefix of what it makes of the file, [full], has been written. *)
Definition step_post {A} (full : A → bytes) (ref : Result A) (ok : A → world * BufWriter → Prop)
    (w : world) (bw : BufWriter) (r : Result unit) (s' : world * BufWriter) : Prop :=
  evolves (changes (f_ino (bw_file bw)) (w_fs w)) w s'.1 ∧
  f_ino (bw_file s'.2) = f_ino (bw_file bw) ∧
  (∃ c, bw_at s'.1 s'.2 c ∧ ∀ a, ref = Ok a → c `prefix_of` full a) ∧
  match r with
  | Ok _ => ∃ a, ref = Ok a ∧ ok a s'
  | Err e => (e = Io ∧ faulted w s'.1) ∨ ref = Err e
  end.

Lemma step_post_trans {A} full (ref : Result A) ok w bw w1 bw1 r s' :
  evolves (changes (f_ino (bw_file bw)) (w_fs w)) w w1 →
  f_ino (bw_file bw1) = f_ino (bw_file bw) →
  step_post full ref ok w1 bw1 r s' → step_post full ref ok w bw r s'.
Proof.
  intros Hev1 Hi1 (Hev2 & Hi2 & Hc & Hr). rewrite Hi1 in Hev2, Hi2.
  split_and!; [by eapply evolves_changes|done|done|].
  destruct r; [done|]. destruct Hr as [[? Hn]|?]; [left|by right].
  split; [done|]. by eapply faulted_from.
Qed.

(** Writing through the buffer, as a step with any reference. *)
Lemma bw_write_step {A} full (ref : Result A) d w bw c :
  (∀ a, ref = Ok a → c ++ d `prefix_of` full a) → bw_at w bw c → owned (f_ino (bw_file bw)) (w_fs w) →
  wp (io_err (bw_write_all d)) (w, bw) (λ r s',
    evolves (changes (f_ino (bw_file bw)) (w_fs w)) w s'.1 ∧
    f_ino (bw_file s'.2) = f_ino (bw_file bw) ∧
    match r with
    | Ok _ => bw_at s'.1 s'.2 (c ++ d)
    | Err _ => ∀ ok, step_post full ref ok w bw r s'
    end).
Proof.
  intros Hfull Hbw Ho. apply wp_io_err. eapply wp_mono; [by apply bw_write_all_spec|].
  intros [u|e] s' (Hev & Hi & Hr); [done|]. destruct Hr as [(c' & Hc & Hp) Hn].
  split_and!; [done|done|]. intros ok. split_and!; [done|done| |by left].
  exists c'. split; [done|]. intros a Ha. etrans; [exact Hp|by apply Hfull].
Qed.

(** The reference result of the loop: the pass over the blocks of what is left to read. *)
Definition loop_ref {St} (next : St → Payload → option (bytes * St))
    (last : St → Payload → option bytes) (n : nat) (a : bytes) (s : St)
    (pending : option bytes) (l : bytes) : Result (list bytes * bytes) :=
  ok_or (stream_run next last s a (option_list pending ++ (blocks n l).1) (blocks n l).2) Aead.

Lemma loop_ref_err {St} (next : St → Payload → option (bytes * St)) last n a s pending l e :
  loop_ref next last n a s pending l = Err e → e = Aead.
Proof. unfold loop_ref. destruct (stream_run _ _ _ _ _ _); [done|]. by intros [= <-]. Qed.

Section stream.
Context {St : Type} (next : St → Payload → option (bytes * St))
  (last : St → Payload → option bytes) (n : nat) (a : bytes) (Hn : 0 < n).

(** Writing out the chunk held back, before a reference that goes on with [bs] and [r]. *)
Lemma pending_spec s pending bs r w bw c :
  bw_at w bw c → owned (f_ino (bw_file bw)) (w_fs w) →
  wp (match pending with
      | Some prev =>
          '(out, s') ← io_lift (ok_or (next s {| msg := prev; aad := a |}) Aead);
          _ ← io_err (bw_write_all out);
          mret s'
      | None => mret s
      end) (w, bw) (λ x s',
    let ref s bs := ok_or (stream_run next last s a bs r) Aead in
    evolves (changes (f_ino (bw_file bw)) (w_fs w)) w s'.1 ∧
    f_ino (bw_file s'.2) = f_ino (bw_file bw) ∧
    match x with
    | Ok s1 => ∃ ms, bw_at s'.1 s'.2 (c ++ concat ms) ∧
        ref s (option_list pending ++ bs) = '(ms', mr) ← ref s1 bs; Ok (ms ++ ms', mr)
    | Err e => ∀ ok, step_post (λ p, c ++ flat p) (ref s (option_list pending ++ bs)) ok w bw (Err e) s'
    end).
Proof.
  intros Hbw Ho. destruct pending as [prev|]; cbn [option_list app].
  - apply wp_bind, wp_lift. destruct (next s _) as [[m s1]|] eqn:Hm; cbn [ok_or].
    + apply wp_bind.
      eapply wp_mono; [apply (bw_write_step (λ p, c ++ flat p) (ok_or (stream_run next last s a (prev :: bs) r) Aead));
        [|done..]|].
      { simpl. rewrite Hm. simpl. destruct (stream_run next last s1 a bs r) as [[ms mr]|]; [|done].
        intros p [= <-]. unfold flat. cbn [fst snd concat]. rewrite <-!app_assoc.
        by apply prefix_app, prefix_app_r. }
      intros [u|e] s' (Hev & Hi & Hr); [|done]. apply wp_ret.
      split_and!; [done|done|]. exists [m]. simpl. rewrite app_nil_r, Hm. split; [done|].
      simpl. by destruct (stream_run next last s1 a bs r) as [[ms mr]|].
    + split_and!; [by apply evolves_refl|done|]. intros ok.
      split_and!; [by apply evolves_refl|done| |right; simpl; by rewrite Hm].
      exists c. split; [done|]. simpl. by rewrite Hm.
  - apply wp_ret. split_and!; [by apply evolves_refl|done|]. exists [].
    rewrite app_nil_r. split; [done|]. cbn [option_list app]. rsimpl.
    change (option_list None ++ bs) with bs. by destruct (stream_run next last s a bs r) as [[ms mr]|].
Qed.

(** Writing out the last segment, after the segments [ms]. *)
Lemma last_spec s ms l w bw c :
  bw_at w bw (c ++ concat ms) → owned (f_ino (bw_file bw)) (w_fs w) →
  wp (out ← io_lift (ok_or (last s {| msg := l; aad := a |}) Aead);
      io_err (bw_write_all out)) (w, bw)
    (step_post (λ p, c ++ flat p)
               ('(ms', mr) ← ok_or (stream_run next last s a [] l) Aead; Ok (ms ++ ms', mr))
               (λ p s', bw_at s'.1 s'.2 (c ++ flat p)) w bw).
Proof.
  intros Hbw Ho. cbn [stream_run]. apply wp_bind, wp_lift.
  destruct (last s _) as [m|]; rsimpl; simpl.
  - assert (∀ p, (Ok (ms ++ [], m) : Result (list bytes * bytes)) = Ok p → (c ++ concat ms) ++ m = c ++ flat p) as Hp.
    { intros p [= <-]. unfold flat. cbn [fst snd]. by rewrite app_nil_r, app_assoc. }
    eapply wp_mono; [eapply (bw_write_step (λ p, c ++ flat p) (Ok (ms ++ [], m))); [|done..]|].
    { by intros p ->%Hp. }
    intros [u|e] s' (Hev & Hi & Hx); [|apply Hx].
    split_and!; [done|done|eexists; split; [exact Hx|by intros p ->%Hp]|].
    eexists. split; [done|]. by rewrite <-Hp.
  - split_and!; [by apply evolves_refl|done|by eexists|by right].
Qed.

(** Writing out the chunk held back, and going on. *)
Lemma pending_then s pending bs r w bw c (k : St → io (world * BufWriter) FilumCryptoError unit)
    (ok : list bytes * bytes → world * BufWriter → Prop) :
  let run s bs := ok_or (stream_run next last s a bs r) Aead in
  bw_at w bw c → owned (f_ino (bw_file bw)) (w_fs w) →
  (∀ s1 ms w2 bw2, evolves (changes (f_ino (bw_file bw)) (w_fs w)) w w2 →
     f_ino (bw_file bw2) = f_ino (bw_file bw) → owned (f_ino (bw_file bw2)) (w_fs w2) →
     bw_at w2 bw2 (c ++ concat ms) →
     wp (k s1) (w2, bw2) (step_post (λ p, c ++ flat p) ('(ms', mr) ← run s1 bs; Ok (ms ++ ms', mr)) ok w2 bw2)) →
  wp (s1 ← match pending with
           | Some prev =>
               '(out, s') ← io_lift (ok_or (next s {| msg := prev; aad := a |}) Aead);
               _ ← io_err (bw_write_all out);
               mret s'
           | None => mret s
           end; k s1) (w, bw) (step_post (λ p, c ++ flat p) (run s (option_list pending ++ bs)) ok w bw).
Proof.
  intros run Hbw Ho Hk. apply wp_bind. eapply wp_mono; [by apply (pending_spec s pending bs r)|].
  intros [s1|e] [w2 bw2] (Hev2 & Hi2 & Hx); [|done]. cbn [fst snd] in Hev2, Hi2.
  destruct Hx as (ms & Hbw2 & Href). subst run. cbv beta. rewrite Href.
  eapply (wp_mono _ _ (step_post _ _ _ w2 bw2)); [|intros r0 s0; by apply step_post_trans].
  apply Hk; [done|done| |done]. rewrite Hi2. by eapply evolves_owned.
Qed.

(** The loop never runs out of fuel and writes exactly the reference, provided the file it
    reads is exhausted or is not the one it writes. *)
Lemma stream_loop_spec fuel fin s pending w bw c :
  bw_at w bw c → owned (f_ino (bw_file bw)) (w_fs w) → frozen (br_ino fin) →
  rest (w_fs w) fin = [] ∨ br_ino fin ≠ f_ino (bw_file bw) →
  length (rest (w_fs w) fin) < fuel →
  wp (stream_loop next last n a fuel fin s pending) (w, bw)
    (step_post (λ p, c ++ flat p) (loop_ref next last n a s pending (rest (w_fs w) fin))
               (λ p s', bw_at s'.1 s'.2 (c ++ flat p)) w bw).
Proof.
  revert fin s pending w bw c.
  induction fuel as [|fuel IH]; intros fin s pending w bw c Hbw Ho Hfr Hne Hfuel; [lia|].
  cbn [stream_loop]. apply wp_bind, wp_fst. eapply wp_mono; [by apply read_full_spec|].
  intros x w1 [Hev1 Hx]. pose proof (ev_fs _ _ _ Hev1) as Hfs1.
  pose proof (bw_at_rely _ _ _ _ Hfs1 Ho Hbw) as Hbw1.
  pose proof (proj1 (owned_rely _ _ _ Ho Hfs1)) as Ho1.
  assert (evolves (changes (f_ino (bw_file bw)) (w_fs w)) w w1) as Hev.
  { eapply evolves_mono; [done|]. intros fs. apply changes_rely. }
  destruct x as [[chunk fin']|e].
  2: { destruct Hx as [-> Hc]. split_and!; [done|done| |by left].
       exists c. split; [done|]. intros p _. by apply prefix_app_r. }
  destruct Hx as (-> & Hrest & Hino). set (l := rest (w_fs w) fin) in *.
  destruct (blocks n l) as [bs r] eqn:Hbl. unfold loop_ref. rewrite Hbl. cbn [fst snd].
  eapply (wp_mono _ _ (step_post _ _ _ w1 bw)); [|intros r0 s0; by apply step_post_trans].
  destruct (decide (length l < n)) as [Hlt|Hge].
  - rewrite blocks_short in Hbl by done. injection Hbl as <- <-.
    apply (pending_then s pending [] l w1 bw c); [done..|]. intros s1 ms w2 bw2 _ _ Ho2 Hbw2.
    rewrite length_take, (proj2 (Nat.ltb_lt _ _)), take_ge by lia. by apply last_spec.
  - assert (n ≤ length l) as Hle by lia.
    rewrite blocks_step in Hbl by done.
    destruct (blocks n (drop n l)) as [bs' r'] eqn:Hbl'. injection Hbl as <- <-.
    apply (pending_then s pending (take n l :: bs') r' w1 bw c); [done..|]. intros s1 ms w2 bw2 Hev2 Hi2 Ho2 Hbw2.
    rewrite length_take, (proj2 (Nat.ltb_ge _ _)) by lia.
    destruct Hne as [Hl|Hne]; [rewrite Hl in Hle; simpl in Hle; lia|].
    assert (rest (w_fs w2) fin' = drop n l) as Hrest2.
    { rewrite (rest_changes (f_ino (bw_file bw)) (w_fs w1)); [|apply Hev2|by rewrite Hino|congruence].
      by rewrite (rest_frozen fin' (w_fs w)) by (rewrite ?Hino; done). }
    eapply wp_mono; [apply IH; [done|done|by rewrite Hino|right; simpl in *; congruence|]|].
    { rewrite Hrest2, length_drop. lia. }
    rewrite Hrest2. unfold loop_ref. rewrite Hbl'. cbn [fst snd].
    change (option_list (Some (take n l)) ++ bs') with (take n l :: bs').
    assert (∀ ms' mr, (c ++ concat ms) ++ flat (ms', mr) = c ++ flat (ms ++ ms', mr)) as Hflat.
    { intros ms' mr. unfold flat. cbn [fst snd]. by rewrite concat_app, <-!app_assoc. }
    intros r0 s0 (Hev3 & Hi3 & (c' & Hc3 & Hp3) & Hr3). split_and!; [done|done| |].
    { exists c'. split; [done|]. revert Hp3.
      destruct (ok_or (stream_run next last s1 a (take n l :: bs') r') Aead) as [[ms' mr]|]; [|done].
      intros Hp3 p [= <-]. rewrite <-Hflat. by apply Hp3. }
    destruct r0 as [u|e].
    + destruct Hr3 as ([ms' mr] & -> & Hw). eexists. split; [done|].
      by rewrite <-Hflat.
    + destruct Hr3 as [?| ->]; [by left|by right].
Qed.

End stream.

End loops.

(** ** Witnesses *)

Definition plain_path : Path := path_of_str (lit "/data/plain.bin").
Definition blob_path : Path := path_of_str (lit "/data/x.blob").

Definition plain_world : world := world_with (toy_gen 1) plain_path (lit "some data") choppy.

(** An interrupted read: retried by [read_exact], an error for [read_full]. *)
Example read_full_interrupted :
  let w := world_with (toy_gen 1) plain_path (lit "some data") [Intr] in
  let r := BufReader_new {| f_ino := 0; f_pos := 0 |} in
  match run (read_exact r 4 w), run (read_full r 4 w) with
  | Some (Ok (d, _), _), Some (Err e, _) => d = lit "some" ∧ e = Errors.Io
  | _, _ => False
  end.
Proof. by vm_compute. Qed.

Lemma read_full_delivers_witness :
  let r := BufReader_new {| f_ino := 0; f_pos := 0 |} in
  frozen (br_ino r) ∧
  wp (read_full r 4) plain_world (λ a w', evolves (rely (w_fs plain_world)) plain_world w' ∧
    match a with
    | Ok (d, r') => d = take 4 (rest (w_fs plain_world) r) ∧
                    rest (w_fs plain_world) r' = drop 4 (rest (w_fs plain_world) r) ∧
                    br_ino r' = br_ino r
    | Err e => e = Errors.Io ∧ ¬ calm plain_world
    end).
Proof. split; [apply alone_frozen|apply read_full_delivers, alone_frozen]. Defined.
