(* ===== verification/EncryptFile.v ===== *)
(** * Encryption from file to file

    [encrypt_file_chunked] writes its output in place. The specification of the encoder is proved
    once, against an interface of what the output file is to the other processes ([InPlace]); the
    theorems on a process that is alone follow from its sequential instance. *)

From S2P Require Import Prelude Ints Errors Prims Toy Aad Segments Blob Path Process Io IoSpec.
From S2P Require Import BlobFile.
From Stdlib Require Import ZArith Lia.

(** ** The body of the encoder *)

Section encrypt_body.
Context `{OsRng, AesGcm, !Interference}.

(** The body once both files are open. *)
Lemma encrypt_body_spec fin fout hdr seg_aad e w :
  file_at w fout [] → owned (f_ino fout) (w_fs w) → frozen (f_ino fin) →
  ino_data (w_fs w) (f_ino fin) = [] ∨ f_ino fin ≠ f_ino fout →
  length hdr < BUF_SIZE → f_pos fin = 0 →
  wp (scoped (BufWriter_new fout) bw_drop (
      _ ← io_err (bw_write_all hdr);
      fuel ← io_fst (loop_fuel fin);
      _ ← stream_loop encrypt_next encrypt_last CHUNK_SIZE seg_aad fuel (BufReader_new fin) e None;
      io_err bw_flush)) w
    (λ r w', evolves (changes (f_ino fout) (w_fs w)) w w' ∧
      let ref := loop_ref encrypt_next encrypt_last CHUNK_SIZE seg_aad e None
                   (ino_data (w_fs w) (f_ino fin)) in
      match r with
      | Ok _ => ∃ p x, ref = Ok p ∧ fs_ino (w_fs w') !! f_ino fout = Some x ∧
                       i_data x = hdr ++ flat p
      | Err e => ((e = Io ∧ faulted w w') ∨ ref = Err e) ∧
                 ∃ x, fs_ino (w_fs w') !! f_ino fout = Some x ∧
                      ∀ p, ref = Ok p → i_data x `prefix_of` hdr ++ flat p
      end).
Proof.
  intros Hf Ho Hfr Hne Hhdr Hpos. apply wp_scoped. set (ref := loop_ref _ _ _ _ _ _ _).
  set (ok := λ (p : list bytes * bytes) (s' : world * BufWriter),
    bw_at s'.1 s'.2 (hdr ++ flat p) ∧ bw_buf s'.2 = []).
  eapply (wp_mono _ _ (step_post (λ p, hdr ++ flat p) ref ok w (BufWriter_new fout))); last first.
  { intros r [w' bw'] (Hev & Hi & (c & Hc & Hpre) & Hr). simpl in *.
    eapply wp_mono; [eapply bw_drop_spec; [done|rewrite Hi; by eapply evolves_owned]|].
    intros _ w2 (Hev2 & Hnil2 & y & Hy & Hyp). rewrite Hi in Hev2, Hy. split; [by eapply evolves_changes|].
    destruct r as [u|e'].
    2: { split; [destruct Hr as [[-> ?]|?]; [left; split; [done|by eapply faulted_to]|by right]|].
         exists y. split; [done|]. intros p Hp. etrans; [exact Hyp|by apply Hpre]. }
    destruct Hr as (p & Href & (c0 & (x & Hx & Hd & _) & Hcat) & Hnil).
    rewrite (Hnil2 Hnil). simpl in *. rewrite Hnil, app_nil_r in Hcat. rewrite Hi in Hx.
    exists p, x. by subst. }
  apply wp_bind, wp_io_err. eapply wp_done; [by apply bw_write_all_small|done|].
  set (bw := {| bw_file := fout; bw_buf := hdr |}).
  assert (bw_at w bw hdr) as Hbw by by exists [].
  apply wp_bind, wp_fst. eapply wp_done; [done..|]. cbn beta iota zeta.
  assert (rest (w_fs w) (BufReader_new fin) = ino_data (w_fs w) (f_ino fin)) as Hrest.
  { unfold rest. simpl. by rewrite Hpos, drop_0. }
  apply wp_bind. eapply wp_mono;
    [apply (stream_loop_spec _ _ _ _ CHUNK_SIZE_pos _ _ _ _ _ _ hdr); rewrite ?Hrest; [done|done|done|done|lia]|].
  rewrite Hrest. intros [u|e'] [w1 bw1] (Hev & Hi & Hc & Hr); [|by split_and!].
  destruct Hr as (p & Href & Hbw1). simpl in Hi, Hev.
  assert (∀ c' q, c' `prefix_of` hdr ++ flat p → ref = Ok q → c' `prefix_of` hdr ++ flat q) as Hpre.
  { intros c' q Hc' Hq. unfold ref in Hq. rewrite Href in Hq. by injection Hq as <-. }
  apply wp_io_err. eapply wp_mono.
  { apply bw_flush_spec; [done|]. rewrite Hi. by eapply evolves_owned. }
  intros [[]|e'] s' [(Hev2 & Hi2 & Hx) Hnil]; apply (step_post_trans _ _ _ w bw w1 bw1 _ _ Hev Hi).
  - split_and!; [done|done|eexists; split; [exact Hx|intros q; by apply Hpre]|].
    exists p. split; [done|]. split; [done|]. by apply Hnil.
  - destruct Hx as [(c' & Hc' & Hp) Hfault]. split_and!; [done|done| |by left].
    exists c'. split; [done|]. intros q. by apply Hpre.
Qed.

(** The reference of the loop is the body of the in-memory frame. *)
Lemma loop_ref_frame dk np a pt p :
  loop_ref encrypt_next encrypt_last CHUNK_SIZE a (enc_from_aead (aes_new dk) np) None pt = Ok p →
  frame_body dk np a pt = Some (flat p).
Proof.
  unfold loop_ref, frame_body. rewrite seal_run. cbn [option_list app].
  change (option_list None ++ (blocks CHUNK_SIZE pt).1) with (blocks CHUNK_SIZE pt).1.
  destruct (stream_run _ _ _ _ _ _); simpl; congruence.
Qed.

Lemma loop_ref_frame_err dk np a pt e :
  loop_ref encrypt_next encrypt_last CHUNK_SIZE a (enc_from_aead (aes_new dk) np) None pt = Err e →
  e = Aead ∧ frame_body dk np a pt = None.
Proof.
  unfold loop_ref, frame_body. rewrite seal_run.
  change (option_list None ++ (blocks CHUNK_SIZE pt).1) with (blocks CHUNK_SIZE pt).1.
  destruct (stream_run _ _ _ _ _ _); simpl; [done|]. by intros [= <-].
Qed.

End encrypt_body.

(** ** Writing a file in place *)

(** What the file system is while a process encrypts [input], of which it will see [seen], to
    [output]: [Before] the output has been created, and then with the inode that the process
    [Owns]. The laws say that nobody else disturbs a phase, and that the steps of the process are
    within its guarantee. *)
Class InPlace `{Interference} (input output : Path) (seen : bytes) := {
  Before : filesys → Prop;
  Owns : nat → filesys → Prop;
  before_rely fs fs' : Before fs → rely fs fs' → Before fs';
  before_frozen fs j : Before fs → fs_dir fs !! input = Some j → frozen j;
  before_sees fs1 fs2 fs3 i j :
    Before fs1 → fs_dir fs1 !! input = Some j → rely fs1 fs2 → creates output i fs2 fs3 →
    ino_data fs3 i = [] → ino_data fs3 j = seen ∧ (seen = [] ∨ j ≠ i);
  before_create fs i fs' : Before fs → creates output i fs fs' → guar fs fs' ∧ Owns i fs';
  owns_owned i fs : Owns i fs → owned i fs;
  owns_rely i fs fs' : Owns i fs → rely fs fs' → Owns i fs';
  owns_only i fs fs' : Owns i fs → only i fs fs' → Owns i fs';
}.

Section in_place.
Context `{OsRngLaws, AesGcm, !Interference}.
Context (input output : Path) (seen wk : bytes) (id : str) `{!InPlace input output seen}.

Definition encrypting (fs : filesys) : Prop := Before fs ∨ ∃ i, Owns i fs.

Lemma owns_changes i fs fs' : changes i fs fs' → Owns i fs → Owns i fs'.
Proof.
  induction 1 as [|fs1 fs2 fs3 [Hr|Ho] _ IH]; [done|..]; intros Ht; apply IH.
  - by eapply owns_rely.
  - by eapply owns_only.
Qed.

(** How [encrypt_file_chunked] ends. *)
Definition in_place_post (w : world) (r : Result unit) (w' : world) : Prop :=
  let '(ref, g) := encrypt_chunked seen wk id (w_rng w) in
  w_rng w' = g ∧ evolves encrypting w (set_rng (w_rng w) w') ∧
  match r with
  | Ok _ => (∃ fs, Before fs ∧ is_Some (fs_dir fs !! input)) ∧
            ∃ framed i x, ref = Ok framed ∧ Owns i (w_fs w') ∧
                          fs_ino (w_fs w') !! i = Some x ∧ i_data x = framed
  | Err e =>
      (ref = Err e ∨ e = Io ∧ (calm w → Before (w_fs w') ∧ ∃ fs, Before fs ∧ fs_dir fs !! input = None)) ∧
      (Before (w_fs w') ∨
       (e = Io ∨ e = Aead) ∧ ∃ i x, Owns i (w_fs w') ∧ fs_ino (w_fs w') !! i = Some x ∧
         ∀ framed, ref = Ok framed → i_data x `prefix_of` framed)
  end.

(** Opening the input and creating the output, before any continuation. *)
Lemma wp_open_create {B} w (k : File → File → io world FilumCryptoError B) Q :
  Before (w_fs w) →
  (∀ fin fout fs w', evolves encrypting w w' → Before fs → fs_dir fs !! input = Some (f_ino fin) →
     f_pos fin = 0 → frozen (f_ino fin) → file_at w' fout [] → Owns (f_ino fout) (w_fs w') →
     ino_data (w_fs w') (f_ino fin) = seen → seen = [] ∨ f_ino fin ≠ f_ino fout →
     wp (k fin fout) w' Q) →
  (∀ w', evolves encrypting w w' → Before (w_fs w') →
     (calm w → ∃ fs, Before fs ∧ fs_dir fs !! input = None) → Q (Err Io) w') →
  wp (fin ← io_err (file_open input); fout ← io_err (file_create output); k fin fout) w Q.
Proof.
  intros Hw Hk He. apply wp_bind, wp_io_err. eapply wp_mono; [apply file_open_spec|].
  intros r w2 [Hev2 Hopen]. pose proof (ev_fs _ _ _ Hev2) as Hr2.
  pose proof (before_rely _ _ Hw Hr2) as Hb2.
  assert (evolves encrypting w w2) as Hev.
  { eapply evolves_mono; [done|]. intros fs Hr. left. exact (before_rely _ _ Hw Hr). }
  destruct r as [fin|e]; [|apply He; [done|done|]; intros Hc; exists (w_fs w2); split; [done|by apply Hopen]].
  destruct Hopen as [Hin Hpos]. apply wp_bind, wp_io_err. eapply wp_mono.
  { apply file_create_spec. intros i fs fs' Hr Hc.
    exact (proj1 (before_create _ _ _ (before_rely _ _ Hb2 Hr) Hc)). }
  intros r w3 (found & Hr & Hcr). pose proof (before_rely _ _ Hb2 Hr) as Hfound. destruct r as [fout|e].
  - destruct Hcr as (Hev3 & Hcr & Hf). destruct (before_create _ _ _ Hfound Hcr) as [_ Howns].
    assert (ino_data (w_fs w3) (f_ino fout) = []) as Hnil.
    { destruct Hf as (x & Hx & Hxd & _). unfold ino_data. by rewrite Hx. }
    destruct (before_sees _ _ _ _ _ Hb2 Hin Hr Hcr Hnil) as [Hsees Hne].
    apply (Hk _ _ (w_fs w2)); try done; [|exact (before_frozen _ _ Hb2 Hin)].
    eapply evolves_trans; [done..|]. intros fs [->|Hc]; [by left|].
    right. exists (f_ino fout). exact (proj2 (before_create _ _ _ Hfound Hc)).
  - destruct Hcr as [Hev3 Hc]. apply He.
    + eapply evolves_trans; [done..|]. intros fs <-. by left.
    + by rewrite <-(ev_fs _ _ _ Hev3).
    + intros Hcalm. destruct (faulted_calm _ _ Hc). by eapply evolves_calm.
Qed.

(** The outcome of the function, in any environment that lets it write its output. *)
Lemma encrypt_in_place w :
  Before (w_fs w) → wp (encrypt_file_chunked input output wk id) w (in_place_post w).
Proof.
  intros Hw. unfold in_place_post. rewrite encrypt_chunked_eq.
  unfold encrypt_file_chunked. apply wp_bind, wp_lift.
  destruct (blob_segment_aad id) as [a|e]; [|split_and!; [done| |by left|by left]].
  2: { apply evolves_forget_rng, evolves_refl. by left. }
  apply wp_bind, wp_io_rng. intros r1 g1 Hkeys. rewrite Hkeys.
  assert (∀ w', evolves encrypting (set_rng g1 w) w' →
    w_rng w' = g1 ∧ evolves encrypting w (set_rng (w_rng w) w')) as Hev1.
  { intros w' Hev. split; [apply Hev|by eapply evolves_set_rng]. }
  destruct r1 as [[[dk np] wr]|e].
  2: { destruct (Hev1 (set_rng g1 w)); [by apply evolves_refl; left|]. by split_and!; [..|left|left]. }
  apply new_blob_keys_inv in Hkeys as (_ & Hnp & Hwr & _).
  apply wp_open_create; [done| |].
  2: { intros w' Hev Hb Hio. destruct (Hev1 _ Hev). split_and!; [done|done| |by left].
       right. split; [done|]. intros Hc. split; [done|by apply Hio]. }
  intros fin fout fs w2 Hev Hfs Hin Hpos Hfr Hf Ho Hsees Hne. eapply wp_mono.
  { apply encrypt_body_spec; [done|by eapply owns_owned|done|by rewrite Hsees| |done].
    rewrite write_header_length, BUF_SIZE_eq by done. layout_lia. }
  rewrite Hsees. intros r w3 [Hev3 Hr]. pose proof (owns_changes _ _ _ (ev_fs _ _ _ Hev3) Ho) as Ho3.
  destruct (Hev1 w3) as [Hrng Hall].
  { eapply evolves_trans; [done..|]. intros fs' Hc. right. exists (f_ino fout). by eapply owns_changes. }
  split_and!; [done..|]. destruct r as [u|e].
  - destruct Hr as (p & x & Href & Hx & Hxd). apply loop_ref_frame in Href. rewrite Href.
    split; [by exists fs; split; [|eexists]|]. by eexists _, (f_ino fout), x.
  - destruct Hr as [Hr (x & Hx & Hpre)]. split.
    + destruct Hr as [[-> Hc]|Href]; [right|left].
      * split; [done|]. intros Hcalm. destruct (faulted_calm _ _ Hc). by eapply (evolves_calm _ (set_rng g1 w)).
      * by apply loop_ref_frame_err in Href as [-> ->].
    + right. split; [destruct Hr as [[-> _]|[-> _]%loop_ref_frame_err]; auto|].
      exists (f_ino fout), x. split_and!; [done|done|]. intros framed Hframed.
      destruct (loop_ref _ _ _ _ _ _ _) as [p|e'] eqn:Href.
      * rewrite (loop_ref_frame _ _ _ _ _ Href) in Hframed. simpl in Hframed. injection Hframed as <-.
        by apply Hpre.
      * apply loop_ref_frame_err in Href as [_ Hnone]. rewrite Hnone in Hframed. discriminate Hframed.
Qed.

End in_place.

(** ** A process that is alone *)

Section alone_in_place.
Context (input output : Path) (seen : bytes) (fs0 : filesys)
  (Hsee : ∀ i j fs', fs_dir fs0 !! input = Some i → creates output j fs0 fs' →
     ino_data fs' j = [] → ino_data fs' i = seen ∧ (seen = [] ∨ i ≠ j)).

Definition rewritten (i : nat) (fs : filesys) : Prop :=
  ∃ fs1, creates output i fs0 fs1 ∧ only i fs1 fs.

#[local] Program Instance sequential_in_place : InPlace input output seen := {|
  Before := eq fs0; Owns := rewritten;
|}.
Next Obligation. by intros fs fs' -> ->. Qed.
Next Obligation. intros fs j _ _. apply alone_frozen. Qed.
Next Obligation. intros fs1 fs2 fs3 i j <- Hj <- Hc Hnil. by apply Hsee. Qed.
Next Obligation. intros fs i fs' <- Hc. split; [done|]. by exists fs'. Qed.
Next Obligation. done. Qed.
Next Obligation. by intros i fs fs' ? <-. Qed.
Next Obligation. intros i fs fs' (fs1 & Hc & Ho) Ho'. exists fs1. split; [done|by etrans]. Qed.

End alone_in_place.

Section encrypt_file_theorems.
Context `{OsRngLaws, AesGcm}.

(** What an error of the file encoder says, [ref] being the result of [encrypt_chunked]. It is the
    error of [encrypt_chunked], or [Io]: if no system call failed, [Io] means that the input is
    missing, and nothing is changed. The files are as they were, unless the error is [Io] or [Aead]:
    then the output may have been created, and holds a prefix of the frame. *)
Definition encrypt_failed (w : world) (input output : Path) (ref : Result bytes)
    (e : FilumCryptoError) (w' : world) : Prop :=
  (ref = Err e ∨
   e = Io ∧ (calm w → contents (w_fs w) input = None ∧ w_fs w' = w_fs w)) ∧
  (w_fs w' = w_fs w ∨
   (e = Io ∨ e = Aead) ∧
   ∃ written, contents (w_fs w') output = Some written ∧
     ∀ framed, ref = Ok framed → written `prefix_of` framed).

(** The file encoder, [pt] being what it sees of the input file once the output file has been
    created. *)
Lemma encrypt_file_spec input output wk id w pt :
  fs_ok (w_fs w) →
  (∀ i j fs', fs_dir (w_fs w) !! input = Some i → creates output j (w_fs w) fs' →
     ino_data fs' j = [] → ino_data fs' i = pt ∧ (pt = [] ∨ i ≠ j)) →
  wp (encrypt_file_chunked input output wk id) w (λ r w',
    let '(ref, g) := encrypt_chunked pt wk id (w_rng w) in
    w_rng w' = g ∧
    (∀ q, q ≠ output → distinct_files (w_fs w) output q →
          contents (w_fs w') q = contents (w_fs w) q) ∧
    match r with
    | Ok _ => is_Some (contents (w_fs w) input) ∧
              ∃ framed, ref = Ok framed ∧ contents (w_fs w') output = Some framed
    | Err e => encrypt_failed w input output ref e w'
    end).
Proof.
  intros Hok Hsee. eapply wp_mono; [apply (encrypt_in_place input output pt wk id
    (InPlace0 := sequential_in_place input output pt (w_fs w) Hsee)); reflexivity|].
  intros r w'. unfold in_place_post. destruct (encrypt_chunked pt wk id (w_rng w)) as [ref g].
  intros (Hg & Hev & Hr). split; [done|]. split.
  - intros q Hq Hd. destruct (ev_fs _ _ _ Hev) as [Heq|(i & fs1 & Hc & Ho)]; simpl in *.
    + by rewrite <-Heq.
    + by eapply creates_write_contents.
  - destruct r as [u|e].
    + destruct Hr as [(fs & <- & i & Hi) (framed & j & x & Href & (fs1 & Hc & Ho) & Hx & Hxd)].
      rewrite (contents_eq _ _ _ Hok Hi). split; [done|]. exists framed. split; [done|].
      rewrite <-Hxd. by eapply creates_write_target.
    + destruct Hr as [He Hfs]. split.
      * destruct He as [?|[-> Hio]]; [by left|right]. split; [done|]. intros Hc.
        destruct (Hio Hc) as (Hb & fs & <- & Hnone). unfold contents. by rewrite Hnone.
      * destruct Hfs as [Hb|[He' (i & x & (fs1 & Hc & Ho) & Hx & Hpre)]]; [by left|right].
        split; [done|]. exists (i_data x). split; [by eapply creates_write_target|done].
Qed.

(** What the encoder sees of an input that is not the output file: its contents. *)
Lemma sees_input fs input output i j fs' :
  fs_ok fs → distinct_files fs input output →
  fs_dir fs !! input = Some i → creates output j fs fs' →
  ino_data fs' i = default [] (contents fs input) ∧ i ≠ j.
Proof.
  intros Hok Hdist Hin Hcr.
  destruct (creates_distinct _ _ _ _ input Hok Hcr) as [_ Hj];
    [by eapply distinct_files_ne|by apply distinct_files_sym|].
  destruct (Hj _ Hin) as [? Hi]. rewrite (contents_eq _ _ _ Hok Hin). unfold ino_data.
  by rewrite Hi.
Qed.

(** What a caller of the file encoder sees, the output not being the input. *)
Lemma encrypt_file_result input output wk id w :
  fs_ok (w_fs w) → distinct_files (w_fs w) input output →
  wp (encrypt_file_chunked input output wk id) w (λ r w',
    let pt := default [] (contents (w_fs w) input) in
    let '(ref, g) := encrypt_chunked pt wk id (w_rng w) in
    w_rng w' = g ∧
    (∀ q, q ≠ output → distinct_files (w_fs w) output q →
          contents (w_fs w') q = contents (w_fs w) q) ∧
    match r with
    | Ok _ => contents (w_fs w) input = Some pt ∧
              ∃ framed, ref = Ok framed ∧ contents (w_fs w') output = Some framed
    | Err e => encrypt_failed w input output ref e w'
    end).
Proof.
  intros Hok Hdist. eapply wp_mono.
  - apply (encrypt_file_spec _ _ _ _ _ (default [] (contents (w_fs w) input)) Hok).
    intros i j fs' Hin Hcr _. destruct (sees_input _ _ _ _ _ _ Hok Hdist Hin Hcr).
    by split; [|right].
  - intros r w'. cbv zeta. destruct (encrypt_chunked _ _ _ _) as [ref g].
    intros (? & ? & Hr). split_and!; [done..|]. destruct r; [|done].
    destruct Hr as [[x Hx] ?]. by rewrite Hx.
Qed.

(** C4. The file encoder refines the in-memory one, under any schedule of faults. It always
    returns. When it succeeds, the output file holds, byte for byte, what [encrypt_chunked]
    returns for the contents of the input file and the same randomness. When it fails, it fails
    with the error of [encrypt_chunked], or with [Io], the latter only if a system call failed or
    the input file does not exist. No file but the output is changed. *)
Theorem encrypt_file_refines input output wk id w :
  fs_ok (w_fs w) → distinct_files (w_fs w) input output →
  wp (encrypt_file_chunked input output wk id) w (λ r w',
    let pt := default [] (contents (w_fs w) input) in
    let '(ref, g) := encrypt_chunked pt wk id (w_rng w) in
    w_rng w' = g ∧
    (∀ q, q ≠ output → distinct_files (w_fs w) output q →
          contents (w_fs w') q = contents (w_fs w) q) ∧
    match r with
    | Ok _ => contents (w_fs w) input = Some pt ∧
              ∃ framed, ref = Ok framed ∧ contents (w_fs w') output = Some framed
    | Err e => ref = Err e ∨ e = Io ∧ (calm w → contents (w_fs w) input = None)
    end).
Proof.
  intros Hok Hdist. eapply wp_mono; [by apply encrypt_file_result|]. intros r w'. cbv zeta.
  destruct (encrypt_chunked _ _ _ _) as [ref g]. intros (? & ? & Hr). split_and!; [done..|].
  destruct r; [done|]. destruct Hr as [[?|[-> Hc]] _]; [by left|right].
  split; [done|]. intros Hcalm. by apply Hc.
Qed.

(** C22. In place ([input] and [output] the same path, or two links to one file) the encoder destroys
    its input: creating the output truncates the file before the first read, and the result is
    [Ok] with a frame of the empty plaintext. *)
Theorem encrypt_file_in_place_truncates input output wk id w i :
  fs_ok (w_fs w) → fs_dir (w_fs w) !! input = Some i → fs_dir (w_fs w) !! output = Some i →
  wp (encrypt_file_chunked input output wk id) w (λ r w',
    let '(ref, _) := encrypt_chunked [] wk id (w_rng w) in
    match r with
    | Ok _ => ∃ framed, ref = Ok framed ∧ contents (w_fs w') output = Some framed
    | Err e => ref = Err e ∨ e = Io ∧ ¬ calm w
    end).
Proof.
  intros Hok Hin Hout. eapply wp_mono.
  - apply (encrypt_file_spec _ _ _ _ _ [] Hok). intros i' j fs' Hin' (_ & _ & Hor & _) Hj.
    assert (i' = j) as ->; [|by split; [|left]].
    destruct Hor as [?|[? _]]; congruence.
  - intros r w'. destruct (encrypt_chunked _ _ _ _) as [ref g]. intros (_ & _ & Hr).
    destruct r as [u|e]; [by destruct Hr|]. destruct Hr as [[?|[-> Hc]] _]; [by left|right].
    split; [done|]. intros Hcalm. destruct (Hc Hcalm) as [Hnone _]. revert Hnone.
    by rewrite (contents_eq _ _ _ Hok Hin).
Qed.

End encrypt_file_theorems.

(** ** Witnesses *)

Lemma encrypt_file_refines_witness :
  wp (encrypt_file_chunked plain_path blob_path sample_wk (lit "blob-a")) plain_world (λ r w',
    let pt := default [] (contents (w_fs plain_world) plain_path) in
    let '(ref, g) := encrypt_chunked pt sample_wk (lit "blob-a") (w_rng plain_world) in
    w_rng w' = g ∧
    (∀ q, q ≠ blob_path → distinct_files (w_fs plain_world) blob_path q →
          contents (w_fs w') q = contents (w_fs plain_world) q) ∧
    match r with
    | Ok _ => contents (w_fs plain_world) plain_path = Some pt ∧
              ∃ framed, ref = Ok framed ∧ contents (w_fs w') blob_path = Some framed
    | Err e => ref = Err e ∨ e = Io ∧ (calm plain_world → contents (w_fs plain_world) plain_path = None)
    end).
Proof. apply encrypt_file_refines; [apply world_with_ok|by apply world_with_distinct]. Defined.

(** The same run, executed: the file holds the frame of the in-memory encoder. *)
Example encrypt_file_runs :
  match run (encrypt_file_chunked plain_path blob_path sample_wk (lit "blob-a") plain_world) with
  | Some (Ok _, w') => contents (w_fs w') blob_path = Some sample_frame
  | _ => False
  end.
Proof. vm_compute. reflexivity. Qed.

Lemma encrypt_file_in_place_truncates_witness :
  wp (encrypt_file_chunked plain_path plain_path sample_wk (lit "blob-a")) plain_world (λ r w',
    let '(ref, _) := encrypt_chunked [] sample_wk (lit "blob-a") (w_rng plain_world) in
    match r with
    | Ok _ => ∃ framed, ref = Ok framed ∧ contents (w_fs w') plain_path = Some framed
    | Err e => ref = Err e ∨ e = Io ∧ ¬ calm plain_world
    end).
Proof.
  apply (encrypt_file_in_place_truncates _ _ _ _ _ 0); [apply world_with_ok|by vm_compute..].
Defined.

(** The same run, executed: [Ok], and the file is the blob of the empty plaintext. *)
Example encrypt_file_in_place_runs :
  match run (encrypt_file_chunked plain_path plain_path sample_wk (lit "blob-a") plain_world) with
  | Some (Ok _, w') =>
      match contents (w_fs w') plain_path with
      | Some framed => decrypt_chunked framed sample_wk (lit "blob-a") = Ok []
      | None => False
      end
  | _ => False
  end.
Proof. vm_compute. reflexivity. Qed.

