(* ===== verification/Publish.v ===== *)
(** * Decryption to a file, under interference

    What [decrypt_file_chunked] does, proved once for every environment: [Publication] is the
    contract between the function and the processes around it, [decrypt_publication] the proof
    that the function keeps it. [DecryptFile] applies it to a process that is alone,
    [Concurrent] to processes that run at the same time. *)

From S2P Require Import Prelude Ints Errors Prims Toy Aad Segments Blob Path Process Io IoSpec BlobFile.
From Stdlib Require Import ZArith Lia.

(** ** The temporary path *)

Section temp_path.
Context `{OsRngLaws}.

Lemma temp_suffix_no_slash suffix : x2f ∉ temp_suffix suffix.
Proof.
  unfold temp_suffix. rewrite !not_elem_of_app. split_and!.
  - by apply (bool_decide_unpack (x2f ∉ lit ".")); vm_compute.
  - apply hex_fmt_no_slash.
  - by apply (bool_decide_unpack (x2f ∉ lit ".part")); vm_compute.
Qed.

Lemma temp_name_valid name suffix : valid_name name → valid_name (name ++ temp_suffix suffix).
Proof.
  intros (Hs & Hn & _). split.
  - rewrite not_elem_of_app. split; [done|apply temp_suffix_no_slash].
  - assert (3 ≤ length (name ++ temp_suffix suffix)) as Hl.
    { unfold temp_suffix. rewrite !length_app. change (length (lit ".part")) with 5. lia. }
    split_and!; intros Heq; rewrite Heq in Hl; simpl in Hl; lia.
Qed.

Lemma sibling_temp_path_inv output g tmp g' :
  Forall component_ok output → sibling_temp_path output g = (Ok tmp, g') →
  ∃ name suffix, file_name output = Some name ∧ length suffix = 8 ∧
    try_fill_bytes 8 g = (Some suffix, g') ∧
    tmp = parent output ++ [Normal (name ++ temp_suffix suffix)].
Proof.
  intros Hout. unfold sibling_temp_path. rsimpl. destruct (os_fill 8 g) as [r g1] eqn:Hg.
  apply os_fill_inv in Hg as [(suffix & -> & Hlen & Hg)|[-> _]]; [|done].
  destruct (file_name output) as [name|] eqn:Hname; [|done]. intros [= <- <-].
  exists name, suffix. split_and!; [done|done|done|].
  apply (with_file_name_eq _ name); [done|]. apply temp_name_valid, (file_name_ok output); done.
Qed.

Lemma temp_path_ne output name suffix :
  file_name output = Some name → parent output ++ [Normal (name ++ temp_suffix suffix)] ≠ output.
Proof.
  intros Hn%file_name_Some. rewrite Hn at 2. intros [_ Heq]%app_inj_2; [|done].
  injection Heq as Heq. apply (f_equal length) in Heq. rewrite length_app in Heq.
  unfold temp_suffix in Heq. rewrite !length_app in Heq.
  change (length (lit ".part")) with 5 in Heq. lia.
Qed.

(** C20. The temporary file lives in the directory of the output file, so that the rename never
    crosses a file system; it is never the output file itself; and two different random suffixes
    give two different paths. *)
Theorem sibling_temp_path_properties output g1 tmp1 g1' g2 tmp2 g2' :
  Forall component_ok output →
  sibling_temp_path output g1 = (Ok tmp1, g1') →
  sibling_temp_path output g2 = (Ok tmp2, g2') →
  parent tmp1 = parent output ∧ Forall component_ok tmp1 ∧ tmp1 ≠ output ∧
  (tmp1 = tmp2 → (try_fill_bytes 8 g1).1 = (try_fill_bytes 8 g2).1).
Proof.
  intros Hout H1 H2.
  apply sibling_temp_path_inv in H1 as (n & s1 & Hn & Hl1 & Hg1 & ->); [|done].
  apply sibling_temp_path_inv in H2 as (n' & s2 & Hn' & Hl2 & Hg2 & ->); [|done].
  assert (n' = n) as -> by congruence. rewrite Hg1, Hg2. simpl.
  pose proof (file_name_ok _ _ Hout Hn) as Hvalid. apply file_name_Some in Hn.
  split_and!.
  - apply removelast_last.
  - rewrite Hn in Hout. apply Forall_app in Hout as [Hp _]. apply Forall_app. split; [done|].
    repeat constructor; by apply temp_name_valid.
  - by apply temp_path_ne, file_name_Some.
  - intros [_ Heq]%app_inj_2; [|done]. injection Heq as Heq%app_inv_head.
    unfold temp_suffix in Heq. apply app_inv_head, app_inv_tail in Heq.
    f_equal. by apply fmt_016x_inj.
Qed.

End temp_path.

(** ** The file decoder and the in-memory decoder *)

Section reference.
Context `{AesGcmLaws}.

(** The header is all that [open_header] looks at. *)
Lemma open_header_app header body wk id :
  length header = HEADER_LEN → open_header (header ++ body) wk id = open_header header wk id.
Proof.
  intros Hl. unfold open_header. rewrite !slice_app_le by layout_lia.
  by rewrite lookup_app_l by layout_lia.
Qed.

Lemma open_header_chunk header wk id dk np n :
  open_header header wk id = Ok (dk, np, n) → n = CHUNK_SIZE + TAG_LEN.
Proof.
  unfold open_header. case_bool_decide; [done|]. cbv zeta.
  destruct (Z.eqb_spec (u32_from_be_bytes (slice header (1 + WRAPPED_KEY_LEN + NONCE_PREFIX_LEN)
    (1 + WRAPPED_KEY_LEN + NONCE_PREFIX_LEN + 4))) chunk_size_int) as [->|]; [|done].
  cbn [negb]. destruct (blob_wrap_aad _ _ _ _) as [wa|]; rsimpl; [|done].
  destruct (unwrap_data_key _ _ _); [|done]. rewrite chunk_size_int_eq, Nat2Z.id. unfold TAG_LEN. congruence.
Qed.

(** The bodies on which the two decoders may differ: a whole number of full-size segments. *)
Definition whole_segments (framed : bytes) : Prop :=
  HEADER_LEN < length framed ∧ (length framed - HEADER_LEN) mod (CHUNK_SIZE + TAG_LEN) = 0.

(** The reference of the loop of the file decoder is the in-memory decoder, except that it
    always refuses a body of whole segments. *)
Lemma loop_ref_decrypt header body wk id a dk np n :
  length header = HEADER_LEN → blob_segment_aad id = Ok a →
  open_header header wk id = Ok (dk, np, n) →
  match loop_ref decrypt_next decrypt_last n a (dec_from_aead (aes_new dk) np) None body with
  | Ok p => decrypt_chunked (header ++ body) wk id = Ok (flat p) ∧ ¬ whole_segments (header ++ body)
  | Err e => e = Aead ∧ (decrypt_chunked (header ++ body) wk id = Err Aead ∨
                         whole_segments (header ++ body))
  end.
Proof.
  intros Hl Ha Hopen. pose proof (open_header_chunk _ _ _ _ _ _ Hopen) as Hn.
  pose proof CHUNK_SIZE_pos as Hcs. assert (0 < n) as Hpos by lia.
  unfold loop_ref. rewrite <-unseal_run.
  change (option_list None ++ (blocks n body).1) with (blocks n body).1.
  unfold decrypt_chunked. rewrite Ha. rsimpl.
  rewrite length_app, (proj2 (Nat.ltb_ge _ _)), open_header_app, Hopen by lia.
  rewrite <-Hl, drop_app_length, chunks_blocks by done.
  unfold whole_segments. rewrite <-Hl, length_app, Nat.add_comm, Nat.add_sub, <-Hn.
  assert (length body mod n = length (blocks n body).2) as Hmod.
  { destruct (blocks n body) as [bs r] eqn:Hb. apply blocks_cut in Hb as [[Hbs Hr] <-]; [|done].
    rewrite length_app. replace (length (concat bs)) with (length bs * n).
    - rewrite Nat.add_comm, Nat.Div0.mod_add. by apply Nat.mod_small.
    - clear Hr. induction Hbs as [|x bs Hx _ IH]; simpl; [done|]. rewrite length_app. lia. }
  rewrite Hmod. destruct (blocks n body) as [bs r] eqn:Hb. cbn [fst snd]. case_decide as Hr.
  - subst r. rewrite (short_remainder_rejected _ _ _ _ _ _ _ _ (sync_init (aes_new dk) np))
      by (simpl; unfold TAG_LEN; lia).
    split; [done|]. rewrite app_nil_r. destruct bs as [|x bs]; [left|right].
    + by rewrite bool_decide_true.
    + split; [|done]. apply blocks_cut in Hb as [[Hbs _] <-]; [|done].
      apply Forall_cons in Hbs as [Hx _]. simpl. rewrite !length_app. lia.
  - rewrite bool_decide_false by (by destruct bs). rewrite decrypt_chunks_unseal.
    destruct (unseal _ _ _ _) as [p|]; simpl; [|by split; [|left]].
    split; [done|]. intros [_ Hr0]. by apply nil_length_inv in Hr0.
Qed.

End reference.

(** ** The parts of the decoder *)

(** *** The temporary file *)

Section decrypt_body.
Context `{OsRng, AesGcm, !Interference}.

(** Flushing and synchronising: the file is on stable storage with all that was written. *)
Lemma flush_sync_step {A} full (ref : Result A) (ok : A → world * BufWriter → Prop) p w bw c :
  ref = Ok p → full p = c → bw_at w bw c → owned (f_ino (bw_file bw)) (w_fs w) →
  (∀ s', fs_ino (w_fs s'.1) !! f_ino (bw_file bw) = Some {| i_data := c; i_synced := true |} →
         bw_buf s'.2 = [] → ok p s') →
  wp (_ ← io_err bw_flush; io_err bw_sync) (w, bw) (step_post full ref ok w bw).
Proof.
  intros Href Hfull Hbw Ho Hok.
  assert (∀ c' a, c' `prefix_of` c → ref = Ok a → c' `prefix_of` full a) as Hpre.
  { intros c' a Hc' Ha. rewrite Href in Ha. injection Ha as <-. by rewrite Hfull. }
  apply wp_bind, wp_io_err. eapply wp_mono; [by apply bw_flush_spec|].
  intros [[]|e] [w2 bw2] [(Hev2 & Hi2 & Hx) Hnil]; cbn [fst snd] in Hev2, Hi2, Hx, Hnil.
  2: { split_and!; [done|done| |left; by split; [|apply Hx]].
       destruct Hx as [(c' & Hc' & Hp) _]. exists c'. split; [exact Hc'|]. intros a. by apply Hpre. }
  specialize (Hnil eq_refl). pose proof Hx as (c0 & Hf2 & Hcat). rewrite Hnil, app_nil_r in Hcat.
  subst c0. assert (owned (f_ino (bw_file bw2)) (w_fs w2)) as Ho2 by (rewrite Hi2; by eapply evolves_owned).
  apply wp_io_err. apply wp_bind, wp_get_own, wp_fst. cbn [fst snd].
  eapply wp_mono; [by apply sync_all_spec|]. intros r w3 [Hev3 Hr]. rewrite Hi2 in Hev3, Hr.
  pose proof (evolves_changes _ _ _ _ Hev2 Hev3) as Hev. destruct r as [[]|e].
  - split_and!; [done|done| |exists p; split; [done|by apply Hok]].
    exists c. split; [|intros a; by apply Hpre]. exists c. split; [|simpl; by rewrite Hnil, app_nil_r].
    destruct Hf2 as (x & _ & _ & Hpos). eexists. cbn [fst snd]. rewrite Hi2, Hr. by split_and!.
  - destruct Hr as [Hf3 Hc3]. split_and!; [done|done| |].
    + exists c. split; [|intros a; by apply Hpre]. exists c. split; [done|]. simpl. by rewrite Hnil, app_nil_r.
    + left. split; [done|]. exact (faulted_from _ _ _ _ Hev2 Hc3).
Qed.

(** The body of the decoder once the temporary file is open. *)
Lemma decrypt_body_spec f fin fout n seg_aad d w :
  0 < n → file_at w fout [] → owned (f_ino fout) (w_fs w) → frozen (f_ino f) →
  br_ino fin = f_ino f → f_ino f ≠ f_ino fout →
  length (rest (w_fs w) fin) ≤ length (ino_data (w_fs w) (f_ino f)) →
  wp (scoped (BufWriter_new fout) bw_drop (
      fuel ← io_fst (loop_fuel f);
      _ ← stream_loop decrypt_next decrypt_last n seg_aad fuel fin d None;
      _ ← io_err bw_flush;
      io_err bw_sync)) w
    (λ r w', evolves (changes (f_ino fout) (w_fs w)) w w' ∧
      let ref := loop_ref decrypt_next decrypt_last n seg_aad d None (rest (w_fs w) fin) in
      match r with
      | Ok _ => ∃ p, ref = Ok p ∧
          fs_ino (w_fs w') !! f_ino fout = Some {| i_data := flat p; i_synced := true |}
      | Err e => (e = Io ∧ faulted w w') ∨ ref = Err e
      end).
Proof.
  intros Hn Hf Ho Hfr Hino Hne Hlen. apply wp_scoped. set (ref := loop_ref _ _ _ _ _ _ _).
  set (ok := λ (p : list bytes * bytes) (s' : world * BufWriter),
    fs_ino (w_fs s'.1) !! f_ino fout = Some {| i_data := flat p; i_synced := true |} ∧
    bw_buf s'.2 = []).
  eapply (wp_mono _ _ (step_post flat ref ok w (BufWriter_new fout))); last first.
  { intros r [w' bw'] (Hev & Hi & (c & Hc & _) & Hr). simpl in *.
    eapply wp_mono; [eapply bw_drop_spec; [done|rewrite Hi; by eapply evolves_owned]|].
    intros _ w2 (Hev2 & Hnil2 & _). rewrite Hi in Hev2. split; [by eapply evolves_changes|].
    destruct r as [u|e'].
    2: { destruct Hr as [[-> ?]|?]; [left; split; [done|by eapply faulted_to]|by right]. }
    destruct Hr as (p & Href & Hx & Hnil).
    rewrite (Hnil2 Hnil). by exists p. }
  assert (bw_at w (BufWriter_new fout) []) as Hbw by by exists [].
  apply wp_bind, wp_fst. eapply wp_done; [done..|]. cbn beta iota zeta.
  apply wp_bind. eapply wp_mono.
  { apply (stream_loop_spec _ _ _ _ Hn _ _ _ _ _ _ []);
      [done|done|by rewrite Hino|right; simpl; congruence|lia]. }
  intros [u|e'] [w1 bw1] (Hev & Hi & Hc & Hr); [|by split_and!].
  destruct Hr as (p & Href & Hbw1). simpl in Hbw1, Hi, Hev.
  eapply (wp_mono _ _ (step_post flat ref ok w1 bw1)); [|intros r0 s0; by apply step_post_trans].
  assert (owned (f_ino (bw_file bw1)) (w_fs w1)) as Ho1 by (rewrite Hi; by eapply evolves_owned).
  apply (flush_sync_step flat _ _ p _ _ (flat p)); [done..|]. intros s' Hx Hnil. rewrite Hi in Hx. by split.
Qed.

End decrypt_body.

(** *** Opening the input *)

Section open_input.
Context `{OsRng, !Interference}.

(** [src] is the contents of [input], and nobody touches the file. *)
Definition input_shows (input : Path) (src : option bytes) (fs : filesys) : Prop :=
  match fs_dir fs !! input with
  | Some i => frozen i ∧ is_Some (fs_ino fs !! i) ∧ src = Some (ino_data fs i)
  | None => src = None
  end.

Lemma input_shows_contents input src fs : input_shows input src fs → src = contents fs input.
Proof.
  unfold input_shows, contents, ino_data. destruct (fs_dir fs !! input) as [i|]; simpl; [|done].
  intros (_ & [x Hx] & ->). by rewrite Hx.
Qed.

Context (input : Path) (src : option bytes) (P : filesys → Prop)
  (HP : ∀ fs fs', P fs → rely fs fs' → P fs') (Hsrc : ∀ fs, P fs → input_shows input src fs).

Lemma evolves_rely_phase w w1 w2 :
  evolves P w w1 → evolves (rely (w_fs w1)) w1 w2 → evolves P w w2.
Proof.
  intros H1 H2. eapply evolves_trans; [done..|]. intros fs. apply HP, H1.
Qed.

(** The opening of the input file and the reading of its header, before any continuation. *)
Lemma wp_open_input {B} w (k : File → bytes → BufReader → io world FilumCryptoError B) Q :
  P (w_fs w) →
  (∀ f header fin w', evolves P w w' → br_ino fin = f_ino f → length header = HEADER_LEN →
     frozen (f_ino f) → is_Some (fs_ino (w_fs w') !! f_ino f) →
     ino_data (w_fs w') (f_ino f) = header ++ rest (w_fs w') fin →
     src = Some (header ++ rest (w_fs w') fin) → wp (k f header fin) w' Q) →
  (∀ w', evolves P w w' →
     (calm w → src = None ∨ length (default [] src) < HEADER_LEN) → Q (Err Io) w') →
  wp (f ← io_err (file_open input);
      '(header, fin) ← io_err (read_exact (BufReader_new f) HEADER_LEN);
      k f header fin) w Q.
Proof.
  intros Hw Hk He. pose proof (evolves_refl _ _ Hw) as Hev0.
  apply wp_bind, wp_io_err. eapply wp_mono; [apply file_open_spec|].
  intros [f|e] w1 [Hev1%(evolves_rely_phase w) Hf]; [|done| |done];
    pose proof (Hsrc _ (ev_fs _ _ _ Hev1)) as Hs; unfold input_shows in Hs.
  2: { apply He; [done|]. intros Hc. left. by rewrite (Hf Hc) in Hs. }
  destruct Hf as [Hin Hpos]. rewrite Hin in Hs. destruct Hs as (Hfr & Hi & Hs).
  assert (rest (w_fs w1) (BufReader_new f) = ino_data (w_fs w1) (f_ino f)) as Hrest.
  { unfold rest. simpl. by rewrite Hpos, drop_0. }
  apply wp_bind, wp_io_err. eapply wp_mono; [by apply read_exact_spec|]. rewrite Hrest.
  intros [[header fin]|e] w2 [Hev2 Hr]; pose proof (ev_fs _ _ _ Hev2) as Hrely;
    apply (evolves_rely_phase w) in Hev2; [|done| |done].
  - destruct Hr as (Hdata & Hl & Hino).
    assert (rest (w_fs w2) fin = rest (w_fs w1) fin) as Hsame.
    { apply rest_frozen; [by rewrite Hino|done]. }
    assert (ino_data (w_fs w2) (f_ino f) = ino_data (w_fs w1) (f_ino f)) as Hsame2.
    { unfold ino_data. by rewrite (Hfr _ _ Hrely). }
    apply Hk; rewrite ?Hsame, ?Hsame2; [done..|by rewrite (Hfr _ _ Hrely)|done|congruence].
  - apply He; [done|]. intros Hc. right. rewrite Hs. apply Hr. by eapply evolves_calm.
Qed.

End open_input.

(** *** Errors *)

Section errors.
Context `{OsRngLaws, AesGcmLaws}.

(** The plaintexts that decrypting the input file may show. *)
Definition plaintext_of (fs : filesys) (input : Path) (wk : bytes) (id : str) (pt : bytes) : Prop :=
  ∃ framed, contents fs input = Some framed ∧ decrypt_chunked framed wk id = Ok pt.

(** What the errors of the file decoder mean, [src] being the contents of the input file. *)
Definition decrypt_error (w : world) (src : option bytes) (output : Path) (wk : bytes) (id : str)
    (e : FilumCryptoError) : Prop :=
  let framed := default [] src in
  match e with
  | InvalidContext => ¬ valid_id id
  | Aead => decrypt_chunked framed wk id = Err Aead ∨ whole_segments framed
  | Randomness => (try_fill_bytes 8 (w_rng w)).1 = None
  | Io => calm w → src = None ∨ length framed < HEADER_LEN ∨ file_name output = None
  | _ => False
  end.

(** The errors of opening a header are those of the whole in-memory decoder. *)
Lemma open_header_err header body wk id e :
  length header = HEADER_LEN → valid_id id → open_header header wk id = Err e →
  e = Aead ∧ decrypt_chunked (header ++ body) wk id = Err Aead.
Proof.
  intros Hl Hid He. pose proof (open_header_fails_only header wk id Hid) as Hf.
  rewrite He in Hf. simpl in Hf. subst e. split; [done|].
  unfold decrypt_chunked. rewrite blob_segment_aad_eq, decide_True by done. rsimpl.
  rewrite length_app, (proj2 (Nat.ltb_ge _ _)), open_header_app by lia. by rewrite He.
Qed.

(** The errors of choosing a temporary path. *)
Lemma sibling_temp_path_error output w src wk id e g :
  sibling_temp_path output (w_rng w) = (Err e, g) → decrypt_error w src output wk id e.
Proof.
  unfold sibling_temp_path. rsimpl. unfold os_fill.
  destruct (try_fill_bytes 8 (w_rng w)) as [[b|] g1] eqn:Hg; simpl.
  - destruct (file_name output) eqn:Hn; intros [= <- <-]. simpl. auto.
  - intros [= <- <-]. simpl. by rewrite Hg.
Qed.

End errors.

(** ** The publication of a file through a temporary sibling *)

(** While a process decrypts [src], the contents of [input], to [output] through a temporary path
    that satisfies [tmps], the file system is [Free] of a temporary file, or has one at [Temp],
    or is [Final]: the complete plaintext, one that satisfies [auth], has been published. The
    laws say that nobody else disturbs a phase, and that the steps of the process are within its
    guarantee. *)
Class Publication `{Interference} (input output : Path) (tmps : Path → Prop) (src : option bytes)
    (auth : bytes → Prop) := {
  Free : filesys → Prop;
  Temp : Path → nat → filesys → Prop;
  Final : nat → bytes → filesys → Prop;
  free_rely fs fs' : Free fs → rely fs fs' → Free fs';
  free_input fs : Free fs → input_shows input src fs;
  free_temp fs tmp : Free fs → tmps tmp → fs_dir fs !! tmp = None;
  free_create fs tmp i fs' :
    Free fs → tmps tmp → creates tmp i fs fs' → guar fs fs' ∧ Temp tmp i fs';
  temp_owned tmp i fs : Temp tmp i fs → owned i fs;
  temp_rely tmp i fs fs' : Temp tmp i fs → rely fs fs' → Temp tmp i fs';
  temp_only tmp i fs fs' : Temp tmp i fs → only i fs fs' → Temp tmp i fs';
  temp_dir tmp i fs : Temp tmp i fs → fs_dir fs !! tmp = Some i ∧ fs_dir fs !! output ≠ Some i;
  temp_remove tmp i fs : Temp tmp i fs →
    let fs' := set_dir (delete tmp (fs_dir fs)) fs in guar fs fs' ∧ Free fs';
  temp_rename tmp i pt fs :
    Temp tmp i fs → fs_ino fs !! i = Some {| i_data := pt; i_synced := true |} → auth pt →
    let fs' := set_dir (<[output := i]> (delete tmp (fs_dir fs))) fs in
    guar fs fs' ∧ Final i pt fs';
}.

(** From [w] to [w'] the last call, the removal of the temporary file, was refused, after a call
    failed with [e]: if that is [Io], it is due to an earlier fault than the refusal. *)
Definition cleanup_refused `{OsRng} (e : FilumCryptoError) (w w' : world) : Prop :=
  ∃ used, w_sched w = used ++ Fail :: w_sched w' ∧
          (e = Io → ¬ Forall (λ o, o ≠ Fail ∧ o ≠ Intr) used).

Lemma cleanup_refused_intro `{OsRng} P e w w1 w' :
  evolves P w w1 → (e = Io → faulted w w1) → refused w1 w' → cleanup_refused e w w'.
Proof.
  intros [_ _ [k Hk] _] He Hr. exists k. split; [by rewrite Hk, Hr|].
  intros (used & Hs & Hu)%He. rewrite Hk in Hs. by apply app_inv_tail in Hs as ->.
Qed.

Lemma cleanup_refused_calm `{OsRng} e w w' : cleanup_refused e w w' → ¬ calm w.
Proof.
  intros (used & Hs & _). unfold calm. rewrite Hs. intros [_ Hf]%Forall_app.
  by apply Forall_cons in Hf as [[? _] _].
Qed.

Section publication.
Context `{OsRngLaws, AesGcmLaws, !Interference}.
Context (input output : Path) (wk : bytes) (id : str) (src : option bytes) (tmps : Path → Prop).

(** The plaintexts that may be published. *)
Definition authentic (pt : bytes) : Prop :=
  ∃ framed, src = Some framed ∧ decrypt_chunked framed wk id = Ok pt.

Context `{!Publication input output tmps src authentic}.

Definition phase (fs : filesys) : Prop :=
  Free fs ∨ (∃ tmp i, tmps tmp ∧ Temp tmp i fs) ∨ ∃ i pt, authentic pt ∧ Final i pt fs.

(** What a call that failed with [e] leaves: no temporary file, unless its removal was refused. *)
Definition leftover (e : FilumCryptoError) (w w' : world) : Prop :=
  Free (w_fs w') ∨ cleanup_refused e w w' ∧ ∃ tmp i, tmps tmp ∧ Temp tmp i (w_fs w').

Lemma phase_temp tmp i fs : tmps tmp → Temp tmp i fs → phase fs.
Proof. intros ? ?. right. left. eauto. Qed.

Lemma temp_changes tmp i fs fs' : changes i fs fs' → Temp tmp i fs → Temp tmp i fs'.
Proof.
  induction 1 as [|fs1 fs2 fs3 [Hr|Ho] _ IH]; [done|..]; intros Ht; apply IH.
  - by eapply temp_rely.
  - by eapply temp_only.
Qed.

(** Dropping the armed guard removes the temporary file if the system lets it. *)
Lemma cleanup_spec tmp i e w0 w :
  evolves phase w0 w → (e = Io → faulted w0 w) → tmps tmp → Temp tmp i (w_fs w) →
  wp (TempCleanup_drop {| tc_path := tmp; tc_armed := true |}) w (λ _ w',
    evolves phase w0 w' ∧ leftover e w0 w').
Proof.
  intros Hev0 He Htmp Ht. eapply wp_mono; [apply (remove_file_spec tmp i)|].
  - intros fs Hr. pose proof (temp_rely _ _ _ _ Ht Hr) as Ht'. split; [by eapply temp_dir|].
    by eapply temp_remove.
  - intros r w' (found & Hr & Hev & Hres).
    pose proof (temp_rely _ _ _ _ Ht Hr) as Ht'. destruct (temp_remove _ _ _ Ht') as [_ Hfree]. split.
    + eapply evolves_trans; [done..|].
      intros fs [->| ->]; [by eapply phase_temp|by left].
    + destruct r; [left; by rewrite Hres|right]. destruct Hres as [-> Hc].
      split; [by eapply cleanup_refused_intro|by exists tmp, i].
Qed.

(** Renaming the complete, synchronised temporary file publishes it. *)
Lemma rename_publishes tmp i pt w0 w :
  evolves phase w0 w → tmps tmp → Temp tmp i (w_fs w) →
  fs_ino (w_fs w) !! i = Some {| i_data := pt; i_synced := true |} → authentic pt →
  wp (rename tmp output) w (λ r w', evolves phase w0 w' ∧
    match r with
    | Ok _ => Final i pt (w_fs w')
    | Err _ => Temp tmp i (w_fs w') ∧ faulted w w'
    end).
Proof.
  intros Hev0 Htmp Ht Hpt Hauth.
  assert (∀ fs, rely (w_fs w) fs → Temp tmp i fs ∧
    let fs' := set_dir (<[output := i]> (delete tmp (fs_dir fs))) fs in
    guar fs fs' ∧ Final i pt fs') as Hren.
  { intros fs Hr. pose proof (temp_rely _ _ _ _ Ht Hr) as Ht'. split; [done|].
    apply temp_rename; [done| |done].
    by rewrite (proj2 (owned_rely _ _ _ (temp_owned _ _ _ Ht) Hr)). }
  eapply wp_mono; [apply (rename_spec tmp output i)|].
  - intros fs Hr. destruct (Hren fs Hr) as [Ht' [Hg _]]. destruct (temp_dir _ _ _ Ht'). done.
  - intros r w' (found & Hr & Hev & Hres). destruct (Hren found Hr) as [Ht' [_ Hfin]]. split.
    + eapply evolves_trans; [done..|]. intros fs [->| ->]; [by eapply phase_temp|].
      right. right. eauto.
    + destruct r; [by rewrite Hres|]. destruct Hres as [-> ?]. split; [done|by apply refused_faulted].
Qed.

(** When there is no temporary file, the guard finds nothing to remove. *)
Lemma cleanup_nothing tmp found w w1 :
  Free found → tmps tmp → evolves (eq found) w w1 →
  wp (TempCleanup_drop {| tc_path := tmp; tc_armed := true |}) w1 (λ _ w2, evolves Free w w2).
Proof.
  intros Hfree Htmp Hev. pose proof (ev_fs _ _ _ Hev) as Hfs. eapply wp_mono; [apply remove_missing|].
  - intros fs Hr. apply free_temp; [|done]. eapply (free_rely found); [done|by rewrite Hfs].
  - intros ? w2 Hev2. eapply (evolves_rely_phase Free free_rely); [|exact Hev2].
    eapply evolves_mono; [done|by intros fs <-].
Qed.

(** What the block that owns the guard does, [ref] being the reference result of the body. *)
Lemma decrypt_publish_spec tmp f fin n seg_aad d w :
  Free (w_fs w) → tmps tmp → 0 < n → br_ino fin = f_ino f → frozen (f_ino f) →
  is_Some (fs_ino (w_fs w) !! f_ino f) →
  length (rest (w_fs w) fin) ≤ length (ino_data (w_fs w) (f_ino f)) →
  let ref := loop_ref decrypt_next decrypt_last n seg_aad d None (rest (w_fs w) fin) in
  (∀ p, ref = Ok p → authentic (flat p)) →
  wp (scoped {| tc_path := tmp; tc_armed := true |} TempCleanup_drop (
      fout ← io_fst (io_err (file_create tmp));
      _ ← io_fst (scoped (BufWriter_new fout) bw_drop (
        fuel ← io_fst (loop_fuel f);
        _ ← stream_loop decrypt_next decrypt_last n seg_aad fuel fin d None;
        _ ← io_err bw_flush;
        io_err bw_sync));
      _ ← io_fst (io_err (rename tmp output));
      disarm)) w
    (λ r w', evolves phase w w' ∧
      match r with
      | Ok _ => ∃ p i, ref = Ok p ∧ Final i (flat p) (w_fs w')
      | Err e => leftover e w w' ∧ ((e = Io ∧ ¬ calm w) ∨ ref = Err e)
      end).
Proof.
  intros Hw Htmp Hn Hino Hfr Hin Hlen ref Hauth. apply wp_scoped.
  apply wp_bind, wp_fst, wp_io_err. eapply wp_mono.
  { apply file_create_spec. intros i fs fs' Hr Hc.
    by eapply free_create; [eapply free_rely| |]. }
  intros [fout|e] w1 (found & Hr & Hcr); pose proof (free_rely _ _ Hw Hr) as Hfree.
  2: { destruct Hcr as [Hev Hc]. eapply wp_mono; [by eapply (cleanup_nothing tmp found w)|].
       intros ? w2 Hev2. split_and!; [|left; apply Hev2|left; split; [done|by eapply faulted_calm]].
       eapply evolves_mono; [exact Hev2|intros fs Hfs; left; exact Hfs]. }
  destruct Hcr as (Hev1 & Hcr & Hf). destruct (free_create _ _ _ _ Hfree Htmp Hcr) as [_ Ht1].
  assert (f_ino f ≠ f_ino fout) as Hfi.
  { destruct Hcr as (_ & _ & [Hd|[_ Hnone]] & _); [by rewrite free_temp in Hd|].
    intros Heq. rewrite <-(Hfr _ _ Hr), Heq, Hnone in Hin. by destruct Hin. }
  assert (fs_ino (w_fs w1) !! f_ino f = fs_ino (w_fs w) !! f_ino f) as Hsame.
  { destruct Hcr as (_ & Ho & _). by rewrite Ho, (Hfr _ _ Hr). }
  assert (rest (w_fs w1) fin = rest (w_fs w) fin) as Hrest.
  { unfold rest, ino_data. unfold br_ino in Hino. by rewrite Hino, Hsame. }
  assert (evolves phase w w1) as Hev1'.
  { eapply evolves_mono; [done|]. intros fs [->|Hc]; [by left|].
    eapply phase_temp; [done|]. by eapply free_create. }
  apply wp_bind, wp_fst. eapply wp_mono.
  { apply decrypt_body_spec; [done|done|by eapply temp_owned|done..|].
    unfold ino_data in *. by rewrite Hrest, Hsame. }
  rewrite Hrest. intros r w2 [Hev2 Hres]. pose proof (temp_changes _ _ _ _ (ev_fs _ _ _ Hev2) Ht1) as Ht2.
  assert (evolves phase w w2) as Hev.
  { eapply evolves_trans; [done..|]. intros fs Hc. eapply phase_temp; [done|].
    by eapply temp_changes. }
  destruct r as [u|e].
  2: { assert (e = Io ∧ faulted w w2 ∨ ref = Err e) as He.
       { destruct Hres as [[-> Hc]|?]; [left|by right]. split; [done|]. exact (faulted_from _ _ _ _ Hev1 Hc). }
       eapply wp_mono; [apply (cleanup_spec tmp (f_ino fout) e w); [done| |done|done]|].
       - intros ->. destruct He as [[_ ?]|[=]%loop_ref_err]; done.
       - intros _ w3 [? ?]. split_and!; [done..|].
         destruct He as [[-> ?%faulted_calm]|?]; [by left|by right]. }
  destruct Hres as (p & Href & Hx).
  apply wp_bind, wp_fst, wp_io_err. eapply wp_mono; [by eapply (rename_publishes tmp _ (flat p) w); eauto|].
  intros [[]|e] w3 [Hev3 Hres].
  - apply wp_bind, wp_get_own, wp_put_own. apply wp_ret. split; [done|]. by exists p, (f_ino fout).
  - destruct Hres as [Ht3 Hc]. pose proof (faulted_from _ _ _ _ Hev Hc) as Hc3.
    eapply wp_mono; [by apply (cleanup_spec tmp (f_ino fout) Io w)|].
    intros _ w4 [? ?]. split_and!; [done..|]. left. by apply faulted_calm in Hc3.
Qed.

(** How [decrypt_file_chunked] ends. *)
Definition publication_post (w : world) (r : Result unit) (w' : world) : Prop :=
  evolves phase w (set_rng (w_rng w) w') ∧
  match r with
  | Ok _ => ∃ framed pt i, src = Some framed ∧ decrypt_chunked framed wk id = Ok pt ∧
                           ¬ whole_segments framed ∧ Final i pt (w_fs w')
  | Err e => leftover e w w' ∧ decrypt_error w src output wk id e
  end.

(** A failure before anything was created. *)
Lemma publication_early w w' e :
  evolves Free w (set_rng (w_rng w) w') → decrypt_error w src output wk id e →
  publication_post w (Err e) w'.
Proof.
  intros Hev He. split_and!; [|left; apply Hev|done]. eapply evolves_mono; [done|by left].
Qed.

(** The outcome of the publishing block is that of the function, [ref] being the reference
    result of the loop. *)
Lemma publication_published w w1 g r w2 framed ref :
  evolves Free w w1 → src = Some framed →
  match ref with
  | Ok p => decrypt_chunked framed wk id = Ok (flat p) ∧ ¬ whole_segments framed
  | Err e => e = Aead ∧ (decrypt_chunked framed wk id = Err Aead ∨ whole_segments framed)
  end →
  evolves phase (set_rng g w1) w2 ∧
  match r with
  | Ok _ => ∃ p i, ref = Ok p ∧ Final i (flat p) (w_fs w2)
  | Err e => leftover e (set_rng g w1) w2 ∧ ((e = Io ∧ ¬ calm (set_rng g w1)) ∨ ref = Err e)
  end →
  publication_post w r w2.
Proof.
  intros Hev1 Hsrc Href [Hev Hr].
  assert (¬ calm (set_rng g w1) → ¬ calm w) as Hc1.
  { intros Hc ?. by eapply Hc, (evolves_calm _ _ _ Hev1). }
  split.
  - apply evolves_set_rng in Hev. rewrite <-(ev_rng _ _ _ Hev1). eapply evolves_trans; [|done|done].
    eapply evolves_mono; [done|by left].
  - destruct r as [u|e].
    + destruct Hr as (p & i & -> & Hf). destruct Href. by exists framed, (flat p), i.
    + destruct Hr as [Hl He]. split.
      * destruct Hl as [?|[(used & Hs & Hu) ?]]; [by left|right]. split; [|done].
        destruct (ev_sched _ _ _ Hev1) as [k Hk]. exists (k ++ used). split.
        -- rewrite Hk. cbn [w_sched set_rng] in Hs. by rewrite Hs, app_assoc.
        -- intros Hio [_ ?]%Forall_app. by apply Hu.
      * destruct He as [[-> Hc]| ->]; [intros ?; by destruct Hc1|].
        destruct Href as [-> Hbad]. by rewrite Hsrc.
Qed.

(** The outcome of the function, in any environment that lets it publish. *)
Lemma decrypt_publication w :
  Free (w_fs w) → (∀ tmp g, sibling_temp_path output (w_rng w) = (Ok tmp, g) → tmps tmp) →
  wp (decrypt_file_chunked input output wk id) w (publication_post w).
Proof.
  intros Hw Htmps. unfold decrypt_file_chunked. apply wp_bind, wp_lift.
  destruct (blob_segment_aad id) as [a|e] eqn:Ha; pose proof Ha as Hid;
    rewrite blob_segment_aad_eq in Hid; case_decide as Hvalid; try done; clear Hid.
  2: { apply publication_early; [by apply evolves_forget_rng, evolves_refl|].
       rewrite blob_segment_aad_eq, decide_False in Ha by done. by injection Ha as <-. }
  apply (wp_open_input _ _ _ free_rely free_input); [done| |]; last first.
  { intros w1 Hev1 Hio. apply publication_early; [by apply evolves_forget_rng|].
    intros Hc. destruct (Hio Hc) as [?|?]; auto. }
  intros f header fin w1 Hev1 Hino Hl Hfr Hin Hdata Hsrc. apply wp_bind, wp_lift.
  destruct (open_header header wk id) as [[[dk np] n]|e] eqn:Hopen.
  2: { apply (open_header_err _ (rest (w_fs w1) fin)) in Hopen as [-> Hbad]; [|done..].
       apply publication_early; [by apply evolves_forget_rng|]. rewrite Hsrc. by left. }
  apply wp_bind, wp_io_rng. rewrite (ev_rng _ _ _ Hev1). intros [tmp|e] g Htmp.
  2: { apply publication_early; [destruct Hev1; by split|by eapply sibling_temp_path_error]. }
  pose proof (loop_ref_decrypt header (rest (w_fs w1) fin) wk id _ dk np n Hl Ha Hopen) as Href.
  pose proof CHUNK_SIZE_pos. pose proof (open_header_chunk _ _ _ _ _ _ Hopen) as Hn.
  eapply wp_mono.
  { apply decrypt_publish_spec; [apply Hev1|by eapply Htmps|lia|done..| |].
    - cbn [w_fs set_rng]. rewrite Hdata, length_app. lia.
    - intros p Hp. cbn [w_fs set_rng] in Hp. rewrite Hp in Href. destruct Href as [Hd _].
      by eexists. }
  intros r w2 Hr. exact (publication_published w w1 g r w2 _ _ Hev1 Hsrc Href Hr).
Qed.

End publication.

(** ** Witnesses *)

Definition out_path : Path := path_of_str (lit "/data/out.bin").

Lemma out_path_ok : Forall component_ok out_path.
Proof. apply path_of_str_ok. Qed.

Lemma sibling_temp_path_properties_witness :
  ∃ tmp1 tmp2,
    sibling_temp_path out_path (toy_gen 7) = (Ok tmp1, toy_gen 8) ∧
    sibling_temp_path out_path (toy_gen 9) = (Ok tmp2, toy_gen 10) ∧
    parent tmp1 = parent out_path ∧ Forall component_ok tmp1 ∧ tmp1 ≠ out_path ∧
    (tmp1 = tmp2 → (try_fill_bytes 8 (toy_gen 7)).1 = (try_fill_bytes 8 (toy_gen 9)).1).
Proof.
  eexists _, _. split; [vm_compute; reflexivity|]. split; [vm_compute; reflexivity|].
  eapply (sibling_temp_path_properties out_path (toy_gen 7) _ _ (toy_gen 9));
    [apply out_path_ok|vm_compute; reflexivity..].
Defined.
