(* ===== verification/DecryptFile.v ===== *)
(** * Decryption from file to file: refinement, atomicity and crash safety

    [decrypt_file_chunked] in a process that has the file system to itself. The abstract
    specification is [stage]: seen from outside, the file system is idle, has a temporary sibling
    file, or has the complete authenticated plaintext at the output path. *)

From S2P Require Import Prelude Ints Errors Prims Toy Aad Segments Blob Path Process Io IoSpec.
From S2P Require Import BlobFile EncryptFile Publish.
From Stdlib Require Import ZArith Lia.

(** ** The stages of a decryption, seen from outside *)

(** Nothing that exists in [fs0] has changed. *)
Definition extends (fs0 fs : filesys) : Prop :=
  ∀ j, is_Some (fs_ino fs0 !! j) → fs_ino fs !! j = fs_ino fs0 !! j.

(** Starting from [fs0], decrypting to [output]: nothing visible has happened yet (or the
    temporary file is gone again); a temporary sibling exists, the output path being as it was;
    or the output path shows a synchronised file with an authentic plaintext. *)
Inductive stage (fs0 : filesys) (output : Path) (authentic : bytes → Prop) : filesys → Prop :=
| Idle fs :
    extends fs0 fs → fs_dir fs = fs_dir fs0 →
    stage fs0 output authentic fs
| Staged fs tmp i :
    extends fs0 fs → fs_ino fs0 !! i = None →
    tmp ≠ output → parent tmp = parent output → fs_dir fs0 !! tmp = None →
    fs_dir fs = <[tmp := i]> (fs_dir fs0) →
    stage fs0 output authentic fs
| Published fs i pt :
    extends fs0 fs → fs_ino fs0 !! i = None →
    fs_dir fs = <[output := i]> (fs_dir fs0) →
    fs_ino fs !! i = Some {| i_data := pt; i_synced := true |} → authentic pt →
    stage fs0 output authentic fs.

Lemma stage_mono fs0 output (P Q : bytes → Prop) fs :
  (∀ pt, P pt → Q pt) → stage fs0 output P fs → stage fs0 output Q fs.
Proof.
  intros HPQ [fs' ? ?|fs' tmp i|fs' i pt].
  - by apply Idle.
  - by apply (Staged _ _ _ _ tmp i).
  - apply (Published _ _ _ _ i pt); auto.
Qed.

Lemma extends_refl fs : extends fs fs.
Proof. by intros j. Qed.

(** Changes to an inode that [fs0] does not know, and to the directory, extend [fs0]. *)
Lemma extends_only fs0 fs fs' i :
  extends fs0 fs → fs_ino fs0 !! i = None → (∀ j, j ≠ i → fs_ino fs' !! j = fs_ino fs !! j) →
  extends fs0 fs'.
Proof.
  intros He Hi Ho j Hj. rewrite Ho; [by apply He|]. intros ->. destruct Hj. congruence.
Qed.

Lemma extends_contents fs0 fs q :
  fs_ok fs0 → extends fs0 fs → fs_dir fs !! q = fs_dir fs0 !! q → contents fs q = contents fs0 q.
Proof.
  intros Hok He Hd. unfold contents. rewrite Hd.
  destruct (fs_dir fs0 !! q) as [i|] eqn:Hq; simpl; [|done].
  by rewrite He by (by eapply Hok).
Qed.

(** A process that is alone sees its input file. *)
Lemma contents_show fs input : fs_ok fs → input_shows input (contents fs input) fs.
Proof.
  intros Hok. unfold input_shows, contents. destruct (fs_dir fs !! input) as [i|] eqn:Hi; simpl; [|done].
  destruct (Hok _ _ Hi) as [x Hx]. unfold ino_data. rewrite Hx.
  by split_and!; [apply alone_frozen|eexists|].
Qed.

(** ** The publication of a process that is alone *)

Section sequential.
Context `{OsRngLaws, AesGcmLaws}.
Context (input output : Path) (wk : bytes) (id : str) (w0 : world).

(** The paths that may be chosen for the temporary file. *)
Definition temp_choice (tmp : Path) : Prop :=
  ∃ g, sibling_temp_path output (w_rng w0) = (Ok tmp, g).

(** The random temporary name is not taken. *)
Definition temp_free (w : world) (output : Path) : Prop :=
  ∀ tmp g, sibling_temp_path output (w_rng w) = (Ok tmp, g) → fs_dir (w_fs w) !! tmp = None.

Let fs0 := w_fs w0.
Let src := contents fs0 input.

Context (Hok : fs_ok fs0) (Hout : Forall component_ok output) (Hfree : temp_free w0 output).

Definition untouched (fs : filesys) : Prop := extends fs0 fs ∧ fs_dir fs = fs_dir fs0.

(** The temporary file [i] exists beside everything of [fs0]. *)
Definition staged (tmp : Path) (i : nat) (fs : filesys) : Prop :=
  temp_choice tmp ∧ extends fs0 fs ∧ fs_ino fs0 !! i = None ∧ fs_dir fs = <[tmp := i]> (fs_dir fs0).

Definition published (i : nat) (pt : bytes) (fs : filesys) : Prop :=
  extends fs0 fs ∧ fs_ino fs0 !! i = None ∧ fs_dir fs = <[output := i]> (fs_dir fs0) ∧
  fs_ino fs !! i = Some {| i_data := pt; i_synced := true |}.

Lemma temp_choice_props tmp :
  temp_choice tmp → tmp ≠ output ∧ parent tmp = parent output ∧ fs_dir fs0 !! tmp = None.
Proof.
  intros [g Htmp]. split_and!; [..|by eapply Hfree];
    destruct (sibling_temp_path_inv _ _ _ _ Hout Htmp) as (name & suffix & Hn & _ & _ & ->).
  - by apply temp_path_ne.
  - apply removelast_last.
Qed.

Lemma untouched_ok fs : untouched fs → fs_ok fs.
Proof.
  intros [He Hd] p i. rewrite Hd. intros Hp%Hok. by rewrite (He i).
Qed.

Lemma untouched_input fs : untouched fs → input_shows input src fs.
Proof.
  intros Hu. replace src with (contents fs input); [by apply contents_show, untouched_ok|].
  destruct Hu as [He Hd]. apply extends_contents; [done..|by rewrite Hd].
Qed.

Lemma creates_staged fs tmp i fs' :
  untouched fs → temp_choice tmp → creates tmp i fs fs' → staged tmp i fs'.
Proof.
  intros [He Hd] Htmp (Hd' & Ho & Hor & _). destruct (temp_choice_props _ Htmp) as (_ & _ & Hnone).
  destruct Hor as [|[_ Hi]]; [congruence|].
  assert (fs_ino fs0 !! i = None) as Hi0.
  { destruct (fs_ino fs0 !! i) as [x|] eqn:Hx; [|done]. rewrite (He i) in Hi by by eexists. congruence. }
  split_and!; [done|by eapply extends_only|done|congruence].
Qed.

Lemma staged_only tmp i fs fs' : staged tmp i fs → only i fs fs' → staged tmp i fs'.
Proof.
  intros (Htmp & He & Hi & Hd) (Hd' & Ho & _). split_and!; [done|by eapply extends_only|done|congruence].
Qed.

Lemma staged_dir tmp i fs :
  staged tmp i fs → fs_dir fs !! tmp = Some i ∧ fs_dir fs !! output ≠ Some i ∧
  delete tmp (fs_dir fs) = fs_dir fs0.
Proof.
  intros (Htmp & He & Hi & Hd). destruct (temp_choice_props _ Htmp) as (Hne & _ & Hnone). rewrite Hd.
  split_and!; [by rewrite lookup_insert_eq| |by rewrite delete_insert_eq, delete_id].
  rewrite lookup_insert_ne by done. intros Ho. destruct (Hok _ _ Ho). congruence.
Qed.

#[local] Program Instance sequential :
  Publication input output temp_choice src (authentic wk id src) := {
  Free := untouched;
  Temp := staged;
  Final := published;
}.
Next Obligation. by intros fs fs' ? <-. Qed.
Next Obligation. exact untouched_input. Qed.
Next Obligation. intros fs tmp [_ ->] ?. by apply temp_choice_props. Qed.
Next Obligation. intros. split; [done|by eapply creates_staged]. Qed.
Next Obligation. done. Qed.
Next Obligation. by intros tmp i fs fs' ? <-. Qed.
Next Obligation. exact staged_only. Qed.
Next Obligation. intros tmp i fs Hst. split; by destruct (staged_dir _ _ _ Hst) as (? & ? & ?). Qed.
Next Obligation.
  intros tmp i fs Hst. destruct (staged_dir _ _ _ Hst) as (_ & _ & Hd). by destruct Hst as (_ & ? & _).
Qed.
Next Obligation.
  intros tmp i pt fs Hst Hi _. destruct (staged_dir _ _ _ Hst) as (_ & _ & Hd).
  destruct Hst as (_ & ? & ? & _). simpl. rewrite Hd. done.
Qed.

Lemma phase_stage fs :
  phase input output wk id src temp_choice fs → stage fs0 output (plaintext_of fs0 input wk id) fs.
Proof.
  intros [[? ?]|[(tmp & i & Htmp & _ & ? & ? & ?)|(i & pt & ? & ? & ? & ? & ?)]].
  - by apply Idle.
  - destruct (temp_choice_props _ Htmp) as (? & ? & ?). by apply (Staged _ _ _ _ tmp i).
  - by apply (Published _ _ _ _ i pt).
Qed.

(** The outcome of [decrypt_file_chunked], for the properties below. *)
Definition decrypt_post (r : Result unit) (w' : world) : Prop :=
  evolves (stage fs0 output (plaintext_of fs0 input wk id)) w0 (set_rng (w_rng w0) w') ∧
  extends fs0 (w_fs w') ∧
  match r with
  | Ok _ => ∃ framed pt i,
      contents fs0 input = Some framed ∧ decrypt_chunked framed wk id = Ok pt ∧
      ¬ whole_segments framed ∧ fs_ino fs0 !! i = None ∧
      fs_dir (w_fs w') = <[output := i]> (fs_dir fs0) ∧
      fs_ino (w_fs w') !! i = Some {| i_data := pt; i_synced := true |}
  | Err e =>
      (fs_dir (w_fs w') = fs_dir fs0 ∨
       cleanup_refused e w0 w' ∧
       ∃ tmp i, temp_choice tmp ∧ fs_dir (w_fs w') = <[tmp := i]> (fs_dir fs0)) ∧
      decrypt_error w0 (contents fs0 input) output wk id e
  end.

Lemma decrypt_file_spec : wp (decrypt_file_chunked input output wk id) w0 decrypt_post.
Proof.
  eapply wp_mono.
  { apply (decrypt_publication input output wk id src temp_choice w0); [by split; [intros j|]|].
    intros tmp g Htmp. by exists g. }
  intros r w' [Hev Hr]. split; [eapply evolves_mono; [done|apply phase_stage]|].
  destruct r as [u|e].
  - destruct Hr as (framed & pt & i & Hsrc & Hdec & Hw & ? & ? & ? & ?). split; [done|].
    by exists framed, pt, i.
  - destruct Hr as [[[? ?]|(Hc & tmp & i & Htmp & _ & ? & ? & ?)] He]; split_and!; try done; [by left|].
    right. split; [done|]. by exists tmp, i.
Qed.

(** In a failed call no other path than that of the temporary file, which was free, changes. *)
Lemma failed_dir e w' q :
  fs_dir (w_fs w') = fs_dir fs0 ∨
  cleanup_refused e w0 w' ∧ (∃ tmp i, temp_choice tmp ∧ fs_dir (w_fs w') = <[tmp := i]> (fs_dir fs0)) →
  q = output ∨ is_Some (fs_dir fs0 !! q) → fs_dir (w_fs w') !! q = fs_dir fs0 !! q.
Proof.
  intros [->|(_ & tmp & i & Htmp & ->)] Hq; [done|].
  destruct (temp_choice_props _ Htmp) as (? & _ & ?).
  rewrite lookup_insert_ne; [done|]. intros ->. destruct Hq as [|[j Hj]]; congruence.
Qed.

End sequential.

(** ** Crashes *)

(** After a crash in [fs] the directory is that of an earlier state [fsd], since changes of a
    directory are not synchronised by the source; synchronised files are intact, and the contents
    of the others are arbitrary. *)
Definition crash_late (fsd fs fs' : filesys) : Prop :=
  fs_dir fs' = fs_dir fsd ∧
  ∀ i x, fs_ino fs !! i = Some x → i_synced x = true → fs_ino fs' !! i = Some x.

(** The directory may also be up to date. *)
Definition crash (fs : filesys) : filesys → Prop := crash_late fs fs.

Lemma crash_refl fs : crash fs fs.
Proof. by split. Qed.

(** All inodes survive, but no change of the directory since [fsd]. *)
Lemma crash_late_dir fsd fs : crash_late fsd fs (set_dir (fs_dir fsd) fs).
Proof. by split. Qed.

(** Whatever the stage at which the system crashes, the output path then shows its old file or
    an authentic plaintext. *)
Lemma stage_crash fs0 output auth fs fs' :
  fs_ok fs0 → on_disk fs0 output → stage fs0 output auth fs → crash fs fs' →
  contents fs' output = contents fs0 output ∨ ∃ pt, auth pt ∧ contents fs' output = Some pt.
Proof.
  intros Hok Hdisk Hst [Hdir Hi].
  assert (fs_dir fs !! output = fs_dir fs0 !! output → extends fs0 fs →
    contents fs' output = contents fs0 output) as Hold.
  { intros Hd He. unfold contents. rewrite Hdir, Hd.
    destruct (fs_dir fs0 !! output) as [i|] eqn:Ho; simpl; [|done].
    destruct (Hok _ _ Ho) as [x Hx]. rewrite Hx, (Hi i x); [done| |by eapply Hdisk].
    by rewrite He. }
  inversion Hst as [? He Hd|? tmp i He _ Hne _ _ Hd|? i pt _ _ Hd Hpt Ha]; subst.
  - left. apply Hold; [congruence|done].
  - left. apply Hold; [|done]. by rewrite Hd, lookup_insert_ne.
  - right. exists pt. split; [done|]. unfold contents.
    rewrite Hdir, Hd, lookup_insert_eq. simpl. by rewrite (Hi _ _ Hpt eq_refl).
Qed.

(** ** Properties of [decrypt_file_chunked] *)

Section decrypt_file_theorems.
Context `{OsRngLaws, AesGcmLaws}.

(** What a caller of the file decoder sees. *)
Lemma decrypt_file_result input output wk id w :
  fs_ok (w_fs w) → Forall component_ok output → temp_free w output →
  wp (decrypt_file_chunked input output wk id) w (λ r w',
    (∀ q, q ≠ output → is_Some (fs_dir (w_fs w) !! q) →
          contents (w_fs w') q = contents (w_fs w) q) ∧
    match r with
    | Ok _ => ∃ framed pt, contents (w_fs w) input = Some framed ∧
                decrypt_chunked framed wk id = Ok pt ∧ contents (w_fs w') output = Some pt
    | Err e => contents (w_fs w') output = contents (w_fs w) output ∧
               decrypt_error w (contents (w_fs w) input) output wk id e
    end).
Proof.
  intros Hok Hout Hfree. eapply wp_mono; [by apply decrypt_file_spec|].
  intros r w' (Hev & Hext & Hr). destruct r as [u|e].
  - destruct Hr as (framed & pt & i & Hin & Hdec & _ & _ & Hdir & Hi). split.
    + intros q Hq _. apply extends_contents; [done..|]. by rewrite Hdir, lookup_insert_ne.
    + exists framed, pt. split_and!; [done..|]. unfold contents.
      rewrite Hdir, lookup_insert_eq. simpl. by rewrite Hi.
  - destruct Hr as [Hdir He].
    pose proof (λ q, failed_dir _ _ Hout Hfree e w' q Hdir) as Hq.
    split; [intros q _ Hs|split; [|done]]; apply extends_contents; auto.
Qed.

(** C3. The file decoder refines the in-memory one, under any schedule of faults. It always returns.
    When it succeeds, the input file decodes with [decrypt_chunked] and the output file holds
    exactly that plaintext. When it fails, the output file is as it was, and the error is one of:
    [InvalidContext] for an unusable blob id; [Aead] when [decrypt_chunked] fails with [Aead] or
    when the body is a whole number of full-size segments; [Randomness] when there was no
    temporary name; [Io] when a system call failed, the input is missing or shorter than a
    header, or the output has no file name. Every other existing file is untouched. *)
Theorem decrypt_file_refines input output wk id w :
  fs_ok (w_fs w) → Forall component_ok output → temp_free w output →
  wp (decrypt_file_chunked input output wk id) w (λ r w',
    (∀ q, q ≠ output → is_Some (fs_dir (w_fs w) !! q) →
          contents (w_fs w') q = contents (w_fs w) q) ∧
    match r with
    | Ok _ => ∃ framed pt, contents (w_fs w) input = Some framed ∧
                decrypt_chunked framed wk id = Ok pt ∧ contents (w_fs w') output = Some pt
    | Err e => contents (w_fs w') output = contents (w_fs w) output ∧
               decrypt_error w (contents (w_fs w) input) output wk id e
    end).
Proof. apply decrypt_file_result. Qed.

(** C1. Atomicity. Whatever the schedule of faults, every file-system state from the call to its
    return is idle, has one extra file, a sibling of the output under a name that was free, or
    shows at the output path a synchronised file whose contents are the complete plaintext that
    [decrypt_chunked] returns for the input file. After [Ok] it is the last: the output path, and
    no other, has changed, and leads to a new inode that holds that plaintext, synchronised; no
    temporary file is left. An error leaves the directory exactly as it was, with one exception:
    the last call of all, the removal of the temporary file, was refused, and the temporary file
    is then the only trace. A fault that made the call fail with [Io] is not an exception: it is
    another one, that came before. *)
Theorem decrypt_file_atomic input output wk id w :
  fs_ok (w_fs w) → Forall component_ok output → temp_free w output →
  let st := stage (w_fs w) output (plaintext_of (w_fs w) input wk id) in
  wp (decrypt_file_chunked input output wk id) w (λ r w',
    (∃ new, w_hist w' = new ++ w_hist w ∧ Forall st new) ∧ st (w_fs w') ∧
    match r with
    | Ok _ => ∃ pt i, plaintext_of (w_fs w) input wk id pt ∧ fs_ino (w_fs w) !! i = None ∧
                fs_dir (w_fs w') = <[output := i]> (fs_dir (w_fs w)) ∧
                fs_ino (w_fs w') !! i = Some {| i_data := pt; i_synced := true |}
    | Err e =>
        fs_dir (w_fs w') = fs_dir (w_fs w) ∨
        (∃ used, w_sched w = used ++ Fail :: w_sched w' ∧
                 (e = Io → ¬ Forall (λ o, o ≠ Fail ∧ o ≠ Intr) used)) ∧
        ∃ tmp g i, sibling_temp_path output (w_rng w) = (Ok tmp, g) ∧
                   fs_dir (w_fs w') = <[tmp := i]> (fs_dir (w_fs w))
    end).
Proof.
  intros Hok Hout Hfree st. eapply wp_mono; [by apply decrypt_file_spec|].
  intros r w' ([_ Hst _ Hhist] & _ & Hr). split_and!; [done..|].
  destruct r as [u|e].
  - destruct Hr as (framed & pt & i & ? & ? & _ & ? & ? & ?).
    exists pt, i. split_and!; [by exists framed|done..].
  - destruct Hr as [[?|(Hc & tmp & i & [g Htmp] & ?)] _]; [by left|right].
    split; [exact Hc|]. by exists tmp, g, i.
Qed.

(** Crash safety. If the system crashes at any moment of a decryption, losing whatever was not
    synchronised, the output path shows afterwards either what it showed before the call or a
    complete authentic plaintext, never a truncated or unauthenticated one. *)
Theorem decrypt_file_crash_safe input output wk id w :
  fs_ok (w_fs w) → Forall component_ok output → temp_free w output →
  on_disk (w_fs w) output →
  wp (decrypt_file_chunked input output wk id) w (λ r w',
    ∃ new, w_hist w' = new ++ w_hist w ∧
      Forall (λ fs, ∀ fs', crash fs fs' →
        contents fs' output = contents (w_fs w) output ∨
        ∃ pt, plaintext_of (w_fs w) input wk id pt ∧ contents fs' output = Some pt)
        (w_fs w' :: new)).
Proof.
  intros Hok Hout Hfree Hdisk. eapply wp_mono; [by apply decrypt_file_spec|].
  intros r w' ([_ Hst _ (new & Hhist & Hnew)] & _ & _). exists new. split; [done|].
  assert (Forall (stage (w_fs w) output (plaintext_of (w_fs w) input wk id)) (w_fs w' :: new))
    as Hall by by constructor.
  eapply Forall_impl; [exact Hall|]. intros fs Hfs fs' Hc. by eapply stage_crash.
Qed.

(** C21. A blob whose header does not open (wrong key, wrong blob id, tampered header) is refused
    before the entropy source is used and before anything is created: no file-system state but
    the initial one is ever seen, not even one with a temporary file. *)
Theorem decrypt_file_refused_creates_nothing input output wk id w framed :
  fs_ok (w_fs w) → contents (w_fs w) input = Some framed → HEADER_LEN ≤ length framed →
  valid_id id → open_header framed wk id = Err Aead →
  wp (decrypt_file_chunked input output wk id) w (λ r w',
    w_rng w' = w_rng w ∧ w_fs w' = w_fs w ∧
    (∃ new, w_hist w' = new ++ w_hist w ∧ Forall (eq (w_fs w)) new) ∧
    (r = Err Aead ∨ r = Err Io ∧ ¬ calm w)).
Proof.
  intros Hok Hframed Hlen Hid He.
  assert (∀ r w', evolves (eq (w_fs w)) w w' → r = Err Aead ∨ r = Err Io ∧ ¬ calm w →
    w_rng w' = w_rng w ∧ w_fs w' = w_fs w ∧
    (∃ new, w_hist w' = new ++ w_hist w ∧ Forall (eq (w_fs w)) new) ∧
    ((r : Result unit) = Err Aead ∨ r = Err Io ∧ ¬ calm w)) as Hpost.
  { intros r w' Hev Hr. by split_and!; [apply Hev|symmetry; apply Hev|apply Hev|]. }
  unfold decrypt_file_chunked. apply wp_bind, wp_lift.
  rewrite blob_segment_aad_eq, decide_True by done.
  apply (wp_open_input input (Some framed) (eq (w_fs w))); [by intros fs fs' <- <-| |done|..].
  - intros fs <-. rewrite <-Hframed. by apply contents_show.
  - intros f header fin w' Hev _ Hl _ _ _ [= ->].
    rewrite open_header_app in He by done. apply wp_bind, wp_lift. rewrite He.
    apply Hpost; [done|by left].
  - intros w' Hev Hc. apply Hpost; [done|]. right. split; [done|]. intros Hcalm.
    destruct (Hc Hcalm) as [?|?]; [done|]. simpl in *. lia.
Qed.

(** Under a calm schedule, with a working entropy source and a proper output path, the file
    decoder has the result of its reference. *)
Lemma decrypt_file_calm input output wk id w framed :
  fs_ok (w_fs w) → Forall component_ok output → temp_free w output →
  calm w → (try_fill_bytes 8 (w_rng w)).1 ≠ None → is_Some (file_name output) →
  contents (w_fs w) input = Some framed → HEADER_LEN ≤ length framed → valid_id id →
  wp (decrypt_file_chunked input output wk id) w (λ r w',
    match r with
    | Ok _ => ∃ pt, decrypt_chunked framed wk id = Ok pt ∧ ¬ whole_segments framed ∧
                    contents (w_fs w') output = Some pt
    | Err e => e = Aead ∧ (decrypt_chunked framed wk id = Err Aead ∨ whole_segments framed)
    end).
Proof.
  intros Hok Hout Hfree Hcalm Hrng [name Hname] Hframed Hlen Hid.
  eapply wp_mono; [by apply decrypt_file_spec|]. intros r w' (_ & _ & Hr).
  destruct r as [u|e].
  - destruct Hr as (framed' & pt & i & Hin & Hdec & Hw & _ & Hdir & Hi).
    assert (framed' = framed) as -> by congruence. exists pt. split_and!; [done..|].
    unfold contents. rewrite Hdir, lookup_insert_eq. simpl. by rewrite Hi.
  - destruct Hr as [_ He]. rewrite Hframed in He. destruct e; simpl in He; try done.
    destruct (He Hcalm) as [?|[?|?]]; [congruence|lia|congruence].
Qed.

(** A header and a number of full-size segments. *)
Lemma whole_segments_intro header cts :
  length header = HEADER_LEN → Forall (λ x, length x = CHUNK_SIZE + TAG_LEN) cts → cts ≠ [] →
  whole_segments (header ++ concat cts).
Proof.
  intros Hl Hcts Hne. unfold whole_segments.
  rewrite length_app, Hl, (Nat.add_comm HEADER_LEN), Nat.add_sub, (concat_length_const _ _ Hcts).
  split; [|apply Nat.Div0.mod_mul]. destruct cts as [|x cts]; [done|]. cbn [length].
  rewrite Nat.mul_succ_l. pose proof CHUNK_SIZE_pos. lia.
Qed.

(** C23. The two decoders disagree on a last segment of exactly [CHUNK_SIZE] bytes of plaintext, which
    the header comment allows ("the last is [<= chunk_size + 16]") and which no encoder of this
    crate writes: the in-memory decoder accepts it, the file decoder answers [Aead]. *)
Theorem full_last_segment_divergence a dk np wr wk id g g' bs r p :
  blob_segment_aad id = Ok a → new_blob_keys wk id g = (Ok (dk, np, wr), g') →
  seal (enc_from_aead (aes_new dk) np) a bs r = Some p →
  Forall (λ x, length x = CHUNK_SIZE) bs → length r = CHUNK_SIZE →
  let framed := write_header [] wr np ++ flat p in
  decrypt_chunked framed wk id = Ok (concat bs ++ r) ∧
  ∀ input output w,
    fs_ok (w_fs w) → Forall component_ok output → temp_free w output →
    calm w → (try_fill_bytes 8 (w_rng w)).1 ≠ None → is_Some (file_name output) →
    contents (w_fs w) input = Some framed →
    wp (decrypt_file_chunked input output wk id) w (λ res _, res = Err Aead).
Proof.
  intros Ha Hkeys Hseal Hbs Hr framed.
  apply new_blob_keys_inv in Hkeys as (Hdk & Hnp & Hw & wa & Hwa & Henc).
  destruct p as [cts ctr]. pose proof (seal_lengths _ _ _ _ _ _ Hseal) as [Hall Hlr].
  apply (sealed_block_lengths CHUNK_SIZE) in Hall as Hcts. apply Hcts in Hbs as Hbs'.
  pose proof CHUNK_SIZE_pos. split.
  - assert (0 < length ctr ≤ CHUNK_SIZE + TAG_LEN) as Hctr by (rewrite Hlr, Hr; unfold TAG_LEN; lia).
    unfold framed. rewrite (decrypt_frame wr np cts ctr wk id Hw Hnp Hbs' Hctr), Ha, Hwa. rsimpl.
    rewrite (unwrap_wrapped _ _ _ dk) by done.
    by rewrite (seal_unseal _ _ _ _ _ _ _ _ _ _ (sync_init _ _) Hseal).
  - intros input output w Hok Hout Hfree Hcalm Hrng Hname Hframed.
    assert (whole_segments framed) as Hwhole.
    { unfold framed, flat. cbn [fst snd].
      replace (concat cts ++ ctr) with (concat (cts ++ [ctr]))
        by (rewrite concat_app; cbn [concat]; by rewrite app_nil_r).
      apply whole_segments_intro; [by apply write_header_length| |by destruct cts].
      apply Forall_app. split; [done|]. constructor; [|done]. exact (eq_trans Hlr (f_equal (λ k, k + TAG_LEN) Hr)). }
    apply blob_segment_aad_ok in Ha as [Hid _].
    eapply wp_mono; [apply (decrypt_file_calm _ _ _ _ _ framed); try done; apply Nat.lt_le_incl, Hwhole|].
    intros [u|e] w' Hres; [by destruct Hres as (? & _ & ? & _)|]. by destruct Hres as [-> _].
Qed.

(** An encrypted frame never ends in a full-size segment. *)
Lemma encrypted_not_whole pt wk id g framed g' :
  encrypt_chunked pt wk id g = (Ok framed, g') →
  HEADER_LEN ≤ length framed ∧ valid_id id ∧ ¬ whole_segments framed.
Proof.
  intros (a & dk & np & w & [cts ctr] & Ha & Hkeys & Hseal & ->)%encrypt_chunked_inv.
  apply new_blob_keys_inv in Hkeys as (_ & Hnp & Hw & _).
  destruct (seal_blocks_shape _ _ _ _ _ Hseal) as (Hcts & Hctr & _).
  unfold whole_segments. rewrite length_app, write_header_length by done.
  split_and!; [lia|by apply blob_segment_aad_ok in Ha as [? _]|].
  rewrite Nat.add_comm, Nat.add_sub. intros [_ Hmod].
  assert (length (flat (cts, ctr)) = length ctr + length cts * (CHUNK_SIZE + TAG_LEN)) as Hlen.
  { unfold flat. cbn [fst snd]. rewrite length_app, (concat_length_const _ _ Hcts).
    apply Nat.add_comm. }
  rewrite Hlen, Nat.Div0.mod_add, Nat.mod_small in Hmod by lia. unfold TAG_LEN in *. lia.
Qed.

(** From file to file and back. If encrypting [input] to [blob] has succeeded, then in any later
    state in which [blob] still has its contents, under a calm schedule, decrypting [blob] to
    [output] succeeds and [output] has the contents [input] had. *)
Theorem file_round_trip input blob output wk id w w1 w2 :
  fs_ok (w_fs w) → distinct_files (w_fs w) input blob →
  run (encrypt_file_chunked input blob wk id w) = Some (Ok tt, w1) →
  contents (w_fs w2) blob = contents (w_fs w1) blob →
  fs_ok (w_fs w2) → Forall component_ok output → temp_free w2 output →
  calm w2 → (try_fill_bytes 8 (w_rng w2)).1 ≠ None → is_Some (file_name output) →
  ∃ pt w3, contents (w_fs w) input = Some pt ∧
    run (decrypt_file_chunked blob output wk id w2) = Some (Ok tt, w3) ∧
    contents (w_fs w3) output = Some pt.
Proof.
  intros Hok Hdist Henc Hblob Hok2 Hout Hfree Hcalm Hrng Hname.
  pose proof (wp_run_eq _ _ _ _ _ (encrypt_file_result input blob wk id w Hok Hdist) Henc) as Hpost.
  cbv zeta in Hpost. destruct (encrypt_chunked _ wk id (w_rng w)) as [ref g] eqn:Href.
  destruct Hpost as (_ & _ & Hin & framed & -> & Hframed).
  destruct (contents (w_fs w) input) as [pt|] eqn:Hpt; [|done]. simpl in Href.
  rewrite Hframed in Hblob. destruct (encrypted_not_whole _ _ _ _ _ _ Href) as (Hlen & Hid & Hw).
  apply decrypt_encrypted in Href.
  destruct (wp_run _ _ _ (decrypt_file_calm blob output wk id w2 framed Hok2 Hout Hfree Hcalm Hrng
    Hname Hblob Hlen Hid)) as (r & w3 & Hrun & Hr).
  exists pt, w3. split; [done|]. destruct r as [[]|e].
  - destruct Hr as (pt' & Hdec & _ & Hc). split; [done|]. congruence.
  - destruct Hr as [_ [Hbad|Hbad]]; [congruence|done].
Qed.

End decrypt_file_theorems.

(** ** Witnesses *)

Definition blob_world : world := world_with (toy_gen 7) blob_path sample_frame choppy.

Lemma blob_world_temp_free frame sched :
  temp_free (world_with (toy_gen 7) blob_path frame sched) out_path.
Proof.
  intros tmp g Htmp. change (w_rng (world_with (toy_gen 7) blob_path frame sched)) with (toy_gen 7) in Htmp.
  vm_compute in Htmp. injection Htmp as <- _.
  apply lookup_singleton_None. vm_compute. discriminate.
Qed.

Lemma choppy_calm : Forall (λ o, o ≠ Fail ∧ o ≠ Intr) choppy.
Proof. repeat constructor; discriminate. Qed.

Lemma decrypt_file_refines_witness :
  wp (decrypt_file_chunked blob_path out_path sample_wk (lit "blob-a")) blob_world (λ r w',
    (∀ q, q ≠ out_path → is_Some (fs_dir (w_fs blob_world) !! q) →
          contents (w_fs w') q = contents (w_fs blob_world) q) ∧
    match r with
    | Ok _ => ∃ framed pt, contents (w_fs blob_world) blob_path = Some framed ∧
                decrypt_chunked framed sample_wk (lit "blob-a") = Ok pt ∧
                contents (w_fs w') out_path = Some pt
    | Err e => contents (w_fs w') out_path = contents (w_fs blob_world) out_path ∧
               decrypt_error blob_world (contents (w_fs blob_world) blob_path) out_path sample_wk
                 (lit "blob-a") e
    end).
Proof.
  apply decrypt_file_refines; [apply world_with_ok|apply out_path_ok|apply blob_world_temp_free].
Defined.

(** The same run, executed. *)
Example decrypt_file_runs :
  match run (decrypt_file_chunked blob_path out_path sample_wk (lit "blob-a") blob_world) with
  | Some (Ok _, w') => contents (w_fs w') out_path = Some (lit "some data")
  | _ => False
  end.
Proof. vm_compute. reflexivity. Qed.

Lemma decrypt_file_atomic_witness :
  let st := stage (w_fs blob_world) out_path
              (plaintext_of (w_fs blob_world) blob_path sample_wk (lit "blob-b")) in
  wp (decrypt_file_chunked blob_path out_path sample_wk (lit "blob-b")) blob_world (λ r w',
    (∃ new, w_hist w' = new ++ w_hist blob_world ∧ Forall st new) ∧ st (w_fs w') ∧
    match r with
    | Ok _ => ∃ pt i, plaintext_of (w_fs blob_world) blob_path sample_wk (lit "blob-b") pt ∧
                fs_ino (w_fs blob_world) !! i = None ∧
                fs_dir (w_fs w') = <[out_path := i]> (fs_dir (w_fs blob_world)) ∧
                fs_ino (w_fs w') !! i = Some {| i_data := pt; i_synced := true |}
    | Err e =>
        fs_dir (w_fs w') = fs_dir (w_fs blob_world) ∨
        (∃ used, w_sched blob_world = used ++ Fail :: w_sched w' ∧
                 (e = Io → ¬ Forall (λ o, o ≠ Fail ∧ o ≠ Intr) used)) ∧
        ∃ tmp g i, sibling_temp_path out_path (w_rng blob_world) = (Ok tmp, g) ∧
                   fs_dir (w_fs w') = <[tmp := i]> (fs_dir (w_fs blob_world))
    end).
Proof.
  apply decrypt_file_atomic; [apply world_with_ok|apply out_path_ok|apply blob_world_temp_free].
Defined.

(** The run makes seven system calls. Its result, and whether the directory is as before, when the
    [k]-th call and those after it are answered by [faults]. *)
Definition faulty_run (faults : list outcome) (k : nat) : option (bool * bool) :=
  '(r, w') ← run (decrypt_file_chunked blob_path out_path sample_wk (lit "blob-a")
                    (world_with (toy_gen 7) blob_path sample_frame (replicate k Full ++ faults)));
  Some (is_ok r, bool_decide (fs_dir (w_fs w') = fs_dir (w_fs blob_world))).

Example one_fault_leaves_nothing :
  map (faulty_run [Fail]) (seq 0 8) = replicate 7 (Some (false, true)) ++ [Some (true, false)].
Proof. vm_compute. reflexivity. Qed.

(** The temporary file stays when its removal fails too. *)
Example refused_cleanup_leaves_file : faulty_run [Fail; Fail] 5 = Some (false, false).
Proof. vm_compute. reflexivity. Qed.

Lemma decrypt_file_crash_safe_witness :
  wp (decrypt_file_chunked blob_path out_path sample_wk (lit "blob-a")) blob_world (λ r w',
    ∃ new, w_hist w' = new ++ w_hist blob_world ∧
      Forall (λ fs, ∀ fs', crash fs fs' →
        contents fs' out_path = contents (w_fs blob_world) out_path ∨
        ∃ pt, plaintext_of (w_fs blob_world) blob_path sample_wk (lit "blob-a") pt ∧
              contents fs' out_path = Some pt)
        (w_fs w' :: new)).
Proof.
  apply decrypt_file_crash_safe;
    [apply world_with_ok|apply out_path_ok|apply blob_world_temp_free|apply world_with_on_disk].
Defined.

Lemma decrypt_file_refused_creates_nothing_witness :
  wp (decrypt_file_chunked blob_path out_path sample_wk (lit "blob-b")) blob_world (λ r w',
    w_rng w' = w_rng blob_world ∧ w_fs w' = w_fs blob_world ∧
    (∃ new, w_hist w' = new ++ w_hist blob_world ∧ Forall (eq (w_fs blob_world)) new) ∧
    (r = Err Aead ∨ r = Err Io ∧ ¬ calm blob_world)).
Proof.
  apply (decrypt_file_refused_creates_nothing _ _ _ _ _ sample_frame);
    [apply world_with_ok|vm_compute; reflexivity| |by split|vm_compute; reflexivity].
  apply Nat.leb_le. vm_compute. reflexivity.
Defined.

(** One full chunk sealed as a last segment. *)
Lemma one_chunk_sealed dk np id a r :
  blob_segment_aad id = Ok a → length r = CHUNK_SIZE →
  is_Some (seal (enc_from_aead (aes_new dk) np) a [] r).
Proof.
  intros [[_ Hid] ->]%blob_segment_aad_ok Hr. pose proof CHUNK_SIZE_Z as Hcs.
  eapply seal_total; [apply sync_init|done|]. apply Forall_singleton. split; cbn [msg aad].
  - rewrite Hr. lia.
  - rewrite length_app, prefixed_length. change (length BLOB_DOMAIN) with 20. lia.
Qed.

Lemma full_last_segment_divergence_witness :
  ∃ np wr r p, length r = CHUNK_SIZE ∧
    let framed := write_header [] wr np ++ flat p in
    decrypt_chunked framed sample_wk (lit "blob-a") = Ok (concat [] ++ r) ∧
    ∀ sched, calm (world_with (toy_gen 7) blob_path framed sched) →
      wp (decrypt_file_chunked blob_path out_path sample_wk (lit "blob-a"))
        (world_with (toy_gen 7) blob_path framed sched) (λ res _, res = Err Aead).
Proof.
  destruct one_chunk as [r Hr]. destruct sample_keys as (dk & np & wr & a & Hk & Ha).
  destruct (one_chunk_sealed dk np _ _ r Ha Hr) as [p Hp].
  exists np, wr, r, p. split; [exact Hr|].
  destruct (full_last_segment_divergence a dk np wr sample_wk (lit "blob-a") (toy_gen 1) (toy_gen 4)
    [] r p Ha Hk Hp (Forall_nil_2 _) Hr) as [Hm Hf].
  split; [exact Hm|]. intros sched Hc.
  apply Hf; [apply world_with_ok|apply out_path_ok|apply blob_world_temp_free|exact Hc| | |].
  - vm_compute. discriminate.
  - vm_compute. eauto.
  - unfold contents, world_with. cbn [w_fs fs_dir fs_ino]. by rewrite !lookup_singleton_eq.
Defined.
