(* ===== verification/Jobs.v ===== *)
(** * File operations that run at the same time: the interference between them

    A job is a call of one of the two file codecs in a process of its own. Decryptions go through
    temporary files with random names, encryptions write their outputs in place. This file has
    the invariant of the shared file system and what the steps of each job do to it: they are
    harmless to all the other jobs. *)

From S2P Require Import Prelude Ints Errors Prims Toy Aad Segments Blob Path Process Threads Io IoSpec.
From S2P Require Import BlobFile EncryptFile Publish DecryptFile.
From Stdlib Require Import Lia.

(** ** Jobs *)

Inductive operation := Encrypting | Decrypting.

Section jobs.
Context `{OsRng}.

(** A call of [encrypt_file_chunked] or [decrypt_file_chunked], with the randomness and the
    answers to system calls that its process will get. *)
Record job := {
  j_op : operation;
  j_input : Path;
  j_output : Path;
  j_key : bytes;
  j_id : str;
  j_rng : rng;
  j_sched : list outcome;
}.

Definition job_world (j : job) (fs : filesys) : world :=
  {| w_rng := j_rng j; w_fs := fs; w_sched := j_sched j; w_hist := [] |}.

Definition job_calm (j : job) : Prop := Forall (λ o, o ≠ Fail ∧ o ≠ Intr) (j_sched j).

(** The path that a job will choose for its temporary file. *)
Definition temp_of (j : job) (tmp : Path) : Prop :=
  ∃ g, sibling_temp_path (j_output j) (j_rng j) = (Ok tmp, g).

(** The paths where a job leaves unfinished work. *)
Definition scratch_of (j : job) (p : Path) : Prop :=
  match j_op j with
  | Encrypting => p = j_output j
  | Decrypting => temp_of j p
  end.

Definition codec_of `{AesGcm} (j : job) : io world FilumCryptoError unit :=
  match j_op j with
  | Encrypting => encrypt_file_chunked (j_input j) (j_output j) (j_key j) (j_id j)
  | Decrypting => decrypt_file_chunked (j_input j) (j_output j) (j_key j) (j_id j)
  end.

Definition process_of `{AesGcm} (fs : filesys) (j : job) : prog (Result unit * world) :=
  Call fs (λ found, codec_of j (job_world j found)).

Definition final_fs (rw : Result unit * world) : filesys := w_fs rw.2.

(** The processes of [jobs], about to start. *)
Definition start `{AesGcm} (fs : filesys) (jobs : list job) : config (A := Result unit * world) :=
  {| c_fs := fs; c_threads := process_of fs <$> jobs |}.

(** No job writes what another one reads, the temporary names are free, no two jobs use one path
    for their unfinished work, and a file that is encrypted to has a single name. *)
Record independent (fs0 : filesys) (jobs : list job) : Prop := {
  ind_ok : fs_ok fs0;
  ind_output j : j ∈ jobs → j_op j = Decrypting → Forall component_ok (j_output j);
  ind_free j tmp : j ∈ jobs → j_op j = Decrypting → temp_of j tmp → fs_dir fs0 !! tmp = None;
  ind_scratch n m j k p : jobs !! n = Some j → jobs !! m = Some k →
    scratch_of j p → scratch_of k p → n = m;
  ind_scratch_io j k p : j ∈ jobs → k ∈ jobs → scratch_of j p →
    p ≠ j_input k ∧ (j_op k = Decrypting → p ≠ j_output k);
  ind_input j k : j ∈ jobs → k ∈ jobs → j_input j ≠ j_output k;
  ind_single j q i : j ∈ jobs → j_op j = Encrypting →
    fs_dir fs0 !! j_output j = Some i → fs_dir fs0 !! q = Some i → q = j_output j;
}.

End jobs.

(** ** The invariant and the interference *)

Section interference.
Context `{OsRngLaws, AesGcmLaws}.
Context (fs0 : filesys) (jobs : list job) (Hind : independent fs0 jobs).

(** [n] is the number of a job that works at [p]. *)
Definition scratch_at (n : nat) (p : Path) : Prop := ∃ j, jobs !! n = Some j ∧ scratch_of j p.

Definition is_scratch (p : Path) : Prop := ∃ n, scratch_at n p.

(** The inodes of [fs0], apart from the files that jobs encrypt to. *)
Definition kept (i : nat) : Prop :=
  is_Some (fs_ino fs0 !! i) ∧ ∀ p, is_scratch p → fs_dir fs0 !! p ≠ Some i.

Definition new_inode (i : nat) : Prop := fs_ino fs0 !! i = None.

Definition plaintext_at (p : Path) (pt : bytes) : Prop :=
  ∃ j, j ∈ jobs ∧ j_op j = Decrypting ∧ j_output j = p ∧
       plaintext_of fs0 (j_input j) (j_key j) (j_id j) pt.

(** What the entry [i] of a path is: as it was, unfinished work, or a published plaintext. *)
Definition entry_ok (fs : filesys) (p : Path) (i : nat) : Prop :=
  fs_dir fs0 !! p = Some i ∨
  new_inode i ∧ is_Some (fs_ino fs !! i) ∧
  (is_scratch p ∨ ∃ pt, plaintext_at p pt ∧ fs_ino fs !! i = Some {| i_data := pt; i_synced := true |}).

Record Inv (fs : filesys) : Prop := {
  inv_kept_ino i : kept i → fs_ino fs !! i = fs_ino fs0 !! i;
  inv_alive i : is_Some (fs_ino fs0 !! i) → is_Some (fs_ino fs !! i);
  inv_entry p i : fs_dir fs !! p = Some i → entry_ok fs p i;
  inv_kept p : fs_dir fs !! p = None → fs_dir fs0 !! p = None;
  inv_single p q i : new_inode i → fs_dir fs !! p = Some i → fs_dir fs !! q = Some i → p = q;
}.

Definition published_at (p : Path) (fs : filesys) : Prop :=
  ∃ i, fs_dir fs !! p = Some i ∧ new_inode i.

(** An inode at no place of work: nobody will write to it again. *)
Definition settled (i : nat) (fs : filesys) : Prop :=
  is_Some (fs_ino fs !! i) ∧ ∀ p, is_scratch p → fs_dir fs !! p ≠ Some i.

(** A change that job [n] does not mind: the kept inodes, its unfinished work, every publication
    and every settled inode stay, and so does the invariant. *)
Definition kept_same (fs fs' : filesys) : Prop :=
  ∀ i, kept i → fs_ino fs' !! i = fs_ino fs !! i.

Definition scratch_same (n : nat) (fs fs' : filesys) : Prop :=
  ∀ p, scratch_at n p → fs_dir fs' !! p = fs_dir fs !! p ∧
    ∀ i, fs_dir fs !! p = Some i → fs_ino fs' !! i = fs_ino fs !! i.

Definition published_stay (fs fs' : filesys) : Prop :=
  ∀ p, ¬ is_scratch p → published_at p fs → published_at p fs'.

Definition settled_stay (fs fs' : filesys) : Prop :=
  ∀ i, settled i fs → settled i fs' ∧ fs_ino fs' !! i = fs_ino fs !! i.

Definition respects (n : nat) (fs fs' : filesys) : Prop :=
  kept_same fs fs' ∧
  (Inv fs → Inv fs' ∧ scratch_same n fs fs' ∧ published_stay fs fs' ∧ settled_stay fs fs').

(** A change that no other job than [n] minds. *)
Definition spares (n : nat) (fs fs' : filesys) : Prop := ∀ m, m ≠ n → respects m fs fs'.

#[export] Instance settled_stay_preorder : PreOrder settled_stay.
Proof.
  split; [by intros fs i|]. intros fs1 fs2 fs3 Ha Hb i [Hi He]%Ha. destruct (Hb _ Hi) as [? ->]. done.
Qed.

#[export] Instance respects_preorder n : PreOrder (respects n).
Proof.
  split.
  - intros fs. split; [by intros i|]. intros Hi. split_and!; [done|by split|by intros p|by intros i].
  - intros fs1 fs2 fs3 [Ho1 Ha] [Ho2 Hb]. split; [intros i Hi; by rewrite Ho2, Ho1|].
    intros Hi1. destruct (Ha Hi1) as (Hi2 & Ht1 & Hp1 & Hs1), (Hb Hi2) as (Hi3 & Ht2 & Hp2 & Hs2).
    split_and!; [done| |intros p ? ?; auto|by etrans]. intros p Hp.
    destruct (Ht1 _ Hp) as [Hd1 Hj1], (Ht2 _ Hp) as [Hd2 Hj2].
    split; [congruence|]. intros i Hi. by rewrite Hj2, Hj1 by congruence.
Qed.

#[export] Instance spares_preorder n : PreOrder (spares n).
Proof. split; [by intros fs m|]. intros fs1 fs2 fs3 Ha Hb m Hm. etrans; eauto. Qed.

Lemma spares_inv n fs fs' : Inv fs → spares n fs fs' → Inv fs' ∧ settled_stay fs fs'.
Proof. intros Hi Hs. destruct (Hs (S n)) as [_ Hr]; [lia|]. by destruct (Hr Hi) as (? & _ & _ & ?). Qed.

(** The file where job [n] is working. *)
Definition own (n : nat) (p : Path) (i : nat) (fs : filesys) : Prop :=
  Inv fs ∧ scratch_at n p ∧ fs_dir fs !! p = Some i.

(** Job [n] has no unfinished work. *)
Definition clean (n : nat) (fs : filesys) : Prop :=
  ∀ p, scratch_at n p → fs_dir fs !! p = fs_dir fs0 !! p.

(** *** Facts about the places of work *)

Lemma scratch_inj n m p : scratch_at n p → scratch_at m p → n = m.
Proof. intros (j & Hj & Ht) (k & Hk & Hu). by eapply (ind_scratch _ _ Hind n m). Qed.

Lemma scratch_not_input p j : j ∈ jobs → is_scratch p → p ≠ j_input j.
Proof. intros Hj (n & k & Hk%list_elem_of_lookup_2 & Hp). by eapply ind_scratch_io. Qed.

Lemma output_not_scratch j : j ∈ jobs → j_op j = Decrypting → ¬ is_scratch (j_output j).
Proof.
  intros Hj Hop (n & k & Hk%list_elem_of_lookup_2 & Hp).
  by destruct (ind_scratch_io _ _ Hind _ _ _ Hk Hj Hp) as [_ []].
Qed.

(** A place of work that existed at first is the output of an encryption, and has one name. *)
Lemma scratch_single p q i :
  is_scratch p → fs_dir fs0 !! p = Some i → fs_dir fs0 !! q = Some i → q = p.
Proof.
  intros (n & j & Hj%list_elem_of_lookup_2 & Hs) Hp Hq. unfold scratch_of in Hs.
  destruct (j_op j) eqn:Hop.
  - subst p. by eapply ind_single.
  - by rewrite (ind_free _ _ Hind _ _ Hj Hop Hs) in Hp.
Qed.

(** A file at another path than the places of work is kept. *)
Lemma not_scratch_kept p i : ¬ is_scratch p → fs_dir fs0 !! p = Some i → kept i.
Proof.
  intros Hp Hi. split; [by eapply ind_ok|]. intros q Hq Hqi.
  pose proof (scratch_single _ _ _ Hq Hqi Hi). by subst.
Qed.

Lemma temp_new n j tmp i fs :
  jobs !! n = Some j → j_op j = Decrypting → own n tmp i fs →
  new_inode i ∧ is_Some (fs_ino fs !! i).
Proof.
  intros Hj Hop (Hinv & (k & Hk & Ht) & Hd). assert (k = j) as -> by congruence.
  unfold scratch_of in Ht. rewrite Hop in Ht.
  destruct (inv_entry _ Hinv _ _ Hd) as [Hd0|(? & ? & _)]; [|done].
  by rewrite (ind_free _ _ Hind _ _ (list_elem_of_lookup_2 _ _ _ Hj) Hop Ht) in Hd0.
Qed.

(** An entry stays acceptable while its inode is the same. *)
Lemma entry_same fs fs' p i :
  fs_ino fs' !! i = fs_ino fs !! i → entry_ok fs p i → entry_ok fs' p i.
Proof. intros Hi [?|(? & ? & ?)]; [by left|right]. by rewrite Hi. Qed.

Lemma inv_backed fs p i : Inv fs → fs_dir fs !! p = Some i → is_Some (fs_ino fs !! i).
Proof.
  intros Hinv Hp. destruct (inv_entry _ Hinv _ _ Hp) as [Hp0|(_ & ? & _)]; [|done].
  by eapply (inv_alive _ Hinv), ind_ok.
Qed.

(** A file where a job works has no other name, and is not kept. *)
Lemma own_single n p q i fs : own n p i fs → fs_dir fs !! q = Some i → q = p.
Proof.
  intros (Hinv & Hp & Hd) Hq. destruct (inv_entry _ Hinv _ _ Hd) as [Hd0|(Hnew & _)].
  - destruct (inv_entry _ Hinv _ _ Hq) as [Hq0|(Hnew & _)].
    + eapply scratch_single; [by exists n|done|done].
    + destruct (ind_ok _ _ Hind _ _ Hd0). unfold new_inode in Hnew. congruence.
  - by eapply (inv_single _ Hinv).
Qed.

Lemma own_not_kept n p i fs j : own n p i fs → kept j → j ≠ i.
Proof.
  intros (Hinv & Hp & Hd) [Hj Hjp] ->. destruct (inv_entry _ Hinv _ _ Hd) as [Hd0|(Hnew & _)].
  - by eapply Hjp; [exists n|].
  - unfold new_inode in Hnew. rewrite Hnew in Hj. by destruct Hj.
Qed.

Lemma own_not_settled n p i fs j : own n p i fs → settled j fs → j ≠ i.
Proof. intros (_ & Hp & Hd) [_ Hj] ->. by eapply Hj; [exists n|]. Qed.

(** *** The steps of a job *)

(** Writing to the file it owns. *)
Lemma only_spares n p i fs fs' :
  own n p i fs → only i fs fs' → spares n fs fs' ∧ own n p i fs'.
Proof.
  intros Hown (Hd & Ho & Hsome). pose proof Hown as (Hinv & Hp & Hdi).
  assert (∀ q j, fs_dir fs !! q = Some j → q ≠ p → j ≠ i) as Hother.
  { intros q j Hq Hne ->. by eapply Hne, own_single. }
  assert (kept_same fs fs') as Hkept by (intros j Hj; by eapply Ho, own_not_kept).
  assert (Inv fs') as Hinv'.
  { split.
    - intros j Hj. rewrite Hkept by done. by apply (inv_kept_ino _ Hinv).
    - intros j Hj%(inv_alive _ Hinv). destruct (decide (j = i)) as [->|Hne]; [auto|by rewrite Ho].
    - intros q j. rewrite Hd. intros Hq. destruct (decide (q = p)) as [->|Hne].
      + assert (j = i) as -> by congruence.
        destruct (inv_entry _ Hinv _ _ Hdi) as [?|(? & ? & _)]; [by left|right].
        split_and!; [done|auto|]. left. by exists n.
      + eapply entry_same; [apply Ho; by eapply Hother|by apply (inv_entry _ Hinv)].
    - intros q. rewrite Hd. apply (inv_kept _ Hinv).
    - intros q q' j. rewrite Hd. apply (inv_single _ Hinv). }
  split; [|by split_and!; [..|rewrite Hd]]. intros m Hm. split; [done|]. intros _. split_and!; [done|..].
  - intros q Hq. rewrite Hd. split; [done|]. intros j Hj. apply Ho, (Hother q j); [done|].
    intros ->. by eapply Hm, scratch_inj.
  - intros q _ (j & Hj & ?). exists j. by rewrite Hd.
  - intros j Hj. assert (j ≠ i) as Hne by by eapply own_not_settled.
    destruct Hj as [Hj Hjp]. split; [|by apply Ho]. split; [by rewrite Ho|]. by rewrite Hd.
Qed.

(** Changes of the directory that leave every inode alone. *)
Lemma relink_spares n fs d :
  let fs' := set_dir d fs in
  Inv fs → Inv fs' →
  (∀ m p, m ≠ n → scratch_at m p → d !! p = fs_dir fs !! p) →
  (∀ p i, scratch_at n p → d !! p = Some i → fs_dir fs !! p = Some i) →
  (∀ p, ¬ is_scratch p → published_at p fs → published_at p fs') →
  spares n fs fs'.
Proof.
  intros fs' Hinv Hinv' Ht Hn Hp m Hm. split; [done|]. intros _. split_and!; [done| |done|].
  - intros p Hsc. split; [by eapply Ht|done].
  - intros i [Hi Hip]. split; [|done]. split; [done|]. intros p Hsc Hpi. apply (Hip _ Hsc).
    destruct Hsc as [k Hk]. destruct (decide (k = n)) as [->|Hne]; [by apply Hn|].
    by rewrite <-(Ht _ _ Hne Hk).
Qed.

(** Creating the file where it works: an existing output is truncated in place. *)
Lemma create_spares n p i fs fs' :
  Inv fs → clean n fs → scratch_at n p → creates p i fs fs' →
  spares n fs fs' ∧ own n p i fs'.
Proof.
  intros Hinv Hcl Hp (Hd & Ho & [Hold|[Hnone Hi]] & Hsome).
  - apply (only_spares n p i fs fs'); [by split_and!|]. split_and!; [|done|done].
    by rewrite Hd, insert_id.
  - assert (new_inode i) as Hnew.
    { unfold new_inode. destruct (fs_ino fs0 !! i) as [x|] eqn:Hx; [|done].
      destruct (inv_alive _ Hinv i) as [y Hy]; [by eexists|congruence]. }
    assert (∀ j, is_Some (fs_ino fs !! j) → j ≠ i) as Hex by (intros j Hj ->; rewrite Hi in Hj; by destruct Hj).
    assert (∀ q j, fs_dir fs !! q = Some j → j ≠ i) as Hother.
    { intros q j Hq. by eapply Hex, inv_backed. }
    assert (kept_same fs fs') as Hkept.
    { intros j [Hj _]. apply Ho, Hex. by apply (inv_alive _ Hinv). }
    assert (Inv fs') as Hinv'.
    { split.
      - intros j Hj. rewrite Hkept by done. by apply (inv_kept_ino _ Hinv).
      - intros j Hj%(inv_alive _ Hinv). rewrite Ho by by apply Hex. done.
      - intros q j. rewrite Hd, lookup_insert_Some. intros [[<- <-]|[_ Hq]].
        + right. split_and!; [done..|]. left. by exists n.
        + eapply entry_same; [apply Ho; by eapply Hother|by apply (inv_entry _ Hinv)].
      - intros q. rewrite Hd, lookup_insert_None. intros [? _]. by apply (inv_kept _ Hinv).
      - intros q q' j Hj. rewrite Hd, !lookup_insert_Some. intros [[<- <-]|[_ Hq]] [[<- Hq']|[_ Hq']];
          [done|by destruct (Hother _ _ Hq')|subst j; by destruct (Hother _ _ Hq)|].
        by eapply (inv_single _ Hinv). }
    split; [|by split_and!; [..|rewrite Hd, lookup_insert_eq]]. intros m Hm. split; [done|].
    intros _. split_and!; [done|..].
    + intros q Hq. rewrite Hd, lookup_insert_ne by (intros ->; by eapply Hm, scratch_inj).
      split; [done|]. intros j Hj. by eapply Ho, Hother.
    + intros q Hq (j & Hj & ?). exists j. split; [|done].
      rewrite Hd, lookup_insert_ne; [done|]. intros ->. by destruct Hq; exists n.
    + intros j [Hj Hjp]. pose proof (Hex _ Hj) as Hne. split; [|by apply Ho].
      split; [by rewrite Ho|]. intros q Hq. rewrite Hd, lookup_insert_Some.
      intros [[_ ?]|[_ ?]]; [congruence|by eapply Hjp].
Qed.

(** Removing its temporary file. *)
Lemma remove_spares n j tmp i fs :
  jobs !! n = Some j → j_op j = Decrypting → own n tmp i fs →
  let fs' := set_dir (delete tmp (fs_dir fs)) fs in
  spares n fs fs' ∧ Inv fs' ∧ clean n fs'.
Proof.
  intros Hj Hop (Hinv & Htmp & Hdi) fs'.
  assert (∀ tmp', scratch_at n tmp' → tmp' = tmp ∧ fs_dir fs0 !! tmp' = None) as Honly.
  { destruct Htmp as (k & Hk & Ht). intros tmp' (k' & Hk' & Ht'). simplify_eq.
    unfold scratch_of, temp_of in Ht, Ht'. rewrite Hop in Ht, Ht'. destruct Ht as [g Hg], Ht' as [g' Hg'].
    split; [congruence|]. eapply (ind_free _ _ Hind j); [by eapply list_elem_of_lookup_2|done|by eexists]. }
  assert (Inv fs') as Hinv'.
  { split; simpl.
    - apply (inv_kept_ino _ Hinv).
    - apply (inv_alive _ Hinv).
    - intros p k [_ Hp]%lookup_delete_Some. by apply (entry_same fs), (inv_entry _ Hinv).
    - intros p [->|Hp]%lookup_delete_None; [by apply Honly|by apply (inv_kept _ Hinv)].
    - intros p q k Hk [_ Hp]%lookup_delete_Some [_ Hq]%lookup_delete_Some.
      by eapply (inv_single _ Hinv). }
  split_and!; [|done|].
  - apply relink_spares; [done|done|..].
    + intros m p Hm Ht. apply lookup_delete_ne. intros ->. by eapply Hm, scratch_inj.
    + by intros p k _ [_ ?]%lookup_delete_Some.
    + intros p Hp (k & Hk & ?). exists k. split; [|done]. simpl. rewrite lookup_delete_ne; [done|].
      intros ->. by destruct Hp; exists n.
  - intros p Hp. destruct (Honly _ Hp) as [-> ->]. apply lookup_delete_eq.
Qed.

(** Publishing its temporary file. *)
Lemma rename_spares n j tmp i pt fs :
  jobs !! n = Some j → j_op j = Decrypting → own n tmp i fs →
  fs_ino fs !! i = Some {| i_data := pt; i_synced := true |} →
  plaintext_of fs0 (j_input j) (j_key j) (j_id j) pt →
  let fs' := set_dir (<[j_output j := i]> (delete tmp (fs_dir fs))) fs in
  spares n fs fs' ∧ Inv fs' ∧ clean n fs' ∧ published_at (j_output j) fs'.
Proof.
  intros Hj Hop Hown Hi Hpt fs'. destruct (temp_new _ _ _ _ _ Hj Hop Hown) as [Hnew Hsome].
  destruct (remove_spares _ _ _ _ _ Hj Hop Hown) as (Hsp & Hrm & Hcl). pose proof Hown as (Hinv & Htmp & Hdi).
  pose proof (list_elem_of_lookup_2 _ _ _ Hj) as Hin. set (o := j_output j) in *.
  pose proof (output_not_scratch _ Hin Hop) as Hout. fold o in Hout.
  assert (∀ m p, scratch_at m p → o ≠ p) as Hne by (intros m p Hp ->; destruct Hout; by exists m).
  assert (Inv fs') as Hinv'.
  { split; simpl.
    - apply (inv_kept_ino _ Hinv).
    - apply (inv_alive _ Hinv).
    - intros p k [[<- <-]|[_ Hp]]%lookup_insert_Some; [|exact (inv_entry _ Hrm p k Hp)].
      right. split_and!; [done..|]. right. exists pt. split; [by exists j|done].
    - intros p [Hp _]%lookup_insert_None. by apply (inv_kept _ Hrm).
    - assert (∀ q, delete tmp (fs_dir fs) !! q = Some i → False) as Honly.
      { intros q [Hq Hqi]%lookup_delete_Some. by eapply Hq, eq_sym, own_single. }
      intros p q k Hk [[<- <-]|[Hpo Hp]]%lookup_insert_Some [[<- Hq]|[Hqo Hq]]%lookup_insert_Some;
        [done|by destruct (Honly q)|subst k; by destruct (Honly p)|].
      by eapply (inv_single _ Hrm). }
  split_and!; [|done| |].
  - apply relink_spares; [done|done|..].
    + intros m p Hm Ht. rewrite lookup_insert_ne by by eapply Hne.
      apply lookup_delete_ne. intros ->. by eapply Hm, scratch_inj.
    + intros p k Hp. rewrite lookup_insert_ne by by eapply Hne. by intros [_ ?]%lookup_delete_Some.
    + intros p Hp (k & Hk & ?). destruct (decide (p = o)) as [->|Hpo].
      * exists i. split; [apply lookup_insert_eq|done].
      * exists k. split; [|done]. simpl. rewrite lookup_insert_ne, lookup_delete_ne; [done| |done].
        intros ->. destruct Hp. by exists n.
  - intros p Hp. simpl. rewrite lookup_insert_ne by by eapply Hne. by apply Hcl.
  - exists i. split; [apply lookup_insert_eq|done].
Qed.

End interference.
