(* ===== verification/Concurrent.v ===== *)
(** * File operations that run at the same time

    Any number of processes run [encrypt_file_chunked] and [decrypt_file_chunked] over one file
    system, decryptions possibly to the same output path, interleaved at their system calls. Their
    random temporary names keep decryptions apart, as the comment of [sibling_temp_path] claims:
    at every moment every path at which no job works shows what it showed before or a complete
    authentic plaintext, also after a crash, and every interleaving ends with every process having
    returned what it returns alone. *)

From S2P Require Import Prelude Ints Errors Prims Toy Aad Segments Blob Path Process Threads Io IoSpec.
From S2P Require Import BlobFile EncryptFile Publish DecryptFile Jobs.
From Stdlib Require Import Lia.

(** ** The contract of a job *)

Section contracts.
Context `{OsRngLaws, AesGcmLaws}.
Context (fs0 : filesys) (jobs : list job) (Hind : independent fs0 jobs).

#[local] Abbreviation Inv := (Inv fs0 jobs).
#[local] Abbreviation own := (own fs0 jobs).
#[local] Abbreviation clean := (clean fs0 jobs).
#[local] Abbreviation respects := (respects fs0 jobs).
#[local] Abbreviation spares := (spares fs0 jobs).

#[program] Definition job_interference (n : nat) : Interference := {|
  rely := respects n;
  guar := spares n;
  owned := λ i fs, ∃ p, own n p i fs;
|}.
Next Obligation.
  intros n i fs fs' (p & Hinv & Hp & Hd) [_ Hr]. destruct (Hr Hinv) as (Hinv' & Ht & _).
  destruct (Ht _ Hp) as [Hd' Hi]. split; [|by apply Hi]. exists p. split_and!; [done..|congruence].
Qed.
Next Obligation.
  intros n i fs fs' (p & Hown) Ho. destruct (only_spares _ _ Hind _ _ _ _ _ Hown Ho). split; [done|by exists p].
Qed.

Lemma own_rely n p i fs fs' : own n p i fs → respects n fs fs' → own n p i fs'.
Proof.
  intros (Hinv & Hp & Hd) [_ Hr]. destruct (Hr Hinv) as (? & Ht & _).
  split_and!; [done..|]. by rewrite (proj1 (Ht _ Hp)).
Qed.

Lemma clean_rely n fs fs' : Inv fs → clean n fs → respects n fs fs' → Inv fs' ∧ clean n fs'.
Proof.
  intros Hinv Hcl [_ Hr]. destruct (Hr Hinv) as (? & Ht & _). split; [done|].
  intros p Hp. rewrite (proj1 (Ht _ Hp)). by apply Hcl.
Qed.

Lemma input_dir j fs : j ∈ jobs → Inv fs → fs_dir fs !! j_input j = fs_dir fs0 !! j_input j.
Proof.
  intros Hj Hinv. destruct (fs_dir fs !! j_input j) as [i|] eqn:Hi; [|symmetry; by apply (inv_kept _ _ _ Hinv)].
  destruct (inv_entry _ _ _ Hinv _ _ Hi) as [?|(_ & _ & [Hs|(pt & (k & Hk & _ & Ho & _) & _)])]; [done|..].
  - by destruct (scratch_not_input _ _ Hind _ _ Hj Hs).
  - by destruct (ind_input _ _ Hind _ _ Hj Hk).
Qed.

(** Nobody touches the input of a job. *)
Lemma input_stays n j fs :
  j ∈ jobs → Inv fs →
  @input_shows (job_interference n) (j_input j) (contents fs0 (j_input j)) fs.
Proof.
  intros Hj Hinv. unfold input_shows, contents. rewrite (input_dir _ _ Hj Hinv).
  destruct (fs_dir fs0 !! j_input j) as [i|] eqn:Hi; simpl; [|done].
  assert (kept fs0 jobs i) as Hk.
  { apply (not_scratch_kept _ _ Hind (j_input j)); [|done]. intros Hs.
    by destruct (scratch_not_input _ _ Hind _ _ Hj Hs). }
  rewrite (inv_kept_ino _ _ _ Hinv _ Hk). destruct (proj1 Hk) as [x Hx]. rewrite Hx.
  split_and!; [by intros fs1 fs2 [Hs _]; apply Hs|by eexists|].
  unfold ino_data. by rewrite (inv_kept_ino _ _ _ Hinv _ Hk), Hx.
Qed.

(** *** Decryptions *)

#[program] Definition job_publication n j (Hj : jobs !! n = Some j) (Hop : j_op j = Decrypting) :
  @Publication (job_interference n) (j_input j) (j_output j) (scratch_at jobs n) (contents fs0 (j_input j))
    (authentic (j_key j) (j_id j) (contents fs0 (j_input j))) := {|
  Free := λ fs, Inv fs ∧ clean n fs;
  Temp := own n;
  Final := λ _ _ fs, Inv fs ∧ clean n fs ∧ published_at fs0 (j_output j) fs;
|}.
Next Obligation. intros n j Hj Hop fs fs' [? ?] ?. by eapply clean_rely. Qed.
Next Obligation. intros n j Hj Hop fs [? _]. by apply input_stays; [eapply list_elem_of_lookup_2|]. Qed.
Next Obligation.
  intros n j Hj Hop fs tmp [_ Hcl] Ht. rewrite (Hcl _ Ht). destruct Ht as (k & Hk & Ht). simplify_eq.
  unfold scratch_of in Ht. rewrite Hop in Ht. by eapply ind_free; [|eapply list_elem_of_lookup_2|..].
Qed.
Next Obligation. intros n j Hj Hop fs tmp i fs' [? ?] ? ?. by apply create_spares. Qed.
Next Obligation. intros n j Hj Hop tmp i fs ?. by exists tmp. Qed.
Next Obligation. intros n j Hj Hop tmp i fs fs' ? ?. by eapply own_rely. Qed.
Next Obligation. intros n j Hj Hop tmp i fs fs' Hown Ho. by eapply only_spares. Qed.
Next Obligation.
  intros n j Hj Hop tmp i fs Hown. split; [apply Hown|]. intros Hd.
  pose proof (own_single _ _ Hind _ _ _ _ _ Hown Hd) as Heq.
  eapply (output_not_scratch _ _ Hind j); [by eapply list_elem_of_lookup_2|done|].
  rewrite Heq. exists n. apply Hown.
Qed.
Next Obligation. intros n j Hj Hop tmp i fs Hown. by eapply remove_spares. Qed.
Next Obligation. intros n j Hj Hop tmp i pt fs Hown Hi Hpt. by eapply rename_spares. Qed.

(** *** Encryptions *)

Definition seen_by (j : job) : bytes := default [] (contents fs0 (j_input j)).

Lemma output_scratch n j : jobs !! n = Some j → j_op j = Encrypting → scratch_at jobs n (j_output j).
Proof. intros Hj Hop. exists j. split; [done|]. unfold scratch_of. by rewrite Hop. Qed.

#[program] Definition job_in_place n j (Hj : jobs !! n = Some j) (Hop : j_op j = Encrypting) :
  @InPlace (job_interference n) (j_input j) (j_output j) (seen_by j) := {|
  Before := λ fs, Inv fs ∧ clean n fs;
  Owns := own n (j_output j);
|}.
Next Obligation. intros n j Hj Hop fs fs' [? ?] ?. by eapply clean_rely. Qed.
Next Obligation.
  intros n j Hj Hop fs i [Hinv _] Hi.
  pose proof (input_stays n j fs (list_elem_of_lookup_2 _ _ _ Hj) Hinv) as Hs.
  unfold input_shows in Hs. rewrite Hi in Hs. apply Hs.
Qed.
Next Obligation.
  intros n j Hj Hop fs1 fs2 fs3 i k [Hinv Hcl] Hk Hr Hc _.
  pose proof (list_elem_of_lookup_2 _ _ _ Hj) as Hin. destruct (clean_rely _ _ _ Hinv Hcl Hr) as [Hinv2 Hcl2].
  assert (fs_dir fs2 !! j_input j = Some k) as Hk2 by by rewrite input_dir in Hk |- *.
  pose proof (input_stays n j fs2 Hin Hinv2) as Hs. unfold input_shows in Hs. rewrite Hk2 in Hs.
  destruct Hs as (_ & Hsome & Hs).
  assert (k ≠ i) as Hne.
  { intros ->. destruct Hc as (_ & _ & [Hold|[_ Hnone]] & _); [|rewrite Hnone in Hsome; by destruct Hsome].
    eapply (ind_input _ _ Hind j j); [done|done|].
    eapply own_single; [done|split_and!; [done|by eapply output_scratch|exact Hold]|done]. }
  destruct Hc as (_ & Ho & _). unfold ino_data, seen_by in *. rewrite Hs, Ho by done. by split; [|right].
Qed.
Next Obligation.
  intros n j Hj Hop fs i fs' [? ?] Hc. apply create_spares; [done..|by apply output_scratch|done].
Qed.
Next Obligation. intros n j Hj Hop i fs ?. by exists (j_output j). Qed.
Next Obligation. intros n j Hj Hop i fs fs' ? ?. by eapply own_rely. Qed.
Next Obligation. intros n j Hj Hop i fs fs' Hown Ho. by eapply only_spares. Qed.

(** *** What a job that has returned can say, from then on *)

Definition encrypt_error (j : job) (e : FilumCryptoError) : Prop :=
  (encrypt_chunked (seen_by j) (j_key j) (j_id j) (j_rng j)).1 = Err e ∨
  e = Io ∧ (job_calm j → contents fs0 (j_input j) = None).

Definition job_post (n : nat) (j : job) (fs : filesys) (r : Result unit) : Prop :=
  match j_op j, r with
  | Encrypting, Ok _ => is_Some (contents fs0 (j_input j)) ∧
      ∃ framed g i x, encrypt_chunked (seen_by j) (j_key j) (j_id j) (j_rng j) = (Ok framed, g) ∧
        fs_dir fs !! j_output j = Some i ∧ fs_ino fs !! i = Some x ∧ i_data x = framed
  | Encrypting, Err e => encrypt_error j e
  | Decrypting, Ok _ => clean n fs ∧ published_at fs0 (j_output j) fs
  | Decrypting, Err e => (clean n fs ∨ ¬ job_calm j) ∧
      decrypt_error (job_world j fs0) (contents fs0 (j_input j)) (j_output j) (j_key j) (j_id j) e
  end.

Lemma decrypt_job_spec n j fs :
  jobs !! n = Some j → j_op j = Decrypting → Inv fs → clean n fs →
  @wp (job_interference n) _ _ _ _ (codec_of j) (job_world j fs)
    (λ r w', Inv (w_fs w') ∧ job_post n j (w_fs w') r).
Proof.
  intros Hj Hop Hinv Hcl. unfold codec_of, job_post. rewrite Hop. eapply wp_mono.
  { apply (decrypt_publication _ _ _ _ (contents fs0 (j_input j)) (scratch_at jobs n)
      (Publication0 := job_publication n j Hj Hop)); [by split|].
    intros tmp g Htmp. exists j. split; [done|]. unfold scratch_of. rewrite Hop. by exists g. }
  intros [u|e] w' [_ Hr].
  - by destruct Hr as (framed & pt & i & _ & _ & _ & ? & ? & ?).
  - destruct Hr as [[[? ?]|(Hc & tmp & i & _ & [? _])] He]; (split; [done|]; split; [|done]);
      [by left|right; exact (cleanup_refused_calm _ _ _ Hc)].
Qed.

Lemma encrypt_job_spec n j fs :
  jobs !! n = Some j → j_op j = Encrypting → Inv fs → clean n fs →
  @wp (job_interference n) _ _ _ _ (codec_of j) (job_world j fs)
    (λ r w', Inv (w_fs w') ∧ job_post n j (w_fs w') r).
Proof.
  intros Hj Hop Hinv Hcl. unfold codec_of, job_post, encrypt_error. rewrite Hop. eapply wp_mono.
  { apply (encrypt_in_place _ _ (seen_by j) _ _ (InPlace0 := job_in_place n j Hj Hop)). by split. }
  assert (∀ fs1, Inv fs1 → contents fs0 (j_input j) = None ↔ fs_dir fs1 !! j_input j = None) as Hnone.
  { intros fs1 Hi. pose proof (list_elem_of_lookup_2 _ _ _ Hj) as Hin. rewrite (input_dir _ _ Hin Hi).
    unfold contents. destruct (fs_dir fs0 !! j_input j) as [i|] eqn:Hd; simpl; [|done].
    destruct (ind_ok _ _ Hind _ _ Hd) as [x ->]. done. }
  intros r w'. unfold in_place_post. cbn [w_rng job_world].
  destruct (encrypt_chunked (seen_by j) (j_key j) (j_id j) (j_rng j)) as [ref g] eqn:E.
  intros (_ & Hev & Hr). split; [by destruct (ev_fs _ _ _ Hev) as [[? _]|(i & ? & _)]|].
  destruct r as [u|e].
  - destruct Hr as [(fs1 & [Hi _] & Hs) (framed & i & x & -> & (_ & _ & Hd) & Hx & Hxd)].
    split; [|by exists framed, g, i, x]. apply not_eq_None_Some. rewrite (Hnone _ Hi).
    by apply not_eq_None_Some.
  - destruct Hr as [[->|[-> Hio]] _]; [by left|right]. split; [done|]. intros Hc.
    destruct (Hio Hc) as (_ & fs1 & [Hi _] & Hs). by apply (Hnone fs1).
Qed.

Lemma job_spec n j fs :
  jobs !! n = Some j → Inv fs → clean n fs →
  @wp (job_interference n) _ _ _ _ (codec_of j) (job_world j fs)
    (λ r w', Inv (w_fs w') ∧ job_post n j (w_fs w') r).
Proof. intros Hj. destruct (j_op j) eqn:Hop; [by apply encrypt_job_spec|by apply decrypt_job_spec]. Qed.

Lemma job_post_rely n j fs fs' r :
  jobs !! n = Some j → Inv fs → job_post n j fs r → respects n fs fs' → Inv fs' ∧ job_post n j fs' r.
Proof.
  intros Hj Hinv Hpost Hr. pose proof Hr as [_ Hi]. destruct (Hi Hinv) as (Hinv' & Hs & Hp & _).
  split; [done|]. unfold job_post in *. destruct (j_op j) eqn:Hop, r as [u|e].
  - destruct Hpost as [? (framed & g & i & x & E & Hd & Hx & Hxd)]. split; [done|].
    destruct (Hs (j_output j)) as [Hd' Hi']; [by apply output_scratch|].
    exists framed, g, i, x. by rewrite Hd', (Hi' _ Hd).
  - done.
  - destruct Hpost as [Hcl Hpub]. split; [by apply (clean_rely n fs fs')|].
    apply Hp; [|done]. by eapply output_not_scratch; [|eapply list_elem_of_lookup_2|].
  - destruct Hpost as [Ht Hres]. split; [|done]. destruct Ht as [Ht|?]; [left|by right].
    by apply (clean_rely n fs fs').
Qed.

(** *** All of them *)

Definition thread_post (n : nat) (fs : filesys) (rw : Result unit * world) : Prop :=
  Inv fs ∧ ∃ j, jobs !! n = Some j ∧ job_post n j fs rw.1.

Lemma initial_inv : Inv fs0.
Proof.
  split; [done|done|intros p i ?; by left|done|]. intros p q i Hi Hp.
  destruct (ind_ok _ _ Hind _ _ Hp). unfold new_inode in Hi. congruence.
Qed.

Lemma start_safe : safe final_fs job_interference Inv thread_post (start fs0 jobs).
Proof.
  split; [apply initial_inv|]. intros n p Hp. simpl in Hp.
  apply list_lookup_fmap_Some in Hp as (j & -> & Hj). intros fs Hr.
  destruct (clean_rely n fs0 fs) as [Hinv Hcl]; [apply initial_inv|by intros p|done|].
  eapply guarded_mono; [apply (job_spec n j fs Hj Hinv Hcl fs); reflexivity|].
  intros found [r w] [Hg [Hi Hpost]]. split; [done|]. split; [done|]. by exists j.
Qed.

Lemma guar_inv n fs fs' : Inv fs → @guar (job_interference n) fs fs' → Inv fs' ∧ settled_stay jobs fs fs'.
Proof. intros Hi Hg. exact (spares_inv _ _ n fs fs' Hi Hg). Qed.

Lemma guar_rely n m fs fs' :
  n ≠ m → Inv fs → @guar (job_interference m) fs fs' → @rely (job_interference n) fs fs'.
Proof. intros Hne _ Hg. by apply Hg. Qed.

Lemma thread_post_rely n fs fs' rw :
  thread_post n fs rw → @rely (job_interference n) fs fs' → thread_post n fs' rw.
Proof.
  intros (Hi & j & Hj & Hpost) Hr. destruct (job_post_rely _ _ _ _ _ Hj Hi Hpost Hr).
  split; [done|]. by exists j.
Qed.

Lemma concurrent_reachable c :
  reachable final_fs (start fs0 jobs) c → safe final_fs job_interference Inv thread_post c.
Proof.
  apply reachable_safe, start_safe; [|exact guar_rely|exact thread_post_rely].
  intros n fs fs' Hi Hg. exact (proj1 (guar_inv _ _ _ Hi Hg)).
Qed.

(** Between any two states of an interleaving settled inodes stay as they are. *)
Lemma concurrent_settled c1 c2 :
  reachable final_fs (start fs0 jobs) c1 → reachable final_fs c1 c2 →
  settled_stay jobs (c_fs c1) (c_fs c2).
Proof.
  intros Hr1%concurrent_reachable Hr2. revert Hr1 Hr2. apply reachable_guar; [|exact guar_rely|exact thread_post_rely|apply _|].
  - intros n fs fs' Hi Hg. exact (proj1 (guar_inv _ _ _ Hi Hg)).
  - intros n fs fs' Hi Hg. exact (proj2 (guar_inv _ _ _ Hi Hg)).
Qed.

(** *** What the paths show *)

(** A path at which no job works. *)
Lemma inv_shows fs p :
  Inv fs → ¬ is_scratch jobs p →
  contents fs p = contents fs0 p ∨ ∃ pt, plaintext_at fs0 jobs p pt ∧ contents fs p = Some pt.
Proof.
  intros Hinv Hp. unfold contents. destruct (fs_dir fs !! p) as [i|] eqn:Hi; simpl.
  - destruct (inv_entry _ _ _ Hinv _ _ Hi) as [Hi0|(_ & _ & [?|(pt & ? & ->)])]; [left|done|right; eauto].
    rewrite Hi0. simpl. by rewrite (inv_kept_ino _ _ _ Hinv) by by eapply not_scratch_kept.
  - left. by rewrite (inv_kept _ _ _ Hinv _ Hi).
Qed.

Lemma published_shows fs p :
  Inv fs → ¬ is_scratch jobs p → published_at fs0 p fs →
  ∃ pt, plaintext_at fs0 jobs p pt ∧ contents fs p = Some pt.
Proof.
  intros Hinv Hp (i & Hi & Hnew). unfold contents. rewrite Hi. simpl.
  destruct (inv_entry _ _ _ Hinv _ _ Hi) as [Hi0|(_ & _ & [?|(pt & ? & ->)])]; [|done|eauto].
  destruct (ind_ok _ _ Hind _ _ Hi0). unfold new_inode in Hnew. congruence.
Qed.

(** After a crash, with the directory of an earlier state [fsd]. *)
Lemma inv_crash_shows fsd fs fs' p :
  Inv fsd → Inv fs → settled_stay jobs fsd fs → ¬ is_scratch jobs p → on_disk fs0 p →
  crash_late fsd fs fs' →
  contents fs' p = contents fs0 p ∨ ∃ pt, plaintext_at fs0 jobs p pt ∧ contents fs' p = Some pt.
Proof.
  intros Hinvd Hinv Hst Hp Hdisk [Hd Hi']. unfold contents. rewrite Hd.
  destruct (fs_dir fsd !! p) as [i|] eqn:Hi; simpl.
  - destruct (inv_entry _ _ _ Hinvd _ _ Hi) as [Hi0|(Hnew & Hs & [?|(pt & ? & Hx)])]; [left|done|right].
    + rewrite Hi0. simpl. destruct (ind_ok _ _ Hind _ _ Hi0) as [x Hx]. rewrite Hx.
      rewrite (Hi' i x); [done| |by eapply Hdisk].
      by rewrite (inv_kept_ino _ _ _ Hinv) by by eapply not_scratch_kept.
    + exists pt. split; [done|]. destruct (Hst i) as [_ Hsame].
      { split; [done|]. intros q Hq Hqi. destruct Hp. by rewrite (inv_single _ _ _ Hinvd p q i). }
      rewrite Hx in Hsame. by rewrite (Hi' _ _ Hsame).
  - left. by rewrite (inv_kept _ _ _ Hinvd _ Hi).
Qed.

End contracts.

(** ** Properties *)

Section concurrent_theorems.
Context `{OsRngLaws, AesGcmLaws}.

(** What a job that has returned [r] has achieved, the file system being [fs]. *)
Definition job_result (fs0 : filesys) (jobs : list job) (j : job) (fs : filesys) (r : Result unit) : Prop :=
  match j_op j, r with
  | Encrypting, Ok _ => ∃ pt framed g, contents fs0 (j_input j) = Some pt ∧
      encrypt_chunked pt (j_key j) (j_id j) (j_rng j) = (Ok framed, g) ∧
      contents fs (j_output j) = Some framed
  | Encrypting, Err e => encrypt_error fs0 j e
  | Decrypting, Ok _ => (∀ tmp, temp_of j tmp → fs_dir fs !! tmp = None) ∧
      ∃ pt, plaintext_at fs0 jobs (j_output j) pt ∧ contents fs (j_output j) = Some pt
  | Decrypting, Err e => ((∀ tmp, temp_of j tmp → fs_dir fs !! tmp = None) ∨ ¬ job_calm j) ∧
      decrypt_error (job_world j fs0) (contents fs0 (j_input j)) (j_output j) (j_key j) (j_id j) e
  end.

Lemma job_post_result fs0 jobs n j fs r :
  independent fs0 jobs → jobs !! n = Some j → Inv fs0 jobs fs →
  job_post fs0 jobs n j fs r → job_result fs0 jobs j fs r.
Proof.
  intros Hind Hj Hinv. unfold job_post, job_result.
  pose proof (list_elem_of_lookup_2 _ _ _ Hj) as Hin.
  assert (j_op j = Decrypting → clean fs0 jobs n fs → ∀ tmp, temp_of j tmp → fs_dir fs !! tmp = None) as Hno.
  { intros Hop Hcl tmp Ht. rewrite Hcl; [by eapply ind_free|]. exists j. split; [done|].
    unfold scratch_of. by rewrite Hop. }
  destruct (j_op j) eqn:Hop, r as [u|e]; [| done| |].
  - intros [[pt Hpt] (framed & g & i & x & E & Hd & Hx & <-)]. exists pt, (i_data x), g.
    unfold seen_by in E. rewrite Hpt in E. split_and!; [done..|]. unfold contents. rewrite Hd. simpl. by rewrite Hx.
  - intros [Hcl Hpub]. split; [auto|]. by apply published_shows; [| |eapply output_not_scratch|].
  - intros [[Hcl|?] ?]; (split; [|done]); [left; auto|by right].
Qed.

Lemma reachable_thread fs0 jobs c n j :
  reachable final_fs (start fs0 jobs) c → jobs !! n = Some j → is_Some (c_threads c !! n).
Proof.
  intros Hreach Hj. apply lookup_lt_is_Some. rewrite (reachable_length _ _ _ Hreach). simpl.
  rewrite length_fmap. by eapply lookup_lt_Some.
Qed.

(** C6. Encryptions and decryptions running at the same time do not disturb each other, whatever the
    interleaving of their system calls and whatever fails. At every moment every path, except the
    temporary ones and the outputs of encryptions, shows what it showed before, or the complete
    plaintext, authenticated with its key and blob id, of one of the jobs that decrypt to it. No
    job gets stuck. An encryption that has returned [Ok] has written the very frame that
    [encrypt_chunked] makes of its input. A decryption that has returned [Ok] has published: its
    output shows such a plaintext from then on, never the old file or part of a file. A job that
    has failed has failed with an error of a run without the others, and a decryption has then
    left no temporary file unless a system call failed. *)
Theorem concurrent_jobs_safe fs0 jobs c :
  independent fs0 jobs → reachable final_fs (start fs0 jobs) c →
  (∀ p, ¬ is_scratch jobs p →
     contents (c_fs c) p = contents fs0 p ∨
     ∃ pt, plaintext_at fs0 jobs p pt ∧ contents (c_fs c) p = Some pt) ∧
  ∀ n j, jobs !! n = Some j → ∃ p, c_threads c !! n = Some p ∧
    match p with
    | Call _ _ => True
    | Stuck => False
    | Done (r, _) => job_result fs0 jobs j (c_fs c) r
    end.
Proof.
  intros Hind Hreach. destruct (concurrent_reachable _ _ Hind _ Hreach) as [Hinv Hts].
  split; [intros p; by apply inv_shows|]. intros n j Hj.
  destruct (reachable_thread _ _ _ _ _ Hreach Hj) as [p Hp].
  exists p. split; [done|]. pose proof (Hts _ _ Hp) as Hr.
  destruct p as [[r w]| |l k]; [|done..]. destruct Hr as (_ & j' & Hj' & Hpost).
  assert (j' = j) as -> by congruence. by eapply job_post_result.
Qed.

(** C7. A crash at any moment of any interleaving, in which everything is lost that was not
    synchronised: the contents of files that were not synced, and any number of the latest
    changes of the directory, which the source never syncs. Every path, except the temporary ones
    and the outputs of encryptions, shows afterwards what it showed before the jobs or a complete
    authentic plaintext of one of them. *)
Theorem concurrent_jobs_crash_safe fs0 jobs c1 c2 fs' p :
  independent fs0 jobs → reachable final_fs (start fs0 jobs) c1 → reachable final_fs c1 c2 →
  crash_late (c_fs c1) (c_fs c2) fs' →
  ¬ is_scratch jobs p → on_disk fs0 p →
  contents fs' p = contents fs0 p ∨
  ∃ pt, plaintext_at fs0 jobs p pt ∧ contents fs' p = Some pt.
Proof.
  intros Hind Hr1 Hr2 Hcrash Hp Hdisk.
  destruct (concurrent_reachable _ _ Hind _ Hr1) as [Hinv1 _].
  destruct (concurrent_reachable _ _ Hind c2) as [Hinv2 _]; [by etrans|].
  eapply (inv_crash_shows _ _ Hind (c_fs c1) (c_fs c2)); [done|done|by eapply concurrent_settled|done..].
Qed.

(** The decoder rejects short blobs and unusable ids. *)
Lemma decrypt_ok_props framed wk id pt :
  decrypt_chunked framed wk id = Ok pt → valid_id id ∧ HEADER_LEN ≤ length framed.
Proof.
  unfold decrypt_chunked. destruct (blob_segment_aad id) as [a|] eqn:Ha; rsimpl; [|done].
  destruct (Nat.ltb_spec (length framed) HEADER_LEN); [done|]. intros _.
  split; [by apply blob_segment_aad_ok in Ha as [? _]|done].
Qed.

(** What a job needs to succeed: none of its system calls fails, its input file exists and the
    codec in memory accepts it, the random numbers of the job included. A decryption also needs a
    random temporary name, an output path with a file name, and a body that is not a whole number
    of full-size segments, which the file decoder refuses ([full_last_segment_divergence]). *)
Definition job_good (fs0 : filesys) (j : job) : Prop :=
  job_calm j ∧
  match j_op j with
  | Encrypting => ∃ pt framed g, contents fs0 (j_input j) = Some pt ∧
      encrypt_chunked pt (j_key j) (j_id j) (j_rng j) = (Ok framed, g)
  | Decrypting => (try_fill_bytes 8 (j_rng j)).1 ≠ None ∧ is_Some (file_name (j_output j)) ∧
      ∃ framed pt, contents fs0 (j_input j) = Some framed ∧
                   decrypt_chunked framed (j_key j) (j_id j) = Ok pt ∧ ¬ whole_segments framed
  end.

Lemma job_good_no_error fs0 jobs j fs e :
  job_good fs0 j → ¬ job_result fs0 jobs j fs (Err e).
Proof.
  unfold job_good, job_result. intros [Hcalm Hgood]. destruct (j_op j).
  - destruct Hgood as (pt & framed & g & Hin & E). unfold encrypt_error, seen_by. rewrite Hin. simpl default.
    rewrite E. intros [?|[_ Hio]]; [done|]. by discriminate (Hio Hcalm).
  - destruct Hgood as (Hrng & [name Hname] & framed & pt & Hin & Hdec & Hw).
    destruct (decrypt_ok_props _ _ _ _ Hdec) as [Hid Hlen]. rewrite Hin.
    intros [_ He]. destruct e; simpl in He; try done.
    + destruct He; [congruence|done].
    + destruct (He Hcalm) as [?|[?|?]]; [done|lia|congruence].
Qed.

(** C8. Liveness: no deadlock, no livelock. Every interleaving of the jobs is finite, and when no
    process can take a step, every job has returned, with a result as [concurrent_jobs_safe]
    says. A job has then returned [Ok], whatever the others did, if none of its system calls
    fails, the codec in memory accepts its input file with its key, id and random numbers, and, for
    a decryption, the body of the blob is not a whole number of full-size segments (such a body
    only the codec in memory accepts), there is entropy for the temporary name, and the output
    path has a file name. *)
Theorem concurrent_jobs_finish fs0 jobs :
  independent fs0 jobs →
  Acc (flip (step final_fs)) (start fs0 jobs) ∧
  ∀ c, reachable final_fs (start fs0 jobs) c → (∀ c', ¬ step final_fs c c') →
  ∀ n j, jobs !! n = Some j → ∃ r w, c_threads c !! n = Some (Done (r, w)) ∧
    job_result fs0 jobs j (c_fs c) r ∧ (job_good fs0 j → r = Ok tt).
Proof.
  intros Hind. split; [apply step_acc|]. intros c Hreach Hstop n j Hj.
  destruct (reachable_thread _ _ _ _ _ Hreach Hj) as [p Hp].
  pose proof (concurrent_reachable _ _ Hind _ Hreach) as Hsafe.
  destruct (safe_progress _ _ _ _ _ Hsafe Hstop _ _ Hp) as ([r w] & -> & _ & j' & Hj' & Hpost).
  assert (j' = j) as -> by congruence.
  apply job_post_result in Hpost; [|done|done|apply Hsafe]. exists r, w. split_and!; [done..|].
  intros Hgood. destruct r as [[]|e]; [done|]. by destruct (job_good_no_error _ _ _ _ _ Hgood Hpost).
Qed.

End concurrent_theorems.

(** ** Witnesses *)

(** Two processes decrypt the same blob to the same output, with different random numbers and
    different delays, while a third one encrypts another file. *)
Definition job_1 : job := {|
  j_op := Decrypting; j_input := blob_path; j_output := out_path; j_key := sample_wk;
  j_id := lit "blob-a"; j_rng := toy_gen 7; j_sched := choppy;
|}.
Definition job_2 : job := {|
  j_op := Decrypting; j_input := blob_path; j_output := out_path; j_key := sample_wk;
  j_id := lit "blob-a"; j_rng := toy_gen 9; j_sched := [Part 3];
|}.
Definition new_blob_path : Path := path_of_str (lit "/data/y.blob").

Definition job_3 : job := {|
  j_op := Encrypting; j_input := plain_path; j_output := new_blob_path; j_key := sample_wk;
  j_id := lit "blob-b"; j_rng := toy_gen 1; j_sched := choppy;
|}.
Definition three_jobs : list job := [job_1; job_2; job_3].

Definition disk : filesys := {|
  fs_dir := {[ blob_path := 0; plain_path := 1 ]};
  fs_ino := {[ 0 := {| i_data := sample_frame; i_synced := true |};
               1 := {| i_data := lit "other data"; i_synced := true |} ]};
|}.

(** The place where a job works. *)
Definition scratch_path (j : job) : Path :=
  match j_op j with
  | Encrypting => j_output j
  | Decrypting => match sibling_temp_path (j_output j) (j_rng j) with
                  | (Ok tmp, _) => tmp
                  | _ => []
                  end
  end.

Lemma scratch_of_eq j p : scratch_of j p → p = scratch_path j.
Proof.
  unfold scratch_of, scratch_path. destruct (j_op j); [done|]. intros [g Hg]. by rewrite Hg.
Qed.

(** What the paths of the three jobs have to do with each other, by evaluation. *)
Definition apart (fs : filesys) (jobs : list job) : bool :=
  bool_decide (NoDup (scratch_path <$> jobs)) &&
  forallb (λ j, forallb (λ k,
    bool_decide (scratch_path j ≠ j_input k) && bool_decide (j_input j ≠ j_output k) &&
    match j_op k with
    | Encrypting => true
    | Decrypting => bool_decide (scratch_path j ≠ j_output k)
    end) jobs && bool_decide (fs_dir fs !! scratch_path j = None)) jobs.

(** Jobs that work at different new paths, none of which is read or published to. *)
Lemma apart_independent fs jobs :
  fs_ok fs → (∀ j, j ∈ jobs → Forall component_ok (j_output j)) → apart fs jobs = true →
  independent fs jobs.
Proof.
  intros Hok Hout [Hnd Hall]%andb_prop. apply bool_decide_eq_true in Hnd.
  rewrite forallb_forall in Hall.
  assert (∀ j, j ∈ jobs → fs_dir fs !! scratch_path j = None ∧ ∀ k, k ∈ jobs →
    scratch_path j ≠ j_input k ∧ j_input j ≠ j_output k ∧
    (j_op k = Decrypting → scratch_path j ≠ j_output k)) as Hj.
  { intros j Hj. specialize (Hall j (proj1 (list_elem_of_In _ _) Hj)).
    apply andb_prop in Hall as [Hk Hfree%bool_decide_eq_true]. split; [done|]. intros k Hin.
    rewrite forallb_forall in Hk. specialize (Hk k (proj1 (list_elem_of_In _ _) Hin)).
    apply andb_prop in Hk as [[H1%bool_decide_eq_true H2%bool_decide_eq_true]%andb_prop H3].
    split_and!; [done..|]. intros Hop. rewrite Hop in H3. by apply bool_decide_eq_true in H3. }
  assert (∀ j, j ∈ jobs → ∀ p, scratch_of j p → fs_dir fs !! p = None) as Hfree.
  { intros j Hin p ->%scratch_of_eq. by apply Hj. }
  split; [done|auto| | | | |].
  - intros j tmp Hin Hop Ht. eapply Hfree; [done|]. unfold scratch_of. by rewrite Hop.
  - intros n m j k p Hn Hm Hp%scratch_of_eq Hq%scratch_of_eq.
    apply (NoDup_lookup _ _ _ p Hnd); rewrite list_lookup_fmap, ?Hn, ?Hm; simpl; congruence.
  - intros j k p Hin Hin' ->%scratch_of_eq. destruct (Hj j Hin) as [_ Hk].
    destruct (Hk k Hin') as (? & _ & ?). by split.
  - intros j k Hin Hin'. destruct (Hj j Hin) as [_ Hk]. by destruct (Hk k Hin') as (_ & ? & _).
  - intros j q i Hin Hop Hi. rewrite (Hfree j Hin) in Hi; [done|]. unfold scratch_of. by rewrite Hop.
Qed.

Lemma three_jobs_independent : independent disk three_jobs.
Proof.
  apply apart_independent; [| |vm_compute; reflexivity].
  - intros p i Hp. unfold disk in *. cbn [fs_dir fs_ino] in *.
    apply lookup_insert_Some in Hp as [[_ <-]|[_ [_ <-]%lookup_singleton_Some]]; by eexists.
  - intros j Hj. apply list_elem_of_In in Hj as [<-|[<-|[<-|[]]]]; apply path_of_str_ok.
Qed.

(** The three jobs at once: both decryptions publish, the output holds the plaintext, and the
    frame of the encryption is that of the in-memory codec. The first list of process numbers
    stops them midway, with two temporary files and an unfinished frame. *)
Definition midway : list nat := concat (replicate 6 [0; 1; 2]).
Definition to_the_end : list nat := concat (replicate 40 [0; 1; 1; 2]).

Definition all_done (c : config (A := Result unit * world)) : bool :=
  forallb (λ p, match p with Done (Ok _, _) => true | _ => false end) (c_threads c).

Lemma all_done_stops c : all_done c = true → ∀ c', ¬ step final_fs c c'.
Proof.
  unfold all_done. intros Hall c' [j (l & k & Hj & _)%serve_inv]. rewrite forallb_forall in Hall.
  specialize (Hall (Call l k)). rewrite <-list_elem_of_In in Hall.
  discriminate (Hall (list_elem_of_lookup_2 _ _ _ Hj)).
Qed.

Definition final_config : config (A := Result unit * world) :=
  serve_all final_fs to_the_end (start disk three_jobs).

Example three_jobs_midway :
  let c := serve_all final_fs midway (start disk three_jobs) in
  (size (fs_dir (c_fs c)), is_ok (ok_or (contents (c_fs c) out_path) tt)) = (5, false).
Proof. vm_compute. reflexivity. Qed.

Example three_jobs_run :
  (all_done final_config, size (fs_dir (c_fs final_config)), contents (c_fs final_config) out_path,
   Ok <$> contents (c_fs final_config) new_blob_path)
    = (true, 4, Some (lit "some data"),
       Some (encrypt_chunked (lit "other data") sample_wk (lit "blob-b") (toy_gen 1)).1).
Proof. vm_compute. reflexivity. Qed.

Lemma midway_reachable :
  reachable final_fs (start disk three_jobs) (serve_all final_fs midway (start disk three_jobs)).
Proof. apply serve_all_reachable. Qed.

Lemma out_path_not_scratch : ¬ is_scratch three_jobs out_path.
Proof.
  intros (n & j & Hj%list_elem_of_lookup_2 & Hs%scratch_of_eq). revert Hs.
  apply list_elem_of_In in Hj as [<-|[<-|[<-|[]]]]; apply (bool_decide_unpack (_ ≠ _)); vm_compute; exact I.
Qed.

Lemma disk_on_disk p : on_disk disk p.
Proof.
  intros i x _ Hx. unfold disk in Hx. cbn [fs_ino] in Hx.
  by apply lookup_insert_Some in Hx as [[_ <-]|[_ [_ <-]%lookup_singleton_Some]].
Qed.

Lemma concurrent_jobs_safe_witness :
  let c := serve_all final_fs midway (start disk three_jobs) in
  contents (c_fs c) out_path = contents disk out_path ∨
  ∃ pt, plaintext_at disk three_jobs out_path pt ∧ contents (c_fs c) out_path = Some pt.
Proof.
  destruct (concurrent_jobs_safe disk three_jobs _ three_jobs_independent midway_reachable) as [Hp _].
  apply Hp, out_path_not_scratch.
Defined.

(** The crash happens when all the jobs have returned, and loses every change of the directory. *)
Lemma concurrent_jobs_crash_safe_witness :
  let fs' := set_dir (fs_dir disk) (c_fs final_config) in
  contents fs' out_path = contents disk out_path ∨
  ∃ pt, plaintext_at disk three_jobs out_path pt ∧ contents fs' out_path = Some pt.
Proof.
  exact (concurrent_jobs_crash_safe disk three_jobs (start disk three_jobs) final_config _ out_path
    three_jobs_independent (rtc_refl _ _) (serve_all_reachable final_fs to_the_end _)
    (crash_late_dir disk (c_fs final_config)) out_path_not_scratch (disk_on_disk _)).
Defined.

Lemma choppy_job_calm j : j_sched j = choppy ∨ j_sched j = [Part 3] → job_calm j.
Proof. unfold job_calm. intros [->| ->]; repeat constructor; discriminate. Qed.

Lemma decryption_good j :
  j_op j = Decrypting → job_calm j → j_input j = blob_path → j_output j = out_path →
  j_key j = sample_wk → j_id j = lit "blob-a" → (try_fill_bytes 8 (j_rng j)).1 ≠ None →
  job_good disk j.
Proof.
  intros Hop Hc Hin Hout Hk Hi Hrng. split; [done|]. rewrite Hop, Hin, Hout, Hk, Hi.
  split_and!; [done|by vm_compute; eexists|]. exists sample_frame, (lit "some data").
  split_and!; [vm_compute; reflexivity..|].
  eapply encrypted_not_whole, sample_frame_encrypted.
Qed.

Lemma job_3_good : job_good disk job_3.
Proof.
  split; [by apply choppy_job_calm; left|].
  destruct (encrypt_chunked (lit "other data") sample_wk (lit "blob-b") (toy_gen 1)) as [[framed|e] g] eqn:E.
  - exists (lit "other data"), framed, g. split; [vm_compute; reflexivity|exact E].
  - apply (f_equal fst) in E. vm_compute in E. discriminate.
Qed.

(** In the run to the end nothing is left to do, and each of the three jobs has returned [Ok]. *)
Lemma concurrent_jobs_finish_witness :
  Acc (flip (step final_fs)) (start disk three_jobs) ∧
  ∀ n j, three_jobs !! n = Some j → ∃ r w, c_threads final_config !! n = Some (Done (r, w)) ∧
    job_result disk three_jobs j (c_fs final_config) r ∧ r = Ok tt.
Proof.
  destruct (concurrent_jobs_finish disk three_jobs three_jobs_independent) as [Hacc Hend].
  split; [exact Hacc|]. intros n j Hj.
  destruct (Hend final_config) with (n := n) (j := j) as (r & w & Hr & Hres & Hok);
    [apply serve_all_reachable|apply all_done_stops; vm_compute; reflexivity|exact Hj|].
  exists r, w. split_and!; [exact Hr|exact Hres|]. apply Hok.
  apply list_elem_of_lookup_2, list_elem_of_In in Hj as [<-|[<-|[<-|[]]]];
    [apply decryption_good|apply decryption_good|apply job_3_good];
    first [reflexivity|apply choppy_job_calm; auto|vm_compute; discriminate].
Defined.

(** *** What independence is for *)

Lemma plaintext_unique fs p k id pt pt' :
  plaintext_of fs p k id pt → plaintext_of fs p k id pt' → pt = pt'.
Proof. intros (f & Hf & Hd) (f' & Hf' & Hd'). congruence. Qed.

(** [File::create] truncates an existing file. Two jobs that draw the same random suffix share a
    temporary file, and the mixture of their plaintexts is published. *)
Definition short_frame : bytes :=
  match encrypt_chunked (lit "ab") sample_wk (lit "blob-b") (toy_gen 5) with
  | (Ok framed, _) => framed
  | _ => []
  end.

Definition short_path : Path := path_of_str (lit "/data/z.blob").

Definition job_4 : job := {|
  j_op := Decrypting; j_input := short_path; j_output := out_path; j_key := sample_wk;
  j_id := lit "blob-b"; j_rng := toy_gen 7; j_sched := [];
|}.

Definition two_blobs : filesys := {|
  fs_dir := {[ blob_path := 0; short_path := 1 ]};
  fs_ino := {[ 0 := {| i_data := sample_frame; i_synced := true |};
               1 := {| i_data := short_frame; i_synced := true |} ]};
|}.

Definition colliding : list job := [job_1; job_4].

Definition torn_config : config (A := Result unit * world) :=
  serve_all final_fs (concat (replicate 40 [0; 0; 1])) (start two_blobs colliding).

Definition first_ok (c : config (A := Result unit * world)) : bool :=
  match c_threads c with
  | Done (Ok _, _) :: _ => true
  | _ => false
  end.

Lemma colliding_plaintexts :
  plaintext_of two_blobs blob_path sample_wk (lit "blob-a") (lit "some data") ∧
  plaintext_of two_blobs short_path sample_wk (lit "blob-b") (lit "ab").
Proof.
  split; [exists sample_frame|exists short_frame]; (split; vm_compute; reflexivity).
Qed.

(** C24. The random suffix is all that keeps concurrent decrypts apart: [File::create] truncates a
    temporary file that exists instead of refusing it. Two jobs that draw the same suffix write
    into one file, and an interleaving publishes a mixture of the two plaintexts, which is the
    plaintext of neither, with [Ok]. *)
Theorem colliding_temps_publish_mixture :
  reachable final_fs (start two_blobs colliding) torn_config ∧
  first_ok torn_config = true ∧
  contents (c_fs torn_config) out_path = Some (lit "abme data") ∧
  ¬ plaintext_at two_blobs colliding out_path (lit "abme data").
Proof.
  split; [apply serve_all_reachable|]. split; [vm_compute; reflexivity|].
  split; [vm_compute; reflexivity|]. destruct colliding_plaintexts as [Ha Hc].
  intros (j & Hj & _ & _ & Hpt). apply list_elem_of_In in Hj as [<-|[<-|[]]].
  - discriminate (plaintext_unique _ _ _ _ _ _ Hpt Ha).
  - discriminate (plaintext_unique _ _ _ _ _ _ Hpt Hc).
Qed.

(** Encryptions are kept apart by nothing: they truncate and write their output in place. Two that
    write to one path can both return [Ok] and leave a file that is neither of their frames and
    that no longer decodes. *)
Definition encrypt_job (input : Path) (k : nat) : job := {|
  j_op := Encrypting; j_input := input; j_output := new_blob_path; j_key := sample_wk;
  j_id := lit "blob-b"; j_rng := toy_gen k; j_sched := [];
|}.

Definition two_plain : filesys := {|
  fs_dir := {[ plain_path := 0; short_path := 1 ]};
  fs_ino := {[ 0 := {| i_data := lit "other data"; i_synced := true |};
               1 := {| i_data := lit "ab"; i_synced := true |} ]};
|}.

Example encryptions_to_one_path_mix :
  let c := serve_all final_fs (replicate 3 1 ++ replicate 40 0 ++ replicate 40 1)
             (start two_plain [encrypt_job plain_path 1; encrypt_job short_path 5]) in
  all_done c = true ∧
  match contents (c_fs c) new_blob_path with
  | Some framed => decrypt_chunked framed sample_wk (lit "blob-b") = Err Aead
  | None => False
  end.
Proof. vm_compute. split; reflexivity. Qed.
