(* ===== verification/WellFormed.v ===== *)
(** * The file system stays well formed

    Both file codecs preserve every invariant of the file system, in the present state and in every
    past one, that the operations of [Io] preserve ([WorldInvariant]): proved operation by operation,
    by the rules of the hint database, and then for the codecs as a whole. The logic of [FileSuite]
    uses it for the invariant that no two directory entries name the same inode ([fs_wf]). *)

From S2P Require Import Prelude Ints Errors Prims Toy Aad Segments Blob Path Process Io IoSpec BlobFile EncryptFile.

(** ** The invariant and what preserves it *)

(** The states of the computations of [Io] and [BlobFile] all contain a world. *)
Class HasWorld `{OsRng} (S : Type) := get_world : S → world.

#[export] Instance world_has `{OsRng} : HasWorld world := λ w, w.
#[export] Instance pair_has `{OsRng} {S T} `{!HasWorld S} : HasWorld (S * T) := λ s, get_world s.1.

(** An invariant of the world: of the file system under the changes that [Io] makes (to an inode, by
    creating, renaming and removing), of the entropy source under requests, and of the schedule
    under answers. *)
Class WorldInvariant `{OsRng} := {
  inv : filesys → Prop;
  inv_write i x fs : inv fs → inv (set_ino i x fs);
  inv_create p i x fs :
    inv fs → fs_dir fs !! p = None → fs_ino fs !! i = None →
    inv (set_dir (<[p := i]> (fs_dir fs)) (set_ino i x fs));
  inv_rename a b i fs :
    inv fs → fs_dir fs !! a = Some i → inv (set_dir (<[b := i]> (delete a (fs_dir fs))) fs);
  inv_remove p fs : inv fs → inv (set_dir (delete p (fs_dir fs)) fs);
  inv_rng : rng → Prop;
  inv_draw n g : inv_rng g → inv_rng (try_fill_bytes n g).2;
  inv_sched : list outcome → Prop;
  inv_answer o os : inv_sched (o :: os) → inv_sched os;
}.

Definition world_ok `{WorldInvariant} (w : world) : Prop :=
  inv (w_fs w) ∧ Forall inv (w_hist w) ∧ inv_rng (w_rng w) ∧ inv_sched (w_sched w).

(** A computation on the entropy source alone. *)
Definition draws `{WorldInvariant} {A} (m : st rng FilumCryptoError A) : Prop :=
  ∀ g, inv_rng g → inv_rng (m g).2.

Definition preserves `{WorldInvariant} {S E A} `{!HasWorld S} (m : io S E A) : Prop :=
  ∀ s r s', run (m s) = Some (r, s') → world_ok (get_world s) → world_ok (get_world s').

(** The run of a computation that passes on the state of the one inside. *)
Ltac run_inner :=
  match goal with
  | |- run (?m _) = _ → _ =>
      unfold io_map_err, io_try, io_fst, bw_drop, on_file; rewrite run_bind;
      match goal with
      | |- context [run ?p] => destruct (run p) as [[? ?]|] eqn:?; [|done]
      end; intros [= _ <-]
  end.

Section rules.
Context `{WorldInvariant} {S : Type} `{!HasWorld S} {E : Type}.

Lemma preserves_ret {A} (a : A) : preserves (mret a : io S E A).
Proof. by intros s r s' [= _ <-]. Qed.

Lemma preserves_lift {A} (x : result E A) : preserves (io_lift x : io S E A).
Proof. by intros s r s' [= _ <-]. Qed.

Lemma preserves_bind {A B} (m : io S E A) (k : A → io S E B) :
  preserves m → (∀ a, preserves (k a)) → preserves (m ≫= k).
Proof.
  intros Hm Hk s r s'. unfold mbind, io_bind. rewrite run_bind.
  destruct (run (m s)) as [[[a|e] s1]|] eqn:Em; [|by intros [= _ <-]; eapply Hm|done].
  intros Hs Hok. by eapply Hk, Hm.
Qed.

Lemma preserves_map_err {E' A} (f : E' → E) (m : io S E' A) :
  preserves m → preserves (io_map_err f m).
Proof. intros Hm s r s'. run_inner. by eapply Hm. Qed.

Lemma preserves_try {E' A} (m : io S E' A) : preserves m → preserves (io_try m : io S E _).
Proof. intros Hm s r s'. run_inner. by eapply Hm. Qed.

Lemma preserves_out_of_fuel {A} : preserves (out_of_fuel : io S E A).
Proof. by intros s r s'. Qed.

Lemma preserves_fst {T A} (m : io S E A) : preserves m → preserves (io_fst m : io (S * T) E A).
Proof. intros Hm [s t] r s'. run_inner. by eapply Hm. Qed.

(** A scope preserves the invariant if its body and the drop do. *)
Lemma preserves_scoped {T E' A} (t : T) (drop_t : T → io S E' unit) (body : io (S * T) E A) :
  preserves body → (∀ t, preserves (drop_t t)) → preserves (scoped t drop_t body).
Proof.
  intros Hb Hd s r s'. unfold scoped. rewrite run_bind.
  destruct (run (body (s, t))) as [[r1 [s1 t1]]|] eqn:Eb; [|done]. rewrite run_bind.
  destruct (run (drop_t t1 s1)) as [[r2 s2]|] eqn:Ed; [|done].
  intros [= _ <-] Hok. eapply Hd; [done|]. by apply (Hb _ _ _ Eb).
Qed.

(** Case analyses in the programs. *)
Lemma preserves_if {A} (c : bool) (m1 m2 : io S E A) :
  preserves m1 → preserves m2 → preserves (if c then m1 else m2).
Proof. by destruct c. Qed.

Lemma preserves_pair {A B C} (p : A * B) (k : A → B → io S E C) :
  (∀ a b, preserves (k a b)) → preserves (let '(a, b) := p in k a b).
Proof. by destruct p. Qed.

End rules.

#[export] Hint Resolve preserves_ret preserves_lift preserves_bind preserves_map_err preserves_try
  preserves_out_of_fuel preserves_fst preserves_if preserves_pair : filum.

Section operations.
Context `{WorldInvariant}.

Lemma preserves_answer {E} : preserves (answer : io world E outcome).
Proof.
  intros w r w'. unfold answer. destruct (w_sched w) as [|o os] eqn:Ho; intros [= _ <-] (? & ? & ? & Hs);
    change (inv_sched (w_sched w)) in Hs; rewrite Ho in Hs; split_and!; try done. by eapply inv_answer.
Qed.

Lemma preserves_rng {A} (m : st rng FilumCryptoError A) : draws m → preserves (io_rng m).
Proof.
  intros Hm w r w'. unfold io_rng. intros Hrun (? & ? & Hg & ?). specialize (Hm (w_rng w) Hg).
  destruct (m (w_rng w)). injection Hrun as _ <-. split_and!; assumption.
Qed.

Lemma draws_fill n : draws (os_fill n).
Proof. intros g Hg. unfold os_fill. pose proof (inv_draw n g Hg). by destruct (try_fill_bytes n g). Qed.

Lemma draws_lift {A} (r : Result A) : draws (st_lift r).
Proof. by intros g. Qed.

Lemma draws_ret {A} (a : A) : draws (mret a).
Proof. by intros g. Qed.

Lemma draws_bind {A B} (m : st rng FilumCryptoError A) (k : A → st rng FilumCryptoError B) :
  draws m → (∀ a, draws (k a)) → draws (m ≫= k).
Proof.
  intros Hm Hk g Hg. unfold mbind, st_bind. specialize (Hm g Hg).
  destruct (m g) as [[a|e] g']; [by apply Hk|done].
Qed.

(** Reading the file system gives a well-formed one, writing needs one. *)
Lemma preserves_get_fs {E A} (k : filesys → io world E A) :
  (∀ fs, inv fs → preserves (k fs)) → preserves (get_fs ≫= k).
Proof. intros Hk w r w' Hrun Hok. eapply (Hk (w_fs w)); [apply Hok|exact Hrun|done]. Qed.

Lemma preserves_get_fs_fst {T E A} (k : filesys → io (world * T) E A) :
  (∀ fs, inv fs → preserves (k fs)) → preserves (io_fst get_fs ≫= k).
Proof. intros Hk [w t] r s' Hrun Hok. eapply (Hk (w_fs w)); [apply Hok|exact Hrun|done]. Qed.

Lemma preserves_get_own {T E} : preserves (get_own : io (world * T) E T).
Proof. by intros s r s' [= _ <-]. Qed.

Lemma preserves_put_own {T E} (t : T) : preserves (put_own t : io (world * T) E unit).
Proof. by intros s r s' [= _ <-]. Qed.

Lemma preserves_put_fs {E} fs : inv fs → preserves (put_fs fs : io world E unit).
Proof. intros Hfs w r w' [= _ <-] (_ & Hh & Hr). split_and!; [done|by constructor|apply Hr..]. Qed.

Lemma preserves_control : preserves control.
Proof.
  apply preserves_bind; [apply preserves_answer|]. intros []; auto with filum.
Qed.

Lemma preserves_transfer n : preserves (transfer n).
Proof.
  apply preserves_bind; [apply preserves_answer|]. intros []; auto with filum.
Qed.
#[local] Hint Resolve preserves_control preserves_transfer : filum.

Lemma preserves_open p : preserves (file_open p).
Proof.
  apply preserves_bind; [auto with filum|]. intros _. apply preserves_get_fs. intros fs _.
  destruct (fs_dir fs !! p); auto with filum.
Qed.

Lemma preserves_create p : preserves (file_create p).
Proof.
  apply preserves_bind; [auto with filum|]. intros _. apply preserves_get_fs. intros fs Hok.
  destruct (fs_dir fs !! p) eqn:Hp; (apply preserves_bind; [apply preserves_put_fs|auto with filum]).
  - by apply inv_write.
  - apply inv_create; [done..|]. apply not_elem_of_dom, is_fresh.
Qed.

Lemma preserves_read f n : preserves (file_read f n).
Proof.
  apply preserves_bind; [auto with filum|]. intros m. apply preserves_get_fs. auto with filum.
Qed.

Lemma preserves_write buf : preserves (file_write buf).
Proof.
  apply preserves_bind; [auto with filum|]. intros n.
  apply preserves_bind; [apply preserves_get_own|]. intros f. apply preserves_get_fs_fst.
  intros fs Hok. apply preserves_bind; [by apply preserves_fst, preserves_put_fs, inv_write|].
  intros _. apply preserves_bind; [apply preserves_put_own|]. auto with filum.
Qed.

Lemma preserves_sync f : preserves (sync_all f).
Proof.
  apply preserves_bind; [auto with filum|]. intros _. apply preserves_get_fs. intros fs Hok.
  by apply preserves_put_fs, inv_write.
Qed.

Lemma preserves_rename a b : preserves (rename a b).
Proof.
  apply preserves_bind; [auto with filum|]. intros _. apply preserves_get_fs. intros fs Hok.
  destruct (fs_dir fs !! a) as [i|] eqn:Ha; [|auto with filum].
  apply preserves_if; [auto with filum|]. by apply preserves_put_fs, inv_rename.
Qed.

Lemma preserves_remove p : preserves (remove_file p).
Proof.
  apply preserves_bind; [auto with filum|]. intros _. apply preserves_get_fs. intros fs Hok.
  destruct (fs_dir fs !! p); [|auto with filum]. by apply preserves_put_fs, inv_remove.
Qed.

End operations.

#[export] Hint Resolve draws_fill draws_lift draws_ret draws_bind preserves_rng preserves_open preserves_create preserves_read preserves_write
  preserves_sync preserves_rename preserves_remove preserves_get_own preserves_put_own : filum.

(** ** Readers, writers and the codecs *)

Section codecs.
Context `{WorldInvariant}.

Lemma preserves_br_read r n : preserves (br_read r n).
Proof.
  unfold br_read. destruct (br_buf r); [|auto with filum].
  apply preserves_if; auto with filum.
Qed.

Lemma preserves_read_exact r n : preserves (read_exact r n).
Proof.
  intros w. unfold read_exact. generalize (n + length (w_sched w)) as fuel. intros fuel.
  assert (∀ got r, preserves (read_exact_loop fuel r got n)) as Hl; [|exact (Hl [] r w)].
  induction fuel as [|fuel IH]; intros got r1; cbn [read_exact_loop]; apply preserves_if;
    auto with filum.
  apply preserves_bind; [by apply preserves_try, preserves_br_read|].
  intros [[[|x d] r2]|[]]; auto with filum.
Qed.

Lemma preserves_write_all buf : preserves (file_write_all buf).
Proof.
  intros s. unfold file_write_all. generalize (S (length (w_sched s.1))) as fuel. intros fuel.
  assert (∀ b, preserves (write_all_loop fuel b)) as Hl; [|exact (Hl buf s)].
  induction fuel as [|fuel IH]; intros [|x b]; cbn [write_all_loop]; auto with filum.
  apply preserves_bind; [by apply preserves_try, preserves_write|].
  intros [[|n]|[]]; auto with filum.
Qed.

Lemma preserves_on_file {E A} (m : io (world * File) E A) : preserves m → preserves (on_file m).
Proof.
  intros Hm [w bw] r s'. unfold on_file. rewrite run_bind.
  destruct (run (m (w, bw_file bw))) as [[r1 [w1 f1]]|] eqn:Em; [|done].
  intros [= _ <-]. by apply (Hm _ _ _ Em).
Qed.

Lemma preserves_put_buf {E} b : preserves (put_buf b : io (world * BufWriter) E unit).
Proof. by intros s r s' [= _ <-]. Qed.
#[local] Hint Resolve preserves_on_file preserves_put_buf preserves_write_all : filum.

Lemma preserves_flush : preserves flush_buf.
Proof.
  intros s. unfold flush_buf. generalize (S (length (w_sched s.1))) as fuel. intros fuel.
  assert (preserves (flush_buf_loop fuel)) as Hl; [|exact (Hl s)].
  induction fuel as [|fuel IH]; cbn [flush_buf_loop];
    (apply preserves_bind; [auto with filum|]; intros [? [|x b]]; cbn [bw_buf]; auto with filum).
  apply preserves_bind; [by apply preserves_try, preserves_on_file, preserves_write|].
  intros [[|n]|[]]; auto with filum.
Qed.
#[local] Hint Resolve preserves_flush : filum.

Lemma preserves_bw_write_all d : preserves (bw_write_all d).
Proof.
  apply preserves_bind; [auto with filum|]. intros buf. apply preserves_if; [auto with filum|].
  apply preserves_bind; [auto with filum|]. intros _.
  apply preserves_bind; [auto with filum|]. intros buf'. auto with filum.
Qed.

Lemma preserves_bw_drop bw : preserves (bw_drop bw).
Proof.
  intros w r w'. unfold bw_drop. rewrite run_bind.
  destruct (run (flush_buf (w, bw))) as [[r1 [w1 bw1]]|] eqn:E; [|done].
  intros [= _ <-]. by apply (preserves_flush _ _ _ E).
Qed.

Lemma preserves_read_full r n : preserves (read_full r n).
Proof.
  unfold read_full. generalize n at 1 as fuel. intros fuel. generalize (@nil byte) as filled.
  revert r. induction fuel as [|fuel IH]; intros r filled; cbn [read_full_loop];
    apply preserves_if; auto with filum.
  apply preserves_bind; [by apply preserves_map_err, preserves_br_read|].
  intros [[|x d] r']; auto with filum.
Qed.
#[local] Hint Resolve preserves_bw_write_all preserves_read_full : filum.

Lemma preserves_stream_loop {St} next last n a fuel fin (s : St) pending :
  preserves (stream_loop next last n a fuel fin s pending).
Proof.
  revert fin s pending. induction fuel as [|fuel IH]; intros fin s pending; [auto with filum|].
  cbn [stream_loop]. apply preserves_bind; [auto with filum|]. intros [chunk fin'].
  apply preserves_bind.
  - destruct pending; [|auto with filum]. apply preserves_bind; [auto with filum|].
    intros [out s']. apply preserves_bind; [by apply preserves_map_err, preserves_bw_write_all|].
    auto with filum.
  - intros s'. apply preserves_if; [|auto]. apply preserves_bind; [auto with filum|].
    intros out. by apply preserves_map_err, preserves_bw_write_all.
Qed.

Lemma preserves_cleanup c : preserves (TempCleanup_drop c).
Proof. apply preserves_if; auto with filum. Qed.

Lemma draws_new_blob_keys `{AesGcm} wk id : draws (new_blob_keys wk id).
Proof.
  unfold new_blob_keys. do 3 (apply draws_bind; [auto with filum|intros ?]).
  apply draws_bind; [|auto with filum]. unfold wrap_data_key.
  do 2 (apply draws_bind; [auto with filum|intros ?]). cbv zeta. by destruct (negb _); auto with filum.
Qed.

Lemma draws_sibling output : draws (sibling_temp_path output).
Proof. unfold sibling_temp_path. auto with filum. Qed.
#[local] Hint Resolve draws_new_blob_keys draws_sibling : filum.

Lemma preserves_encrypt_file `{AesGcm} input output wk id :
  preserves (encrypt_file_chunked input output wk id).
Proof.
  apply preserves_bind; [auto with filum|]. intros a.
  apply preserves_bind; [auto with filum|]. intros [[dk np] wr].
  apply preserves_bind; [by apply preserves_map_err, preserves_open|]. intros fin.
  apply preserves_bind; [by apply preserves_map_err, preserves_create|]. intros fout.
  apply preserves_scoped; [|apply preserves_bw_drop].
  apply preserves_bind; [by apply preserves_map_err, preserves_bw_write_all|]. intros _.
  cbv zeta. apply preserves_bind; [apply preserves_fst; by intros w r w' [= _ <-]|]. intros fuel.
  apply preserves_bind; [apply preserves_stream_loop|]. intros _.
  by apply preserves_map_err, preserves_flush.
Qed.

Lemma preserves_decrypt_file `{AesGcm} input output wk id :
  preserves (decrypt_file_chunked input output wk id).
Proof.
  apply preserves_bind; [auto with filum|]. intros a.
  apply preserves_bind; [by apply preserves_map_err, preserves_open|]. intros f.
  apply preserves_bind; [by apply preserves_map_err, preserves_read_exact|]. intros [header fin].
  apply preserves_bind; [auto with filum|]. intros [[dk np] n].
  cbv zeta. apply preserves_bind; [auto with filum|]. intros tmp.
  apply preserves_scoped; [|apply preserves_cleanup].
  apply preserves_bind; [by apply preserves_fst, preserves_map_err, preserves_create|]. intros fout.
  apply preserves_bind.
  { apply preserves_fst, preserves_scoped; [|intros; by apply preserves_bw_drop].
    apply preserves_bind; [apply preserves_fst; by intros w r w' [= _ <-]|]. intros fuel.
    apply preserves_bind; [apply preserves_stream_loop|]. intros _.
    apply preserves_bind; [by apply preserves_map_err, preserves_flush|]. intros _.
    apply preserves_map_err, preserves_bind; [auto with filum|]. intros bw.
    by apply preserves_fst, preserves_sync. }
  intros _. apply preserves_bind; [by apply preserves_fst, preserves_map_err, preserves_rename|].
  intros _. apply preserves_bind; auto with filum.
Qed.

End codecs.

(** ** Invariants of the file system *)

(** No file has two names. *)
Definition no_links (fs : filesys) : Prop :=
  ∀ p q i, fs_dir fs !! p = Some i → fs_dir fs !! q = Some i → p = q.

Definition fs_wf (fs : filesys) : Prop := fs_ok fs ∧ no_links fs.

Lemma set_ino_ok i x fs : fs_ok fs → fs_ok (set_ino i x fs).
Proof.
  intros Hok p j Hp. simpl. destruct (decide (i = j)) as [->|].
  - rewrite lookup_insert_eq. by eexists.
  - rewrite lookup_insert_ne by done. by eapply Hok.
Qed.

Lemma link_ok p i d fs :
  fs_ok fs → is_Some (fs_ino fs !! i) → d ⊆ fs_dir fs → fs_ok (set_dir (<[p := i]> d) fs).
Proof.
  intros Hok Hi Hd q j Hq. simpl in *. apply lookup_insert_Some in Hq as [[_ <-]|[_ Hq]]; [done|].
  eapply Hok, lookup_weaken; done.
Qed.

Lemma link_no_links p i d fs :
  no_links fs → d ⊆ fs_dir fs → (∀ q, d !! q ≠ Some i) → no_links (set_dir (<[p := i]> d) fs).
Proof.
  intros Hnl Hd Hi q1 q2 j H1 H2. simpl in *.
  apply lookup_insert_Some in H1 as [[<- <-]|[_ H1]], H2 as [[<- E]|[_ H2]]; subst; try done.
  - by destruct (Hi q2).
  - by destruct (Hi q1).
  - eapply Hnl; by eapply lookup_weaken.
Qed.

Section invariants.
Context `{OsRng}.

#[global] Program Instance entries_backed : WorldInvariant | 100 := {|
  inv := fs_ok; inv_rng _ := True; inv_sched _ := True |}.
Next Obligation. apply set_ino_ok. Qed.
Next Obligation.
  intros p i x fs Hok Hp Hi. apply (link_ok p i _ (set_ino i x fs)); [by apply set_ino_ok| |done].
  simpl. rewrite lookup_insert_eq. by eexists.
Qed.
Next Obligation.
  intros a b i fs Hok Ha. apply link_ok; [done|by eapply Hok|apply delete_subseteq].
Qed.
Next Obligation. intros p fs Hok q j Hq. simpl in Hq. apply lookup_delete_Some in Hq as [_ Hq]. by eapply Hok. Qed.
Solve Obligations with done.

Lemma wf_write i x fs : fs_wf fs → fs_wf (set_ino i x fs).
Proof. intros [Hok Hnl]. split; [by apply set_ino_ok|done]. Qed.

Lemma wf_create p i x fs :
  fs_wf fs → fs_dir fs !! p = None → fs_ino fs !! i = None →
  fs_wf (set_dir (<[p := i]> (fs_dir fs)) (set_ino i x fs)).
Proof.
  intros [Hok Hnl] Hp Hi. split; [by apply (inv_create (WorldInvariant := entries_backed))|].
  apply (link_no_links p i _ (set_ino i x fs)); [done|done|]. intros q Hq. destruct (Hok _ _ Hq). congruence.
Qed.

Lemma wf_rename a b i fs :
  fs_wf fs → fs_dir fs !! a = Some i → fs_wf (set_dir (<[b := i]> (delete a (fs_dir fs))) fs).
Proof.
  intros [Hok Hnl] Ha. split; [by apply (inv_rename (WorldInvariant := entries_backed))|].
  apply link_no_links; [done|apply delete_subseteq|]. intros q Hq.
  apply lookup_delete_Some in Hq as [Hne Hq]. by eapply Hne, Hnl.
Qed.

Lemma wf_remove p fs : fs_wf fs → fs_wf (set_dir (delete p (fs_dir fs)) fs).
Proof.
  intros [Hok Hnl]. split; [by apply (inv_remove (WorldInvariant := entries_backed))|].
  intros q1 q2 j H1 H2. simpl in *. apply lookup_delete_Some in H1 as [_ H1], H2 as [_ H2]. by eapply Hnl.
Qed.

End invariants.
