(* ===== verification/Vault.v ===== *)
(** * The vault ([vault.rs])

    The three keys derived from a master secret, and the operations of the crate under them. *)

From S2P Require Import Prelude Ints Errors Prims Toy Kdf Metadata Auth Recovery Blob.
From S2P Require Import Path Process Io IoSpec BlobFile EncryptFile Publish DecryptFile.
From Stdlib Require Import Lia.

(** ** Definitions *)

Record Vault `{Ed25519} := {
  wrap_key : bytes;
  metadata_key : bytes;
  signing_key : SigningKey;
}.

Section vault.
Context `{OsRng, AesGcm, Hkdf, Ed25519, Bip39}.

(** [Vault::open]. *)
Definition open (master_secret : bytes) : Result Vault :=
  wrap_key ← derive_subkey master_secret WRAP_CTX 32;
  metadata_key ← derive_subkey master_secret METADATA_CTX 32;
  sign_seed ← derive_subkey master_secret SIGN_CTX 32;
  let signing_key := signing_key_from_seed sign_seed in
  Ok {| wrap_key := wrap_key; metadata_key := metadata_key; signing_key := signing_key |}.

Definition from_recovery_phrase (phrase : str) : Result Vault :=
  secret ← phrase_to_secret phrase;
  open secret.

Definition encrypt_blob (self : Vault) (plaintext : bytes) (blob_id : str)
    : st rng FilumCryptoError bytes :=
  encrypt_chunked plaintext (wrap_key self) blob_id.

Definition decrypt_blob (self : Vault) (framed : bytes) (blob_id : str) : Result bytes :=
  decrypt_chunked framed (wrap_key self) blob_id.

(** [in_path.as_ref()] views the string as a [Path]. *)
Definition encrypt_file_to_blob (self : Vault) (in_path out_path blob_id : str)
    : io world FilumCryptoError unit :=
  encrypt_file_chunked (path_of_str in_path) (path_of_str out_path) (wrap_key self) blob_id.

Definition decrypt_blob_to_file (self : Vault) (in_path out_path blob_id : str)
    : io world FilumCryptoError unit :=
  decrypt_file_chunked (path_of_str in_path) (path_of_str out_path) (wrap_key self) blob_id.

Definition encrypt_metadata_field (self : Vault) (plaintext : bytes) (record_id field_name : str)
    : st rng FilumCryptoError EncryptedField :=
  encrypt_field plaintext (metadata_key self) record_id field_name.

Definition decrypt_metadata_field (self : Vault) (field : EncryptedField)
    (record_id field_name : str) : Result bytes :=
  decrypt_field field (metadata_key self) record_id field_name.

Definition sign_challenge (self : Vault) (nonce : bytes) : DeviceSignature :=
  Auth.sign_challenge (signing_key self) nonce.

Definition device_public_key (self : Vault) : bytes := public_key_bytes (signing_key self).

End vault.

(** ** Opening *)

Section vault_open.
Context `{HkdfLaws, Ed25519}.

(** Opening never fails; the keys are the three derivations. *)
Lemma open_total secret :
  ∃ wk mk seed,
    derive_subkey secret WRAP_CTX 32 = Ok wk ∧ derive_subkey secret METADATA_CTX 32 = Ok mk ∧
    derive_subkey secret SIGN_CTX 32 = Ok seed ∧
    length wk = 32 ∧ length mk = 32 ∧ length seed = 32 ∧
    open secret = Ok {| wrap_key := wk; metadata_key := mk; signing_key := signing_key_from_seed seed |}.
Proof.
  destruct (derive_subkey_ok secret WRAP_CTX 32) as (wk & Hwk & Hl1); [lia|].
  destruct (derive_subkey_ok secret METADATA_CTX 32) as (mk & Hmk & Hl2); [lia|].
  destruct (derive_subkey_ok secret SIGN_CTX 32) as (seed & Hsk & Hl3); [lia|].
  exists wk, mk, seed. unfold open. rewrite Hwk, Hmk, Hsk. by rsimpl.
Qed.

(** C36. [Vault::open] succeeds on every master secret, with two 32-byte symmetric keys and a signing
    key made from a third 32-byte string, each derived from the secret under its own context;
    no context is a prefix of another. *)
Theorem vault_open_total secret :
  (∃ wk mk seed,
    derive_subkey secret WRAP_CTX 32 = Ok wk ∧ derive_subkey secret METADATA_CTX 32 = Ok mk ∧
    derive_subkey secret SIGN_CTX 32 = Ok seed ∧
    length wk = 32 ∧ length mk = 32 ∧ length seed = 32 ∧
    open secret = Ok {| wrap_key := wk; metadata_key := mk; signing_key := signing_key_from_seed seed |}) ∧
  ∀ c c', c ∈ [WRAP_CTX; METADATA_CTX; SIGN_CTX] → c' ∈ [WRAP_CTX; METADATA_CTX; SIGN_CTX] →
          c `prefix_of` c' → c = c'.
Proof.
  split; [apply open_total|]. destruct contexts_apart as (? & ? & ? & ? & ? & ?).
  intros c c' Hc Hc'. rewrite !elem_of_cons, elem_of_nil in Hc, Hc'.
  destruct Hc as [->|[->|[->|[]]]], Hc' as [->|[->|[->|[]]]]; done.
Qed.

End vault_open.

(** ** End to end *)

Section vault_properties.
Context `{OsRngLaws, AesGcmLaws, HkdfLaws, Ed25519Laws, Bip39Laws}.

(** Opening from a phrase is opening from the secret the phrase stands for, and fails only with
    [InvalidPhrase], exactly when the phrase does not stand for a secret. *)
Theorem from_recovery_phrase_outcomes phrase :
  match from_recovery_phrase phrase with
  | Ok v => ∃ secret, phrase_to_secret phrase = Ok secret ∧ length secret = 32 ∧ open secret = Ok v
  | Err e => e = InvalidPhrase ∧ phrase_to_secret phrase = Err InvalidPhrase
  end.
Proof.
  unfold from_recovery_phrase, phrase_to_secret.
  destruct (Mnemonic_parse phrase) as [m|]; rsimpl; [|done].
  destruct (Nat.eqb_spec (length (Mnemonic_to_entropy m)) 32) as [Hl|]; [|done]. simpl.
  destruct (open_total (Mnemonic_to_entropy m)) as (? & ? & ? & _ & _ & _ & _ & _ & _ & Ho).
  rewrite Ho. by eexists.
Qed.

(** C25. A vault restored from the recovery phrase of a master secret is interchangeable with the
    vault opened from the secret: it decrypts the blobs and the metadata fields the other has
    encrypted, and the signatures of the other verify under its public key. *)
Theorem restored_vault_interoperates secret v :
  length secret = 32 → open secret = Ok v →
  ∃ phrase v', secret_to_phrase secret = Ok phrase ∧ from_recovery_phrase phrase = Ok v' ∧
    (∀ pt id g framed g', encrypt_blob v pt id g = (Ok framed, g') →
                          decrypt_blob v' framed id = Ok pt) ∧
    (∀ pt r f g fld g', encrypt_metadata_field v pt r f g = (Ok fld, g') →
                        decrypt_metadata_field v' fld r f = Ok pt) ∧
    (∀ nonce, verify_signature (device_public_key v') nonce
                (sig_bytes (sign_challenge v nonce)) = Ok tt).
Proof.
  intros Hl Hopen. destruct (secret_has_phrase secret Hl) as (phrase & Hp & Hs).
  exists phrase, v. split; [done|]. split; [|split_and!].
  - unfold from_recovery_phrase. by rewrite Hs.
  - intros *. apply decrypt_encrypted.
  - intros *. apply decrypt_encrypted_field.
  - intros nonce. apply verify_signed.
Qed.

(** C5. From file to file and back through a vault, on paths given as strings. If encrypting
    [in_path] to [blob_path] has succeeded, then in any later state in which the blob file still
    has its contents, under a calm schedule, decrypting it to [out_path] succeeds and [out_path]
    has the contents [in_path] had. *)
Theorem vault_file_round_trip v in_path blob_path out_path id w w1 w2 :
  fs_ok (w_fs w) → distinct_files (w_fs w) (path_of_str in_path) (path_of_str blob_path) →
  run (encrypt_file_to_blob v in_path blob_path id w) = Some (Ok tt, w1) →
  contents (w_fs w2) (path_of_str blob_path) = contents (w_fs w1) (path_of_str blob_path) →
  fs_ok (w_fs w2) → temp_free w2 (path_of_str out_path) →
  calm w2 → (try_fill_bytes 8 (w_rng w2)).1 ≠ None → is_Some (file_name (path_of_str out_path)) →
  ∃ pt w3, contents (w_fs w) (path_of_str in_path) = Some pt ∧
    run (decrypt_blob_to_file v blob_path out_path id w2) = Some (Ok tt, w3) ∧
    contents (w_fs w3) (path_of_str out_path) = Some pt.
Proof.
  intros Hok Hd Henc Hb Hok2 Hfree Hc Hrng Hname.
  apply (file_round_trip _ _ _ _ _ w w1 w2); try done. apply path_of_str_ok.
Qed.

End vault_properties.

(** ** Witnesses *)

Definition sample_secret : bytes := replicate 32 x11.
Definition sample_vault : Vault :=
  match open sample_secret with
  | Ok v => v
  | Err _ => {| wrap_key := []; metadata_key := []; signing_key := [] |}
  end.

Lemma sample_vault_open : open sample_secret = Ok sample_vault.
Proof.
  unfold sample_vault.
  destruct (open_total sample_secret) as (? & ? & ? & _ & _ & _ & _ & _ & _ & Ho). by rewrite Ho.
Qed.

Lemma vault_open_total_witness :
  (∃ wk mk seed,
    derive_subkey sample_secret WRAP_CTX 32 = Ok wk ∧
    derive_subkey sample_secret METADATA_CTX 32 = Ok mk ∧
    derive_subkey sample_secret SIGN_CTX 32 = Ok seed ∧
    length wk = 32 ∧ length mk = 32 ∧ length seed = 32 ∧
    open sample_secret
      = Ok {| wrap_key := wk; metadata_key := mk; signing_key := signing_key_from_seed seed |}) ∧
  ∀ c c', c ∈ [WRAP_CTX; METADATA_CTX; SIGN_CTX] → c' ∈ [WRAP_CTX; METADATA_CTX; SIGN_CTX] →
          c `prefix_of` c' → c = c'.
Proof. apply vault_open_total. Defined.

Lemma from_recovery_phrase_outcomes_witness :
  match from_recovery_phrase (Mnemonic_to_string sample_secret) with
  | Ok v => ∃ secret, phrase_to_secret (Mnemonic_to_string sample_secret) = Ok secret ∧
                      length secret = 32 ∧ open secret = Ok v
  | Err e => e = InvalidPhrase ∧ phrase_to_secret (Mnemonic_to_string sample_secret) = Err InvalidPhrase
  end.
Proof. apply from_recovery_phrase_outcomes. Defined.

Lemma restored_vault_interoperates_witness :
  ∃ phrase v', secret_to_phrase sample_secret = Ok phrase ∧ from_recovery_phrase phrase = Ok v' ∧
    (∀ pt id g framed g', encrypt_blob sample_vault pt id g = (Ok framed, g') →
                          decrypt_blob v' framed id = Ok pt) ∧
    (∀ pt r f g fld g', encrypt_metadata_field sample_vault pt r f g = (Ok fld, g') →
                        decrypt_metadata_field v' fld r f = Ok pt) ∧
    (∀ nonce, verify_signature (device_public_key v') nonce
                (sig_bytes (sign_challenge sample_vault nonce)) = Ok tt).
Proof. apply restored_vault_interoperates; [done|apply sample_vault_open]. Defined.

Definition in_world : world := world_with (toy_gen 1) (path_of_str (lit "in.bin")) (lit "hello") [].

(** The world after the encryption, and a later one in which the system answers in short pieces. *)
Definition after_encryption : world :=
  match run (encrypt_file_to_blob sample_vault (lit "in.bin") (lit "x.blob") (lit "id") in_world) with
  | Some (_, w) => w
  | None => in_world
  end.

Definition sample_blob : bytes :=
  default [] (contents (w_fs after_encryption) (path_of_str (lit "x.blob"))).

Definition later_world : world :=
  world_with (toy_gen 9) (path_of_str (lit "x.blob")) sample_blob choppy.

Lemma after_encryption_run :
  run (encrypt_file_to_blob sample_vault (lit "in.bin") (lit "x.blob") (lit "id") in_world)
    = Some (Ok tt, after_encryption) ∧
  contents (w_fs later_world) (path_of_str (lit "x.blob"))
    = contents (w_fs after_encryption) (path_of_str (lit "x.blob")).
Proof.
  assert (match run (encrypt_file_to_blob sample_vault (lit "in.bin") (lit "x.blob") (lit "id") in_world) with
          | Some (Ok _, w) => bool_decide (is_Some (contents (w_fs w) (path_of_str (lit "x.blob"))))
          | _ => false
          end = true) as Hrun by (vm_compute; reflexivity).
  unfold later_world, sample_blob, after_encryption.
  destruct (run (encrypt_file_to_blob _ _ _ _ _)) as [[[[]|] w]|]; [|done..].
  apply bool_decide_eq_true in Hrun as [c Hc]. split; [done|]. rewrite Hc.
  unfold contents, world_with. cbn [w_fs fs_dir fs_ino]. by rewrite !lookup_singleton_eq.
Qed.

Lemma later_world_temp_free : temp_free later_world (path_of_str (lit "out.bin")).
Proof.
  intros tmp g Htmp. change (w_rng later_world) with (toy_gen 9) in Htmp.
  vm_compute in Htmp. injection Htmp as <- _.
  apply lookup_singleton_None. vm_compute. discriminate.
Qed.

Lemma vault_file_round_trip_witness :
  ∃ pt w3, contents (w_fs in_world) (path_of_str (lit "in.bin")) = Some pt ∧
    run (decrypt_blob_to_file sample_vault (lit "x.blob") (lit "out.bin") (lit "id") later_world)
      = Some (Ok tt, w3) ∧
    contents (w_fs w3) (path_of_str (lit "out.bin")) = Some pt.
Proof.
  apply (vault_file_round_trip _ _ _ _ _ in_world after_encryption).
  - apply world_with_ok.
  - by apply world_with_distinct.
  - apply after_encryption_run.
  - apply after_encryption_run.
  - apply world_with_ok.
  - apply later_world_temp_free.
  - repeat constructor; discriminate.
  - vm_compute. discriminate.
  - vm_compute. eauto.
Defined.
