(* ===== verification/Zeroize.v ===== *)
(** * Wiping of secrets

    The functions of the core crate that own key material, once more, with the buffers that hold
    it: where the source makes them, who owns them, and what their [Drop] or an explicit [zeroize]
    does to them. They compute what the functions on values compute, and leave no key behind but
    in the buffers they return. *)

From S2P Require Import Prelude Ints Errors Prims Memory Toy Aad Kdf Metadata Auth Recovery Segments Blob.
From S2P Require Import Path Process Io BlobFile.
From S2P Require Vault.
From Stdlib Require Import Lia.

(** ** Definitions *)

Section core.
Context `{OsRng, AesGcm, Hkdf, Ed25519, Bip39}.

Abbreviation core := (mem FilumCryptoError).

(** [OsRng.try_fill_bytes(&mut buf).map_err(|_| Randomness)?]. *)
Definition fill_buffer (buf : loc) : core unit :=
  old ← load buf;
  new ← on_rng (os_fill (length old));
  assign buf new.

(** [derive_subkey(secret, info, &mut out)]. *)
Definition derive_into (secret info : bytes) (out : loc) : core unit :=
  old ← load out;
  okm ← st_lift (derive_subkey secret info (length old));
  assign out okm.

(** *** [recovery.rs] *)

(** [Ok(out)] copies the array. *)
Definition generate_master_secret_mem : core bytes :=
  out ← alloc (replicate 32 x00);
  _ ← fill_buffer out;
  load out.

(** The [Mnemonic] wipes itself when it is dropped ([ZeroizeOnDrop]). *)
Definition phrase_to_secret_mem (phrase : str) : core bytes :=
  mnemonic ← st_lift (ok_or (Mnemonic_parse phrase) InvalidPhrase);
  entropy ← alloc (Mnemonic_to_entropy mnemonic);
  e ← load entropy;
  if negb (length e =? 32) then
    _ ← zeroize entropy;
    st_lift (Err InvalidPhrase)
  else
    out ← alloc (replicate 32 x00);
    _ ← assign out e;
    _ ← zeroize entropy;
    load out.

(** [mnemonic.to_string()] is a new buffer, handed over to the caller. *)
Definition secret_to_phrase_mem (secret : bytes) : core loc :=
  mnemonic ← st_lift (ok_or (Mnemonic_from_entropy secret) InvalidKeyLength);
  alloc (Mnemonic_to_string mnemonic).

(** *** [vault.rs] *)

(** The [SigningKey] wipes itself when it is dropped. *)
Record VaultMem := { vm_wrap_key : loc; vm_metadata_key : loc; vm_signing_key : SigningKey }.

Definition open_mem (master_secret : bytes) : core VaultMem :=
  wrap_key ← alloc (replicate 32 x00);
  moved_out wrap_key (
    _ ← derive_into master_secret WRAP_CTX wrap_key;
    metadata_key ← alloc (replicate 32 x00);
    moved_out metadata_key (
      _ ← derive_into master_secret METADATA_CTX metadata_key;
      sign_seed ← alloc (replicate 32 x00);
      zeroizing sign_seed (
        _ ← derive_into master_secret SIGN_CTX sign_seed;
        seed ← load sign_seed;
        mret {| vm_wrap_key := wrap_key; vm_metadata_key := metadata_key;
                vm_signing_key := signing_key_from_seed seed |}))).

Definition from_recovery_phrase_mem (phrase : str) : core VaultMem :=
  array ← phrase_to_secret_mem phrase;
  secret ← alloc array;
  zeroizing secret (
    s ← load secret;
    open_mem s).

(** The [Drop] of the fields of a vault. *)
Definition drop_vault (self : VaultMem) : core unit :=
  _ ← zeroize (vm_wrap_key self);
  zeroize (vm_metadata_key self).

(** *** [blob.rs] *)

Definition unwrap_data_key_mem (wrapped wrapping_key a : bytes) : core loc :=
  if negb (length wrapped =? WRAPPED_KEY_LEN) then st_lift (Err Aead) else
  let wrap_iv := take 12 wrapped in
  let wrapped_ct := drop 12 wrapped in
  let wrapper := aes_new wrapping_key in
  plain ← st_lift (ok_or (decrypt wrapper wrap_iv {| msg := wrapped_ct; aad := a |}) Aead);
  data_key_vec ← alloc plain;
  zeroizing data_key_vec (
    v ← load data_key_vec;
    if negb (length v =? 32) then st_lift (Err Aead) else
    data_key ← alloc (replicate 32 x00);
    moved_out data_key (
      _ ← assign data_key v;
      mret data_key)).

(** The common opening of the two encoders once [data_key] is there. *)
Definition new_blob_keys_mem (data_key : loc) (wrapping_key : bytes) (blob_id : str)
    : core (bytes * bytes) :=
  _ ← fill_buffer data_key;
  nonce_prefix ← on_rng (os_fill NONCE_PREFIX_LEN);
  wrap_aad ← st_lift (blob_wrap_aad blob_id VERSION nonce_prefix chunk_size_be);
  dk ← load data_key;
  wrapped ← on_rng (wrap_data_key dk wrapping_key wrap_aad);
  mret (nonce_prefix, wrapped).

Definition encrypt_chunked_mem (plaintext wrapping_key : bytes) (blob_id : str) : core bytes :=
  seg_aad ← st_lift (blob_segment_aad blob_id);
  data_key ← alloc (replicate 32 x00);
  zeroizing data_key (
    '(nonce_prefix, wrapped) ← new_blob_keys_mem data_key wrapping_key blob_id;
    let out := write_header [] wrapped nonce_prefix in
    dk ← load data_key;
    let cipher := aes_new dk in
    let enc := enc_from_aead cipher nonce_prefix in
    let full_chunks := length plaintext / CHUNK_SIZE in
    '(enc, out) ← st_lift (encrypt_full_chunks plaintext seg_aad full_chunks 0 enc out);
    last ← st_lift (ok_or (encrypt_last enc
      {| msg := drop (full_chunks * CHUNK_SIZE) plaintext; aad := seg_aad |}) Aead);
    mret (out ++ last)).

(** The common opening of the two decoders. *)
Definition open_header_mem (header wrapping_key : bytes) (blob_id : str) : core (loc * bytes * nat) :=
  if bool_decide (header !! 0 ≠ Some VERSION) then st_lift (Err Aead) else
  let nonce_prefix := slice header (1 + WRAPPED_KEY_LEN) (1 + WRAPPED_KEY_LEN + NONCE_PREFIX_LEN) in
  let cs_off := 1 + WRAPPED_KEY_LEN + NONCE_PREFIX_LEN in
  let chunk_size := u32_from_be_bytes (slice header cs_off (cs_off + 4)) in
  if negb (chunk_size =? chunk_size_int)%Z then st_lift (Err Aead) else
  wrap_aad ← st_lift (blob_wrap_aad blob_id VERSION nonce_prefix chunk_size_be);
  data_key ← unwrap_data_key_mem (slice header 1 (1 + WRAPPED_KEY_LEN)) wrapping_key wrap_aad;
  mret (data_key, nonce_prefix, Z.to_nat chunk_size + 16).

Definition decrypt_chunked_mem (framed wrapping_key : bytes) (blob_id : str) : core bytes :=
  seg_aad ← st_lift (blob_segment_aad blob_id);
  if length framed <? HEADER_LEN then st_lift (Err Aead) else
  '(data_key, nonce_prefix, ct_chunk) ← open_header_mem framed wrapping_key blob_id;
  zeroizing data_key (
    dk ← load data_key;
    let cipher := aes_new dk in
    let dec := dec_from_aead cipher nonce_prefix in
    let body := drop HEADER_LEN framed in
    let it := chunks ct_chunk body in
    if bool_decide (it = []) then st_lift (Err Aead) else
    st_lift (decrypt_chunks dec seg_aad it [])).

(** *** The methods of a vault *)

Definition encrypt_blob_mem (self : VaultMem) (plaintext : bytes) (blob_id : str) : core bytes :=
  key ← load (vm_wrap_key self);
  encrypt_chunked_mem plaintext key blob_id.

Definition decrypt_blob_mem (self : VaultMem) (framed : bytes) (blob_id : str) : core bytes :=
  key ← load (vm_wrap_key self);
  decrypt_chunked_mem framed key blob_id.

Definition encrypt_metadata_field_mem (self : VaultMem) (plaintext : bytes) (record_id field_name : str)
    : core EncryptedField :=
  key ← load (vm_metadata_key self);
  on_rng (encrypt_field plaintext key record_id field_name).

Definition decrypt_metadata_field_mem (self : VaultMem) (field : EncryptedField)
    (record_id field_name : str) : core bytes :=
  key ← load (vm_metadata_key self);
  st_lift (decrypt_field field key record_id field_name).

Definition sign_challenge_mem (self : VaultMem) (nonce : bytes) : DeviceSignature :=
  Auth.sign_challenge (vm_signing_key self) nonce.

Definition device_public_key_mem (self : VaultMem) : bytes := public_key_bytes (vm_signing_key self).

(** *** The file codecs of [blob.rs] *)

(** A computation on buffers, and the scope of a [Zeroizing], in a program that uses files. *)
Definition io_mem {E A} (m : mem E A) : io (world * store) E A := λ '(w, s),
  let '(r, (g, s')) := m (w_rng w, s) in Done (r, (set_rng g w, s')).

Definition io_zeroizing {E A} (l : loc) (body : io (world * store) E A) : io (world * store) E A := λ ws,
  prog_bind (body ws) (λ '(r, (w, s)), Done (r, (w, alter zeroed l s))).

Definition encrypt_file_chunked_mem (input output : Path) (wrapping_key : bytes) (blob_id : str)
    : io (world * store) FilumCryptoError unit :=
  seg_aad ← io_lift (blob_segment_aad blob_id);
  data_key ← io_mem (alloc (replicate 32 x00));
  io_zeroizing data_key (
    '(nonce_prefix, wrapped) ← io_mem (new_blob_keys_mem data_key wrapping_key blob_id);
    dk ← io_mem (load data_key);
    io_fst (
      fin ← io_err (file_open input);
      fout ← io_err (file_create output);
      scoped (BufWriter_new fout) bw_drop (
        _ ← io_err (bw_write_all (write_header [] wrapped nonce_prefix));
        let cipher := aes_new dk in
        let enc := enc_from_aead cipher nonce_prefix in
        fuel ← io_fst (loop_fuel fin);
        _ ← stream_loop encrypt_next encrypt_last CHUNK_SIZE seg_aad fuel (BufReader_new fin) enc None;
        io_err bw_flush))).

Definition decrypt_file_chunked_mem (input output : Path) (wrapping_key : bytes) (blob_id : str)
    : io (world * store) FilumCryptoError unit :=
  seg_aad ← io_lift (blob_segment_aad blob_id);
  f ← io_fst (io_err (file_open input));
  '(header, fin) ← io_fst (io_err (read_exact (BufReader_new f) HEADER_LEN));
  '(data_key, nonce_prefix, ct_chunk) ← io_mem (open_header_mem header wrapping_key blob_id);
  io_zeroizing data_key (
    dk ← io_mem (load data_key);
    io_fst (
      let cipher := aes_new dk in
      let dec := dec_from_aead cipher nonce_prefix in
      tmp ← io_rng (sibling_temp_path output);
      scoped {| tc_path := tmp; tc_armed := true |} TempCleanup_drop (
        fout ← io_fst (io_err (file_create tmp));
        _ ← io_fst (scoped (BufWriter_new fout) bw_drop (
          fuel ← io_fst (loop_fuel f);
          _ ← stream_loop decrypt_next decrypt_last ct_chunk seg_aad fuel fin dec None;
          _ ← io_err bw_flush;
          io_err bw_sync));
        _ ← io_fst (io_err (rename tmp output));
        disarm))).

(** [Vault::encrypt_file_to_blob] and [Vault::decrypt_blob_to_file]. *)
Definition encrypt_file_to_blob_mem (self : VaultMem) (in_path out_path blob_id : str)
    : io (world * store) FilumCryptoError unit :=
  key ← io_mem (load (vm_wrap_key self));
  encrypt_file_chunked_mem (path_of_str in_path) (path_of_str out_path) key blob_id.

Definition decrypt_blob_to_file_mem (self : VaultMem) (in_path out_path blob_id : str)
    : io (world * store) FilumCryptoError unit :=
  key ← io_mem (load (vm_wrap_key self));
  decrypt_file_chunked_mem (path_of_str in_path) (path_of_str out_path) key blob_id.

End core.

(** ** What they leave behind *)

(** The buffers made since [s], wiped. *)
Definition clean (s s' : store) : Prop := ∃ new, s' = s ++ new ∧ Forall wiped new.

Lemma clean_refl s : clean s s.
Proof. exists []. by rewrite app_nil_r. Qed.

Lemma clean_app s new : Forall wiped new → clean s (s ++ new).
Proof. intros Hnew. by exists new. Qed.

(** Behind a buffer that is wiped as well. *)
Lemma clean_behind s b s' : clean (s ++ [b]) s' → wiped b → clean s s'.
Proof.
  intros (new & -> & Hnew) Hb. exists (b :: new). split; [by rewrite <-app_assoc|by constructor].
Qed.

Lemma clean_trans s1 s2 s3 : clean s1 s2 → clean s2 s3 → clean s1 s3.
Proof.
  intros (n1 & -> & H1) (n2 & -> & H2). exists (n1 ++ n2).
  split; [by rewrite <-app_assoc|by apply Forall_app].
Qed.

#[export] Hint Resolve clean_refl clean_app : filum.

Lemma cons_behind (s t : store) b : s ++ b :: t = (s ++ [b]) ++ t.
Proof. by rewrite <-app_assoc. Qed.

(** At the end of nested scopes: the last buffers made are theirs. *)
Ltac scopes_end :=
  repeat (eexists _, _; split; [rewrite <-?app_assoc; reflexivity|]; cbn [is_ok]);
  repeat (split; [done|]); try (rewrite <-?app_assoc; cbn [app]; apply clean_app; by auto 6 with filum).

Section left_behind.
Context `{OsRngLaws, AesGcm, Hkdf, Ed25519, Bip39}.

(** A computation on values, done again on buffers of which none keeps a secret. *)
Definition refines_clean {E A} (m : mem E A) (plain : st rng E A) : Prop :=
  ∀ g s, leaves m g s (λ r g' s', (r, g') = plain g ∧ clean s s').

Lemma fill_buffer_leaves b t g s (Q : Result unit → rng → store → Prop) :
  (match os_fill (length b) g with
   | (Ok new, g') => Q (Ok tt) g' (s ++ new :: t)
   | (Err e, g') => Q (Err e) g' (s ++ b :: t)
   end) →
  leaves (fill_buffer (length s)) g (s ++ b :: t) Q.
Proof.
  intros HQ. apply leaves_bind, leaves_load. apply leaves_bind, leaves_rng.
  destruct (os_fill (length b) g) as [[new|e] g']; cbn [fst snd]; [by apply leaves_assign|done].
Qed.

Lemma derive_into_leaves secret info b t g s (Q : Result unit → rng → store → Prop) :
  (match derive_subkey secret info (length b) with
   | Ok okm => Q (Ok tt) g (s ++ okm :: t)
   | Err e => Q (Err e) g (s ++ b :: t)
   end) →
  leaves (derive_into secret info (length s)) g (s ++ b :: t) Q.
Proof.
  intros HQ. apply leaves_bind, leaves_load. apply leaves_bind, leaves_lift.
  destruct (derive_subkey _ _ _); [by apply leaves_assign|done].
Qed.

(** A new buffer for the length of a scope, wiped at its end. *)
Lemma leaves_scope {E A} b (body : loc → mem E A) g s (Q : result E A → rng → store → Prop) :
  leaves (body (length s)) g (s ++ [b]) (λ r g' s',
    ∃ b' t, s' = s ++ b' :: t ∧ Q r g' (s ++ zeroed b' :: t)) →
  leaves (l ← alloc b; zeroizing l (body l)) g s Q.
Proof. intros Hb. by apply leaves_bind, leaves_alloc, leaves_zeroizing. Qed.

Lemma leaves_scope_moved {E A} b (body : loc → mem E A) g s (Q : result E A → rng → store → Prop) :
  leaves (body (length s)) g (s ++ [b]) (λ r g' s',
    ∃ b' t, s' = s ++ b' :: t ∧ Q r g' (s ++ (if is_ok r then b' else zeroed b') :: t)) →
  leaves (l ← alloc b; moved_out l (body l)) g s Q.
Proof. intros Hb. by apply leaves_bind, leaves_alloc, leaves_moved_out. Qed.

(** [unwrap_data_key]: the key is in the last buffer, or nowhere. *)
Lemma unwrap_data_key_leaves w wk a g s :
  leaves (unwrap_data_key_mem w wk a) g s (λ r g' s', g' = g ∧
    match unwrap_data_key w wk a with
    | Ok dk => r = Ok (length (s ++ [zeroed dk])) ∧ s' = (s ++ [zeroed dk]) ++ [dk]
    | Err e => r = Err e ∧ clean s s'
    end).
Proof.
  unfold unwrap_data_key_mem, unwrap_data_key.
  destruct (negb (length w =? WRAPPED_KEY_LEN)); [apply leaves_lift; auto with filum|]. cbv zeta.
  apply leaves_bind, leaves_lift. destruct (decrypt _ _ _) as [dk|]; cbn [ok_or mbind result_bind]; [|auto with filum].
  apply leaves_scope. apply leaves_bind, leaves_load.
  destruct (negb (length dk =? 32)).
  { apply leaves_lift. exists dk, []. split; [done|]. split; [done|]. split; [done|]. by auto with filum. }
  apply leaves_scope_moved. apply leaves_bind, leaves_assign, leaves_ret. simpl is_ok.
  exists dk, []. split; [done|]. exists dk, [dk]. rewrite <-!app_assoc, !length_app. done.
Qed.

(** The buffers of a new vault, in front of what else was made. *)
Definition vault_made (v : Vault.Vault) (vm : VaultMem) (s s' : store) : Prop :=
  vm = {| vm_wrap_key := length s; vm_metadata_key := length (s ++ [Vault.wrap_key v]);
          vm_signing_key := Vault.signing_key v |} ∧
  clean ((s ++ [Vault.wrap_key v]) ++ [Vault.metadata_key v]) s'.

Lemma open_leaves secret g s :
  leaves (open_mem secret) g s (λ r g' s', g' = g ∧
    match Vault.open secret with
    | Ok v => ∃ vm, r = Ok vm ∧ vault_made v vm s s'
    | Err e => r = Err e ∧ clean s s'
    end).
Proof.
  unfold open_mem, Vault.open. apply leaves_scope_moved, leaves_bind, derive_into_leaves.
  change (length (replicate 32 x00)) with 32. destruct (derive_subkey secret WRAP_CTX 32) as [wk|e];
    cbn [mbind result_bind]; [|scopes_end].
  apply leaves_scope_moved, leaves_bind, derive_into_leaves.
  change (length (replicate 32 x00)) with 32. destruct (derive_subkey secret METADATA_CTX 32) as [mk|e];
    cbn [mbind result_bind]; [|scopes_end].
  apply leaves_scope, leaves_bind, derive_into_leaves.
  change (length (replicate 32 x00)) with 32. destruct (derive_subkey secret SIGN_CTX 32) as [seed|e];
    cbn [mbind result_bind].
  - apply leaves_bind, leaves_load, leaves_ret. cbn [is_ok].
    scopes_end. eexists. split; [done|]. split; [done|]. exists [zeroed seed]. rewrite <-!app_assoc. by auto with filum.
  - scopes_end.
Qed.

Lemma phrase_to_secret_leaves phrase g s :
  leaves (phrase_to_secret_mem phrase) g s (λ r g' s', g' = g ∧ r = phrase_to_secret phrase ∧
    match r with
    | Ok secret => s' = s ++ [zeroed secret; secret]
    | Err _ => clean s s'
    end).
Proof.
  unfold phrase_to_secret_mem, phrase_to_secret. apply leaves_bind, leaves_lift.
  destruct (Mnemonic_parse phrase) as [m|]; cbn [ok_or mbind result_bind]; [|auto with filum].
  apply leaves_bind, leaves_alloc, leaves_bind, leaves_load.
  destruct (negb (length (Mnemonic_to_entropy m) =? 32)).
  { apply leaves_bind, leaves_zeroize, leaves_lift. auto with filum. }
  apply leaves_bind, leaves_alloc, leaves_bind, leaves_assign, leaves_bind.
  rewrite <-app_assoc. apply leaves_zeroize. cbn [app].
  rewrite (cons_behind s [_] (zeroed _)).
  replace (length (s ++ [Mnemonic_to_entropy m])) with (length (s ++ [zeroed (Mnemonic_to_entropy m)]))
    by (by rewrite !length_app).
  apply leaves_load. by rewrite <-app_assoc.
Qed.

Lemma secret_to_phrase_leaves secret g s :
  leaves (secret_to_phrase_mem secret) g s (λ r g' s', g' = g ∧
    match secret_to_phrase secret with
    | Ok phrase => r = Ok (length s) ∧ s' = s ++ [phrase]
    | Err e => r = Err e ∧ clean s s'
    end).
Proof.
  unfold secret_to_phrase_mem, secret_to_phrase. apply leaves_bind, leaves_lift.
  destruct (Mnemonic_from_entropy secret) as [m|]; cbn [ok_or mbind result_bind]; [|auto with filum].
  by apply leaves_alloc.
Qed.

Lemma new_blob_keys_leaves wk id g s :
  leaves (new_blob_keys_mem (length s) wk id) g (s ++ [replicate 32 x00]) (λ r g' s',
    ∃ b, s' = s ++ [b] ∧
      match new_blob_keys wk id g with
      | (Ok (dk, np, w), g1) => g' = g1 ∧ r = Ok (np, w) ∧ b = dk
      | (Err e, g1) => g' = g1 ∧ r = Err e
      end).
Proof.
  destruct (new_blob_keys wk id g) as [rp gp] eqn:Hp. unfold new_blob_keys in Hp. rsimpl_in Hp.
  apply leaves_bind, fill_buffer_leaves. change (length (replicate 32 x00)) with 32.
  destruct (os_fill 32 g) as [[dk|e] g1]; [|simplify_eq; by eauto].
  apply leaves_bind, leaves_rng.
  destruct (os_fill NONCE_PREFIX_LEN g1) as [[np|e] g2]; cbn [fst snd]; [|simplify_eq; by eauto].
  apply leaves_bind, leaves_lift. destruct (blob_wrap_aad _ _ _ _) as [a|e]; [|simplify_eq; by eauto].
  apply leaves_bind, leaves_load. apply leaves_bind, leaves_rng.
  destruct (wrap_data_key dk wk a g2) as [[w|e] g3]; cbn [fst snd]; simplify_eq; [|by eauto].
  apply leaves_ret. by eauto.
Qed.

Lemma encrypt_chunked_clean pt wk id : refines_clean (encrypt_chunked_mem pt wk id) (encrypt_chunked pt wk id).
Proof.
  intros g s. destruct (encrypt_chunked pt wk id g) as [rp gp] eqn:Hp. unfold encrypt_chunked in Hp. rsimpl_in Hp.
  unfold encrypt_chunked_mem. apply leaves_bind, leaves_lift.
  destruct (blob_segment_aad id) as [a|e]; [|simplify_eq; auto with filum]. apply leaves_scope, leaves_bind.
  eapply leaves_mono; [apply new_blob_keys_leaves|]. intros r g' s' (b & -> & Hr).
  destruct (new_blob_keys wk id g) as [[[[dk np] w]|e] g1];
    [destruct Hr as (-> & -> & ->)|destruct Hr as [-> ->]; simplify_eq; by scopes_end].
  apply leaves_bind, leaves_load, leaves_bind, leaves_lift.
  destruct (encrypt_full_chunks _ _ _ _ _ _) as [[enc out]|e]; [|simplify_eq; by scopes_end].
  apply leaves_bind, leaves_lift. destruct (encrypt_last _ _) as [last|]; simplify_eq; [|by scopes_end].
  apply leaves_ret. by scopes_end.
Qed.

Lemma open_header_leaves h wk id g s :
  leaves (open_header_mem h wk id) g s (λ r g' s', g' = g ∧
    match open_header h wk id with
    | Ok (dk, np, n) => r = Ok (length (s ++ [zeroed dk]), np, n) ∧ s' = (s ++ [zeroed dk]) ++ [dk]
    | Err e => r = Err e ∧ clean s s'
    end).
Proof.
  unfold open_header_mem, open_header. case_bool_decide; [apply leaves_lift; auto with filum|]. cbv zeta.
  destruct (negb _); [apply leaves_lift; auto with filum|]. apply leaves_bind, leaves_lift.
  destruct (blob_wrap_aad _ _ _ _) as [a|e]; cbn [mbind result_bind]; [|auto with filum].
  apply leaves_bind. eapply leaves_mono; [apply unwrap_data_key_leaves|]. intros r g' s' [-> Hr].
  destruct (unwrap_data_key _ _ _) as [dk|e]; destruct Hr as [-> Hr]; cbn [mbind result_bind]; [|done].
  apply leaves_ret. by subst s'.
Qed.

Lemma decrypt_chunked_leaves framed wk id g s :
  leaves (decrypt_chunked_mem framed wk id) g s (λ r g' s',
    r = decrypt_chunked framed wk id ∧ g' = g ∧ clean s s').
Proof.
  unfold decrypt_chunked_mem, decrypt_chunked. apply leaves_bind, leaves_lift.
  destruct (blob_segment_aad id) as [a|e]; cbn [mbind result_bind]; [|auto with filum].
  destruct (length framed <? HEADER_LEN); [apply leaves_lift; by auto with filum|].
  apply leaves_bind. eapply leaves_mono; [apply open_header_leaves|]. intros r g' s' [-> Hr].
  destruct (open_header framed wk id) as [[[dk np] n]|e]; cbn [mbind result_bind]; destruct Hr as [-> Hr]; [|done].
  subst s'. apply leaves_zeroizing, leaves_bind, leaves_load. cbv zeta.
  destruct (bool_decide _); apply leaves_lift; by scopes_end.
Qed.

Lemma decrypt_chunked_clean framed wk id :
  refines_clean (decrypt_chunked_mem framed wk id) (st_lift (decrypt_chunked framed wk id)).
Proof.
  intros g s. eapply leaves_mono; [apply decrypt_chunked_leaves|]. by intros r g' s' (-> & -> & Hs).
Qed.

Lemma generate_master_secret_leaves g s :
  leaves generate_master_secret_mem g s (λ r g' s', (r, g') = generate_master_secret g ∧
    match r with
    | Ok secret => s' = s ++ [secret]
    | Err _ => clean s s'
    end).
Proof.
  unfold generate_master_secret_mem, generate_master_secret. apply leaves_bind, leaves_alloc, leaves_bind.
  apply fill_buffer_leaves. change (length (replicate 32 x00)) with 32.
  destruct (os_fill 32 g) as [[b|e] g']; [by apply leaves_load|]. auto with filum.
Qed.

End left_behind.

(** ** The file codecs *)

(** The same system calls, and related results, whatever others do in between. *)
Inductive same_calls {A B} (R : A → B → Prop) : prog A → prog B → Prop :=
| same_done a b : R a b → same_calls R (Done a) (Done b)
| same_stuck : same_calls R Stuck Stuck
| same_call fs k k' : (∀ fs', same_calls R (k fs') (k' fs')) → same_calls R (Call fs k) (Call fs k').

Lemma same_bind {A B A' B'} (R : A → B → Prop) (R' : A' → B' → Prop) p q f h :
  same_calls R p q → (∀ a b, R a b → same_calls R' (f a) (h b)) →
  same_calls R' (prog_bind p f) (prog_bind q h).
Proof. intros Hpq Hf. induction Hpq; cbn [prog_bind]; [by apply Hf|constructor|by constructor]. Qed.

Lemma same_mono {A B} (R R' : A → B → Prop) p q :
  same_calls R p q → (∀ a b, R a b → R' a b) → same_calls R' p q.
Proof. intros Hpq HR. induction Hpq; constructor; auto. Qed.

Lemma same_run {A B} (R : A → B → Prop) p q a :
  same_calls R p q → run q = Some a → ∃ a', run p = Some a' ∧ R a' a.
Proof.
  intros Hpq. induction Hpq as [a' b HR| |fs k k' _ IH]; cbn [run]; [|done|apply IH].
  intros [= <-]. by exists a'.
Qed.

Section files.
Context `{OsRngLaws, AesGcm}.

(** The codec on values, with the buffers beside the world, none of which keeps a key. *)
Definition files_clean {E A} (m : io (world * store) E A) (plain : io world E A) : Prop :=
  ∀ w s, same_calls (λ '(r, (w', s')) b, b = (r, w') ∧ clean s s') (m (w, s)) (plain w).

Lemma same_fst {E A} (m : io world E A) w (s : store) :
  same_calls (λ '(r, (w', s')) b, b = (r, w') ∧ s' = s) (io_fst m (w, s)) (m w).
Proof.
  unfold io_fst. induction (m w) as [[r w']| |fs k IH]; cbn [prog_bind]; [by constructor|constructor|].
  constructor. intros fs'. apply IH.
Qed.

(** The last buffer is wiped at the end of the scope. *)
Lemma same_zeroizing {E A} b (body : io (world * store) E A) (plain : prog (result E A * world)) w s :
  same_calls (λ '(r, (w', s')) b', b' = (r, w') ∧ ∃ c, s' = s ++ [c]) (body (w, s ++ [b])) plain →
  same_calls (λ '(r, (w', s')) b', b' = (r, w') ∧ clean s s')
    (io_zeroizing (length s) body (w, s ++ [b])) plain.
Proof.
  intros Hb. unfold io_zeroizing.
  induction Hb as [[r [w' s']] b' [-> [c ->]]| |fs k k' _ IH]; cbn [prog_bind]; [|constructor|by constructor].
  constructor. rewrite alter_at. by auto with filum.
Qed.

Lemma io_rng_run {A B} (m : st rng FilumCryptoError A) (k : A → io world FilumCryptoError B) w :
  (io_rng m ≫= k) w =
  match m (w_rng w) with
  | (Ok a, g) => k a (set_rng g w)
  | (Err e, g) => Done (Err e, set_rng g w)
  end.
Proof. unfold mbind, io_bind, io_rng. by destruct (m (w_rng w)) as [[] ?]. Qed.

Lemma io_lift_run {E A B} (r : result E A) (k : A → io world E B) w :
  (io_lift r ≫= k) w = match r with Ok a => k a w | Err e => Done (Err e, w) end.
Proof. by destruct r. Qed.

Lemma set_rng_same w : set_rng (w_rng w) w = w.
Proof. by destruct w. Qed.

(** A step on the world alone. *)
Lemma same_step {E A B} (m : io world E A) (k : A → io (world * store) E B) (k' : A → io world E B) w s
    (R : result E B * (world * store) → result E B * world → Prop) :
  (∀ e w', R (Err e, (w', s)) (Err e, w')) →
  (∀ a w', same_calls R (k a (w', s)) (k' a w')) →
  same_calls R ((io_fst m ≫= k) (w, s)) ((m ≫= k') w).
Proof.
  intros HErr HOk. unfold mbind, io_bind. eapply same_bind; [apply same_fst|].
  intros [r [w' s']] b [-> ->]. destruct r as [a|e]; [apply HOk|by constructor].
Qed.

Lemma same_lift {E A B} (r : result E A) (k : A → io (world * store) E B) (k' : A → io world E B) w s
    (R : result E B * (world * store) → result E B * world → Prop) :
  match r with
  | Ok a => same_calls R (k a (w, s)) (k' a w)
  | Err e => R (Err e, (w, s)) (Err e, w)
  end →
  same_calls R ((io_lift r ≫= k) (w, s)) ((io_lift r ≫= k') w).
Proof. unfold mbind, io_bind, io_lift. destruct r; [done|]. intros HR. by constructor. Qed.

(** A step on the buffers and the entropy source, which the codec on values takes in its own way. *)
Lemma same_mem {E A B} (m : mem E A) (k : A → io (world * store) E B) w s
    (R : result E B * (world * store) → result E B * world → Prop) plain :
  leaves m (w_rng w) s (λ r g s',
    match r with
    | Ok a => same_calls R (k a (set_rng g w, s')) plain
    | Err e => same_calls R (Done (Err e, (set_rng g w, s'))) plain
    end) →
  same_calls R ((io_mem m ≫= k) (w, s)) plain.
Proof.
  intros (r & g & s' & Hm & Hk). unfold mbind, io_bind, io_mem. rewrite Hm. by destruct r.
Qed.

(** The rest of a codec works on the world. *)
Lemma same_rest {E A} (m : io world E A) w (s : store) b :
  same_calls (λ '(r, (w', s')) b', b' = (r, w') ∧ ∃ c, s' = s ++ [c]) (io_fst m (w, s ++ [b])) (m w).
Proof.
  eapply same_mono; [apply same_fst|]. intros [r [w' s']] b' [-> ->]. by eauto.
Qed.

Lemma encrypt_file_clean input output wk id :
  files_clean (encrypt_file_chunked_mem input output wk id) (encrypt_file_chunked input output wk id).
Proof.
  intros w s. unfold encrypt_file_chunked_mem, encrypt_file_chunked. apply same_lift.
  destruct (blob_segment_aad id) as [a|e]; [|auto with filum].
  apply same_mem, leaves_alloc. rewrite set_rng_same. apply same_zeroizing, same_mem.
  eapply leaves_mono; [apply new_blob_keys_leaves|]. intros r g s' (c & -> & Hr).
  rewrite io_rng_run. destruct (new_blob_keys wk id (w_rng w)) as [[[[dk np] wr]|e] g'];
    [destruct Hr as (-> & -> & ->)|destruct Hr as [-> ->]]; [|constructor; by eauto].
  apply same_mem, leaves_load. rewrite set_rng_same. apply same_rest.
Qed.

Lemma decrypt_file_clean input output wk id :
  files_clean (decrypt_file_chunked_mem input output wk id) (decrypt_file_chunked input output wk id).
Proof.
  intros w s. unfold decrypt_file_chunked_mem, decrypt_file_chunked. apply same_lift.
  destruct (blob_segment_aad id) as [a|e]; [|auto with filum].
  apply same_step; [by auto with filum|]. intros f w1.
  apply same_step; [by auto with filum|]. intros [header fin] w2.
  apply same_mem. eapply leaves_mono; [apply open_header_leaves|]. intros r g s' [-> Hr]. rewrite set_rng_same.
  rewrite io_lift_run.
  destruct (open_header header wk id) as [[[dk np] n]|e]; destruct Hr as [-> Hr]; [subst s'|by constructor].
  eapply same_mono; [apply same_zeroizing, same_mem, leaves_load; rewrite set_rng_same; apply same_rest|].
  intros [r [w' s']] b [-> Hs]. split; [done|]. by apply (clean_behind _ (zeroed dk)); [|apply zeroed_wiped].
Qed.

(** C15. The file codecs make the same system calls as the functions on values, with the same result and
    the same effect on the world, whatever other processes do in between; and every buffer they
    make for the data key is zero when they return, on whichever of their exits: a bad id, a
    missing file, a header that is refused, a failed read, write or rename, a forged segment, or
    success. *)
Theorem file_codecs_wiped input output wk id :
  files_clean (encrypt_file_chunked_mem input output wk id) (encrypt_file_chunked input output wk id) ∧
  files_clean (decrypt_file_chunked_mem input output wk id) (decrypt_file_chunked input output wk id).
Proof. split; [apply encrypt_file_clean|apply decrypt_file_clean]. Qed.

End files.

(** ** Witnesses *)

Lemma file_codecs_wiped_witness :
  same_calls (λ '(r, (w', s')) b, b = (r, w') ∧ clean [] s')
    (encrypt_file_chunked_mem (path_of_str (lit "in.bin")) (path_of_str (lit "x.blob")) Vault.sample_secret
       (lit "id") (Vault.in_world, []))
    (encrypt_file_chunked (path_of_str (lit "in.bin")) (path_of_str (lit "x.blob")) Vault.sample_secret
       (lit "id") Vault.in_world).
Proof.
  exact (proj1 (file_codecs_wiped (path_of_str (lit "in.bin")) (path_of_str (lit "x.blob")) Vault.sample_secret
    (lit "id")) Vault.in_world []).
Defined.
