(* ===== verification/ZeroizeVault.v ===== *)
(** * The life of a vault, with its buffers

    A vault is opened, used through all its methods, in any order and with any outcome, those on
    files included, and goes out of scope. The functions with buffers of [Zeroize] are composed as a
    caller composes the methods, and compared with the functions on values of [Vault]: they make
    the same system calls and give the same answers, and no key is left in memory. *)

From S2P Require Import Prelude Errors Prims Memory Toy Kdf Metadata Auth Recovery Blob.
From S2P Require Import Path Process Io IoSpec BlobFile Zeroize.
From S2P Require Vault.
From Stdlib Require Import Lia.

(** ** Definitions *)

(** A call of a method, and its result. *)
Inductive vault_call : Type :=
| EncryptBlob (plaintext : bytes) (blob_id : str)
| DecryptBlob (framed : bytes) (blob_id : str)
| EncryptFileToBlob (in_path out_path blob_id : str)
| DecryptBlobToFile (in_path out_path blob_id : str)
| EncryptField (plaintext : bytes) (record_id field_name : str)
| DecryptField (field : EncryptedField) (record_id field_name : str)
| SignChallenge (nonce : bytes)
| DevicePublicKey.

Inductive vault_answer : Type :=
| AnsBytes (r : Result bytes)
| AnsUnit (r : Result unit)
| AnsField (r : Result EncryptedField)
| AnsSignature (sig : DeviceSignature).

Section life.
Context `{OsRng, AesGcm, Hkdf, Ed25519, Bip39}.

(** The result of a call as a value: the caller goes on after an error. *)
Definition answered {S E A B} (f : result E A → B) (m : io S E A) : io S E B := λ s,
  prog_bind (m s) (λ '(r, s'), Done (Ok (f r), s')).

Definition call_mem (vm : VaultMem) (c : vault_call) : io (world * store) FilumCryptoError vault_answer :=
  match c with
  | EncryptBlob pt id => answered AnsBytes (io_mem (encrypt_blob_mem vm pt id))
  | DecryptBlob framed id => answered AnsBytes (io_mem (decrypt_blob_mem vm framed id))
  | EncryptFileToBlob i o id => answered AnsUnit (encrypt_file_to_blob_mem vm i o id)
  | DecryptBlobToFile i o id => answered AnsUnit (decrypt_blob_to_file_mem vm i o id)
  | EncryptField pt r f => answered AnsField (io_mem (encrypt_metadata_field_mem vm pt r f))
  | DecryptField fld r f => answered AnsBytes (io_mem (decrypt_metadata_field_mem vm fld r f))
  | SignChallenge nonce => mret (AnsSignature (sign_challenge_mem vm nonce))
  | DevicePublicKey => mret (AnsBytes (Ok (device_public_key_mem vm)))
  end.

Definition call (v : Vault.Vault) (c : vault_call) : io world FilumCryptoError vault_answer :=
  match c with
  | EncryptBlob pt id => answered AnsBytes (io_rng (Vault.encrypt_blob v pt id))
  | DecryptBlob framed id => answered AnsBytes (io_lift (Vault.decrypt_blob v framed id))
  | EncryptFileToBlob i o id => answered AnsUnit (Vault.encrypt_file_to_blob v i o id)
  | DecryptBlobToFile i o id => answered AnsUnit (Vault.decrypt_blob_to_file v i o id)
  | EncryptField pt r f => answered AnsField (io_rng (Vault.encrypt_metadata_field v pt r f))
  | DecryptField fld r f => answered AnsBytes (io_lift (Vault.decrypt_metadata_field v fld r f))
  | SignChallenge nonce => mret (AnsSignature (Vault.sign_challenge v nonce))
  | DevicePublicKey => mret (AnsBytes (Ok (Vault.device_public_key v)))
  end.

Fixpoint calls {S V} (one : V → vault_call → io S FilumCryptoError vault_answer) (v : V) (cs : list vault_call)
    : io S FilumCryptoError (list vault_answer) :=
  match cs with
  | [] => mret []
  | c :: cs' => a ← one v c; l ← calls one v cs'; mret (a :: l)
  end.

(** The use of a vault that is open, and its end. *)
Definition use_mem (vm : VaultMem) (cs : list vault_call)
    : io (world * store) FilumCryptoError (list vault_answer) :=
  l ← calls call_mem vm cs;
  _ ← io_mem (drop_vault vm);
  mret l.

Definition lifetime_mem (open : mem FilumCryptoError VaultMem) (cs : list vault_call)
    : io (world * store) FilumCryptoError (list vault_answer) :=
  vm ← io_mem open;
  use_mem vm cs.

Definition lifetime (open : Result Vault.Vault) (cs : list vault_call)
    : io world FilumCryptoError (list vault_answer) :=
  v ← io_lift open;
  calls call v cs.

End life.

(** ** Programs that agree, and what they leave *)

Section agree.
Context `{OsRng}.

(** From [w] and [s] the program with buffers makes the same system calls as the one on values,
    returns the same, and leaves buffers with [Q]. *)
Definition agrees {E A} (m : io (world * store) E A) (plain : io world E A) w s
    (Q : result E A → store → Prop) : Prop :=
  same_calls (λ '(r, (w', s')) b, b = (r, w') ∧ Q r s') (m (w, s)) (plain w).

Lemma agrees_mono {E A} (m : io (world * store) E A) plain w s (Q Q' : _ → _ → Prop) :
  agrees m plain w s Q → (∀ r s', Q r s' → Q' r s') → agrees m plain w s Q'.
Proof. intros Hm HQ. eapply same_mono; [exact Hm|]. intros [r [w' s']] b [-> ?]. auto. Qed.

Lemma agrees_bind {E A B} (m : io (world * store) E A) plain (k : A → io (world * store) E B) k' w s
    (Q : result E B → store → Prop) :
  agrees m plain w s (λ r s', match r with
                              | Ok a => ∀ w', agrees (k a) (k' a) w' s' Q
                              | Err e => Q (Err e) s'
                              end) →
  agrees (m ≫= k) (plain ≫= k') w s Q.
Proof.
  intros Hm. eapply same_bind; [exact Hm|]. intros [r [w' s']] b [-> HQ].
  destruct r as [a|e]; [apply HQ|by constructor].
Qed.

(** A step that only the program with buffers takes, at the end. *)
Lemma agrees_last {E A} (m : io (world * store) E A) plain (k : A → io (world * store) E A) w s
    (Q : result E A → store → Prop) :
  agrees m plain w s (λ r s', match r with
                              | Ok a => ∀ w', ∃ s2, k a (w', s') = Done (Ok a, (w', s2)) ∧ Q (Ok a) s2
                              | Err e => Q (Err e) s'
                              end) →
  agrees (m ≫= k) plain w s Q.
Proof.
  unfold agrees, mbind, io_bind. intros Hm.
  induction Hm as [[r [w' s']] b [-> HQ]| |fs k1 k2 _ IH]; cbn [prog_bind]; [|constructor|by constructor].
  destruct r as [a|e]; [|by constructor]. destruct (HQ w') as (s2 & -> & ?). by constructor.
Qed.

Lemma agrees_answered {E A B} (f : result E A → B) (m : io (world * store) E A) plain w s
    (Q : result E B → store → Prop) :
  agrees m plain w s (λ r, Q (Ok (f r))) → agrees (answered f m) (answered f plain) w s Q.
Proof.
  intros Hm. eapply same_bind; [exact Hm|]. intros [r [w' s']] b [-> HQ]. by constructor.
Qed.

Lemma agrees_map_err {E E' A} (f : E → E') (m : io (world * store) E A) plain w s
    (Q : result E' A → store → Prop) :
  agrees m plain w s (λ r, Q (map_err f r)) → agrees (io_map_err f m) (io_map_err f plain) w s Q.
Proof.
  intros Hm. eapply same_bind; [exact Hm|]. intros [r [w' s']] b [-> HQ]. by constructor.
Qed.

Lemma agrees_ret {E A} (a : A) w s (Q : result E A → store → Prop) :
  Q (Ok a) s → agrees (mret a) (mret a) w s Q.
Proof. intros HQ. by constructor. Qed.

(** A computation on buffers and the entropy source. *)
Lemma agrees_mem {A} (m : mem FilumCryptoError A) (plain : st rng FilumCryptoError A) w s
    (Q : Result A → store → Prop) :
  leaves m (w_rng w) s (λ r g s', (r, g) = plain (w_rng w) ∧ Q r s') →
  agrees (io_mem m) (io_rng plain) w s Q.
Proof.
  intros (r & g & s' & Hm & Hp & HQ). unfold agrees, io_mem, io_rng. rewrite Hm, <-Hp. by constructor.
Qed.

Lemma agrees_mem_lift {E A} (m : mem E A) (r0 : result E A) w s (Q : result E A → store → Prop) :
  leaves m (w_rng w) s (λ r g s', r = r0 ∧ g = w_rng w ∧ Q r s') →
  agrees (io_mem m) (io_lift r0) w s Q.
Proof.
  intros (r & g & s' & Hm & -> & -> & HQ). unfold agrees, io_mem, io_lift. rewrite Hm.
  rewrite set_rng_same. by constructor.
Qed.

End agree.

(** ** The methods *)

Section lifetime.
Context `{OsRngLaws, AesGcm, HkdfLaws, Ed25519, Bip39}.

(** The keys of [v] in the buffers of [vm]. *)
Definition held (v : Vault.Vault) (vm : VaultMem) (s : store) : Prop :=
  s !! vm_wrap_key vm = Some (Vault.wrap_key v) ∧ s !! vm_metadata_key vm = Some (Vault.metadata_key v) ∧
  vm_signing_key vm = Vault.signing_key v.

Lemma held_clean v vm s s' : held v vm s → clean s s' → held v vm s'.
Proof. intros (Hw & Hm & Hk) (new & -> & _). split_and!; [by apply lookup_app_l_Some..|done]. Qed.

Lemma vault_made_held v vm s s' : vault_made v vm s s' → held v vm s'.
Proof.
  intros [-> Hs]. eapply held_clean, Hs. split; [|split; [apply lookup_at|done]]. cbn [vm_wrap_key].
  rewrite <-app_assoc. apply lookup_at.
Qed.

Lemma leaves_load_at {E} l b g s (Q : result E bytes → _ → _ → Prop) :
  s !! l = Some b → Q (Ok b) g s → leaves (load l) g s Q.
Proof. intros Hl HQ. unfold leaves, load. rewrite Hl. eauto. Qed.

(** A method on files reads the wrapping key of the vault and runs the file codec. *)
Lemma file_method_clean (m : bytes → io (world * store) FilumCryptoError unit) plain v vm w s :
  held v vm s → files_clean (m (Vault.wrap_key v)) plain →
  agrees (key ← io_mem (load (vm_wrap_key vm)); m key) plain w s (λ _ s', clean s s').
Proof.
  intros (Hw & _) Hm. apply same_mem. eapply leaves_load_at; [done|]. rewrite set_rng_same. apply Hm.
Qed.

(** Every call leaves an answer, and no key that was not there before. *)
Lemma call_clean v vm c w s :
  held v vm s → agrees (call_mem vm c) (call v c) w s (λ r s', is_ok r = true ∧ clean s s').
Proof.
  intros Hheld. pose proof Hheld as (Hw & Hm & Hk).
  destruct c; cbn [call_mem call]; try apply agrees_answered.
  - apply agrees_mem, leaves_bind. eapply leaves_load_at; [done|].
    eapply leaves_mono; [apply encrypt_chunked_clean|]. by intros r g' s' [? ?].
  - apply agrees_mem_lift, leaves_bind. eapply leaves_load_at; [done|].
    eapply leaves_mono; [apply decrypt_chunked_leaves|]. by intros r g' s' (? & ? & ?).
  - eapply agrees_mono.
    + apply (file_method_clean (λ key, encrypt_file_chunked_mem _ _ key _) _ v); [done|apply encrypt_file_clean].
    + by intros r s' Hs.
  - eapply agrees_mono.
    + apply (file_method_clean (λ key, decrypt_file_chunked_mem _ _ key _) _ v); [done|apply decrypt_file_clean].
    + by intros r s' Hs.
  - apply agrees_mem, leaves_bind. eapply leaves_load_at; [done|]. apply leaves_rng.
    split; [symmetry; apply surjective_pairing|]. split; [done|apply clean_refl].
  - apply agrees_mem_lift, leaves_bind. eapply leaves_load_at; [done|]. apply leaves_lift.
    split_and!; [done..|apply clean_refl].
  - unfold sign_challenge_mem. rewrite Hk. apply agrees_ret. split; [done|apply clean_refl].
  - unfold device_public_key_mem. rewrite Hk. apply agrees_ret. split; [done|apply clean_refl].
Qed.

Lemma calls_clean v vm cs w s :
  held v vm s →
  agrees (calls call_mem vm cs) (calls call v cs) w s (λ r s', is_ok r = true ∧ clean s s').
Proof.
  revert w s. induction cs as [|c cs IH]; intros w s Hheld; cbn [calls].
  { apply agrees_ret. split; [done|apply clean_refl]. }
  apply agrees_bind. eapply agrees_mono; [by apply call_clean|]. intros [a|e] s1 [Hok Hs1]; [|done]. intros w1.
  apply agrees_bind. eapply agrees_mono; [apply IH; by eapply held_clean|].
  intros [l|e] s2 [Hok2 Hs2]; [|done]. intros w2. apply agrees_ret. split; [done|by eapply clean_trans].
Qed.

(** ** The end of a vault *)

(** Dropping a vault wipes what [open] left. *)
Lemma drop_vault_leaves v vm s s' g :
  vault_made v vm s s' →
  leaves (drop_vault vm) g s' (λ r g' s2, r = Ok tt ∧ g' = g ∧ clean s s2).
Proof.
  intros [-> (new & -> & Hnew)]. unfold drop_vault. cbn [vm_wrap_key vm_metadata_key].
  rewrite <-!app_assoc. cbn [app]. apply leaves_bind, leaves_zeroize.
  rewrite (cons_behind s _ (zeroed _)).
  replace (length (s ++ [Vault.wrap_key v])) with (length (s ++ [zeroed (Vault.wrap_key v)]))
    by (by rewrite !length_app).
  apply leaves_zeroize. rewrite <-app_assoc. cbn [app]. by auto 6 with filum.
Qed.

Lemma vault_made_clean v vm s s' s2 : vault_made v vm s s' → clean s' s2 → vault_made v vm s s2.
Proof. intros [Hvm Hs] Hs2. split; [done|by eapply clean_trans]. Qed.

(** From [open] to the end, whatever is done in between. *)
Lemma use_clean cs v vm s s' w :
  vault_made v vm s s' → agrees (use_mem vm cs) (calls call v cs) w s' (λ _ s2, clean s s2).
Proof.
  intros Hmade. apply agrees_last. eapply agrees_mono; [by eapply calls_clean, vault_made_held|].
  intros [l|e] s1 [Hok Hs1]; [|done]. intros w1.
  destruct (drop_vault_leaves v vm s s1 (w_rng w1)) as (r & g & s2 & Hd & -> & -> & Hs2);
    [by eapply vault_made_clean|].
  exists s2. split; [|done]. unfold io_mem. rsimpl. rewrite Hd. cbn [prog_bind]. by rewrite set_rng_same.
Qed.

(** C14. Opening a vault, calling any of its eight methods in any order, with any results and whatever
    other processes do to the files in between, and dropping it, leaves no key in memory: every
    buffer made on the way, by [open] and by the calls, is zero at the end, also when something
    fails. The system calls and the results are those of the functions on values. *)
Theorem vault_lifetime_wiped secret cs :
  files_clean (lifetime_mem (open_mem secret) cs) (lifetime (Vault.open secret) cs).
Proof.
  intros w s. apply same_mem. eapply leaves_mono; [apply open_leaves|]. intros r g' s' [-> Hr].
  rewrite set_rng_same. unfold lifetime. rewrite io_lift_run.
  destruct (Vault.open secret) as [v|e]; [|by destruct Hr as [-> Hs]; constructor].
  destruct Hr as (vm & -> & Hmade). by apply use_clean.
Qed.

(** *** Vaults opened with a recovery phrase *)

(** Wiping a buffer below a new vault. *)
Lemma vault_made_above v vm s b t s' :
  vault_made v vm (s ++ b :: t) s' →
  ∃ t', s' = s ++ b :: t' ∧ vault_made v vm (s ++ zeroed b :: t) (s ++ zeroed b :: t').
Proof.
  intros [-> (new & -> & Hnew)]. eexists. split; [by rewrite <-!app_assoc|]. split.
  - f_equal; by rewrite !length_app.
  - exists new. split; [by rewrite <-!app_assoc|done].
Qed.

Lemma from_recovery_phrase_leaves phrase g s :
  leaves (from_recovery_phrase_mem phrase) g s (λ r g' s', g' = g ∧
    match phrase_to_secret phrase with
    | Ok secret => ∃ v vm, Vault.from_recovery_phrase phrase = Ok v ∧ r = Ok vm ∧
                           vault_made v vm (s ++ [zeroed secret; secret; zeroed secret]) s'
    | Err e => Vault.from_recovery_phrase phrase = Err e ∧ r = Err e ∧ clean s s'
    end).
Proof.
  unfold from_recovery_phrase_mem, Vault.from_recovery_phrase. apply leaves_bind.
  eapply leaves_mono; [apply phrase_to_secret_leaves|]. intros r g' s' (-> & -> & Hr).
  destruct (phrase_to_secret phrase) as [secret|e]; [|done]. subst s'. cbn [mbind result_bind].
  destruct (Vault.open_total secret) as (wk & mk & seed & _ & _ & _ & _ & _ & _ & Ho).
  apply leaves_scope, leaves_bind, leaves_load.
  eapply leaves_mono; [apply open_leaves|]. rewrite Ho. intros r g' s' [-> (vm & -> & Hmade)].
  apply vault_made_above in Hmade as (t & -> & Hmade). exists secret, t. split; [done|]. split; [done|].
  eexists _, vm. split; [done|]. split; [done|]. by rewrite <-app_assoc in Hmade.
Qed.

(** A vault opened with a recovery phrase leaves one copy of the master secret: the array that
    [phrase_to_secret] returns by value. All else is wiped. *)
Theorem restored_vault_leaves_secret phrase cs w s :
  agrees (lifetime_mem (from_recovery_phrase_mem phrase) cs)
    (lifetime (Vault.from_recovery_phrase phrase) cs) w s (λ _ s',
    match phrase_to_secret phrase with
    | Ok secret => clean (s ++ [zeroed secret; secret]) s'
    | Err _ => clean s s'
    end).
Proof.
  apply same_mem. eapply leaves_mono; [apply from_recovery_phrase_leaves|]. intros r g' s' [-> Hr].
  rewrite set_rng_same. unfold lifetime. rewrite io_lift_run.
  destruct (phrase_to_secret phrase) as [secret|e]; last (by destruct Hr as (-> & -> & Hs); constructor).
  destruct Hr as (v & vm & -> & -> & Hmade).
  eapply agrees_mono; [by apply use_clean|]. intros r s2 Hs.
  apply (clean_behind _ (zeroed secret)); [|apply zeroed_wiped]. by rewrite <-app_assoc.
Qed.

End lifetime.

(** ** Witnesses *)

Definition sample_calls : list vault_call :=
  [EncryptBlob (lit "attack at dawn") (lit "doc-1"); EncryptBlob (lit "x") []; SignChallenge (lit "nonce");
   EncryptFileToBlob (lit "in.bin") (lit "x.blob") (lit "id"); DecryptBlob (lit "short") (lit "doc-1");
   DecryptBlobToFile (lit "x.blob") (lit "out.bin") (lit "id");
   DecryptBlobToFile (lit "x.blob") (lit "out.bin") (lit "other")].

Lemma vault_lifetime_wiped_witness :
  same_calls (λ '(r, (w', s')) b, b = (r, w') ∧ clean [] s')
    (lifetime_mem (open_mem Vault.sample_secret) sample_calls (Vault.in_world, []))
    (lifetime (Vault.open Vault.sample_secret) sample_calls Vault.in_world).
Proof. exact (vault_lifetime_wiped Vault.sample_secret sample_calls Vault.in_world []). Defined.

(** The same run, executed: the answers, and the buffers that have been in use. *)
Example sample_lifetime_runs :
  match run (lifetime_mem (open_mem Vault.sample_secret) sample_calls (Vault.in_world, [])) with
  | Some (Ok answers, (_, s)) =>
      map (λ a, match a with AnsBytes r => is_ok r | AnsUnit r => is_ok r | _ => true end) answers
        = [true; false; true; true; false; true; false] ∧
      s = replicate 7 (replicate 32 x00)
  | _ => False
  end.
Proof. vm_compute. split; reflexivity. Qed.
