(* ===== verification/Ffi.v ===== *)
(** * The binding layer ([filum-crypto-uniffi], [lib.rs])

    Mirror types, length checks at the boundary, and the forwarding of every call to the core
    crate. The generated scaffolding is not modelled. *)

From S2P Require Import Prelude Ints Errors Prims Toy Aad Kdf Metadata Auth Recovery Blob.
From S2P Require Import Path Process Io IoSpec BlobFile EncryptFile Publish DecryptFile.
From S2P Require Vault.
From Stdlib Require Import Lia.

Module Ffi.

(** ** Types *)

Inductive FilumCryptoError : Type :=
| Aead
| InvalidPhrase
| InvalidContext
| InvalidKeyLength
| InvalidSignature
| Randomness
| Io.

Definition display (e : FilumCryptoError) : string :=
  match e with
  | Aead => "AEAD operation failed"
  | InvalidPhrase => "invalid recovery phrase"
  | InvalidContext => "invalid context identifier"
  | InvalidKeyLength => "invalid key length"
  | InvalidSignature => "invalid signature"
  | Randomness => "randomness source unavailable"
  | Io => "I/O error"
  end.

(** [impl From<CoreError> for FilumCryptoError]. *)
Definition from_error (e : Errors.FilumCryptoError) : FilumCryptoError :=
  match e with
  | Errors.Aead => Aead
  | Errors.InvalidPhrase => InvalidPhrase
  | Errors.InvalidContext => InvalidContext
  | Errors.InvalidKeyLength => InvalidKeyLength
  | Errors.InvalidSignature => InvalidSignature
  | Errors.Randomness => Randomness
  | Errors.Io => Io
  end.

Abbreviation Result := (result FilumCryptoError).

(** [.map_err(Into::into)] on the results of stateful core calls. *)
Definition st_map_err {S A} (m : st S Errors.FilumCryptoError A) : st S FilumCryptoError A := λ s,
  let '(r, s') := m s in (map_err from_error r, s').

Definition io_into {S A} (m : io S Errors.FilumCryptoError A) : io S FilumCryptoError A :=
  io_map_err from_error m.

Record EncryptedField := { ciphertext : bytes; iv : bytes }.

(** [impl From<CoreEncryptedField> for EncryptedField]. *)
Definition from_field (f : Metadata.EncryptedField) : EncryptedField :=
  {| ciphertext := Metadata.ciphertext f; iv := Metadata.iv f |}.

(** [impl TryFrom<EncryptedField> for CoreEncryptedField]: the nonce must have 12 bytes. *)
Definition try_into_field (f : EncryptedField) : Result Metadata.EncryptedField :=
  if negb (length (iv f) =? 12) then Err InvalidKeyLength else
  Ok {| Metadata.ciphertext := ciphertext f; Metadata.iv := iv f |}.

Record DeviceSignature := { sig_bytes : bytes }.

Definition from_signature (s : Auth.DeviceSignature) : DeviceSignature :=
  {| sig_bytes := Auth.sig_bytes s |}.

Record Vault `{Ed25519} := { inner : Vault.Vault }.

(** [vec_to_secret_array]. *)
Definition vec_to_secret_array (v : bytes) : Result bytes :=
  if negb (length v =? 32) then Err InvalidKeyLength else Ok v.

Section ffi.
Context `{OsRng, AesGcm, Hkdf, Ed25519, Bip39}.

(** ** Functions *)

Definition generate_master_secret : st rng FilumCryptoError bytes :=
  st_map_err Recovery.generate_master_secret.

Definition secret_to_phrase (secret : bytes) : Result str :=
  array ← vec_to_secret_array secret;
  map_err from_error (Recovery.secret_to_phrase array).

Definition phrase_to_secret (phrase : str) : Result bytes :=
  map_err from_error (Recovery.phrase_to_secret phrase).

Definition verify_signature (public_key nonce signature : bytes) : Result unit :=
  if negb (length public_key =? 32) then Err InvalidKeyLength else
  if negb (length signature =? 64) then Err InvalidKeyLength else
  map_err from_error (Auth.verify_signature public_key nonce signature).

(** ** Methods of [Vault] *)

Definition open (master_secret : bytes) : Result Vault :=
  array ← vec_to_secret_array master_secret;
  core ← map_err from_error (Vault.open array);
  Ok {| inner := core |}.

Definition from_recovery_phrase (phrase : str) : Result Vault :=
  core ← map_err from_error (Vault.from_recovery_phrase phrase);
  Ok {| inner := core |}.

Definition encrypt_blob (self : Vault) (plaintext : bytes) (blob_id : str)
    : st rng FilumCryptoError bytes :=
  st_map_err (Vault.encrypt_blob (inner self) plaintext blob_id).

Definition decrypt_blob (self : Vault) (framed : bytes) (blob_id : str) : Result bytes :=
  map_err from_error (Vault.decrypt_blob (inner self) framed blob_id).

Definition encrypt_file_to_blob (self : Vault) (in_path out_path blob_id : str)
    : io world FilumCryptoError unit :=
  io_into (Vault.encrypt_file_to_blob (inner self) in_path out_path blob_id).

Definition decrypt_blob_to_file (self : Vault) (in_path out_path blob_id : str)
    : io world FilumCryptoError unit :=
  io_into (Vault.decrypt_blob_to_file (inner self) in_path out_path blob_id).

Definition encrypt_metadata_field (self : Vault) (plaintext : bytes) (record_id field_name : str)
    : st rng FilumCryptoError EncryptedField :=
  core_field ← st_map_err (Vault.encrypt_metadata_field (inner self) plaintext record_id field_name);
  mret (from_field core_field).

Definition decrypt_metadata_field (self : Vault) (field : EncryptedField)
    (record_id field_name : str) : Result bytes :=
  core_field ← try_into_field field;
  map_err from_error (Vault.decrypt_metadata_field (inner self) core_field record_id field_name).

Definition sign_challenge (self : Vault) (nonce : bytes) : DeviceSignature :=
  from_signature (Vault.sign_challenge (inner self) nonce).

Definition device_public_key (self : Vault) : bytes := Vault.device_public_key (inner self).

End ffi.

(** ** Properties *)

#[export] Instance from_error_inj : Inj (=) (=) from_error.
Proof. by intros [] []. Qed.

(** The error conversion loses nothing: it is a bijection, and the two types print the same
    messages. *)
Theorem error_conversion_faithful :
  Inj (=) (=) from_error ∧ (∀ e, ∃ e', from_error e' = e) ∧
  ∀ e, display (from_error e) = Errors.display e.
Proof.
  split_and!.
  - apply _.
  - intros []; [by exists Errors.Aead|by exists Errors.InvalidPhrase|by exists Errors.InvalidContext|
      by exists Errors.InvalidKeyLength|by exists Errors.InvalidSignature|by exists Errors.Randomness|
      by exists Errors.Io].
  - by intros [].
Qed.

Lemma map_err_Err {A} (r : Errors.Result A) e :
  map_err from_error r = Err (from_error e) ↔ r = Err e.
Proof.
  destruct r as [a|e']; [done|]. simpl. split; [|by intros [= ->]].
  intros [= Heq]. f_equal. by apply (inj from_error).
Qed.

Lemma map_err_Ok {A} (r : Errors.Result A) a : map_err from_error r = Ok a ↔ r = Ok a.
Proof. destruct r; simpl; [|done]. by split; intros [= ->]. Qed.

(** A fixed-length check in front of a call that never answers [InvalidKeyLength]. *)
Lemma length_guard {A} (l : bytes) n (r : Result A) :
  r ≠ Err InvalidKeyLength →
  (if negb (length l =? n) then Err InvalidKeyLength else r) = Err InvalidKeyLength ↔ length l ≠ n.
Proof. intros Hr. by destruct (Nat.eqb_spec (length l) n). Qed.

Section ffi_properties.
Context `{OsRngLaws, AesGcmLaws, HkdfLaws, Ed25519Laws, Bip39Laws}.

Lemma open_ok secret : length secret = 32 → ∃ v, Vault.open secret = Ok v ∧ open secret = Ok {| inner := v |}.
Proof.
  intros Hl. destruct (Vault.open_total secret) as (wk & mk & seed & _ & _ & _ & _ & _ & _ & Ho).
  eexists. split; [done|]. unfold open, vec_to_secret_array. rewrite Hl. simpl. by rewrite Ho.
Qed.

(** C39. [InvalidKeyLength] means exactly that an array had the wrong length when it crossed the
    boundary: 32 bytes for a secret or a public key, 64 for a signature, 12 for a nonce. On a
    secret of the right length [open] and [secret_to_phrase] do not fail. *)
Theorem invalid_key_length_exact :
  (∀ secret, (open secret = Err InvalidKeyLength ↔ length secret ≠ 32) ∧
             (length secret = 32 → is_ok (open secret) = true)) ∧
  (∀ secret, (secret_to_phrase secret = Err InvalidKeyLength ↔ length secret ≠ 32) ∧
             (length secret = 32 → is_ok (secret_to_phrase secret) = true)) ∧
  (∀ pk nonce sig, verify_signature pk nonce sig = Err InvalidKeyLength ↔
                   length pk ≠ 32 ∨ length sig ≠ 64) ∧
  (∀ v field r f, decrypt_metadata_field v field r f = Err InvalidKeyLength ↔
                  length (iv field) ≠ 12).
Proof.
  split_and!.
  - intros secret. split; [|intros Hl; by destruct (open_ok secret Hl) as (v & _ & ->)].
    destruct (decide (length secret = 32)) as [Hl|Hl].
    + destruct (open_ok secret Hl) as (v & _ & ->). by split.
    + split; [done|]. intros _. unfold open, vec_to_secret_array.
      by destruct (Nat.eqb_spec (length secret) 32).
  - intros secret. unfold secret_to_phrase, vec_to_secret_array.
    destruct (Nat.eqb_spec (length secret) 32) as [Hl|]; [|by split]. simpl.
    destruct (secret_has_phrase secret Hl) as (phrase & -> & _). by split.
  - intros pk nonce sig. unfold verify_signature.
    destruct (Nat.eqb_spec (length pk) 32); simpl; [|by split; [left|]].
    rewrite length_guard; [by split; [right|intros []]|].
    unfold Auth.verify_signature. destruct (VerifyingKey_from_bytes pk); [|done]. rsimpl.
    by destruct (verify_strict _ _ _).
  - intros v field r f. unfold decrypt_metadata_field, try_into_field.
    destruct (Nat.eqb_spec (length (iv field)) 12); simpl; [|by split].
    split; [|done]. unfold Vault.decrypt_metadata_field, decrypt_field. rewrite field_aad_eq.
    case_decide; rsimpl; [|done]. by destruct (decrypt _ _ _).
Qed.

(** A field of one's own comes back in the form that crosses the boundary. *)
Lemma decrypt_own_field v pt r f fld g g' :
  encrypt_field pt (Vault.metadata_key v) r f g = (Ok fld, g') →
  decrypt_metadata_field {| inner := v |} (from_field fld) r f = Ok pt.
Proof.
  intros He. pose proof He as (a & _ & Hiv & _)%encrypt_field_inv.
  apply try_fill_bytes_length in Hiv. apply decrypt_encrypted_field in He.
  unfold decrypt_metadata_field, try_into_field, from_field. cbn [iv ciphertext]. rewrite Hiv.
  simpl. unfold Vault.decrypt_metadata_field. cbn [inner].
  destruct fld. simpl in *. by rewrite He.
Qed.

(** C38. Across the boundary nothing is lost. A generated secret opens a vault; its phrase opens the
    same vault; what the vault encrypts comes back, through the byte-vector form of the
    envelopes, from the vault opened with the phrase; and its signatures verify. *)
Theorem ffi_end_to_end secret g0 g0' :
  generate_master_secret g0 = (Ok secret, g0') →
  ∃ v phrase,
    open secret = Ok v ∧ secret_to_phrase secret = Ok phrase ∧
    phrase_to_secret phrase = Ok secret ∧ from_recovery_phrase phrase = Ok v ∧
    (∀ pt id g framed g', encrypt_blob v pt id g = (Ok framed, g') →
                          decrypt_blob v framed id = Ok pt) ∧
    (∀ pt r f g fld g', encrypt_metadata_field v pt r f g = (Ok fld, g') →
                        decrypt_metadata_field v fld r f = Ok pt) ∧
    (∀ nonce, verify_signature (device_public_key v) nonce (sig_bytes (sign_challenge v nonce)) = Ok tt).
Proof.
  unfold generate_master_secret, st_map_err, Recovery.generate_master_secret.
  destruct (os_fill 32 g0) as [r g1] eqn:Hg.
  apply os_fill_inv in Hg as [(s & -> & Hl & _)|[-> _]]; [|done]. simpl. intros [= -> ->].
  destruct (open_ok secret Hl) as (v & Hv & Ho).
  destruct (secret_has_phrase secret Hl) as (phrase & Hp & Hs).
  exists {| inner := v |}, phrase. split_and!; [done|..].
  - unfold secret_to_phrase, vec_to_secret_array. rewrite Hl. simpl. by rewrite Hp.
  - unfold phrase_to_secret. by rewrite Hs.
  - unfold from_recovery_phrase, Vault.from_recovery_phrase. rewrite Hs. rsimpl. by rewrite Hv.
  - intros pt id g framed g'. unfold encrypt_blob, st_map_err, Vault.encrypt_blob. cbn [inner].
    destruct (encrypt_chunked _ _ _ _) as [[framed'|] g2] eqn:He; [|done]. intros [= -> ->].
    apply decrypt_encrypted in He. unfold decrypt_blob, Vault.decrypt_blob. cbn [inner].
    by rewrite He.
  - intros pt r f g fld g'. unfold encrypt_metadata_field, Vault.encrypt_metadata_field. rsimpl.
    unfold st_map_err. cbn [inner]. destruct (encrypt_field _ _ _ _ _) as [[fld'|] g2] eqn:He; [|done].
    simpl. intros [= <- <-]. by eapply decrypt_own_field.
  - intros nonce. set (pk := device_public_key _). set (sig := Signature_to_bytes _).
   change pk with (public_key_bytes (Vault.signing_key v)).
    change sig with (Auth.sig_bytes (Auth.sign_challenge (Vault.signing_key v) nonce)).
    unfold verify_signature.
    by rewrite public_key_bytes_length, sign_challenge_length, verify_signed.
Qed.

(** What an error of the file encryption means, from the state [w] in which it was called to the
    state [w'] in which it returned: why it was given, and what became of the output file. *)
Definition encrypt_error_says (v : Vault) (inp out : Path) (id : str) (w : world)
    (e : FilumCryptoError) (w' : world) : Prop :=
  let pt := default [] (contents (w_fs w) inp) in
  match e with
  | InvalidContext => ¬ valid_id id ∧ w_fs w' = w_fs w
  | Randomness => no_entropy (w_rng w) ∧ w_fs w' = w_fs w
  | Aead => (2 ^ 52 <= Z.of_nat (length pt))%Z
  | Io => calm w → contents (w_fs w) inp = None ∧ w_fs w' = w_fs w
  | _ => False
  end ∧
  (w_fs w' = w_fs w ∨
   ∃ written, contents (w_fs w') out = Some written ∧
     ∀ framed, (encrypt_blob v pt id (w_rng w)).1 = Ok framed → written `prefix_of` framed).

(** The same of the file decryption. *)
Definition decrypt_error_says (v : Vault) (inp out : Path) (id : str) (w : world)
    (e : FilumCryptoError) (w' : world) : Prop :=
  let framed := default [] (contents (w_fs w) inp) in
  match e with
  | InvalidContext => ¬ valid_id id
  | Aead => decrypt_blob v framed id = Err Aead ∨ whole_segments framed
  | Randomness => (try_fill_bytes 8 (w_rng w)).1 = None
  | Io => calm w → contents (w_fs w) inp = None ∨ length framed < HEADER_LEN ∨ file_name out = None
  | _ => False
  end ∧
  contents (w_fs w') out = contents (w_fs w) out.

Lemma encrypt_failed_says v inp out id w ref g e w' :
  encrypt_chunked (default [] (contents (w_fs w) inp)) (Vault.wrap_key (inner v)) id (w_rng w)
    = (ref, g) →
  encrypt_failed w inp out ref e w' → encrypt_error_says v inp out id w (from_error e) w'.
Proof.
  intros Href [He Hfs]. unfold encrypt_error_says, encrypt_blob, st_map_err, Vault.encrypt_blob.
  rewrite Href. split.
  - assert (e ≠ Errors.Io → e ≠ Errors.Aead → w_fs w' = w_fs w) as Hsame.
    { intros ??. by destruct Hfs as [?|[[?|?] _]]. }
    destruct He as [->|[-> Hc]]; [|done]. pose proof (encrypt_chunked_error _ _ _ _ _ _ Href) as He.
    destruct e; simpl in *; try done; split; try done; by apply Hsame.
  - destruct Hfs as [?|(_ & written & Hw & Hp)]; [by left|right]. exists written. split; [done|].
    intros framed. destruct ref as [framed'|]; [|done]. intros [= <-]. by apply Hp.
Qed.

Lemma decrypt_failed_says v inp out id w e w' :
  contents (w_fs w') out = contents (w_fs w) out →
  decrypt_error w (contents (w_fs w) inp) out (Vault.wrap_key (inner v)) id e →
  decrypt_error_says v inp out id w (from_error e) w'.
Proof.
  intros Hout He. split; [|done]. unfold decrypt_blob, Vault.decrypt_blob.
  destruct e; simpl in *; try done. destruct He as [->|?]; [by left|by right].
Qed.

(** C13. The contract of the file operations for a caller on the other side of the boundary, on
    paths given as strings and under any schedule of faults. Both calls return, and both leave
    every other existing file as it was. After a successful encryption the output file holds what
    [encrypt_blob] of this vault gives for the contents of the input file and the same entropy, and
    [decrypt_blob] decodes it to these contents. After a failed one: [InvalidContext] says that the
    blob id is unusable and that no file was touched; [Randomness], that a request for entropy was
    refused and that no file was touched; [Aead], that the input has 2^52 bytes or more; [Io], if no
    system call failed, that the input is missing and no file was touched; and when a file was
    touched the output holds a prefix of the blob. After a successful decryption the output file
    holds what [decrypt_blob] gives for the input file; after a failed one it is as it was, and the
    error is [InvalidContext] for an unusable id, [Aead] when [decrypt_blob] gives [Aead] or when the
    body is a whole number of full-size segments, [Randomness] when the temporary file got no name,
    or [Io], which means, if no system call failed, that the input is missing or shorter than a
    header or that the output has no file name. *)
Theorem ffi_file_contract v in_path out_path id w :
  fs_ok (w_fs w) →
  let inp := path_of_str in_path in let out := path_of_str out_path in
  (distinct_files (w_fs w) inp out →
   wp (encrypt_file_to_blob v in_path out_path id) w (λ r w',
     (∀ q, q ≠ out → distinct_files (w_fs w) out q →
           contents (w_fs w') q = contents (w_fs w) q) ∧
     match r with
     | Ok _ => ∃ pt framed, contents (w_fs w) inp = Some pt ∧
                 (encrypt_blob v pt id (w_rng w)).1 = Ok framed ∧
                 contents (w_fs w') out = Some framed ∧ decrypt_blob v framed id = Ok pt
     | Err e => encrypt_error_says v inp out id w e w'
     end)) ∧
  (temp_free w out →
   wp (decrypt_blob_to_file v in_path out_path id) w (λ r w',
     (∀ q, q ≠ out → is_Some (fs_dir (w_fs w) !! q) →
           contents (w_fs w') q = contents (w_fs w) q) ∧
     match r with
     | Ok _ => ∃ framed pt, contents (w_fs w) inp = Some framed ∧ decrypt_blob v framed id = Ok pt ∧
                            contents (w_fs w') out = Some pt
     | Err e => decrypt_error_says v inp out id w e w'
     end)).
Proof.
  intros Hok inp out. split.
  - intros Hd. apply wp_map_err. eapply wp_mono; [by apply encrypt_file_result|].
    intros r w'. cbv zeta. destruct (encrypt_chunked _ _ _ _) as [ref g] eqn:Href.
    intros (_ & Hq & Hr). split; [done|]. destruct r as [u|e]; simpl.
    + destruct Hr as (Hin & framed & -> & Hout). eexists _, framed. split_and!; [done| |done|].
      * unfold encrypt_blob, st_map_err, Vault.encrypt_blob. by rewrite Href.
      * unfold decrypt_blob, Vault.decrypt_blob. by rewrite (decrypt_encrypted _ _ _ _ _ _ Href).
    + by eapply encrypt_failed_says.
  - intros Hfree. apply wp_map_err. eapply wp_mono.
    { apply decrypt_file_result; [done|apply path_of_str_ok|done]. }
    intros r w' [Hq Hr]. split; [done|]. destruct r as [u|e]; simpl.
    + destruct Hr as (framed & pt & Hin & Hdec & Hout). exists framed, pt. split_and!; [done| |done].
      unfold decrypt_blob, Vault.decrypt_blob. by rewrite Hdec.
    + destruct Hr as [Hout He]. by apply decrypt_failed_says.
Qed.

End ffi_properties.

(** ** Witnesses *)

Lemma invalid_key_length_exact_witness :
  (open (replicate 31 x00) = Err InvalidKeyLength ↔ length (replicate 31 x00) ≠ 32) ∧
  (verify_signature (replicate 32 x00) [] (replicate 63 x00) = Err InvalidKeyLength ↔
   length (replicate 32 x00) ≠ 32 ∨ length (replicate 63 x00) ≠ 64).
Proof.
  destruct invalid_key_length_exact as (Ho & _ & Hv & _).
  split; [apply Ho|apply Hv].
Defined.

Lemma ffi_end_to_end_witness :
  ∃ v phrase,
    open (replicate 32 x03) = Ok v ∧ secret_to_phrase (replicate 32 x03) = Ok phrase ∧
    phrase_to_secret phrase = Ok (replicate 32 x03) ∧ from_recovery_phrase phrase = Ok v ∧
    (∀ pt id g framed g', encrypt_blob v pt id g = (Ok framed, g') →
                          decrypt_blob v framed id = Ok pt) ∧
    (∀ pt r f g fld g', encrypt_metadata_field v pt r f g = (Ok fld, g') →
                        decrypt_metadata_field v fld r f = Ok pt) ∧
    (∀ nonce, verify_signature (device_public_key v) nonce (sig_bytes (sign_challenge v nonce)) = Ok tt).
Proof.
  apply (ffi_end_to_end _ (toy_gen 3) (toy_gen 4)). vm_compute. reflexivity.
Defined.

Definition ffi_world : world := Vault.in_world.

Lemma ffi_file_contract_witness :
  let v := {| inner := Vault.sample_vault |} in
  let inp := path_of_str (lit "in.bin") in
  let blob := path_of_str (lit "x.blob") in
  let out := path_of_str (lit "out.bin") in
  wp (encrypt_file_to_blob v (lit "in.bin") (lit "x.blob") (lit "id")) ffi_world (λ r w',
    (∀ q, q ≠ blob → distinct_files (w_fs ffi_world) blob q →
          contents (w_fs w') q = contents (w_fs ffi_world) q) ∧
    match r with
    | Ok _ => ∃ pt framed, contents (w_fs ffi_world) inp = Some pt ∧
                (encrypt_blob v pt (lit "id") (w_rng ffi_world)).1 = Ok framed ∧
                contents (w_fs w') blob = Some framed ∧ decrypt_blob v framed (lit "id") = Ok pt
    | Err e => encrypt_error_says v inp blob (lit "id") ffi_world e w'
    end) ∧
  wp (decrypt_blob_to_file v (lit "x.blob") (lit "out.bin") (lit "id")) Vault.later_world (λ r w',
    (∀ q, q ≠ out → is_Some (fs_dir (w_fs Vault.later_world) !! q) →
          contents (w_fs w') q = contents (w_fs Vault.later_world) q) ∧
    match r with
    | Ok _ => ∃ framed pt, contents (w_fs Vault.later_world) blob = Some framed ∧
                decrypt_blob v framed (lit "id") = Ok pt ∧ contents (w_fs w') out = Some pt
    | Err e => decrypt_error_says v blob out (lit "id") Vault.later_world e w'
    end).
Proof.
  split.
  - apply (ffi_file_contract _ _ _ _ _ (world_with_ok _ _ _ _)).
    apply world_with_distinct. vm_compute. discriminate.
  - apply (ffi_file_contract _ _ _ _ _ (world_with_ok _ _ _ _)), Vault.later_world_temp_free.
Defined.

(** The same two calls, executed: each returns [Ok]. *)
Example ffi_file_calls_run :
  let v := {| inner := Vault.sample_vault |} in
  match run (encrypt_file_to_blob v (lit "in.bin") (lit "x.blob") (lit "id") ffi_world),
        run (decrypt_blob_to_file v (lit "x.blob") (lit "out.bin") (lit "id") Vault.later_world) with
  | Some (Ok _, w1), Some (Ok _, w2) =>
      contents (w_fs w2) (path_of_str (lit "out.bin"))
        = contents (w_fs w1) (path_of_str (lit "in.bin"))
  | _, _ => False
  end.
Proof. vm_compute. reflexivity. Qed.

End Ffi.
