(* ===== verification/ZeroizeFfi.v ===== *)
(** * Wiping of secrets in the binding layer

    The functions of [filum-crypto-uniffi] that take or return a master secret or a recovery phrase,
    with the buffers that hold them. The byte vectors and strings that UniFFI hands over are
    buffers that these functions own; those they return are owned by the marshaler. *)

From S2P Require Import Prelude Errors Prims Memory Toy Kdf Metadata Auth Recovery Blob.
From S2P Require Import Path Process Io Zeroize ZeroizeVault Ffi.
From S2P Require Vault.
From Stdlib Require Import Lia.

(** ** Definitions *)

Section binding.
Context `{OsRng, AesGcm, Hkdf, Ed25519, Bip39}.

Abbreviation ffi := (mem Ffi.FilumCryptoError).

(** [.map_err(FilumCryptoError::from)]. *)
Definition from_core {A} (m : mem FilumCryptoError A) : ffi A := mem_map_err Ffi.from_error m.

Definition vec_to_secret_array_mem (v : loc) : ffi loc :=
  zeroizing v (
    b ← load v;
    if negb (length b =? 32) then st_lift (Err Ffi.InvalidKeyLength) else
    array ← alloc (replicate 32 x00);
    moved_out array (
      _ ← assign array b;
      mret array)).

(** [secret.to_vec()]. *)
Definition to_vec (l : loc) : ffi loc :=
  b ← load l;
  alloc b.

Definition ffi_generate_master_secret_mem : ffi loc :=
  array ← from_core generate_master_secret_mem;
  secret ← alloc array;
  zeroizing secret (to_vec secret).

(** The [String] of the core crate is handed on. *)
Definition ffi_secret_to_phrase_mem (secret : loc) : ffi loc :=
  array ← vec_to_secret_array_mem secret;
  zeroizing array (
    a ← load array;
    from_core (secret_to_phrase_mem a)).

Definition ffi_phrase_to_secret_mem (phrase : loc) : ffi loc :=
  zeroizing phrase (
    p ← load phrase;
    array ← from_core (phrase_to_secret_mem p);
    secret ← alloc array;
    zeroizing secret (to_vec secret)).

Definition ffi_open_mem (master_secret : loc) : ffi VaultMem :=
  array ← vec_to_secret_array_mem master_secret;
  zeroizing array (
    a ← load array;
    from_core (open_mem a)).

Definition ffi_from_recovery_phrase_mem (phrase : loc) : ffi VaultMem :=
  zeroizing phrase (
    p ← load phrase;
    from_core (from_recovery_phrase_mem p)).

End binding.

(** ** What they leave behind *)

Section left_behind.
Context `{OsRngLaws, AesGcm, HkdfLaws, Ed25519, Bip39}.

Lemma leaves_core {A} (m : mem FilumCryptoError A) g s (Q : Ffi.Result A → rng → store → Prop) :
  leaves m g s (λ r, Q (map_err Ffi.from_error r)) → leaves (from_core m) g s Q.
Proof. apply leaves_map_err. Qed.

Lemma vec_to_secret_array_leaves b g s :
  leaves (vec_to_secret_array_mem (length s)) g (s ++ [b]) (λ r g' s', g' = g ∧
    match Ffi.vec_to_secret_array b with
    | Ok a => r = Ok (length (s ++ [zeroed b])) ∧ s' = (s ++ [zeroed b]) ++ [a]
    | Err e => r = Err e ∧ clean s s'
    end).
Proof.
  unfold vec_to_secret_array_mem, Ffi.vec_to_secret_array. apply leaves_zeroizing, leaves_bind, leaves_load.
  destruct (negb (length b =? 32)); [apply leaves_lift; by scopes_end|].
  apply leaves_scope_moved, leaves_bind, leaves_assign, leaves_ret. simpl is_ok.
  eexists _, []. split; [done|]. eexists _, _. rewrite <-app_assoc. split; [done|]. split; [done|].
  rewrite <-!app_assoc, !length_app. done.
Qed.

Lemma to_vec_leaves b t g s (Q : Ffi.Result loc → rng → store → Prop) :
  Q (Ok (length (s ++ b :: t))) g (s ++ b :: t ++ [b]) → leaves (to_vec (length s)) g (s ++ b :: t) Q.
Proof. intros HQ. apply leaves_bind, leaves_load, leaves_alloc. by rewrite <-app_assoc. Qed.

(** The life of a vault behind the boundary; its calls are those of the vault inside. *)
Definition ffi_lifetime_mem (open : mem Ffi.FilumCryptoError VaultMem) (cs : list vault_call)
    : io (world * store) Ffi.FilumCryptoError (list vault_answer) :=
  vm ← io_mem open;
  io_map_err Ffi.from_error (use_mem vm cs).

Definition ffi_lifetime (open : Ffi.Result Ffi.Vault) (cs : list vault_call)
    : io world Ffi.FilumCryptoError (list vault_answer) :=
  v ← io_lift open;
  io_map_err Ffi.from_error (calls call (Ffi.inner v) cs).

(** The calls and the drop, from a vault just made. *)
Lemma ffi_use_clean cs v vm s s' w :
  vault_made v vm s s' →
  agrees (io_map_err Ffi.from_error (use_mem vm cs)) (io_map_err Ffi.from_error (calls call v cs)) w s'
    (λ _ s2, clean s s2).
Proof. intros Hmade. by apply agrees_map_err, use_clean. Qed.

Lemma ffi_open_wiped secret cs w s :
  agrees (ffi_lifetime_mem (ffi_open_mem (length s)) cs) (ffi_lifetime (Ffi.open secret) cs) w (s ++ [secret])
    (λ _ s', clean s s').
Proof.
  apply same_mem. unfold ffi_lifetime, ffi_open_mem, Ffi.open. apply leaves_bind.
  eapply leaves_mono; [apply vec_to_secret_array_leaves|]. intros r g' s' [-> Hr].
  destruct (Ffi.vec_to_secret_array secret) as [a|e]; destruct Hr as [-> Hr];
    [subst s'|rewrite set_rng_same; by constructor].
  cbn [mbind result_bind].
  destruct (Vault.open_total a) as (wk & mk & seed & _ & _ & _ & _ & _ & _ & Ho).
  apply leaves_zeroizing, leaves_bind, leaves_load, leaves_core.
  eapply leaves_mono; [apply open_leaves|]. rewrite Ho. intros r g' s' [-> (vm & -> & Hmade)].
  apply vault_made_above in Hmade as (t & -> & Hmade). exists a, t. split; [done|]. cbn [map_err mbind result_bind].
  rewrite set_rng_same, io_lift_run.
  eapply agrees_mono; [by apply ffi_use_clean|]. intros r s' Hs.
  apply (clean_behind _ (zeroed secret)); [|apply zeroed_wiped].
  by apply (clean_behind _ (zeroed a)); [|apply zeroed_wiped].
Qed.

Lemma ffi_secret_to_phrase_leaves secret g s :
  leaves (ffi_secret_to_phrase_mem (length s)) g (s ++ [secret]) (λ r g' s', g' = g ∧
    match Ffi.secret_to_phrase secret with
    | Ok phrase => r = Ok (length (s ++ [zeroed secret; zeroed secret])) ∧
                   s' = s ++ [zeroed secret; zeroed secret; phrase]
    | Err e => r = Err e ∧ clean s s'
    end).
Proof.
  unfold ffi_secret_to_phrase_mem, Ffi.secret_to_phrase. apply leaves_bind.
  eapply leaves_mono; [apply vec_to_secret_array_leaves|]. intros r g' s' [-> Hr].
  destruct (Ffi.vec_to_secret_array secret) as [a|e] eqn:Ha; destruct Hr as [-> Hr]; [subst s'|done].
  assert (a = secret) as ->.
  { unfold Ffi.vec_to_secret_array in Ha. by destruct (negb _); simplify_eq. }
  cbn [mbind result_bind]. apply leaves_zeroizing, leaves_bind, leaves_load, leaves_core.
  eapply leaves_mono; [apply secret_to_phrase_leaves|]. intros r g' s' [-> Hr].
  destruct (Recovery.secret_to_phrase secret) as [phrase|e]; destruct Hr as [-> Hr]; cbn [map_err].
  - subst s'. exists secret, [phrase]. rewrite <-!app_assoc. split; [done|]. split; [done|].
    split; [by rewrite !length_app|done].
  - destruct Hr as (new & -> & Hnew). exists secret, new. rewrite <-!app_assoc. split; [done|].
    split_and!; [done..|]. apply clean_app. cbn [app]. by auto with filum.
Qed.

(** What [to_vec] returns is the last buffer; the copy it is made from is wiped. *)
Lemma returned_vec b g s (Q : Ffi.Result loc → rng → store → Prop) :
  Q (Ok (length (s ++ [b]))) g (s ++ [zeroed b; b]) →
  leaves (l ← alloc b; zeroizing l (to_vec l)) g s Q.
Proof. intros HQ. apply leaves_scope, to_vec_leaves. by exists b, [b]. Qed.

Lemma ffi_generate_leaves g s :
  leaves ffi_generate_master_secret_mem g s (λ r g' s',
    match Ffi.generate_master_secret g with
    | (Ok secret, g1) => g' = g1 ∧ r = Ok (length (s ++ [secret; zeroed secret])) ∧
                         s' = s ++ [secret; zeroed secret; secret]
    | (Err e, g1) => g' = g1 ∧ r = Err e ∧ clean s s'
    end).
Proof.
  unfold ffi_generate_master_secret_mem, Ffi.generate_master_secret, Ffi.st_map_err.
  apply leaves_bind, leaves_core. eapply leaves_mono; [apply generate_master_secret_leaves|].
  intros r g' s' [Hr Hs]. rewrite <-Hr. destruct r as [secret|e]; cbn [map_err]; [|done].
  subst s'. apply returned_vec. rewrite <-!app_assoc. split; [done|]. split; [|done].
  by rewrite !length_app.
Qed.

Lemma ffi_phrase_to_secret_leaves phrase g s :
  leaves (ffi_phrase_to_secret_mem (length s)) g (s ++ [phrase]) (λ r g' s', g' = g ∧
    match Ffi.phrase_to_secret phrase with
    | Ok secret => r = Ok (length (s ++ [zeroed phrase; zeroed secret; secret; zeroed secret])) ∧
                   s' = s ++ [zeroed phrase; zeroed secret; secret; zeroed secret; secret]
    | Err e => r = Err e ∧ clean s s'
    end).
Proof.
  unfold ffi_phrase_to_secret_mem, Ffi.phrase_to_secret. apply leaves_zeroizing, leaves_bind, leaves_load.
  apply leaves_bind, leaves_core. eapply leaves_mono; [apply phrase_to_secret_leaves|].
  intros r g' s' (-> & -> & Hr). destruct (phrase_to_secret phrase) as [secret|e]; cbn [map_err].
  - subst s'. apply returned_vec. eexists _, _. rewrite <-!app_assoc. split; [done|]. split; [done|].
    split; [by rewrite !length_app|done].
  - destruct Hr as (new & -> & Hnew). eexists _, new. rewrite <-app_assoc. split; [done|]. by auto 6 with filum.
Qed.

Lemma ffi_restored_leaves phrase cs w s :
  agrees (ffi_lifetime_mem (ffi_from_recovery_phrase_mem (length s)) cs)
    (ffi_lifetime (Ffi.from_recovery_phrase phrase) cs) w (s ++ [phrase]) (λ _ s',
    match Recovery.phrase_to_secret phrase with
    | Ok secret => clean (s ++ [zeroed phrase; zeroed secret; secret]) s'
    | Err _ => clean s s'
    end).
Proof.
  apply same_mem. unfold ffi_lifetime, ffi_from_recovery_phrase_mem, Ffi.from_recovery_phrase.
  apply leaves_zeroizing, leaves_bind, leaves_load, leaves_core.
  eapply leaves_mono; [apply from_recovery_phrase_leaves|]. intros r g' s' [-> Hr].
  destruct (phrase_to_secret phrase) as [secret|e].
  - destruct Hr as (v & vm & -> & -> & Hmade). rewrite <-app_assoc in Hmade.
    apply vault_made_above in Hmade as (t & -> & Hmade). exists phrase, t. split; [done|].
    cbn [map_err mbind result_bind]. rewrite set_rng_same, io_lift_run.
    eapply agrees_mono; [by apply ffi_use_clean|]. intros r s2 Hs.
    apply (clean_behind _ (zeroed secret)); [|apply zeroed_wiped]. by rewrite <-app_assoc.
  - destruct Hr as (-> & -> & new & -> & Hnew). eexists _, new. rewrite <-app_assoc. split; [done|].
    cbn [map_err]. rewrite set_rng_same. constructor. split; [done|]. by auto 6 with filum.
Qed.

End left_behind.

(** ** Properties *)

Section accounted.
Context `{OsRngLaws, AesGcm, HkdfLaws, Ed25519, Bip39}.

(** C16. Every buffer that the binding layer takes, makes or returns for a master secret or a phrase is
    accounted for, on every exit. [open], with all the later life of the vault, leaves none that is
    not zero, and wipes the vector it is given. [secret_to_phrase] does the same, and makes one more,
    the string of the phrase, which is what it returns. The three functions that get a secret from
    the core crate leave one copy besides what they return: the array that the core crate hands
    over by value before it is wrapped. Everything else is wiped, the phrase they are given
    included, and after an error everything is. *)
Theorem ffi_secrets_accounted g w s :
  (∀ secret cs, agrees (ffi_lifetime_mem (ffi_open_mem (length s)) cs) (ffi_lifetime (Ffi.open secret) cs)
     w (s ++ [secret]) (λ _ s', clean s s')) ∧
  (∀ secret, leaves (ffi_secret_to_phrase_mem (length s)) g (s ++ [secret]) (λ r g' s', g' = g ∧
     match Ffi.secret_to_phrase secret with
     | Ok phrase => r = Ok (length (s ++ [zeroed secret; zeroed secret])) ∧
                    s' = s ++ [zeroed secret; zeroed secret; phrase]
     | Err e => r = Err e ∧ clean s s'
     end)) ∧
  (∀ phrase cs, agrees (ffi_lifetime_mem (ffi_from_recovery_phrase_mem (length s)) cs)
     (ffi_lifetime (Ffi.from_recovery_phrase phrase) cs) w (s ++ [phrase]) (λ _ s',
     match Recovery.phrase_to_secret phrase with
     | Ok secret => clean (s ++ [zeroed phrase; zeroed secret; secret]) s'
     | Err _ => clean s s'
     end)) ∧
  (∀ phrase, leaves (ffi_phrase_to_secret_mem (length s)) g (s ++ [phrase]) (λ r g' s', g' = g ∧
     match Ffi.phrase_to_secret phrase with
     | Ok secret => r = Ok (length (s ++ [zeroed phrase; zeroed secret; secret; zeroed secret])) ∧
                    s' = s ++ [zeroed phrase; zeroed secret; secret; zeroed secret; secret]
     | Err e => r = Err e ∧ clean s s'
     end)) ∧
  leaves ffi_generate_master_secret_mem g s (λ r g' s',
    match Ffi.generate_master_secret g with
    | (Ok secret, g1) => g' = g1 ∧ r = Ok (length (s ++ [secret; zeroed secret])) ∧
                         s' = s ++ [secret; zeroed secret; secret]
    | (Err e, g1) => g' = g1 ∧ r = Err e ∧ clean s s'
    end).
Proof.
  split_and!; eauto using ffi_open_wiped, ffi_secret_to_phrase_leaves, ffi_restored_leaves,
    ffi_phrase_to_secret_leaves, ffi_generate_leaves.
Qed.

End accounted.

(** ** Witnesses *)

Lemma ffi_secrets_accounted_witness :
  same_calls (λ '(r, (w', s')) b, b = (r, w') ∧ clean [] s')
    (ffi_lifetime_mem (ffi_open_mem 0) sample_calls (Vault.in_world, [Vault.sample_secret]))
    (ffi_lifetime (Ffi.open Vault.sample_secret) sample_calls Vault.in_world).
Proof.
  exact (proj1 (ffi_secrets_accounted (toy_gen 1) Vault.in_world []) Vault.sample_secret sample_calls).
Defined.

(** The string of a phrase is all that is left when it is made. *)
Example encoded_phrase_residue :
  (ffi_secret_to_phrase_mem 0 (toy_gen 1, [Vault.sample_secret])).2.2
    = [replicate 32 x00; replicate 32 x00; Mnemonic_to_string Vault.sample_secret].
Proof. vm_compute. reflexivity. Qed.

(** The copy of the master secret that is left when a phrase is decoded. *)
Example decoded_phrase_residue :
  let phrase := Mnemonic_to_string Vault.sample_secret in
  (ffi_phrase_to_secret_mem 0 (toy_gen 1, [phrase])).2.2
    = [zeroed phrase; replicate 32 x00; Vault.sample_secret; replicate 32 x00; Vault.sample_secret].
Proof. vm_compute. reflexivity. Qed.
