(* ===== verification/Types.v ===== *)
(** * The fixed-size arrays of the source

    A Rust array [[u8; N]] is modelled by the list of its bytes. This file shows that what the
    functions of both crates return under an array type has the length the type says, so that the
    length hypotheses of other theorems hold of everything the code makes. *)

From S2P Require Import Prelude Ints Errors Prims Toy Kdf Metadata Auth Recovery Blob.
From S2P Require Vault Ffi.
From Stdlib Require Import Lia.

(** The keys of a vault are [[u8; 32]]. *)
Definition vault_typed `{Ed25519} (v : Vault.Vault) : Prop :=
  length (Vault.wrap_key v) = 32 ∧ length (Vault.metadata_key v) = 32.

Section types.
Context `{OsRngLaws, AesGcmLaws, HkdfLaws, Ed25519Laws, Bip39Laws}.

Lemma open_typed secret v : Vault.open secret = Ok v → vault_typed v.
Proof.
  destruct (Vault.open_total secret) as (wk & mk & seed & _ & _ & _ & ? & ? & _ & ->).
  by intros [= <-].
Qed.

Lemma generate_typed g secret g' : generate_master_secret g = (Ok secret, g') → length secret = 32.
Proof.
  unfold generate_master_secret. rsimpl. destruct (os_fill 32 g) as [r g1] eqn:Hg.
  apply os_fill_inv in Hg as [(b & -> & Hb & _)|[-> _]]; [|done]. by intros [= <- _].
Qed.

Lemma phrase_typed phrase secret : phrase_to_secret phrase = Ok secret → length secret = 32.
Proof.
  unfold phrase_to_secret. destruct (Mnemonic_parse phrase) as [m|]; rsimpl; [|done].
  destruct (Nat.eqb_spec (length (Mnemonic_to_entropy m)) 32); simpl; [by intros [= <-]|done].
Qed.

Lemma from_phrase_typed phrase v : Vault.from_recovery_phrase phrase = Ok v → vault_typed v.
Proof.
  unfold Vault.from_recovery_phrase. rsimpl. destruct (phrase_to_secret phrase); [|done].
  apply open_typed.
Qed.

(** C12. Types. Every value that the core crate returns as a fixed-size array has that size: subkeys, the
    master secret whether drawn or recovered, the 60-byte wrapped key, the unwrapped data key, the
    nonce prefix, the nonce of a field, signatures and public keys; and every vault, however it
    was opened and on either side of the binding layer, has 32-byte keys. *)
Theorem array_types_hold :
  (∀ secret info n key, derive_subkey secret info n = Ok key → length key = n) ∧
  (∀ g secret g', generate_master_secret g = (Ok secret, g') → length secret = 32) ∧
  (∀ phrase secret, phrase_to_secret phrase = Ok secret → length secret = 32) ∧
  (∀ dk wk a g w g', wrap_data_key dk wk a g = (Ok w, g') → length w = 60) ∧
  (∀ w wk a dk, unwrap_data_key w wk a = Ok dk → length w = 60 ∧ length dk = 32) ∧
  (∀ wk id g dk np w g', new_blob_keys wk id g = (Ok (dk, np, w), g') →
     length dk = 32 ∧ length np = 7 ∧ length w = 60 ∧ length (write_header [] w np) = 72) ∧
  (∀ pt key r f g fld g', encrypt_field pt key r f g = (Ok fld, g') → length (iv fld) = 12) ∧
  (∀ key message, length (sig_bytes (sign_challenge key message)) = 64) ∧
  (∀ key, length (public_key_bytes key) = 32) ∧
  (∀ secret v, Vault.open secret = Ok v → vault_typed v) ∧
  (∀ phrase v, Vault.from_recovery_phrase phrase = Ok v → vault_typed v) ∧
  (∀ secret v, Ffi.Ffi.open secret = Ok v → vault_typed (Ffi.Ffi.inner v)) ∧
  (∀ phrase v, Ffi.Ffi.from_recovery_phrase phrase = Ok v → vault_typed (Ffi.Ffi.inner v)).
Proof.
  split_and!.
  - intros secret info n key. unfold derive_subkey. rsimpl.
    destruct (hkdf_expand _ _ _) as [okm|] eqn:E; [|done]. intros [= <-]. by eapply hkdf_expand_length.
  - apply generate_typed.
  - apply phrase_typed.
  - intros dk wk a g w g' Hw. by apply wrap_data_key_inv in Hw as [? _].
  - intros w wk a dk Hdk. by apply unwrap_data_key_inv in Hdk as (? & ? & _).
  - intros wk id g dk np w g' Hk. apply new_blob_keys_inv in Hk as (? & ? & ? & _).
    split_and!; [done..|]. by apply write_header_length.
  - intros pt key r f g fld g' (a & _ & Hiv & _)%encrypt_field_inv. by eapply try_fill_bytes_length.
  - apply sign_challenge_length.
  - apply public_key_bytes_length.
  - apply open_typed.
  - apply from_phrase_typed.
  - intros secret v. unfold Ffi.Ffi.open. destruct (Ffi.Ffi.vec_to_secret_array secret) as [a|]; rsimpl; [|done].
    destruct (Vault.open a) as [c|] eqn:E; [|done]. simpl. intros [= <-]. by eapply open_typed.
  - intros phrase v. unfold Ffi.Ffi.from_recovery_phrase. rsimpl.
    destruct (Vault.from_recovery_phrase phrase) as [c|] eqn:E; [|done]. simpl. intros [= <-].
    by eapply from_phrase_typed.
Qed.

End types.

(** At the concrete instances. *)
Lemma array_types_hold_witness :
  (∀ secret info n key, derive_subkey secret info n = Ok key → length key = n) ∧
  (∀ g secret g', generate_master_secret g = (Ok secret, g') → length secret = 32) ∧
  (∀ phrase secret, phrase_to_secret phrase = Ok secret → length secret = 32) ∧
  (∀ dk wk a g w g', wrap_data_key dk wk a g = (Ok w, g') → length w = 60) ∧
  (∀ w wk a dk, unwrap_data_key w wk a = Ok dk → length w = 60 ∧ length dk = 32) ∧
  (∀ wk id g dk np w g', new_blob_keys wk id g = (Ok (dk, np, w), g') →
     length dk = 32 ∧ length np = 7 ∧ length w = 60 ∧ length (write_header [] w np) = 72) ∧
  (∀ pt key r f g fld g', encrypt_field pt key r f g = (Ok fld, g') → length (iv fld) = 12) ∧
  (∀ key message, length (sig_bytes (sign_challenge key message)) = 64) ∧
  (∀ key, length (public_key_bytes key) = 32) ∧
  (∀ secret v, Vault.open secret = Ok v → vault_typed v) ∧
  (∀ phrase v, Vault.from_recovery_phrase phrase = Ok v → vault_typed v) ∧
  (∀ secret v, Ffi.Ffi.open secret = Ok v → vault_typed (Ffi.Ffi.inner v)) ∧
  (∀ phrase v, Ffi.Ffi.from_recovery_phrase phrase = Ok v → vault_typed (Ffi.Ffi.inner v)).
Proof. exact array_types_hold. Defined.
