(* ===== verification/Suite.v ===== *)
(** * The unit tests as programs: what a test is

    A test function of the source draws randomness, calls the crate and panics on a failed
    assertion or on [unwrap] of an error. [runs] is the specification of such a program when the
    entropy source answers: it does not panic, and what it computes is as stated. *)

From S2P Require Import Prelude Ints Errors Prims Toy Aad Metadata Blob.
From Stdlib Require Import ZArith Lia.

(** How a test fails. *)
Inductive panic :=
| Unwrapped (e : FilumCryptoError)
| Unwrapped_foreign
| Assertion_failed.

(** [matches!(r, Err(e))]. *)
Definition is_err {A} (e : FilumCryptoError) (r : Result A) : bool :=
  match r with Ok _ => false | Err e' => bool_decide (e' = e) end.

Section test.
Context `{OsRng}.

Definition test (A : Type) : Type := st rng panic A.

(** A fallible call of the crate, with its result as a value. *)
Definition result_of {A} (m : st rng FilumCryptoError A) : test (Result A) := λ g,
  let '(r, g') := m g in (Ok r, g').

(** [r.unwrap()], [m()?.unwrap()] and [o.unwrap()] for a call of another crate. *)
Definition unwrap {A} (r : Result A) : test A := st_lift (map_err Unwrapped r).
Definition unwrap_st {A} (m : st rng FilumCryptoError A) : test A :=
  r ← result_of m; unwrap r.
Definition unwrap_opt {A} (o : option A) : test A := st_lift (ok_or o Unwrapped_foreign).

(** [assert!(b)]. *)
Definition assert_ (b : bool) : test unit :=
  if b then mret tt else st_lift (Err Assertion_failed).
Definition assert_eq `{EqDecision A} (x y : A) : test unit := assert_ (bool_decide (x = y)).
Definition assert_ne `{EqDecision A} (x y : A) : test unit := assert_ (negb (bool_decide (x = y))).

(** [for &x in l]. *)
Fixpoint for_each {A} (l : list A) (body : A → test unit) : test unit :=
  match l with
  | [] => mret tt
  | x :: l' => _ ← body x; for_each l' body
  end.

(** Does the test pass, from this state of the entropy source? *)
Definition passes_from (g : rng) (t : test unit) : bool := is_ok (t g).1.

End test.

(** An entropy source that answers: [supplied g] says that the source in state [g] will answer
    every request. *)
Class Supply `{OsRng} := {
  supplied : rng → Prop;
  supply n g : supplied g → ∃ buf g', try_fill_bytes n g = (Some buf, g') ∧ supplied g';
}.

Section runs.
Context `{OsRng, !Supply}.

(** From every supplied source the test ends without a panic, in a value with [Q]. *)
Definition runs {A} (t : test A) (Q : A → Prop) : Prop :=
  ∀ g, supplied g → ∃ a g', t g = (Ok a, g') ∧ supplied g' ∧ Q a.

(** The test passes on this provider of cryptography, whatever it draws. *)
Definition passes (t : test unit) : Prop := runs t (λ _, True).

Lemma runs_ret {A} (a : A) (Q : A → Prop) : Q a → runs (mret a) Q.
Proof. intros HQ g Hg. by exists a, g. Qed.

Lemma runs_bind {A B} (t : test A) (k : A → test B) Q :
  runs t (λ a, runs (k a) Q) → runs (t ≫= k) Q.
Proof.
  intros Ht g Hg. destruct (Ht g Hg) as (a & g1 & E & Hg1 & Hk).
  unfold mbind, st_bind. rewrite E. by apply Hk.
Qed.

Lemma runs_mono {A} (t : test A) (Q R : A → Prop) : (∀ a, Q a → R a) → runs t Q → runs t R.
Proof. intros HQR Ht g Hg. destruct (Ht g Hg) as (a & g1 & E & Hg1 & Hk). exists a, g1. auto. Qed.

Lemma runs_unwrap {A} (r : Result A) a (Q : A → Prop) : r = Ok a → Q a → runs (unwrap r) Q.
Proof. intros -> HQ g Hg. by exists a, g. Qed.

Lemma runs_unwrap_opt {A} (o : option A) a (Q : A → Prop) : o = Some a → Q a → runs (unwrap_opt o) Q.
Proof. intros -> HQ g Hg. by exists a, g. Qed.

Lemma runs_assert (b : bool) (Q : unit → Prop) : b = true → Q tt → runs (assert_ b) Q.
Proof. intros -> HQ. by apply runs_ret. Qed.

Lemma runs_assert_eq `{EqDecision A} (x y : A) (Q : unit → Prop) : x = y → Q tt → runs (assert_eq x y) Q.
Proof. intros -> HQ. apply runs_assert; [|done]. by apply bool_decide_eq_true. Qed.

Lemma runs_for_each {A} (l : list A) (body : A → test unit) (Q : unit → Prop) :
  (∀ x, x ∈ l → passes (body x)) → Q tt → runs (for_each l body) Q.
Proof.
  intros Hl HQ. induction l as [|x l IH]; [by apply runs_ret|]. cbn [for_each]. apply runs_bind.
  eapply runs_mono, Hl; [|by apply elem_of_cons; left].
  intros [] _. apply IH. intros y Hy. apply Hl. by apply elem_of_cons; right.
Qed.

(** A call that must fail, and whose failure is asserted. *)
Lemma runs_assert_err {A} (r : Result A) e (Q : unit → Prop) :
  r = Err e → Q tt → runs (assert_ (is_err e r)) Q.
Proof. intros -> HQ. apply runs_assert; [|done]. by apply bool_decide_eq_true. Qed.

End runs.

(** ** The randomised calls of the crate under a supplied source *)

Section supplied_calls.
Context `{OsRngLaws, !Supply, AesGcmLaws}.

Lemma os_fill_supplied n g :
  supplied g → ∃ buf g', os_fill n g = (Ok buf, g') ∧ length buf = n ∧ supplied g'.
Proof.
  intros Hg. destruct (supply n g Hg) as (buf & g' & E & Hg').
  exists buf, g'. unfold os_fill. rewrite E. split_and!; [done| |done].
  by eapply try_fill_bytes_length.
Qed.

Lemma new_blob_keys_supplied wk id g :
  supplied g → valid_id id → ∃ k g', new_blob_keys wk id g = (Ok k, g') ∧ supplied g'.
Proof.
  intros Hg Hid. unfold new_blob_keys, wrap_data_key. rsimpl.
  destruct (os_fill_supplied 32 g Hg) as (dk & g1 & -> & Hdk & Hg1).
  destruct (os_fill_supplied NONCE_PREFIX_LEN g1 Hg1) as (np & g2 & -> & Hnp & Hg2).
  rewrite blob_wrap_aad_eq, decide_True by done.
  destruct (os_fill_supplied 12 g2 Hg2) as (v & g3 & -> & Hv & Hg3).
  match goal with |- context [encrypt ?c ?n ?p] => destruct (gcm_total c n p) as [ct Hct] end.
  { destruct Hid as [_ Hid]. split; cbn [msg aad]; [rewrite Hdk; lia|].
    rewrite !length_app, prefixed_length, Hnp, chunk_size_be_length.
    change (length BLOB_DOMAIN) with 20. unfold NONCE_PREFIX_LEN. cbn [length]. lia. }
  rewrite Hct. apply gcm_length in Hct. cbn [msg] in Hct. rewrite Hct, Hdk.
  change (negb (32 + TAG_LEN =? WRAPPED_KEY_LEN - 12)) with false. rsimpl. eauto.
Qed.

Lemma encrypt_chunked_supplied pt wk id g :
  supplied g → valid_id id → (Z.of_nat (length pt) < 2 ^ 52)%Z →
  ∃ framed g', encrypt_chunked pt wk id g = (Ok framed, g') ∧ supplied g'.
Proof.
  intros Hg Hid Hpt. rewrite encrypt_chunked_eq, blob_segment_aad_eq, decide_True by done.
  destruct (new_blob_keys_supplied wk id g Hg Hid) as ([[dk np] w] & g' & -> & Hg').
  destruct (frame_body_total dk np (BLOB_DOMAIN ++ prefixed id) pt) as [body ->]; [done| |].
  { destruct Hid as [_ Hid]. rewrite length_app, prefixed_length.
    change (length BLOB_DOMAIN) with 20. lia. }
  simpl. eauto.
Qed.

Lemma encrypt_field_supplied pt key r f g :
  supplied g → valid_id r → valid_id f → (Z.of_nat (length pt) <= 2 ^ 36)%Z →
  ∃ fld g', encrypt_field pt key r f g = (Ok fld, g') ∧ supplied g'.
Proof.
  intros Hg Hr Hf Hpt. unfold encrypt_field. rewrite field_aad_eq, decide_True by done. rsimpl.
  destruct (os_fill_supplied 12 g Hg) as (v & g' & -> & _ & Hg').
  match goal with |- context [encrypt ?c ?n ?p] => destruct (gcm_total c n p) as [ct ->] end.
  { destruct Hr as [_ Hr], Hf as [_ Hf]. split; cbn [msg aad]; [done|].
    rewrite !length_app, !prefixed_length. change (length FIELD_DOMAIN) with 21. lia. }
  eauto.
Qed.

End supplied_calls.
