(* ===== verification/Tests.v ===== *)
(** * The unit tests of the crate

    The test functions of [aad.rs], [kdf.rs], [metadata.rs], [auth.rs], [recovery.rs], [vault.rs]
    and the in-memory ones of [blob.rs], as programs. The tests that must succeed are proved to
    pass with every lawful provider of cryptography, whatever the randomness; those that present
    something forged are proved to pass unless the forgery has succeeded; for the known-answer
    tests it is stated what they establish of a provider; all the others are evaluated with the
    concrete one. *)

From S2P Require Import Prelude Ints Hex Errors Prims Toy Aad Kdf Metadata Auth Recovery Segments Blob.
From S2P Require Import Integrity Suite.
From S2P Require Vault.
From Stdlib Require Import ZArith Lia.

(** [l[i] = f(l[i])], which panics out of range. *)
Definition update `{OsRng} (i : nat) (f : byte → byte) (l : bytes) : test bytes :=
  _ ← unwrap_opt (l !! i);
  mret (alter f i l).

(** [b ^ z]. *)
Definition byte_xor (z : Z) (b : byte) : byte := byte_of_Z (Z.lxor (byte_to_Z b) z).

(** [hex_decode] of [kdf.rs]: the slice [s[i..i + 2]] panics at an odd end, and [unwrap] on what
    is not a digit. *)
Fixpoint hex_decode `{OsRng} (s : str) : test bytes :=
  match s with
  | [] => mret []
  | a :: s' =>
      match s' with
      | [] => st_lift (Err Assertion_failed)
      | b :: s'' =>
          x ← unwrap_opt (u8_from_str_radix_16 [a; b]);
          l ← hex_decode s'';
          mret (x :: l)
      end
  end.

(** [hex_to_vec] of [blob.rs] is the same code. *)
Definition hex_to_vec `{OsRng} (s : str) : test bytes := hex_decode s.

(** ** [aad.rs] *)

Section aad_tests.
Context `{OsRng}.

Definition blob_segment_aad_golden_bytes : test unit :=
  aad ← unwrap (blob_segment_aad (lit "abc"));
  let expected := lit "filum-crypto/v2/blob" ++ [x00; x00; x00; x03] ++ lit "abc" in
  assert_eq aad expected.

(** The two UTF-8 bytes of the letter e with an acute accent. *)
Definition e_acute : str := [xc3; xa9].

Definition blob_segment_aad_length_prefix_counts_bytes_not_chars : test unit :=
  aad ← unwrap (blob_segment_aad e_acute);
  let expected := lit "filum-crypto/v2/blob" ++ [x00; x00; x00; x02] ++ e_acute in
  assert_eq aad expected.

Definition blob_wrap_aad_golden_bytes : test unit :=
  aad ← unwrap (blob_wrap_aad (lit "abc") x02 [x01; x02; x03; x04; x05; x06; x07] [x00; x10; x00; x00]);
  let expected := lit "filum-crypto/v2/blob" ++ [x00; x00; x00; x03] ++ lit "abc" ++ [x02]
                    ++ [x01; x02; x03; x04; x05; x06; x07] ++ [x00; x10; x00; x00] in
  assert_eq aad expected.

Definition empty_blob_id_is_invalid_context : test unit :=
  _ ← assert_ (is_err InvalidContext (blob_segment_aad []));
  assert_ (is_err InvalidContext (blob_wrap_aad [] x02 (replicate 7 x00) (replicate 4 x00))).

Definition field_aad_golden_bytes : test unit :=
  aad ← unwrap (field_aad (lit "rec-1") (lit "name"));
  let expected := lit "filum-crypto/v2/field" ++ [x00; x00; x00; x05] ++ lit "rec-1"
                    ++ [x00; x00; x00; x04] ++ lit "name" in
  assert_eq aad expected.

Definition field_aad_length_prefixes_prevent_boundary_ambiguity : test unit :=
  ab_c ← unwrap (field_aad (lit "ab") (lit "c"));
  a_bc ← unwrap (field_aad (lit "a") (lit "bc"));
  assert_ne ab_c a_bc.

Definition empty_field_identifiers_are_invalid_context : test unit :=
  _ ← assert_ (is_err InvalidContext (field_aad [] (lit "name")));
  _ ← assert_ (is_err InvalidContext (field_aad (lit "rec-1") []));
  assert_ (is_err InvalidContext (field_aad [] [])).

Definition aad_tests : list (test unit) :=
  [blob_segment_aad_golden_bytes; blob_segment_aad_length_prefix_counts_bytes_not_chars;
   blob_wrap_aad_golden_bytes; empty_blob_id_is_invalid_context; field_aad_golden_bytes;
   field_aad_length_prefixes_prevent_boundary_ambiguity;
   empty_field_identifiers_are_invalid_context].

End aad_tests.

(** ** [kdf.rs] *)

Section kdf_tests.
Context `{OsRng, Hkdf}.

Definition derive_subkey_is_deterministic : test unit :=
  let secret := replicate 32 x2a in
  out1 ← unwrap (derive_subkey secret WRAP_CTX 32);
  out2 ← unwrap (derive_subkey secret WRAP_CTX 32);
  assert_eq out1 out2.

Definition different_contexts_produce_different_subkeys : test unit :=
  let secret := replicate 32 x2a in
  wrap ← unwrap (derive_subkey secret WRAP_CTX 32);
  meta ← unwrap (derive_subkey secret METADATA_CTX 32);
  sign ← unwrap (derive_subkey secret SIGN_CTX 32);
  _ ← assert_ne wrap meta;
  _ ← assert_ne wrap sign;
  assert_ne meta sign.

Definition known_answer_rfc5869_test_case_1 : test unit :=
  ikm ← hex_decode (lit "0b0b0b0b0b0b0b0b0b0b0b0b0b0b0b0b0b0b0b0b0b0b");
  info ← hex_decode (lit "f0f1f2f3f4f5f6f7f8f9");
  expected ← hex_decode (lit
    "3cb25f25faacd57a90434f64d0362f2a2d2d0a90cf1a5a4c5db02d56ecc4c5bf34007208d5b887185865");
  salt ← hex_decode (lit "000102030405060708090a0b0c");
  let hkdf := hkdf_new (Some salt) ikm in
  out ← unwrap_opt (hkdf_expand hkdf info 42);
  assert_eq out expected.

End kdf_tests.

(** ** [metadata.rs] *)

Section metadata_tests.
Context `{OsRng, AesGcm}.

Definition round_trip_field : test unit :=
  let key := replicate 32 x07 in
  let plaintext := lit "passport_no:AB1234567" in
  field ← unwrap_st (encrypt_field plaintext key (lit "rec-1") (lit "name"));
  recovered ← unwrap (decrypt_field field key (lit "rec-1") (lit "name"));
  assert_eq recovered plaintext.

Definition round_trip_empty_field : test unit :=
  let key := replicate 32 x07 in
  field ← unwrap_st (encrypt_field [] key (lit "rec-1") (lit "name"));
  recovered ← unwrap (decrypt_field field key (lit "rec-1") (lit "name"));
  assert_ (bool_decide (recovered = [])).

Definition wrong_key_fails : test unit :=
  let key1 := replicate 32 x07 in
  let key2 := replicate 32 x08 in
  field ← unwrap_st (encrypt_field (lit "secret") key1 (lit "rec-1") (lit "name"));
  let result := decrypt_field field key2 (lit "rec-1") (lit "name") in
  assert_ (is_err Aead result).

Definition wrong_record_id_fails : test unit :=
  let key := replicate 32 x07 in
  field ← unwrap_st (encrypt_field (lit "secret") key (lit "rec-a") (lit "name"));
  let result := decrypt_field field key (lit "rec-b") (lit "name") in
  assert_ (is_err Aead result).

Definition wrong_field_name_fails : test unit :=
  let key := replicate 32 x07 in
  field ← unwrap_st (encrypt_field (lit "secret") key (lit "rec-a") (lit "name"));
  let result := decrypt_field field key (lit "rec-a") (lit "other") in
  assert_ (is_err Aead result).

Definition empty_identifiers_are_invalid_context_on_encrypt : test unit :=
  let key := replicate 32 x07 in
  r1 ← result_of (encrypt_field (lit "x") key [] (lit "name"));
  _ ← assert_ (is_err InvalidContext r1);
  r2 ← result_of (encrypt_field (lit "x") key (lit "rec-1") []);
  assert_ (is_err InvalidContext r2).

Definition empty_identifiers_are_invalid_context_on_decrypt : test unit :=
  let key := replicate 32 x07 in
  field ← unwrap_st (encrypt_field (lit "x") key (lit "rec-1") (lit "name"));
  _ ← assert_ (is_err InvalidContext (decrypt_field field key [] (lit "name")));
  assert_ (is_err InvalidContext (decrypt_field field key (lit "rec-1") [])).

Definition tampered_ciphertext_fails : test unit :=
  let key := replicate 32 x07 in
  field ← unwrap_st (encrypt_field (lit "secret") key (lit "rec-1") (lit "name"));
  ct ← update 0 (byte_xor 1) (ciphertext field);
  let field := {| ciphertext := ct; iv := iv field |} in
  let result := decrypt_field field key (lit "rec-1") (lit "name") in
  assert_ (is_err Aead result).

Definition iv_is_fresh_per_encryption : test unit :=
  let key := replicate 32 x07 in
  a ← unwrap_st (encrypt_field (lit "same") key (lit "rec-1") (lit "name"));
  b ← unwrap_st (encrypt_field (lit "same") key (lit "rec-1") (lit "name"));
  _ ← assert_ne (ciphertext a) (ciphertext b);
  assert_ne (iv a) (iv b).

End metadata_tests.

(** ** [auth.rs] *)

Section auth_tests.
Context `{OsRng, Ed25519}.

Definition sign_and_verify_round_trip : test unit :=
  let seed := replicate 32 x09 in
  let key := signing_key_from_seed seed in
  let nonce := lit "backend-issued-nonce" in
  let sig := sign_challenge key nonce in
  let pk := public_key_bytes key in
  unwrap (verify_signature pk nonce (sig_bytes sig)).

(** The three calls of [verify_strict], which is the third-party check itself. *)
Definition signature_is_over_the_domain_separated_message : test unit :=
  let seed := replicate 32 x09 in
  let key := signing_key_from_seed seed in
  let message := lit "backend-issued-nonce" in
  let sig := sign_challenge key message in
  vk ← unwrap_opt (VerifyingKey_from_bytes (public_key_bytes key));
  let signature := Signature_from_bytes (sig_bytes sig) in
  _ ← assert_ (negb (verify_strict vk message signature));
  let raw := ATTEST_DOMAIN ++ message in
  _ ← assert_ (negb (verify_strict vk raw signature));
  let expected := [byte_of_Z (Z.of_nat (length ATTEST_DOMAIN))] ++ ATTEST_DOMAIN ++ message in
  assert_ (verify_strict vk expected signature).

Definition signature_is_deterministic_for_same_seed_and_nonce : test unit :=
  let seed := replicate 32 x09 in
  let key := signing_key_from_seed seed in
  let nonce := lit "nonce" in
  let sig1 := sign_challenge key nonce in
  let sig2 := sign_challenge key nonce in
  assert_eq (sig_bytes sig1) (sig_bytes sig2).

Definition different_seeds_produce_different_public_keys : test unit :=
  let key1 := signing_key_from_seed (replicate 32 x01) in
  let key2 := signing_key_from_seed (replicate 32 x02) in
  assert_ne (public_key_bytes key1) (public_key_bytes key2).

Definition tampered_nonce_fails_verification : test unit :=
  let seed := replicate 32 x09 in
  let key := signing_key_from_seed seed in
  let sig := sign_challenge key (lit "nonce") in
  let pk := public_key_bytes key in
  let result := verify_signature pk (lit "different") (sig_bytes sig) in
  assert_ (is_err InvalidSignature result).

Definition tampered_signature_fails_verification : test unit :=
  let seed := replicate 32 x09 in
  let key := signing_key_from_seed seed in
  let sig := sign_challenge key (lit "nonce") in
  let pk := public_key_bytes key in
  bad ← update 0 (byte_xor 1) (sig_bytes sig);
  let result := verify_signature pk (lit "nonce") bad in
  assert_ (is_err InvalidSignature result).

Definition invalid_public_key_fails_verification : test unit :=
  let result := verify_signature (replicate 32 x00) (lit "nonce") (replicate 64 x00) in
  assert_ (is_err InvalidSignature result).

End auth_tests.

(** ** [recovery.rs] *)

Section recovery_tests.
Context `{OsRng, Bip39}.

Definition round_trip_secret_phrase : test unit :=
  let secret := replicate 32 x2a in
  phrase ← unwrap (secret_to_phrase secret);
  recovered ← unwrap (phrase_to_secret phrase);
  assert_eq secret recovered.

Definition phrase_has_24_words : test unit :=
  let secret := replicate 32 x00 in
  phrase ← unwrap (secret_to_phrase secret);
  assert_eq (length (split_whitespace [] phrase)) 24.

Definition invalid_phrase_rejected : test unit :=
  let result := phrase_to_secret (lit "not a real phrase") in
  assert_ (is_err InvalidPhrase result).

Definition twelve_word_phrase_rejected : test unit :=
  let twelve := lit "abandon abandon abandon abandon abandon abandon abandon abandon abandon abandon abandon about" in
  let result := phrase_to_secret twelve in
  assert_ (is_err InvalidPhrase result).

Definition generate_master_secret_succeeds : test unit :=
  _ ← unwrap_st generate_master_secret; mret tt.

End recovery_tests.

(** ** [vault.rs] *)

Section vault_tests.
Context `{OsRng, AesGcm, Hkdf, Ed25519, Bip39}.

Definition vault_blob_round_trip : test unit :=
  let secret := replicate 32 x2a in
  vault ← unwrap (Vault.open secret);
  framed ← unwrap_st (Vault.encrypt_blob vault (lit "hello") (lit "doc-1"));
  recovered ← unwrap (Vault.decrypt_blob vault framed (lit "doc-1"));
  assert_eq recovered (lit "hello").

Definition vault_blob_transplanted_id_fails : test unit :=
  let secret := replicate 32 x2a in
  vault ← unwrap (Vault.open secret);
  framed ← unwrap_st (Vault.encrypt_blob vault (lit "hello") (lit "doc-1"));
  let result := Vault.decrypt_blob vault framed (lit "doc-2") in
  assert_ (is_err Aead result).

Definition vault_metadata_round_trip : test unit :=
  let secret := replicate 32 x2a in
  vault ← unwrap (Vault.open secret);
  field ← unwrap_st
    (Vault.encrypt_metadata_field vault (lit "name=Alice") (lit "rec-1") (lit "document-record"));
  recovered ← unwrap
    (Vault.decrypt_metadata_field vault field (lit "rec-1") (lit "document-record"));
  assert_eq recovered (lit "name=Alice").

Definition vault_metadata_transplanted_record_fails : test unit :=
  let secret := replicate 32 x2a in
  vault ← unwrap (Vault.open secret);
  field ← unwrap_st
    (Vault.encrypt_metadata_field vault (lit "name=Alice") (lit "rec-1") (lit "document-record"));
  let result := Vault.decrypt_metadata_field vault field (lit "rec-2") (lit "document-record") in
  assert_ (is_err Aead result).

Definition vault_sign_and_verify : test unit :=
  let secret := replicate 32 x2a in
  vault ← unwrap (Vault.open secret);
  let sig := Vault.sign_challenge vault (lit "backend-nonce") in
  let pk := Vault.device_public_key vault in
  unwrap (verify_signature pk (lit "backend-nonce") (sig_bytes sig)).

Definition same_secret_produces_same_public_key : test unit :=
  let secret := replicate 32 x01 in
  v1 ← unwrap (Vault.open secret);
  v2 ← unwrap (Vault.open secret);
  assert_eq (Vault.device_public_key v1) (Vault.device_public_key v2).

Definition different_secrets_produce_different_public_keys : test unit :=
  v1 ← unwrap (Vault.open (replicate 32 x01));
  v2 ← unwrap (Vault.open (replicate 32 x02));
  assert_ne (Vault.device_public_key v1) (Vault.device_public_key v2).

Definition blob_encrypted_by_one_vault_decrypts_with_same_secret : test unit :=
  let secret := replicate 32 x2a in
  framed ← (v ← unwrap (Vault.open secret);
            unwrap_st (Vault.encrypt_blob v (lit "persistent") (lit "doc-1")));
  v2 ← unwrap (Vault.open secret);
  recovered ← unwrap (Vault.decrypt_blob v2 framed (lit "doc-1"));
  assert_eq recovered (lit "persistent").

Definition vault_from_recovery_phrase_matches_open : test unit :=
  let secret := replicate 32 x7b in
  phrase ← unwrap (secret_to_phrase secret);
  v_open ← unwrap (Vault.open secret);
  v_phrase ← unwrap (Vault.from_recovery_phrase phrase);
  assert_eq (Vault.device_public_key v_open) (Vault.device_public_key v_phrase).

Definition vault_from_invalid_phrase_fails : test unit :=
  let result := Vault.from_recovery_phrase (lit "not a real phrase") in
  assert_ (is_err InvalidPhrase result).

Definition blob_from_one_vault_cannot_be_decrypted_by_different_vault : test unit :=
  let secret_a := replicate 32 x2a in
  let secret_b := replicate 32 x63 in
  vault_a ← unwrap (Vault.open secret_a);
  vault_b ← unwrap (Vault.open secret_b);
  framed ← unwrap_st (Vault.encrypt_blob vault_a (lit "secret data") (lit "doc-1"));
  let result := Vault.decrypt_blob vault_b framed (lit "doc-1") in
  assert_ (is_err Aead result).

Definition metadata_from_one_vault_cannot_be_decrypted_by_different_vault : test unit :=
  vault_a ← unwrap (Vault.open (replicate 32 x2a));
  vault_b ← unwrap (Vault.open (replicate 32 x63));
  field ← unwrap_st
    (Vault.encrypt_metadata_field vault_a (lit "name") (lit "rec-1") (lit "document-record"));
  let result := Vault.decrypt_metadata_field vault_b field (lit "rec-1") (lit "document-record") in
  assert_ (is_err Aead result).

End vault_tests.

(** ** [blob.rs], in memory *)

Definition SIZES : list nat :=
  [0; 1; CHUNK_SIZE - 1; CHUNK_SIZE; CHUNK_SIZE + 1; 3 * CHUNK_SIZE + 7].
Definition BLOB_ID : str := lit "blob-a".
Definition OTHER_BLOB_ID : str := lit "blob-b".

Definition make_plaintext (len : nat) : bytes :=
  (λ i, byte_of_Z (Z.of_nat (i `mod` 251))) <$> seq 0 len.

Section blob_tests.
Context `{OsRng, AesGcm}.

Definition chunked_in_memory_round_trip_all_sizes : test unit :=
  let key := replicate 32 x2a in
  for_each SIZES (λ len,
    let pt := make_plaintext len in
    framed ← unwrap_st (encrypt_chunked pt key BLOB_ID);
    recovered ← unwrap (decrypt_chunked framed key BLOB_ID);
    assert_eq recovered pt).

Definition encrypted_blob_has_version_2 : test unit :=
  let key := replicate 32 x2a in
  framed ← unwrap_st (encrypt_chunked (lit "some data") key BLOB_ID);
  first ← unwrap_opt (framed !! 0);
  assert_eq first x02.

Definition transplanted_blob_id_fails_in_memory : test unit :=
  let key := replicate 32 x2a in
  framed ← unwrap_st (encrypt_chunked (lit "some data") key BLOB_ID);
  assert_ (is_err Aead (decrypt_chunked framed key OTHER_BLOB_ID)).

Definition crafted_version_1_blob_rejected : test unit :=
  let key := replicate 32 x2a in
  framed ← unwrap_st (encrypt_chunked (lit "some data") key BLOB_ID);
  framed ← update 0 (λ _, x01) framed;
  assert_ (is_err Aead (decrypt_chunked framed key BLOB_ID)).

(** The tests that change one byte of the frame: plaintext, offset, bits. *)
Definition tampered_frame_test (pt : bytes) (i : nat) (z : Z) : test unit :=
  let key := replicate 32 x2a in
  framed ← unwrap_st (encrypt_chunked pt key BLOB_ID);
  framed ← update i (byte_xor z) framed;
  assert_ (is_err Aead (decrypt_chunked framed key BLOB_ID)).

Definition tampered_version_byte_fails : test unit := tampered_frame_test (lit "some data") 0 0xff.

Definition tampered_wrapped_key_byte_fails : test unit := tampered_frame_test (lit "some data") 20 1.

Definition tampered_nonce_prefix_byte_fails : test unit :=
  tampered_frame_test (lit "some data") (1 + WRAPPED_KEY_LEN) 1.

Definition chunked_flipped_body_byte_fails : test unit :=
  tampered_frame_test (make_plaintext (CHUNK_SIZE + 100)) (HEADER_LEN + 10) 1.

Definition empty_blob_id_rejected_in_memory : test unit :=
  let key := replicate 32 x2a in
  r ← result_of (encrypt_chunked (lit "some data") key []);
  _ ← assert_ (is_err InvalidContext r);
  framed ← unwrap_st (encrypt_chunked (lit "some data") key BLOB_ID);
  assert_ (is_err InvalidContext (decrypt_chunked framed key [])).

(** [framed.truncate(framed.len() - 20)]. *)
Definition chunked_truncation_fails : test unit :=
  let key := replicate 32 x2a in
  let pt := make_plaintext (CHUNK_SIZE + 100) in
  framed ← unwrap_st (encrypt_chunked pt key BLOB_ID);
  let framed := take (length framed - 20) framed in
  assert_ (is_err Aead (decrypt_chunked framed key BLOB_ID)).

(** [split_at_mut] and [swap_with_slice]: the ranges are in bounds or the test panics. *)
Definition chunked_swapped_chunks_fail : test unit :=
  let key := replicate 32 x2a in
  let pt := make_plaintext (3 * CHUNK_SIZE + 7) in
  framed ← unwrap_st (encrypt_chunked pt key BLOB_ID);
  let ct_chunk := CHUNK_SIZE + 16 in
  let body_start := HEADER_LEN in
  let first := body_start in
  let second := body_start + ct_chunk in
  if length framed <? second + ct_chunk then st_lift (Err Assertion_failed) else
  let tampered := take first framed ++ slice framed second (second + ct_chunk)
                    ++ slice framed first second ++ drop (second + ct_chunk) framed in
  assert_ (is_err Aead (decrypt_chunked tampered key BLOB_ID)).

Definition chunked_wrong_wrapping_key_fails : test unit :=
  let key1 := replicate 32 x2a in
  let key2 := replicate 32 x2b in
  framed ← unwrap_st (encrypt_chunked (lit "some data") key1 BLOB_ID);
  let result := decrypt_chunked framed key2 BLOB_ID in
  assert_ (is_err Aead result).

(** [tampered[cs_off..cs_off + 4].copy_from_slice(..)]. *)
Definition chunked_tampered_chunk_size_header_rejected : test unit :=
  let key := replicate 32 x2a in
  framed ← unwrap_st (encrypt_chunked (lit "some data") key BLOB_ID);
  let cs_off := 1 + WRAPPED_KEY_LEN + NONCE_PREFIX_LEN in
  if length framed <? cs_off + 4 then st_lift (Err Assertion_failed) else
  let tampered := take cs_off framed ++ u32_to_be_bytes 0xffffffff ++ drop (cs_off + 4) framed in
  assert_ (is_err Aead (decrypt_chunked tampered key BLOB_ID)).

Definition aes_gcm_nist_known_answer : test unit :=
  let key := replicate 32 x00 in
  let iv := replicate 12 x00 in
  let cipher := aes_new key in
  ct ← unwrap_opt (encrypt cipher iv {| msg := []; aad := [] |});
  expected ← hex_to_vec (lit "530f8afbc74536b9a963b4f1c4cb738b");
  assert_eq expected ct.

End blob_tests.

(** ** The tests that must succeed *)

Ltac valid_id_literal := apply (bool_decide_unpack (valid_id _)); vm_compute; exact I.

Section calls.
Context `{OsRngLaws, !Supply, AesGcmLaws, HkdfLaws, Ed25519}.

(** The randomised calls, in tests that require them to succeed. *)
Lemma runs_unwrap_st {A} (m : st rng FilumCryptoError A) (Q : A → Prop) :
  (∀ g, supplied g → ∃ a g', m g = (Ok a, g') ∧ supplied g') →
  (∀ g a g', m g = (Ok a, g') → Q a) → runs (unwrap_st m) Q.
Proof.
  intros Hm HQ g Hg. destruct (Hm g Hg) as (a & g' & E & Hg').
  exists a, g'. unfold unwrap_st, result_of. rsimpl. rewrite E. eauto.
Qed.

Lemma runs_encrypt_chunked pt wk id (Q : bytes → Prop) :
  valid_id id → (Z.of_nat (length pt) < 2 ^ 52)%Z →
  (∀ g framed g', encrypt_chunked pt wk id g = (Ok framed, g') → Q framed) →
  runs (unwrap_st (encrypt_chunked pt wk id)) Q.
Proof. intros. apply runs_unwrap_st; [|done]. intros. by apply encrypt_chunked_supplied. Qed.

Lemma runs_encrypt_field pt key r f (Q : EncryptedField → Prop) :
  valid_id r → valid_id f → (Z.of_nat (length pt) <= 2 ^ 36)%Z →
  (∀ g fld g', encrypt_field pt key r f g = (Ok fld, g') → Q fld) →
  runs (unwrap_st (encrypt_field pt key r f)) Q.
Proof. intros. apply runs_unwrap_st; [|done]. intros. by apply encrypt_field_supplied. Qed.

Lemma runs_open secret (Q : Vault.Vault → Prop) :
  (∀ v, Vault.open secret = Ok v → Q v) → runs (unwrap (Vault.open secret)) Q.
Proof.
  intros HQ. destruct (Vault.open_total secret) as (? & ? & ? & _ & _ & _ & _ & _ & _ & Ho).
  eapply runs_unwrap; [exact Ho|by apply HQ].
Qed.

Lemma runs_subkey secret info (Q : bytes → Prop) :
  (∀ key, derive_subkey secret info 32 = Ok key → Q key) → runs (unwrap (derive_subkey secret info 32)) Q.
Proof.
  intros HQ. destruct (derive_subkey_ok secret info 32) as (key & Hkey & _); [lia|].
  eapply runs_unwrap; [exact Hkey|by apply HQ].
Qed.

(** Replacing one byte of a list that is long enough. *)
Lemma runs_update i f l (Q : bytes → Prop) :
  i < length l → (∀ b, l !! i = Some b → Q (alter f i l)) → runs (update i f l) Q.
Proof.
  intros [b Hb]%lookup_lt_is_Some_2 HQ. apply runs_bind.
  eapply runs_unwrap_opt; [exact Hb|]. by eapply runs_ret, HQ.
Qed.

End calls.

Ltac head_of t := lazymatch t with ?f _ => head_of f | _ => t end.

(** One step of a test: the next call, by its rule. *)
Ltac test_step :=
  lazymatch goal with
  | |- passes ?t => let h := head_of t in unfold passes, h;
      cbv beta zeta delta [Vault.encrypt_blob Vault.decrypt_blob Vault.encrypt_metadata_field
        Vault.decrypt_metadata_field Vault.sign_challenge Vault.device_public_key]
  | |- runs (mbind _ _) _ => apply runs_bind
  | |- runs (unwrap_st (encrypt_chunked _ _ _)) _ =>
      apply runs_encrypt_chunked; [valid_id_literal|vm_compute; reflexivity|intros ? ? ? ?]
  | |- runs (unwrap_st (encrypt_field _ _ _ _)) _ =>
      apply runs_encrypt_field; [valid_id_literal|valid_id_literal|vm_compute; discriminate|intros ? ? ? ?]
  | |- runs (unwrap (Vault.open _)) _ => apply runs_open; intros ? ?;
      try match goal with H1 : Vault.open ?s = Ok ?v, H2 : Vault.open ?s = Ok ?v' |- _ =>
        assert (v' = v) as -> by congruence; clear H2 end
  | |- runs (unwrap (derive_subkey _ _ _)) _ => apply runs_subkey; intros ? ?
  | |- runs (unwrap _) _ => eapply runs_unwrap; [solve [eauto using decrypt_encrypted, decrypt_encrypted_field, verify_signed]|]
  | |- runs (assert_eq _ _) _ => apply runs_assert_eq; [first [reflexivity|congruence]|try exact I]
  | |- runs (assert_ (is_err _ _)) _ => apply runs_assert_err; [|try exact I]
  end.

Section positive.
Context `{OsRngLaws, !Supply, AesGcmLaws, HkdfLaws, Ed25519Laws, Bip39Laws}.

Lemma aad_tests_pass : Forall passes aad_tests.
Proof. repeat constructor; intros g Hg; exists tt, g; (split; [reflexivity|by split]). Qed.

Lemma metadata_tests_pass :
  Forall passes [round_trip_field; round_trip_empty_field;
    empty_identifiers_are_invalid_context_on_encrypt;
    empty_identifiers_are_invalid_context_on_decrypt].
Proof.
  repeat constructor.
  - repeat test_step.
  - repeat test_step. by apply runs_assert.
  - intros g Hg. exists tt, g. split; [reflexivity|by split].
  - repeat test_step; reflexivity.
Qed.

Lemma auth_tests_pass :
  Forall passes [sign_and_verify_round_trip; signature_is_deterministic_for_same_seed_and_nonce].
Proof. repeat constructor; repeat test_step; done. Qed.

(** The phrase of a 32-byte secret has 24 words. *)
Lemma phrase_24_words secret phrase :
  length secret = 32 → secret_to_phrase secret = Ok phrase → length (split_whitespace [] phrase) = 24.
Proof.
  unfold secret_to_phrase. intros Hl. destruct (Mnemonic_from_entropy secret) as [m|] eqn:Hm; rsimpl; [|done].
  intros [= <-]. destruct (phrase_words _ _ Hm) as (ws & -> & Hws & Hlen). rewrite split_unwords by done. lia.
Qed.

Lemma recovery_tests_pass :
  Forall passes [round_trip_secret_phrase; phrase_has_24_words; generate_master_secret_succeeds].
Proof.
  repeat constructor.
  - destruct (secret_has_phrase (replicate 32 x2a) eq_refl) as (phrase & Hp & Hs).
    test_step. test_step. eapply runs_unwrap; [exact Hp|]. repeat test_step.
  - destruct (secret_has_phrase (replicate 32 x00) eq_refl) as (phrase & Hp & _).
    test_step. test_step. eapply runs_unwrap; [exact Hp|].
    apply runs_assert_eq; [exact (phrase_24_words (replicate 32 x00) phrase eq_refl Hp)|done].
  - test_step. test_step. apply runs_unwrap_st; [|by intros; apply runs_ret].
    intros g Hg. destruct (os_fill_supplied 32 g Hg) as (b & g' & E & _ & Hg'). eauto.
Qed.

Lemma kdf_tests_pass : Forall passes [derive_subkey_is_deterministic].
Proof. repeat constructor; repeat test_step. Qed.

(** An honest frame starts with the version and is longer than its header. *)
Lemma honest_frame pt wk id g framed g' :
  encrypt_chunked pt wk id g = (Ok framed, g') → framed !! 0 = Some VERSION ∧ HEADER_LEN < length framed.
Proof.
  intros (a & dk & np & w & [cts ctr] & _ & Hkeys & Hseal & ->)%encrypt_chunked_inv.
  apply new_blob_keys_inv in Hkeys as (_ & Hnp & Hw & _).
  destruct (seal_blocks_shape _ _ _ _ _ Hseal) as (_ & Hctr & _). split; [reflexivity|].
  unfold flat. cbn [fst snd]. rewrite !length_app, write_header_length by done.
  unfold TAG_LEN in Hctr. lia.
Qed.

Lemma honest_frame_length pt wk id g framed g' :
  encrypt_chunked pt wk id g = (Ok framed, g') → HEADER_LEN + length pt + TAG_LEN ≤ length framed.
Proof.
  intros (a & dk & np & w & p & _ & Hkeys & Hseal & ->)%encrypt_chunked_inv.
  apply new_blob_keys_inv in Hkeys as (_ & Hnp & Hw & _).
  rewrite length_app, write_header_length by done. apply seal_length in Hseal as ->.
  destruct (blocks CHUNK_SIZE pt) as [bs r] eqn:E. apply blocks_cut in E as [_ <-]; [|apply CHUNK_SIZE_pos].
  cbn [fst snd]. rewrite Nat.mul_succ_r. lia.
Qed.

(** The facts about the frame just made. *)
Ltac honest Hv Hlen :=
  lazymatch goal with
  | Henc : encrypt_chunked _ _ _ _ = (Ok _, _) |- _ => pose proof (honest_frame _ _ _ _ _ _ Henc) as [Hv Hlen]
  end.

Lemma sizes_small len : len ∈ SIZES → (Z.of_nat (length (make_plaintext len)) < 2 ^ 52)%Z.
Proof.
  unfold make_plaintext. rewrite length_fmap, length_seq. pose proof CHUNK_SIZE_Z as Hcs.
  unfold SIZES. rewrite !elem_of_cons, elem_of_nil. intros Hlen.
  destruct Hlen as [->|[->|[->|[->|[->|[->|[]]]]]]]; lia.
Qed.

Lemma blob_tests_pass :
  Forall passes [chunked_in_memory_round_trip_all_sizes; encrypted_blob_has_version_2;
    crafted_version_1_blob_rejected; tampered_version_byte_fails; empty_blob_id_rejected_in_memory;
    chunked_tampered_chunk_size_header_rejected].
Proof.
  repeat constructor.
  - test_step. apply runs_for_each; [|exact I]. intros len Hlen. unfold passes. test_step.
    apply runs_encrypt_chunked; [valid_id_literal|by apply sizes_small|]. intros g framed g' Henc.
    repeat test_step.
  - test_step. test_step. test_step. test_step.
    match goal with Henc : encrypt_chunked _ _ _ _ = _ |- _ => apply honest_frame in Henc as [Hv _] end.
    eapply runs_unwrap_opt; [exact Hv|]. test_step.
  - do 3 test_step. honest Hv Hlen. test_step. apply runs_update; [lia|]. intros b Hb. test_step.
    apply decrypt_chunked_refuses; [valid_id_literal|]. right; left.
    rewrite list_lookup_alter_eq, Hv. discriminate.
  - test_step. unfold tampered_frame_test. do 2 test_step. honest Hv Hlen. test_step.
    apply runs_update; [lia|]. intros b Hb. test_step.
    apply decrypt_chunked_refuses; [valid_id_literal|]. right; left.
    rewrite list_lookup_alter_eq, Hv. discriminate.
  - do 2 test_step. intros g Hg. exists (Err InvalidContext), g. split; [reflexivity|].
    split; [exact Hg|].
    test_step. test_step; [reflexivity|]. do 3 test_step. apply decrypt_chunked_invalid_id. by intros [].
  - do 3 test_step. honest Hv Hlen. rewrite (proj2 (Nat.ltb_ge _ _)) by (layout_lia).
    test_step. apply decrypt_chunked_refuses; [valid_id_literal|]. right; right.
    rewrite slice_app_r with (n := 68) by (rewrite ?length_take; layout_lia).
    rewrite (slice_app_l (u32_to_be_bytes 0xffffffff) _ 4) by apply be_bytes_length.
    rewrite chunk_size_be_bytes. vm_compute. discriminate.
Qed.

Lemma vault_tests_pass :
  Forall passes [vault_blob_round_trip; vault_metadata_round_trip; vault_sign_and_verify;
    same_secret_produces_same_public_key; blob_encrypted_by_one_vault_decrypts_with_same_secret;
    vault_from_recovery_phrase_matches_open].
Proof.
  repeat constructor.
  1-5: by repeat test_step.
  destruct (secret_has_phrase (replicate 32 x7b) eq_refl) as (phrase & Hp & Hs).
  do 2 test_step. eapply runs_unwrap; [exact Hp|]. do 3 test_step.
  eapply runs_unwrap; [unfold Vault.from_recovery_phrase; by rewrite Hs|]. repeat test_step.
Qed.

End positive.

(** ** The known-answer tests *)

Lemma hex_decode_pairs `{OsRng} n s g :
  length s ≤ 2 * n →
  match hex_pairs s with
  | Some l => hex_decode s g = (Ok l, g)
  | None => is_ok (hex_decode s g).1 = false
  end.
Proof.
  revert s. induction n as [|n IH]; intros [|a [|b s]] Hs; try done; [simpl in Hs; lia|].
  assert (length s ≤ 2 * n) as Hl by (simpl in Hs; lia). specialize (IH s Hl).
  unfold hex_pairs in *. cbn [read_pairs hex_decode]. destruct (u8_from_str_radix_16 [a; b]) as [x|]; [|done].
  unfold unwrap_opt. rsimpl. cbn [mbind option_bind]. destruct (read_pairs _ s) as [l|].
  - by rewrite IH.
  - by destruct (hex_decode s g) as [[l|e] g'].
Qed.

(** The decoder of the tests reads what is printed with two digits for every byte. *)
Lemma hex_decode_hex `{OsRng} l g : hex_decode (hex_of_bytes l) g = (Ok l, g).
Proof.
  pose proof (hex_decode_pairs (length (hex_of_bytes l)) (hex_of_bytes l) g) as Hd.
  rewrite hex_pairs_of_bytes in Hd. apply Hd. lia.
Qed.

(** One step of a test, as its verdict shows it. *)
Lemma passes_assert `{OsRng} g b : passes_from g (assert_ b) = b.
Proof. by destruct b. Qed.

Lemma passes_hex `{OsRng} s l (k : bytes → test unit) g :
  hex_pairs s = Some l → passes_from g (x ← hex_decode s; k x) = passes_from g (k l).
Proof.
  intros Hs. pose proof (hex_decode_pairs (length s) s g) as Hd. rewrite Hs in Hd.
  unfold passes_from. rsimpl. rewrite Hd by lia. done.
Qed.

Lemma passes_opt `{OsRng} {A} (o : option A) (k : A → test unit) g :
  passes_from g (x ← unwrap_opt o; k x) = match o with Some x => passes_from g (k x) | None => false end.
Proof. by destruct o. Qed.

(** The published output keying material, in network byte order. *)
Definition RFC5869_OKM : Z :=
  0x3cb25f25faacd57a90434f64d0362f2a2d2d0a90cf1a5a4c5db02d56ecc4c5bf34007208d5b887185865.

(** The known-answer tests pass if and only if the primitives give the published vectors: test
    case 1 of RFC 5869 and the empty message of the AES-GCM validation suite. *)
Theorem known_answer_tests_exact `{OsRng, Hkdf, AesGcm} g :
  (passes_from g known_answer_rfc5869_test_case_1 = true ↔
   hkdf_expand (hkdf_new (Some (byte_of_Z ∘ Z.of_nat <$> seq 0 13)) (replicate 22 x0b))
     (byte_of_Z ∘ Z.of_nat <$> seq 240 10) 42 =
   Some (be_bytes 42 RFC5869_OKM)) ∧
  (passes_from g aes_gcm_nist_known_answer = true ↔
   encrypt (aes_new (replicate 32 x00)) (replicate 12 x00) {| msg := []; aad := [] |} =
   Some (be_bytes 16 0x530f8afbc74536b9a963b4f1c4cb738b)).
Proof.
  split.
  - unfold known_answer_rfc5869_test_case_1.
    rewrite (passes_hex _ (replicate 22 x0b)) by (vm_compute; reflexivity).
    rewrite (passes_hex _ (byte_of_Z ∘ Z.of_nat <$> seq 240 10)) by (vm_compute; reflexivity).
    rewrite (passes_hex _ (be_bytes 42 RFC5869_OKM)) by (vm_compute; reflexivity).
    rewrite (passes_hex _ (byte_of_Z ∘ Z.of_nat <$> seq 0 13)) by (vm_compute; reflexivity).
    cbv zeta. rewrite passes_opt.
    destruct (hkdf_expand _ _ _) as [out|]; [|by split].
    unfold assert_eq. rewrite passes_assert, bool_decide_eq_true. split; congruence.
  - unfold aes_gcm_nist_known_answer, hex_to_vec. cbv zeta. rewrite passes_opt.
    destruct (encrypt _ _ _) as [ct|]; [|by split].
    rewrite (passes_hex _ (be_bytes 16 0x530f8afbc74536b9a963b4f1c4cb738b)) by (vm_compute; reflexivity).
    unfold assert_eq. rewrite passes_assert, bool_decide_eq_true. split; congruence.
Qed.

(** ** The tests that present a forgery *)

Section negative.
Context `{OsRngLaws, !Supply, AesGcmLaws, HkdfLaws, Ed25519Laws}.

(** From every state of a supplied source the test passes, or the event has happened. *)
Definition passes_unless (t : test unit) (event : rng → Prop) : Prop :=
  ∀ g, supplied g → passes_from g t = true ∨ event g.

(** The changed copy of the only frame that the test makes is a forgery: see [Integrity]. *)
Definition forged_frame (pt key : bytes) (id : str) (change : bytes → bytes) (g : rng) : Prop :=
  ∃ framed g', encrypt_chunked pt key id g = (Ok framed, g') ∧
    forgery key [{| s_id := id; s_pt := pt; s_rng := g; s_frame := framed |}] id (change framed).

(** The wrapped key of the frame, sealed for [id], is accepted for [id'] too. *)
Definition forged_id (pt key : bytes) (id id' : str) (g : rng) : Prop :=
  ∃ framed g', encrypt_chunked pt key id g = (Ok framed, g') ∧ forged_header key id framed id' framed.

(** The field that the test makes is accepted for other identifiers. *)
Definition forged_field (pt key : bytes) (r f r' f' : str) (g : rng) : Prop :=
  ∃ fld g' a a', encrypt_field pt key r f g = (Ok fld, g') ∧
    field_aad r f = Ok a ∧ field_aad r' f' = Ok a' ∧
    aad_collision (aes_new key) (iv fld) (ciphertext fld) a a'.

(** The signature of [m] is accepted for [m']. *)
Definition forged_signature (seed m m' : bytes) : Prop :=
  let k := signing_key_from_seed seed in
  m' ≠ domain_separated m ∧
  verify_strict (verifying_key k) m' (sign k (domain_separated m)) = true.

(** The checks after the encryption, with a changed frame. *)
Lemma changed_frame_test pt key id change g framed g' :
  encrypt_chunked pt key id g = (Ok framed, g') → change framed ≠ framed →
  is_err Aead (decrypt_chunked (change framed) key id) = true ∨ forged_frame pt key id change g.
Proof.
  intros Henc Hne. pose proof Henc as (a & _ & _ & _ & _ & [Hid _]%blob_segment_aad_ok & _)%encrypt_chunked_inv.
  destruct (tampered_blob key [{| s_id := id; s_pt := pt; s_rng := g; s_frame := framed |}] id (change framed))
    as [->|Hf]; [| done| |by left|right; by exists framed, g'].
  - apply Forall_singleton. by exists g'.
  - intros s ->%list_elem_of_singleton _ Heq. by apply Hne.
Qed.

Lemma transplant_test pt key id id' g framed g' :
  encrypt_chunked pt key id g = (Ok framed, g') → valid_id id' → id' ≠ id →
  is_err Aead (decrypt_chunked framed key id') = true ∨ forged_id pt key id id' g.
Proof.
  intros Henc Hid Hne. destruct (decrypt_chunked framed key id') as [pt'|e] eqn:Hdec.
  - right. exists framed, g'. split; [done|].
    by destruct (same_wrap_same_header _ _ _ _ _ _ _ _ _ Henc Hdec eq_refl) as [[? _]|?].
  - left. pose proof (decrypt_chunked_fails_only framed key id' Hid) as Hf.
    rewrite Hdec in Hf. simpl in Hf. subst e. done.
Qed.

Lemma passes_update g i f l (k : bytes → test unit) :
  i < length l → passes_from g (l' ← update i f l; k l') = passes_from g (k (alter f i l)).
Proof.
  intros [b Hb]%lookup_lt_is_Some_2. unfold passes_from, update, unwrap_opt. rsimpl. by rewrite Hb.
Qed.

Lemma unless_encrypt pt key id (k : bytes → test unit) event :
  valid_id id → (Z.of_nat (length pt) < 2 ^ 52)%Z →
  (∀ g framed g', encrypt_chunked pt key id g = (Ok framed, g') →
                  passes_from g' (k framed) = true ∨ event g) →
  passes_unless (framed ← unwrap_st (encrypt_chunked pt key id); k framed) event.
Proof.
  intros Hid Hpt Hk g Hg. destruct (encrypt_chunked_supplied pt key id g Hg Hid Hpt) as (framed & g' & E & _).
  unfold passes_from, unwrap_st, result_of, unwrap. rsimpl. rewrite E. by apply Hk.
Qed.

Lemma unless_field pt key r f r' f' (k : EncryptedField → test unit) :
  valid_id r → valid_id f → valid_id r' → valid_id f' → (Z.of_nat (length pt) <= 2 ^ 36)%Z →
  (r', f') ≠ (r, f) →
  (∀ fld, k fld = assert_ (is_err Aead (decrypt_field fld key r' f'))) →
  passes_unless (fld ← unwrap_st (encrypt_field pt key r f); k fld) (forged_field pt key r f r' f').
Proof.
  intros Hr Hf Hr' Hf' Hpt Hne Hk g Hg.
  destruct (encrypt_field_supplied pt key r f g Hg Hr Hf Hpt) as (fld & g' & E & _).
  unfold passes_from, unwrap_st, result_of, unwrap. rsimpl. rewrite E.
  change (passes_from g' (k fld) = true ∨ forged_field pt key r f r' f' g). rewrite Hk, passes_assert.
  destruct (transplanted_field _ _ _ _ _ _ _ _ _ E Hr' Hf' Hne) as [->|(a & a' & Ha & Ha' & Hc)]; [by left|].
  right. by exists fld, g', a, a'.
Qed.

Lemma alter_changes (f : byte → byte) i (l : bytes) : i < length l → (∀ b, f b ≠ b) → alter f i l ≠ l.
Proof.
  intros [b Hb]%lookup_lt_is_Some_2 Hf Heq.
  apply (f_equal (λ k : bytes, k !! i)) in Heq. rewrite list_lookup_alter_eq, Hb in Heq.
  injection Heq. apply Hf.
Qed.

Lemma update_Ok i f l g : i < length l → update i f l g = (Ok (alter f i l), g).
Proof. intros [b Hb]%lookup_lt_is_Some_2. unfold update, unwrap_opt. rsimpl. by rewrite Hb. Qed.

Lemma is_err_true {A} e (r : Result A) : is_err e r = true ↔ r = Err e.
Proof.
  destruct r as [a|e']; simpl; [done|]. rewrite bool_decide_eq_true. split; congruence.
Qed.

(** The one-byte changes. *)
Lemma unless_tampered pt i z :
  (Z.of_nat (length pt) < 2 ^ 52)%Z → i ≤ HEADER_LEN + length pt → (∀ b, byte_xor z b ≠ b) →
  passes_unless (tampered_frame_test pt i z) (forged_frame pt (replicate 32 x2a) BLOB_ID (alter (byte_xor z) i)).
Proof.
  intros Hpt Hi Hz. unfold tampered_frame_test. cbv zeta. apply unless_encrypt; [valid_id_literal|done|].
  intros g framed g' Henc. pose proof (honest_frame_length _ _ _ _ _ _ Henc) as Hlen.
  assert (i < length framed) as Hi' by (unfold TAG_LEN in Hlen; lia). rewrite passes_update, passes_assert by done.
  apply (changed_frame_test _ _ _ (alter (byte_xor z) i) _ _ _ Henc). by apply alter_changes.
Qed.

Lemma xor_1_changes b : byte_xor 1 b ≠ b.
Proof. by destruct b. Qed.

Lemma plaintext_length len : length (make_plaintext len) = len.
Proof. unfold make_plaintext. by rewrite length_fmap, length_seq. Qed.

(** The swap of the first two segments. *)
Definition swap_segments (framed : bytes) : bytes :=
  let ct_chunk := CHUNK_SIZE + 16 in
  let second := HEADER_LEN + ct_chunk in
  take HEADER_LEN framed ++ slice framed second (second + ct_chunk)
    ++ slice framed HEADER_LEN second ++ drop (second + ct_chunk) framed.

Lemma unless_swapped :
  passes_unless chunked_swapped_chunks_fail (λ g,
    forged_frame (make_plaintext (3 * CHUNK_SIZE + 7)) (replicate 32 x2a) BLOB_ID swap_segments g ∨
    ∃ framed g', encrypt_chunked (make_plaintext (3 * CHUNK_SIZE + 7)) (replicate 32 x2a) BLOB_ID g
                   = (Ok framed, g') ∧ swap_segments framed = framed).
Proof.
  pose proof CHUNK_SIZE_Z as Hcs. unfold chunked_swapped_chunks_fail. cbv zeta.
  apply unless_encrypt; [valid_id_literal|rewrite plaintext_length; lia|].
  intros g framed g' Henc. pose proof (honest_frame_length _ _ _ _ _ _ Henc) as Hlen.
  rewrite plaintext_length in Hlen.
  rewrite (proj2 (Nat.ltb_ge _ _)) by (unfold TAG_LEN in Hlen; lia). rewrite passes_assert.
  change (take HEADER_LEN framed ++ _) with (swap_segments framed).
  destruct (decide (swap_segments framed = framed)) as [Heq|Hne]; [right; right; eauto|].
  destruct (changed_frame_test _ _ _ _ _ _ _ Henc Hne); [by left|by right; left].
Qed.

Lemma unless_truncated :
  passes_unless chunked_truncation_fails
    (forged_frame (make_plaintext (CHUNK_SIZE + 100)) (replicate 32 x2a) BLOB_ID
       (λ l, take (length l - 20) l)).
Proof.
  pose proof CHUNK_SIZE_Z as Hcs. unfold chunked_truncation_fails. cbv zeta.
  apply unless_encrypt; [valid_id_literal|rewrite plaintext_length; lia|].
  intros g framed g' Henc. pose proof (honest_frame_length _ _ _ _ _ _ Henc) as Hlen.
  rewrite passes_assert. apply (changed_frame_test _ _ _ (λ l, take (length l - 20) l) _ _ _ Henc).
  intros Heq%(f_equal length). rewrite length_take in Heq.
  assert (HEADER_LEN = 72) by reflexivity. lia.
Qed.

Lemma unless_transplanted pt key id id' :
  valid_id id → valid_id id' → id' ≠ id → (Z.of_nat (length pt) < 2 ^ 52)%Z →
  passes_unless (framed ← unwrap_st (encrypt_chunked pt key id);
                 assert_ (is_err Aead (decrypt_chunked framed key id'))) (forged_id pt key id id').
Proof.
  intros Hid Hid' Hne Hpt. apply unless_encrypt; [done..|]. intros g framed g' Henc.
  rewrite passes_assert. by eapply transplant_test.
Qed.

(** A test on an open vault. *)
Lemma unless_open secret (k : Vault.Vault → test unit) event :
  (∀ v, Vault.open secret = Ok v → passes_unless (k v) (event v)) →
  passes_unless (v ← unwrap (Vault.open secret); k v)
    (λ g, ∃ v, Vault.open secret = Ok v ∧ event v g).
Proof.
  intros Hk g Hg. destruct (Vault.open_total secret) as (wk & mk & seed & _ & _ & _ & _ & _ & _ & Ho).
  destruct (Hk _ Ho g Hg) as [Hp|He]; [left|right; eauto].
  unfold passes_from, unwrap. rsimpl. by rewrite Ho.
Qed.

(** A rejected signature. *)
Lemma signature_of_other_message seed m m' :
  m' ≠ domain_separated m →
  let k := signing_key_from_seed seed in
  verify_strict (verifying_key k) m' (Signature_from_bytes (sig_bytes (sign_challenge k m))) = false ∨
  forged_signature seed m m'.
Proof.
  intros Hne k. unfold sign_challenge. cbn [sig_bytes]. rewrite signature_round_trip.
  destruct (verify_strict _ _ _) eqn:Hv; [right; by split|by left].
Qed.

Lemma unless_replayed :
  passes_unless tampered_nonce_fails_verification
    (λ _, forged_signature (replicate 32 x09) (lit "nonce") (domain_separated (lit "different"))).
Proof.
  intros g _. unfold tampered_nonce_fails_verification. cbv zeta. rewrite passes_assert.
  destruct (signature_of_other_message (replicate 32 x09) (lit "nonce")
    (domain_separated (lit "different"))) as [Hv|?]; [by intros ?%(inj domain_separated)|left|by right].
  unfold verify_signature, public_key_bytes. rewrite public_key_round_trip. rsimpl. by rewrite Hv.
Qed.

Lemma unless_unframed :
  let message := lit "backend-issued-nonce" in
  passes_unless signature_is_over_the_domain_separated_message
    (λ _, forged_signature (replicate 32 x09) message message ∨
          forged_signature (replicate 32 x09) message (ATTEST_DOMAIN ++ message)).
Proof.
  intros message g _. unfold signature_is_over_the_domain_separated_message. cbv zeta.
  unfold passes_from, unwrap_opt, public_key_bytes. rewrite public_key_round_trip. rsimpl.
  destruct (signature_of_other_message (replicate 32 x09) message message) as [Hv|?];
    [discriminate| |by right; left].
  destruct (signature_of_other_message (replicate 32 x09) message (ATTEST_DOMAIN ++ message)) as [Hv'|?];
    [discriminate| |by right; right].
  left. unfold message in *. rewrite Hv, Hv'.
  change ([byte_of_Z (Z.of_nat (length ATTEST_DOMAIN))] ++ ATTEST_DOMAIN ++ lit "backend-issued-nonce")
    with (domain_separated (lit "backend-issued-nonce")).
  unfold sign_challenge. cbn [sig_bytes]. by rewrite signature_round_trip, verify_sign.
Qed.

End negative.

(** ** Properties *)

Section suite.
Context `{OsRngLaws, !Supply, AesGcmLaws, HkdfLaws, Ed25519Laws, Bip39Laws}.

(** C32. The tests of what must succeed, and of what must be refused whatever the cryptography does, pass
    with every lawful implementation of the third-party crates and every entropy source that
    answers: round trips at all the boundary sizes, golden bytes, versions and headers that must
    be refused, unusable identifiers, determinism, vaults opened from a secret and from its phrase. *)
Theorem positive_tests_pass :
  Forall passes (aad_tests ++
    [derive_subkey_is_deterministic] ++
    [round_trip_field; round_trip_empty_field; empty_identifiers_are_invalid_context_on_encrypt;
     empty_identifiers_are_invalid_context_on_decrypt] ++
    [sign_and_verify_round_trip; signature_is_deterministic_for_same_seed_and_nonce] ++
    [round_trip_secret_phrase; phrase_has_24_words; generate_master_secret_succeeds] ++
    [chunked_in_memory_round_trip_all_sizes; encrypted_blob_has_version_2;
     crafted_version_1_blob_rejected; tampered_version_byte_fails; empty_blob_id_rejected_in_memory;
     chunked_tampered_chunk_size_header_rejected] ++
    [vault_blob_round_trip; vault_metadata_round_trip; vault_sign_and_verify;
     same_secret_produces_same_public_key; blob_encrypted_by_one_vault_decrypts_with_same_secret;
     vault_from_recovery_phrase_matches_open]).
Proof.
  rewrite !Forall_app. split_and!;
    eauto using aad_tests_pass, kdf_tests_pass, metadata_tests_pass, auth_tests_pass,
      recovery_tests_pass, blob_tests_pass, vault_tests_pass.
Qed.

(** C33. The tests that present something forged pass from every state of an entropy source that
    answers, unless the very forgery they present succeeds against AES-GCM or Ed25519: the frame of
    the test under the other blob id of the test, the copy of it with a changed byte in the wrapped
    key, the nonce prefix or the body, the truncated copy, the copy with two segments swapped
    (unless they are equal), the field of the test under another record or field name, the
    signature of the test for another or an unframed message. *)
Theorem negative_tests_pass :
  let key := replicate 32 x2a in
  let secret := replicate 32 x2a in
  let pt1 := make_plaintext (CHUNK_SIZE + 100) in
  let pt3 := make_plaintext (3 * CHUNK_SIZE + 7) in
  Forall (λ '(t, event), passes_unless t event)
    [(transplanted_blob_id_fails_in_memory, forged_id (lit "some data") key BLOB_ID OTHER_BLOB_ID);
     (tampered_wrapped_key_byte_fails,
      forged_frame (lit "some data") key BLOB_ID (alter (byte_xor 1) 20));
     (tampered_nonce_prefix_byte_fails,
      forged_frame (lit "some data") key BLOB_ID (alter (byte_xor 1) 61));
     (chunked_flipped_body_byte_fails, forged_frame pt1 key BLOB_ID (alter (byte_xor 1) 82));
     (chunked_truncation_fails, forged_frame pt1 key BLOB_ID (λ l, take (length l - 20) l));
     (chunked_swapped_chunks_fail, λ g, forged_frame pt3 key BLOB_ID swap_segments g ∨
        ∃ framed g', encrypt_chunked pt3 key BLOB_ID g = (Ok framed, g') ∧ swap_segments framed = framed);
     (wrong_record_id_fails, forged_field (lit "secret") (replicate 32 x07) (lit "rec-a") (lit "name")
        (lit "rec-b") (lit "name"));
     (wrong_field_name_fails, forged_field (lit "secret") (replicate 32 x07) (lit "rec-a") (lit "name")
        (lit "rec-a") (lit "other"));
     (vault_blob_transplanted_id_fails, λ g, ∃ v, Vault.open secret = Ok v ∧
        forged_id (lit "hello") (Vault.wrap_key v) (lit "doc-1") (lit "doc-2") g);
     (vault_metadata_transplanted_record_fails, λ g, ∃ v, Vault.open secret = Ok v ∧
        forged_field (lit "name=Alice") (Vault.metadata_key v) (lit "rec-1") (lit "document-record")
          (lit "rec-2") (lit "document-record") g);
     (tampered_nonce_fails_verification, λ _,
        forged_signature (replicate 32 x09) (lit "nonce") (domain_separated (lit "different")));
     (signature_is_over_the_domain_separated_message, λ _,
        forged_signature (replicate 32 x09) (lit "backend-issued-nonce") (lit "backend-issued-nonce") ∨
        forged_signature (replicate 32 x09) (lit "backend-issued-nonce")
          (ATTEST_DOMAIN ++ lit "backend-issued-nonce"))].
Proof.
  intros key secret pt1 pt3. pose proof CHUNK_SIZE_Z as Hcs.
  assert (length pt1 = CHUNK_SIZE + 100) as Hpt1 by apply plaintext_length.
  repeat apply Forall_cons_2; try apply Forall_nil_2.
  - apply unless_transplanted; [valid_id_literal|valid_id_literal|discriminate|vm_compute; reflexivity].
  - apply unless_tampered; [vm_compute; reflexivity|vm_compute; lia|apply xor_1_changes].
  - apply unless_tampered; [vm_compute; reflexivity|vm_compute; lia|apply xor_1_changes].
  - apply unless_tampered; [fold pt1; lia|fold pt1; layout_lia|apply xor_1_changes].
  - apply unless_truncated.
  - apply unless_swapped.
  - apply unless_field; [valid_id_literal..|vm_compute; discriminate|discriminate|done].
  - apply unless_field; [valid_id_literal..|vm_compute; discriminate|discriminate|done].
  - apply unless_open. intros v _.
    apply unless_transplanted; [valid_id_literal|valid_id_literal|discriminate|vm_compute; reflexivity].
  - apply unless_open. intros v _.
    apply unless_field; [valid_id_literal..|vm_compute; discriminate|discriminate|done].
  - apply unless_replayed.
  - apply unless_unframed.
Qed.

End suite.

(** ** With the concrete provider *)

#[export] Instance toy_supply : @Supply toy_rng.
Proof.
  refine {| supplied := λ g : @rng toy_rng, is_Some (g : option nat) |}.
  intros n g [k ->]. eexists _, (Some (S k)). split; [reflexivity|by eexists].
Defined.

Lemma positive_tests_pass_witness :
  supplied (toy_gen 1) ∧ passes encrypted_blob_has_version_2 ∧ passes vault_from_recovery_phrase_matches_open.
Proof.
  pose proof positive_tests_pass as Hall. rewrite !Forall_app in Hall.
  destruct Hall as (_ & _ & _ & _ & _ & Hblob & Hvault).
  split; [by exists 1|]. split.
  - exact (Forall_lookup_1 _ _ 1 _ Hblob eq_refl).
  - exact (Forall_lookup_1 _ _ 5 _ Hvault eq_refl).
Defined.

Lemma negative_tests_pass_witness :
  passes_unless transplanted_blob_id_fails_in_memory
    (forged_id (lit "some data") (replicate 32 x2a) BLOB_ID OTHER_BLOB_ID).
Proof. exact (Forall_inv negative_tests_pass). Defined.

(** Every test without a megabyte of plaintext passes, also those whose outcome rests on the
    cryptography alone: other keys, other seeds, fresh nonces, invalid keys and phrases. *)
Example small_tests_pass :
  forallb (passes_from (toy_gen 1))
    (aad_tests ++
     [derive_subkey_is_deterministic; different_contexts_produce_different_subkeys;
      round_trip_field; round_trip_empty_field; wrong_key_fails; wrong_record_id_fails;
      wrong_field_name_fails; empty_identifiers_are_invalid_context_on_encrypt;
      empty_identifiers_are_invalid_context_on_decrypt; tampered_ciphertext_fails;
      iv_is_fresh_per_encryption; sign_and_verify_round_trip;
      signature_is_over_the_domain_separated_message;
      signature_is_deterministic_for_same_seed_and_nonce;
      different_seeds_produce_different_public_keys; tampered_nonce_fails_verification;
      tampered_signature_fails_verification; invalid_public_key_fails_verification;
      round_trip_secret_phrase; phrase_has_24_words; invalid_phrase_rejected; twelve_word_phrase_rejected;
      generate_master_secret_succeeds; vault_blob_round_trip; vault_blob_transplanted_id_fails;
      vault_metadata_round_trip; vault_metadata_transplanted_record_fails; vault_sign_and_verify;
      same_secret_produces_same_public_key; different_secrets_produce_different_public_keys;
      blob_encrypted_by_one_vault_decrypts_with_same_secret; vault_from_recovery_phrase_matches_open;
      vault_from_invalid_phrase_fails; blob_from_one_vault_cannot_be_decrypted_by_different_vault;
      metadata_from_one_vault_cannot_be_decrypted_by_different_vault; encrypted_blob_has_version_2;
      transplanted_blob_id_fails_in_memory; crafted_version_1_blob_rejected;
      tampered_version_byte_fails; tampered_wrapped_key_byte_fails; tampered_nonce_prefix_byte_fails;
      empty_blob_id_rejected_in_memory; chunked_wrong_wrapping_key_fails;
      chunked_tampered_chunk_size_header_rejected]) = true.
Proof. vm_compute. reflexivity. Qed.
