(* ===== verification/FileSuite.v ===== *)
(** * The unit tests on files: what a test is

    A test function that uses files is a computation over [Io.world] that may panic. This file has
    the calls of [std::fs] that only the tests make, the files and directories that the [tempfile]
    crate provides, and a logic for such tests: they run on a file system in which no file has two
    names, with a calm schedule and an entropy source that answers, and the logic describes the
    file system by the contents of its paths. *)

From S2P Require Import Prelude Ints Errors Prims Toy Aad Segments Blob Path Process Io IoSpec.
From S2P Require Import BlobFile EncryptFile Publish DecryptFile WellFormed Suite.
From Stdlib Require Import ZArith Lia.

(** ** Definitions *)

Section file_test.
Context `{OsRng}.

Definition file_test (A : Type) : Type := io world panic A.

(** [.unwrap()] on a call of the crate and on one of [std]. *)
Definition unwrap_io {A} (m : io world FilumCryptoError A) : file_test A := io_map_err Unwrapped m.
Definition unwrap_std {A} (m : io world ErrorKind A) : file_test A :=
  io_map_err (λ _, Unwrapped_foreign) m.

(** A part of the test that uses no file. *)
Definition in_memory {A} (t : test A) : file_test A := λ w,
  let '(r, g) := t (w_rng w) in Done (r, set_rng g w).

(** [assert!(matches!(m(), Err(e)))]. *)
Definition assert_io_err {A} (e : FilumCryptoError) (m : io world FilumCryptoError A) : file_test unit :=
  r ← io_try m;
  in_memory (assert_ (is_err e r)).

(** [std::fs::write]: the file is closed when it is left. *)
Definition fs_write (p : Path) (data : bytes) : io world ErrorKind unit :=
  f ← file_create p;
  scoped f (λ _, (mret tt : io world ErrorKind unit)) (file_write_all data).

(** [io::default_read_to_end], which retries an interrupted read. *)
Fixpoint read_to_end_loop (fuel : nat) (f : File) (got : bytes) : io world ErrorKind bytes :=
  match fuel with
  | O => out_of_fuel
  | S fuel' =>
      a ← io_try (file_read f BUF_SIZE);
      match a with
      | Ok ([], _) => mret got
      | Ok (d, f') => read_to_end_loop fuel' f' (got ++ d)
      | Err Interrupted => read_to_end_loop fuel' f got
      | Err e => io_lift (Err e)
      end
  end.

Definition read_to_end (f : File) : io world ErrorKind bytes := λ w,
  read_to_end_loop (S (length (ino_data (w_fs w) (f_ino f)) + length (w_sched w))) f [] w.

(** [std::fs::read]. *)
Definition fs_read (p : Path) : io world ErrorKind bytes :=
  f ← file_open p;
  read_to_end f.

(** [p.exists()]. *)
Definition path_exists (p : Path) : file_test bool :=
  r ← io_try control;
  fs ← get_fs;
  mret (is_ok r && bool_decide (is_Some (fs_dir fs !! p))).

(** The names of the entries of a directory. *)
Definition dir_names (dir : Path) (d : gmap Path nat) : list str :=
  omap (λ x : Path * nat, if bool_decide (parent x.1 = dir) then file_name x.1 else None)
       (map_to_list d).

(** [std::fs::read_dir], the names only. *)
Definition read_dir (dir : Path) : io world ErrorKind (list str) :=
  _ ← control;
  fs ← get_fs;
  mret (dir_names dir (fs_dir fs)).

(** A [tempfile::NamedTempFile] at the path [p], which the crate chooses: created empty, and
    removed at the end of its scope, also by a panic. *)
Definition with_temp_file {A} (p : Path) (body : file_test A) : file_test A :=
  _ ← unwrap_std (file_create p);
  r ← io_try body;
  _ ← io_try (remove_file p);
  io_lift r.

Fixpoint for_each_io {E A} (l : list A) (body : A → io world E unit) : io world E unit :=
  match l with
  | [] => mret tt
  | x :: l' => _ ← body x; for_each_io l' body
  end.

(** [std::fs::remove_dir_all] of a directory of files; a directory is in the model the prefix of
    the paths of its entries, and gone with them. *)
Definition remove_dir_all (dir : Path) : io world ErrorKind unit :=
  names ← read_dir dir;
  for_each_io names (λ n, remove_file (dir ++ [Normal n])).

(** A [tempfile::TempDir], empty at first: removed at the end of its scope, also by a panic. *)
Definition with_temp_dir {A} (dir : Path) (body : file_test A) : file_test A :=
  r ← io_try body;
  _ ← io_try (remove_dir_all dir);
  io_lift r.

End file_test.

(** ** The states of a test *)

Section holds.
Context `{OsRngLaws, !Supply}.

Lemma supplied_draw n g : supplied g → supplied (try_fill_bytes n g).2.
Proof. intros Hg. by destruct (supply n g Hg) as (buf & g' & -> & ?). Qed.

(** Files apart, a source that answers, a calm schedule. *)
#[global] Program Instance test_world : WorldInvariant | 50 := {|
  inv := fs_wf; inv_rng := supplied; inv_sched os := Forall (λ o, o ≠ Fail ∧ o ≠ Intr) os |}.
Next Obligation. apply wf_write. Qed.
Next Obligation. apply wf_create. Qed.
Next Obligation. apply wf_rename. Qed.
Next Obligation. apply wf_remove. Qed.
Next Obligation. apply supplied_draw. Qed.
Next Obligation. by intros o os [_ ?]%Forall_cons. Qed.

(** The paths of [w] show [v], and its entropy source is in state [g]. *)
Definition holds (w : world) (v : gmap Path bytes) (g : rng) : Prop :=
  @world_ok _ test_world w ∧ w_rng w = g ∧ ∀ p, contents (w_fs w) p = v !! p.

(** From [v] and [g] the computation returns, in a state and with a result as [Q] says, or the
    event [F] has happened. *)
Definition triple {E A} (F : Prop) (m : io world E A) (v : gmap Path bytes) (g : rng)
    (Q : result E A → gmap Path bytes → rng → Prop) : Prop :=
  ∀ w, holds w v g →
    F ∨ ∃ r w' v' g', run (m w) = Some (r, w') ∧ holds w' v' g' ∧ Q r v' g'.

Lemma triple_wp {E A} (F : Prop) (m : io world E A) v g Q :
  @preserves _ test_world world E A _ m →
  (∀ w, holds w v g → wp m w (λ r w', ∃ v',
     (∀ p, contents (w_fs w') p = v' !! p) ∧ (supplied (w_rng w') → Q r v' (w_rng w')))) →
  triple F m v g Q.
Proof.
  intros Hp Hm w Hw. destruct (wp_run _ _ _ (Hm w Hw)) as (r & w' & Hrun & v' & Hv & HQ). right.
  assert (@world_ok _ test_world w') as Hok by exact (Hp w r w' Hrun (proj1 Hw)).
  exists r, w', v', (w_rng w'). split; [done|]. split; [done|]. apply HQ, Hok.
Qed.

Lemma triple_bind {E A B} (F : Prop) (m : io world E A) (k : A → io world E B) v g Q :
  triple F m v g (λ r v' g', match r with
                             | Ok a => triple F (k a) v' g' Q
                             | Err e => Q (Err e) v' g'
                             end) →
  triple F (m ≫= k) v g Q.
Proof.
  intros Hm w Hw. destruct (Hm w Hw) as [?|(r & w1 & v1 & g1 & Hrun & Hw1 & HQ)]; [by left|].
  destruct r as [a|e].
  - destruct (HQ w1 Hw1) as [?|(r & w2 & v2 & g2 & Hrun2 & Hw2 & HQ2)]; [by left|right].
    exists r, w2, v2, g2. split; [|done]. unfold mbind, io_bind. by rewrite run_bind, Hrun.
  - right. exists (Err e), w1, v1, g1. split; [|done]. unfold mbind, io_bind. by rewrite run_bind, Hrun.
Qed.

Lemma triple_ret {E A} (F : Prop) (a : A) v g (Q : result E A → _ → _ → Prop) :
  Q (Ok a) v g → triple F (mret a) v g Q.
Proof. intros HQ w Hw. right. by exists (Ok a), w, v, g. Qed.

Lemma triple_lift {E A} (F : Prop) (r : result E A) v g (Q : result E A → _ → _ → Prop) :
  Q r v g → triple F (io_lift r) v g Q.
Proof. intros HQ w Hw. right. by exists r, w, v, g. Qed.

Lemma triple_map_err {E E' A} (F : Prop) (f : E' → E) (m : io world E' A) v g Q :
  triple F m v g (λ r, Q (map_err f r)) → triple F (io_map_err f m) v g Q.
Proof.
  intros Hm w Hw. destruct (Hm w Hw) as [?|(r & w1 & v1 & g1 & Hrun & Hw1 & HQ)]; [by left|right].
  exists (map_err f r), w1, v1, g1. split; [|done]. unfold io_map_err. by rewrite run_bind, Hrun.
Qed.

Lemma triple_try {E E' A} (F : Prop) (m : io world E' A) v g (Q : result E (result E' A) → _ → _ → Prop) :
  triple F m v g (λ r, Q (Ok r)) → triple F (io_try m) v g Q.
Proof.
  intros Hm w Hw. destruct (Hm w Hw) as [?|(r & w1 & v1 & g1 & Hrun & Hw1 & HQ)]; [by left|right].
  exists (Ok r), w1, v1, g1. split; [|done]. unfold io_try. by rewrite run_bind, Hrun.
Qed.

Lemma triple_mono {E A} (F : Prop) (m : io world E A) v g (Q Q' : _ → _ → _ → Prop) :
  triple F m v g Q → (∀ r v' g', Q r v' g' → Q' r v' g') → triple F m v g Q'.
Proof.
  intros Hm HQ w Hw. destruct (Hm w Hw) as [?|(r & w1 & v1 & g1 & Hrun & Hw1 & ?)]; [by left|right].
  exists r, w1, v1, g1. auto.
Qed.

Lemma triple_event {E A} (F : Prop) (m : io world E A) v g Q : F → triple F m v g Q.
Proof. intros HF w Hw. by left. Qed.

(** A part in memory, by its run. *)
Lemma triple_memory {A} (F : Prop) (t : test A) v g r g' Q :
  t g = (r, g') → supplied g' → Q r v g' → triple F (in_memory t) v g Q.
Proof.
  intros Ht Hg' HQ w ((Hfs & Hh & Hg & Hs) & <- & Hv). right.
  exists r, (set_rng g' w), v, g'. unfold in_memory. rewrite Ht. done.
Qed.

Lemma triple_supplied {E A} (F : Prop) (m : io world E A) v g Q :
  (supplied g → triple F m v g Q) → triple F m v g Q.
Proof. intros Hm w Hw. pose proof Hw as ((_ & _ & Hg & _) & <- & _). by apply Hm. Qed.

End holds.

(** ** The calls of a test *)

Section views.

Lemma files_distinct (fs : filesys) p q : fs_wf fs → p ≠ q → distinct_files fs p q.
Proof. intros [_ Hnl] Hne i Hp Hq. by eapply Hne, Hnl. Qed.

(** A file created at [p] and then written. *)
Lemma created_view (fs : filesys) (v : gmap Path bytes) p i fs1 fs2 x :
  fs_wf fs → (∀ q, contents fs q = v !! q) → creates p i fs fs1 → only i fs1 fs2 →
  fs_ino fs2 !! i = Some x → ∀ q, contents fs2 q = <[p := i_data x]> v !! q.
Proof.
  intros Hwf Hv Hc Ho Hx q. destruct (decide (q = p)) as [->|Hne].
  - rewrite lookup_insert_eq. by eapply creates_write_target.
  - rewrite lookup_insert_ne, <-Hv by done.
    eapply creates_write_contents; [apply Hwf|done|done|done|by apply files_distinct].
Qed.

Lemma view_none (fs : filesys) (v : gmap Path bytes) p :
  fs_wf fs → (∀ q, contents fs q = v !! q) → fs_dir fs !! p = None ↔ v !! p = None.
Proof.
  intros [Hok _] Hv. rewrite <-Hv. unfold contents.
  destruct (fs_dir fs !! p) as [i|] eqn:Hp; simpl; [|done].
  destruct (Hok _ _ Hp) as [x ->]. done.
Qed.

End views.

Section calls.
Context `{OsRngLaws, !Supply}.

Lemma holds_calm w v g : holds w v g → calm w.
Proof. intros ((_ & _ & _ & Hs) & _). exact Hs. Qed.

Lemma holds_wf w v g : holds w v g → fs_wf (w_fs w).
Proof. intros ((Hfs & _) & _). exact Hfs. Qed.

Lemma triple_create (F : Prop) p v g Q :
  (∀ f, Q (Ok f) (<[p := []]> v) g) → triple F (file_create p) v g Q.
Proof.
  intros HQ. apply triple_wp; [apply preserves_create|]. intros w Hw.
  pose proof (holds_calm _ _ _ Hw) as Hcalm. pose proof (holds_wf _ _ _ Hw) as Hwf. destruct Hw as (_ & <- & Hv).
  eapply wp_mono; [by apply file_create_spec|].
  intros [f|e] w' (found & <- & Hr); [|by destruct Hr as [_ []%faulted_calm]].
  destruct Hr as (Hev & Hc & x & Hx & Hxd & _). exists (<[p := []]> v). rewrite <-Hxd. split.
  - by eapply created_view.
  - intros _. rewrite Hxd, (ev_rng _ _ _ Hev). apply HQ.
Qed.

Lemma preserves_fs_write `{!WorldInvariant} p d : preserves (fs_write p d).
Proof.
  apply preserves_bind; [apply preserves_create|]. intros f.
  apply preserves_scoped; [apply preserves_write_all|]. intros t. apply preserves_ret.
Qed.

Lemma triple_write (F : Prop) p d v g Q : Q (Ok tt) (<[p := d]> v) g → triple F (fs_write p d) v g Q.
Proof.
  intros HQ. apply triple_wp; [apply preserves_fs_write|]. intros w Hw.
  pose proof (holds_calm _ _ _ Hw) as Hcalm. pose proof (holds_wf _ _ _ Hw) as Hwf. destruct Hw as (_ & <- & Hv).
  apply wp_bind. eapply wp_mono; [by apply file_create_spec|].
  intros [f|e] w' (found & <- & Hr); [|by destruct Hr as [_ []%faulted_calm]]. destruct Hr as (Hev & Hc & Hf).
  apply wp_scoped. eapply wp_mono; [by apply file_write_all_spec|].
  intros r [w2 f2] (Hev2 & Hi & Hr). destruct r as [[]|e]; last first.
  { destruct Hr as [_ []%faulted_calm]. by eapply evolves_calm. }
  destruct Hr as (x & Hx & Hxd & _). simpl in Hxd. apply wp_ret.
  exists (<[p := i_data x]> v). split.
  - rewrite Hi in Hx. eapply created_view; [done|done|done|apply changes_alone, Hev2|done].
  - intros _. simpl in Hev2. simpl. by rewrite Hxd, (ev_rng _ _ _ Hev2), (ev_rng _ _ _ Hev).
Qed.

Lemma read_to_end_loop_spec fuel f got w :
  length (ino_data (w_fs w) (f_ino f)) - f_pos f + length (w_sched w) < fuel →
  wp (read_to_end_loop fuel f got) w (λ r w', evolves (eq (w_fs w)) w w' ∧
    match r with
    | Ok d => d = got ++ drop (f_pos f) (ino_data (w_fs w) (f_ino f))
    | Err _ => ¬ calm w
    end).
Proof.
  revert f got w. induction fuel as [|fuel IH]; intros f got w Hfuel; [lia|].
  cbn [read_to_end_loop]. apply wp_bind, wp_try.
  eapply wp_mono; [apply file_read_spec; [apply BUF_SIZE_pos|apply alone_frozen]|].
  intros [[d f']|e] w' [Hev Hr]; pose proof (ev_fs _ _ _ Hev) as Hfs; simpl in Hfs.
  - destruct Hr as (Hold & Hi & _ & Hnil). destruct d as [|x d].
    + apply wp_ret. split; [done|]. rewrite Hnil by done. by rewrite app_nil_r.
    + eapply wp_mono; [apply IH|].
      * rewrite Hi, <-Hfs. pose proof (evolves_fuel _ _ _ Hev).
        apply (f_equal length) in Hold. rewrite length_app, !length_drop in Hold. simpl in Hold. lia.
      * intros r w2 [Hev2 Hr]. rewrite Hi, <-Hfs in Hr. split.
        { by eapply (evolves_step eq). }
        destruct r; [by rewrite Hr, Hold, <-app_assoc|]. intros Hc. by eapply Hr, evolves_calm.
  - destruct Hr as [Hc%faulted_calm Hlt].
    assert (wp (read_to_end_loop fuel f got) w' (λ r w', evolves (eq (w_fs w)) w w' ∧
      match r with
      | Ok d => d = got ++ drop (f_pos f) (ino_data (w_fs w) (f_ino f))
      | Err _ => ¬ calm w
      end)) as Hrec.
    { eapply wp_mono; [apply IH; rewrite <-Hfs; lia|]. intros r w2 [Hev2 Hr].
      rewrite <-Hfs in Hr. split; [by eapply (evolves_step eq)|]. by destruct r. }
    destruct e; try (by apply wp_lift); exact Hrec.
Qed.

Lemma preserves_fs_read `{!WorldInvariant} p : preserves (fs_read p).
Proof.
  apply preserves_bind; [apply preserves_open|]. intros f w. unfold read_to_end.
  generalize (S (length (ino_data (w_fs w) (f_ino f)) + length (w_sched w))) as fuel. intros fuel.
  assert (∀ f got, preserves (read_to_end_loop fuel f got)) as Hl; [|exact (Hl f [] w)].
  induction fuel as [|fuel IH]; intros f1 got; cbn [read_to_end_loop]; [auto with filum|].
  apply preserves_bind; [by apply preserves_try, preserves_read|].
  intros [[[|x d] f2]|[]]; auto with filum.
Qed.

Lemma triple_read (F : Prop) p d v g Q : v !! p = Some d → Q (Ok d) v g → triple F (fs_read p) v g Q.
Proof.
  intros Hp HQ. apply triple_wp; [apply preserves_fs_read|]. intros w Hw.
  pose proof (holds_calm _ _ _ Hw) as Hcalm. pose proof (holds_wf _ _ _ Hw) as [Hok _].
  destruct Hw as (_ & <- & Hv).
  apply wp_bind. eapply wp_mono; [apply file_open_spec|].
  intros [f|e] w1 [Hev Hf]; pose proof (ev_fs _ _ _ Hev) as Hfs; simpl in Hfs; rewrite <-Hfs in Hf; last first.
  { rewrite <-Hv in Hp. unfold contents in Hp. by rewrite (Hf Hcalm) in Hp. }
  destruct Hf as [Hin Hpos]. unfold read_to_end. eapply wp_mono; [apply read_to_end_loop_spec; lia|].
  intros r w2 [Hev2 Hr]. pose proof (ev_fs _ _ _ Hev2) as Hfs2. simpl in Hfs2.
  destruct r as [d'|e]; [|by destruct Hr; eapply evolves_calm].
  exists v. rewrite <-Hfs2, <-Hfs. split; [done|]. intros _.
  rewrite Hpos, drop_0, <-Hfs in Hr. rewrite <-Hv, (contents_eq _ _ _ Hok Hin) in Hp.
  injection Hp as <-. subst d'. by rewrite (ev_rng _ _ _ Hev2), (ev_rng _ _ _ Hev).
Qed.

Lemma triple_remove (F : Prop) p d v g Q :
  v !! p = Some d → Q (Ok tt) (delete p v) g → triple F (remove_file p) v g Q.
Proof.
  intros Hp HQ. apply triple_wp; [apply preserves_remove|]. intros w Hw.
  pose proof (holds_calm _ _ _ Hw) as Hcalm. destruct Hw as (_ & <- & Hv).
  assert (∃ i, fs_dir (w_fs w) !! p = Some i) as [i Hi].
  { rewrite <-Hv in Hp. unfold contents in Hp. destruct (fs_dir (w_fs w) !! p); [by eexists|done]. }
  eapply wp_mono; [apply (remove_file_spec p i); intros fs <-; done|].
  intros [[]|e] w' (found & <- & Hev & Hr); [|by destruct Hr as [_ []%refused_calm]].
  exists (delete p v). split.
  - intros q. rewrite Hr. unfold contents. simpl. destruct (decide (q = p)) as [->|Hne].
    + by rewrite !lookup_delete_eq.
    + rewrite !lookup_delete_ne by done. apply Hv.
  - intros _. by rewrite (ev_rng _ _ _ Hev).
Qed.

End calls.

(** ** The calls of the crate *)

Section codec_calls.
Context `{OsRngLaws, !Supply, AesGcmLaws}.

Lemma triple_encrypt_file (F : Prop) input output wk id pt v g Q :
  v !! input = Some pt → input ≠ output → valid_id id → (Z.of_nat (length pt) < 2 ^ 52)%Z →
  (∀ framed g', encrypt_chunked pt wk id g = (Ok framed, g') → Q (Ok tt) (<[output := framed]> v) g') →
  triple F (encrypt_file_chunked input output wk id) v g Q.
Proof.
  intros Hin Hne Hid Hpt HQ. apply triple_wp; [apply preserves_encrypt_file|]. intros w Hw.
  pose proof (holds_calm _ _ _ Hw) as Hcalm. pose proof (holds_wf _ _ _ Hw) as Hwf.
  destruct Hw as ((_ & _ & Hg & _) & <- & Hv).
  eapply wp_mono; [apply encrypt_file_result; [apply Hwf|by apply files_distinct]|].
  intros r w'. cbv zeta. rewrite Hv, Hin. simpl default.
  destruct (encrypt_chunked_supplied pt wk id (w_rng w) Hg Hid Hpt) as (framed & g' & E & _). rewrite E.
  intros (Hrng & Hothers & Hr). destruct r as [[]|e].
  - destruct Hr as (_ & framed' & [= <-] & Hout). exists (<[output := framed]> v). split.
    + intros q. destruct (decide (q = output)) as [->|Hq]; [by rewrite lookup_insert_eq|].
      rewrite lookup_insert_ne, <-Hv by done. apply Hothers; [done|]. by apply files_distinct.
    + intros _. rewrite Hrng. by apply HQ.
  - destruct Hr as [[[=]|[_ Hc]] _]. destruct (Hc Hcalm) as [Hnone _]. by rewrite Hv, Hin in Hnone.
Qed.

(** No temporary name that the decoder may choose is taken. *)
Definition no_temps (v : gmap Path bytes) (output : Path) : Prop :=
  ∀ name suffix, file_name output = Some name → length suffix = 8 →
                 v !! (parent output ++ [Normal (name ++ temp_suffix suffix)]) = None.

Lemma triple_decrypt_file (F : Prop) input output wk id framed v g Q :
  v !! input = Some framed → HEADER_LEN ≤ length framed → valid_id id →
  Forall component_ok output → is_Some (file_name output) → no_temps v output →
  (∀ pt g', decrypt_chunked framed wk id = Ok pt → ¬ whole_segments framed → supplied g' →
            Q (Ok tt) (<[output := pt]> v) g') →
  (∀ g', decrypt_chunked framed wk id = Err Aead ∨ whole_segments framed → supplied g' →
         Q (Err Aead) v g') →
  triple F (decrypt_file_chunked input output wk id) v g Q.
Proof.
  intros Hin Hlen Hid Hout [name Hname] Htemps HOk HErr.
  apply triple_wp; [apply preserves_decrypt_file|]. intros w Hw.
  pose proof (holds_calm _ _ _ Hw) as Hcalm. pose proof (holds_wf _ _ _ Hw) as Hwf.
  destruct Hw as ((_ & _ & Hg & _) & <- & Hv). pose proof Hwf as [Hok _].
  assert (temp_free w output) as Hfree.
  { intros tmp g' (name' & suffix & Hn & Hl & _ & ->)%sibling_temp_path_inv; [|done].
    apply (view_none _ v); [done..|]. by apply Htemps. }
  rewrite <-Hv in Hin. eapply wp_mono; [by apply decrypt_file_spec|].
  intros r w' (_ & Hext & Hr). destruct r as [[]|e].
  - destruct Hr as (framed' & pt & i & Hin' & Hdec & Hwhole & _ & Hdir & Hi).
    assert (framed' = framed) as -> by congruence. exists (<[output := pt]> v).
    split; [|by intros Hg'; apply HOk]. intros q. destruct (decide (q = output)) as [->|Hq].
    + unfold contents. rewrite Hdir, !lookup_insert_eq. simpl. by rewrite Hi.
    + rewrite lookup_insert_ne, <-Hv by done. apply extends_contents; [done..|].
      by rewrite Hdir, lookup_insert_ne.
  - destruct Hr as [Hdir He]. exists v. split.
    + intros q. rewrite <-Hv. destruct Hdir as [Hdir|[Hc%cleanup_refused_calm _]]; [|done].
      apply extends_contents; [done..|by rewrite Hdir].
    + intros Hg'. rewrite Hin in He. destruct e; simpl in He; try done.
      * by apply HErr.
      * destruct (supply 8 (w_rng w) Hg) as (b & g' & E & _). by rewrite E in He.
      * destruct (He Hcalm) as [?|[?|?]]; [congruence|lia|congruence].
Qed.

(** An id that is refused is refused before anything happens. *)
Lemma triple_encrypt_empty_id (F : Prop) input output wk v g Q :
  Q (Err InvalidContext) v g → triple F (encrypt_file_chunked input output wk []) v g Q.
Proof. intros HQ w Hw. right. by exists (Err InvalidContext), w, v, g. Qed.

Lemma triple_decrypt_empty_id (F : Prop) input output wk v g Q :
  Q (Err InvalidContext) v g → triple F (decrypt_file_chunked input output wk []) v g Q.
Proof. intros HQ w Hw. right. by exists (Err InvalidContext), w, v, g. Qed.

End codec_calls.

(** ** Tests *)

Section test_rules.
Context `{OsRngLaws, !Supply}.

(** The test passes, from every state that shows [v], and leaves [v'], or the event has happened. *)
Definition file_test_passes (F : Prop) (t : file_test unit) (v v' : gmap Path bytes) (g : rng) : Prop :=
  triple F t v g (λ r v1 _, r = Ok tt ∧ v1 = v').

Lemma triple_unwrap_io {A} (F : Prop) (m : io world FilumCryptoError A) v g Q :
  triple F m v g (λ r, Q (map_err Unwrapped r)) → triple F (unwrap_io m) v g Q.
Proof. apply triple_map_err. Qed.

Lemma triple_unwrap_std {A} (F : Prop) (m : io world ErrorKind A) v g Q :
  triple F m v g (λ r, Q (map_err (λ _, Unwrapped_foreign) r)) → triple F (unwrap_std m) v g Q.
Proof. apply triple_map_err. Qed.

Lemma triple_assert (F : Prop) b v g Q :
  (supplied g → b = true ∨ F) → Q (Ok tt) v g → triple F (in_memory (assert_ b)) v g Q.
Proof.
  intros Hb HQ. apply triple_supplied. intros Hg. destruct (Hb Hg) as [->|HF]; [|by apply triple_event].
  by eapply triple_memory.
Qed.

(** A temporary file that the body leaves in place is gone afterwards. *)
Lemma triple_temp (F : Prop) {A} p (body : file_test A) v g Q :
  v !! p = None →
  triple F body (<[p := []]> v) g (λ r v' g', is_Some (v' !! p) ∧ Q r (delete p v') g') →
  triple F (with_temp_file p body) v g Q.
Proof.
  intros Hp Hbody. unfold with_temp_file. apply triple_bind, triple_unwrap_std, triple_create.
  intros f. simpl. apply triple_bind, triple_try. eapply triple_mono; [exact Hbody|].
  intros r v' g' [[d Hd] HQ]. apply triple_bind, triple_try.
  eapply triple_remove; [exact Hd|]. by apply triple_lift.
Qed.

Lemma triple_for_each (F : Prop) {E A} (l : list A) (body : A → io world E unit) (v : gmap Path bytes) g Q :
  (∀ x g', x ∈ l → supplied g' → triple F (body x) v g' (λ r v1 _, r = Ok tt ∧ v1 = v)) →
  (∀ g', Q (Ok tt) v g') → triple F (for_each_io l body) v g Q.
Proof.
  intros Hl HQ. revert g. induction l as [|x l IH]; intros g; [by apply triple_ret|].
  cbn [for_each_io]. apply triple_supplied. intros Hg. apply triple_bind.
  eapply triple_mono; [apply Hl; [by apply elem_of_cons; left|done]|].
  intros r v' g' [-> ->]. apply IH. intros y g2 Hy. apply Hl. by apply elem_of_cons; right.
Qed.

(** The existence of a path. *)
Lemma triple_exists (F : Prop) p v g (Q : result panic bool → _ → _ → Prop) :
  Q (Ok (bool_decide (is_Some (v !! p)))) v g → triple F (path_exists p) v g Q.
Proof.
  intros HQ. apply triple_wp.
  { apply preserves_bind; [apply preserves_try, preserves_control|]. intros r.
    apply preserves_get_fs. intros fs _. apply preserves_ret. }
  intros w Hw. pose proof (holds_calm _ _ _ Hw) as Hcalm. pose proof (holds_wf _ _ _ Hw) as Hwf.
  destruct Hw as (_ & <- & Hv). apply wp_bind, wp_try, wp_control. intros r w' [Hev Hfs] Hr.
  destruct r as [u|e]; [|by apply refused_calm in Hr]. simpl in Hfs. apply wp_bind, wp_get_fs, wp_ret.
  exists v. rewrite <-Hfs. split; [done|]. intros _. rewrite (ev_rng _ _ _ Hev). simpl.
  replace (bool_decide (is_Some (fs_dir (w_fs w) !! p))) with (bool_decide (is_Some (v !! p))); [done|].
  apply bool_decide_ext. rewrite <-!not_eq_None_Some. apply not_iff_compat. symmetry. by apply view_none.
Qed.

(** The entries of a directory, in any order. *)
Lemma elem_of_dir_names dir d n :
  n ∈ dir_names dir d ↔ is_Some (d !! (dir ++ [Normal n])).
Proof.
  unfold dir_names. rewrite list_elem_of_omap. split.
  - intros ([p i] & Hp%elem_of_map_to_list & Hn). simpl in Hn. case_bool_decide as Hd; [|done].
    apply file_name_Some in Hn. rewrite Hd in Hn. rewrite <-Hn. by eexists.
  - intros [i Hi]. exists (dir ++ [Normal n], i). rewrite elem_of_map_to_list. split; [done|]. simpl.
    unfold parent, file_name. by rewrite removelast_last, bool_decide_true, last_snoc.
Qed.

Lemma dir_names_NoDup dir d : NoDup (dir_names dir d).
Proof.
  unfold dir_names. pose proof (NoDup_fst_map_to_list d) as Hnd.
  induction (map_to_list d) as [|[p i] l IH]; simpl; [constructor|].
  simpl in Hnd. apply NoDup_cons in Hnd as [Hp Hnd].
  case_bool_decide as Hd; [|by apply IH].
  destruct (file_name p) as [n|] eqn:Hn; [|by apply IH]. constructor; [|by apply IH].
  intros ([q j] & Hq & Hqn)%list_elem_of_omap. simpl in Hqn. case_bool_decide as Hqd; [|done].
  apply Hp. apply file_name_Some in Hn, Hqn. rewrite Hn, Hd, <-Hqd, <-Hqn.
  apply list_elem_of_fmap. by exists (q, j).
Qed.

Lemma triple_read_dir (F : Prop) dir v g Q :
  (∀ names, NoDup names → (∀ n, n ∈ names ↔ is_Some (v !! (dir ++ [Normal n]))) → Q (Ok names) v g) →
  triple F (read_dir dir) v g Q.
Proof.
  intros HQ. apply triple_wp.
  { apply preserves_bind; [apply preserves_control|]. intros r.
    apply preserves_get_fs. intros fs _. apply preserves_ret. }
  intros w Hw. pose proof (holds_calm _ _ _ Hw) as Hcalm. pose proof (holds_wf _ _ _ Hw) as Hwf.
  destruct Hw as (_ & <- & Hv). apply wp_bind, wp_control. intros r w' [Hev Hfs] Hr.
  destruct r as [u|e]; [|by apply refused_calm in Hr]. simpl in Hfs. apply wp_bind, wp_get_fs, wp_ret.
  exists v. rewrite <-Hfs. split; [done|]. intros _. rewrite (ev_rng _ _ _ Hev). apply HQ.
  - apply dir_names_NoDup.
  - intros n. rewrite elem_of_dir_names, <-!not_eq_None_Some. apply not_iff_compat. by apply view_none.
Qed.

(** Removing the entries of a directory that were not there in [v0]. *)
Lemma triple_remove_entries (F : Prop) (dir : Path) (names : list str) (v v0 : gmap Path bytes) g
    (Q : result ErrorKind unit → _ → _ → Prop) :
  NoDup names → (∀ n, n ∈ names → is_Some (v !! (dir ++ [Normal n])) ∧ v0 !! (dir ++ [Normal n]) = None) →
  (∀ p, (∀ n, n ∈ names → p ≠ dir ++ [Normal n]) → v !! p = v0 !! p) → Q (Ok tt) v0 g →
  triple F (for_each_io names (λ n, remove_file (dir ++ [Normal n]))) v g Q.
Proof.
  intros Hnd Hin Hout HQ. revert v Hin Hout. induction Hnd as [|n names Hn Hnd IH]; intros v Hin Hout.
  - apply triple_ret. assert (v = v0) as -> by (apply map_eq; intros p; apply Hout; by intros ? ?%not_elem_of_nil).
    exact HQ.
  - cbn [for_each_io]. destruct (Hin n) as [[d Hd] Hd0]; [apply elem_of_cons; by left|].
    apply triple_bind. eapply triple_remove; [exact Hd|]. apply IH.
    + intros m Hm. rewrite lookup_delete_ne; [apply Hin, elem_of_cons; by right|].
      intros [=->]%app_inv_head. done.
    + intros p Hp. rewrite lookup_delete. case_decide as Hpn; [by rewrite <-Hpn|].
      apply Hout. intros m [->|Hm]%elem_of_cons; [by intros ->|by apply Hp].
Qed.

(** What the body puts into the directory is gone afterwards. *)
Lemma triple_temp_dir (F : Prop) {A} (dir : Path) (body : file_test A) (v : gmap Path bytes) g Q :
  (∀ n, v !! (dir ++ [Normal n]) = None) →
  triple F body v g (λ r v' g', (∀ p, (∀ n, p ≠ dir ++ [Normal n]) → v' !! p = v !! p) ∧ Q r v g') →
  triple F (with_temp_dir dir body) v g Q.
Proof.
  intros Hfree Hbody. apply triple_bind, triple_try. eapply triple_mono; [exact Hbody|].
  intros r v' g' [Hv' HQ]. apply triple_bind, triple_try, triple_bind, triple_read_dir.
  intros names Hnd Hnames. apply (triple_remove_entries _ _ _ _ v); [done|..|by apply triple_lift].
  - intros n Hn. split; [by apply Hnames|apply Hfree].
  - intros p Hp. destruct (v !! p) as [d|] eqn:Hp0.
    + rewrite <-Hp0. apply Hv'. intros n ->. by rewrite Hfree in Hp0.
    + destruct (v' !! p) as [d|] eqn:Hd; [|done]. rewrite <-Hd, <-Hp0. apply Hv'.
      intros n ->. apply (Hp n); [|done]. apply Hnames. by eexists.
Qed.

End test_rules.
