(* ===== verification/FileTests.v ===== *)
(** * The unit tests of [blob.rs] on files

    The test functions that encrypt and decrypt files, as programs over [Io.world]. The paths of
    the temporary files and directories, which the [tempfile] crate chooses, are parameters. *)

From S2P Require Import Prelude Ints Errors Prims Toy Aad Segments Blob Path Process Io IoSpec.
From S2P Require Import BlobFile EncryptFile Publish DecryptFile WellFormed Integrity Suite Tests FileSuite.
From Stdlib Require Import ZArith Lia.

(** ** Definitions *)

Section tests.
Context `{OsRng, AesGcm}.

(** [tempfile::NamedTempFile::new()] gives the files [src], [enc] and [dec]. *)
Context (src enc dec : Path).

Definition chunked_file_round_trip_all_sizes : file_test unit :=
  let key := replicate 32 x2a in
  for_each_io SIZES (λ len,
    let pt := make_plaintext len in
    with_temp_file src (
      _ ← unwrap_std (fs_write src pt);
      with_temp_file enc (with_temp_file dec (
        _ ← unwrap_io (encrypt_file_chunked src enc key BLOB_ID);
        _ ← unwrap_io (decrypt_file_chunked enc dec key BLOB_ID);
        recovered ← unwrap_std (fs_read dec);
        in_memory (assert_eq recovered pt))))).

Definition in_memory_and_file_formats_are_interchangeable : file_test unit :=
  let key := replicate 32 x2a in
  for_each_io SIZES (λ len,
    let pt := make_plaintext len in
    _ ← (framed ← in_memory (unwrap_st (encrypt_chunked pt key BLOB_ID));
         with_temp_file enc (
           _ ← unwrap_std (fs_write enc framed);
           with_temp_file dec (
             _ ← unwrap_io (decrypt_file_chunked enc dec key BLOB_ID);
             recovered ← unwrap_std (fs_read dec);
             in_memory (assert_eq recovered pt))));
    with_temp_file src (
      _ ← unwrap_std (fs_write src pt);
      with_temp_file enc (
        _ ← unwrap_io (encrypt_file_chunked src enc key BLOB_ID);
        framed ← unwrap_std (fs_read enc);
        recovered ← in_memory (unwrap (decrypt_chunked framed key BLOB_ID));
        in_memory (assert_eq recovered pt)))).

Definition transplanted_blob_id_fails_file_codec : file_test unit :=
  let key := replicate 32 x2a in
  with_temp_file src (
    _ ← unwrap_std (fs_write src (lit "some data"));
    with_temp_file enc (
      _ ← unwrap_io (encrypt_file_chunked src enc key BLOB_ID);
      with_temp_file dec (
        assert_io_err Aead (decrypt_file_chunked enc dec key OTHER_BLOB_ID)))).

Definition transplanted_blob_id_fails_mem_encrypt_file_decrypt : file_test unit :=
  let key := replicate 32 x2a in
  framed ← in_memory (unwrap_st (encrypt_chunked (lit "some data") key BLOB_ID));
  with_temp_file enc (
    _ ← unwrap_std (fs_write enc framed);
    with_temp_file dec (
      assert_io_err Aead (decrypt_file_chunked enc dec key OTHER_BLOB_ID))).

Definition transplanted_blob_id_fails_file_encrypt_mem_decrypt : file_test unit :=
  let key := replicate 32 x2a in
  with_temp_file src (
    _ ← unwrap_std (fs_write src (lit "some data"));
    with_temp_file enc (
      _ ← unwrap_io (encrypt_file_chunked src enc key BLOB_ID);
      framed ← unwrap_std (fs_read enc);
      in_memory (assert_ (is_err Aead (decrypt_chunked framed key OTHER_BLOB_ID))))).

Definition empty_blob_id_rejected_file_codec : file_test unit :=
  let key := replicate 32 x2a in
  with_temp_file src (
    _ ← unwrap_std (fs_write src (lit "some data"));
    with_temp_file enc (
      _ ← assert_io_err InvalidContext (encrypt_file_chunked src enc key []);
      _ ← unwrap_io (encrypt_file_chunked src enc key BLOB_ID);
      with_temp_file dec (
        assert_io_err InvalidContext (decrypt_file_chunked enc dec key [])))).

(** [tempfile::tempdir()] gives the directory [dir]. *)
Context (dir : Path).

(** Both lists of names are sorted and then compared. *)
Definition assert_dir_contains_exactly (expected : list str) : file_test unit :=
  names ← unwrap_std (read_dir dir);
  in_memory (assert_ (bool_decide (names ≡ₚ expected))).

Definition decrypt_file_success_leaves_only_output : file_test unit :=
  let key := replicate 32 x2a in
  let pt := make_plaintext (3 * CHUNK_SIZE + 7) in
  framed ← in_memory (unwrap_st (encrypt_chunked pt key BLOB_ID));
  with_temp_dir dir (
    let enc_path := push dir (lit "blob.enc") in
    _ ← unwrap_std (fs_write enc_path framed);
    let out_path := push dir (lit "out.bin") in
    _ ← unwrap_io (decrypt_file_chunked enc_path out_path key BLOB_ID);
    recovered ← unwrap_std (fs_read out_path);
    _ ← in_memory (assert_eq recovered pt);
    assert_dir_contains_exactly [lit "blob.enc"; lit "out.bin"]).

(** The end of the tests in which a blob must be refused and leave nothing behind: the part of it
    that is written to the file, the key it is opened with, and whether [out_path.exists()] is asked. *)
Definition failed_decrypt_test (framed : bytes) (part : bytes → test bytes) (key2 : bytes)
    (looked_for : bool) : file_test unit :=
  with_temp_dir dir (
    let enc_path := push dir (lit "blob.enc") in
    written ← in_memory (part framed);
    _ ← unwrap_std (fs_write enc_path written);
    let out_path := push dir (lit "out.bin") in
    _ ← assert_io_err Aead (decrypt_file_chunked enc_path out_path key2 BLOB_ID);
    _ ← (if looked_for then e ← path_exists out_path; in_memory (assert_ (negb e)) else mret tt);
    assert_dir_contains_exactly [lit "blob.enc"]).

(** [&framed[..cut]] panics beyond the end. *)
Definition decrypt_file_truncated_at_segment_boundary_leaves_no_output : file_test unit :=
  let key := replicate 32 x2a in
  let pt := make_plaintext (3 * CHUNK_SIZE + 7) in
  framed ← in_memory (unwrap_st (encrypt_chunked pt key BLOB_ID));
  let cut := HEADER_LEN + 2 * (CHUNK_SIZE + 16) in
  failed_decrypt_test framed
    (λ framed, if length framed <? cut then st_lift (Err Assertion_failed) else mret (take cut framed))
    key true.

Definition decrypt_file_tampered_midstream_leaves_no_output : file_test unit :=
  let key := replicate 32 x2a in
  let pt := make_plaintext (2 * CHUNK_SIZE + 100) in
  framed ← in_memory (unwrap_st (encrypt_chunked pt key BLOB_ID));
  framed ← in_memory (update (HEADER_LEN + (CHUNK_SIZE + 16) + 10) (byte_xor 1) framed);
  failed_decrypt_test framed mret key true.

Definition decrypt_file_wrong_key_creates_no_files : file_test unit :=
  let key1 := replicate 32 x2a in
  let key2 := replicate 32 x2b in
  framed ← in_memory (unwrap_st (encrypt_chunked (lit "some data") key1 BLOB_ID));
  failed_decrypt_test framed mret key2 false.

End tests.

(** ** What the tests rely on *)

(** The three temporary files are new and different, [dec] can be written to by the decoder, and no
    temporary name that the decoder may choose for it is taken. *)
Record temp_files (v : gmap Path bytes) (src enc dec : Path) : Prop := {
  tf_distinct : src ≠ enc ∧ enc ≠ dec ∧ src ≠ dec;
  tf_free : v !! src = None ∧ v !! enc = None ∧ v !! dec = None;
  tf_dec : Forall component_ok dec ∧ is_Some (file_name dec);
  tf_temps name suffix :
    file_name dec = Some name → length suffix = 8 →
    let tmp := parent dec ++ [Normal (name ++ temp_suffix suffix)] in
    v !! tmp = None ∧ tmp ≠ src ∧ tmp ≠ enc;
}.

(** The temporary directory is empty. *)
Definition temp_dir (v : gmap Path bytes) (dir : Path) : Prop :=
  Forall component_ok dir ∧ ∀ n, v !! (dir ++ [Normal n]) = None.

(** Equations between views, path by path. *)
Ltac view_eq :=
  rewrite ?lookup_delete, ?lookup_insert; repeat case_decide; subst;
  first [exfalso; congruence|done|congruence|by eexists].

(** The end of a test: the temporary files are as their scopes need them, and then gone. *)
Ltac cleaned_up := split_and!; first [view_eq|apply map_eq; intros q; view_eq].

(** The next step of a test, by the rule of the call. *)
Ltac file_step :=
  lazymatch goal with
  | |- triple _ (mbind _ _) _ _ _ => apply triple_bind
  | |- triple _ (unwrap_io _) _ _ _ => apply triple_unwrap_io
  | |- triple _ (unwrap_std _) _ _ _ => apply triple_unwrap_std
  | |- triple _ (fs_write _ _) _ _ _ => apply triple_write; cbn [map_err]
  | |- triple _ (fs_read _) _ _ _ => eapply triple_read; [view_eq|]; cbn [map_err]
  | |- triple _ (io_try _) _ _ _ => apply triple_try
  | |- triple _ (assert_io_err _ _) _ _ _ => unfold assert_io_err
  | |- triple _ (with_temp_file _ _) _ _ _ => apply triple_temp; [view_eq|]
  | |- triple _ (in_memory (assert_eq ?x ?x)) _ _ _ =>
      apply triple_assert; [intros _; left; by apply bool_decide_eq_true|]
  | |- triple _ (in_memory (assert_ (is_err ?e (Err ?e)))) _ _ _ =>
      apply triple_assert; [intros _; left; by apply bool_decide_eq_true|]
  | |- triple _ (mret _) _ _ _ => apply triple_ret
  end.

Section proofs.
Context `{OsRngLaws, !Supply, AesGcmLaws}.

Lemma in_memory_encrypt (F : Prop) pt key id v g Q :
  valid_id id → (Z.of_nat (length pt) < 2 ^ 52)%Z →
  (∀ framed g', encrypt_chunked pt key id g = (Ok framed, g') → Q (Ok framed) v g') →
  triple F (in_memory (unwrap_st (encrypt_chunked pt key id))) v g Q.
Proof.
  intros Hid Hpt HQ. apply triple_supplied. intros Hg.
  destruct (encrypt_chunked_supplied pt key id g Hg Hid Hpt) as (framed & g' & E & Hg').
  eapply triple_memory; [|exact Hg'|by apply HQ].
  unfold unwrap_st, result_of, unwrap. rsimpl. by rewrite E.
Qed.

(** The decoder on the honest frame. *)
Lemma decrypt_honest_file (F : Prop) input output pt key id g0 framed g0' v g Q :
  encrypt_chunked pt key id g0 = (Ok framed, g0') → v !! input = Some framed →
  Forall component_ok output → is_Some (file_name output) → no_temps v output →
  (∀ g', supplied g' → Q (Ok tt) (<[output := pt]> v) g') →
  triple F (decrypt_file_chunked input output key id) v g Q.
Proof.
  intros Henc Hin Hout Hname Htemps HQ.
  destruct (encrypted_not_whole _ _ _ _ _ _ Henc) as (Hlen & Hid & Hw).
  pose proof (decrypt_encrypted _ _ _ _ _ _ Henc) as Hdec.
  eapply triple_decrypt_file; [exact Hin|done..| |].
  - intros pt' g' Hpt' _ Hg'. assert (pt' = pt) as -> by congruence. by apply HQ.
  - intros g' [Hbad|Hbad] _; [congruence|done].
Qed.

(** The decoder on a file that it must refuse. *)
Lemma decrypt_refused_file (F : Prop) input output wk id framed v g Q :
  decrypt_chunked framed wk id = Err Aead ∨ whole_segments framed ∨ F →
  v !! input = Some framed → HEADER_LEN ≤ length framed → valid_id id →
  Forall component_ok output → is_Some (file_name output) → no_temps v output →
  (∀ g', supplied g' → Q (Err Aead) v g') →
  triple F (decrypt_file_chunked input output wk id) v g Q.
Proof.
  intros Hbad Hin Hlen Hid Hout Hname Htemps HQ.
  destruct Hbad as [Hbad|[Hbad|HF]]; [| |by apply triple_event];
    (eapply triple_decrypt_file; [exact Hin|done..| |by intros; apply HQ]); intros pt g' Hdec Hw; congruence.
Qed.

Context (v : gmap Path bytes) (src enc dec : Path) (Htf : temp_files v src enc dec).

(** Nor is a temporary name taken when only the three files have changed. *)
Lemma temps_ok v' : (∀ q, q ≠ src → q ≠ enc → q ≠ dec → v' !! q = v !! q) → no_temps v' dec.
Proof.
  intros Hv' name suffix Hn Hl. destruct (tf_temps _ _ _ _ Htf _ _ Hn Hl) as (Ht & Hts & Hte).
  rewrite Hv'; [done..|]. by apply temp_path_ne.
Qed.

Ltac temps := apply temps_ok; intros ? ? ? ?; view_eq.

Let Hse : src ≠ enc := proj1 (tf_distinct _ _ _ _ Htf).
Let Hed : enc ≠ dec := proj1 (proj2 (tf_distinct _ _ _ _ Htf)).
Let Hsd : src ≠ dec := proj2 (proj2 (tf_distinct _ _ _ _ Htf)).
Let Hs : v !! src = None := proj1 (tf_free _ _ _ _ Htf).
Let He : v !! enc = None := proj1 (proj2 (tf_free _ _ _ _ Htf)).
Let Hd : v !! dec = None := proj2 (proj2 (tf_free _ _ _ _ Htf)).
Let Hdok : Forall component_ok dec := proj1 (tf_dec _ _ _ _ Htf).
Let Hdn : is_Some (file_name dec) := proj2 (tf_dec _ _ _ _ Htf).

Lemma round_trip_files_pass (F : Prop) g :
  file_test_passes F (chunked_file_round_trip_all_sizes src enc dec) v v g.
Proof.
  apply triple_for_each; [|done]. intros len g0 Hlen%sizes_small _. cbv zeta.
  repeat file_step. eapply triple_encrypt_file; [view_eq|done|valid_id_literal|exact Hlen|].
  intros framed g1 Henc. cbn [map_err]. repeat file_step.
  eapply decrypt_honest_file; [exact Henc|view_eq|done|done|temps|]. intros g2 _. cbn [map_err].
  repeat file_step. cleaned_up.
Qed.

Lemma formats_pass (F : Prop) g :
  file_test_passes F (in_memory_and_file_formats_are_interchangeable src enc dec) v v g.
Proof.
  apply triple_for_each; [|done]. intros len g0 Hlen%sizes_small _. cbv zeta. do 2 file_step.
  apply in_memory_encrypt; [valid_id_literal|exact Hlen|]. intros framed g1 Henc.
  repeat file_step.
  eapply decrypt_honest_file; [exact Henc|view_eq|done|done|temps|]. intros g2 _. cbn [map_err].
  repeat file_step. split_and!; [view_eq..|].
  replace (delete enc _) with v by (symmetry; apply map_eq; intros q; view_eq). repeat file_step.
  eapply triple_encrypt_file; [view_eq|done|valid_id_literal|exact Hlen|].
  intros framed' g3 Henc'. cbn [map_err]. repeat file_step.
  apply triple_supplied. intros Hg3.
  eapply triple_memory; [|exact Hg3|].
  { unfold unwrap. by rewrite (decrypt_encrypted _ _ _ _ _ _ Henc'). }
  cbn [map_err]. repeat file_step. cleaned_up.
Qed.

Lemma transplanted_frame framed g g' :
  encrypt_chunked (lit "some data") (replicate 32 x2a) BLOB_ID g = (Ok framed, g') →
  decrypt_chunked framed (replicate 32 x2a) OTHER_BLOB_ID = Err Aead ∨
  forged_id (lit "some data") (replicate 32 x2a) BLOB_ID OTHER_BLOB_ID g.
Proof.
  intros Henc. destruct (transplant_test _ _ _ OTHER_BLOB_ID _ _ _ Henc) as [Herr|HF];
    [valid_id_literal|discriminate| |by right].
  left. destruct (decrypt_chunked framed _ OTHER_BLOB_ID) as [|e]; [done|]. by apply bool_decide_eq_true in Herr as ->.
Qed.

Lemma transplanted_file_pass g :
  file_test_passes (forged_id (lit "some data") (replicate 32 x2a) BLOB_ID OTHER_BLOB_ID g)
    (transplanted_blob_id_fails_file_codec src enc dec) v v g.
Proof.
  unfold file_test_passes, transplanted_blob_id_fails_file_codec. cbv zeta. repeat file_step.
  eapply triple_encrypt_file; [view_eq|done|valid_id_literal|vm_compute; reflexivity|].
  intros framed g1 Henc. cbn [map_err]. repeat file_step.
  destruct (encrypted_not_whole _ _ _ _ _ _ Henc) as (Hlen & _ & _).
  eapply (decrypt_refused_file _ _ _ _ _ framed);
    [destruct (transplanted_frame _ _ _ Henc); auto|view_eq|done|valid_id_literal|done|done|temps|].
  intros g2 _. repeat file_step. cleaned_up.
Qed.

Lemma transplanted_mem_file_pass g :
  file_test_passes (forged_id (lit "some data") (replicate 32 x2a) BLOB_ID OTHER_BLOB_ID g)
    (transplanted_blob_id_fails_mem_encrypt_file_decrypt enc dec) v v g.
Proof.
  unfold file_test_passes, transplanted_blob_id_fails_mem_encrypt_file_decrypt. cbv zeta. file_step.
  apply in_memory_encrypt; [valid_id_literal|vm_compute; reflexivity|]. intros framed g1 Henc. repeat file_step.
  destruct (encrypted_not_whole _ _ _ _ _ _ Henc) as (Hlen & _ & _).
  eapply (decrypt_refused_file _ _ _ _ _ framed);
    [destruct (transplanted_frame _ _ _ Henc); auto|view_eq|done|valid_id_literal|done|done|temps|].
  intros g2 _. repeat file_step. cleaned_up.
Qed.

Lemma transplanted_file_mem_pass g :
  file_test_passes (forged_id (lit "some data") (replicate 32 x2a) BLOB_ID OTHER_BLOB_ID g)
    (transplanted_blob_id_fails_file_encrypt_mem_decrypt src enc) v v g.
Proof.
  unfold file_test_passes, transplanted_blob_id_fails_file_encrypt_mem_decrypt. cbv zeta. repeat file_step.
  eapply triple_encrypt_file; [view_eq|done|valid_id_literal|vm_compute; reflexivity|].
  intros framed g1 Henc. cbn [map_err]. repeat file_step.
  apply triple_assert; [|cleaned_up]. intros _.
  destruct (transplanted_frame _ _ _ Henc) as [->|]; [by left|by right].
Qed.

Lemma empty_id_file_pass (F : Prop) g :
  file_test_passes F (empty_blob_id_rejected_file_codec src enc dec) v v g.
Proof.
  unfold file_test_passes, empty_blob_id_rejected_file_codec. cbv zeta. repeat file_step.
  apply triple_encrypt_empty_id. repeat file_step.
  eapply triple_encrypt_file; [view_eq|done|valid_id_literal|vm_compute; reflexivity|].
  intros framed g1 Henc. cbn [map_err]. repeat file_step.
  apply triple_decrypt_empty_id. repeat file_step. cleaned_up.
Qed.

End proofs.

(** ** The tests in a temporary directory *)

(** The wrapped key of the frame opens under another key. *)
Definition opened_with `{OsRng, AesGcm} (pt key : bytes) (id : str) (key2 : bytes) (g : rng) : Prop :=
  ∃ framed g' wa, encrypt_chunked pt key id g = (Ok framed, g') ∧
    let w := slice framed 1 61 in
    blob_wrap_aad id VERSION (slice framed 61 68) chunk_size_be = Ok wa ∧
    is_Some (decrypt (aes_new key2) (take 12 w) {| msg := drop 12 w; aad := wa |}).

Section dir_proofs.
Context `{OsRngLaws, !Supply, AesGcmLaws}.

(** A frame that opens has a wrapped key that opens. *)
Lemma other_key_test pt key id key2 g framed g' :
  encrypt_chunked pt key id g = (Ok framed, g') →
  decrypt_chunked framed key2 id = Err Aead ∨ opened_with pt key id key2 g.
Proof.
  intros Henc. destruct (encrypted_not_whole _ _ _ _ _ _ Henc) as (_ & Hid & _).
  pose proof (decrypt_chunked_fails_only framed key2 id Hid) as Hf.
  destruct (decrypt_chunked framed key2 id) as [pt'|e] eqn:Hdec; [right|left; by simpl in Hf; subst].
  unfold decrypt_chunked in Hdec.
  destruct (blob_segment_aad id) as [a|]; [|discriminate]. rsimpl_in Hdec.
  destruct (length framed <? HEADER_LEN); [discriminate|].
  destruct (open_header framed key2 id) as [[[dk np] n]|] eqn:Hopen; [|discriminate]. clear Hdec.
  unfold open_header in Hopen. case_bool_decide; [discriminate|].
  destruct (negb _); [discriminate|].
  destruct (blob_wrap_aad _ _ _ _) as [wa|] eqn:Hwa; [|discriminate]. rsimpl_in Hopen.
  exists framed, g', wa. split; [done|]. split; [exact Hwa|]. unfold unwrap_data_key in Hopen.
  destruct (negb _); [discriminate|].
  change (slice framed 1 61) with (slice framed 1 (1 + WRAPPED_KEY_LEN)).
  destruct (decrypt _ _ _); [by eexists|discriminate].
Qed.

Context (v : gmap Path bytes) (dir : Path) (Htd : temp_dir v dir).

Let enc_path : Path := dir ++ [Normal (lit "blob.enc")].
Let out_path : Path := dir ++ [Normal (lit "out.bin")].

Lemma push_enc : push dir (lit "blob.enc") = enc_path.
Proof. apply push_name. literal_name. Qed.

Lemma push_out : push dir (lit "out.bin") = out_path.
Proof. apply push_name. literal_name. Qed.

Lemma enc_out : enc_path ≠ out_path.
Proof. intros Heq%app_inv_head. discriminate. Qed.

Lemma output_ok : Forall component_ok out_path ∧ is_Some (file_name out_path).
Proof.
  split.
  - apply Forall_app. split; [apply Htd|]. constructor; [|done]. literal_name.
  - unfold file_name, out_path. rewrite last_snoc. by eexists.
Qed.

(** The only file in the directory is the blob. *)
Lemma dir_temps framed : no_temps (<[enc_path := framed]> v) out_path.
Proof.
  intros name suffix Hn _. unfold file_name, parent, out_path in *. rewrite last_snoc in Hn. injection Hn as <-.
  rewrite removelast_last, lookup_insert_ne; [apply Htd|].
  intros Heq%app_inv_head. discriminate.
Qed.

Lemma entry_insert (v' : gmap Path bytes) a d n :
  is_Some (<[dir ++ [Normal a] := d]> v' !! (dir ++ [Normal n])) ↔
  n = a ∨ is_Some (v' !! (dir ++ [Normal n])).
Proof.
  rewrite lookup_insert. case_decide as Hn.
  - apply app_inv_head in Hn as [=->]. split; [by left|by eexists].
  - split; [by right|]. intros [->|?]; [by destruct Hn|done].
Qed.

Lemma no_entry n : ¬ is_Some (v !! (dir ++ [Normal n])).
Proof. rewrite (proj2 Htd). by intros []. Qed.

Lemma dir_contains (F : Prop) (v' : gmap Path bytes) expected g Q :
  NoDup expected → (∀ n, n ∈ expected ↔ is_Some (v' !! (dir ++ [Normal n]))) → Q (Ok tt) v' g →
  triple F (assert_dir_contains_exactly dir expected) v' g Q.
Proof.
  intros Hnd Hin HQ. apply triple_bind, triple_unwrap_std, triple_read_dir.
  intros names Hnd' Hin'. cbn [map_err]. apply triple_assert; [|done]. intros _. left.
  apply bool_decide_eq_true, NoDup_Permutation; [done..|]. intros n. by rewrite Hin', Hin.
Qed.

(** A blob of which [written] is in the file, and which is refused. *)
Lemma failed_decrypt_pass (F : Prop) framed part written key2 looked_for g :
  (∀ g1, part framed g1 = (Ok written, g1)) → HEADER_LEN ≤ length written →
  decrypt_chunked written key2 BLOB_ID = Err Aead ∨ whole_segments written ∨ F →
  file_test_passes F (failed_decrypt_test dir framed part key2 looked_for) v v g.
Proof.
  intros Hpart Hlen Hbad.
  unfold file_test_passes, failed_decrypt_test. cbv zeta. rewrite push_enc, push_out.
  apply triple_temp_dir; [apply Htd|]. apply triple_bind, triple_supplied. intros Hg1.
  eapply triple_memory; [apply Hpart|exact Hg1|]. cbv beta iota.
  do 3 file_step. apply triple_bind. unfold assert_io_err. apply triple_bind, triple_try.
  eapply (decrypt_refused_file _ _ _ _ _ written);
    [done|by rewrite lookup_insert_eq|done|valid_id_literal|apply output_ok|apply output_ok
    |apply dir_temps|].
  intros g2 _. file_step. apply triple_bind.
  assert (<[enc_path := written]> v !! out_path = None) as Hno.
  { rewrite lookup_insert_ne by apply enc_out. apply Htd. }
  assert (∀ g', triple F (assert_dir_contains_exactly dir [lit "blob.enc"]) (<[enc_path := written]> v) g'
    (λ r v' _, (∀ p, (∀ n, p ≠ dir ++ [Normal n]) → v' !! p = v !! p) ∧ r = Ok tt ∧ v = v)) as Hend.
  { intros g'. apply dir_contains; [apply NoDup_singleton| |].
    - intros n. rewrite list_elem_of_singleton. unfold enc_path. rewrite entry_insert. pose proof (no_entry n). tauto.
    - split; [|done]. intros p Hp. by rewrite lookup_insert_ne by (intros <-; by apply (Hp (lit "blob.enc"))). }
  destruct looked_for; [|by apply triple_ret].
  apply triple_bind, triple_exists. rewrite bool_decide_false by (rewrite Hno; by intros []).
  apply triple_assert; [by left|]. apply Hend.
Qed.

Lemma success_pass (F : Prop) g :
  file_test_passes F (decrypt_file_success_leaves_only_output dir) v v g.
Proof.
  pose proof CHUNK_SIZE_Z as Hcs.
  unfold file_test_passes, decrypt_file_success_leaves_only_output. cbv zeta. rewrite push_enc, push_out.
  pose proof (plaintext_length (3 * CHUNK_SIZE + 7)) as Hpt. revert Hpt.
  generalize (make_plaintext (3 * CHUNK_SIZE + 7)). intros pt Hpt.
  apply triple_bind, in_memory_encrypt; [valid_id_literal|rewrite Hpt; lia|].
  intros framed g1 Henc. apply triple_temp_dir; [apply Htd|]. do 5 file_step.
  eapply decrypt_honest_file;
    [exact Henc|by rewrite lookup_insert_eq|apply output_ok|apply output_ok|apply dir_temps|].
  intros g2 _. cbn [map_err]. do 2 file_step. eapply triple_read; [by rewrite lookup_insert_eq|].
  cbn [map_err]. file_step. file_step. pose proof enc_out as Heo. apply dir_contains.
  - apply NoDup_cons. split; [intros Heq%list_elem_of_singleton; discriminate|apply NoDup_singleton].
  - intros n. rewrite elem_of_cons, list_elem_of_singleton. unfold enc_path, out_path. rewrite !entry_insert.
    pose proof (no_entry n) as Hno. revert Hno. generalize (lit "blob.enc"), (lit "out.bin"). intros. tauto.
  - split; [|split; reflexivity]. intros p Hp.
    rewrite !lookup_insert_ne; [reflexivity|..]; intros <-; exact (Hp _ eq_refl).
Qed.

Lemma truncated_pass (F : Prop) g :
  file_test_passes F (decrypt_file_truncated_at_segment_boundary_leaves_no_output dir) v v g.
Proof.
  pose proof CHUNK_SIZE_Z as Hcs.
  apply triple_bind, in_memory_encrypt; [valid_id_literal|rewrite plaintext_length; lia|].
  intros framed g' Henc. pose proof (honest_frame_length _ _ _ _ _ _ Henc) as Hlen.
  rewrite plaintext_length in Hlen. unfold TAG_LEN in Hlen.
  set (cut := HEADER_LEN + 2 * (CHUNK_SIZE + 16)) in *. assert (cut ≤ length framed) as Hcut by (subst cut; lia).
  apply (failed_decrypt_pass _ _ _ (take cut framed)).
  - intros g1. by rewrite (proj2 (Nat.ltb_ge _ _)).
  - rewrite length_take, Nat.min_l by done. subst cut. lia.
  - right; left. unfold whole_segments. rewrite length_take, Nat.min_l by done. subst cut.
    split; [lia|]. rewrite (Nat.add_comm HEADER_LEN), Nat.add_sub. apply Nat.Div0.mod_mul.
Qed.

Lemma tampered_pass g :
  let i := HEADER_LEN + (CHUNK_SIZE + 16) + 10 in
  let pt := make_plaintext (2 * CHUNK_SIZE + 100) in
  file_test_passes (forged_frame pt (replicate 32 x2a) BLOB_ID (alter (byte_xor 1) i) g)
    (decrypt_file_tampered_midstream_leaves_no_output dir) v v g.
Proof.
  cbv zeta. pose proof CHUNK_SIZE_Z as Hcs.
  apply triple_bind, in_memory_encrypt; [valid_id_literal|rewrite plaintext_length; lia|].
  intros framed g' Henc. pose proof (honest_frame_length _ _ _ _ _ _ Henc) as Hlen.
  rewrite plaintext_length in Hlen. unfold TAG_LEN in Hlen.
  set (i := HEADER_LEN + (CHUNK_SIZE + 16) + 10) in *. assert (i < length framed) as Hi by (subst i; lia).
  apply triple_bind, triple_supplied. intros Hg. eapply triple_memory; [by apply update_Ok|exact Hg|].
  apply (failed_decrypt_pass _ _ _ (alter (byte_xor 1) i framed)); [done|rewrite length_alter; subst i; lia|].
  destruct (changed_frame_test _ _ _ (alter (byte_xor 1) i) _ _ _ Henc) as [Herr%is_err_true|Hforged];
    [by apply alter_changes, xor_1_changes|by left|by right; right].
Qed.

Lemma wrong_key_pass g :
  file_test_passes (opened_with (lit "some data") (replicate 32 x2a) BLOB_ID (replicate 32 x2b) g)
    (decrypt_file_wrong_key_creates_no_files dir) v v g.
Proof.
  apply triple_bind, in_memory_encrypt; [valid_id_literal|vm_compute; reflexivity|]. intros framed g' Henc.
  destruct (encrypted_not_whole _ _ _ _ _ _ Henc) as (Hlen & _ & _).
  apply (failed_decrypt_pass _ _ _ framed); [done|done|].
  destruct (other_key_test _ _ _ (replicate 32 x2b) _ _ _ Henc); auto.
Qed.

End dir_proofs.

(** ** Properties *)

Section suite.
Context `{OsRngLaws, !Supply, AesGcmLaws}.

(** C34. The tests on files pass from every state of a working system (no two names for one file, a calm
    schedule, an entropy source that answers) in which their temporary files and directory are
    new, with every lawful AES-GCM, and leave the file system as they found it. Those that present
    the changed copy of their blob, their blob under the other id, or another key, pass unless that
    very forgery succeeds; the cut at a segment boundary is refused whatever the cryptography does. *)
Theorem file_tests_pass (v : gmap Path bytes) src enc dec dir g :
  temp_files v src enc dec → temp_dir v dir →
  let key := replicate 32 x2a in
  let transplanted := forged_id (lit "some data") key BLOB_ID OTHER_BLOB_ID g in
  Forall (λ '(t, event), file_test_passes event t v v g)
    [(chunked_file_round_trip_all_sizes src enc dec, False);
     (in_memory_and_file_formats_are_interchangeable src enc dec, False);
     (empty_blob_id_rejected_file_codec src enc dec, False);
     (decrypt_file_success_leaves_only_output dir, False);
     (decrypt_file_truncated_at_segment_boundary_leaves_no_output dir, False);
     (decrypt_file_tampered_midstream_leaves_no_output dir,
      forged_frame (make_plaintext (2 * CHUNK_SIZE + 100)) key BLOB_ID
        (alter (byte_xor 1) (HEADER_LEN + (CHUNK_SIZE + 16) + 10)) g);
     (transplanted_blob_id_fails_file_codec src enc dec, transplanted);
     (transplanted_blob_id_fails_mem_encrypt_file_decrypt enc dec, transplanted);
     (transplanted_blob_id_fails_file_encrypt_mem_decrypt src enc, transplanted);
     (decrypt_file_wrong_key_creates_no_files dir,
      opened_with (lit "some data") key BLOB_ID (replicate 32 x2b) g)].
Proof.
  intros Htf Htd key transplanted. repeat apply Forall_cons_2; try apply Forall_nil_2.
  - by apply round_trip_files_pass.
  - by apply formats_pass.
  - by apply empty_id_file_pass.
  - by apply success_pass.
  - by apply truncated_pass.
  - by apply tampered_pass.
  - by apply transplanted_file_pass.
  - by apply (transplanted_mem_file_pass _ src).
  - by apply (transplanted_file_mem_pass _ _ _ dec).
  - by apply wrong_key_pass.
Qed.

End suite.

(** ** With the concrete provider, in an empty file system *)

Definition empty_world : world :=
  {| w_rng := toy_gen 1; w_fs := {| fs_dir := ∅; fs_ino := ∅ |}; w_sched := []; w_hist := [] |}.

Definition tmp_path (name : str) : Path := [RootDir; Normal (lit "tmp"); Normal name].

Lemma new_temp_files : temp_files ∅ (tmp_path (lit "a")) (tmp_path (lit "b")) (tmp_path (lit "c")).
Proof.
  assert (∀ x y : str, x ≠ y → tmp_path x ≠ tmp_path y) as Hne by (intros x y Hxy [=]; done).
  constructor.
  - split_and!; apply Hne; discriminate.
  - split_and!; apply lookup_empty.
  - split; [|by eexists]. repeat constructor; literal_name.
  - intros name suffix [= <-] _. cbv zeta. split; [apply lookup_empty|].
    split; apply Hne; discriminate.
Qed.

Lemma new_temp_dir : temp_dir ∅ [RootDir; Normal (lit "tmp")].
Proof.
  split; [|intros n; apply lookup_empty].
  repeat constructor; literal_name.
Qed.

Lemma empty_world_holds : holds empty_world ∅ (toy_gen 1).
Proof.
  split; [|split; [reflexivity|]].
  - split_and!; [|apply Forall_nil_2|by exists 1|apply Forall_nil_2]. split; intros ? ?; discriminate.
  - intros p. reflexivity.
Qed.

Lemma file_tests_pass_witness :
  ∃ w', run (decrypt_file_success_leaves_only_output [RootDir; Normal (lit "tmp")] empty_world) = Some (Ok tt, w').
Proof.
  pose proof (file_tests_pass ∅ (tmp_path (lit "a")) (tmp_path (lit "b")) (tmp_path (lit "c")) _ (toy_gen 1)
    new_temp_files new_temp_dir) as Hall.
  cbv zeta in Hall.
  pose proof (Forall_inv (Forall_inv_tail (Forall_inv_tail (Forall_inv_tail Hall)))) as Hpass.
  destruct (Hpass _ empty_world_holds) as [[]|(r & w' & v' & g' & Hrun & _ & -> & _)].
  by exists w'.
Defined.

(** The tests without a megabyte of plaintext. *)
Example small_file_tests_pass :
  let a := tmp_path (lit "a") in
  let b := tmp_path (lit "b") in
  let c := tmp_path (lit "c") in
  forallb (λ t : file_test unit,
    match run (t empty_world) with
    | Some (Ok _, w) => bool_decide (fs_dir (w_fs w) = ∅)
    | _ => false
    end)
    [transplanted_blob_id_fails_file_codec a b c;
     transplanted_blob_id_fails_mem_encrypt_file_decrypt b c;
     transplanted_blob_id_fails_file_encrypt_mem_decrypt a b;
     empty_blob_id_rejected_file_codec a b c;
     decrypt_file_wrong_key_creates_no_files [RootDir; Normal (lit "tmp")]] = true.
Proof. vm_compute. reflexivity. Qed.
