(* ===== verification/Json.v ===== *)
(** * JSON

    The interface of the libraries that write and read the test fixtures, [serde_json] and [hex] in
    Rust and [JSONSerialization] in Swift, with the laws the fixtures rely on, and a concrete
    instance: a printer, and a parser that also reads the fixtures of the repository. *)

From S2P Require Import Prelude Ints Hex.
From Stdlib Require Import ZArith Lia.

(** ** Values *)

(** The values the fixtures are made of. *)
Inductive json : Type :=
| JStr (s : str)
| JObj (fields : list (str * json)).

Lemma json_nested_ind (P : json → Prop) :
  (∀ s, P (JStr s)) → (∀ l, Forall (λ f, P f.2) l → P (JObj l)) → ∀ v, P v.
Proof.
  intros Hs Ho. fix IH 1. intros [s|l]; [apply Hs|]. apply Ho.
  induction l as [|[k v] l IHl]; constructor; [apply IH|apply IHl].
Qed.

(** The value of a key. *)
Fixpoint field (k : str) (l : list (str * json)) : option json :=
  match l with
  | [] => None
  | (k', v) :: l' => if bool_decide (k' = k) then Some v else field k l'
  end.

(** Printable ASCII, the texts that the fixtures contain. *)
Definition is_printable (b : byte) : bool := ((32 <=? byte_to_Z b) && (byte_to_Z b <=? 126))%Z.
Definition printable (s : str) : Prop := Forall (λ b, is_printable b = true) s.

(** Printable strings throughout, and in every object different keys. *)
Inductive json_ok : json → Prop :=
| str_ok s : printable s → json_ok (JStr s)
| obj_ok l :
    NoDup l.*1 → Forall (λ f, printable f.1 ∧ json_ok f.2) l → json_ok (JObj l).

(** The same value, fields in any order. *)
Inductive same_json : json → json → Prop :=
| same_str s : same_json (JStr s) (JStr s)
| same_obj l l1 l2 :
    Forall2 (λ f f', f.1 = f'.1 ∧ same_json f.2 f'.2) l l1 → l1 ≡ₚ l2 → same_json (JObj l) (JObj l2).

(** ** The libraries *)

Class Json := {
  (** [serde_json::to_string_pretty] on a value whose [Serialize] gives this tree. *)
  to_string_pretty : json → option str;
  (** [JSONSerialization.jsonObject(with:)]; an error is [None]. *)
  json_object : bytes → option json;
  (** [hex::encode]. *)
  hex_encode : bytes → str;
}.

(** What is written can be read, white space after it is ignored, and hexadecimal is lower case. *)
Class JsonLaws `{Json} : Prop := {
  to_string_pretty_total v : json_ok v → is_Some (to_string_pretty v);
  json_read_written v t :
    json_ok v → to_string_pretty v = Some t → ∃ v', json_object (t ++ [x0a]) = Some v' ∧ same_json v v';
  hex_encode_eq l : hex_encode l = hex_of_bytes l;
}.

(** ** Facts about values *)

Lemma same_json_refl v : same_json v v.
Proof.
  induction v as [s|l IH] using json_nested_ind; [constructor|].
  apply (same_obj l l); [|done]. induction IH; constructor; auto.
Qed.

Lemma field_Some_elem k v l : field k l = Some v → (k, v) ∈ l.
Proof.
  induction l as [|[k' v'] l IH]; simpl; [done|]. case_bool_decide as Hk.
  - intros [= ->]. subst. by apply elem_of_cons; left.
  - intros Hf. apply elem_of_cons; right. by apply IH.
Qed.

Lemma field_elem k v l : NoDup l.*1 → (k, v) ∈ l → field k l = Some v.
Proof.
  induction l as [|[k' v'] l IH]; simpl; [by intros _ ?%not_elem_of_nil|].
  intros [Hk Hnd]%NoDup_cons [[= -> ->]|Hin]%elem_of_cons; [by rewrite bool_decide_true|].
  rewrite bool_decide_false; [by apply IH|]. intros ->. apply Hk, list_elem_of_fmap. by exists (k, v).
Qed.

Lemma same_json_str s v : same_json (JStr s) v → v = JStr s.
Proof. by inversion 1. Qed.

(** A reader finds under every key what was written under it. *)
Lemma same_json_field l v k x :
  same_json (JObj l) v → NoDup l.*1 → field k l = Some x →
  ∃ l' x', v = JObj l' ∧ field k l' = Some x' ∧ same_json x x'.
Proof.
  intros Hs Hnd Hx. inversion Hs as [|? l1 l2 H2 Hp]; subst.
  assert (l1.*1 = l.*1) as Hkeys.
  { clear -H2. induction H2 as [|f f' l l1 [Hf _] _ IH]; [done|]. cbn. by rewrite IH, Hf. }
  apply field_Some_elem, list_elem_of_lookup in Hx as [i Hi].
  destruct (Forall2_lookup_l _ _ _ _ _ H2 Hi) as ([k' x'] & Hi' & [= <-] & Hx').
  exists l2, x'. split; [done|]. split; [|exact Hx'].
  apply field_elem; [by rewrite <-Hp, Hkeys|]. rewrite <-Hp. by eapply list_elem_of_lookup_2.
Qed.

Lemma hex_printable l : printable (hex_of_bytes l).
Proof.
  unfold hex_of_bytes. induction l as [|b l IH]; [constructor|]. rewrite fmap_cons. cbn [concat].
  apply Forall_app. split; [|exact IH]. by destruct b; repeat constructor.
Qed.

(** ** A concrete instance *)

Definition quote_byte : byte := x22.
Definition escape_byte : byte := x5c.

(** The text of a string behind its opening quote: quotes and backslashes are escaped. *)
Fixpoint print_string (s : str) : str :=
  match s with
  | [] => [quote_byte]
  | b :: s' =>
      (if bool_decide (b = quote_byte ∨ b = escape_byte) then [escape_byte; b] else [b]) ++ print_string s'
  end.

Section print_fields.
Context (print : json → str).

Fixpoint print_fields (l : list (str * json)) : str :=
  match l with
  | [] => [x7d]
  | (k, v) :: l' =>
      quote_byte :: print_string k ++ x3a :: print v ++
      match l' with [] => [] | _ :: _ => [x2c] end ++ print_fields l'
  end.

End print_fields.

Fixpoint print_json (v : json) : str :=
  match v with
  | JStr s => quote_byte :: print_string s
  | JObj l => x7b :: print_fields print_json l
  end.

Fixpoint skip_white (s : str) : str :=
  match s with
  | b :: s' => if is_whitespace b then skip_white s' else s
  | [] => []
  end.

(** The string behind an opening quote, and what follows its closing quote. *)
Fixpoint read_string (s : str) : option (str * str) :=
  match s with
  | [] => None
  | b :: s' =>
      if bool_decide (b = quote_byte) then Some ([], s') else
      if bool_decide (b = escape_byte) then
        match s' with
        | c :: s'' => '(t, rest) ← read_string s''; Some (c :: t, rest)
        | [] => None
        end
      else '(t, rest) ← read_string s'; Some (b :: t, rest)
  end.

(** [b] behind white space. *)
Definition expect (b : byte) (s : str) : option str :=
  match skip_white s with
  | c :: s' => if bool_decide (c = b) then Some s' else None
  | [] => None
  end.

Section read_fields.
Context (read : str → option (json * str)).

(** The fields of an object behind its opening brace. *)
Fixpoint read_fields (fuel : nat) (s : str) : option (list (str * json) * str) :=
  match fuel with
  | O => None
  | S fuel' =>
      match expect x7d s with
      | Some rest => Some ([], rest)
      | None =>
          s ← expect quote_byte s;
          '(k, s) ← read_string s;
          s ← expect x3a s;
          '(v, s) ← read s;
          match expect x2c s with
          | Some s' => '(l, rest) ← read_fields fuel' s'; Some ((k, v) :: l, rest)
          | None => rest ← expect x7d s; Some ([(k, v)], rest)
          end
      end
  end.

End read_fields.

Fixpoint read_json (fuel : nat) (s : str) : option (json * str) :=
  match fuel with
  | O => None
  | S fuel' =>
      match expect quote_byte s with
      | Some s' => '(t, rest) ← read_string s'; Some (JStr t, rest)
      | None => s' ← expect x7b s; '(l, rest) ← read_fields (read_json fuel') fuel' s'; Some (JObj l, rest)
      end
  end.

Definition read_document (s : str) : option json :=
  '(v, rest) ← read_json (length s) s;
  if bool_decide (skip_white rest = []) then Some v else None.

Lemma read_print_string s rest : read_string (print_string s ++ rest) = Some (s, rest).
Proof.
  induction s as [|b s IH]; [done|]. cbn [print_string]. case_bool_decide as Hb.
  - cbn [app read_string]. rewrite bool_decide_false by done. rewrite bool_decide_true by done.
    by rewrite IH.
  - cbn [app read_string]. rewrite !bool_decide_false by (intros ->; apply Hb; auto). by rewrite IH.
Qed.

(** What is printed fits into the fuel that its length gives. *)
Lemma read_print_json fuel v rest :
  length (print_json v) ≤ fuel → read_json fuel (print_json v ++ rest) = Some (v, rest).
Proof.
  revert fuel rest. induction v as [s|l IH] using json_nested_ind; intros fuel rest Hfuel.
  - destruct fuel as [|fuel]; [simpl in Hfuel; lia|]. cbn [print_json app read_json].
    change (expect quote_byte (quote_byte :: ?s)) with (Some s). cbv iota.
    by rewrite read_print_string.
  - destruct fuel as [|fuel]; [simpl in Hfuel; lia|]. cbn [print_json app read_json].
    change (expect quote_byte (x7b :: ?s)) with (@None str).
    change (expect x7b (x7b :: ?s)) with (Some s). cbv iota.
    cbn [print_json length] in Hfuel. apply le_S_n in Hfuel.
    cut (∀ n, length (print_fields print_json l) ≤ n →
         read_fields (read_json fuel) n (print_fields print_json l ++ rest) = Some (l, rest)).
    { intros Hcut. unfold mbind, option_bind. by rewrite Hcut. }
    induction IH as [|[k v] l Hv _ IHl]; intros n Hn.
    { destruct n as [|n]; [simpl in Hn; lia|]. done. }
    cbn [snd] in Hv. destruct n as [|n]; [simpl in Hn; lia|].
    cbn [print_fields] in *. cbn [app read_fields].
    change (expect x7d (quote_byte :: ?s)) with (@None str).
    change (expect quote_byte (quote_byte :: ?s)) with (Some s). cbv iota.
    unfold mbind, option_bind. rewrite <-!app_assoc, read_print_string. cbn [app].
    change (expect x3a (x3a :: ?s)) with (Some s). cbv iota.
    cbn [length] in Hn, Hfuel. rewrite !length_app in Hn, Hfuel. cbn [length] in Hn, Hfuel.
    rewrite !length_app in Hn, Hfuel. rewrite <-!app_assoc, Hv by lia.
    destruct l as [|[k' v'] l]; [done|]. cbn [app].
    change (expect x2c (x2c :: ?s)) with (Some s). cbv iota.
    rewrite IHl; [done|lia|lia].
Qed.

#[export] Instance toy_json : Json := {|
  to_string_pretty v := Some (print_json v);
  json_object := read_document;
  hex_encode := hex_of_bytes;
|}.

#[export] Instance toy_json_laws : JsonLaws.
Proof.
  constructor; simpl.
  - intros v _. by eexists.
  - intros v t _ [= <-]. exists v. split; [|apply same_json_refl]. unfold read_document.
    rewrite read_print_json; [done|]. rewrite length_app. lia.
  - done.
Qed.
