(* ===== verification/Fixtures.v ===== *)
(** * The fixtures for the Swift tests

    The generator [tests/generate_fixtures.rs], which writes JSON files with a blob, a metadata
    field and a signature made from the all-zero secret, and the tests of
    [CrossLanguageFixtureTests.swift], which read them and decrypt through the binding layer. *)

From S2P Require Import Prelude Ints Hex Errors Prims Toy Aad Kdf Metadata Auth Recovery Blob Path Process.
From S2P Require Import Io IoSpec BlobFile WellFormed Ffi Suite Tests FileSuite FileTests Json.
From S2P Require Vault.
From Stdlib Require Import ZArith Lia.

(** ** The generator *)

Definition FIXTURE_MASTER_SECRET : bytes := replicate 32 x00.
Definition FIXTURE_BLOB_ID : str := lit "1f6a7c9e-3b2d-4e8f-a510-6c4d2e0b9a71".
Definition FIXTURE_RECORD_ID : str := lit "8d3e5f10-9a7b-4c2d-b6e4-0f1a2b3c4d5e".
Definition FIXTURE_FIELD_NAME : str := lit "document-record".

(** The tree that [#[derive(Serialize)]] gives, fields in the order of their declaration. *)
Class Serialize (T : Type) := serialize : T → json.

Record BlobFixture := { bf_note : str; bf_blob_id : str; bf_plaintext_hex : str; bf_framed_hex : str }.

#[export] Instance BlobFixture_serialize : Serialize BlobFixture := λ x,
  JObj [(lit "note", JStr (bf_note x)); (lit "blob_id", JStr (bf_blob_id x));
        (lit "plaintext_hex", JStr (bf_plaintext_hex x)); (lit "framed_hex", JStr (bf_framed_hex x))].

Record FieldBytes := { fb_ciphertext_hex : str; fb_iv_hex : str }.

#[export] Instance FieldBytes_serialize : Serialize FieldBytes := λ x,
  JObj [(lit "ciphertext_hex", JStr (fb_ciphertext_hex x)); (lit "iv_hex", JStr (fb_iv_hex x))].

Record MetadataFixture := {
  mf_note : str; mf_record_id : str; mf_field_name : str; mf_plaintext_hex : str; mf_field : FieldBytes;
}.

#[export] Instance MetadataFixture_serialize : Serialize MetadataFixture := λ x,
  JObj [(lit "note", JStr (mf_note x)); (lit "record_id", JStr (mf_record_id x));
        (lit "field_name", JStr (mf_field_name x)); (lit "plaintext_hex", JStr (mf_plaintext_hex x));
        (lit "field", serialize (mf_field x))].

Record SignatureFixture := {
  sf_note : str; sf_nonce_hex : str; sf_public_key_hex : str; sf_signature_hex : str;
}.

#[export] Instance SignatureFixture_serialize : Serialize SignatureFixture := λ x,
  JObj [(lit "note", JStr (sf_note x)); (lit "nonce_hex", JStr (sf_nonce_hex x));
        (lit "public_key_hex", JStr (sf_public_key_hex x)); (lit "signature_hex", JStr (sf_signature_hex x))].

(** [env!("CARGO_MANIFEST_DIR")] is a parameter. *)
Definition fixtures_dir (manifest_dir : str) : Path :=
  push (push (push (push (push (path_of_str manifest_dir)
    (lit "..")) (lit "..")) (lit "Tests")) (lit "FilumCryptoTests")) (lit "Fixtures").

Section generator.
Context `{OsRng, AesGcm, Hkdf, Ed25519, Bip39, Json}.

(** [fs::create_dir_all]: a directory is in the model the prefix of the paths of its entries. *)
Definition create_dir_all (dir : Path) : io world ErrorKind unit := control.

(** The progress message is not modelled. *)
Definition write_json `{Serialize T} (path : Path) (value : T) : file_test unit :=
  json ← in_memory (unwrap_opt (to_string_pretty (serialize value)));
  unwrap_std (fs_write path (json ++ [x0a])).

Definition regenerate_fixtures (manifest_dir : str) : file_test unit :=
  let dir := fixtures_dir manifest_dir in
  _ ← unwrap_std (create_dir_all dir);
  vault ← in_memory (unwrap (Vault.open FIXTURE_MASTER_SECRET));
  let blob_plaintext := lit "filum-crypto v2 blob fixture" in
  framed ← in_memory (unwrap_st (Vault.encrypt_blob vault blob_plaintext FIXTURE_BLOB_ID));
  recovered ← in_memory (unwrap (Vault.decrypt_blob vault framed FIXTURE_BLOB_ID));
  _ ← in_memory (assert_eq recovered blob_plaintext);
  _ ← write_json (push dir (lit "blob_v2.json")) {|
    bf_note := lit "Rust-produced golden. Decrypt with master_secret = [0u8; 32] and the embedded blob_id.";
    bf_blob_id := FIXTURE_BLOB_ID;
    bf_plaintext_hex := hex_encode blob_plaintext;
    bf_framed_hex := hex_encode framed |};
  let field_plaintext := lit "filum-crypto v2 metadata fixture" in
  field ← in_memory (unwrap_st
    (Vault.encrypt_metadata_field vault field_plaintext FIXTURE_RECORD_ID FIXTURE_FIELD_NAME));
  recovered ← in_memory (unwrap
    (Vault.decrypt_metadata_field vault field FIXTURE_RECORD_ID FIXTURE_FIELD_NAME));
  _ ← in_memory (assert_eq recovered field_plaintext);
  _ ← write_json (push dir (lit "metadata_v2.json")) {|
    mf_note :=
      lit "Rust-produced golden. Decrypt with master_secret = [0u8; 32] and the embedded record_id + field_name.";
    mf_record_id := FIXTURE_RECORD_ID;
    mf_field_name := FIXTURE_FIELD_NAME;
    mf_plaintext_hex := hex_encode field_plaintext;
    mf_field := {|
      fb_ciphertext_hex := hex_encode (Metadata.ciphertext field);
      fb_iv_hex := hex_encode (Metadata.iv field) |} |};
  let nonce := replicate 32 x00 in
  let signature := Vault.sign_challenge vault nonce in
  let public_key := Vault.device_public_key vault in
  _ ← in_memory (unwrap (Auth.verify_signature public_key nonce (Auth.sig_bytes signature)));
  _ ← write_json (push dir (lit "signature_v1.json")) {|
    sf_note := lit "Rust-produced golden. Ed25519 is deterministic given key+nonce.";
    sf_nonce_hex := hex_encode nonce;
    sf_public_key_hex := hex_encode public_key;
    sf_signature_hex := hex_encode (Auth.sig_bytes signature) |};
  phrase ← in_memory (unwrap (Recovery.secret_to_phrase FIXTURE_MASTER_SECRET));
  back ← in_memory (unwrap (Recovery.phrase_to_secret phrase));
  in_memory (assert_eq back FIXTURE_MASTER_SECRET).

End generator.

(** ** The Swift tests *)

(** How a test fails. *)
Inductive swift_failure :=
| Unwrapped_nil
| Not_json
| Odd_length_hex
| Invalid_hex_byte
| Thrown (e : Ffi.FilumCryptoError)
| Assertion_failure.

Section swift.
Context `{AesGcm, Hkdf, Ed25519, Json}.

Abbreviation swift := (result swift_failure).

(** [Bundle.module]: the contents of the JSON resource of that name in [Fixtures]. *)
Context (bundle : str → option bytes).

Definition fixtureMasterSecret : bytes := replicate 32 x00.

(** [x as? String] and [x as? [String: String]]. *)
Definition as_String (v : json) : option str :=
  match v with JStr s => Some s | JObj _ => None end.

Definition as_StringDict (v : json) : option (list (str * json)) :=
  match v with
  | JObj l => if bool_decide (Forall (λ f, is_Some (as_String f.2)) l) then Some l else None
  | JStr _ => None
  end.

(** [try XCTUnwrap(dict[k] as? String)]. *)
Definition string_at (k : str) (dict : list (str * json)) : swift str :=
  ok_or (field k dict ≫= as_String) Unwrapped_nil.

Definition loadFixture (name : str) : swift (list (str * json)) :=
  data ← ok_or (bundle name) Unwrapped_nil;
  object ← ok_or (json_object data) Not_json;
  match object with JObj dict => Ok dict | JStr _ => Err Unwrapped_nil end.

(** On ASCII text, where a character is a byte. *)
Definition hexDecode (s : str) : swift bytes :=
  if negb (length s mod 2 =? 0) then Err Odd_length_hex else
  ok_or (read_pairs UInt8_radix_16 s) Invalid_hex_byte.

Definition loadField (fixture : list (str * json)) : swift Ffi.EncryptedField :=
  fieldDict ← ok_or (field (lit "field") fixture ≫= as_StringDict) Unwrapped_nil;
  ciphertext_hex ← string_at (lit "ciphertext_hex") fieldDict;
  ciphertext ← hexDecode ciphertext_hex;
  iv_hex ← string_at (lit "iv_hex") fieldDict;
  iv ← hexDecode iv_hex;
  Ok {| Ffi.ciphertext := ciphertext; Ffi.iv := iv |}.

(** A throwing call of the binding layer, and the assertions. *)
Definition swift_try {A} (r : Ffi.Result A) : swift A := map_err Thrown r.

Definition XCTAssertEqual (x y : bytes) : swift unit :=
  if bool_decide (x = y) then Ok tt else Err Assertion_failure.

Definition XCTAssertNoThrow {A} (r : Ffi.Result A) : swift unit :=
  match r with Ok _ => Ok tt | Err _ => Err Assertion_failure end.

(** [XCTAssertThrowsError] whose handler accepts [FilumCryptoError.Aead] only. *)
Definition assert_throws_Aead {A} (r : Ffi.Result A) : swift unit :=
  match r with Err Ffi.Aead => Ok tt | _ => Err Assertion_failure end.

Definition testBlobV2FixtureDecrypts : swift unit :=
  fixture ← loadFixture (lit "blob_v2");
  blobId ← string_at (lit "blob_id") fixture;
  plaintext_hex ← string_at (lit "plaintext_hex") fixture;
  plaintext ← hexDecode plaintext_hex;
  framed_hex ← string_at (lit "framed_hex") fixture;
  framed ← hexDecode framed_hex;
  vault ← swift_try (Ffi.open fixtureMasterSecret);
  recovered ← swift_try (Ffi.decrypt_blob vault framed blobId);
  XCTAssertEqual recovered plaintext.

Definition testMetadataV2FixtureDecrypts : swift unit :=
  fixture ← loadFixture (lit "metadata_v2");
  recordId ← string_at (lit "record_id") fixture;
  fieldName ← string_at (lit "field_name") fixture;
  plaintext_hex ← string_at (lit "plaintext_hex") fixture;
  plaintext ← hexDecode plaintext_hex;
  fld ← loadField fixture;
  vault ← swift_try (Ffi.open fixtureMasterSecret);
  recovered ← swift_try (Ffi.decrypt_metadata_field vault fld recordId fieldName);
  XCTAssertEqual recovered plaintext.

Definition testBlobV1FixtureFailsForAnyBlobId : swift unit :=
  fixture ← loadFixture (lit "blob_v1");
  framed_hex ← string_at (lit "framed_hex") fixture;
  framed ← hexDecode framed_hex;
  vault ← swift_try (Ffi.open fixtureMasterSecret);
  _ ← assert_throws_Aead (Ffi.decrypt_blob vault framed (lit "fixture-blob-id"));
  assert_throws_Aead (Ffi.decrypt_blob vault framed (lit "any-other-id")).

Definition testMetadataV1FixtureFailsAead : swift unit :=
  fixture ← loadFixture (lit "metadata_v1");
  fld ← loadField fixture;
  vault ← swift_try (Ffi.open fixtureMasterSecret);
  assert_throws_Aead
    (Ffi.decrypt_metadata_field vault fld (lit "fixture-record-id") (lit "document-record")).

Definition testSignatureFixtureVerifies : swift unit :=
  fixture ← loadFixture (lit "signature_v1");
  nonce_hex ← string_at (lit "nonce_hex") fixture;
  nonce ← hexDecode nonce_hex;
  public_key_hex ← string_at (lit "public_key_hex") fixture;
  publicKey ← hexDecode public_key_hex;
  signature_hex ← string_at (lit "signature_hex") fixture;
  signature ← hexDecode signature_hex;
  XCTAssertNoThrow (Ffi.verify_signature publicKey nonce signature).

End swift.

(** ** What a written fixture reads as *)

Section reading.
Context `{JsonLaws}.

Lemma load_written bundle name l t :
  json_ok (JObj l) → to_string_pretty (JObj l) = Some t → bundle name = Some (t ++ [x0a]) →
  ∃ l', loadFixture bundle name = Ok l' ∧ same_json (JObj l) (JObj l').
Proof.
  intros Hok Ht Hb. destruct (json_read_written _ _ Hok Ht) as (v' & Hv' & Hsame).
  inversion Hsame; subst. eexists. split; [|done]. unfold loadFixture. rewrite Hb. rsimpl. by rewrite Hv'.
Qed.

Lemma string_at_same l l' k s :
  json_ok (JObj l) → same_json (JObj l) (JObj l') → field k l = Some (JStr s) → string_at k l' = Ok s.
Proof.
  intros Hok Hsame Hk. inversion Hok as [|? Hnd _]; subst.
  destruct (same_json_field _ _ _ _ Hsame Hnd Hk) as (? & x & [= <-] & Hx & ->%same_json_str).
  unfold string_at. by rewrite Hx.
Qed.

Lemma hex_encode_printable l : printable (hex_encode l).
Proof. rewrite hex_encode_eq. apply hex_printable. Qed.

Lemma hexDecode_encoded l : hexDecode (hex_encode l) = Ok l.
Proof.
  rewrite hex_encode_eq. unfold hexDecode. rewrite swift_pairs_of_bytes.
  assert (length (hex_of_bytes l) = length l * 2) as ->.
  { unfold hex_of_bytes. induction l as [|b l IH]; [done|]. rewrite fmap_cons. cbn [concat].
    rewrite length_app, hex_fmt_length, IH. cbn [length]. lia. }
  by rewrite Nat.Div0.mod_mul.
Qed.

Lemma string_dict_same l l' :
  same_json (JObj l) (JObj l') → Forall (λ f, is_Some (as_String f.2)) l → as_StringDict (JObj l') = Some l'.
Proof.
  intros Hsame Hl. unfold as_StringDict. rewrite bool_decide_true; [done|].
  inversion Hsame as [|? l1 ? H2 Hp]; subst. rewrite <-Hp. clear Hsame Hp.
  induction H2 as [|[k x] [k' x'] l l1 [_ Hx] _ IH]; [constructor|].
  apply Forall_cons in Hl as [Hs Hl]. constructor; [|by apply IH].
  cbn in *. by destruct Hx; [|destruct Hs].
Qed.

Lemma loadField_same l l' (c iv : bytes) :
  json_ok (JObj l) → same_json (JObj l) (JObj l') →
  field (lit "field") l
    = Some (serialize {| fb_ciphertext_hex := hex_encode c; fb_iv_hex := hex_encode iv |}) →
  loadField l' = Ok {| Ffi.ciphertext := c; Ffi.iv := iv |}.
Proof.
  intros Hok Hsame Hf. inversion Hok as [|? Hnd Hall]; subst.
  destruct (same_json_field _ _ _ _ Hsame Hnd Hf) as (? & x & [= <-] & Hx & Hsame').
  assert (json_ok (JObj [(lit "ciphertext_hex", JStr (hex_encode c)); (lit "iv_hex", JStr (hex_encode iv))]))
    as Hok'.
  { apply field_Some_elem in Hf. rewrite Forall_forall in Hall. by apply Hall in Hf as [_ ?]. }
  inversion Hsame' as [|? ? l2 ? ?]; subst. unfold loadField. rewrite Hx. cbn [mbind option_bind].
  rewrite (string_dict_same _ _ Hsame') by (repeat constructor; by eexists). rsimpl.
  rewrite (string_at_same _ _ _ (hex_encode c) Hok' Hsame') by reflexivity. rsimpl.
  rewrite hexDecode_encoded. rsimpl.
  rewrite (string_at_same _ _ _ (hex_encode iv) Hok' Hsame') by reflexivity. rsimpl.
  by rewrite hexDecode_encoded.
Qed.

End reading.

(** ** The values written *)

Ltac printable_literal := apply (bool_decide_unpack (Forall _ _)); vm_compute; exact I.

(** The fields of a fixture: literal keys, and values that are literal or hexadecimal. *)
Ltac fixture_ok :=
  constructor;
  [apply (bool_decide_unpack (NoDup _)); vm_compute; exact I|];
  repeat apply Forall_cons_2; try apply Forall_nil_2; cbn [fst snd]; (split; [printable_literal|]);
  first [constructor; first [printable_literal|exact (hex_encode_printable _)]|idtac].

Section written.
Context `{OsRngLaws, !Supply, AesGcmLaws, HkdfLaws, Ed25519Laws, Bip39Laws, JsonLaws}.

Definition the_blob_fixture (framed : bytes) : BlobFixture := {|
  bf_note := lit "Rust-produced golden. Decrypt with master_secret = [0u8; 32] and the embedded blob_id.";
  bf_blob_id := FIXTURE_BLOB_ID;
  bf_plaintext_hex := hex_encode (lit "filum-crypto v2 blob fixture");
  bf_framed_hex := hex_encode framed;
|}.

Definition the_metadata_fixture (f : Metadata.EncryptedField) : MetadataFixture := {|
  mf_note :=
    lit "Rust-produced golden. Decrypt with master_secret = [0u8; 32] and the embedded record_id + field_name.";
  mf_record_id := FIXTURE_RECORD_ID;
  mf_field_name := FIXTURE_FIELD_NAME;
  mf_plaintext_hex := hex_encode (lit "filum-crypto v2 metadata fixture");
  mf_field := {|
    fb_ciphertext_hex := hex_encode (Metadata.ciphertext f); fb_iv_hex := hex_encode (Metadata.iv f) |};
|}.

Definition the_signature_fixture (v : Vault.Vault) : SignatureFixture := {|
  sf_note := lit "Rust-produced golden. Ed25519 is deterministic given key+nonce.";
  sf_nonce_hex := hex_encode (replicate 32 x00);
  sf_public_key_hex := hex_encode (Vault.device_public_key v);
  sf_signature_hex := hex_encode (Auth.sig_bytes (Vault.sign_challenge v (replicate 32 x00)));
|}.

Lemma blob_fixture_ok framed : json_ok (serialize (the_blob_fixture framed)).
Proof. fixture_ok. Qed.

Lemma metadata_fixture_ok f : json_ok (serialize (the_metadata_fixture f)).
Proof. fixture_ok. fixture_ok. Qed.

Lemma signature_fixture_ok v : json_ok (serialize (the_signature_fixture v)).
Proof. fixture_ok. Qed.

(** The text of a fixture, in its file. *)
Definition written `{Serialize T} (x : T) (data : bytes) : Prop :=
  ∃ t, to_string_pretty (serialize x) = Some t ∧ data = t ++ [x0a].

Lemma swift_open vault :
  Vault.open FIXTURE_MASTER_SECRET = Ok vault → Ffi.open fixtureMasterSecret = Ok {| Ffi.inner := vault |}.
Proof.
  intros Hvault. destruct (Ffi.open_ok FIXTURE_MASTER_SECRET eq_refl) as (v & Hv & Ho).
  rewrite Hvault in Hv. injection Hv as <-. exact Ho.
Qed.

(** The tests on fixtures that hold what the generator writes. *)
Lemma blob_v2_passes bundle vault framed data g g' :
  Vault.open FIXTURE_MASTER_SECRET = Ok vault →
  encrypt_chunked (lit "filum-crypto v2 blob fixture") (Vault.wrap_key vault) FIXTURE_BLOB_ID g = (Ok framed, g') →
  written (the_blob_fixture framed) data → bundle (lit "blob_v2") = Some data →
  testBlobV2FixtureDecrypts bundle = Ok tt.
Proof.
  intros Hvault Henc (t & Ht & ->) Hb. pose proof (blob_fixture_ok framed) as Hok.
  destruct (load_written _ _ _ _ Hok Ht Hb) as (l & Hl & Hsame). unfold testBlobV2FixtureDecrypts.
  rewrite Hl. rsimpl. rewrite (string_at_same _ _ _ FIXTURE_BLOB_ID Hok Hsame) by reflexivity. rsimpl.
  rewrite (string_at_same _ _ _ (hex_encode _) Hok Hsame) by reflexivity. rsimpl.
  rewrite hexDecode_encoded. rsimpl.
  rewrite (string_at_same _ _ _ (hex_encode _) Hok Hsame) by reflexivity. rsimpl.
  rewrite hexDecode_encoded. rsimpl.
  rewrite (swift_open _ Hvault). unfold swift_try, Ffi.decrypt_blob, Vault.decrypt_blob. cbn [map_err Ffi.inner].
  rewrite (decrypt_encrypted _ _ _ _ _ _ Henc). rsimpl. unfold XCTAssertEqual. by rewrite bool_decide_true.
Qed.

Lemma metadata_v2_passes bundle vault fld data g g' :
  Vault.open FIXTURE_MASTER_SECRET = Ok vault →
  encrypt_field (lit "filum-crypto v2 metadata fixture") (Vault.metadata_key vault) FIXTURE_RECORD_ID
    FIXTURE_FIELD_NAME g = (Ok fld, g') →
  written (the_metadata_fixture fld) data → bundle (lit "metadata_v2") = Some data →
  testMetadataV2FixtureDecrypts bundle = Ok tt.
Proof.
  intros Hvault Henc (t & Ht & ->) Hb. pose proof (metadata_fixture_ok fld) as Hok.
  destruct (load_written _ _ _ _ Hok Ht Hb) as (l & Hl & Hsame). unfold testMetadataV2FixtureDecrypts.
  rewrite Hl. rsimpl. rewrite (string_at_same _ _ _ FIXTURE_RECORD_ID Hok Hsame) by reflexivity. rsimpl.
  rewrite (string_at_same _ _ _ FIXTURE_FIELD_NAME Hok Hsame) by reflexivity. rsimpl.
  rewrite (string_at_same _ _ _ (hex_encode _) Hok Hsame) by reflexivity. rsimpl.
  rewrite hexDecode_encoded. rsimpl.
  rewrite (loadField_same _ _ (Metadata.ciphertext fld) (Metadata.iv fld) Hok Hsame) by reflexivity. rsimpl.
  rewrite (swift_open _ Hvault). unfold swift_try. cbn [map_err].
  change {| Ffi.ciphertext := _; Ffi.iv := _ |} with (Ffi.from_field fld).
  rewrite (Ffi.decrypt_own_field _ _ _ _ _ _ _ Henc). rsimpl.
  unfold XCTAssertEqual. by rewrite bool_decide_true.
Qed.

Lemma signature_passes bundle vault data :
  Vault.open FIXTURE_MASTER_SECRET = Ok vault →
  written (the_signature_fixture vault) data → bundle (lit "signature_v1") = Some data →
  testSignatureFixtureVerifies bundle = Ok tt.
Proof.
  intros Hvault (t & Ht & ->) Hb. pose proof (signature_fixture_ok vault) as Hok.
  destruct (load_written _ _ _ _ Hok Ht Hb) as (l & Hl & Hsame). unfold testSignatureFixtureVerifies.
  rewrite Hl. rsimpl.
  do 3 (rewrite (string_at_same _ _ _ (hex_encode _) Hok Hsame) by reflexivity; rsimpl;
        rewrite hexDecode_encoded; rsimpl).
  unfold XCTAssertNoThrow, Ffi.verify_signature, Vault.device_public_key, Vault.sign_challenge.
  by rewrite public_key_bytes_length, sign_challenge_length, verify_signed.
Qed.

End written.

(** ** The frozen fixtures of format 1 *)

Section frozen.
Context `{OsRngLaws, AesGcmLaws, HkdfLaws, Ed25519Laws, Bip39Laws, Json}.
Context (bundle : str → option bytes).

(** The blob that the fixture holds has the version byte 1. *)
Definition frozen_blob : Prop :=
  ∃ fixture hex framed, loadFixture bundle (lit "blob_v1") = Ok fixture ∧
    string_at (lit "framed_hex") fixture = Ok hex ∧ hexDecode hex = Ok framed ∧ framed !! 0 = Some x01.

(** The fixture holds a field with a nonce of 12 bytes. *)
Definition frozen_field (fld : Ffi.EncryptedField) : Prop :=
  ∃ fixture, loadFixture bundle (lit "metadata_v1") = Ok fixture ∧ loadField fixture = Ok fld ∧
    length (Ffi.iv fld) = 12.

(** AES-GCM accepts the ciphertext of the field, which was made without associated data, under
    the associated data of the test. *)
Definition field_accepted (fld : Ffi.EncryptedField) : Prop :=
  ∃ vault a, Vault.open FIXTURE_MASTER_SECRET = Ok vault ∧
    field_aad (lit "fixture-record-id") (lit "document-record") = Ok a ∧
    is_Some (decrypt (aes_new (Vault.metadata_key vault)) (Ffi.iv fld)
               {| msg := Ffi.ciphertext fld; aad := a |}).

(** Whatever the cryptography does. *)
Lemma blob_v1_refused : frozen_blob → testBlobV1FixtureFailsForAnyBlobId bundle = Ok tt.
Proof.
  intros (fixture & hex & framed & Hl & Hs & Hd & Hv). unfold testBlobV1FixtureFailsForAnyBlobId.
  rewrite Hl. rsimpl. rewrite Hs. rsimpl. rewrite Hd. rsimpl.
  destruct (Ffi.open_ok fixtureMasterSecret eq_refl) as (vault & _ & ->).
  unfold swift_try, Ffi.decrypt_blob, Vault.decrypt_blob. cbn [map_err Ffi.inner].
  rewrite !decrypt_chunked_refuses; [done|valid_id_literal| |valid_id_literal|];
    right; left; rewrite Hv; discriminate.
Qed.

Lemma metadata_v1_refused fld :
  frozen_field fld → testMetadataV1FixtureFailsAead bundle = Ok tt ∨ field_accepted fld.
Proof.
  intros (fixture & Hl & Hf & Hiv). unfold testMetadataV1FixtureFailsAead.
  rewrite Hl. rsimpl. rewrite Hf. rsimpl.
  destruct (Ffi.open_ok fixtureMasterSecret eq_refl) as (vault & Hv & ->).
  unfold swift_try, Ffi.decrypt_metadata_field, Ffi.try_into_field. cbn [map_err]. rewrite Hiv.
  cbn [Nat.eqb negb]. rsimpl. unfold Vault.decrypt_metadata_field, decrypt_field. cbn [Ffi.inner].
  rewrite field_aad_eq, decide_True by (split; valid_id_literal). rsimpl. cbn [Metadata.iv Metadata.ciphertext].
  destruct (decrypt _ _ _) as [pt|] eqn:Hd; [right|by left].
  exists vault. eexists. split; [exact Hv|]. rewrite field_aad_eq, decide_True by (split; valid_id_literal).
  split; [reflexivity|]. rewrite Hd. by eexists.
Qed.

End frozen.

(** ** Properties *)

(** The test bundle built from a directory of fixtures. *)
Definition bundle_of (dir : Path) (v : gmap Path bytes) (name : str) : option bytes :=
  v !! push dir (name ++ lit ".json").

Section regenerated.
Context `{OsRngLaws, !Supply, AesGcmLaws, HkdfLaws, Ed25519Laws, Bip39Laws, JsonLaws}.

Lemma triple_create_dir_all (F : Prop) dir v g Q :
  Q (Ok tt) v g → triple F (create_dir_all dir) v g Q.
Proof.
  intros HQ. apply triple_wp; [apply preserves_control|]. intros w Hw.
  pose proof (holds_calm _ _ _ Hw) as Hcalm. destruct Hw as (_ & <- & Hv).
  apply wp_control. intros r w' [Hev Hfs] Hr.
  destruct r as [[]|e]; [|by apply refused_calm in Hr]. simpl in Hfs.
  exists v. rewrite <-Hfs. split; [done|]. intros _. by rewrite (ev_rng _ _ _ Hev).
Qed.

Lemma triple_runs {A} (F : Prop) (t : test A) P v g Q :
  runs t P → (∀ a g', P a → Q (Ok a) v g') → triple F (in_memory t) v g Q.
Proof.
  intros Ht HQ. apply triple_supplied. intros Hg. destruct (Ht g Hg) as (a & g' & E & Hg' & HP).
  eapply triple_memory; [exact E|exact Hg'|by apply HQ].
Qed.

Lemma triple_write_json (F : Prop) `{Serialize T} path (x : T) v g Q :
  json_ok (serialize x) → (∀ data, written x data → Q (Ok tt) (<[path := data]> v) g) →
  triple F (write_json path x) v g Q.
Proof.
  intros Hok HQ. destruct (to_string_pretty_total _ Hok) as [t Ht]. apply triple_bind, triple_supplied.
  intros Hg. eapply triple_memory; [|exact Hg|].
  { unfold unwrap_opt. by rewrite Ht. }
  cbv iota. apply triple_unwrap_std, triple_write. cbn [map_err]. apply HQ. by exists t.
Qed.

Lemma runs_encrypted pt wk id :
  valid_id id → (Z.of_nat (length pt) < 2 ^ 52)%Z →
  runs (unwrap_st (encrypt_chunked pt wk id)) (λ framed, ∃ g g', encrypt_chunked pt wk id g = (Ok framed, g')).
Proof. intros. apply runs_encrypt_chunked; eauto. Qed.

Lemma runs_encrypted_field pt key r f :
  valid_id r → valid_id f → (Z.of_nat (length pt) <= 2 ^ 36)%Z →
  runs (unwrap_st (encrypt_field pt key r f)) (λ fld, ∃ g g', encrypt_field pt key r f g = (Ok fld, g')).
Proof. intros. apply runs_encrypt_field; eauto. Qed.

(** The generator, step by step: three files with the fixtures of the one vault. *)
Lemma regenerate_writes manifest_dir vault v g :
  Vault.open FIXTURE_MASTER_SECRET = Ok vault →
  let dir := fixtures_dir manifest_dir in
  triple False (regenerate_fixtures manifest_dir) v g (λ r v' _, r = Ok tt ∧
    ∃ framed g1 g2 fld g3 g4 blob metadata signature,
      encrypt_chunked (lit "filum-crypto v2 blob fixture") (Vault.wrap_key vault) FIXTURE_BLOB_ID g1
        = (Ok framed, g2) ∧
      encrypt_field (lit "filum-crypto v2 metadata fixture") (Vault.metadata_key vault) FIXTURE_RECORD_ID
        FIXTURE_FIELD_NAME g3 = (Ok fld, g4) ∧
      written (the_blob_fixture framed) blob ∧ written (the_metadata_fixture fld) metadata ∧
      written (the_signature_fixture vault) signature ∧
      v' = <[push dir (lit "signature_v1.json") := signature]>
           (<[push dir (lit "metadata_v2.json") := metadata]>
           (<[push dir (lit "blob_v2.json") := blob]> v))).
Proof.
  intros Hvault. cbv zeta. unfold regenerate_fixtures.
  apply triple_bind, triple_unwrap_std, triple_create_dir_all. cbn [map_err].
  apply triple_bind. eapply triple_runs; [by eapply (runs_unwrap _ vault (eq vault))|]. intros ? g0 <-.
  apply triple_bind. eapply triple_runs.
  { apply runs_encrypted; [valid_id_literal|vm_compute; reflexivity]. }
  intros framed g1 (ga & gb & Henc).
  apply triple_bind. eapply triple_runs.
  { eapply (runs_unwrap _ _ (eq _)); [exact (decrypt_encrypted _ _ _ _ _ _ Henc)|reflexivity]. }
  intros ? g2 <-. file_step. file_step. file_step.
  apply triple_write_json; [exact (blob_fixture_ok framed)|]. intros blob Hblob.
  apply triple_bind. eapply triple_runs.
  { apply runs_encrypted_field; [valid_id_literal|valid_id_literal|vm_compute; discriminate]. }
  intros fld g3 (gc & gd & Hfld).
  apply triple_bind. eapply triple_runs.
  { eapply (runs_unwrap _ _ (eq _)); [exact (decrypt_encrypted_field _ _ _ _ _ _ _ Hfld)|reflexivity]. }
  intros ? g4 <-. file_step. file_step. file_step.
  apply triple_write_json; [exact (metadata_fixture_ok fld)|]. intros metadata Hmetadata.
  apply triple_bind. eapply triple_runs.
  { eapply (runs_unwrap _ _ (eq _)); [apply verify_signed|reflexivity]. }
  intros ? g5 <-. file_step.
  apply triple_write_json; [exact (signature_fixture_ok vault)|]. intros signature Hsignature.
  destruct (secret_has_phrase FIXTURE_MASTER_SECRET eq_refl) as (phrase & Hp & Hs).
  apply triple_bind. eapply triple_runs; [by eapply (runs_unwrap _ phrase (eq phrase))|]. intros ? g6 <-.
  apply triple_bind. eapply triple_runs; [by eapply (runs_unwrap _ FIXTURE_MASTER_SECRET (eq _))|].
  intros ? g7 <-. file_step. split; [done|].
  exists framed, ga, gb, fld, gc, gd, blob, metadata, signature. split_and!; done.
Qed.

Ltac other_fixture :=
  rewrite !push_name by literal_name; intros Heq%app_inv_head; discriminate Heq.

(** C35. Regenerating the fixtures and running the Swift tests on them. From every state of a working
    system, and with every lawful implementation of the third-party crates, the generator
    succeeds and changes no file but the three it says; the three Swift tests that read these
    files pass; the file of the signature is the same in every run. The frozen fixtures are still
    refused: the blob with version byte 1 whatever the cryptography does, the field unless
    AES-GCM accepts it under associated data it was not made with. *)
Theorem regenerated_fixtures_pass manifest_dir :
  let dir := fixtures_dir manifest_dir in
  ∃ signature_text, ∀ v g, triple False (regenerate_fixtures manifest_dir) v g (λ r v' _,
    let bundle := bundle_of dir v' in
    r = Ok tt ∧
    (∀ p, p ∉ push dir <$> [lit "blob_v2.json"; lit "metadata_v2.json"; lit "signature_v1.json"] →
          v' !! p = v !! p) ∧
    v' !! push dir (lit "signature_v1.json") = Some signature_text ∧
    testBlobV2FixtureDecrypts bundle = Ok tt ∧ testMetadataV2FixtureDecrypts bundle = Ok tt ∧
    testSignatureFixtureVerifies bundle = Ok tt ∧
    (frozen_blob (bundle_of dir v) → testBlobV1FixtureFailsForAnyBlobId bundle = Ok tt) ∧
    ∀ fld, frozen_field (bundle_of dir v) fld →
           testMetadataV1FixtureFailsAead bundle = Ok tt ∨ field_accepted fld).
Proof.
  intros dir. destruct (Ffi.open_ok FIXTURE_MASTER_SECRET eq_refl) as (vault & Hvault & _).
  destruct (to_string_pretty_total _ (signature_fixture_ok vault)) as [text Htext].
  exists (text ++ [x0a]). intros v g. eapply triple_mono; [by apply (regenerate_writes _ vault)|].
  intros r v' _ (-> & framed & g1 & g2 & fld & g3 & g4 & blob & metadata & signature & Henc & Hfld & Hb & Hm
    & Hs & ->). fold dir. cbv zeta.
  assert (signature = text ++ [x0a]) as Hsig by (destruct Hs as (t & Ht & ->); congruence).
  set (v' := <[_:=_]> _). split; [done|].
  assert (∀ p, p ∉ push dir <$> [lit "blob_v2.json"; lit "metadata_v2.json"; lit "signature_v1.json"] →
               v' !! p = v !! p) as Hothers.
  { intros p Hp. rewrite !fmap_cons, fmap_nil, !not_elem_of_cons in Hp. destruct Hp as (? & ? & ? & _).
    subst v'. by rewrite !lookup_insert_ne. }
  split; [exact Hothers|]. split; [subst v'; by rewrite lookup_insert_eq, Hsig|].
  split; [|split; [|split; [|split]]].
  - eapply blob_v2_passes; [exact Hvault|exact Henc|exact Hb|]. unfold bundle_of. subst v'.
    rewrite lookup_insert_ne by other_fixture. rewrite lookup_insert_ne by other_fixture.
    apply lookup_insert_eq.
  - eapply metadata_v2_passes; [exact Hvault|exact Hfld|exact Hm|]. unfold bundle_of. subst v'.
    rewrite lookup_insert_ne by other_fixture. apply lookup_insert_eq.
  - eapply signature_passes; [exact Hvault|exact Hs|]. apply lookup_insert_eq.
  - intros Hfrozen. apply blob_v1_refused. revert Hfrozen. unfold frozen_blob, loadFixture, bundle_of.
    by rewrite Hothers by (rewrite !fmap_cons, fmap_nil, !not_elem_of_cons; split_and!;
      [other_fixture..|apply not_elem_of_nil]).
  - intros f Hfrozen. apply metadata_v1_refused. revert Hfrozen. unfold frozen_field, loadFixture, bundle_of.
    by rewrite Hothers by (rewrite !fmap_cons, fmap_nil, !not_elem_of_cons; split_and!;
      [other_fixture..|apply not_elem_of_nil]).
Qed.

End regenerated.

(** ** The committed fixtures *)

(** The text of a file with apostrophes for quotes. *)
Definition quoted (s : string) : bytes := (λ b, if bool_decide (b = x27) then quote_byte else b) <$> lit s.

(** [Fixtures/blob_v1.json]. *)
Definition committed_blob_v1 : bytes := quoted "{
  'note': 'Rust-produced golden. Decrypt with master_secret = [0u8; 32].',
  'plaintext_hex': '66696c65722d63727970746f20763120626c6f622066697874757265',
  'framed_hex': '01e6941cd6e897c6160d1550ec1940f77e37409e3f9937f54ceda2cab7a87d578cef2961d3bbc400968e56b6cdc8ff0b15cac5b096165e15c6a75c49a36755b8e6bfad6d00100000dca56a1032c7c46010b820f32cd7fd585e965e45e0f4c7a89a5adf057e3cc6ff88840d0312460c04a85ffe3c'
}
".

(** [Fixtures/metadata_v1.json]. *)
Definition committed_metadata_v1 : bytes := quoted "{
  'note': 'Rust-produced golden. Decrypt with master_secret = [0u8; 32].',
  'plaintext_hex': '66696c65722d63727970746f207631206d657461646174612066697874757265',
  'field': {
    'ciphertext_hex': 'c98b16e7113a876de7d56f10bacade4b77b510182265a11ad802ac193a4bce37160269a45de474d732f32d96080d1555',
    'iv_hex': '429d560fb7be3f0c8bb40728'
  }
}
".

Definition committed (name : str) : option bytes :=
  if bool_decide (name = lit "blob_v1") then Some committed_blob_v1 else
  if bool_decide (name = lit "metadata_v1") then Some committed_metadata_v1 else None.

(** They are what the theorem asks of frozen fixtures, and the tests on them pass. *)
Lemma committed_blob_frozen bundle :
  bundle (lit "blob_v1") = Some committed_blob_v1 → frozen_blob bundle.
Proof.
  intros Hb.
  unfold frozen_blob, loadFixture. rewrite Hb.
  do 3 eexists. split; [vm_compute; reflexivity|]. split; [vm_compute; reflexivity|].
  split; vm_compute; reflexivity.
Qed.

Example committed_fixtures_refused :
  testBlobV1FixtureFailsForAnyBlobId committed = Ok tt ∧ testMetadataV1FixtureFailsAead committed = Ok tt ∧
  match (fixture ← loadFixture committed (lit "metadata_v1"); loadField fixture) : result _ _ with
  | Ok fld => length (Ffi.iv fld) = 12
  | Err _ => False
  end.
Proof. vm_compute. done. Qed.

Definition sample_manifest : str := lit "/repo/crates/filum-crypto".

Lemma regenerated_fixtures_pass_witness :
  let dir := fixtures_dir sample_manifest in
  ∃ w' v', run ((_ ← unwrap_std (fs_write (push dir (lit "blob_v1.json")) committed_blob_v1);
                 regenerate_fixtures sample_manifest) empty_world) = Some (Ok tt, w') ∧
    (∀ p, contents (w_fs w') p = v' !! p) ∧
    testBlobV2FixtureDecrypts (bundle_of dir v') = Ok tt ∧
    testBlobV1FixtureFailsForAnyBlobId (bundle_of dir v') = Ok tt.
Proof.
  destruct (regenerated_fixtures_pass sample_manifest) as [text Hall]. cbv zeta in *.
  set (v0 := <[push (fixtures_dir sample_manifest) (lit "blob_v1.json") := committed_blob_v1]> (∅ : gmap Path bytes)).
  destruct (triple_bind False _ (λ _, regenerate_fixtures sample_manifest) ∅ (toy_gen 1) _
    (triple_unwrap_std False _ _ _ _ (triple_write False (push (fixtures_dir sample_manifest) (lit "blob_v1.json"))
       committed_blob_v1 ∅ (toy_gen 1) _ (Hall v0 (toy_gen 1)))) empty_world empty_world_holds)
    as [[]|(r & w' & v' & g' & Hrun & Hw' & -> & _ & _ & Hblob & _ & _ & Hv1 & _)].
  exists w', v'. split; [exact Hrun|]. split; [apply Hw'|]. split; [exact Hblob|].
  apply Hv1, committed_blob_frozen, lookup_insert_eq.
Defined.
